(* ===== verification/_CoqProject ===== *)
-Q . S2P
Prelude.v
PeerId.v
Buffer.v
Wire.v
WireFacts.v
WireGrammar.v
Config.v
Socket.v
EventLoop.v
Gossip.v
Network.v
Traffic.v
Membership.v
MembershipNet.v
Crypto.v
Identity.v
Discovery.v
MeshConfig.v
PeerConnection.v
ConnectionFacts.v
CryptoStub.v
ConnectionProgress.v
Admission.v
Handshake.v
Stream.v
PeerManager.v
PeerManagerFacts.v
ConnectionContract.v
ManagerLogic.v
MeshDelegate.v
Reaping.v
MeshImpl.v
Reactor.v
MeshFacade.v
Examples.v
