(* ===== verification/Prelude.v ===== *)
(** * multimaster: a verification development

    multimaster is a C++20 library in which the nodes of a local network find
    each other by UDP multicast, connect over TCP, and distribute opaque
    messages through the resulting mesh.  This library models the node's core
    in Rocq and proves what makes it correct.  File names below are those of
    the repository, which lies in the directory [src/].

    ** The program and its model

    One thread per node runs an event loop; everything else is called from
    it.  Discovery surfaces other nodes; the peer manager dials them and owns
    one connection object per TCP link; a connection frames, authenticates
    and encrypts the stream and hands data and membership frames upwards; the
    router drops duplicates, delivers and relays; membership keeps the graph
    of links and tells the application who belongs to the mesh.  Application
    threads reach that thread through a mailbox and read what it publishes
    from snapshots.

    - [Prelude]: bytes, machine-width integers ([wrap w] is reduction modulo
      [2^w]), big-endian coding, fixed-size arrays, list and option lemmas,
      tactics and the hint databases.
    - [PeerId]: [peer_id] and [message_id] (src/include/multimaster/peer_id.hpp,
      src/src/peer_id.cpp, src/src/wire.hpp), order, text form, hashing.
    - [Buffer], module [buffer]: src/src/buffer.hpp, the vector and its cursor.
    - [Wire]: src/src/wire.hpp and src/src/wire.cpp, every encoder ([put_*],
      [encode_*]), the [reader] with its sticky flag, [decode_announce] and
      [try_decode_frame].  [WireFacts] proves what becomes of encoded
      frames, [WireGrammar] which bytes the decoders accept at all.
    - [Config]: src/include/multimaster/config.hpp and the error values of
      events.hpp.
    - [Socket]: src/src/socket.hpp, src/src/socket.cpp (module [socket]: the
      owner of a descriptor with its moves; module [sockopt]: the settings of a
      descriptor; [make_addr], [ip_to_string]), the interest list of
      src/src/event_loop.cpp (module [epoll]) and src/src/listener.cpp (module
      [listener]).
    - [EventLoop], module [event_loop]: the timer heap, [fire_due_timers],
      [next_timeout_ms], [run], [stop] and [wakeup] of
      src/src/event_loop.cpp.  A callback is a program over the loop's own
      operations, so it may arm and cancel timers and stop the loop.
    - [Gossip], module [gossip_router]: src/src/gossip_router.cpp, the dedup
      cache with both evictions, [broadcast], [send], [on_data] and the
      eviction timer.  [Network], module [network], joins the routers of many
      nodes by links on which frames travel in any order; [Traffic], module
      [traffic], lets them carry any number of broadcasts and targeted messages
      at a time, over links that come, go and lose what is on them.
    - [Membership], module [membership]: src/src/membership.cpp, records,
      flooding, expiry, and the breadth-first search behind [recompute].
      [MembershipNet], module [membership_network], joins the memberships of
      many nodes by links.
    - [Crypto], module [crypto]: src/src/crypto.cpp as built with libsodium:
      key derivation, discovery MAC, handshake, the record layer, identities.
      [CryptoStub], module [crypto_stub]: the same file as built without it.
    - [Identity]: [local_identity] of src/src/peer_connection.hpp.
    - [Discovery], module [discovery]: [start], [send_announce] and the receive
      path of src/src/discovery.cpp.
    - [MeshConfig]: the configuration stage of [mesh_impl::start]
      (src/src/mesh_impl.cpp): hexadecimal text (module [hex]), the identity
      file (module [disk]: files with permissions, and writes that may fall
      short), keys, identity and allowlist (module [mesh_start]).
    - [PeerConnection], module [peer_connection]: src/src/peer_connection.cpp
      whole: the handshake state machine, reading, parsing, dispatch, the
      outbound queue with its overflow policies, closing; [arrived] observes the
      bytes read.  [ConnectionFacts], [ConnectionProgress] (with a program logic
      for the connection), [Admission] and [Handshake] prove its properties;
      [Stream] joins two connections by a byte stream.
    - [PeerManager], module [peer_manager]: src/src/peer_manager.cpp whole:
      discovery, dialling, dial races, static peers, reconnecting, the tick,
      name gossip, reaping.  A connection is an object that may report errors
      and close when it is called; [ConnectionContract] proves that the
      connections of [PeerConnection] behave so.  [PeerManagerFacts] proves the
      manager's properties.
    - [ManagerLogic], module [manager_logic]: a small program logic for the
      manager ([preserves], its rules and tactics), shared by the invariants of
      the next two files.
    - [MeshDelegate], module [mesh_delegate]: the callbacks and snapshots of
      src/src/mesh_impl.cpp, by which the manager's events reach the application
      and its accessors ([connected_peers], [known_peers], [members],
      [node_name]).
    - [MeshImpl]: [mesh_impl::start] whole (module [startup]), and the running
      node (module [mailbox]): threads inside [broadcast], [send] and [stop], the
      mailbox, the [eventfd] and the IO thread, as steps that interleave freely
      at each lock and system call.  The join in [stop] adds no step.
    - [Reaping], module [reaping]: which connections the manager still owes to
      destroy, and that each of its operations keeps account of them.
    - [Reactor], module [reactor]: the node on its event loop, as
      src/src/mesh_impl.cpp puts it together: the loop of [EventLoop] dispatches
      listener, discovery, connections and mailbox to the manager of
      [PeerManager] and fires the timers the manager, the router and discovery
      arm.
    - [MeshFacade], module [facade]: src/include/multimaster/mesh.hpp and
      src/src/mesh.cpp over [startup], [mesh_delegate] and the constructor,
      destructor and [stop] of src/src/mesh_impl.cpp: handles, the nodes they
      own, callers on the application's thread and in callbacks, and threads
      blocked in a join.  A call is one step here.
    - [Examples]: src/examples/chat.cpp (module [chat]) and
      src/examples/ping.cpp (module [ping]), with what both do with their mesh
      (module [program]).

    ** What is a parameter

    - libsodium: the class [Sodium] lists the primitives the wrapper calls,
      [SodiumLaws] the documented facts the theorems use (agreement of the
      key exchange, decryption inverting encryption, verification of own
      signatures).  A small concrete instance satisfies them all, and the
      witnesses run on it.
    - Name resolution, the outcome of [connect], random numbers, and which
      calls on connections fail, are scripts of the manager's environment.
    - The kernel: results of [send], [recv], [accept4], [epoll_wait],
      [epoll_ctl], [recvfrom] and of the calls that set sockets up are scripts
      given to the model, as is how much of a file gets written; [inet_pton] and
      the clock are functions.  The theorems hold for all scripts.
    - Components above a module are classes: [Forwarder] for the router (the
      class [forwarder] of gossip_router.hpp) and [ConnectionListener] for a
      connection (the class [connection_listener]).  An owner's reaction to an
      event is a program over the operations a connection offers, so it may
      send, or close the connection, from inside the callback, as the real
      owner does.

    ** What the theorems show

    - Wire format: [frame_roundtrip], [announce_roundtrip] (what is encoded is
      decoded), [decode_stable], [partial_frame_needs_more],
      [decode_consumes_within] (a growing stream is cut at the same places
      whatever the chunks, and a decode stays inside its input),
      [decoder_exact] (the grammar of what is accepted, from any peer).
    - Identifiers and buffer: [peer_id_text_exact] (the parser accepts exactly
      the texts of identifiers), [buffer_refines_queue] (the class refines a
      byte queue, with bounded waste).
    - Sockets: [sockets_close_once] (every descriptor is closed once, by the
      object that owns it, whatever is moved, released or adopted where).
    - Connection: [owner_hears_in_order] (handshake, then deliveries, then one
      close), [only_authenticated_admitted] (who can reach the owner: the hello and the
      confirmation that vouch for a peer stand in the bytes read from it),
      [outbound_fifo] and [outbound_bounded] (the queue),
      [parse_leaves_no_frame] (the loops end and do all there is to do),
      [handshake_completes] (two honest ends both succeed, with mirrored
      sessions), [link_delivers] (what one owner sends, the other is given: the
      wire format, the record layer, the buffers and both state machines
      together), [drop_newest_skips_counter] (a defect, below); [stub_build_never_secure]
      (without libsodium no link is ever secured, whatever is configured).
    - Peer manager: [links_are_live] and [no_dangling_use] (the table of links
      is right and no destroyed connection is used, although a send can close a
      connection and re-enter the manager), [dial_race_agrees] (both ends keep
      the same link), [backoff_bounds], [name_gossip_policy],
      [zero_id_dangles] (a defect); [connection_keeps_contract] links it to the
      connections.
    - Cryptographic wrapper: [handshake_agreement], [records_arrive_in_order],
      [nonces_unique] (no two records of a session are encrypted under one
      nonce).
    - Router: [duplicate_dropped] (the dedup window), [on_data_policy] (every
      branch of the forwarding policy), [minted_ids_unique],
      [at_most_two_sweeps] (a defect).
    - Network: [traffic_delivered] (of any number of concurrent broadcasts and
      targeted messages every application is given those meant for it, each
      once, in a bounded number of deliveries), [churn_delivered] (the same
      while links change: what a path of lasting links can carry arrives),
      [flood_reaches_all] (the same
      for one broadcast, with caches of any content), [membership_converges]
      (every node comes to list its component, whatever stale records there
      were).
    - Membership: [members_are_component] (a refinement: the loop computes the
      connected component of the node in the graph of links),
      [member_events_replay], [record_flooded_once],
      [neighbours_change_only], [tick_expires_silent].
    - Discovery: [announce_accepted_iff] (mode, version, group, identifier and
      MAC decide), [discovered_is_checked],
      [discovery_starts_or_reports], [long_group_never_discovered] (a defect).
    - The node on its loop: [no_event_strays] (no event is dispatched to a
      connection that is gone), [turns_leave_no_dead] (every turn destroys what
      died in it) and [stop_leaves_nothing] (a stop ends the loop and destroys
      every connection); [loop_drives_manager] shows that a run of the loop is a
      sequence of the manager's operations, for which [links_are_live] and its
      companions hold, and [drain_is_mailbox] that the wake handler does what
      [mailbox] does step by step.
    - Starting and stopping: [start_configures] (which configurations are
      accepted, and that the keys are those of the configured, stored or new
      seed), [identity_survives_restart], [start_outcomes],
      [accessors_tell_truth] (the snapshots agree with the manager's state and
      with the events the application was sent), [commands_in_order],
      [mailbox_settles] (no wakeup is lost) and [stop_is_orderly].
    - The facade: [facade_safe] (which programs never misuse a handle, leak a
      node or hang), with runs of programs that break its conditions:
      [self_destruction_terminates], [moved_from_is_null],
      [crossed_stops_hang].
    - The examples: [command_line_roundtrip], [getlines_lines], [ping_pong], and
      [chat_is_safe] and [ping_is_safe] (neither program can misuse its mesh or
      leave anything behind).
    - Event loop: [timers_fire_in_order], [cancelled_timer_never_fires],
      [sweep_serves_all_due] (also when callbacks arm timers that are due at
      once), [next_timeout_tight].

    ** Fuel and bounds

    - [parse_plaintext], [drain_records] and [parse_secure] take one unit of
      fuel per turn and are called with one more than the number of buffered
      bytes; each turn consumes at least one byte, and
      [parse_leaves_no_frame] proves that the fuel does not run out.
    - [bfs] is called with the number of nodes that occur in the graph;
      [members_are_component] proves that the queue is empty afterwards.
    - [fire_loop] and [cycles] take fuel because callbacks may arm timers that
      are due at once, in which case the source loops for ever too.  The
      safety theorems hold for every fuel; [sweep_serves_all_due] gives the
      fuel that suffices when each callback arms only a limited number of timers
      that fall due within the sweep (its [rank]).  The manager arms its reap
      timer with delay zero, also from timers; a reap arms nothing and every
      other callback at most one reap ([reactor.body_frugal]), so two turns per
      pending timer are enough, and one more for [turns_leave_no_dead], which
      starts from any queue.
    - [on_peer_closed] re-enters itself; [on_peer_closed_within] bounds the depth
      by the number of connections plus three, and [no_dangling_use] proves that
      the bound is never reached.
    - [flood_reaches_all] bounds the deliveries of a flood by the number of link
      ends, and asks for a hop limit not below the number of other nodes:
      the example [short_limit_misses] shows a smaller one failing.
      [traffic_delivered] multiplies that by the number of messages, and asks
      for caches that hold them all and a period not longer than [dedupTtl];
      [churn_delivered] takes the greatest number of links of each node for the
      number of link ends.
    - [membership_converges] bounds the deliveries by the link ends times the
      number of ticks in the period.
    - [mailbox_settles] bounds the steps left by [work_left], which every step
      that carries out a command decreases.
    - [counter_], the record counters and the timer identifiers are 64-bit and
      wrap; the uniqueness theorems state the range in which they do not.

    ** Defects the model shows

    The re-armed eviction timer of the router is not armed again
    ([at_most_two_sweeps]); a frame dropped by the overflow policy has already
    advanced the record counter, so a secured connection cannot recover
    ([drop_newest_skips_counter]); group names above 255 bytes are clipped by
    the sender and compared unclipped by the receiver
    ([long_group_never_discovered]); a peer with the all-zero identifier leaves
    a dangling pointer behind ([zero_id_dangles]).  [PeerManagerFacts] ends with
    runs that show three more: [connected_after_disconnected],
    [stuck_connecting] and [tick_walk_invalidated].  An identity file that is
    written only in part makes the next start fail
    ([short_write_breaks_restart]); [start] on a running node changes its
    identity record before it finds that it has nothing to do
    ([second_start_appends]); after a failed bind the node cannot be started any
    more ([failed_bind_is_final]).  A mesh destroyed in its own callback terminates the
    program ([self_destruction_terminates]); if no thread can be created the
    node says that it runs ([no_thread_still_running]).

    ** What is not modelled

    The programs under src/tests.  In [Network] and [Traffic] a node numbers
    its sockets after the peers; that socket numbers are reused plays no part
    in the router.  A lasting link of [churn_delivered] is one connection: what
    was queued on a connection that breaks is lost also when the nodes connect
    again.  [MembershipNet] has links that do not change, but starts from any
    records, so it says what happens once the links have settled.  In [Reactor]
    what a connection makes of its bytes is any list of calls on its owner
    ([ConnectionContract] and [ConnectionFacts] say which occur); the manager's
    clock runs beside the loop's; and the timers armed in one call of the
    manager are armed at its end. In [MeshFacade] the application has one thread
    of its own, as [stop] and the moves are not documented as thread-safe; more
    threads inside [broadcast], [send] and [stop] are in [mailbox]. The IO
    thread's loop is taken not to fail in [epoll_wait] while the node runs, and
    [broadcast] from inside a callback is a call of one more thread. Memory
    allocation failure is not modelled, nor is the reuse of a destroyed object's
    address: a pointer that outlives its object never meets another one.
    [reconnectAttempts] and the attempts of static targets are [int] in the
    source and unbounded here.  In [Network] and [Traffic] sends do not fail,
    queue without limit and close no link; what failing sends do to a manager is
    in [PeerManagerFacts], and lost packets and links in [churn_delivered].  The
    contract of [facade_safe] ([polite]) is this development's reading of
    mesh.hpp: calls only through handles that own a node, one application
    thread.  [sockets_close_once] lets a program adopt only descriptors that
    nothing else owns. *)
From Stdlib Require Import ZArith Lia.
From Stdlib.Strings Require Import Byte.
From stdpp Require Import base gmap sets list strings numbers option.

#[global] Open Scope Z_scope.

(** ** Bytes

    [std::byte] is the Standard Library's 256-constructor type; its value as
    an unsigned integer is [byte_to_Z], and [static_cast<std::byte>] of a
    wider integer keeps the low eight bits, [byte_of_Z]. *)

Definition byte_to_Z (b : byte) : Z := Z.of_N (Byte.to_N b).

Definition byte_of_Z (z : Z) : byte :=
  default Byte.x00 (Byte.of_N (Z.to_N (z `mod` 256))).

Lemma byte_to_Z_range b : 0 ≤ byte_to_Z b < 256.
Proof. unfold byte_to_Z. pose proof (Byte.to_N_bounded b). lia. Qed.

Lemma byte_of_to_Z b : byte_of_Z (byte_to_Z b) = b.
Proof.
  pose proof (byte_to_Z_range b). unfold byte_of_Z.
  rewrite Z.mod_small by done. unfold byte_to_Z.
  by rewrite N2Z.id, Byte.of_to_N.
Qed.

Lemma byte_to_of_Z z : byte_to_Z (byte_of_Z z) = z `mod` 256.
Proof.
  unfold byte_of_Z, byte_to_Z.
  pose proof (Z.mod_pos_bound z 256 ltac:(lia)).
  destruct (Byte.of_N (Z.to_N (z `mod` 256))) eqn:E; simpl.
  - apply Byte.to_of_N in E. lia.
  - apply Byte.of_N_None_iff in E. lia.
Qed.

Lemma byte_to_Z_inj b1 b2 : byte_to_Z b1 = byte_to_Z b2 → b1 = b2.
Proof. intros H. by rewrite <-(byte_of_to_Z b1), H, byte_of_to_Z. Qed.

#[global] Instance byte_eq_dec : EqDecision byte := Byte.byte_eq_dec.

#[global] Instance byte_countable : Countable byte.
Proof.
  refine (inj_countable' byte_to_Z byte_of_Z _). apply byte_of_to_Z.
Defined.

#[global] Instance byte_inhabited : Inhabited byte := populate Byte.x00.

(** A byte string spelled as a literal: [std::string] values are sequences of
    bytes, and so are the labels the source keeps as [char] arrays. *)
Definition bytes_of_string (s : string) : list byte :=
  String.list_byte_of_string s.

(** ** Fixed-size byte arrays

    [std::array<std::byte, n>]: a list of exactly [n] bytes.  The length is
    kept as a boolean equation, so two arrays with the same bytes are equal. *)

Record array (n : nat) := mk_array {
  elems : list byte;
  elems_len : Nat.eqb (length elems) n = true;
}.
Arguments mk_array {n} _ _.
Arguments elems {n} _.
Arguments elems_len {n} _.

Lemma array_eq {n} (a b : array n) : elems a = elems b → a = b.
Proof.
  destruct a as [la Ha], b as [lb Hb]; simpl; intros ->.
  f_equal. apply Eqdep_dec.UIP_dec, Bool.bool_dec.
Qed.

Lemma length_elems {n} (a : array n) : length (elems a) = n.
Proof. destruct a as [l H]; simpl. by apply Nat.eqb_eq. Qed.

(** The value-initialised array [{}]. *)
Fixpoint zero_array_len (n : nat) :
  Nat.eqb (length (replicate n Byte.x00)) n = true :=
  match n with O => eq_refl | S n => zero_array_len n end.

Definition zero_array (n : nat) : array n :=
  mk_array (replicate n Byte.x00) (zero_array_len n).

(** Copying [n] bytes out of a longer run ([memcpy] into an array); a run that
    is too short is padded with zeros, a case no caller reaches. *)
Definition array_of (n : nat) (l : list byte) : array n :=
  let l' := take n (l ++ replicate n Byte.x00) in
  match Bool.bool_dec (Nat.eqb (length l') n) true with
  | left H => mk_array l' H
  | right _ => zero_array n
  end.

Lemma elems_array_of n l :
  elems (array_of n l) = take n (l ++ replicate n Byte.x00).
Proof.
  unfold array_of. destruct Bool.bool_dec as [H|H]; [done|].
  destruct H. apply Nat.eqb_eq.
  rewrite length_take, length_app, length_replicate. lia.
Qed.

Lemma elems_array_of_exact n l : length l = n → elems (array_of n l) = l.
Proof. intros <-. rewrite elems_array_of. by rewrite take_app_length. Qed.

Lemma array_of_elems {n} (a : array n) : array_of n (elems a) = a.
Proof. apply array_eq, elems_array_of_exact, length_elems. Qed.

Lemma array_of_app {n} (a : array n) l : array_of n (elems a ++ l) = a.
Proof.
  apply array_eq. rewrite elems_array_of, <-(assoc_L (++)).
  by rewrite take_app_length' by (by rewrite length_elems).
Qed.

#[global] Instance array_eq_dec n : EqDecision (array n).
Proof.
  intros a b. destruct (decide (elems a = elems b)) as [H|H].
  - left. by apply array_eq.
  - right. by intros ->.
Defined.

#[global] Instance array_countable n : Countable (array n).
Proof. refine (inj_countable' elems (array_of n) _). apply array_of_elems. Defined.

#[global] Instance array_inhabited n : Inhabited (array n) :=
  populate (zero_array n).

(** [std::memcmp] on two runs of the same length: the first differing byte
    decides, as unsigned values. *)
Fixpoint memcmp (l1 l2 : list byte) : comparison :=
  match l1, l2 with
  | b1 :: l1, b2 :: l2 =>
      match Z.compare (byte_to_Z b1) (byte_to_Z b2) with
      | Eq => memcmp l1 l2
      | c => c
      end
  | _, _ => Eq
  end.

Lemma memcmp_refl l : memcmp l l = Eq.
Proof. induction l as [|b l IH]; simpl; [done|]. by rewrite Z.compare_refl. Qed.

Lemma memcmp_eq l1 l2 : length l1 = length l2 → memcmp l1 l2 = Eq ↔ l1 = l2.
Proof.
  revert l2; induction l1 as [|b1 l1 IH]; intros [|b2 l2]; simpl; try done.
  intros [= Hlen]. destruct (Z.compare_spec (byte_to_Z b1) (byte_to_Z b2)) as [E|E|E].
  - apply byte_to_Z_inj in E as ->. rewrite IH by done. split; [by intros ->|by intros [=]].
  - split; [done|]. intros [= -> ->]. lia.
  - split; [done|]. intros [= -> ->]. lia.
Qed.

Lemma memcmp_antisym l1 l2 : memcmp l2 l1 = CompOpp (memcmp l1 l2).
Proof.
  revert l2; induction l1 as [|b1 l1 IH]; intros [|b2 l2]; simpl; try done.
  rewrite (Z.compare_antisym (byte_to_Z b1)).
  destruct (Z.compare (byte_to_Z b1) (byte_to_Z b2)); simpl; auto.
Qed.

Lemma memcmp_lt_trans l1 l2 l3 :
  length l1 = length l2 → length l2 = length l3 →
  memcmp l1 l2 = Lt → memcmp l2 l3 = Lt → memcmp l1 l3 = Lt.
Proof.
  revert l2 l3; induction l1 as [|b1 l1 IH]; intros [|b2 l2] [|b3 l3]; simpl; try done.
  intros [= H12] [= H23].
  destruct (Z.compare_spec (byte_to_Z b1) (byte_to_Z b2)) as [E12|E12|E12];
    destruct (Z.compare_spec (byte_to_Z b2) (byte_to_Z b3)) as [E23|E23|E23];
    destruct (Z.compare_spec (byte_to_Z b1) (byte_to_Z b3)) as [E13|E13|E13];
    intros; try done; try lia; eauto.
Qed.

(** ** Machine integers

    An unsigned [w]-bit integer is a [Z] between [0] and [2^w]; a computation
    that can leave the range is written with its wrap-around. *)

Definition wrap (w : Z) (z : Z) : Z := z `mod` 2 ^ w.

Definition in_range (w : Z) (z : Z) : Prop := 0 ≤ z < 2 ^ w.

#[global] Instance in_range_dec w z : Decision (in_range w z).
Proof. unfold in_range. apply _. Defined.

Lemma wrap_small w z : in_range w z → wrap w z = z.
Proof. unfold in_range, wrap. intros. by apply Z.mod_small. Qed.

Lemma wrap_range w z : 0 ≤ w → in_range w (wrap w z).
Proof. intros. apply Z.mod_pos_bound, Z.pow_pos_nonneg; lia. Qed.

Lemma land_255 z : Z.land z 255 = z `mod` 256.
Proof. change 255 with (Z.ones 8). by rewrite Z.land_ones. Qed.

Lemma byte_of_Z_land z : byte_of_Z (Z.land z 255) = byte_of_Z z.
Proof. unfold byte_of_Z. by rewrite land_255, Z.mod_mod. Qed.

(** Shifting a [k]-bit digit in: [(v << k) | b]. *)
Lemma shift_in k v b :
  0 ≤ k → 0 ≤ b < 2 ^ k → Z.lor (Z.shiftl v k) b = v * 2 ^ k + b.
Proof.
  intros Hk Hb. rewrite <-Z.shiftl_mul_pow2, <-Z.add_lor_land by done.
  enough (Z.land (Z.shiftl v k) b = 0) as -> by lia.
  rewrite <-(Z.mod_small b (2 ^ k)) by done.
  apply Z.bits_inj'; intros i Hi. rewrite Z.land_spec, Z.bits_0.
  destruct (decide (i < k)).
  - by rewrite Z.shiftl_spec_low.
  - by rewrite Z.mod_pow2_bits_high, andb_false_r by lia.
Qed.

Lemma shift_in_byte v b : 0 ≤ b < 256 → Z.lor (Z.shiftl v 8) b = v * 256 + b.
Proof. intros. by apply (shift_in 8). Qed.

(** *** Big-endian byte runs *)

(** The bytes [for (i = n-1; i >= 0; --i) push((v >> (i*8)) & 0xFF)]. *)
Fixpoint be_bytes (n : nat) (v : Z) : list byte :=
  match n with
  | O => []
  | S n => byte_of_Z (Z.land (Z.shiftr v (Z.of_nat n * 8)) 255) :: be_bytes n v
  end.

(** The value [for (b : l) v = (v << 8) | b], without truncation. *)
Definition be_value (l : list byte) : Z :=
  fold_left (λ v b, v * 256 + byte_to_Z b) l 0.

Lemma length_be_bytes n v : length (be_bytes n v) = n.
Proof. induction n; simpl; auto. Qed.

Lemma be_value_acc l v :
  fold_left (λ v b, v * 256 + byte_to_Z b) l v =
  v * 256 ^ Z.of_nat (length l) + be_value l.
Proof.
  unfold be_value. revert v; induction l as [|b l IH]; intros v; cbn [fold_left length].
  - rewrite Z.mul_1_r. lia.
  - rewrite IH, (IH (0 * 256 + _)), Nat2Z.inj_succ, Z.pow_succ_r by lia. lia.
Qed.

Lemma be_value_cons b l :
  be_value (b :: l) = byte_to_Z b * 256 ^ Z.of_nat (length l) + be_value l.
Proof. unfold be_value at 1. cbn [fold_left]. by rewrite be_value_acc. Qed.

Lemma be_value_range l : 0 ≤ be_value l < 256 ^ Z.of_nat (length l).
Proof.
  induction l as [|b l IH]; [by vm_compute|].
  rewrite be_value_cons. cbn [length]. rewrite Nat2Z.inj_succ, Z.pow_succ_r by lia.
  pose proof (byte_to_Z_range b). nia.
Qed.

Lemma be_value_be_bytes n v :
  be_value (be_bytes n v) = v `mod` 256 ^ Z.of_nat n.
Proof.
  induction n as [|n IH]; cbn [be_bytes].
  - by rewrite Z.mod_1_r.
  - rewrite be_value_cons, length_be_bytes, IH, byte_of_Z_land, byte_to_of_Z.
    rewrite Z.shiftr_div_pow2, (Z.mul_comm (Z.of_nat n)), Z.pow_mul_r by lia.
    change (2 ^ 8) with 256. rewrite Nat2Z.inj_succ, Z.pow_succ_r by lia.
    pose proof (Z.pow_pos_nonneg 256 (Z.of_nat n)).
    rewrite (Z.mul_comm 256), Z.rem_mul_r by lia. lia.
Qed.

Lemma be_bytes_inj n v1 v2 :
  in_range (8 * Z.of_nat n) v1 → in_range (8 * Z.of_nat n) v2 →
  be_bytes n v1 = be_bytes n v2 → v1 = v2.
Proof.
  unfold in_range. rewrite Z.pow_mul_r by lia. change (2 ^ 8) with 256.
  intros H1 H2 H. apply (f_equal be_value) in H.
  by rewrite !be_value_be_bytes, !Z.mod_small in H.
Qed.

Lemma be_bytes_be_value l : be_bytes (length l) (be_value l) = l.
Proof.
  assert (∀ n k, (n ≤ length l)%nat → k = be_value l →
    be_bytes n k = drop (length l - n) l) as Hgen.
  { intros n k. revert n. induction n as [|n IH]; intros Hn ->.
    - by rewrite Nat.sub_0_r, drop_all.
    - cbn [be_bytes]. rewrite IH by (done || lia).
      destruct (lookup_lt_is_Some_2 l (length l - S n) ltac:(lia)) as [b Hb].
      rewrite (drop_S _ _ _ Hb). f_equal; [|f_equal; lia].
      apply byte_to_Z_inj. rewrite byte_of_Z_land, byte_to_of_Z.
      rewrite <-(take_drop_middle _ _ _ Hb) at 1.
      unfold be_value. rewrite fold_left_app. cbn [fold_left].
      rewrite be_value_acc, length_drop.
      replace (length l - S (length l - S n))%nat with n by lia.
      rewrite Z.shiftr_div_pow2, (Z.mul_comm (Z.of_nat n)), Z.pow_mul_r by lia.
      change (2 ^ 8) with 256.
      pose proof (Z.pow_pos_nonneg 256 (Z.of_nat n)).
      pose proof (be_value_range (drop (S (length l - S n)) l)) as Hr.
      rewrite length_drop in Hr.
      replace (length l - S (length l - S n))%nat with n in Hr by lia.
      rewrite Z.add_comm, Z.div_add, Z.div_small, Z.add_0_l by lia.
      rewrite Z.add_comm, Z.mod_add by lia.
      apply Z.mod_small, byte_to_Z_range. }
  rewrite Hgen by done. by rewrite Nat.sub_diag.
Qed.

(** ** Lists *)

Lemma filter_all {A} (P : A → Prop) `{!∀ x, Decision (P x)} (l : list A) :
  Forall P l → filter P l = l.
Proof.
  induction 1 as [|x l Hx _ IH]; [done|]. by rewrite filter_cons_True, IH.
Qed.

(** An option that is not empty, whatever the default. *)
Lemma some_default {A} (d : A) (o : option A) :
  match o with Some _ => true | None => false end = true → o = Some (default d o).
Proof. by destruct o. Qed.

(** ** Time

    [event_loop::clock] is a steady clock: a time point is a [Z] in
    nanoseconds.  Configured durations are milliseconds. *)

Definition ms (d : Z) : Z := d * 1000000.

(** ** Automation *)

Create HintDb mm discriminated.
Create Rewrite HintDb mm_len.
#[export] Hint Resolve byte_to_Z_range wrap_range be_value_range : mm.
#[export] Hint Rewrite @length_elems length_be_bytes @length_app @length_take
  @length_drop @length_replicate : mm_len.

(** Solve a length or bounds goal after pushing [length] to the leaves. *)
Ltac len := autorewrite with mm_len in *; cbn [length] in *; try lia.

(** Linear arithmetic with division and remainder by constants. *)
Ltac zlia := Z.to_euclidean_division_equations; lia.

(** Split a boolean conjunction or disjunction into its propositional reading. *)
Ltac bool_to_prop :=
  repeat match goal with
  | H : _ && _ = true |- _ => apply andb_true_iff in H as [? ?]
  | H : _ || _ = false |- _ => apply orb_false_iff in H as [? ?]
  | H : negb _ = true |- _ => apply negb_true_iff in H
  | H : negb _ = false |- _ => apply negb_false_iff in H
  | H : bool_decide _ = true |- _ => apply bool_decide_eq_true in H
  | H : bool_decide _ = false |- _ => apply bool_decide_eq_false in H
  end.
