(* ===== verification/PeerId.v ===== *)
(** * Node and message identifiers

    [peer_id] (src/include/multimaster/peer_id.hpp, src/src/peer_id.cpp) and
    [message_id] (src/src/wire.hpp): 128-bit values, their comparison, the
    hexadecimal text form of a [peer_id] and the FNV hash of both.  The order
    is the one the dial race is decided by; the text form round-trips and the
    parser is characterised exactly. *)
From Stdlib Require Import ZArith Lia.
From Stdlib.Strings Require Import Byte.
From stdpp Require Import base gmap sets list strings numbers option.
From S2P Require Import Prelude.

Record peer_id := mk_peer_id { bytes : array 16 }.

Record message_id := mk_message_id { msg_bytes : array 16 }.

#[global] Instance peer_id_eq_dec : EqDecision peer_id.
Proof. solve_decision. Defined.

#[global] Instance peer_id_countable : Countable peer_id.
Proof. refine (inj_countable' bytes mk_peer_id _). by intros []. Defined.

#[global] Instance message_id_eq_dec : EqDecision message_id.
Proof. solve_decision. Defined.

#[global] Instance message_id_countable : Countable message_id.
Proof. refine (inj_countable' msg_bytes mk_message_id _). by intros []. Defined.

(** The value-initialised identifiers. *)
Definition peer_id_zero : peer_id := mk_peer_id (zero_array 16).
Definition message_id_zero : message_id := mk_message_id (zero_array 16).

(** [operator==] and [operator<=>]: [memcmp] over the sixteen bytes. *)
Definition peer_id_eqb (a b : peer_id) : bool :=
  match memcmp (elems (bytes a)) (elems (bytes b)) with Eq => true | _ => false end.

Definition peer_id_compare (a b : peer_id) : comparison :=
  memcmp (elems (bytes a)) (elems (bytes b)).

Definition peer_id_ltb (a b : peer_id) : bool :=
  match peer_id_compare a b with Lt => true | _ => false end.

(** [peer_id::is_zero]: every byte is zero. *)
Definition is_zero (id : peer_id) : bool :=
  forallb (λ b, Byte.eqb b Byte.x00) (elems (bytes id)).

(** ** Hexadecimal text *)

Definition kHex : list byte := bytes_of_string "0123456789abcdef".

Definition hex_char (v : Z) : byte := nth (Z.to_nat v) kHex Byte.x00.

Definition hex_val (c : byte) : Z :=
  let c := byte_to_Z c in
  if (48 <=? c) && (c <=? 57) then c - 48
  else if (97 <=? c) && (c <=? 102) then c - 97 + 10
  else if (65 <=? c) && (c <=? 70) then c - 65 + 10
  else -1.

(** [peer_id::to_string]: two digits per byte, high nibble first. *)
Definition to_string (id : peer_id) : list byte :=
  fold_left (λ out b,
    let v := byte_to_Z b in
    (out ++ [hex_char (Z.shiftr v 4)]) ++ [hex_char (Z.land v 15)])
    (elems (bytes id)) [].

(** The loop of [peer_id::from_string]: [id] is the array being filled and
    [nibble] the number of digits consumed so far. *)
Fixpoint from_string_loop (sv : list byte) (id : list byte) (nibble : nat)
    : option (list byte * nat) :=
  match sv with
  | [] => Some (id, nibble)
  | c :: sv =>
      if Byte.eqb c "-"%byte then from_string_loop sv id nibble
      else
        let v := hex_val c in
        if v <? 0 then None
        else if (32 <=? nibble)%nat then None
        else
          let dst := nth (nibble / 2)%nat id Byte.x00 in
          let dst' :=
            if Nat.eqb (nibble mod 2) 0 then byte_of_Z (Z.shiftl v 4)
            else byte_of_Z (Z.lor (byte_to_Z dst) v) in
          from_string_loop sv (<[(nibble / 2)%nat := dst']> id) (S nibble)
  end.

Definition from_string (sv : list byte) : option peer_id :=
  match from_string_loop sv (elems (bytes peer_id_zero)) 0 with
  | Some (id, nibble) =>
      if Nat.eqb nibble 32 then Some (mk_peer_id (array_of 16 id)) else None
  | None => None
  end.

(** ** Generation and hashing *)

(** [peer_id::generate]: four 32-bit words from the entropy source [rd], each
    written least significant byte first. *)
Definition generate_word (r : Z) : list byte :=
  [byte_of_Z (Z.land r 255); byte_of_Z (Z.land (Z.shiftr r 8) 255);
   byte_of_Z (Z.land (Z.shiftr r 16) 255); byte_of_Z (Z.land (Z.shiftr r 24) 255)].

Definition generate (rd : nat → Z) : peer_id :=
  mk_peer_id (array_of 16 (concat (map (λ i, generate_word (rd i)) (seq 0 4)))).

(** [std::hash]: the xor-multiply loop, on 64-bit unsigned integers. *)
Definition fnv_hash (l : list byte) : Z :=
  fold_left (λ h b, wrap 64 (Z.lxor h (byte_to_Z b) * 1099511628211))
    l 1469598103934665603.

Definition hash_peer_id (id : peer_id) : Z := fnv_hash (elems (bytes id)).
Definition hash_message_id (id : message_id) : Z := fnv_hash (elems (msg_bytes id)).

(** ** Comparison *)

Lemma peer_id_eq a b : elems (bytes a) = elems (bytes b) → a = b.
Proof. destruct a, b; simpl. intros H. f_equal. by apply array_eq. Qed.

Lemma peer_id_eqb_spec a b : peer_id_eqb a b = true ↔ a = b.
Proof.
  unfold peer_id_eqb.
  pose proof (memcmp_eq (elems (bytes a)) (elems (bytes b))) as H.
  rewrite !length_elems in H. specialize (H eq_refl).
  split; [|intros ->; by rewrite memcmp_refl].
  destruct (memcmp _ _); [|done..]. intros _. by apply peer_id_eq, H.
Qed.

Lemma peer_id_eqb_decide a b : peer_id_eqb a b = bool_decide (a = b).
Proof.
  apply Bool.eq_true_iff_eq. by rewrite peer_id_eqb_spec, bool_decide_eq_true.
Qed.

Lemma peer_id_eqb_refl a : peer_id_eqb a a = true.
Proof. by apply peer_id_eqb_spec. Qed.

Lemma peer_id_eqb_neq a b : peer_id_eqb a b = false ↔ a ≠ b.
Proof. by rewrite peer_id_eqb_decide, bool_decide_eq_false. Qed.

Lemma is_zero_spec id : is_zero id = true ↔ id = peer_id_zero.
Proof.
  unfold is_zero. rewrite forallb_forall. split.
  - intros H. apply peer_id_eq. simpl.
    pose proof (length_elems (bytes id)) as Hlen.
    revert H Hlen. generalize (elems (bytes id)). intros l H Hlen.
    assert (l = replicate (length l) Byte.x00) as ->; [|by rewrite Hlen].
    clear Hlen. induction l as [|b l IH]; simpl in *; [done|].
    f_equal; [|by auto].
    apply Byte.byte_dec_bl, H. by left.
  - intros -> b Hb. apply list_elem_of_In, elem_of_replicate in Hb as [-> _]. done.
Qed.

#[global] Instance peer_id_lt_strict : StrictOrder (λ a b, peer_id_ltb a b = true).
Proof.
  unfold peer_id_ltb, peer_id_compare. split.
  - intros a. unfold complement. by rewrite memcmp_refl.
  - intros a b c.
    destruct (memcmp (elems (bytes a)) _) eqn:E1; try done.
    destruct (memcmp (elems (bytes b)) (elems (bytes c))) eqn:E2; try done.
    by rewrite (memcmp_lt_trans _ (elems (bytes b)) _) by (done || len).
Qed.

(** Exactly one of two distinct identifiers is the lower one. *)
Lemma peer_id_ltb_flip a b : a ≠ b → peer_id_ltb b a = negb (peer_id_ltb a b).
Proof.
  intros Hne. apply peer_id_eqb_neq in Hne. revert Hne.
  unfold peer_id_eqb, peer_id_ltb, peer_id_compare.
  rewrite (memcmp_antisym (elems (bytes a))).
  by destruct (memcmp (elems (bytes a)) (elems (bytes b))).
Qed.

Lemma peer_id_ltb_irrefl a : peer_id_ltb a a = false.
Proof. unfold peer_id_ltb, peer_id_compare. by rewrite memcmp_refl. Qed.

(** ** The text form *)

(** The two nibbles of each byte, high nibble first. *)
Definition nibbles (l : list byte) : list Z :=
  flat_map (λ b, [Z.shiftr (byte_to_Z b) 4; Z.land (byte_to_Z b) 15]) l.

(** The digits of the text: what is left without the cosmetic dashes. *)
Definition strip_dashes (sv : list byte) : list byte :=
  filter (λ c, c ≠ "-"%byte) sv.

Lemma length_nibbles l : length (nibbles l) = (2 * length l)%nat.
Proof. induction l; simpl; lia. Qed.

Lemma to_string_nibbles id :
  to_string id = map hex_char (nibbles (elems (bytes id))).
Proof.
  unfold to_string.
  enough (∀ l out, fold_left (λ out b,
    (out ++ [hex_char (Z.shiftr (byte_to_Z b) 4)]) ++
      [hex_char (Z.land (byte_to_Z b) 15)]) l out = out ++ map hex_char (nibbles l)) as ->
    by done.
  induction l as [|b l IH]; intros out; simpl; [by rewrite app_nil_r|].
  rewrite IH. by rewrite <-!(assoc_L (++)).
Qed.

(** The nibble at digit position [i]. *)
Definition nibble_at (l : list byte) (i : nat) : Z :=
  let b := byte_to_Z (nth (i / 2) l Byte.x00) in
  if Nat.eqb (i mod 2) 0 then Z.shiftr b 4 else Z.land b 15.

Lemma nibbles_at l i : (i < 2 * length l)%nat → nibbles l !! i = Some (nibble_at l i).
Proof.
  revert i; induction l as [|b l IH]; intros i Hi; cbn [length] in Hi; [lia|].
  destruct i as [|[|i]]; [done..|].
  change (nibbles (b :: l) !! S (S i)) with (nibbles l !! i).
  rewrite IH by lia. unfold nibble_at.
  replace (S (S i)) with (i + 1 * 2)%nat by lia.
  by rewrite Nat.Div0.mod_add, Nat.div_add, Nat.add_1_r by lia.
Qed.

Lemma nibbles_range l i v : nibbles l !! i = Some v → 0 ≤ v < 16.
Proof.
  intros Hi. assert (Forall (λ v, 0 ≤ v < 16) (nibbles l)) as HF.
  { clear. induction l as [|b l IH]; simpl; [constructor|].
    repeat constructor; try apply IH; by destruct b. }
  by eapply Forall_lookup_1 in HF.
Qed.

Lemma nibbles_inj l1 l2 : length l1 = length l2 → nibbles l1 = nibbles l2 → l1 = l2.
Proof.
  revert l2; induction l1 as [|b1 l1 IH]; intros [|b2 l2] Hlen; try done.
  intros [= Hhi Hlo H]. f_equal; [|apply IH; simpl in Hlen; auto with lia].
  apply byte_to_Z_inj.
  assert (∀ b, byte_to_Z b = Z.shiftr (byte_to_Z b) 4 * 16 + Z.land (byte_to_Z b) 15)
    as Hb by (by intros []).
  by rewrite (Hb b1), (Hb b2), Hhi, Hlo.
Qed.

(** One digit of the loop: [v] written at digit position [n]. *)
Definition put_nibble (id : list byte) (n : nat) (v : Z) : list byte :=
  let dst := nth (n / 2)%nat id Byte.x00 in
  <[(n / 2)%nat :=
    if Nat.eqb (n mod 2) 0 then byte_of_Z (Z.shiftl v 4)
    else byte_of_Z (Z.lor (byte_to_Z dst) v)]> id.

(** After [length l] digits the array holds them, and when their number is odd
    the low half of the current byte is still zero. *)
Record filled (id : list byte) (l : list Z) : Prop := {
  filled_len : length id = 16%nat;
  filled_at i v : l !! i = Some v → nibble_at id i = v;
  filled_low : (length l < 32)%nat → (length l mod 2 = 1)%nat →
    nibble_at id (length l) = 0;
}.

Lemma nth_insert_eq {A} (l : list A) i x d :
  (i < length l)%nat → nth i (<[i:=x]> l) d = x.
Proof. intros. by rewrite nth_lookup, list_lookup_insert_eq. Qed.

Lemma nth_insert_ne {A} (l : list A) i j x d :
  i ≠ j → nth j (<[i:=x]> l) d = nth j l d.
Proof. intros. by rewrite !nth_lookup, list_lookup_insert_ne. Qed.

Lemma hi_nibble v : 0 ≤ v < 16 →
  Z.shiftr (byte_to_Z (byte_of_Z (Z.shiftl v 4))) 4 = v ∧
  Z.land (byte_to_Z (byte_of_Z (Z.shiftl v 4))) 15 = 0.
Proof.
  intros Hv. rewrite byte_to_of_Z, Z.shiftl_mul_pow2 by done.
  change 15 with (Z.ones 4). rewrite Z.land_ones, Z.shiftr_div_pow2 by done.
  change (2 ^ 4) with 16. rewrite Z.mod_small by lia. split.
  - by rewrite Z.div_mul.
  - by rewrite Z.mod_mul.
Qed.

Lemma lo_nibble b v : 0 ≤ v < 16 → Z.land (byte_to_Z b) 15 = 0 →
  Z.shiftr (byte_to_Z (byte_of_Z (Z.lor (byte_to_Z b) v))) 4 = Z.shiftr (byte_to_Z b) 4 ∧
  Z.land (byte_to_Z (byte_of_Z (Z.lor (byte_to_Z b) v))) 15 = v.
Proof.
  intros Hv Hb. pose proof (byte_to_Z_range b) as Hr.
  change 15 with (Z.ones 4) in *. rewrite Z.land_ones in * by done.
  rewrite !Z.shiftr_div_pow2 by done. change (2 ^ 4) with 16 in *.
  assert (byte_to_Z b = byte_to_Z b / 16 * 16) as E by zlia.
  assert (Z.lor (byte_to_Z b) v = byte_to_Z b / 16 * 16 + v) as ->.
  { rewrite E at 1. change 16 with (2 ^ 4).
    rewrite <-Z.shiftl_mul_pow2 by done.
    rewrite (shift_in 4) by done. by rewrite Z.shiftl_mul_pow2. }
  rewrite byte_to_of_Z, Z.mod_small by zlia. zlia.
Qed.

Lemma put_nibble_filled id l v :
  filled id l → 0 ≤ v < 16 → (length l < 32)%nat →
  filled (put_nibble id (length l) v) (l ++ [v]).
Proof.
  intros [Hlen Hat Hlow] Hv Hn. unfold put_nibble.
  set (n := length l) in *. set (dst := nth (n / 2) id Byte.x00).
  assert (n / 2 < length id)%nat as Hin.
  { rewrite Hlen. apply Nat.Div0.div_lt_upper_bound; lia. }
  assert (n mod 2 = 0 ∨ n mod 2 = 1)%nat as Hpar
    by (pose proof (Nat.mod_upper_bound n 2); lia).
  pose proof (Nat.div_mod_eq n 2) as Hdm.
  pose proof (Nat.div_mod_eq (S n) 2) as HdmS.
  assert ((n mod 2)%nat = 1%nat → Z.land (byte_to_Z dst) 15 = 0) as Hdst.
  { intros Hp. specialize (Hlow Hn Hp). unfold nibble_at in Hlow.
    by rewrite Hp in Hlow. }
  split.
  - by rewrite length_insert.
  - intros i w Hi. unfold nibble_at.
    pose proof (Nat.div_mod_eq i 2) as Hdmi.
    apply lookup_app_Some in Hi as [Hi|[Hge Hi]].
    + pose proof (lookup_lt_Some _ _ _ Hi). rewrite <-(Hat _ _ Hi).
      unfold nibble_at. destruct (decide (n / 2 = i / 2)%nat) as [Heq|Hne];
        [|by rewrite nth_insert_ne].
      rewrite <-Heq, nth_insert_eq by done. fold dst.
      destruct Hpar as [Hp|Hp]; [lia|].
      assert (i mod 2 = 0)%nat as -> by lia. rewrite Hp. cbn [Nat.eqb].
      by apply lo_nibble; auto.
    + fold n in Hge, Hi. apply list_lookup_singleton_Some in Hi as [Hi ->].
      assert (i = n) as -> by lia. rewrite nth_insert_eq by done.
      destruct Hpar as [Hp|Hp]; rewrite Hp; cbn [Nat.eqb].
      * by apply hi_nibble.
      * apply lo_nibble; auto.
  - rewrite length_app. cbn [length]. fold n. rewrite Nat.add_1_r. intros HS Hodd.
    unfold nibble_at. rewrite Hodd. cbn [Nat.eqb].
    assert (S n / 2 = n / 2)%nat as -> by lia.
    assert (n mod 2 = 0)%nat as -> by lia.
    rewrite nth_insert_eq by done. by apply hi_nibble.
Qed.

(** Every character of the text that is not a dash is a digit. *)
Definition all_hex (sv : list byte) : Prop := Forall (λ c, 0 ≤ hex_val c) (strip_dashes sv).

Lemma hex_val_lt c : hex_val c < 16.
Proof. by destruct c. Qed.

Lemma hex_val_char v : 0 ≤ v < 16 → hex_val (hex_char v) = v.
Proof.
  intros Hv. assert (v ∈ seqZ 0 16) as Hin by (apply elem_of_seqZ; lia).
  revert v Hv Hin. assert (Forall (λ v, hex_val (hex_char v) = v) (seqZ 0 16)) as HF
    by (repeat constructor).
  intros v _ Hin. apply list_elem_of_In in Hin.
  exact (proj1 (Forall_forall _ _) HF v Hin).
Qed.

Lemma strip_dashes_cons c sv :
  strip_dashes (c :: sv) =
  if Byte.eqb c "-"%byte then strip_dashes sv else c :: strip_dashes sv.
Proof.
  unfold strip_dashes. destruct (Byte.eqb c "-"%byte) eqn:E.
  - apply Byte.byte_dec_bl in E as ->. by rewrite filter_cons_False by naive_solver.
  - rewrite filter_cons_True; [done|]. intros ->. done.
Qed.

(** The loop succeeds exactly when the text has only digits and dashes and the
    digits fit; the array then holds the digits. *)
Lemma from_string_loop_spec sv : ∀ id l,
  filled id l → (length l ≤ 32)%nat →
  match from_string_loop sv id (length l) with
  | Some (id', n') =>
      let l' := l ++ map hex_val (strip_dashes sv) in
      filled id' l' ∧ n' = length l' ∧ (n' ≤ 32)%nat ∧ all_hex sv
  | None => ¬ (all_hex sv ∧ (length l + length (strip_dashes sv) ≤ 32)%nat)
  end.
Proof.
  unfold all_hex.
  induction sv as [|c sv IH]; intros id l Hf Hl; cbn [from_string_loop].
  { unfold strip_dashes; simpl. rewrite app_nil_r. eauto using Forall_nil_2. }
  rewrite strip_dashes_cons. destruct (Byte.eqb c "-"%byte) eqn:E; [by apply IH|].
  destruct (hex_val c <? 0) eqn:Hneg.
  { intros [HF _]. inversion HF; subst. lia. }
  destruct (32 <=? length l)%nat eqn:H32.
  { apply Nat.leb_le in H32. intros [_ Hlen]. simpl in Hlen. lia. }
  apply Nat.leb_gt in H32.
  pose proof (put_nibble_filled id l (hex_val c) Hf) as Hput.
  specialize (Hput ltac:(pose proof (hex_val_lt c); lia) H32).
  specialize (IH _ _ Hput). rewrite length_app, Nat.add_1_r in IH.
  specialize (IH ltac:(lia)). unfold put_nibble in IH.
  destruct (from_string_loop sv _ _) as [[id' n']|].
  - rewrite <-(assoc_L (++)) in IH. simpl in *. destruct IH as (? & ? & ? & ?).
    split_and!; auto. constructor; [lia|done].
  - intros [HF Hlen]. inversion HF; subst. apply IH.
    simpl in Hlen. split; [done|lia].
Qed.

Lemma filled_nil : filled (elems (bytes peer_id_zero)) [].
Proof. split; [done|intros i v; by rewrite lookup_nil|done]. Qed.

Lemma filled_32 id l : filled id l → length l = 32%nat → nibbles id = l.
Proof.
  intros [Hlen Hat _] Hl. apply list_eq_same_length with 32%nat; [done|..].
  { by rewrite length_nibbles, Hlen. }
  intros i x y Hi Hx Hy. rewrite nibbles_at in Hx by lia.
  apply Hat in Hy. congruence.
Qed.

(** What the parser accepts, and what it returns. *)
Lemma from_string_spec sv id :
  from_string sv = Some id ↔
  map hex_val (strip_dashes sv) = nibbles (elems (bytes id)).
Proof.
  unfold from_string.
  pose proof (from_string_loop_spec sv _ [] filled_nil ltac:(simpl; lia)) as H.
  change (length (@nil Z)) with 0%nat in H. split.
  - destruct (from_string_loop _ _ _) as [[id' n]|]; [|done].
    destruct H as (Hf & Hn & _ & _). simpl in Hf, Hn.
    destruct (Nat.eqb n 32) eqn:E; [|done]. apply Nat.eqb_eq in E. intros [= <-].
    simpl. rewrite elems_array_of_exact by apply Hf.
    symmetry. apply filled_32; [done|congruence].
  - intros Hm.
    assert (length (strip_dashes sv) = 32%nat) as Hlen.
    { apply (f_equal length) in Hm. rewrite length_map, length_nibbles in Hm. len. }
    assert (all_hex sv) as Hhex.
    { apply Forall_lookup. intros i c Hc.
      assert (map hex_val (strip_dashes sv) !! i = Some (hex_val c)) as Hi
        by (rewrite list_lookup_fmap, Hc; done).
      rewrite Hm in Hi. apply nibbles_range in Hi. lia. }
    destruct (from_string_loop _ _ _) as [[id' n]|]; [|by destruct H; split; [|lia]].
    destruct H as (Hf & Hn & _ & _). simpl in Hf, Hn. rewrite length_map in Hn.
    rewrite Hn, Hlen. cbn [Nat.eqb]. f_equal. apply peer_id_eq. simpl.
    rewrite elems_array_of_exact by apply Hf. apply nibbles_inj.
    + by rewrite length_elems, (filled_len _ _ Hf).
    + rewrite <-Hm. apply filled_32; [done|]. by rewrite length_map.
Qed.

(** The printed form parses back to the identifier it came from. *)
Lemma from_to_string id : from_string (to_string id) = Some id.
Proof.
  apply from_string_spec. rewrite to_string_nibbles.
  pose proof (nibbles_range (elems (bytes id))) as Hr. revert Hr.
  generalize (nibbles (elems (bytes id))). intros l Hr.
  assert (strip_dashes (map hex_char l) = map hex_char l) as ->.
  { unfold strip_dashes. apply filter_all, Forall_lookup. intros i c Hc E.
    apply list_lookup_fmap_Some in Hc as (v & -> & Hv). apply Hr in Hv.
    apply (f_equal hex_val) in E. rewrite hex_val_char in E by done.
    change (hex_val "-"%byte) with (-1) in E. lia. }
  rewrite map_map. apply list_eq. intros i. rewrite list_lookup_fmap.
  destruct (l !! i) as [v|] eqn:E; simpl; [|done]. f_equal. by apply hex_val_char, Hr with i.
Qed.

(** The text form is exact: [from_string] returns an identifier precisely
    when the text, its dashes removed, spells the identifier's thirty-two
    nibbles in hexadecimal (either case), every other text is rejected, and the
    printed form of every identifier parses back to it. *)
Theorem peer_id_text_exact :
  (∀ sv id, from_string sv = Some id ↔
    map hex_val (strip_dashes sv) = nibbles (elems (bytes id))) ∧
  (∀ id, from_string (to_string id) = Some id).
Proof. split; [apply from_string_spec|apply from_to_string]. Qed.

(** Concrete identifiers for the examples: the number in big endian. *)
Definition sample_id (n : Z) : peer_id := mk_peer_id (array_of 16 (be_bytes 16 n)).
