(* ===== verification/Buffer.v ===== *)
(** * The byte buffer of a connection

    [mm::buffer] (src/src/buffer.hpp): a vector with a consume cursor, compacted
    lazily.  The module models every operation on the vector and the cursor as
    they are, and proves that the class is a byte queue whose dead prefix is
    bounded. *)
From Stdlib Require Import ZArith Lia.
From Stdlib.Strings Require Import Byte.
From stdpp Require Import base gmap sets list strings numbers option.
From S2P Require Import Prelude.

Module buffer.
#[local] Open Scope nat_scope.

Record t := mk { data_ : list byte; head_ : nat }.

Definition empty_buffer : t := mk [] 0.

Definition size (b : t) : nat := length (data_ b) - head_ b.

Definition empty (b : t) : bool := Nat.eqb (size b) 0.

(** The readable region [[data(), data() + size())]. *)
Definition data (b : t) : list byte := drop (head_ b) (data_ b).

Definition append (b : t) (s : list byte) : t := mk (data_ b ++ s) (head_ b).

(** [reserve_tail]: the vector grows by [n] zero bytes; the result is the
    offset the returned pointer designates. *)
Definition reserve_tail (b : t) (n : nat) : nat * t :=
  (length (data_ b), mk (data_ b ++ replicate n Byte.x00) (head_ b)).

(** What a [recv] into the reserved tail does to the storage: the bytes from
    offset [pos] on are overwritten with [s]. *)
Definition write_at (b : t) (pos : nat) (s : list byte) : t :=
  mk (take pos (data_ b) ++ s ++ drop (pos + length s) (data_ b)) (head_ b).

Definition uncommit (b : t) (unused : nat) : t :=
  mk (take (length (data_ b) - unused) (data_ b)) (head_ b).

(** [std::memmove(p, p + from, n)] on the vector's storage. *)
Definition memmove_front (l : list byte) (from n : nat) : list byte :=
  take n (drop from l) ++ drop n l.

Definition consume (b : t) (n : nat) : t :=
  let b := mk (data_ b) (head_ b + n) in
  if Nat.eqb (head_ b) (length (data_ b)) then mk [] 0
  else if (4096 <? head_ b) && (length (data_ b) <? head_ b * 2) then
    let moved := memmove_front (data_ b) (head_ b) (size b) in
    mk (take (size b) moved) 0
  else b.

Definition clear (b : t) : t := mk [] 0.

(** ** Invariant *)

(** The cursor stays inside the vector and the dead prefix is either small or
    at most half of the storage. *)
Record wf (b : t) : Prop := {
  wf_head : head_ b ≤ length (data_ b);
  wf_dead : head_ b ≤ 4096 ∨ head_ b * 2 ≤ length (data_ b);
}.

Lemma length_data b : length (data b) = size b.
Proof. unfold data, size. by rewrite length_drop. Qed.

Lemma empty_spec b : empty b = true ↔ data b = [].
Proof.
  unfold empty. rewrite Nat.eqb_eq, <-length_data. by rewrite length_zero_iff_nil.
Qed.

Lemma wf_empty : wf empty_buffer.
Proof. split; simpl; lia. Qed.

Lemma append_wf b s : wf b → wf (append b s).
Proof. intros [H1 H2]. split; simpl; rewrite length_app; lia. Qed.

Lemma data_append b s : wf b → data (append b s) = data b ++ s.
Proof. intros [H _]. unfold data, append; simpl. by rewrite drop_app_le. Qed.

Lemma consume_wf b n : wf b → n ≤ size b → wf (consume b n).
Proof.
  intros [H1 H2] Hn. unfold size in Hn. unfold consume; simpl.
  destruct (Nat.eqb_spec (head_ b + n) (length (data_ b))); [by split; simpl; lia|].
  destruct (Nat.ltb_spec 4096 (head_ b + n)), (Nat.ltb_spec (length (data_ b)) ((head_ b + n) * 2));
    simpl; split; simpl; lia.
Qed.

Lemma data_consume b n : wf b → n ≤ size b → data (consume b n) = drop n (data b).
Proof.
  intros [H1 H2] Hn. unfold size in Hn. unfold data, consume; simpl. rewrite drop_drop.
  destruct (Nat.eqb_spec (head_ b + n) (length (data_ b))) as [E|E].
  { simpl. symmetry. apply nil_length_inv. rewrite length_drop. lia. }
  destruct (_ && _); simpl; [|done].
  unfold memmove_front, size; simpl. rewrite drop_0.
  assert (length (data_ b) - (head_ b + n) = length (drop (head_ b + n) (data_ b))) as ->
    by (by rewrite length_drop).
  by rewrite firstn_all, take_app_length.
Qed.

(** Reading from the socket into the reserved tail: [reserve_tail(cap)], a
    [recv] of [s], [uncommit(cap - n)]. *)
Definition read_into (b : t) (cap : nat) (s : list byte) : t :=
  let '(pos, b1) := reserve_tail b cap in
  uncommit (write_at b1 pos s) (cap - length s).

Lemma read_into_append b cap s : length s ≤ cap → read_into b cap s = append b s.
Proof.
  intros Hs. unfold read_into, append, uncommit, write_at; simpl. f_equal.
  rewrite take_app_length.
  rewrite !length_app, length_drop, length_app, length_replicate.
  rewrite (assoc_L (++)), take_app_le by (rewrite length_app; lia).
  apply take_ge. rewrite length_app. lia.
Qed.

(** A [recv] that returned nothing leaves the buffer as it was. *)
Lemma uncommit_all b cap : uncommit (snd (reserve_tail b cap)) cap = b.
Proof.
  destruct b as [d h]. unfold uncommit; simpl. f_equal.
  rewrite length_app, length_replicate.
  replace (length d + cap - cap) with (length d) by lia. apply take_app_length.
Qed.

(** ** Refinement of a byte queue *)

(** The operations a connection performs on its buffers. *)
Inductive op :=
  | Append (s : list byte)
  | Read (cap : nat) (s : list byte)
  | Consume (n : nat)
  | Clear.

Definition step (b : t) (o : op) : t :=
  match o with
  | Append s => append b s
  | Read cap s => read_into b cap s
  | Consume n => consume b n
  | Clear => clear b
  end.

(** The queue of bytes the class stands for. *)
Definition queue_step (q : list byte) (o : op) : list byte :=
  match o with
  | Append s | Read _ s => q ++ s
  | Consume n => drop n q
  | Clear => []
  end.

(** The callers' obligations: a read fills at most the reserved tail, and
    never more is consumed than is readable. *)
Definition allowed (q : list byte) (o : op) : Prop :=
  match o with
  | Append _ | Clear => True
  | Read cap s => length s ≤ cap
  | Consume n => n ≤ length q
  end.

Fixpoint allowed_run (q : list byte) (os : list op) : Prop :=
  match os with
  | [] => True
  | o :: os => allowed q o ∧ allowed_run (queue_step q o) os
  end.

Lemma step_refines b o :
  wf b → allowed (data b) o → wf (step b o) ∧ data (step b o) = queue_step (data b) o.
Proof.
  intros Hwf Ho. destruct o as [s|cap s|n|]; simpl in *.
  - auto using append_wf, data_append.
  - rewrite read_into_append by done. auto using append_wf, data_append.
  - rewrite length_data in Ho. auto using consume_wf, data_consume.
  - split; [apply wf_empty|done].
Qed.

(** [C37] The buffer is a byte queue: whatever sequence of appends, socket
    reads, consumes and clears runs on it (each within its caller's
    obligation), the readable region is the queue's contents, and the storage
    held never exceeds the larger of [4096] bytes more than the live bytes and
    twice the live bytes. *)
Theorem buffer_refines_queue os :
  allowed_run [] os →
  let b := fold_left step os empty_buffer in
  data b = fold_left queue_step os [] ∧
  length (data_ b) ≤ Nat.max (size b + 4096) (2 * size b).
Proof.
  intros H.
  enough (∀ b, wf b → allowed_run (data b) os →
    wf (fold_left step os b) ∧ data (fold_left step os b) = fold_left queue_step os (data b))
    as Hgen.
  { destruct (Hgen empty_buffer wf_empty H) as [[Hw1 Hw2] Hd]. split; [done|].
    unfold size. lia. }
  clear H. induction os as [|o os IH]; intros b Hwf; simpl; [done|].
  intros [Ho Hos]. destruct (step_refines b o Hwf Ho) as [Hw Hd].
  rewrite <-Hd in *. auto.
Qed.

Lemma buffer_refines_queue_witness :
  data (fold_left step
    [Read 8 (bytes_of_string "abc"); Append (bytes_of_string "de"); Consume 4] empty_buffer)
  = bytes_of_string "e".
Proof.
  destruct (buffer_refines_queue
    [Read 8 (bytes_of_string "abc"); Append (bytes_of_string "de"); Consume 4]) as [H _].
  - vm_compute. repeat split; lia.
  - exact H.
Defined.

End buffer.
