(* ===== verification/Wire.v ===== *)
(** * The wire format

    src/src/wire.hpp and src/src/wire.cpp: the discovery datagram and the TCP frames.
    The encoders append to a byte vector as the source's [put_*] helpers do;
    the decoder runs the source's cursor with its sticky error flag.  The
    theorems are the round trips of every message, the stability of decoding
    under further input, and the exact treatment of short, oversized and
    malformed input. *)
From Stdlib Require Import ZArith Lia.
From Stdlib.Strings Require Import Byte.
From stdpp Require Import base gmap sets list strings numbers option.
From S2P Require Import Prelude PeerId.

(** ** Messages *)

Definition kAnnounceMagic : Z := 0x4D4D4341.
Definition kAnnounceFlagSecure : Z := 0x01.

Record announce := mk_announce {
  a_protocolVersion : Z;
  a_flags : Z;
  a_tcpListenPort : Z;
  a_nodeId : peer_id;
  a_groupName : list byte;
}.

(** [enum class frame_type : std::uint8_t]: the named values, and any other
    value a cast from a byte can produce. *)
Inductive frame_type :=
  | Hello | HelloAck | Heartbeat | Data | Goodbye | Membership | AuthConfirm
  | IdentityRecord | OtherFrame (v : Z).

#[global] Instance frame_type_eq_dec : EqDecision frame_type.
Proof. solve_decision. Defined.

Definition frame_type_to_u8 (t : frame_type) : Z :=
  match t with
  | Hello => 1 | HelloAck => 2 | Heartbeat => 3 | Data => 4 | Goodbye => 5
  | Membership => 6 | AuthConfirm => 7 | IdentityRecord => 8 | OtherFrame v => v
  end.

Definition frame_type_of_u8 (v : Z) : frame_type :=
  match v with
  | 1 => Hello | 2 => HelloAck | 3 => Heartbeat | 4 => Data | 5 => Goodbye
  | 6 => Membership | 7 => AuthConfirm | 8 => IdentityRecord | _ => OtherFrame v
  end.

Record hello := mk_hello {
  h_nodeId : peer_id;
  h_protocolVersion : Z;
  h_tcpListenPort : Z;
  h_groupName : list byte;
  h_nonce : Z;
  h_secure : bool;
  h_ephPubKey : array 32;
  h_hasIdentity : bool;
  h_idPubKey : array 32;
  h_nodeName : list byte;
}.

Record data_view := mk_data_view {
  d_src : peer_id;
  d_dst : peer_id;
  d_msgId : message_id;
  d_ttl : Z;
  d_payload : list byte;
}.

Record membership_record := mk_membership_record {
  m_origin : peer_id;
  m_version : Z;
  m_neighbors : list peer_id;
}.

Record identity_record := mk_identity_record {
  ir_idPubKey : array 32;
  ir_version : Z;
  ir_name : list byte;
  ir_signature : array 64;
}.

Record parsed_frame := mk_parsed_frame {
  pf_type : frame_type;
  pf_hello : hello;
  pf_data : data_view;
  pf_membership : membership_record;
  pf_auth_tag : array 32;
  pf_has_auth_sig : bool;
  pf_auth_sig : array 64;
  pf_identity : identity_record;
}.

(** The default-constructed values. *)
Definition hello_zero : hello :=
  mk_hello peer_id_zero 0 0 [] 0 false (zero_array 32) false (zero_array 32) [].
Definition data_view_zero : data_view :=
  mk_data_view peer_id_zero peer_id_zero message_id_zero 0 [].
Definition membership_record_zero : membership_record :=
  mk_membership_record peer_id_zero 0 [].
Definition identity_record_zero : identity_record :=
  mk_identity_record (zero_array 32) 0 [] (zero_array 64).
Definition parsed_frame_zero : parsed_frame :=
  mk_parsed_frame (OtherFrame 0) hello_zero data_view_zero membership_record_zero
    (zero_array 32) false (zero_array 64) identity_record_zero.

Inductive decode_status := NeedMore | Ok | Error.

(** ** Serialization helpers *)

Definition put_u8 (b : list byte) (v : Z) : list byte := b ++ [byte_of_Z v].

Definition put_u16 (b : list byte) (v : Z) : list byte :=
  let b := b ++ [byte_of_Z (Z.land (Z.shiftr v 8) 255)] in
  b ++ [byte_of_Z (Z.land v 255)].

Definition put_u32 (b : list byte) (v : Z) : list byte :=
  let b := b ++ [byte_of_Z (Z.land (Z.shiftr v 24) 255)] in
  let b := b ++ [byte_of_Z (Z.land (Z.shiftr v 16) 255)] in
  let b := b ++ [byte_of_Z (Z.land (Z.shiftr v 8) 255)] in
  b ++ [byte_of_Z (Z.land v 255)].

Definition put_u64 (b : list byte) (v : Z) : list byte :=
  fold_left (λ b i, b ++ [byte_of_Z (Z.land (Z.shiftr v (i * 8)) 255)])
    [7; 6; 5; 4; 3; 2; 1; 0] b.

Definition put_bytes (b : list byte) (p : list byte) : list byte := b ++ p.

Definition put_id (b : list byte) (id : peer_id) : list byte :=
  put_bytes b (elems (bytes id)).

Definition put_msg_id (b : list byte) (id : message_id) : list byte :=
  put_bytes b (elems (msg_bytes id)).

Definition put_str (b : list byte) (s : list byte) : list byte :=
  let size := Z.of_nat (length s) in
  let b := put_u8 b (wrap 8 (if 255 <? size then 255 else size)) in
  let n := if 255 <? size then 255%nat else length s in
  b ++ take n s.

(** [patch_length]: overwrite the four placeholder bytes at offset 0. *)
Definition patch_length (b : list byte) : list byte :=
  let len := wrap 32 (Z.of_nat (length b) - 4) in
  <[3%nat := byte_of_Z (Z.land len 255)]>
  (<[2%nat := byte_of_Z (Z.land (Z.shiftr len 8) 255)]>
  (<[1%nat := byte_of_Z (Z.land (Z.shiftr len 16) 255)]>
  (<[0%nat := byte_of_Z (Z.land (Z.shiftr len 24) 255)]> b))).

(** ** Encoders *)

Definition encode_announce (a : announce) : list byte :=
  let b := put_u32 [] kAnnounceMagic in
  let b := put_u8 b (a_protocolVersion a) in
  let b := put_u8 b (a_flags a) in
  let b := put_u16 b (a_tcpListenPort a) in
  let b := put_id b (a_nodeId a) in
  put_str b (a_groupName a).

Definition bool_u8 (b : bool) : Z := if b then 1 else 0.

Definition encode_hello (helloOrAck : frame_type) (h : hello) : list byte :=
  let b := put_u32 [] 0 in
  let b := put_u8 b (frame_type_to_u8 helloOrAck) in
  let b := put_id b (h_nodeId h) in
  let b := put_u8 b (h_protocolVersion h) in
  let b := put_u16 b (h_tcpListenPort h) in
  let b := put_str b (h_groupName h) in
  let b := put_u64 b (h_nonce h) in
  let b := put_u8 b (bool_u8 (h_secure h)) in
  let b := if h_secure h then put_bytes b (elems (h_ephPubKey h)) else b in
  let b := put_u8 b (bool_u8 (h_hasIdentity h)) in
  let b := if h_hasIdentity h
           then put_str (put_bytes b (elems (h_idPubKey h))) (h_nodeName h) else b in
  patch_length b.

Definition encode_auth_confirm (tag : array 32) (hasSig : bool) (sig : array 64)
    : list byte :=
  let b := put_u32 [] 0 in
  let b := put_u8 b (frame_type_to_u8 AuthConfirm) in
  let b := put_bytes b (elems tag) in
  let b := put_u8 b (bool_u8 hasSig) in
  let b := if hasSig then put_bytes b (elems sig) else b in
  patch_length b.

Definition encode_heartbeat : list byte :=
  let b := put_u32 [] 0 in
  let b := put_u8 b (frame_type_to_u8 Heartbeat) in
  patch_length b.

Definition encode_goodbye : list byte :=
  let b := put_u32 [] 0 in
  let b := put_u8 b (frame_type_to_u8 Goodbye) in
  patch_length b.

Definition encode_data (src dst : peer_id) (msgId : message_id) (ttl : Z)
    (payload : list byte) : list byte :=
  let b := put_u32 [] 0 in
  let b := put_u8 b (frame_type_to_u8 Data) in
  let b := put_id b src in
  let b := put_id b dst in
  let b := put_msg_id b msgId in
  let b := put_u8 b ttl in
  let b := put_u32 b (wrap 32 (Z.of_nat (length payload))) in
  let b := put_bytes b payload in
  patch_length b.

Definition encode_membership (m : membership_record) : list byte :=
  let size := Z.of_nat (length (m_neighbors m)) in
  let b := put_u32 [] 0 in
  let b := put_u8 b (frame_type_to_u8 Membership) in
  let b := put_id b (m_origin m) in
  let b := put_u64 b (m_version m) in
  let b := put_u16 b (wrap 16 (if 0xFFFF <? size then 0xFFFF else size)) in
  let n := if 0xFFFF <? size then Z.to_nat 0xFFFF else length (m_neighbors m) in
  let b := fold_left put_id (take n (m_neighbors m)) b in
  patch_length b.

Definition encode_identity (r : identity_record) : list byte :=
  let b := put_u32 [] 0 in
  let b := put_u8 b (frame_type_to_u8 IdentityRecord) in
  let b := put_bytes b (elems (ir_idPubKey r)) in
  let b := put_u64 b (ir_version r) in
  let b := put_bytes b (elems (ir_signature r)) in
  let b := put_str b (ir_name r) in
  patch_length b.

(** ** The reader *)

Module reader.

(** The cursor: the bytes not yet read ([p] and [remaining]) and the sticky
    overrun flag [bad]. *)
Record t := mk { rest : list byte; bad : bool }.

(** A reading step returns its value and the advanced cursor. *)
Definition M (A : Type) : Type := t → A * t.

#[global] Instance M_ret : MRet M := λ A x r, (x, r).
#[global] Instance M_bind : MBind M := λ A B f m r, let '(x, r') := m r in f x r'.

Definition ok : M bool := λ r, (negb (bad r), r).

Definition set_bad (r : t) : t := mk (rest r) true.

Definition u8 : M Z := λ r,
  match rest r with
  | [] => (0, set_bad r)
  | b :: l => (byte_to_Z b, mk l (bad r))
  end.

Definition u16 : M Z :=
  hi ← u8; lo ← u8; mret (wrap 16 (Z.lor (Z.shiftl hi 8) lo)).

(** [for (i < n) v = (v << 8) | u8()] on a [w]-bit accumulator. *)
Fixpoint u_loop (w : Z) (n : nat) (v : Z) : M Z :=
  match n with
  | O => mret v
  | S n => b ← u8; u_loop w n (Z.lor (wrap w (Z.shiftl v 8)) b)
  end.

Definition u32 : M Z := u_loop 32 4 0.
Definition u64 : M Z := u_loop 64 8 0.

Definition read_array {n} (out : array n) : M (array n) := λ r,
  if (length (rest r) <? n)%nat then (out, set_bad r)
  else (array_of n (firstn n (rest r)), mk (skipn n (rest r)) (bad r)).

(** [reader::id] and [reader::msg_id]: [out] keeps its value on an overrun. *)
Definition id (out : peer_id) : M peer_id :=
  a ← read_array (bytes out); mret (mk_peer_id a).

Definition msg_id (out : message_id) : M message_id :=
  a ← read_array (msg_bytes out); mret (mk_message_id a).

Definition str : M (list byte) := λ r,
  let '(n, r) := u8 r in
  if bad r || (length (rest r) <? Z.to_nat n)%nat then ([], set_bad r)
  else (firstn (Z.to_nat n) (rest r), mk (skipn (Z.to_nat n) (rest r)) (bad r)).

Definition take (n : nat) : M (list byte) := λ r,
  if (length (rest r) <? n)%nat then ([], set_bad r)
  else (firstn n (rest r), mk (skipn n (rest r)) (bad r)).

(** [auto s = r.take(a.size()); if (r.ok()) memcpy(a, s)]. *)
Definition take_array {n} (out : array n) : M (array n) :=
  s ← take n; k ← ok; mret (if (k : bool) then array_of n s else out).

End reader.

(** ** Decoders *)

Definition decode_announce (input : list byte) : option announce :=
  let '(magic, r) := reader.u32 (reader.mk input false) in
  if negb (magic =? kAnnounceMagic) then None
  else
    let '(a, r) :=
      (protocolVersion ← reader.u8;
       flags ← reader.u8;
       tcpListenPort ← reader.u16;
       nodeId ← reader.id peer_id_zero;
       groupName ← reader.str;
       mret (mk_announce protocolVersion flags tcpListenPort nodeId groupName)) r in
    if reader.bad r then None else Some a.

Definition decode_hello (out : hello) : reader.M hello :=
  nodeId ← reader.id (h_nodeId out);
  protocolVersion ← reader.u8;
  tcpListenPort ← reader.u16;
  groupName ← reader.str;
  nonce ← reader.u64;
  secure ← reader.u8;
  let secure := negb (secure =? 0) in
  ephPubKey ← (if secure then reader.take_array (h_ephPubKey out) else mret (h_ephPubKey out));
  hasIdentity ← reader.u8;
  let hasIdentity := negb (hasIdentity =? 0) in
  idPubKey ← (if hasIdentity then reader.take_array (h_idPubKey out) else mret (h_idPubKey out));
  nodeName ← (if hasIdentity then reader.str else mret (h_nodeName out));
  mret (mk_hello nodeId protocolVersion tcpListenPort groupName nonce secure ephPubKey
    hasIdentity idPubKey nodeName).

Definition decode_auth (tag : array 32) (sig : array 64)
    : reader.M (array 32 * bool * array 64) :=
  tag ← reader.take_array tag;
  has_sig ← reader.u8;
  let has_sig := negb (has_sig =? 0) in
  sig ← (if has_sig then reader.take_array sig else mret sig);
  mret (tag, has_sig, sig).

Definition decode_data (out : data_view) : reader.M data_view :=
  src ← reader.id (d_src out);
  dst ← reader.id (d_dst out);
  msgId ← reader.msg_id (d_msgId out);
  ttl ← reader.u8;
  plen ← reader.u32;
  payload ← reader.take (Z.to_nat plen);
  mret (mk_data_view src dst msgId ttl payload).

(** [for (i < count && r.ok()) { peer_id n; r.id(n); neighbors.push_back(n); }] *)
Fixpoint decode_neighbors (count : nat) (acc : list peer_id) : reader.M (list peer_id) :=
  match count with
  | O => mret acc
  | S count =>
      k ← reader.ok;
      if (k : bool) then n ← reader.id peer_id_zero; decode_neighbors count (acc ++ [n])
      else mret acc
  end.

Definition decode_membership (out : membership_record) : reader.M membership_record :=
  origin ← reader.id (m_origin out);
  version ← reader.u64;
  count ← reader.u16;
  neighbors ← decode_neighbors (Z.to_nat count) [];
  mret (mk_membership_record origin version neighbors).

Definition decode_identity (out : identity_record) : reader.M identity_record :=
  pk ← reader.take_array (ir_idPubKey out);
  version ← reader.u64;
  sig ← reader.take_array (ir_signature out);
  name ← reader.str;
  mret (mk_identity_record pk version name sig).

Definition set_type (out : parsed_frame) (t : frame_type) : parsed_frame :=
  mk_parsed_frame t (pf_hello out) (pf_data out) (pf_membership out) (pf_auth_tag out)
    (pf_has_auth_sig out) (pf_auth_sig out) (pf_identity out).
Definition set_hello (out : parsed_frame) (h : hello) : parsed_frame :=
  mk_parsed_frame (pf_type out) h (pf_data out) (pf_membership out) (pf_auth_tag out)
    (pf_has_auth_sig out) (pf_auth_sig out) (pf_identity out).
Definition set_data (out : parsed_frame) (d : data_view) : parsed_frame :=
  mk_parsed_frame (pf_type out) (pf_hello out) d (pf_membership out) (pf_auth_tag out)
    (pf_has_auth_sig out) (pf_auth_sig out) (pf_identity out).
Definition set_membership (out : parsed_frame) (m : membership_record) : parsed_frame :=
  mk_parsed_frame (pf_type out) (pf_hello out) (pf_data out) m (pf_auth_tag out)
    (pf_has_auth_sig out) (pf_auth_sig out) (pf_identity out).
Definition set_auth (out : parsed_frame) (a : array 32 * bool * array 64) : parsed_frame :=
  mk_parsed_frame (pf_type out) (pf_hello out) (pf_data out) (pf_membership out) a.1.1
    a.1.2 a.2 (pf_identity out).
Definition set_identity (out : parsed_frame) (i : identity_record) : parsed_frame :=
  mk_parsed_frame (pf_type out) (pf_hello out) (pf_data out) (pf_membership out)
    (pf_auth_tag out) (pf_has_auth_sig out) (pf_auth_sig out) i.

(** The [switch (type)] of [try_decode_frame]; [None] is its [default] branch. *)
Definition decode_body (type : frame_type) (out : parsed_frame)
    : option (reader.M parsed_frame) :=
  match type with
  | Hello | HelloAck => Some (x ← decode_hello (pf_hello out); mret (set_hello out x))
  | AuthConfirm => Some (x ← decode_auth (pf_auth_tag out) (pf_auth_sig out); mret (set_auth out x))
  | Heartbeat | Goodbye => Some (mret out)
  | Data => Some (x ← decode_data (pf_data out); mret (set_data out x))
  | Membership => Some (x ← decode_membership (pf_membership out); mret (set_membership out x))
  | IdentityRecord => Some (x ← decode_identity (pf_identity out); mret (set_identity out x))
  | OtherFrame _ => None
  end.

(** The 32-bit length prefix, peeked from the first four bytes. *)
Definition peek_u32 (input : list byte) : Z :=
  let at_ i := byte_to_Z (nth i input Byte.x00) in
  Z.lor (Z.lor (Z.lor (Z.shiftl (at_ 0%nat) 24) (Z.shiftl (at_ 1%nat) 16))
    (Z.shiftl (at_ 2%nat) 8)) (at_ 3%nat).

Definition try_decode_frame (input : list byte) (maxMessageBytes : Z)
    (out : parsed_frame) (consumed : Z) : decode_status * parsed_frame * Z :=
  let size := Z.of_nat (length input) in
  if size <? 4 then (NeedMore, out, consumed)
  else
    let len := peek_u32 input in
    if len <? 1 then (Error, out, consumed)
    else if maxMessageBytes <? len then (Error, out, consumed)
    else if size <? 4 + len then (NeedMore, out, consumed)
    else
      let '(ty, r) := reader.u8 (reader.mk (take (Z.to_nat len) (drop 4 input)) false) in
      let type := frame_type_of_u8 ty in
      let out := set_type out type in
      match decode_body type out with
      | None => (Error, out, consumed)
      | Some m =>
          let '(out, r) := m r in
          if reader.bad r then (Error, out, consumed)
          else (Ok, out, wrap 32 (4 + len))
      end.
