(* ===== verification/WireFacts.v ===== *)
(** * The wire format: correctness

    Round trips of every frame and of the discovery datagram, decoding of a
    growing stream (short input asks for more, further input never changes a
    verdict), the bounds on what a decode consumes, and the rejection of
    oversized and unknown frames. *)
From Stdlib Require Import ZArith Lia.
From Stdlib.Strings Require Import Byte.
From stdpp Require Import base gmap sets list strings numbers option.
From S2P Require Import Prelude PeerId Wire.

(** ** The encoders as concatenations *)

Lemma put_u8_be b v : put_u8 b v = b ++ be_bytes 1 v.
Proof.
  unfold put_u8. cbn [be_bytes]. rewrite Z.shiftr_0_r.
  by rewrite byte_of_Z_land.
Qed.

Lemma put_u16_be b v : put_u16 b v = b ++ be_bytes 2 v.
Proof. unfold put_u16. rewrite <-(assoc_L (++)). by rewrite <-(Z.shiftr_0_r v) at 2. Qed.

Lemma put_u32_be b v : put_u32 b v = b ++ be_bytes 4 v.
Proof. unfold put_u32. rewrite <-!(assoc_L (++)). by rewrite <-(Z.shiftr_0_r v) at 4. Qed.

Lemma put_u64_be b v : put_u64 b v = b ++ be_bytes 8 v.
Proof. unfold put_u64. cbn [fold_left]. by rewrite <-!(assoc_L (++)). Qed.

(** A string field: its length byte and at most 255 bytes of it. *)
Definition clip (s : list byte) : list byte := take 255 s.

Definition str_bytes (s : list byte) : list byte :=
  be_bytes 1 (Z.of_nat (length (clip s))) ++ clip s.

Lemma length_clip s : (length (clip s) ≤ 255)%nat.
Proof. unfold clip. rewrite length_take. lia. Qed.

Lemma clip_short s : (length s ≤ 255)%nat → clip s = s.
Proof. apply take_ge. Qed.

Lemma put_str_bytes b s : put_str b s = b ++ str_bytes s.
Proof.
  unfold put_str, str_bytes, clip. rewrite put_u8_be, <-(assoc_L (++)), length_take.
  destruct (Z.ltb_spec 255 (Z.of_nat (length s))).
  - by rewrite Nat.min_l by lia.
  - rewrite Nat.min_r, wrap_small by (unfold in_range; lia).
    by rewrite firstn_all, (take_ge s 255) by lia.
Qed.

Lemma fold_put_id l b : fold_left put_id l b = b ++ concat (map (λ i, elems (bytes i)) l).
Proof.
  revert b; induction l as [|i l IH]; intros b; simpl; [by rewrite app_nil_r|].
  rewrite IH. unfold put_id, put_bytes. by rewrite (assoc_L (++)).
Qed.

(** Patching the length of a frame whose body follows the placeholder. *)
Lemma patch_length_frame body :
  patch_length (be_bytes 4 0 ++ body) =
  be_bytes 4 (wrap 32 (Z.of_nat (length body))) ++ body.
Proof.
  unfold patch_length. rewrite length_app, length_be_bytes.
  replace (Z.of_nat (4 + length body) - 4) with (Z.of_nat (length body)) by lia.
  cbn [be_bytes app]. by rewrite Z.shiftr_0_r.
Qed.

(** ** Frames as values *)

(** The frames a node sends, one constructor per encoder. *)
Inductive message :=
  | MsgHello (ack : bool) (h : hello)
  | MsgAuthConfirm (tag : array 32) (hasSig : bool) (sig : array 64)
  | MsgHeartbeat
  | MsgGoodbye
  | MsgData (d : data_view)
  | MsgMembership (m : membership_record)
  | MsgIdentity (r : identity_record).

Definition message_type (m : message) : frame_type :=
  match m with
  | MsgHello ack _ => if ack then HelloAck else Hello
  | MsgAuthConfirm _ _ _ => AuthConfirm
  | MsgHeartbeat => Heartbeat
  | MsgGoodbye => Goodbye
  | MsgData _ => Data
  | MsgMembership _ => Membership
  | MsgIdentity _ => IdentityRecord
  end.

Definition encode (m : message) : list byte :=
  match m with
  | MsgHello ack h => encode_hello (if ack then HelloAck else Hello) h
  | MsgAuthConfirm tag hasSig sig => encode_auth_confirm tag hasSig sig
  | MsgHeartbeat => encode_heartbeat
  | MsgGoodbye => encode_goodbye
  | MsgData d => encode_data (d_src d) (d_dst d) (d_msgId d) (d_ttl d) (d_payload d)
  | MsgMembership r => encode_membership r
  | MsgIdentity r => encode_identity r
  end.

(** The bytes of the frame after its type byte. *)
Definition neighbors_bytes (l : list peer_id) : list byte :=
  concat (map (λ i, elems (bytes i)) l).

Definition max_neighbors : nat := Z.to_nat 0xFFFF.

Definition body (m : message) : list byte :=
  match m with
  | MsgHello _ h =>
      elems (bytes (h_nodeId h)) ++ be_bytes 1 (h_protocolVersion h) ++
      be_bytes 2 (h_tcpListenPort h) ++ str_bytes (h_groupName h) ++
      be_bytes 8 (h_nonce h) ++ be_bytes 1 (bool_u8 (h_secure h)) ++
      (if h_secure h then elems (h_ephPubKey h) else []) ++
      be_bytes 1 (bool_u8 (h_hasIdentity h)) ++
      (if h_hasIdentity h then elems (h_idPubKey h) else []) ++
      (if h_hasIdentity h then str_bytes (h_nodeName h) else [])
  | MsgAuthConfirm tag hasSig sig =>
      elems tag ++ be_bytes 1 (bool_u8 hasSig) ++ (if hasSig then elems sig else [])
  | MsgHeartbeat | MsgGoodbye => []
  | MsgData d =>
      elems (bytes (d_src d)) ++ elems (bytes (d_dst d)) ++ elems (msg_bytes (d_msgId d)) ++
      be_bytes 1 (d_ttl d) ++ be_bytes 4 (wrap 32 (Z.of_nat (length (d_payload d)))) ++
      d_payload d
  | MsgMembership r =>
      elems (bytes (m_origin r)) ++ be_bytes 8 (m_version r) ++
      be_bytes 2 (Z.of_nat (length (take max_neighbors (m_neighbors r)))) ++
      neighbors_bytes (take max_neighbors (m_neighbors r))
  | MsgIdentity r =>
      elems (ir_idPubKey r) ++ be_bytes 8 (ir_version r) ++ elems (ir_signature r) ++
      str_bytes (ir_name r)
  end.

Lemma encode_shape m :
  encode m =
  be_bytes 4 (wrap 32 (1 + Z.of_nat (length (body m)))) ++
  be_bytes 1 (frame_type_to_u8 (message_type m)) ++ body m.
Proof.
  set (t := be_bytes 1 (frame_type_to_u8 (message_type m))).
  replace (1 + Z.of_nat (length (body m))) with (Z.of_nat (length (t ++ body m)))
    by (subst t; rewrite length_app, length_be_bytes; lia).
  rewrite <-patch_length_frame. subst t.
  destruct m as [ack h|tag hasSig sig| | |d|r|r]; cbn [encode message_type body];
    unfold encode_hello, encode_auth_confirm, encode_heartbeat, encode_goodbye,
      encode_data, encode_membership, encode_identity, put_id, put_msg_id, put_bytes;
    rewrite ?put_u32_be, ?put_u8_be, ?put_u16_be, ?put_u64_be, ?put_str_bytes,
      ?fold_put_id; f_equal; rewrite ?(left_id_L [] (++)).
  - destruct (h_secure h), (h_hasIdentity h);
      rewrite ?put_u8_be, ?put_str_bytes, ?app_nil_r; by rewrite <-!(assoc_L (++)).
  - destruct hasSig; rewrite ?app_nil_r; by rewrite <-!(assoc_L (++)).
  - by rewrite <-!(assoc_L (++)).
  - rewrite <-!(assoc_L (++)). do 4 f_equal. unfold max_neighbors, neighbors_bytes.
    destruct (Z.ltb_spec 0xFFFF (Z.of_nat (length (m_neighbors r)))).
    + rewrite length_take, Nat.min_l by lia. by rewrite wrap_small by (unfold in_range; lia).
    + rewrite firstn_all, (take_ge _ (Z.to_nat _)) by lia.
      by rewrite wrap_small by (unfold in_range; lia).
  - by rewrite <-!(assoc_L (++)).
Qed.

(** ** Reading back what was written *)

(** [m] reads exactly [bs] and yields [x], whatever follows. *)
Definition reads {A} (m : reader.M A) (bs : list byte) (x : A) : Prop :=
  ∀ l, m (reader.mk (bs ++ l) false) = (x, reader.mk l false).

Lemma reads_ret {A} (x : A) : reads (mret x) [] x.
Proof. by intros l. Qed.

Lemma reads_bind {A B} (m : reader.M A) (f : A → reader.M B) bs1 bs2 x y :
  reads m bs1 x → reads (f x) bs2 y → reads (m ≫= f) (bs1 ++ bs2) y.
Proof.
  intros Hm Hf l. unfold mbind, reader.M_bind. rewrite <-(assoc_L (++)), Hm. apply Hf.
Qed.

(** The last step of a chain: nothing is left to read. *)
Lemma reads_bind_last {A B} (m : reader.M A) (f : A → reader.M B) bs x y :
  reads m bs x → reads (f x) [] y → reads (m ≫= f) bs y.
Proof. intros Hm Hf. rewrite <-(app_nil_r bs). by eapply reads_bind. Qed.

Lemma reads_u8 v : in_range 8 v → reads reader.u8 (be_bytes 1 v) v.
Proof.
  intros Hv l. cbn. rewrite Z.shiftr_0_r, byte_of_Z_land, byte_to_of_Z.
  by rewrite Z.mod_small.
Qed.

Lemma u_loop_be w n (v : Z) (bs l : list byte) :
  0 ≤ w → length bs = n → 0 ≤ v →
  v * 256 ^ Z.of_nat n + be_value bs < 2 ^ w →
  reader.u_loop w n v (reader.mk (bs ++ l) false) =
  (v * 256 ^ Z.of_nat n + be_value bs, reader.mk l false).
Proof.
  intros Hw. revert v bs. induction n as [|n IH]; intros v bs Hlen Hv Hlt.
  - apply nil_length_inv in Hlen as ->. cbn. f_equal. lia.
  - destruct bs as [|b bs]; [done|]. injection Hlen as Hlen. cbn [reader.u_loop].
    unfold mbind, reader.M_bind. cbn [reader.u8 reader.rest app reader.bad].
    pose proof (byte_to_Z_range b). pose proof (be_value_range bs).
    rewrite be_value_cons, Hlen, Nat2Z.inj_succ, Z.pow_succ_r in * by lia.
    pose proof (Z.pow_pos_nonneg 256 (Z.of_nat n)).
    rewrite wrap_small; [rewrite shift_in_byte by done|].
    + rewrite IH; [f_equal; lia|done|lia|lia].
    + unfold in_range. rewrite Z.shiftl_mul_pow2 by done. change (2 ^ 8) with 256. nia.
Qed.

Lemma reads_u32 v : in_range 32 v → reads reader.u32 (be_bytes 4 v) v.
Proof.
  intros Hv l. unfold reader.u32. rewrite u_loop_be;
    rewrite ?length_be_bytes, ?be_value_be_bytes; try done; try lia;
    change (256 ^ Z.of_nat 4) with (2 ^ 32); rewrite Z.mod_small by done;
    unfold in_range in *; [done|lia].
Qed.

Lemma reads_u64 v : in_range 64 v → reads reader.u64 (be_bytes 8 v) v.
Proof.
  intros Hv l. unfold reader.u64. rewrite u_loop_be;
    rewrite ?length_be_bytes, ?be_value_be_bytes; try done; try lia;
    change (256 ^ Z.of_nat 8) with (2 ^ 64); rewrite Z.mod_small by done;
    unfold in_range in *; [done|lia].
Qed.

Lemma reads_u16 v : in_range 16 v → reads reader.u16 (be_bytes 2 v) v.
Proof.
  intros Hv l. unfold in_range in Hv. unfold reader.u16, reader.u8, mbind, reader.M_bind.
  cbn [be_bytes app reader.rest reader.bad]. unfold mret, reader.M_ret. f_equal.
  change (Z.of_nat 1 * 8) with 8. change (Z.of_nat 0 * 8) with 0.
  rewrite !byte_of_Z_land, !byte_to_of_Z, Z.shiftr_0_r.
  rewrite shift_in_byte by (apply Z.mod_pos_bound; done).
  rewrite Z.shiftr_div_pow2 by done. change (2 ^ 8) with 256.
  rewrite wrap_small; [|unfold in_range]; zlia.
Qed.

Lemma reads_array {n} (out a : array n) : reads (reader.read_array out) (elems a) a.
Proof.
  intros l. unfold reader.read_array; cbn [reader.rest].
  pose proof (length_elems a). rewrite length_app.
  destruct (Nat.ltb_spec (length (elems a) + length l) n); [lia|].
  by rewrite take_app_length', drop_app_length', array_of_elems.
Qed.

Lemma reads_id out i : reads (reader.id out) (elems (bytes i)) i.
Proof.
  destruct i as [a]. unfold reader.id. eapply reads_bind_last; [apply reads_array|].
  apply reads_ret.
Qed.

Lemma reads_msg_id out i : reads (reader.msg_id out) (elems (msg_bytes i)) i.
Proof.
  destruct i as [a]. unfold reader.msg_id. eapply reads_bind_last; [apply reads_array|].
  apply reads_ret.
Qed.

Lemma reads_take n bs : length bs = n → reads (reader.take n) bs bs.
Proof.
  intros <- l. unfold reader.take; cbn [reader.rest]. rewrite length_app.
  destruct (Nat.ltb_spec (length bs + length l) (length bs)); [lia|].
  by rewrite take_app_length, drop_app_length.
Qed.

Lemma reads_take_array {n} (out a : array n) : reads (reader.take_array out) (elems a) a.
Proof.
  unfold reader.take_array. eapply reads_bind_last; [by apply reads_take, length_elems|].
  eapply reads_bind_last with (x := true); [by intros l|]. rewrite array_of_elems.
  apply reads_ret.
Qed.

Lemma reads_str s : reads reader.str (str_bytes s) (clip s).
Proof.
  intros l. unfold reader.str, str_bytes. rewrite <-(assoc_L (++)).
  pose proof (length_clip s).
  rewrite reads_u8 by (unfold in_range; lia). cbn [reader.bad reader.rest orb].
  rewrite Nat2Z.id, length_app.
  destruct (Nat.ltb_spec (length (clip s) + length l) (length (clip s))); [lia|].
  by rewrite take_app_length, drop_app_length.
Qed.

Lemma reads_bool (b : bool) : reads reader.u8 (be_bytes 1 (bool_u8 b)) (bool_u8 b).
Proof. apply reads_u8. by destruct b. Qed.

Lemma bool_u8_flag b : negb (bool_u8 b =? 0) = b.
Proof. by destruct b. Qed.

Lemma reads_neighbors l acc :
  reads (decode_neighbors (length l) acc) (neighbors_bytes l) (acc ++ l).
Proof.
  revert acc; induction l as [|i l IH]; intros acc; cbn [length decode_neighbors].
  - rewrite app_nil_r. apply reads_ret.
  - change (neighbors_bytes (i :: l)) with ([] ++ (elems (bytes i) ++ neighbors_bytes l)).
    eapply reads_bind with (x := true); [by intros k|].
    eapply reads_bind; [apply reads_id|].
    replace (acc ++ i :: l) with ((acc ++ [i]) ++ l) by (by rewrite <-(assoc_L (++))).
    apply IH.
Qed.

#[export] Hint Resolve reads_u8 reads_u16 reads_u32 reads_u64 reads_id reads_msg_id
  reads_take_array reads_str reads_bool reads_ret reads_take reads_neighbors : mm.

(** Peel the next field off a chain of reads. *)
Ltac reads_step :=
  first [ eapply reads_bind; [solve [eauto with mm]|]
        | eapply reads_bind_last; [solve [eauto with mm]|] ].

(** ** The round trip of every frame *)

(** Integer fields within their declared widths. *)
Definition message_ok (m : message) : Prop :=
  match m with
  | MsgHello _ h =>
      in_range 8 (h_protocolVersion h) ∧ in_range 16 (h_tcpListenPort h) ∧
      in_range 64 (h_nonce h)
  | MsgData d => in_range 8 (d_ttl d)
  | MsgMembership r => in_range 64 (m_version r)
  | MsgIdentity r => in_range 64 (ir_version r)
  | _ => True
  end.

(** The frame fits the receiver's limit and the 32-bit length field. *)
Definition fits (max : Z) (m : message) : Prop :=
  1 + Z.of_nat (length (body m)) ≤ max ∧ 5 + Z.of_nat (length (body m)) < 2 ^ 32.

(** What a [hello] looks like after crossing the wire: names are clipped to 255
    bytes, absent keys keep the receiver's initial value. *)
Definition wire_hello (out h : hello) : hello :=
  mk_hello (h_nodeId h) (h_protocolVersion h) (h_tcpListenPort h) (clip (h_groupName h))
    (h_nonce h) (h_secure h) (if h_secure h then h_ephPubKey h else h_ephPubKey out)
    (h_hasIdentity h) (if h_hasIdentity h then h_idPubKey h else h_idPubKey out)
    (if h_hasIdentity h then clip (h_nodeName h) else h_nodeName out).

Definition received (out : parsed_frame) (m : message) : parsed_frame :=
  let out := set_type out (message_type m) in
  match m with
  | MsgHello _ h => set_hello out (wire_hello (pf_hello out) h)
  | MsgAuthConfirm tag hasSig sig =>
      set_auth out (tag, hasSig, if hasSig then sig else pf_auth_sig out)
  | MsgHeartbeat | MsgGoodbye => out
  | MsgData d => set_data out d
  | MsgMembership r =>
      set_membership out (mk_membership_record (m_origin r) (m_version r)
        (take max_neighbors (m_neighbors r)))
  | MsgIdentity r =>
      set_identity out (mk_identity_record (ir_idPubKey r) (ir_version r)
        (clip (ir_name r)) (ir_signature r))
  end.

(** A flag byte as the decoder takes it: anything but zero is set. *)
Definition flag (v : Z) (b : bool) : Prop := in_range 8 v ∧ b = negb (v =? 0).

Lemma flag_bool b : flag (bool_u8 b) b.
Proof. by destruct b. Qed.

(** The two bodies with flags, these as the sender chose them. *)
Definition hello_bytes (s i : Z) (h : hello) : list byte :=
  elems (bytes (h_nodeId h)) ++ be_bytes 1 (h_protocolVersion h) ++
  be_bytes 2 (h_tcpListenPort h) ++ str_bytes (h_groupName h) ++ be_bytes 8 (h_nonce h) ++
  be_bytes 1 s ++ (if h_secure h then elems (h_ephPubKey h) else []) ++
  be_bytes 1 i ++ (if h_hasIdentity h then elems (h_idPubKey h) else []) ++
  (if h_hasIdentity h then str_bytes (h_nodeName h) else []).

Definition auth_bytes (s : Z) (tag : array 32) (hasSig : bool) (sig : array 64) : list byte :=
  elems tag ++ be_bytes 1 s ++ (if hasSig then elems sig else []).

Lemma reads_hello_bytes out h s i ack :
  message_ok (MsgHello ack h) → flag s (h_secure h) → flag i (h_hasIdentity h) →
  reads (decode_hello out) (hello_bytes s i h) (wire_hello out h).
Proof.
  intros (Hpv & Hport & Hn) [Hs Hs'] [Hi Hi']. unfold decode_hello, hello_bytes.
  do 5 reads_step. reads_step. rewrite <-Hs'.
  eapply reads_bind with (x := if h_secure h then h_ephPubKey h else h_ephPubKey out);
    [destruct (h_secure h); eauto with mm|].
  reads_step. rewrite <-Hi'.
  eapply reads_bind with (x := if h_hasIdentity h then h_idPubKey h else h_idPubKey out);
    [destruct (h_hasIdentity h); eauto with mm|].
  eapply reads_bind_last with
    (x := if h_hasIdentity h then clip (h_nodeName h) else h_nodeName out);
    [destruct (h_hasIdentity h); eauto with mm|].
  apply reads_ret.
Qed.

Lemma reads_hello out h ack :
  message_ok (MsgHello ack h) →
  reads (decode_hello out) (body (MsgHello ack h)) (wire_hello out h).
Proof. intros Hok. by apply (reads_hello_bytes out h _ _ ack Hok); apply flag_bool. Qed.

Lemma reads_auth_bytes tag0 sig0 s tag hasSig sig :
  flag s hasSig →
  reads (decode_auth tag0 sig0) (auth_bytes s tag hasSig sig)
    (tag, hasSig, if hasSig then sig else sig0).
Proof.
  intros [Hs Hs']. unfold decode_auth, auth_bytes. do 2 reads_step. rewrite <-Hs'.
  eapply reads_bind_last with (x := if hasSig then sig else sig0);
    [destruct hasSig; eauto with mm|]. apply reads_ret.
Qed.

Lemma reads_auth tag0 sig0 tag hasSig sig :
  reads (decode_auth tag0 sig0) (body (MsgAuthConfirm tag hasSig sig))
    (tag, hasSig, if hasSig then sig else sig0).
Proof. apply reads_auth_bytes, flag_bool. Qed.

Lemma reads_data out d :
  in_range 8 (d_ttl d) → in_range 32 (Z.of_nat (length (d_payload d))) →
  reads (decode_data out) (body (MsgData d)) d.
Proof.
  intros Httl Hlen. unfold decode_data; cbn [body]. rewrite wrap_small by done.
  do 5 reads_step. destruct d as [src dst mid ttl payload]; simpl in *.
  eapply reads_bind_last; [by apply reads_take; lia|]. apply reads_ret.
Qed.

Lemma reads_membership out r :
  in_range 64 (m_version r) →
  reads (decode_membership out) (body (MsgMembership r))
    (mk_membership_record (m_origin r) (m_version r) (take max_neighbors (m_neighbors r))).
Proof.
  intros Hv. unfold decode_membership; cbn [body]. do 2 reads_step.
  eapply reads_bind.
  { apply reads_u16. unfold in_range, max_neighbors. rewrite length_take. lia. }
  rewrite Nat2Z.id. reads_step. apply reads_ret.
Qed.

Lemma reads_identity out r :
  in_range 64 (ir_version r) →
  reads (decode_identity out) (body (MsgIdentity r))
    (mk_identity_record (ir_idPubKey r) (ir_version r) (clip (ir_name r)) (ir_signature r)).
Proof. intros Hv. unfold decode_identity; cbn [body]. do 4 reads_step. apply reads_ret. Qed.

(** A body of the grammar: the encoder's, but with any flag bytes. *)
Definition body_form (m : message) (bs : list byte) : Prop :=
  match m with
  | MsgHello _ h => ∃ s i, flag s (h_secure h) ∧ flag i (h_hasIdentity h) ∧ bs = hello_bytes s i h
  | MsgAuthConfirm tag hasSig sig => ∃ s, flag s hasSig ∧ bs = auth_bytes s tag hasSig sig
  | _ => bs = body m
  end.

Lemma body_form_body m : body_form m (body m).
Proof.
  destruct m as [ack h|tag hasSig sig| | | | |]; try done; simpl;
    eauto using flag_bool.
Qed.

(** Every body decodes to what its receiver is to see. *)
Lemma reads_body m bs out :
  message_ok m → body_form m bs → Z.of_nat (length bs) < 2 ^ 32 →
  ∃ d, decode_body (message_type m) (set_type out (message_type m)) = Some d ∧
       reads d bs (received out m).
Proof.
  intros Hok Hform Hlen.
  destruct m as [ack h|tag hasSig sig| | |d|r|r]; cbn [message_type body_form] in *.
  - destruct Hform as (s & i & Hs & Hi & ->). exists (x ← decode_hello (pf_hello out);
      mret (set_hello (set_type out (if ack then HelloAck else Hello)) x)).
    split; [by destruct ack|].
    eapply reads_bind_last; [by eapply reads_hello_bytes|]. apply reads_ret.
  - destruct Hform as (s & Hs & ->). eexists; split; [done|].
    eapply reads_bind_last; [by apply reads_auth_bytes|]. apply reads_ret.
  - subst bs. eexists; split; [done|]. apply reads_ret.
  - subst bs. eexists; split; [done|]. apply reads_ret.
  - subst bs. eexists; split; [done|]. eapply reads_bind_last; [apply reads_data|apply reads_ret];
      [done|]. cbn [body] in Hlen. unfold in_range. len.
  - subst bs. eexists; split; [done|].
    eapply reads_bind_last; [by apply reads_membership|]. apply reads_ret.
  - subst bs. eexists; split; [done|].
    eapply reads_bind_last; [by apply reads_identity|]. apply reads_ret.
Qed.

Lemma frame_type_roundtrip m :
  frame_type_of_u8 (frame_type_to_u8 (message_type m)) = message_type m.
Proof. by destruct m as [[]| | | | | |]. Qed.

Lemma message_type_range m : in_range 8 (frame_type_to_u8 (message_type m)).
Proof. by destruct m as [[]| | | | | |]. Qed.

(** The peeked length is the big-endian value of the first four bytes. *)
Lemma peek_u32_be_value input :
  (4 ≤ length input)%nat → peek_u32 input = be_value (take 4 input).
Proof.
  intros H. destruct input as [|b0 [|b1 [|b2 [|b3 l]]]]; simpl in H; try lia.
  unfold peek_u32, be_value. cbn [nth take firstn fold_left].
  pose proof (byte_to_Z_range b1). pose proof (byte_to_Z_range b2).
  pose proof (byte_to_Z_range b3).
  change 24 with (8 + 8 + 8). change 16 with (8 + 8).
  rewrite <-!Z.shiftl_shiftl by done. rewrite <-!Z.shiftl_lor.
  rewrite !shift_in_byte by done. by rewrite take_0.
Qed.

Lemma peek_u32_frame len l : in_range 32 len → peek_u32 (be_bytes 4 len ++ l) = len.
Proof.
  intros Hlen. rewrite peek_u32_be_value by len.
  rewrite take_app_length' by len. rewrite be_value_be_bytes.
  change (256 ^ Z.of_nat 4) with (2 ^ 32). by apply Z.mod_small.
Qed.

Lemma peek_u32_range input : (4 ≤ length input)%nat → in_range 32 (peek_u32 input).
Proof.
  intros H. rewrite peek_u32_be_value by done.
  pose proof (be_value_range (take 4 input)) as Hr.
  rewrite length_take, Nat.min_l in Hr by done. exact Hr.
Qed.

Lemma length_encode m : length (encode m) = (5 + length (body m))%nat.
Proof. rewrite encode_shape. len. Qed.

(** The fixed overhead of a data frame is 58 bytes. *)
Lemma length_body_data d :
  length (body (MsgData d)) = (53 + length (d_payload d))%nat.
Proof. cbn [body]. len. Qed.

(** Any frame whose body is of the grammar is accepted, bytes after the last
    field ignored. *)
Lemma decode_lenient m bs junk tail max out consumed :
  let len := 1 + Z.of_nat (length (bs ++ junk)) in
  message_ok m → body_form m bs → in_range 32 len → len ≤ max →
  try_decode_frame ((be_bytes 4 len ++ be_bytes 1 (frame_type_to_u8 (message_type m)) ++
    bs ++ junk) ++ tail) max out consumed = (Ok, received out m, wrap 32 (4 + len)).
Proof.
  intros len Hok Hform Hlen Hmax. pose proof Hlen as [_ H32].
  assert (len = 1 + Z.of_nat (length bs + length junk)) as El by (subst len; by rewrite length_app).
  destruct (reads_body m bs out Hok Hform ltac:(lia)) as (d & Hd & Hreads).
  unfold try_decode_frame. rewrite <-(assoc_L (++)), peek_u32_frame by done.
  assert (length (be_bytes 4 len ++ (be_bytes 1 (frame_type_to_u8 (message_type m)) ++ bs ++ junk) ++ tail)
    = (4 + Z.to_nat len + length tail)%nat) as -> by len.
  destruct (Z.ltb_spec (Z.of_nat (4 + Z.to_nat len + length tail)) 4); [lia|].
  destruct (Z.ltb_spec len 1); [lia|]. destruct (Z.ltb_spec max len); [lia|].
  destruct (Z.ltb_spec (Z.of_nat (4 + Z.to_nat len + length tail)) (4 + len)); [lia|].
  rewrite drop_app_length' by len. rewrite take_app_length' by len.
  rewrite reads_u8 by apply message_type_range.
  by rewrite frame_type_roundtrip, Hd, Hreads.
Qed.

Lemma decode_encode m tail max out consumed :
  message_ok m → fits max m →
  try_decode_frame (encode m ++ tail) max out consumed =
  (Ok, received out m, Z.of_nat (length (encode m))).
Proof.
  intros Hok [Hmax H32].
  pose proof (decode_lenient m (body m) [] tail max out consumed Hok (body_form_body m)) as Hd.
  rewrite app_nil_r in Hd. rewrite length_encode, encode_shape, wrap_small by (unfold in_range; lia).
  rewrite Hd, wrap_small by (unfold in_range; lia). f_equal. lia.
Qed.

(** [C1] Every frame a node encodes is decoded by the receiver to the message
    it carries, whatever bytes follow it in the stream and whatever the output
    structure held, and exactly the frame is consumed. *)
Theorem frame_roundtrip m tail max out consumed :
  message_ok m → fits max m →
  try_decode_frame (encode m ++ tail) max out consumed =
  (Ok, received out m, Z.of_nat (length (encode m))).
Proof. apply decode_encode. Qed.

(** A hello as a node with both security and identity would send it. *)
Definition sample_hello : hello :=
  mk_hello (mk_peer_id (array_of 16 (bytes_of_string "0123456789abcdef"))) 1 45454
    (bytes_of_string "lan") 77 true (array_of 32 (bytes_of_string "ephemeral")) true
    (array_of 32 (bytes_of_string "identity")) (bytes_of_string "node").

Lemma frame_roundtrip_witness :
  try_decode_frame (encode (MsgHello false sample_hello) ++ bytes_of_string "next") 1024
    parsed_frame_zero 0 =
  (Ok, received parsed_frame_zero (MsgHello false sample_hello), 107).
Proof.
  apply (frame_roundtrip (MsgHello false sample_hello) (bytes_of_string "next") 1024
    parsed_frame_zero 0).
  - vm_compute. repeat split; congruence.
  - vm_compute. repeat split; congruence.
Defined.

(** ** Decoding a growing stream *)

(** A verdict other than [NeedMore] depends only on the frame's own bytes. *)
Lemma try_decode_frame_app input more max out consumed s o c :
  try_decode_frame input max out consumed = (s, o, c) → s ≠ NeedMore →
  try_decode_frame (input ++ more) max out consumed = (s, o, c).
Proof.
  unfold try_decode_frame. rewrite length_app. intros H Hs.
  destruct (Z.ltb_spec (Z.of_nat (length input)) 4); [congruence|].
  destruct (Z.ltb_spec (Z.of_nat (length input + length more)) 4); [lia|].
  assert (peek_u32 (input ++ more) = peek_u32 input) as Hp.
  { rewrite !peek_u32_be_value by (rewrite ?length_app; lia).
    by rewrite take_app_le by lia. }
  rewrite Hp. pose proof (peek_u32_range input ltac:(lia)) as Hr. unfold in_range in Hr.
  destruct (Z.ltb_spec (peek_u32 input) 1); [done|].
  destruct (Z.ltb_spec max (peek_u32 input)); [done|].
  destruct (Z.ltb_spec (Z.of_nat (length input)) (4 + peek_u32 input)); [congruence|].
  destruct (Z.ltb_spec (Z.of_nat (length input + length more)) (4 + peek_u32 input)); [lia|].
  rewrite drop_app_le, take_app_le by (rewrite ?length_drop; lia). done.
Qed.

(** [C2] Reading more of the stream never changes a verdict already reached: if
    a prefix of the input decodes (or is rejected), any longer input decodes to
    the same frame with the same length (or is rejected), so the order in which
    the kernel delivers the bytes does not matter. *)
Theorem decode_stable input more max out consumed :
  let '(s, o, c) := try_decode_frame input max out consumed in
  s = NeedMore ∨ try_decode_frame (input ++ more) max out consumed = (s, o, c).
Proof.
  destruct (try_decode_frame input max out consumed) as [[s o] c] eqn:E.
  destruct s; [by left|right..]; by eapply try_decode_frame_app.
Qed.

Lemma try_decode_frame_short input max out consumed :
  Z.of_nat (length input) < 4 ∨
  (1 ≤ peek_u32 input ≤ max ∧ Z.of_nat (length input) < 4 + peek_u32 input) →
  try_decode_frame input max out consumed = (NeedMore, out, consumed).
Proof.
  intros H. unfold try_decode_frame.
  destruct (Z.ltb_spec (Z.of_nat (length input)) 4); [done|].
  destruct H as [|[Hp Hs]]; [lia|].
  destruct (Z.ltb_spec (peek_u32 input) 1); [lia|].
  destruct (Z.ltb_spec max (peek_u32 input)); [lia|].
  by destruct (Z.ltb_spec (Z.of_nat (length input)) (4 + peek_u32 input)); [|lia].
Qed.

(** A frame that has not arrived completely is never rejected and never
    misread: on every strict prefix of an encoded frame the decoder asks for
    more input and leaves its outputs untouched. *)
Theorem partial_frame_needs_more m n max out consumed :
  fits max m → (n < length (encode m))%nat →
  try_decode_frame (take n (encode m)) max out consumed = (NeedMore, out, consumed).
Proof.
  intros [Hmax H32] Hn. rewrite length_encode in Hn. apply try_decode_frame_short.
  rewrite length_take, length_encode, Nat.min_l by lia.
  destruct (decide (n < 4)%nat); [left; lia|right].
  assert (peek_u32 (take n (encode m)) = 1 + Z.of_nat (length (body m))) as ->; [|lia].
  rewrite peek_u32_be_value by (rewrite length_take, length_encode; lia).
  rewrite take_take, Nat.min_l by lia. rewrite encode_shape.
  rewrite take_app_length' by len. rewrite be_value_be_bytes, wrap_small.
  - apply Z.mod_small. change (256 ^ Z.of_nat 4) with (2 ^ 32). lia.
  - unfold in_range. lia.
Qed.

Lemma partial_frame_needs_more_witness :
  try_decode_frame (take 7 (encode MsgHeartbeat ++ [])) 1 parsed_frame_zero 9 =
    (Ok, received parsed_frame_zero MsgHeartbeat, 5) ∧
  try_decode_frame (take 4 (encode MsgHeartbeat)) 1 parsed_frame_zero 9 =
    (NeedMore, parsed_frame_zero, 9).
Proof.
  split; [reflexivity|]. apply (partial_frame_needs_more MsgHeartbeat 4).
  - vm_compute. repeat split; congruence.
  - vm_compute. lia.
Defined.

(** ** Bounds and rejection *)

Lemma decode_consumed input max out consumed o c :
  max + 4 < 2 ^ 32 →
  try_decode_frame input max out consumed = (Ok, o, c) →
  c = 4 + peek_u32 input ∧ 5 ≤ c ≤ Z.of_nat (length input) ∧ c ≤ 4 + max.
Proof.
  intros Hmax. unfold try_decode_frame.
  destruct (Z.ltb_spec (Z.of_nat (length input)) 4); [done|].
  destruct (Z.ltb_spec (peek_u32 input) 1); [done|].
  destruct (Z.ltb_spec max (peek_u32 input)); [done|].
  destruct (Z.ltb_spec (Z.of_nat (length input)) (4 + peek_u32 input)); [done|].
  destruct (reader.u8 _) as [ty r]. destruct (decode_body _ _) as [m|]; [|done].
  destruct (m r) as [o' r']. destruct (reader.bad r'); [done|].
  intros [= _ <-]. rewrite wrap_small by (unfold in_range; lia). lia.
Qed.

(** What a successful decode reports as consumed is the whole frame, inside
    the input and within the configured limit, and is never zero: the caller
    that consumes it makes progress and never runs past its buffer. *)
Theorem decode_consumes_within input max out consumed o c :
  max + 4 < 2 ^ 32 →
  try_decode_frame input max out consumed = (Ok, o, c) →
  c = 4 + peek_u32 input ∧ 5 ≤ c ≤ Z.of_nat (length input) ∧ c ≤ 4 + max.
Proof. apply decode_consumed. Qed.

Lemma decode_consumes_within_witness :
  let c := 5 in 5 ≤ c ≤ 6 ∧ c ≤ 4 + 1024.
Proof.
  destruct (decode_consumes_within (encode_goodbye ++ [Byte.x00]) 1024 parsed_frame_zero 0
    (received parsed_frame_zero MsgGoodbye) 5) as (_ & H1 & H2).
  - reflexivity.
  - vm_compute. reflexivity.
  - split; [exact H1|exact H2].
Defined.

(** A length prefix that is zero or over the limit is rejected at once, before
    any of the body has arrived. *)
Lemma oversized_rejected input max out consumed :
  (4 ≤ length input)%nat → peek_u32 input < 1 ∨ max < peek_u32 input →
  try_decode_frame input max out consumed = (Error, out, consumed).
Proof.
  intros Hlen H. unfold try_decode_frame.
  destruct (Z.ltb_spec (Z.of_nat (length input)) 4); [lia|].
  destruct (Z.ltb_spec (peek_u32 input) 1); [done|].
  by destruct (Z.ltb_spec max (peek_u32 input)); [|lia].
Qed.

(** ** The discovery datagram *)

Definition announce_ok (a : announce) : Prop :=
  in_range 8 (a_protocolVersion a) ∧ in_range 8 (a_flags a) ∧ in_range 16 (a_tcpListenPort a).

Definition announce_body (a : announce) : list byte :=
  be_bytes 1 (a_protocolVersion a) ++ be_bytes 1 (a_flags a) ++
  be_bytes 2 (a_tcpListenPort a) ++ elems (bytes (a_nodeId a)) ++ str_bytes (a_groupName a).

Lemma encode_announce_shape a :
  encode_announce a = be_bytes 4 kAnnounceMagic ++ announce_body a.
Proof.
  unfold encode_announce, announce_body, put_id, put_bytes.
  rewrite put_str_bytes, put_u16_be, !put_u8_be, put_u32_be.
  by rewrite <-!(assoc_L (++)).
Qed.

Lemma decode_encode_announce a tail :
  announce_ok a →
  decode_announce (encode_announce a ++ tail) =
  Some (mk_announce (a_protocolVersion a) (a_flags a) (a_tcpListenPort a) (a_nodeId a)
    (clip (a_groupName a))).
Proof.
  intros (Hpv & Hf & Hp). unfold decode_announce.
  rewrite encode_announce_shape, <-(assoc_L (++)), reads_u32 by done.
  rewrite Z.eqb_refl. cbn [negb].
  match goal with |- context [let '(_, _) := ?m _ in _] => set (rd := m) end.
  assert (reads rd (announce_body a) (mk_announce (a_protocolVersion a) (a_flags a)
    (a_tcpListenPort a) (a_nodeId a) (clip (a_groupName a)))) as H.
  { subst rd. unfold announce_body. do 5 reads_step. apply reads_ret. }
  by rewrite H.
Qed.

(** A discovery datagram decodes to the announcement it carries, with the
    group name clipped to the 255 bytes the format has room for; trailing bytes
    are ignored. *)
Theorem announce_roundtrip a tail :
  announce_ok a →
  decode_announce (encode_announce a ++ tail) =
  Some (mk_announce (a_protocolVersion a) (a_flags a) (a_tcpListenPort a) (a_nodeId a)
    (clip (a_groupName a))).
Proof. apply decode_encode_announce. Qed.

Lemma announce_roundtrip_witness :
  let a := mk_announce 1 1 45454 peer_id_zero (bytes_of_string "lan") in
  decode_announce (encode_announce a ++ [Byte.x00]) = Some a.
Proof.
  apply (announce_roundtrip (mk_announce 1 1 45454 peer_id_zero (bytes_of_string "lan"))).
  vm_compute. repeat split; congruence.
Defined.

(** A datagram that does not start with the magic number is ignored. *)
Lemma announce_bad_magic input :
  (4 ≤ length input)%nat → be_value (take 4 input) ≠ kAnnounceMagic →
  decode_announce input = None.
Proof.
  intros Hlen Hm. unfold decode_announce.
  rewrite <-(take_drop 4 input) at 1. unfold reader.u32.
  pose proof (be_value_range (take 4 input)) as Hr.
  rewrite length_take, Nat.min_l in Hr by lia.
  rewrite u_loop_be by (rewrite ?length_take; (done || lia || (simpl; lia))).
  rewrite Z.mul_0_l, Z.add_0_l. by destruct (Z.eqb_spec (be_value (take 4 input)) kAnnounceMagic).
Qed.

(** No string of the format is longer than 255 bytes. *)
Lemma reader_str_short r : (length (reader.str r).1 <= 255)%nat.
Proof.
  unfold reader.str, reader.u8. destruct (reader.rest r) as [|b l]; cbn [reader.bad reader.rest].
  { destruct (_ || _); simpl; [lia|]. len. }
  pose proof (byte_to_Z_range b). destruct (_ || _); cbn [fst length]; [lia|].
  rewrite length_take. lia.
Qed.

Lemma decode_announce_short input a :
  decode_announce input = Some a → (length (a_groupName a) <= 255)%nat.
Proof.
  unfold decode_announce. destruct (reader.u32 _) as [magic r]. destruct (negb _); [done|].
  unfold mbind, reader.M_bind, mret, reader.M_ret.
  destruct (reader.u8 r) as [v1 r1], (reader.u8 r1) as [v2 r2], (reader.u16 r2) as [v3 r3],
    (reader.id peer_id_zero r3) as [v4 r4].
  pose proof (reader_str_short r4) as Hs. destruct (reader.str r4) as [v5 r5].
  destruct (reader.bad r5); [done|]. intros [= <-]. exact Hs.
Qed.
