(* ===== verification/WireGrammar.v ===== *)
(** * What the decoder accepts

    [frame_roundtrip] says what the decoder of src/src/wire.cpp does with a
    frame this program encoded.  Here is the other direction, for bytes from
    peers that are not trusted: which inputs [try_decode_frame] and
    [decode_announce] accept at all, and what they then report.  The grammar is
    that of the encoders except in two places where the decoder is lenient: any
    non-zero byte is a set flag, and bytes after the last field but within the
    frame's length are ignored. *)
From Stdlib Require Import ZArith Lia.
From Stdlib.Strings Require Import Byte.
From stdpp Require Import base list numbers option.
From S2P Require Import Prelude PeerId Wire WireFacts.

(** ** Readers that account for every byte *)

(** An overrun is never forgotten. *)
Definition sticky {A} (m : reader.M A) : Prop := ∀ r, reader.bad r = true → reader.bad (m r).2 = true.

Lemma sticky_ret {A} (x : A) : sticky (mret x).
Proof. by intros r. Qed.

Lemma sticky_bind {A B} (m : reader.M A) (f : A → reader.M B) :
  sticky m → (∀ x, sticky (f x)) → sticky (m ≫= f).
Proof.
  intros Hm Hf r Hr. unfold mbind, reader.M_bind. specialize (Hm r Hr).
  destruct (m r) as [x r']. by apply Hf.
Qed.

Lemma sticky_if {A} (b : bool) (m1 m2 : reader.M A) :
  sticky m1 → sticky m2 → sticky (if b then m1 else m2).
Proof. by destruct b. Qed.

Lemma sticky_u8 : sticky reader.u8.
Proof. intros [[|b l] bad]; simpl; [done|by intros ->]. Qed.

Lemma sticky_ok : sticky reader.ok.
Proof. by intros r. Qed.

Lemma sticky_u_loop w n v : sticky (reader.u_loop w n v).
Proof.
  revert v. induction n as [|n IH]; intros v; cbn [reader.u_loop]; [apply sticky_ret|].
  apply sticky_bind; [apply sticky_u8|intros b; apply IH].
Qed.

Lemma sticky_array {n} (out : array n) : sticky (reader.read_array out).
Proof. intros r. unfold reader.read_array. by case_match. Qed.

Lemma sticky_take n : sticky (reader.take n).
Proof. intros r. unfold reader.take. by case_match. Qed.

Lemma sticky_str : sticky reader.str.
Proof.
  intros r Hr. unfold reader.str. pose proof (sticky_u8 r Hr) as Hs.
  destruct (reader.u8 r) as [n r']. simpl in Hs. by rewrite Hs.
Qed.

Create HintDb sticky discriminated.
#[export] Hint Resolve sticky_ret sticky_if sticky_u8 sticky_ok sticky_u_loop sticky_array
  sticky_take sticky_str sticky_bind : sticky.
#[export] Hint Extern 1 (sticky reader.u16) => unfold reader.u16 : sticky.
#[export] Hint Extern 1 (sticky reader.u32) => unfold reader.u32 : sticky.
#[export] Hint Extern 1 (sticky reader.u64) => unfold reader.u64 : sticky.
#[export] Hint Extern 1 (sticky (reader.id _)) => unfold reader.id : sticky.
#[export] Hint Extern 1 (sticky (reader.msg_id _)) => unfold reader.msg_id : sticky.
#[export] Hint Extern 1 (sticky (reader.take_array _)) => unfold reader.take_array : sticky.

(** Without an overrun, [m] consumed some [bs] with [P bs x] for its value. *)
Definition accounts {A} (m : reader.M A) (P : list byte → A → Prop) : Prop :=
  ∀ r, reader.bad r = false → reader.bad (m r).2 = false →
    ∃ bs, reader.rest r = bs ++ reader.rest (m r).2 ∧ P bs (m r).1.

Lemma accounts_ret {A} (x : A) (P : list byte → A → Prop) : P [] x → accounts (mret x) P.
Proof. intros HP r _ _. by exists []. Qed.

Lemma accounts_weaken {A} (m : reader.M A) (P Q : list byte → A → Prop) :
  accounts m P → (∀ bs x, P bs x → Q bs x) → accounts m Q.
Proof. intros Hm HPQ r H0 H1. destruct (Hm r H0 H1) as (bs & ? & ?). eauto. Qed.

Lemma accounts_bind {A B} (m : reader.M A) (f : A → reader.M B) P (Q : list byte → B → Prop) :
  accounts m P → (∀ x, sticky (f x)) →
  (∀ bs x, P bs x → accounts (f x) (λ bs' y, Q (bs ++ bs') y)) → accounts (m ≫= f) Q.
Proof.
  intros Hm Hs Hf r H0. specialize (Hm r H0). unfold mbind, reader.M_bind.
  destruct (m r) as [x r1]. simpl in Hm. intros H2.
  destruct (reader.bad r1) eqn:H1; [pose proof (Hs x r1 H1); congruence|].
  destruct (Hm eq_refl) as (bs & Hbs & HP). destruct (Hf bs x HP r1 H1 H2) as (bs' & Hbs' & HQ).
  exists (bs ++ bs'). split; [|done]. by rewrite Hbs, Hbs', (assoc_L (++)).
Qed.

(** ** The fields *)

(** An integer of [n] bytes, most significant first. *)
Definition int_bytes (n : nat) (bs : list byte) (v : Z) : Prop :=
  in_range (8 * Z.of_nat n) v ∧ bs = be_bytes n v.

Lemma accounts_u8 : accounts reader.u8 (int_bytes 1).
Proof.
  intros [[|b l] bad]; simpl; [done|]. intros _ _. exists [b]. split; [done|].
  split; [apply byte_to_Z_range|].
  rewrite <-(be_bytes_be_value [b]) at 1. done.
Qed.

(** The loop of a [w]-bit accumulator consumes [n] bytes... *)
Lemma u_loop_length w n : ∀ v, accounts (reader.u_loop w n v) (λ bs _, length bs = n).
Proof.
  induction n as [|n IH]; intros v; cbn [reader.u_loop]; [by apply accounts_ret|].
  eapply accounts_bind; [apply accounts_u8|eauto with sticky|]. intros bs b [_ ->].
  eapply accounts_weaken; [apply IH|]. intros bs' _ <-. by rewrite length_app, length_be_bytes.
Qed.

(** ... and returns their value when they fit it. *)
Lemma accounts_uint w n : w = 8 * Z.of_nat n → accounts (reader.u_loop w n 0) (int_bytes n).
Proof.
  intros -> r H0 H1. destruct (u_loop_length _ n 0 r H0 H1) as (bs & Hbs & Hn).
  exists bs. split; [done|]. pose proof (be_value_range bs) as Hr. rewrite Hn in Hr.
  assert (2 ^ (8 * Z.of_nat n) = 256 ^ Z.of_nat n) as Hp by (by rewrite Z.pow_mul_r by lia).
  destruct r as [l b]. simpl in H0, Hbs. subst b. rewrite Hbs, u_loop_be by (rewrite ?Hp; done || lia).
  simpl. rewrite Z.mul_0_l, Z.add_0_l. split; [unfold in_range; lia|].
  by rewrite <-Hn, be_bytes_be_value.
Qed.

Lemma accounts_u32 : accounts reader.u32 (int_bytes 4).
Proof. by apply accounts_uint. Qed.

Lemma accounts_u64 : accounts reader.u64 (int_bytes 8).
Proof. by apply accounts_uint. Qed.

Lemma accounts_u16 : accounts reader.u16 (int_bytes 2).
Proof.
  eapply accounts_bind; [apply accounts_u8|eauto with sticky|]. intros ? hi [Hhi ->].
  eapply accounts_bind; [apply accounts_u8|eauto with sticky|]. intros ? lo [Hlo ->].
  apply accounts_ret. rewrite app_nil_r. unfold in_range in *.
  change (8 * Z.of_nat 1) with 8 in *. change (2 ^ 8) with 256 in *.
  rewrite shift_in_byte, wrap_small by (unfold in_range; lia). split; [unfold in_range; lia|].
  rewrite <-(be_bytes_be_value (be_bytes 1 hi ++ be_bytes 1 lo)), length_app, !length_be_bytes.
  f_equal. pose proof (be_value_be_bytes 1 hi) as H1. pose proof (be_value_be_bytes 1 lo) as H2.
  change (256 ^ Z.of_nat 1) with 256 in *. rewrite Z.mod_small in H1, H2 by done.
  cbn [be_bytes app] in *. rewrite !be_value_cons in *. unfold be_value in *. simpl in *. lia.
Qed.

Lemma accounts_array {n} (out : array n) : accounts (reader.read_array out) (λ bs a, bs = elems a).
Proof.
  intros [l b]. unfold reader.read_array. cbn [reader.rest reader.bad].
  destruct (Nat.ltb_spec (length l) n); [done|]. intros _ _. exists (take n l).
  cbn [fst snd reader.rest]. rewrite elems_array_of_exact by (rewrite length_take; lia).
  by rewrite take_drop.
Qed.

Lemma accounts_id out : accounts (reader.id out) (λ bs i, bs = elems (bytes i)).
Proof.
  eapply accounts_bind; [apply accounts_array|eauto with sticky|]. intros bs a ->.
  apply accounts_ret. by rewrite app_nil_r.
Qed.

Lemma accounts_msg_id out : accounts (reader.msg_id out) (λ bs i, bs = elems (msg_bytes i)).
Proof.
  eapply accounts_bind; [apply accounts_array|eauto with sticky|]. intros bs a ->.
  apply accounts_ret. by rewrite app_nil_r.
Qed.

Lemma accounts_take n : accounts (reader.take n) (λ bs x, bs = x ∧ length x = n).
Proof.
  intros [l b]. unfold reader.take. cbn [reader.rest reader.bad].
  destruct (Nat.ltb_spec (length l) n); [done|]. intros _ _. exists (take n l).
  cbn [fst snd reader.rest]. rewrite take_drop, length_take. split_and!; [done..|lia].
Qed.

Lemma accounts_ok : accounts reader.ok (λ bs k, bs = [] ∧ k = true).
Proof. intros r H0 _. exists []. unfold reader.ok. simpl. by rewrite H0. Qed.

Lemma accounts_take_array {n} (out : array n) :
  accounts (reader.take_array out) (λ bs a, bs = elems a).
Proof.
  eapply accounts_bind; [apply accounts_take|eauto with sticky|]. intros bs s [-> Hs].
  eapply accounts_bind; [apply accounts_ok|eauto with sticky|]. intros bs k [-> ->].
  apply accounts_ret. by rewrite elems_array_of_exact, !app_nil_r.
Qed.

Lemma accounts_str :
  accounts reader.str (λ bs s, (length s ≤ 255)%nat ∧ bs = str_bytes s).
Proof.
  intros r H0. pose proof (accounts_u8 r H0) as Hu. unfold reader.str.
  destruct (reader.u8 r) as [n r1]. simpl in Hu.
  destruct (reader.bad r1) eqn:H1; [done|]. cbn [orb].
  destruct (Nat.ltb_spec (length (reader.rest r1)) (Z.to_nat n)); [done|]. intros _.
  destruct (Hu eq_refl) as (bs & Hbs & Hn & ->). unfold in_range in Hn.
  change (2 ^ (8 * Z.of_nat 1)) with 256 in Hn. cbn [fst snd reader.rest].
  set (s := take (Z.to_nat n) (reader.rest r1)).
  assert (length s = Z.to_nat n) as Hlen by (subst s; rewrite length_take; lia).
  exists (str_bytes s). split_and!; [|lia|done]. rewrite Hbs. unfold str_bytes.
  rewrite clip_short, Hlen, Z2Nat.id, <-(assoc_L (++)) by lia. subst s. by rewrite take_drop.
Qed.

Lemma sticky_neighbors n : ∀ acc, sticky (decode_neighbors n acc).
Proof. induction n as [|n IH]; intros acc; cbn [decode_neighbors]; eauto with sticky. Qed.

#[export] Hint Resolve sticky_neighbors : sticky.

Lemma accounts_neighbors n : ∀ acc, accounts (decode_neighbors n acc)
  (λ bs l, ∃ k, l = acc ++ k ∧ length k = n ∧ bs = neighbors_bytes k).
Proof.
  induction n as [|n IH]; intros acc; cbn [decode_neighbors].
  { apply accounts_ret. exists []. by rewrite app_nil_r. }
  eapply accounts_bind; [apply accounts_ok|intros []; eauto with sticky|]. intros bs k [-> ->].
  eapply accounts_bind; [apply accounts_id|eauto with sticky|]. intros bs i ->.
  eapply accounts_weaken; [apply IH|]. intros bs l (k & -> & <- & ->).
  exists (i :: k). by rewrite <-(assoc_L (++)).
Qed.

(** Fields that are there only when a flag says so. *)
Lemma accounts_key {n} (b : bool) (out : array n) :
  accounts (if b then reader.take_array out else mret out)
    (λ bs a, bs = (if b then elems a else []) ∧ (b = false → a = out)).
Proof.
  destruct b; [|by apply accounts_ret].
  eapply accounts_weaken; [apply accounts_take_array|]. by intros bs a ->.
Qed.

Lemma accounts_name (b : bool) (out : list byte) :
  accounts (if b then reader.str else mret out)
    (λ bs s, (b = true → (length s ≤ 255)%nat) ∧ bs = (if b then str_bytes s else []) ∧
       (b = false → s = out)).
Proof.
  destruct b; [|by apply accounts_ret].
  eapply accounts_weaken; [apply accounts_str|]. by intros bs s [? ->].
Qed.

Create HintDb accounts discriminated.
#[export] Hint Resolve accounts_u8 accounts_u16 accounts_u32 accounts_u64 accounts_id
  accounts_msg_id accounts_take accounts_take_array accounts_str accounts_neighbors
  accounts_key accounts_name : accounts.

(** Account for the next field. *)
Ltac accounts_step :=
  eapply accounts_bind; [solve [eauto with accounts]|solve [eauto 30 with sticky]|].

(** ** The grammar *)

(** Every name and list fits its length field. *)
Definition unclipped (m : message) : Prop :=
  match m with
  | MsgHello _ h => (length (h_groupName h) ≤ 255)%nat ∧
      (h_hasIdentity h = true → (length (h_nodeName h) ≤ 255)%nat)
  | MsgMembership r => (length (m_neighbors r) ≤ max_neighbors)%nat
  | MsgIdentity r => (length (ir_name r) ≤ 255)%nat
  | _ => True
  end.

(** The frames that carry [m]: the length of what follows it, the type byte,
    the body, and whatever else the length covers. *)
Inductive frame_of (m : message) : list byte → Prop :=
  | Frame_of bs junk :
      message_ok m → unclipped m → body_form m bs →
      in_range 32 (1 + Z.of_nat (length (bs ++ junk))) →
      frame_of m (be_bytes 4 (1 + Z.of_nat (length (bs ++ junk))) ++
        be_bytes 1 (frame_type_to_u8 (message_type m)) ++ bs ++ junk).

(** A body decoded without an overrun was one of the grammar. *)
Definition body_of (out : parsed_frame) (type : frame_type) (bs : list byte) (f : parsed_frame) : Prop :=
  ∃ m, message_type m = type ∧ message_ok m ∧ unclipped m ∧ body_form m bs ∧ f = received out m.

Lemma accounts_hello out : accounts (decode_hello out) (λ bs h, ∀ ack,
  message_ok (MsgHello ack h) ∧ unclipped (MsgHello ack h) ∧ body_form (MsgHello ack h) bs ∧
  wire_hello out h = h).
Proof.
  unfold decode_hello.
  accounts_step. intros ? nid ->. accounts_step. intros ? pv [Hpv ->].
  accounts_step. intros ? port [Hport ->]. accounts_step. intros ? grp [Hgrp ->].
  accounts_step. intros ? nonce [Hnonce ->]. accounts_step. intros ? s [Hs ->].
  accounts_step. intros ? eph [-> Heph]. accounts_step. intros ? i [Hi ->].
  accounts_step. intros ? pk [-> Hpk]. accounts_step. intros ? name (Hname & -> & Hname').
  apply accounts_ret. intros ack. cbn [message_ok unclipped body_form h_nodeId h_protocolVersion
    h_tcpListenPort h_groupName h_nonce h_secure h_ephPubKey h_hasIdentity h_idPubKey h_nodeName].
  split_and!; [done..| |].
  - exists s, i. rewrite app_nil_r. done.
  - unfold wire_hello. simpl. rewrite clip_short by done. f_equal.
    + destruct (s =? 0); [symmetry; by apply Heph|done].
    + destruct (i =? 0); [symmetry; by apply Hpk|done].
    + destruct (i =? 0); [symmetry; by apply Hname'|by apply clip_short, Hname].
Qed.

(** The other bodies determine their message outright. *)
Definition body_is {A} (M : A → message) (bs : list byte) (x : A) : Prop :=
  message_ok (M x) ∧ unclipped (M x) ∧ bs = body (M x).

Lemma accounts_data out : accounts (decode_data out) (body_is MsgData).
Proof.
  unfold decode_data.
  accounts_step. intros ? src ->. accounts_step. intros ? dst ->. accounts_step. intros ? mid ->.
  accounts_step. intros ? ttl [Httl ->]. accounts_step. intros ? plen [Hplen ->].
  accounts_step. intros ? p [-> Hp]. apply accounts_ret. split_and!; [done..|].
  cbn [body d_src d_dst d_msgId d_ttl d_payload]. pose proof Hplen as [? ?].
  by rewrite Hp, Z2Nat.id, wrap_small, app_nil_r by done.
Qed.

Lemma accounts_membership out : accounts (decode_membership out) (body_is MsgMembership).
Proof.
  unfold decode_membership.
  accounts_step. intros ? origin ->. accounts_step. intros ? v [Hv ->].
  accounts_step. intros ? count [[Hc0 Hc] ->]. accounts_step. intros ? ? (l & -> & Hl & ->).
  change (2 ^ (8 * Z.of_nat 2)) with 65536 in Hc.
  assert (length l ≤ max_neighbors)%nat as Hmax by (unfold max_neighbors; lia).
  apply accounts_ret. split_and!; [done..|].
  cbn [body m_origin m_version m_neighbors].
  by rewrite (take_ge l), app_nil_r, Hl, Z2Nat.id by done.
Qed.

Lemma accounts_identity out : accounts (decode_identity out) (body_is MsgIdentity).
Proof.
  unfold decode_identity.
  accounts_step. intros ? pk ->. accounts_step. intros ? v [Hv ->].
  accounts_step. intros ? sig ->. accounts_step. intros ? name [Hname ->].
  apply accounts_ret. split_and!; [done..|].
  cbn [body ir_idPubKey ir_version ir_signature ir_name]. by rewrite app_nil_r.
Qed.

Lemma accounts_auth tag0 sig0 : accounts (decode_auth tag0 sig0) (λ bs x,
  body_form (MsgAuthConfirm x.1.1 x.1.2 x.2) bs ∧ (x.1.2 = false → x.2 = sig0)).
Proof.
  unfold decode_auth.
  accounts_step. intros ? tag ->. accounts_step. intros ? s [Hs ->].
  accounts_step. intros ? sig [-> Hsig]. apply accounts_ret. split; [|done].
  exists s. by rewrite app_nil_r.
Qed.

Lemma accounts_body type out d : decode_body type (set_type out type) = Some d →
  accounts d (body_of out type).
Proof.
  assert (∀ {A} (m : reader.M A) (M : A → message) (set : A → parsed_frame),
    accounts m (body_is M) →
    (∀ x, message_type (M x) = type ∧ (∀ bs, bs = body (M x) → body_form (M x) bs) ∧
       (unclipped (M x) → set x = received out (M x))) →
    accounts (x ← m; mret (set x)) (body_of out type)) as Hbody.
  { intros A m M set Hm HM. eapply accounts_bind; [exact Hm|eauto with sticky|].
    intros bs x (Hok & Hun & Hbs). apply accounts_ret. rewrite app_nil_r.
    destruct (HM x) as (Ht & Hf & Hs). exists (M x).
    specialize (Hf bs Hbs). specialize (Hs Hun). by split_and!. }
  destruct type; cbn [decode_body]; try done; intros [= <-].
  1, 2: eapply accounts_bind; [apply accounts_hello|eauto with sticky|]; intros bs h Hh;
    apply accounts_ret; rewrite app_nil_r.
  - exists (MsgHello false h). destruct (Hh false) as (? & ? & ? & Hw). split_and!; try done.
    cbn [received pf_hello set_type]. by rewrite Hw.
  - exists (MsgHello true h). destruct (Hh true) as (? & ? & ? & Hw). split_and!; try done.
    cbn [received pf_hello set_type]. by rewrite Hw.
  - apply accounts_ret. by exists MsgHeartbeat.
  - eapply Hbody; [apply accounts_data|]. done.
  - apply accounts_ret. by exists MsgGoodbye.
  - eapply Hbody; [apply accounts_membership|]. intros [o v l]. split_and!; [done..|].
    intros Hl. cbn [received m_neighbors]. by rewrite (take_ge l).
  - eapply accounts_bind; [apply accounts_auth|eauto with sticky|].
    intros bs [[tag hasSig] sig] [Hbs Hsig]. apply accounts_ret. rewrite app_nil_r.
    exists (MsgAuthConfirm tag hasSig sig). split_and!; [done..|].
    cbn [received fst snd] in *. destruct hasSig; [done|]. by rewrite Hsig.
  - eapply Hbody; [apply accounts_identity|]. intros [pk v n s]. split_and!; [done..|].
    intros Hn. cbn [received ir_name]. by rewrite clip_short.
Qed.

(** ** Frames *)

Lemma frame_type_to_of v : frame_type_to_u8 (frame_type_of_u8 v) = v.
Proof. destruct v as [|p|p]; [done| |done]. by do 4 (destruct p as [p|p|]; try done). Qed.

(** The bytes after the length: a type byte, a body of the grammar, junk. *)
Lemma region_of region ty r d out :
  reader.u8 (reader.mk region false) = (ty, r) →
  decode_body (frame_type_of_u8 ty) (set_type out (frame_type_of_u8 ty)) = Some d →
  reader.bad (d r).2 = false →
  ∃ m bs junk, message_ok m ∧ unclipped m ∧ body_form m bs ∧
    region = be_bytes 1 (frame_type_to_u8 (message_type m)) ++ bs ++ junk ∧
    (d r).1 = received out m.
Proof.
  intros Hu8 Hd Hbad. pose proof (accounts_u8 (reader.mk region false) eq_refl) as Hu.
  rewrite Hu8 in Hu. cbn [fst snd reader.rest] in Hu.
  destruct (reader.bad r) eqn:Hr.
  { assert (sticky d) as Hs; [|pose proof (Hs r Hr); congruence].
    clear -Hd. destruct (frame_type_of_u8 ty); cbn [decode_body] in Hd; try done;
      injection Hd as <-; eauto with sticky;
      (apply sticky_bind; [|eauto with sticky]);
      unfold decode_hello, decode_data, decode_membership, decode_auth, decode_identity;
      eauto 40 with sticky. }
  destruct (Hu eq_refl) as (b & Hb & _ & ->).
  destruct (accounts_body _ _ _ Hd r Hr Hbad) as (bs & Hbs & m & Ht & Hok & Hun & Hform & Hf).
  exists m, bs, (reader.rest (d r).2). split_and!; try done.
  by rewrite Hb, Hbs, Ht, frame_type_to_of.
Qed.

Lemma decode_frame_inv input max out c f n :
  try_decode_frame input max out c = (Ok, f, n) →
  ∃ m frame tail, frame_of m frame ∧ input = frame ++ tail ∧
    Z.of_nat (length frame) ≤ 4 + max ∧ f = received out m ∧ n = wrap 32 (Z.of_nat (length frame)).
Proof.
  unfold try_decode_frame.
  destruct (Z.ltb_spec (Z.of_nat (length input)) 4) as [|H4]; [done|].
  pose proof (peek_u32_range input ltac:(lia)) as Hlen.
  pose proof (peek_u32_be_value input ltac:(lia)) as Hpeek. set (len := peek_u32 input) in *.
  destruct (Z.ltb_spec len 1) as [|H1]; [done|]. destruct (Z.ltb_spec max len) as [|Hm]; [done|].
  destruct (Z.ltb_spec (Z.of_nat (length input)) (4 + len)) as [|Hs]; [done|].
  destruct (reader.u8 _) as [ty r] eqn:Hu. destruct (decode_body _ _) as [d|] eqn:Hd; [|done].
  pose proof (region_of _ _ _ _ _ Hu Hd) as Hreg. destruct (d r) as [o r'].
  cbn [fst snd] in Hreg. destruct (reader.bad r'); [done|]. intros [= -> <-].
  destruct (Hreg eq_refl) as (m & bs & junk & Hok & Hun & Hform & Hregion & Ho).
  pose proof (f_equal length Hregion) as Hl. rewrite length_take, length_drop in Hl.
  rewrite length_app, length_be_bytes in Hl.
  assert (len = 1 + Z.of_nat (length (bs ++ junk))) as El by lia. rewrite El in Hlen.
  exists m, (be_bytes 4 len ++ take (Z.to_nat len) (drop 4 input)),
    (drop (Z.to_nat len) (drop 4 input)).
  assert (length (be_bytes 4 len ++ take (Z.to_nat len) (drop 4 input)) = (4 + Z.to_nat len)%nat)
    as Hfl by (rewrite length_app, length_be_bytes, length_take, length_drop; lia).
  rewrite Hfl. split_and!; [| |lia|done|f_equal; lia].
  - rewrite Hregion, El. by constructor.
  - rewrite <-(assoc_L (++)), take_drop, Hpeek. rewrite <-(take_drop 4 input) at 1. f_equal.
    rewrite <-(be_bytes_be_value (take 4 input)) at 1. f_equal. rewrite length_take. lia.
Qed.

Lemma frame_of_accepted m frame tail max out c :
  frame_of m frame → Z.of_nat (length frame) ≤ 4 + max →
  try_decode_frame (frame ++ tail) max out c =
  (Ok, received out m, wrap 32 (Z.of_nat (length frame))).
Proof.
  intros [bs junk Hok Hun Hform Hlen] Hmax. rewrite !length_app, !length_be_bytes in Hmax.
  rewrite decode_lenient by (try done; rewrite length_app; lia).
  do 2 f_equal. rewrite !length_app, !length_be_bytes. lia.
Qed.

Lemma needs_more_iff input max out c :
  (try_decode_frame input max out c).1.1 = NeedMore ↔
  Z.of_nat (length input) < 4 ∨
  (1 ≤ peek_u32 input ≤ max ∧ Z.of_nat (length input) < 4 + peek_u32 input).
Proof.
  split; [|by intros H; rewrite try_decode_frame_short]. unfold try_decode_frame.
  destruct (Z.ltb_spec (Z.of_nat (length input)) 4); [by left|].
  destruct (Z.ltb_spec (peek_u32 input) 1); [done|].
  destruct (Z.ltb_spec max (peek_u32 input)); [done|].
  destruct (Z.ltb_spec (Z.of_nat (length input)) (4 + peek_u32 input)); [by right|].
  destruct (reader.u8 _) as [ty r]. destruct (decode_body _ _) as [d|]; [|done].
  destruct (d r) as [o r']. by destruct (reader.bad r').
Qed.

(** ** The announce *)

Lemma decode_announce_iff input a :
  decode_announce input = Some a ↔
  ∃ tail, input = encode_announce a ++ tail ∧ announce_ok a ∧ (length (a_groupName a) ≤ 255)%nat.
Proof.
  split.
  - unfold decode_announce. pose proof (accounts_u32 (reader.mk input false) eq_refl) as Hmagic.
    destruct (reader.u32 _) as [magic r]. destruct (Z.eqb_spec magic kAnnounceMagic) as [->|]; [|done].
    cbn [negb fst snd reader.rest] in *.
    match goal with |- context [let '(_, _) := ?m r in _] => set (rd := m) end.
    assert (sticky rd) as Hs by (subst rd; eauto 30 with sticky).
    assert (accounts rd (λ bs x, bs = announce_body x ∧ announce_ok x ∧
      (length (a_groupName x) ≤ 255)%nat)) as Ha.
    { subst rd. unfold announce_body, announce_ok.
      accounts_step. intros ? pv [Hpv ->]. accounts_step. intros ? fl [Hfl ->].
      accounts_step. intros ? port [Hport ->]. accounts_step. intros ? nid ->.
      accounts_step. intros ? grp [Hgrp ->]. apply accounts_ret.
      cbn [a_protocolVersion a_flags a_tcpListenPort a_nodeId a_groupName]. rewrite app_nil_r.
      exact (conj eq_refl (conj (conj Hpv (conj Hfl Hport)) Hgrp)). }
    specialize (Ha r). specialize (Hs r). destruct (rd r) as [x r'].
    cbn [fst snd] in *.
    destruct (reader.bad r') eqn:Hb'; [done|]. intros [= <-].
    destruct (reader.bad r) eqn:Hb; [specialize (Hs eq_refl); congruence|].
    destruct (Hmagic eq_refl) as (bs & -> & _ & ->).
    destruct (Ha eq_refl eq_refl) as (bs & -> & -> & Hok & Hl). exists (reader.rest r'). by rewrite encode_announce_shape, <-(assoc_L (++)).
  - intros (tail & -> & Hok & Hl). rewrite decode_encode_announce, clip_short by done.
    by destruct a.
Qed.

(** [C24] The decoder accepts exactly the frames of the grammar.  Whatever
    bytes arrive, it reports a frame just when they begin with the length, the
    type byte and the fields of some message in the order and widths of the
    wire format, complete, within the limit and within the length stated, and
    what it then reports is that message and that length; it asks for more
    just when the length prefix or, for an admissible length, the frame is
    incomplete; and everything else is an error.  The grammar is that of the
    encoders, but any non-zero byte is a set flag and bytes the length covers
    after the last field are ignored.  An announce is accepted just when the
    datagram begins with its encoding. *)
Theorem decoder_exact :
  (∀ input max out c f n, try_decode_frame input max out c = (Ok, f, n) ↔
     ∃ m frame tail, frame_of m frame ∧ input = frame ++ tail ∧
       Z.of_nat (length frame) ≤ 4 + max ∧ f = received out m ∧
       n = wrap 32 (Z.of_nat (length frame))) ∧
  (∀ input max out c, (try_decode_frame input max out c).1.1 = NeedMore ↔
     Z.of_nat (length input) < 4 ∨
     (1 ≤ peek_u32 input ≤ max ∧ Z.of_nat (length input) < 4 + peek_u32 input)) ∧
  (∀ input a, decode_announce input = Some a ↔
     ∃ tail, input = encode_announce a ++ tail ∧ announce_ok a ∧
       (length (a_groupName a) ≤ 255)%nat).
Proof.
  split_and!; [|apply needs_more_iff|apply decode_announce_iff].
  intros input max out c f n. split; [apply decode_frame_inv|].
  intros (m & frame & tail & Hm & -> & Hmax & -> & ->). by apply frame_of_accepted.
Qed.

(** The grammar is wider than the encoders: a goodbye with a byte too many. *)
Lemma junk_is_accepted : ∃ frame, frame_of MsgGoodbye frame ∧ frame ≠ encode MsgGoodbye ∧
  try_decode_frame frame 1024 parsed_frame_zero 0 = (Ok, received parsed_frame_zero MsgGoodbye, 6).
Proof.
  eexists. split; [by apply (Frame_of MsgGoodbye [] [Byte.x00])|].
  split; [vm_compute; congruence|by vm_compute].
Qed.
