(* ===== verification/Config.v ===== *)
(** * Configuration and errors

    [mesh_config] and its parts (src/include/multimaster/config.hpp) and the error
    value reported to the application (src/include/multimaster/events.hpp). *)
From Stdlib Require Import ZArith Lia.
From Stdlib.Strings Require Import Byte.
From stdpp Require Import base gmap sets list strings numbers option.
From S2P Require Import Prelude PeerId.

(** A peer endpoint: host name or dotted quad, and TCP port. *)
Record seed_peer := mk_seed_peer { host : list byte; port : Z }.

(** An allowlist entry: a public key in hexadecimal and an optional label. *)
Record trusted_node := mk_trusted_node { publicKeyHex : list byte; label : list byte }.

Inductive overflow := Disconnect | DropOldest | DropNewest.

#[global] Instance overflow_eq_dec : EqDecision overflow.
Proof. solve_decision. Defined.

Record mesh_config := mk_mesh_config {
  nodeId : peer_id;
  groupName : list byte;
  protocolVersion : Z;
  psk : list byte;
  identityFile : list byte;
  identitySeedHex : list byte;
  nodeName : list byte;
  trustedKeys : list trusted_node;
  requireIdentity : bool;
  multicastAddr : list byte;
  multicastPort : Z;
  multicastIface : list byte;
  announceInterval : Z;
  peerLostTimeout : Z;
  multicastTtl : Z;
  listenPort : Z;
  bindAddr : list byte;
  heartbeatInterval : Z;
  heartbeatTimeout : Z;
  handshakeTimeout : Z;
  reconnectBase : Z;
  reconnectMax : Z;
  initialTtl : Z;
  dedupTtl : Z;
  maxDedupEntries : Z;
  fanout : Z;
  membershipInterval : Z;
  membershipTimeout : Z;
  maxOutboundQueueBytes : Z;
  overflowPolicy : overflow;
  maxMessageBytes : Z;
  seedPeers : list seed_peer;
  staticPeers : list seed_peer;
}.

(** The defaults of the header, for a node whose identifier is [nid]. *)
Definition default_config (nid : peer_id) : mesh_config := {|
  nodeId := nid;
  groupName := bytes_of_string "default";
  protocolVersion := 1;
  psk := [];
  identityFile := [];
  identitySeedHex := [];
  nodeName := [];
  trustedKeys := [];
  requireIdentity := true;
  multicastAddr := bytes_of_string "239.255.42.99";
  multicastPort := 45454;
  multicastIface := [];
  announceInterval := 1000;
  peerLostTimeout := 5000;
  multicastTtl := 1;
  listenPort := 0;
  bindAddr := bytes_of_string "0.0.0.0";
  heartbeatInterval := 1000;
  heartbeatTimeout := 3000;
  handshakeTimeout := 2000;
  reconnectBase := 500;
  reconnectMax := 30000;
  initialTtl := 8;
  dedupTtl := 30000;
  maxDedupEntries := 100000;
  fanout := 0;
  membershipInterval := 2000;
  membershipTimeout := 8000;
  maxOutboundQueueBytes := Z.shiftl 8 20;
  overflowPolicy := Disconnect;
  maxMessageBytes := Z.shiftl 16 20;
  seedPeers := [];
  staticPeers := [];
|}.

Inductive error_category :=
  | ErrSocket | ErrProtocol | ErrDiscovery | ErrBackpressure | ErrCrypto | ErrIdentity
  | ErrInternal.

#[global] Instance error_category_eq_dec : EqDecision error_category.
Proof. solve_decision. Defined.

Record error := mk_error {
  category : error_category;
  sysErrno : Z;
  what : list byte;
  err_peer : option peer_id;
}.

#[global] Instance error_eq_dec : EqDecision error.
Proof. solve_decision. Defined.
