(* ===== verification/Socket.v ===== *)
(** * Sockets, the epoll set and the listener

    [mm::socket] (src/src/socket.hpp, src/src/socket.cpp), a move-only owner of
    a file descriptor; the registration calls of src/src/event_loop.cpp; and
    [listener] (src/src/listener.hpp, src/src/listener.cpp).  The kernel is a
    set of open descriptors and the results of its calls are arguments.  The
    main theorem is that descriptors are closed exactly once. *)
From Stdlib Require Import ZArith Lia.
From Stdlib.Strings Require Import Byte.
From stdpp Require Import base gmap sets list strings numbers option.
From S2P Require Import Prelude PeerId Wire Config.

Module socket.

(** Socket objects by name, with their [fd_]. *)
Record t := mk {
  fds : gmap nat Z;
  opened : gset Z;
  released : gset Z;
  closed : list Z;
  bad_close : bool;
}.

Definition init : t := mk ∅ ∅ ∅ [] false.

Definition set_fd (n : nat) (fd : Z) (w : t) : t :=
  mk (<[n := fd]> (fds w)) (opened w) (released w) (closed w) (bad_close w).

(** [::close(fd)]; closing a descriptor that is not open is an error. *)
Definition sys_close (fd : Z) (w : t) : t :=
  if bool_decide (fd ∈ opened w)
  then mk (fds w) (opened w ∖ {[fd]}) (released w) (closed w ++ [fd]) (bad_close w)
  else mk (fds w) (opened w) (released w) (closed w) true.

(** [::socket] or [::accept4], when the kernel picks [fd]: a negative number is
    a failure, and the kernel does not hand out a descriptor that is open. *)
Definition sys_open (fd : Z) (w : t) : Z * t :=
  if bool_decide (0 ≤ fd ∧ fd ∉ opened w)
  then (fd, mk (fds w) ({[fd]} ∪ opened w) (released w) (closed w) (bad_close w))
  else (-1, w).

Definition get (n : nat) (w : t) : Z := default (-1) (fds w !! n).

Definition valid (n : nat) (w : t) : bool := 0 <=? get n w.

Definition reset (n : nat) (w : t) : t :=
  match fds w !! n with
  | Some fd => if 0 <=? fd then set_fd n (-1) (sys_close fd w) else w
  | None => w
  end.

(** [std::exchange(o.fd_, -1)]. *)
Definition take_fd (m : nat) (w : t) : Z * t :=
  match fds w !! m with
  | Some fd => (fd, set_fd m (-1) w)
  | None => (-1, w)
  end.

Definition release (n : nat) (w : t) : Z * t :=
  let '(fd, w) := take_fd n w in
  (fd, if 0 <=? fd
       then mk (fds w) (opened w) ({[fd]} ∪ released w) (closed w) (bad_close w) else w).

(** [socket(socket&& o)] for a new object [n]. *)
Definition move_construct (n m : nat) (w : t) : t :=
  let '(fd, w) := take_fd m w in set_fd n fd w.

Definition move_assign (n m : nat) (w : t) : t :=
  if (n =? m)%nat then w
  else
    let w := reset n w in
    let '(fd, w) := take_fd m w in
    set_fd n fd w.

(** [~socket()]. *)
Definition destroy (n : nat) (w : t) : t :=
  let w := reset n w in
  mk (delete n (fds w)) (opened w) (released w) (closed w) (bad_close w).

(** [socket::tcp()], [socket::udp()] and [accept], returning into the new
    object [n]. *)
Definition factory (n : nat) (fd : Z) (w : t) : t :=
  let '(fd, w) := sys_open fd w in set_fd n fd w.

(** [explicit socket(int fd)] for a descriptor the caller holds itself: one that
    was released to it, or a negative number.  (What the caller gets from the
    kernel and wraps at once, as event_loop.cpp does, is [factory].) *)
Definition adopt (n : nat) (fd : Z) (w : t) : t :=
  set_fd n fd (mk (fds w) (opened w) (released w ∖ {[fd]}) (closed w) (bad_close w)).

(** What a program does with sockets; an operation on an object that does not
    exist, or the construction of one that does, cannot be written, and a
    descriptor that something else owns is not adopted. *)
Inductive op :=
  | Default (n : nat)
  | Factory (n : nat) (fd : Z)
  | Adopt (n : nat) (fd : Z)
  | MoveConstruct (n m : nat)
  | MoveAssign (n m : nat)
  | Release (n : nat)
  | Reset (n : nat)
  | Destroy (n : nat).

Definition lives (n : nat) (w : t) : bool := bool_decide (is_Some (fds w !! n)).

Definition step (o : op) (w : t) : t :=
  match o with
  | Default n => if lives n w then w else set_fd n (-1) w
  | Factory n fd => if lives n w then w else factory n fd w
  | Adopt n fd =>
      if lives n w || negb (bool_decide (fd < 0 ∨ fd ∈ released w)) then w else adopt n fd w
  | MoveConstruct n m => if lives n w || negb (lives m w) then w else move_construct n m w
  | MoveAssign n m => if lives n w && lives m w then move_assign n m w else w
  | Release n => if lives n w then (release n w).2 else w
  | Reset n => if lives n w then reset n w else w
  | Destroy n => if lives n w then destroy n w else w
  end.

Definition run (ops : list op) (w : t) : t := fold_left (λ w o, step o w) ops w.

(** ** Ownership *)

(** Open descriptors have exactly one owner: one object, or the code they were
    released to. *)
Record owned (w : t) : Prop := {
  own_unique : ∀ n m fd, fds w !! n = Some fd → fds w !! m = Some fd → 0 ≤ fd → n = m;
  own_open : ∀ n fd, fds w !! n = Some fd → 0 ≤ fd → fd ∈ opened w ∧ fd ∉ released w;
  own_all : ∀ fd, fd ∈ opened w → fd ∈ released w ∨ ∃ n, fds w !! n = Some fd;
  own_pos : ∀ fd, fd ∈ opened w → 0 ≤ fd;
  own_rel : released w ⊆ opened w;
  own_close : bad_close w = false;
}.

(** The state in which [n] has just been given a descriptor that nothing else
    holds. *)
Lemma set_fd_owned n fd w :
  owned w → (∀ fd', fds w !! n = Some fd' → fd' < 0) →
  fd < 0 → owned (set_fd n fd w).
Proof.
  intros [H1 H2 H3 H4 H5 H6] Hn Hfd. split; simpl; try done.
  - intros a b fd' Ha Hb Hp. apply lookup_insert_Some in Ha as [[<- <-]|[Hna Ha]]; [lia|].
    apply lookup_insert_Some in Hb as [[<- <-]|[Hnb Hb]]; [lia|eauto].
  - intros a fd' Ha Hp. apply lookup_insert_Some in Ha as [[<- <-]|[_ Ha]]; [lia|eauto].
  - intros fd' Hfd'. destruct (H3 fd' Hfd') as [?|[m Hm]]; [by left|right]. exists m.
    rewrite lookup_insert_ne; [done|]. intros ->. specialize (Hn _ Hm). specialize (H4 _ Hfd'). lia.
Qed.

Lemma reset_owned n w : owned w → owned (reset n w) ∧ (∀ fd, fds (reset n w) !! n = Some fd → fd < 0).
Proof.
  intros Hw. unfold reset. destruct (fds w !! n) as [fd|] eqn:E.
  2: { split; [done|]. intros fd. by rewrite E. }
  destruct (Z.leb_spec 0 fd) as [Hp|Hp].
  2: { split; [done|]. intros fd'. rewrite E. intros [= <-]. lia. }
  destruct Hw as [H1 H2 H3 H4 H5 H6]. destruct (H2 n fd E Hp) as [Ho Hr].
  unfold sys_close. rewrite bool_decide_true by done. split.
  - split; simpl; try done.
    + intros a b fd' Ha Hb Hp'. apply lookup_insert_Some in Ha as [[<- <-]|[Hna Ha]]; [lia|].
      apply lookup_insert_Some in Hb as [[<- <-]|[Hnb Hb]]; [lia|eauto].
    + intros a fd' Ha Hp'. apply lookup_insert_Some in Ha as [[<- <-]|[Hna Ha]]; [lia|].
      destruct (H2 a fd' Ha Hp'). split; [|done]. apply elem_of_difference. split; [done|].
      intros ->%elem_of_singleton. by destruct Hna; eapply H1.
    + intros fd' [Hf Hne]%elem_of_difference. destruct (H3 fd' Hf) as [?|[m Hm]]; [by left|right].
      exists m. rewrite lookup_insert_ne; [done|]. intros ->. rewrite E in Hm. set_solver.
    + intros fd' [Hf _]%elem_of_difference. eauto.
    + set_solver.
  - intros fd'. simpl. rewrite lookup_insert_eq. intros [= <-]. lia.
Qed.

(** Moving a descriptor from [m] into [n], which holds none. *)
Lemma move_owned n m w : owned w → n ≠ m → (∀ fd, fds w !! n = Some fd → fd < 0) →
  owned (let '(fd, w) := take_fd m w in set_fd n fd w).
Proof.
  intros [H1 H2 H3 H4 H5 H6] Hne Hn. unfold take_fd. destruct (fds w !! m) as [fd|] eqn:E.
  2: by apply set_fd_owned.
  assert (∀ a fd', <[n := fd]> (<[m := -1]> (fds w)) !! a = Some fd' → 0 ≤ fd' →
    (a = n ∧ fd' = fd) ∨ (a ≠ m ∧ fds w !! a = Some fd')) as Hcase.
  { intros a fd' Ha Hp. apply lookup_insert_Some in Ha as [[??]|[? Ha]]; [left; by subst|right].
    apply lookup_insert_Some in Ha as [[??]|[? Ha]]; [lia|done]. }
  split; simpl; try done.
  - intros a b fd' Ha Hb Hp.
    destruct (Hcase a fd' Ha Hp) as [[-> ->]|[Hma Ha']], (Hcase b _ Hb Hp) as [[-> Hx]|[Hmb Hb']];
      [done|by destruct Hmb; eapply H1|subst; by destruct Hma; eapply H1|eauto].
  - intros a fd' Ha Hp. destruct (Hcase a fd' Ha Hp) as [[-> ->]|[_ Ha']]; eauto.
  - intros fd' Hf. destruct (H3 fd' Hf) as [?|[a Ha]]; [by left|right].
    destruct (decide (a = m)) as [->|Hm].
    + exists n. rewrite lookup_insert_eq. congruence.
    + exists a. rewrite !lookup_insert_ne; [done|done|]. intros ->.
      specialize (Hn _ Ha). specialize (H4 _ Hf). lia.
Qed.

Lemma factory_owned n fd w : owned w → fds w !! n = None → owned (factory n fd w).
Proof.
  intros Hw Hn. unfold factory, sys_open. case_bool_decide as Hfd.
  2: { apply set_fd_owned; [done| |lia]. intros fd' H. congruence. }
  destruct Hfd as [Hp Hfresh], Hw as [H1 H2 H3 H4 H5 H6]. split; simpl; try done.
  - intros a b fd' Ha Hb Hp'. apply lookup_insert_Some in Ha as [[? Ea]|[Hna Ha]];
    apply lookup_insert_Some in Hb as [[? Eb]|[Hnb Hb]]; subst; [done| | |eauto].
    + by destruct (H2 b _ Hb Hp).
    + by destruct (H2 a _ Ha Hp).
  - intros a fd' Ha Hp'. apply lookup_insert_Some in Ha as [[<- <-]|[Hna Ha]]; [set_solver|].
    destruct (H2 a fd' Ha Hp'). set_solver.
  - intros fd' [->%elem_of_singleton|Hf]%elem_of_union.
    + right. exists n. by rewrite lookup_insert_eq.
    + destruct (H3 fd' Hf) as [?|[a Ha]]; [by left|right]. exists a.
      rewrite lookup_insert_ne; [done|]. congruence.
  - set_solver.
  - set_solver.
Qed.

Lemma adopt_owned n fd w : owned w → fds w !! n = None → fd < 0 ∨ fd ∈ released w →
  owned (adopt n fd w).
Proof.
  intros Hw Hn Hfd. pose proof Hw as [H1 H2 H3 H4 H5 H6]. unfold adopt.
  assert (∀ m fd', fds w !! m = Some fd' → 0 ≤ fd' → fd' ≠ fd) as Hother.
  { intros m fd' Hm Hp ->. destruct (H2 m fd Hm Hp). destruct Hfd; [lia|done]. }
  split; simpl; try done.
  - intros a b fd' Ha Hb Hp. apply lookup_insert_Some in Ha as [[? Ea]|[_ Ha]];
    apply lookup_insert_Some in Hb as [[? Eb]|[_ Hb]]; subst; [done| | |eauto].
    + by destruct (Hother b _ Hb Hp).
    + by destruct (Hother a _ Ha Hp).
  - intros a fd' Ha Hp. apply lookup_insert_Some in Ha as [[<- <-]|[_ Ha]].
    + destruct Hfd as [?|Hr]; [lia|]. set_solver.
    + destruct (H2 a fd' Ha Hp). set_solver.
  - intros fd' Hf. destruct (decide (fd' = fd)) as [->|Hne].
    { right. exists n. by rewrite lookup_insert_eq. }
    destruct (H3 fd' Hf) as [?|[a Ha]]; [set_solver|right]. exists a.
    rewrite lookup_insert_ne; [done|]. congruence.
  - set_solver.
Qed.

Lemma release_owned n w : owned w → is_Some (fds w !! n) → owned (release n w).2.
Proof.
  intros Hw [fd E]. unfold release, take_fd. rewrite E. simpl.
  destruct (Z.leb_spec 0 fd) as [Hp|Hp].
  2: { apply set_fd_owned; [done| |lia]. intros fd'. rewrite E. intros [= <-]. lia. }
  destruct Hw as [H1 H2 H3 H4 H5 H6]. destruct (H2 n fd E Hp). split; simpl; try done.
  - intros a b fd' Ha Hb Hp'. apply lookup_insert_Some in Ha as [[<- <-]|[Hna Ha]]; [lia|].
    apply lookup_insert_Some in Hb as [[<- <-]|[Hnb Hb]]; [lia|eauto].
  - intros a fd' Ha Hp'. apply lookup_insert_Some in Ha as [[<- <-]|[Hna Ha]]; [lia|].
    destruct (H2 a fd' Ha Hp'). split; [done|]. intros [->%elem_of_singleton|?]%elem_of_union; [|done].
    by destruct Hna; eapply H1.
  - intros fd' Hf. destruct (decide (fd' = fd)) as [->|Hne]; [set_solver|].
    destruct (H3 fd' Hf) as [?|[a Ha]]; [set_solver|right]. exists a.
    rewrite lookup_insert_ne; [done|]. congruence.
  - set_solver.
Qed.

Lemma destroy_owned n w : owned w → owned (destroy n w).
Proof.
  intros Hw. unfold destroy.
  destruct (reset_owned n w Hw) as [[H1 H2 H3 H4 H5 H6] Hn]. split; simpl; try done.
  - intros a b fd [_ Ha]%lookup_delete_Some [_ Hb]%lookup_delete_Some. eauto.
  - intros a fd [_ Ha]%lookup_delete_Some. eauto.
  - intros fd Hf. destruct (H3 fd Hf) as [?|[a Ha]]; [by left|right]. exists a.
    rewrite lookup_delete_ne; [done|]. intros ->. specialize (Hn _ Ha). specialize (H4 _ Hf). lia.
Qed.

Lemma step_owned o w : owned w → owned (step o w).
Proof.
  intros Hw. destruct o as [n|n fd|n fd|n m|n m|n|n|n]; simpl; unfold lives.
  - case_bool_decide as Hn; [done|]. apply set_fd_owned; [done| |lia].
    intros fd Hfd. destruct Hn. by eexists.
  - case_bool_decide as Hn; [done|]. apply factory_owned; [done|]. by apply eq_None_not_Some.
  - case_bool_decide as Hn; [done|]. case_bool_decide as Hfd; [|done].
    apply adopt_owned; [done|by apply eq_None_not_Some|done].
  - case_bool_decide as Hn; [done|]. case_bool_decide as Hm; [|done]. apply move_owned; [done| |].
    + intros ->. done.
    + intros fd Hfd. destruct Hn. by eexists.
  - destruct (_ && _); [|done]. unfold move_assign. destruct (Nat.eqb_spec n m); [done|].
    destruct (reset_owned n w Hw). by apply move_owned.
  - case_bool_decide; [|done]. by apply release_owned.
  - case_bool_decide; [|done]. by apply reset_owned.
  - case_bool_decide; [|done]. by apply destroy_owned.
Qed.

Lemma run_owned ops w : owned w → owned (run ops w).
Proof. revert w. induction ops as [|o ops IH]; intros w Hw; [done|]. by apply IH, step_owned. Qed.

Lemma init_owned : owned init.
Proof. split; simpl; set_solver. Qed.

(** [C25] Descriptors are closed exactly once: whatever a program does with
    [socket] objects (constructing them, also from a descriptor that was
    released, moving, assigning, releasing, resetting and destroying them in any
    order), no descriptor is closed that is not open,
    every open descriptor that was not released belongs to exactly one object,
    and when the objects are gone nothing is left open but what was released. *)
Theorem sockets_close_once ops :
  let w := run ops init in
  bad_close w = false ∧
  (∀ fd, fd ∈ opened w ∖ released w → ∃ n, fds w !! n = Some fd ∧
     ∀ m, fds w !! m = Some fd → m = n) ∧
  (fds w = ∅ → opened w = released w).
Proof.
  intros w. destruct (run_owned ops init init_owned) as [H1 H2 H3 H4 H5 H6]. fold w in H1, H2, H3, H4, H5, H6.
  split_and!; [done| |].
  - intros fd [Ho Hr]%elem_of_difference. destruct (H3 fd Ho) as [?|[n Hn]]; [done|].
    exists n. split; [done|]. intros m Hm. eapply H1; eauto.
  - intros He. apply set_eq. intros fd. split; [|apply H5]. intros Ho.
    destruct (H3 fd Ho) as [?|[n Hn]]; [done|]. by rewrite He, lookup_empty in Hn.
Qed.

End socket.

(** ** Addresses *)

(** The text up to the first NUL, as [c_str()] shows it. *)
Fixpoint until_nul (s : list byte) : list byte :=
  match s with
  | [] => []
  | b :: s => if bool_decide (b = Byte.x00) then [] else b :: until_nul s
  end.

(** [make_addr] with [inet_pton] for the address: whether it succeeds, and the
    address and port it leaves in [out]. *)
Definition make_addr (inet_pton : list byte → option Z) (ip : list byte) (port : Z)
    : bool * (Z * Z) :=
  if bool_decide (ip = [] ∨ ip = bytes_of_string "0.0.0.0") then (true, (0, port))
  else
    match inet_pton (until_nul ip) with
    | Some a => (true, (a, port))
    | None => (false, (0, port))
    end.

(** [ip_to_string]: the buffer starts out as zeros, so a failing [inet_ntop]
    gives the empty text. *)
Definition ip_to_string (inet_ntop : Z → option (list byte)) (addr : Z) : list byte :=
  default [] (until_nul <$> inet_ntop addr).

(** ** Descriptor settings *)

Module sockopt.

(** The open files of the kernel: status flags, and the options that are on. *)
Record file := mk_file { flags : Z; on : gset (Z * Z) }.

Definition O_NONBLOCK : Z := 2048.
Definition SOL_SOCKET : Z := 1.
Definition SO_REUSEADDR : Z := 2.
Definition SO_KEEPALIVE : Z := 9.
Definition SO_REUSEPORT : Z := 15.
Definition IPPROTO_TCP : Z := 6.
Definition TCP_NODELAY : Z := 1.

Section settings.

(** What the kernel grants for an open descriptor. *)
Context (grants : Z → Z * Z → bool) (accepts_flags : Z → Z → bool).

(** [::setsockopt(fd, level, name, &on, sizeof on) == 0]. *)
Definition setsockopt (fd : Z) (o : Z * Z) (k : gmap Z file) : bool * gmap Z file :=
  match k !! fd with
  | None => (false, k)
  | Some f => if grants fd o then (true, <[fd := mk_file (flags f) ({[o]} ∪ on f)]> k) else (false, k)
  end.

(** [F_GETFL], then [F_SETFL]. *)
Definition set_non_blocking (fd : Z) (k : gmap Z file) : bool * gmap Z file :=
  match k !! fd with
  | None => (false, k)
  | Some f =>
      let fl := Z.lor (flags f) O_NONBLOCK in
      if accepts_flags fd fl then (true, <[fd := mk_file fl (on f)]> k) else (false, k)
  end.

Definition set_reuse_addr (fd : Z) : gmap Z file → bool * gmap Z file := setsockopt fd (SOL_SOCKET, SO_REUSEADDR).
Definition set_reuse_port (fd : Z) : gmap Z file → bool * gmap Z file := setsockopt fd (SOL_SOCKET, SO_REUSEPORT).
Definition set_tcp_no_delay (fd : Z) : gmap Z file → bool * gmap Z file := setsockopt fd (IPPROTO_TCP, TCP_NODELAY).
Definition set_keep_alive (fd : Z) : gmap Z file → bool * gmap Z file := setsockopt fd (SOL_SOCKET, SO_KEEPALIVE).

(** A setting that reports success is in force, one that does not has changed
    nothing; and no other setting or descriptor is touched. *)
Lemma setsockopt_effect fd o (k : gmap Z file) :
  let '(ok, k') := setsockopt fd o k in
  (ok = true → ∃ f, k !! fd = Some f ∧ k' !! fd = Some (mk_file (flags f) ({[o]} ∪ on f))) ∧
  (ok = false → k' = k) ∧ (∀ fd', fd' ≠ fd → k' !! fd' = k !! fd').
Proof.
  unfold setsockopt. destruct (k !! fd) as [f|] eqn:E; [|done]. destruct (grants fd o); [|done].
  split_and!; [|done|intros; by rewrite lookup_insert_ne]. intros _. exists f. by rewrite lookup_insert_eq.
Qed.

Lemma set_non_blocking_effect fd (k : gmap Z file) : fst (set_non_blocking fd k) = true →
  ∃ f f', k !! fd = Some f ∧ (set_non_blocking fd k).2 !! fd = Some f' ∧ on f' = on f ∧
    Z.testbit (flags f') 11 = true ∧ ∀ i, 0 ≤ i → i ≠ 11 → Z.testbit (flags f') i = Z.testbit (flags f) i.
Proof.
  unfold set_non_blocking. destruct (k !! fd) as [f|] eqn:E; [|done].
  destruct (accepts_flags _ _); [|done]. intros _. exists f, (mk_file (Z.lor (flags f) O_NONBLOCK) (on f)).
  cbn [fst snd flags on]. rewrite lookup_insert_eq. change O_NONBLOCK with (2 ^ 11). split_and!; try done.
  - by rewrite Z.lor_spec, Z.pow2_bits_true, orb_true_r by lia.
  - intros i Hi Hne. rewrite Z.lor_spec, Z.pow2_bits_false by lia. by rewrite orb_false_r.
Qed.

End settings.

End sockopt.

(** ** The epoll set *)

Module epoll.

(** The interest list: mask and handler of every registered descriptor. *)
Section registry.
Context {H : Type}.

Definition t : Type := gmap Z (Z * option H).

(** [event_loop::add], [mod] and [del]: [epoll_ctl] refuses to add a registered
    descriptor, and to change or remove one that is not. *)
Definition add (fd events : Z) (h : option H) (r : t) : bool * t :=
  match r !! fd with Some _ => (false, r) | None => (true, <[fd := (events, h)]> r) end.

Definition mod_ (fd events : Z) (h : option H) (r : t) : bool * t :=
  match r !! fd with Some _ => (true, <[fd := (events, h)]> r) | None => (false, r) end.

Definition del (fd : Z) (r : t) : bool * t :=
  match r !! fd with Some _ => (true, delete fd r) | None => (false, r) end.

End registry.
End epoll.

(** ** The listener *)

Module listener.

Definition EAGAIN : Z := 11.
Definition EINTR : Z := 4.
Definition EINVAL : Z := 22.
Definition EPOLLIN : Z := 0x001.

(** The results of the calls [start] makes: a descriptor or an [errno]; 0 or an
    [errno]; the bound port if [getsockname] succeeds. *)
Record calls := mk_calls {
  r_socket : Z + Z;
  r_bind : Z;
  r_listen : Z;
  r_getsockname : option Z;
  r_add : Z;
}.

Record t := mk { sock_ : Z; boundPort_ : Z }.

(** [start]: the exception's code and text, or the running listener. *)
Definition start (inet_pton : list byte → option Z) (bindAddr : list byte) (port : Z) (k : calls)
    : (Z * list byte) + t :=
  match r_socket k with
  | inl e => inl (e, bytes_of_string "listener socket()")
  | inr fd =>
      let '(ok, addr) := make_addr inet_pton bindAddr port in
      if negb ok then inl (EINVAL, bytes_of_string "bad bind address")
      else if negb (r_bind k =? 0) then inl (r_bind k, bytes_of_string "listener bind()")
      else if negb (r_listen k =? 0) then inl (r_listen k, bytes_of_string "listen()")
      else
        let bound := default 0 (r_getsockname k) in
        if negb (r_add k =? 0) then inl (r_add k, bytes_of_string "listener epoll add")
        else inr (mk fd bound)
  end.

(** One result of [accept4]. *)
Inductive accept_result := Accepted (fd : Z) (addr : Z * Z) | AcceptErr (e : Z).

(** The accept loop on the coming results of [accept4] (the queue is empty
    after them): the sockets handed to [onAccept_], and the results not asked
    for. *)
Fixpoint accept_loop (script : list accept_result)
    : list (Z * (Z * Z)) * list accept_result :=
  match script with
  | [] => ([], [])
  | Accepted fd addr :: script =>
      let '(conns, rest) := accept_loop script in ((fd, addr) :: conns, rest)
  | AcceptErr e :: script =>
      if e =? EAGAIN then ([], script)
      else if e =? EINTR then accept_loop script
      else ([], script)
  end.

Definition on_io_events (events : Z) (script : list accept_result)
    : list (Z * (Z * Z)) * list accept_result :=
  if Z.land events EPOLLIN =? 0 then ([], script) else accept_loop script.

Definition accepted (r : accept_result) : option (Z * (Z * Z)) :=
  match r with Accepted fd addr => Some (fd, addr) | AcceptErr _ => None end.

(** Interruptions do not lose connections: up to the first other error, every
    accepted socket is handed over, in order. *)
Lemma accept_loop_all script rest e :
  Forall (λ r, match r with AcceptErr e => e = EINTR | Accepted _ _ => True end) script →
  e ≠ EINTR →
  accept_loop (script ++ AcceptErr e :: rest) = (omap accepted script, rest).
Proof.
  intros Hs He. induction Hs as [|r script Hr _ IH]; simpl.
  - destruct (e =? EAGAIN); [done|]. by destruct (Z.eqb_spec e EINTR).
  - destruct r as [fd addr|e']; simpl; [by rewrite IH|]. by subst.
Qed.

(** The listener runs exactly when every call succeeded, on the port the kernel
    reports. *)
Lemma start_ok inet_pton bindAddr port k l :
  start inet_pton bindAddr port k = inr l ↔
  r_socket k = inr (sock_ l) ∧ (make_addr inet_pton bindAddr port).1 = true ∧
  r_bind k = 0 ∧ r_listen k = 0 ∧ r_add k = 0 ∧ boundPort_ l = default 0 (r_getsockname k).
Proof.
  unfold start. destruct (make_addr inet_pton bindAddr port) as [ok addr]. simpl.
  destruct (r_socket k) as [e|fd], ok, (Z.eqb_spec (r_bind k) 0), (Z.eqb_spec (r_listen k) 0),
    (Z.eqb_spec (r_add k) 0), l as [s b]; simpl; naive_solver.
Qed.

End listener.
