(* ===== verification/EventLoop.v ===== *)
(** * The reactor ([src/src/event_loop.hpp], [src/src/event_loop.cpp])

    The timer queue ([add_timer], [cancel_timer], [fire_due_timers],
    [next_timeout_ms]), the dispatch loop [run] and [stop]/[wakeup].  A callback
    is a program over the operations the loop offers to the code it runs; the
    rest of the program's state is the type [W] it transforms.  The kernel's
    part (the result of each [epoll_wait] and the values [clock::now] returns)
    is an argument.  Timers fire in deadline order, never early, at most once,
    never after a cancellation, and a sweep leaves no due timer behind. *)

From stdpp Require Import base numbers list option gmap sets sorting.
From S2P Require Import Prelude.
From Stdlib Require Import ZArith Lia Sorted.

Open Scope Z_scope.

Module event_loop.

Lemma StronglySorted_reverse {A} (R : A → A → Prop) l :
  StronglySorted (flip R) l → StronglySorted R (reverse l).
Proof.
  induction 1 as [|x l _ IH Hall]; [constructor|]. rewrite reverse_cons.
  apply StronglySorted_app_2; [|done|by repeat constructor].
  intros y z Hy ->%list_elem_of_singleton. rewrite elem_of_reverse in Hy.
  rewrite list.Forall_forall in Hall. by apply Hall.
Qed.

Section loop.

(** Names of callbacks, of registered handlers with their event masks, and the
    state the callbacks work on. *)
Context {CB EV W : Type}.

(** What a callback does to the loop: it may read the clock, arm and cancel
    timers and stop the loop; [Ret] is its effect on everything else. *)
Inductive prog :=
  | Ret (w : W)
  | Now (k : Z → prog)
  | AddTimer (delay : Z) (cb : option CB) (k : Z → prog)
  | CancelTimer (id : Z) (k : prog)
  | Stop (k : prog).

Record timer := mk_timer { id : Z; cb : option CB }.

(** A callback that ran: its timer, the timer's deadline, the time read when it
    was found due, and the callback. *)
Record firing := mk_firing { f_id : Z; f_deadline : Z; f_at : Z; f_cb : CB }.

(** [timers_] is the multimap in iteration order; [eventFd_] the counter of the
    eventfd.  The last three fields only observe the run: how often the clock
    was read, how many timers were armed and which ones fired (latest first). *)
Record t := mk {
  timers_ : list (Z * timer);
  cancelled_ : gset Z;
  nextTimerId_ : Z;
  running_ : bool;
  eventFd_ : Z;
  reads : nat;
  armed : Z;
  history : list firing;
}.

Definition init : t := mk [] ∅ 1 false 0 0 0 [].

Definition with_timers (s : t) (l : list (Z * timer)) : t :=
  mk l (cancelled_ s) (nextTimerId_ s) (running_ s) (eventFd_ s) (reads s) (armed s) (history s).
Definition with_cancelled (s : t) (c : gset Z) : t :=
  mk (timers_ s) c (nextTimerId_ s) (running_ s) (eventFd_ s) (reads s) (armed s) (history s).
Definition with_running (s : t) (b : bool) : t :=
  mk (timers_ s) (cancelled_ s) (nextTimerId_ s) b (eventFd_ s) (reads s) (armed s) (history s).
Definition with_eventFd (s : t) (n : Z) : t :=
  mk (timers_ s) (cancelled_ s) (nextTimerId_ s) (running_ s) n (reads s) (armed s) (history s).
Definition with_firing (s : t) (f : firing) : t :=
  mk (timers_ s) (cancelled_ s) (nextTimerId_ s) (running_ s) (eventFd_ s) (reads s) (armed s)
    (f :: history s).

(** The values [clock::now] returns, by number of the call, and what each
    callback and each registered handler does. *)
Variable clk : nat → Z.
Variable body : CB → W → prog.
Variable on_io_events : EV → W → prog.
Variable wakeHandler_ : option (W → prog).

Definition read_clock (s : t) : Z * t :=
  (clk (reads s),
   mk (timers_ s) (cancelled_ s) (nextTimerId_ s) (running_ s) (eventFd_ s) (S (reads s))
     (armed s) (history s)).

(** [std::multimap::emplace]: after the elements with an equal key. *)
Fixpoint emplace (k : Z) (v : timer) (l : list (Z * timer)) : list (Z * timer) :=
  match l with
  | [] => [(k, v)]
  | (k', v') :: l' => if k <? k' then (k, v) :: l else (k', v') :: emplace k v l'
  end.

Definition add_timer (delay : Z) (cb : option CB) (s : t) : Z * t :=
  let tid := nextTimerId_ s in
  let '(now, s) := read_clock s in
  (tid, mk (emplace (now + delay) (mk_timer tid cb) (timers_ s)) (cancelled_ s)
          (wrap 64 (nextTimerId_ s + 1)) (running_ s) (eventFd_ s) (reads s) (armed s + 1)
          (history s)).

Definition cancel_timer (tid : Z) (s : t) : t := with_cancelled s ({[tid]} ∪ cancelled_ s).

(** A write of 1 to the eventfd; it fails with [EAGAIN], and changes nothing,
    when the counter is at its maximum. *)
Definition wakeup (s : t) : t :=
  if eventFd_ s + 1 <=? 2 ^ 64 - 2 then with_eventFd s (eventFd_ s + 1) else s.

Definition stop (s : t) : t := wakeup (with_running s false).

(** A read of the eventfd resets its counter; the next one fails. *)
Definition drain_wake (s : t) : t := with_eventFd s 0.

Fixpoint exec (p : prog) (s : t) : W * t :=
  match p with
  | Ret w => (w, s)
  | Now k => let '(now, s) := read_clock s in exec (k now) s
  | AddTimer delay cb k => let '(tid, s) := add_timer delay cb s in exec (k tid) s
  | CancelTimer tid k => exec k (cancel_timer tid s)
  | Stop k => exec k (stop s)
  end.

Definition next_timeout_ms (s : t) : Z * t :=
  match timers_ s with
  | [] => (-1, s)
  | (next, _) :: _ =>
      let '(now, s) := read_clock s in
      if next <=? now then (0, s)
      else
        let millis := Z.quot (next - now) (ms 1) in
        if millis <? 0 then (0, s) else if 1000 <? millis then (1000, s) else (millis, s)
  end.

(** [if (t.cb) t.cb();] *)
Definition invoke (tm : timer) (deadline now : Z) (w : W) (s : t) : W * t :=
  match cb tm with
  | Some c => exec (body c w) (with_firing s (mk_firing (id tm) deadline now c))
  | None => (w, s)
  end.

(** The loop of [fire_due_timers] with the time it holds in [now]; [false] when
    the fuel ran out with a timer still due. *)
Fixpoint fire_loop (fuel : nat) (now : Z) (w : W) (s : t) : bool * W * t :=
  match timers_ s with
  | [] => (true, w, s)
  | (deadline, tm) :: rest =>
      if negb (deadline <=? now) then (true, w, s)
      else
        match fuel with
        | O => (false, w, s)
        | S fuel =>
            let s := with_timers s rest in
            if bool_decide (id tm ∈ cancelled_ s) then
              fire_loop fuel now w (with_cancelled s (cancelled_ s ∖ {[id tm]}))
            else
              let '(w, s) := invoke tm deadline now w s in
              let '(now, s) := read_clock s in fire_loop fuel now w s
        end
  end.

Definition fire_due_timers (fuel : nat) (w : W) (s : t) : bool * W * t :=
  let '(now, s) := read_clock s in fire_loop fuel now w s.

(** An entry of the batch [epoll_wait] fills: the wake sentinel, or a handler
    (possibly null) with its event mask. *)
Inductive event := Wake | Io (h : option EV).

Inductive epoll_result := Eintr | Failed | Ready (batch : list event).

Fixpoint dispatch (batch : list event) (w : W) (s : t) : W * t :=
  match batch with
  | [] => (w, s)
  | e :: batch =>
      if negb (running_ s) then (w, s)
      else
        let '(w, s) :=
          match e with
          | Wake =>
              let s := drain_wake s in
              match wakeHandler_ with Some h => exec (h w) s | None => (w, s) end
          | Io (Some h) => exec (on_io_events h w) s
          | Io None => (w, s)
          end in
        dispatch batch w s
  end.

(** How a run ended: [stop] was observed, [epoll_wait] failed for good, the
    script of epoll results ended, or a sweep used up its fuel. *)
Inductive outcome := Stopped | EpollError | ScriptEnd | Diverged.

Fixpoint cycles (fuel : nat) (script : list epoll_result) (w : W) (s : t) : outcome * W * t :=
  if negb (running_ s) then (Stopped, w, s)
  else
    match script with
    | [] => (ScriptEnd, w, s)
    | r :: script =>
        let '(_, s) := next_timeout_ms s in
        match r with
        | Eintr => cycles fuel script w s
        | Failed => (EpollError, w, s)
        | Ready batch =>
            let '(w, s) := dispatch batch w s in
            let '(drained, w, s) := fire_due_timers fuel w s in
            if drained then cycles fuel script w s else (Diverged, w, s)
        end
    end.

Definition run (fuel : nat) (script : list epoll_result) (w : W) (s : t) : outcome * W * t :=
  cycles fuel script w (with_running s true).

(** ** Elementary steps *)

(** Every delay is at least [D] and every cancelled timer satisfies [C]. *)
Fixpoint respects (D : Z) (C : Z → Prop) (p : prog) : Prop :=
  match p with
  | Ret _ => True
  | Now k => ∀ now, respects D C (k now)
  | AddTimer delay _ k => D <= delay ∧ ∀ tid, respects D C (k tid)
  | CancelTimer tid k => C tid ∧ respects D C k
  | Stop k => respects D C k
  end.

(** What the loop does to its state, one change at a time. *)
Inductive estep (D : Z) (C : Z → Prop) : t → t → Prop :=
  | StepClock s : estep D C s (read_clock s).2
  | StepAdd d c s : D <= d → estep D C s (add_timer d c s).2
  | StepCancel i s : C i → estep D C s (cancel_timer i s)
  | StepFlags b n s : estep D C s (with_eventFd (with_running s b) n)
  | StepSkip dl tm rest s :
      timers_ s = (dl, tm) :: rest → id tm ∈ cancelled_ s →
      estep D C s (with_cancelled (with_timers s rest) (cancelled_ s ∖ {[id tm]}))
  | StepDrop dl tm rest s :
      timers_ s = (dl, tm) :: rest → cb tm = None → estep D C s (with_timers s rest)
  | StepFire dl tm rest c now s :
      timers_ s = (dl, tm) :: rest → id tm ∉ cancelled_ s → cb tm = Some c → dl <= now → now <= clk (reads s) →
      estep D C s (with_firing (with_timers s rest) (mk_firing (id tm) dl now c)).

#[local] Hint Constructors estep : mm.

(** ** Invariants of a run *)

(** A property of the two states that every step of the loop keeps holds at the
    end of every run.  [E] is what is known of the events. *)
Section invariant.

Context (I : W → t → Prop) (E : EV → Prop).

Definition keeps (p : prog) (s : t) : Prop := I (exec p s).1 (exec p s).2.

Hypothesis I_clock : ∀ w s, I w s → I w (read_clock s).2.
Hypothesis I_eventFd : ∀ w s n, I w s → I w (with_eventFd s n).
Hypothesis I_wake : ∀ h w s, wakeHandler_ = Some h → running_ s = true → I w s → keeps (h w) s.
Hypothesis I_io : ∀ h w s, E h → running_ s = true → I w s → keeps (on_io_events h w) s.
Hypothesis I_skip : ∀ dl tm rest w s, timers_ s = (dl, tm) :: rest → id tm ∈ cancelled_ s →
  I w s → I w (with_cancelled (with_timers s rest) (cancelled_ s ∖ {[id tm]})).
Hypothesis I_drop : ∀ dl tm rest w s, timers_ s = (dl, tm) :: rest → cb tm = None →
  I w s → I w (with_timers s rest).
Hypothesis I_fire : ∀ dl tm rest c now w s, timers_ s = (dl, tm) :: rest → cb tm = Some c →
  I w s → keeps (body c w) (with_firing (with_timers s rest) (mk_firing (id tm) dl now c)).

Lemma invoke_invariant dl tm rest now w s : timers_ s = (dl, tm) :: rest → I w s →
  let '(w', s') := invoke tm dl now w (with_timers s rest) in I w' s'.
Proof.
  intros Ht Hi. unfold invoke. destruct (cb tm) as [c|] eqn:Hcb; [|by eapply I_drop].
  specialize (I_fire dl tm rest c now w s Ht Hcb Hi). unfold keeps in I_fire.
  by destruct (exec _ _).
Qed.

Lemma fire_loop_invariant fuel now w s : I w s →
  let '(_, w', s') := fire_loop fuel now w s in I w' s'.
Proof.
  revert now w s; induction fuel as [|fuel IH]; intros now w s Hi; cbn [fire_loop];
    destruct (timers_ s) as [|[dl tm] rest] eqn:Ht; try done;
    destruct (dl <=? _); cbn [negb]; try done.
  case_bool_decide; [by apply IH, (I_skip dl tm rest w s)|].
  pose proof (invoke_invariant dl tm rest now w s Ht Hi) as H1.
  destruct (invoke _ _ _ _ _) as [w1 s1]. by apply IH, I_clock.
Qed.

Lemma dispatch_invariant batch w s :
  Forall (λ e, match e with Io (Some h) => E h | _ => True end) batch → I w s →
  let '(w', s') := dispatch batch w s in I w' s'.
Proof.
  intros Hb. revert w s; induction Hb as [|e batch He _ IH]; intros w s Hi; cbn [dispatch]; [done|].
  destruct (running_ s) eqn:Hr; cbn [negb]; [|done].
  assert (∀ r, I r.1 r.2 → let '(w', s') := (let '(w, s) := r in dispatch batch w s) in I w' s') as Hk.
  { intros [w1 s1]. apply IH. }
  apply Hk. destruct e as [|[h|]]; [|by apply I_io|done].
  destruct wakeHandler_ as [h|] eqn:Hw; [|by apply I_eventFd]. by apply I_wake; [..|apply I_eventFd].
Qed.

Lemma next_timeout_invariant w s : I w s → I w (next_timeout_ms s).2.
Proof.
  intros Hi. unfold next_timeout_ms. destruct (timers_ s) as [|[dl tm] rest]; [done|].
  specialize (I_clock w s Hi). cbn [read_clock]. destruct (_ <=? _); [done|].
  destruct (_ <? 0); [done|]. by destruct (1000 <? _).
Qed.

End invariant.

(** What needs no clock: programs and sweeps never start the loop again, and
    the number of readings grows. *)
Lemma exec_monotone p s : (reads s <= reads (exec p s).2)%nat ∧
  (running_ s = false → running_ (exec p s).2 = false).
Proof.
  revert s; induction p as [w|k IH|delay c k IH|tid k IH|k IH]; intros s; cbn [exec].
  - done.
  - cbn [read_clock]. edestruct IH as [H1 H2]. simpl in *. split; [etrans; [|exact H1]; simpl; lia|exact H2].
  - cbn [add_timer read_clock]. edestruct IH as [H1 H2]. simpl in *.
    split; [etrans; [|exact H1]; simpl; lia|exact H2].
  - destruct (IH (cancel_timer tid s)) as [H1 H2]. by split.
  - destruct (IH (stop s)) as [H1 H2]. unfold stop, wakeup in *.
    split; [etrans; [|exact H1]; by destruct (_ <=? _)|]. intros _. apply H2. by destruct (_ <=? _).
Qed.

Lemma fire_loop_monotone fuel now w s : (reads s <= reads (fire_loop fuel now w s).2)%nat ∧
  (running_ s = false → running_ (fire_loop fuel now w s).2 = false).
Proof.
  revert now w s; induction fuel as [|fuel IH]; intros now w s; cbn [fire_loop];
    destruct (timers_ s) as [|[dl tm] rest]; try done; destruct (negb _); try done.
  case_bool_decide; [apply (IH now w (with_cancelled (with_timers s rest) _))|].
  assert ((reads s <= reads (invoke tm dl now w (with_timers s rest)).2)%nat ∧
    (running_ s = false → running_ (invoke tm dl now w (with_timers s rest)).2 = false)) as [H1 H2].
  { unfold invoke. destruct (cb tm); [|done]. apply (exec_monotone _ (with_firing (with_timers s rest) _)). }
  destruct (invoke _ _ _ _ _) as [w1 s1]. cbn [read_clock snd] in *.
  edestruct IH as [H3 H4]. split; [etrans; [|exact H3]; simpl; lia|]. intros Hr. apply H4, H2, Hr.
Qed.

(** [std::chrono::steady_clock] never goes back. *)
Hypothesis clk_steady : ∀ i j, (i <= j)%nat → clk i <= clk j.

Section reachable.

Context (D : Z) (C : Z → Prop).
Hypothesis body_respects : ∀ c w, respects D C (body c w).
Hypothesis io_respects : ∀ h w, respects D C (on_io_events h w).
Hypothesis wake_respects : ∀ h w, wakeHandler_ = Some h → respects D C (h w).

#[local] Abbreviation steps := (rtc (estep D C)).

Lemma stop_steps s : steps s (stop s).
Proof.
  apply rtc_once. unfold stop, wakeup. destruct (_ <=? _).
  - apply (StepFlags D C false (eventFd_ s + 1)).
  - apply (StepFlags D C false (eventFd_ s)).
Qed.

Lemma exec_steps p s : respects D C p → steps s (exec p s).2.
Proof.
  revert s; induction p as [w|k IH|delay c k IH|tid k IH|k IH]; intros s H; simpl in *.
  - done.
  - eapply rtc_l; [apply (StepClock D C)|]. by apply IH.
  - destruct H as [Hd Hk]. eapply rtc_l; [by apply (StepAdd D C delay c)|]. by apply IH.
  - destruct H as [Hi Hk]. eapply rtc_l; [by apply (StepCancel D C tid)|]. by apply IH.
  - etrans; [apply stop_steps|]. by apply IH.
Qed.

Lemma invoke_steps dl tm rest now w s :
  timers_ s = (dl, tm) :: rest → id tm ∉ cancelled_ s → dl <= now → now <= clk (reads s) →
  steps s (invoke tm dl now w (with_timers s rest)).2.
Proof.
  intros Ht Hc Hdl Hnow. unfold invoke. destruct (cb tm) as [c|] eqn:Hcb.
  - eapply rtc_l; [by apply (StepFire D C dl tm rest c now)|]. by apply exec_steps.
  - apply rtc_once. by apply (StepDrop D C dl tm rest).
Qed.

Lemma fire_loop_steps fuel now w s :
  now <= clk (reads s) → steps s (fire_loop fuel now w s).2.
Proof.
  revert now w s; induction fuel as [|fuel IH]; intros now w s Hnow; simpl;
    destruct (timers_ s) as [|[dl tm] rest] eqn:Ht; try done; destruct (_ <=? _) eqn:Hdl;
    simpl; try done.
  apply Z.leb_le in Hdl. case_bool_decide as Hc.
  { eapply rtc_l; [by apply (StepSkip D C dl tm rest)|]. by apply IH. }
  pose proof (invoke_steps dl tm rest now w s Ht Hc Hdl Hnow) as H1.
  destruct (invoke _ _ _ _ _) as [w1 s1]. simpl in H1.
  etrans; [exact H1|]. eapply rtc_l; [apply (StepClock D C)|]. apply IH. simpl.
  apply clk_steady. lia.
Qed.

Lemma fire_due_timers_steps fuel w s : steps s (fire_due_timers fuel w s).2.
Proof.
  unfold fire_due_timers. eapply rtc_l; [apply (StepClock D C)|].
  apply fire_loop_steps. simpl. apply clk_steady. lia.
Qed.

Lemma dispatch_steps batch w s : steps s (dispatch batch w s).2.
Proof.
  revert w s; induction batch as [|e batch IH]; intros w s; simpl; [done|].
  destruct (negb _); [done|].
  assert (∀ r, steps s r.2 → steps s (let '(w, s) := r in dispatch batch w s).2) as Hk.
  { intros [w1 s1] H1. etrans; [exact H1|]. apply IH. }
  apply Hk. destruct e as [|[h|]]; [|by apply exec_steps|done].
  assert (steps s (drain_wake s)) as H0.
  { apply rtc_once. apply (StepFlags D C (running_ s) 0). }
  destruct wakeHandler_ as [h|] eqn:Hw; [|done]. etrans; [exact H0|]. apply exec_steps. eauto.
Qed.

Lemma next_timeout_steps s : steps s (next_timeout_ms s).2.
Proof.
  unfold next_timeout_ms. destruct (timers_ s) as [|[dl tm] rest]; [done|].
  apply rtc_once. pose proof (StepClock D C s) as H. simpl.
  destruct (_ <=? _); [done|]. destruct (_ <? 0); [done|]. by destruct (1000 <? _).
Qed.

Lemma cycles_steps fuel script w s : steps s (cycles fuel script w s).2.
Proof.
  revert w s; induction script as [|r script IH]; intros w s; simpl; destruct (negb _); try done.
  pose proof (next_timeout_steps s) as H0. destruct (next_timeout_ms s) as [tmo s1].
  simpl in H0. etrans; [exact H0|]. destruct r as [| |batch]; [apply IH|done|].
  pose proof (dispatch_steps batch w s1) as H1. destruct (dispatch _ _ _) as [w2 s2].
  etrans; [exact H1|]. pose proof (fire_due_timers_steps fuel w2 s2) as H2.
  destruct (fire_due_timers _ _ _) as [[dr w3] s3]. etrans; [exact H2|].
  destruct dr; [apply IH|done].
Qed.

Lemma run_steps fuel script w s : steps s (run fuel script w s).2.
Proof.
  unfold run. eapply rtc_l; [apply (StepFlags D C true (eventFd_ s))|]. apply cycles_steps.
Qed.

End reachable.

(** ** Order *)

(** Deadlines first, equal deadlines in the order of arming. *)
Definition before (a b : Z * Z) : Prop := a.1 < b.1 ∨ (a.1 = b.1 ∧ a.2 < b.2).

Definition key (e : Z * timer) : Z * Z := (e.1, id e.2).
Definition fkey (f : firing) : Z * Z := (f_deadline f, f_id f).

(** Identifiers of the timers that are pending or have fired. *)
Definition ids (s : t) : list Z := map (λ e, id e.2) (timers_ s) ++ map f_id (history s).

Record ordered (s : t) : Prop := {
  ord_timers : StronglySorted before (map key (timers_ s));
  ord_history : StronglySorted (flip before) (map fkey (history s));
  ord_between : ∀ f e, f ∈ history s → e ∈ timers_ s → before (fkey f) (key e);
  ord_past : ∀ f, f ∈ history s → f_deadline f <= f_at f <= clk (reads s);
  ord_fresh : ∀ i, i ∈ ids s → i < nextTimerId_ s;
  ord_nodup : NoDup (ids s);
}.

(** As long as the 64-bit identifiers have not run out. *)
Definition inv (s : t) : Prop :=
  armed s < 2 ^ 64 - 1 → 0 <= armed s ∧ nextTimerId_ s = armed s + 1 ∧ ordered s.

Lemma emplace_perm k v l : emplace k v l ≡ₚ (k, v) :: l.
Proof.
  induction l as [|[k' v'] l IH]; simpl; [done|]. destruct (_ <? _); [done|].
  rewrite IH. apply Permutation_swap.
Qed.

Lemma emplace_sorted k v l :
  (∀ e, e ∈ l → id e.2 < id v) →
  StronglySorted before (map key l) → StronglySorted before (map key (emplace k v l)).
Proof.
  induction l as [|[k' v'] l IH]; intros Hid Hs; simpl; [by repeat constructor|].
  apply StronglySorted_inv in Hs as [Hs Hall]. destruct (_ <? _) eqn:Hk.
  - apply Z.ltb_lt in Hk. constructor; [by constructor|]. constructor.
    + by left.
    + eapply list.Forall_impl; [exact Hall|]. intros x [H|[H _]]; left; simpl in *; lia.
  - apply Z.ltb_ge in Hk. constructor.
    + apply IH; [|done]. intros e He. apply Hid. by right.
    + rewrite emplace_perm. constructor; [|done].
      specialize (Hid (k', v') ltac:(by left)). unfold before, key. simpl in *. lia.
Qed.

Lemma inv_init : inv init.
Proof. intros _. split; [done|]. split; [done|]. split; try set_solver; constructor. Qed.

(** The history only grows, and the clock only advances. *)
Lemma estep_grows D C s s' :
  estep D C s s' → armed s <= armed s' ∧ (reads s <= reads s')%nat ∧
  ∃ h, history s' = h ++ history s.
Proof.
  destruct 1; simpl; split_and!; try lia; try (by exists []). by eexists [_].
Qed.

Lemma ordered_pop dl tm rest c s :
  timers_ s = (dl, tm) :: rest → ordered s → ordered (with_cancelled (with_timers s rest) c).
Proof.
  intros Ht []. unfold ids in *. rewrite Ht in *. split; unfold ids; simpl in *; eauto.
  - by apply StronglySorted_inv in ord_timers0 as [].
  - intros f e Hf He. apply ord_between0; [done|]. by right.
  - intros i Hi. apply ord_fresh0. by right.
  - by apply list.NoDup_cons in ord_nodup0 as [].
Qed.

Lemma ordered_fire dl tm rest c now s :
  timers_ s = (dl, tm) :: rest → dl <= now → now <= clk (reads s) → ordered s →
  ordered (with_firing (with_timers s rest) (mk_firing (id tm) dl now c)).
Proof.
  intros Ht Hdl Hnow []. unfold ids in *. rewrite Ht in *. simpl in *.
  apply StronglySorted_inv in ord_timers0 as [Hs Hall].
  split; unfold ids; simpl; eauto.
  - constructor; [done|]. apply list.Forall_forall. intros x (f & -> & Hf)%list_elem_of_fmap.
    apply (ord_between0 f (dl, tm)); [done|by left].
  - intros f e [->|Hf]%elem_of_cons He.
    + rewrite list.Forall_forall in Hall. apply Hall. by apply list_elem_of_fmap_2.
    + apply ord_between0; [done|]. by right.
  - intros f [->|Hf]%elem_of_cons; simpl; [lia|]. eauto.
  - intros i Hi. apply ord_fresh0. set_solver.
  - by rewrite <- Permutation_middle.
Qed.

Lemma ordered_add d c s :
  0 <= d → nextTimerId_ s + 1 < 2 ^ 64 → 0 <= nextTimerId_ s → ordered s →
  ordered (add_timer d c s).2.
Proof.
  intros Hd Hn Hp []. assert (wrap 64 (nextTimerId_ s + 1) = nextTimerId_ s + 1) as Hw.
  { apply wrap_small. unfold in_range. lia. }
  assert (∀ e, e ∈ timers_ s → id e.2 < nextTimerId_ s) as Hid.
  { intros e He. apply ord_fresh0. apply elem_of_app. left. apply list_elem_of_fmap. by exists e. }
  assert (clk (reads s) <= clk (S (reads s))) as Hclk by (apply clk_steady; lia).
  split; unfold ids in *; simpl; rewrite ?Hw, ?emplace_perm; simpl; eauto.
  - by apply emplace_sorted.
  - intros f e Hf He. rewrite emplace_perm in He. apply elem_of_cons in He as [->|He]; [|eauto].
    assert (f_id f < nextTimerId_ s).
    { apply ord_fresh0, elem_of_app. right. by apply list_elem_of_fmap_2. }
    specialize (ord_past0 f Hf). unfold before. simpl. lia.
  - intros f Hf. specialize (ord_past0 f Hf). lia.
  - intros i Hi. rewrite emplace_perm in Hi. apply elem_of_cons in Hi as [->|Hi]; [simpl; lia|]. specialize (ord_fresh0 i Hi). lia.
  - constructor; [|done]. intros Hi. specialize (ord_fresh0 _ Hi). lia.
Qed.

Lemma ordered_same s s' :
  timers_ s' = timers_ s → nextTimerId_ s' = nextTimerId_ s → history s' = history s →
  (reads s <= reads s')%nat → ordered s → ordered s'.
Proof.
  intros Ht Hn Hh Hr []. apply clk_steady in Hr.
  split; unfold ids in *; rewrite ?Ht, ?Hn, ?Hh; eauto.
  intros f Hf. specialize (ord_past0 f Hf). lia.
Qed.

Lemma estep_inv D C s s' : 0 <= D → estep D C s s' → inv s → inv s'.
Proof.
  intros HD Hstep Hinv Harm.
  destruct (estep_grows _ _ _ _ Hstep) as (Ha & _ & _).
  destruct (Hinv ltac:(lia)) as (H0 & Hn & Ho).
  destruct Hstep; simpl in *; try (split_and!; [lia|done|]).
  - by apply (ordered_same s); simpl; try lia.
  - split_and!; [lia| |apply ordered_add; lia || done].
    rewrite wrap_small; unfold in_range; lia.
  - by apply (ordered_same s).
  - by apply (ordered_same s).
  - by apply (ordered_pop dl tm rest).
  - by apply (ordered_pop dl tm rest (cancelled_ s)).
  - by apply (ordered_fire dl tm rest).
Qed.

Lemma steps_inv D C s s' : 0 <= D → rtc (estep D C) s s' → inv s → inv s'.
Proof. intros HD. induction 1; eauto using estep_inv. Qed.


(** ** Cancellation *)

(** [i] was cancelled when the history was [h0]: it has not fired since, and if
    it is still pending it is marked. *)
Definition silenced (i : Z) (h0 : list firing) (s : t) : Prop :=
  inv s ∧
  (armed s < 2 ^ 64 - 1 → i < nextTimerId_ s ∧
    (i ∈ map (λ e, id e.2) (timers_ s) → i ∈ cancelled_ s) ∧
    ∃ h, history s = h ++ h0 ∧ i ∉ map f_id h).

Lemma estep_silenced D C i h0 s s' :
  0 <= D → estep D C s s' → silenced i h0 s → silenced i h0 s'.
Proof.
  intros HD Hstep [Hinv Hs]. pose proof (estep_inv D C s s' HD Hstep Hinv) as Hinv'.
  split; [done|]. intros Harm. destruct (estep_grows _ _ _ _ Hstep) as (Ha & _ & _).
  destruct (Hs ltac:(lia)) as (Hi & Hc & h & Hh & Hn). clear Hs.
  destruct (Hinv ltac:(lia)) as (H0 & Hnx & []). clear Hinv Hinv'.
  unfold ids in *.
  destruct Hstep as [s|d c s Hd|j s Hj|b n s|dl tm rest s Ht Hm|dl tm rest s Ht Hnone
    |dl tm rest c now s Ht Hm Hcb Hdl Hnow]; simpl in *; eauto.
  - split_and!; [rewrite wrap_small; unfold in_range; lia| |eauto].
    rewrite emplace_perm. simpl. intros [->|Hin]%elem_of_cons; [lia|eauto].
  - split_and!; [done| |eauto]. set_solver.
  - rewrite Ht in *. simpl in *. apply list.NoDup_cons in ord_nodup0 as [Hnd _].
    split_and!; [done| |eauto]. intros Hin. apply elem_of_difference. split; [set_solver|].
    intros ->%elem_of_singleton. set_solver.
  - rewrite Ht in *. split_and!; [done| |eauto]. set_solver.
  - rewrite Ht in *. split_and!; [done|set_solver|]. eexists (_ :: h). rewrite Hh. split; [done|].
    simpl. intros [->|Hin]%elem_of_cons; [|done]. apply Hm, Hc. by left.
Qed.

Lemma steps_silenced D C i h0 s s' :
  0 <= D → rtc (estep D C) s s' → silenced i h0 s → silenced i h0 s'.
Proof. intros HD. induction 1; eauto using estep_silenced. Qed.

Lemma cancel_silenced i s :
  inv s → i < nextTimerId_ s → silenced i (history s) (cancel_timer i s).
Proof.
  intros Hinv Hi. split.
  - apply (estep_inv 0 (λ _, True) s); [done| |done]. by constructor.
  - intros _. split_and!; [done|set_solver|]. exists []. split; [done|]. apply not_elem_of_nil.
Qed.

(** ** Completeness of a sweep *)

(** A callback may arm timers that fall due within the same sweep; [rank] says
    how many turns of the sweep they can take in all, and [cost] counts the turn
    of the timer itself too. *)
Section cost.

Context (rank : CB → nat).

Definition cost (c : option CB) : nat := S (from_option rank 0%nat c).

Definition total_cost (l : list (Z * timer)) : nat := sum_list_with (λ e, cost (cb e.2)) l.

(** Of the timers with a delay under [D] the program arms a total cost of at
    most [n], it cancels only timers of [C], and it leaves a state of [Φ]. *)
Fixpoint frugal (D : Z) (C : Z → Prop) (Φ : W → Prop) (n : nat) (p : prog) : Prop :=
  match p with
  | Ret w => Φ w
  | Now k => ∀ now, frugal D C Φ n (k now)
  | AddTimer delay c k =>
      let m := if D <=? delay then 0%nat else cost c in
      0 <= delay ∧ (m <= n)%nat ∧ ∀ tid, frugal D C Φ (n - m) (k tid)
  | CancelTimer tid k => C tid ∧ frugal D C Φ n k
  | Stop k => frugal D C Φ n k
  end.

(** The cost of the timers that are due before [T]. *)
Definition due_cost (T : Z) (s : t) : nat := total_cost (filter (λ e, e.1 < T) (timers_ s)).

Lemma total_cost_perm l l' : l ≡ₚ l' → total_cost l = total_cost l'.
Proof. unfold total_cost. by intros ->. Qed.

Lemma due_cost_le T s : (due_cost T s <= total_cost (timers_ s))%nat.
Proof.
  unfold due_cost. induction (timers_ s) as [|e l IH]; [done|]. rewrite filter_cons.
  unfold total_cost in *. case_decide; simpl; lia.
Qed.

Lemma due_cost_pop T dl tm rest s :
  timers_ s = (dl, tm) :: rest → dl < T →
  due_cost T s = (cost (cb tm) + due_cost T (with_timers s rest))%nat.
Proof. intros Ht Hdl. unfold due_cost. rewrite Ht, filter_cons, decide_True; done. Qed.

Lemma due_cost_add T D d c s : T <= clk (reads s) + D →
  (due_cost T (add_timer d c s).2 <= due_cost T s + if (D <=? d)%Z then 0 else cost c)%nat.
Proof.
  intros HT. unfold due_cost. cbn [add_timer read_clock snd timers_].
  rewrite (total_cost_perm _ (filter (λ e, e.1 < T)
    ((clk (reads s) + d, mk_timer (nextTimerId_ s) c) :: timers_ s))) by (by rewrite emplace_perm).
  rewrite filter_cons. destruct (Z.leb_spec D d).
  - rewrite decide_False by (simpl; lia). lia.
  - case_decide; unfold total_cost; cbn [sum_list_with sum_list_with cb snd fst]; lia.
Qed.

Lemma exec_frugal T D C Φ n p s :
  frugal D C Φ n p → T <= clk (reads s) + D →
  let r := exec p s in
  Φ r.1 ∧ rtc (estep 0 C) s r.2 ∧ (due_cost T r.2 <= due_cost T s + n)%nat.
Proof.
  revert n s; induction p as [w|k IH|delay c k IH|tid k IH|k IH]; intros n s H HT; simpl in *.
  - split_and!; [done|done|lia].
  - destruct (IH (clk (reads s)) n (read_clock s).2 (H _)) as (H1 & H2 & H3).
    { simpl. pose proof (clk_steady (reads s) (S (reads s)) ltac:(lia)). lia. }
    split_and!; [done| |done]. eapply rtc_l; [apply (StepClock 0 C)|done].
  - destruct H as (Hd & Hm & H). pose proof (due_cost_add T D delay c s HT) as Ha.
    destruct (IH (nextTimerId_ s) _ (add_timer delay c s).2 (H _)) as (H1 & H2 & H3).
    { simpl. pose proof (clk_steady (reads s) (S (reads s)) ltac:(lia)). lia. }
    split_and!; [done| |etrans; [exact H3|]; lia].
    eapply rtc_l; [by apply (StepAdd 0 C delay c)|done].
  - destruct H as [Hi H]. destruct (IH n (cancel_timer tid s) H HT) as (H1 & H2 & H3).
    split_and!; [done| |done]. eapply rtc_l; [by apply (StepCancel 0 C tid)|done].
  - assert (due_cost T (stop s) = due_cost T s ∧ reads (stop s) = reads s) as [Ed Er]
      by (unfold stop, wakeup; by destruct (_ <=? _)).
    destruct (IH n (stop s) H) as (H1 & H2 & H3); [by rewrite Er|]. rewrite Ed in H3.
    split_and!; [done| |done]. etrans; [apply (stop_steps 0 C)|done].
Qed.

End cost.

Lemma steps_reads D C s s' : rtc (estep D C) s s' → (reads s <= reads s')%nat.
Proof.
  induction 1 as [|x y z Hxy _ IH]; [done|]. destruct (estep_grows _ _ _ _ Hxy) as (_ & H & _). lia.
Qed.

(** The head of the queue is not due at [now]. *)
Definition quiet (now : Z) (s : t) : Prop :=
  match timers_ s with [] => True | (dl, _) :: _ => now < dl end.

Lemma fire_loop_quiet fuel w s :
  (0 < reads s)%nat →
  let '(drained, _, s') := fire_loop fuel (clk (pred (reads s))) w s in
  drained = true → quiet (clk (pred (reads s'))) s'.
Proof.
  unfold quiet. revert w s; induction fuel as [|fuel IH]; intros w s Hr; cbn [fire_loop];
    destruct (timers_ s) as [|[dl tm] rest] eqn:Ht; try (by rewrite Ht);
    destruct (dl <=? _) eqn:Hdl; cbn [negb]; try done;
    try (apply Z.leb_gt in Hdl; by rewrite Ht).
  case_bool_decide; [by apply (IH w (with_cancelled (with_timers s rest) _))|].
  destruct (invoke _ _ _ _ _) as [w1 s1].
  apply (IH w1 (read_clock s1).2). simpl. lia.
Qed.

Section sweep.

Context (rank : CB → nat) (D : Z) (C : Z → Prop) (Φ : W → Prop) (T : Z).
Hypothesis body_frugal : ∀ c w, Φ w → frugal rank D C Φ (rank c) (body c w).

(** Running the first timer is paid for by its own cost. *)
Lemma invoke_frugal dl tm rest now w s :
  timers_ s = (dl, tm) :: rest → id tm ∉ cancelled_ s → dl <= now → now <= clk (reads s) →
  T <= clk (reads s) + D → dl < T → Φ w →
  let r := invoke tm dl now w (with_timers s rest) in
  Φ r.1 ∧ rtc (estep 0 C) s r.2 ∧ (due_cost rank T r.2 < due_cost rank T s)%nat.
Proof.
  intros Ht Hc Hdl Hnow HT HdlT Hw. rewrite (due_cost_pop rank T dl tm rest s Ht HdlT). unfold invoke.
  destruct (cb tm) as [c|] eqn:Hcb.
  - destruct (exec_frugal rank T D C Φ (rank c) (body c w)
      (with_firing (with_timers s rest) (mk_firing (id tm) dl now c)) (body_frugal c w Hw) HT)
      as (H1 & H2 & H3). split_and!; [done| |].
    + eapply rtc_l; [by apply (StepFire 0 C dl tm rest c now)|done].
    + eapply Nat.le_lt_trans; [exact H3|]. unfold due_cost, cost. simpl. lia.
  - split_and!; [done| |unfold cost; simpl; lia]. apply rtc_once. by apply (StepDrop 0 C dl tm rest).
Qed.

Lemma fire_loop_serves fuel now w s :
  Φ w → T <= clk (reads s) + D → (due_cost rank T s <= fuel)%nat → now <= clk (pred (reads s)) → now < T →
  let '(drained, w', s') := fire_loop fuel now w s in
  clk (pred (reads s')) < T → drained = true ∧ Φ w' ∧ rtc (estep 0 C) s s'.
Proof.
  revert now w s; induction fuel as [|fuel IH]; intros now w s Hw HT Hdue Hnow HnowT; cbn [fire_loop];
    destruct (timers_ s) as [|[dl tm] rest] eqn:Ht; try done;
    destruct (dl <=? now) eqn:Hdl; cbn [negb]; try done; apply Z.leb_le in Hdl.
  { rewrite (due_cost_pop rank T dl tm rest s Ht) in Hdue by lia. unfold cost in Hdue. lia. }
  assert (now <= clk (reads s)) as Hn0.
  { pose proof (clk_steady (pred (reads s)) (reads s) ltac:(lia)). lia. }
  case_bool_decide as Hc.
  - set (s1 := with_cancelled _ _). specialize (IH now w s1 Hw HT).
    destruct (fire_loop _ _ _ s1) as [[dr w'] s']. intros Hlt.
    rewrite (due_cost_pop rank T dl tm rest s Ht) in Hdue by lia. unfold cost in Hdue.
    change (due_cost rank T (with_timers s rest)) with (due_cost rank T s1) in Hdue.
    destruct IH as (-> & Hw' & Hst); [lia|done|done|done|]. split_and!; [done|done|].
    eapply rtc_l; [by apply (StepSkip 0 C dl tm rest)|done].
  - destruct (invoke_frugal dl tm rest now w s Ht Hc Hdl Hn0 HT ltac:(lia) Hw) as (H1 & H2 & H3).
    destruct (invoke _ _ _ _ _) as [w1 s1]. cbn [fst snd read_clock] in *.
    set (s2 := mk _ _ _ _ _ _ _ _). pose proof (steps_reads _ _ _ _ H2) as Hr.
    pose proof (clk_steady (reads s) (S (reads s1)) ltac:(lia)).
    specialize (IH (clk (reads s1)) w1 s2 H1 ltac:(simpl; lia)).
    pose proof (fire_loop_monotone fuel (clk (reads s1)) w1 s2) as [Hm _].
    destruct (fire_loop _ _ _ s2) as [[dr w'] s']. intros Hlt.
    pose proof (clk_steady (reads s1) (pred (reads s')) ltac:(simpl in Hm; lia)).
    destruct IH as (-> & Hw' & Hst); [|done|lia|done|].
    { change (due_cost rank T s2) with (due_cost rank T s1). lia. }
    split_and!; [done|done|]. etrans; [exact H2|]. by eapply rtc_l; [apply (StepClock 0 C)|].
Qed.

End sweep.

(** A pending timer that nobody cancels stays pending until it fires. *)
Definition tracked (e : Z * timer) (s : t) : Prop :=
  (e ∈ timers_ s ∧ id e.2 ∉ cancelled_ s) ∨ ∃ f, f ∈ history s ∧ fkey f = key e.

Lemma estep_tracked D (e : Z * timer) s s' :
  cb e.2 ≠ None → estep D (λ i, i ≠ id e.2) s s' → tracked e s → tracked e s'.
Proof.
  intros Hcb Hstep [[He Hn]|(f & Hf & Hk)].
  2:{ right. exists f. destruct (estep_grows _ _ _ _ Hstep) as (_ & _ & h & ->). set_solver. }
  destruct Hstep as [s|d c s Hd|j s Hj|b n s|dl tm rest s Ht Hm|dl tm rest s Ht Hnone
    |dl tm rest c now s Ht Hm Hcb' Hdl Hnow]; try (by left); try (rewrite Ht in He;
    apply elem_of_cons in He as [->|He]).
  - left. simpl. rewrite emplace_perm. set_solver.
  - left. simpl. set_solver.
  - done.
  - left. simpl. set_solver.
  - done.
  - by left.
  - right. eexists. split; [by left|done].
  - by left.
Qed.

Lemma steps_tracked D (e : Z * timer) s s' :
  cb e.2 ≠ None → rtc (estep D (λ i, i ≠ id e.2)) s s' → tracked e s → tracked e s'.
Proof. intros Hcb. induction 1; eauto using estep_tracked. Qed.

Lemma quiet_all now s : ordered s → quiet now s → ∀ e, e ∈ timers_ s → now < e.1.
Proof.
  intros [Hs _ _ _ _ _] Hq e He. unfold quiet in Hq.
  destruct (timers_ s) as [|[dl tm] rest]; [by apply elem_of_nil in He|]. simpl in Hs.
  apply StronglySorted_inv in Hs as [_ Hs]. apply elem_of_cons in He as [->|He]; [done|].
  apply (list_elem_of_fmap_2 key) in He. rewrite list.Forall_forall in Hs.
  specialize (Hs _ He). unfold before, key in Hs. simpl in Hs. lia.
Qed.

Lemma fire_due_timers_complete rank D C Φ fuel w s :
  0 < D → (∀ c w, Φ w → frugal rank D C Φ (rank c) (body c w)) → Φ w →
  (total_cost rank (timers_ s) <= fuel)%nat →
  let '(drained, w', s') := fire_due_timers fuel w s in
  clk (pred (reads s')) < clk (reads s) + D →
  drained = true ∧ Φ w' ∧ quiet (clk (pred (reads s'))) s' ∧ rtc (estep 0 C) s s'.
Proof.
  intros HD Hb Hw Hfuel. unfold fire_due_timers. cbn [read_clock].
  set (s1 := mk _ _ _ _ _ _ _ _).
  pose proof (fire_loop_serves rank D C Φ (clk (reads s) + D) Hb fuel (clk (reads s)) w s1 Hw) as Hd.
  pose proof (fire_loop_quiet fuel w s1 ltac:(simpl; lia)) as Hq.
  simpl in Hq. destruct (fire_loop _ _ _ _) as [[dr w'] s'].
  intros Hlt. destruct Hd as (-> & Hw' & Hst); [| |simpl; lia|lia|done|].
  - simpl. pose proof (clk_steady (reads s) (S (reads s)) ltac:(lia)). lia.
  - etrans; [apply due_cost_le|done].
  - split_and!; [done|done|by apply Hq|]. eapply rtc_l; [apply (StepClock 0 C)|exact Hst].
Qed.

(** ** Budgets *)

(** A callback has a weight that pays for the sweeps ([counts]) it performs and
    for the timers it arms.  Whatever else happens, the weight of the pending
    timers plus the number of counted firings never grows. *)
Section budget.

Context (weight : CB → Z) (counts : CB → bool).

Definition cb_weight (c : option CB) : Z := from_option weight 0 c.

(** The program arms timers of total weight at most [n]. *)
Fixpoint spends (n : Z) (p : prog) : Prop :=
  match p with
  | Ret _ => 0 <= n
  | Now k => ∀ now, spends n (k now)
  | AddTimer _ c k => ∀ tid, spends (n - cb_weight c) (k tid)
  | CancelTimer _ k => spends n k
  | Stop k => spends n k
  end.

Definition pending_weight (l : list (Z * timer)) : Z :=
  foldr (λ e n, cb_weight (cb e.2) + n) 0 l.

Definition fired (s : t) : Z := Z.of_nat (length (filter (λ f, counts (f_cb f) = true) (history s))).

Definition total (s : t) : Z := pending_weight (timers_ s) + fired s.

Hypothesis weight_pos : ∀ c, 0 <= weight c.
Hypothesis body_spends :
  ∀ c w, spends (weight c - (if counts c then 1 else 0)) (body c w).
Hypothesis io_spends : ∀ h w, spends 0 (on_io_events h w).
Hypothesis wake_spends : ∀ h w, wakeHandler_ = Some h → spends 0 (h w).

Lemma pending_weight_emplace k v l :
  pending_weight (emplace k v l) = cb_weight (cb v) + pending_weight l.
Proof.
  induction l as [|[k' v'] l IH]; simpl; [done|]. destruct (_ <? _); simpl; [done|]. lia.
Qed.

Lemma pending_weight_pos l : 0 <= pending_weight l.
Proof.
  induction l as [|[k tm] l IH]; simpl; [done|].
  assert (0 <= cb_weight (cb tm)); [|lia]. destruct (cb tm); simpl; [apply weight_pos|done].
Qed.

Lemma exec_total n p s : spends n p → total (exec p s).2 <= total s + n.
Proof.
  revert n s; induction p as [w|k IH|delay c k IH|tid k IH|k IH]; intros n s H; simpl in *.
  - lia.
  - by apply (IH _ n (read_clock s).2).
  - etrans; [by eapply IH|]. unfold total. simpl. rewrite pending_weight_emplace.
    change (fired (add_timer delay c s).2) with (fired s). simpl. unfold fired. simpl. lia.
  - by apply (IH n (cancel_timer tid s)).
  - etrans; [by apply IH|]. unfold stop, wakeup. by destruct (_ <=? _).
Qed.

Lemma invoke_total dl tm rest now w s :
  timers_ s = (dl, tm) :: rest → total (invoke tm dl now w (with_timers s rest)).2 <= total s.
Proof.
  intros Ht. unfold invoke. destruct (cb tm) as [c|] eqn:Hcb.
  - etrans; [apply exec_total, body_spends|]. unfold total, fired. rewrite Ht. simpl. rewrite Hcb.
    cbn [from_option cb_weight history with_firing with_timers]. rewrite filter_cons.
    destruct (counts c) eqn:Hc.
    + rewrite decide_True by done. simpl. lia.
    + rewrite decide_False by (simpl; congruence). simpl. lia.
  - unfold total, fired. rewrite Ht. simpl. rewrite Hcb. simpl. lia.
Qed.

Lemma fire_loop_total fuel now w s : total (fire_loop fuel now w s).2 <= total s.
Proof.
  revert now w s; induction fuel as [|fuel IH]; intros now w s; simpl;
    destruct (timers_ s) as [|[dl tm] rest] eqn:Ht; try done; destruct (_ <=? _); simpl; try done.
  case_bool_decide.
  - etrans; [apply IH|]. unfold total. rewrite Ht. simpl. unfold fired. simpl.
    assert (0 <= cb_weight (cb tm)); [|lia]. destruct (cb tm); simpl; [apply weight_pos|done].
  - pose proof (invoke_total dl tm rest now w s Ht) as Hi.
    destruct (invoke _ _ _ _ _) as [w1 s1]. simpl in Hi. etrans; [apply IH|exact Hi].
Qed.

Lemma dispatch_total batch w s : total (dispatch batch w s).2 <= total s.
Proof.
  revert w s; induction batch as [|e batch IH]; intros w s; simpl; [done|].
  destruct (negb _); [done|].
  assert (∀ r, total r.2 <= total s → total (let '(w, s) := r in dispatch batch w s).2 <= total s)
    as Hk.
  { intros [w1 s1] H1. etrans; [apply IH|exact H1]. }
  apply Hk. destruct e as [|[h|]]; [| |done].
  - destruct wakeHandler_ as [h|] eqn:Hw; [|done]. rewrite (exec_total 0); [|by eauto]. 
    unfold total, fired. simpl. lia.
  - rewrite (exec_total 0); [lia|done].
Qed.

Lemma cycles_total fuel script w s : total (cycles fuel script w s).2 <= total s.
Proof.
  revert w s; induction script as [|r script IH]; intros w s; simpl; destruct (negb _); try done.
  assert (total (next_timeout_ms s).2 = total s) as H0.
  { unfold next_timeout_ms. destruct (timers_ s) as [|[dl tm] rest] eqn:Ht; [done|]. simpl.
    destruct (dl <=? _); [done|]. destruct (_ <? 0); [done|]. by destruct (1000 <? _). }
  destruct (next_timeout_ms s) as [tmo s1]. simpl in H0. rewrite <- H0.
  destruct r as [| |batch]; [apply IH|done|].
  pose proof (dispatch_total batch w s1) as H1. destruct (dispatch _ _ _) as [w2 s2].
  simpl in H1. pose proof (fire_loop_total fuel (clk (reads s2)) w2 (read_clock s2).2) as H2.
  change (total (read_clock s2).2) with (total s2) in H2. unfold fire_due_timers.
  destruct (read_clock s2) as [n s2'] eqn:Hrc. inversion Hrc; subst n s2'. simpl in H2.
  destruct (fire_loop _ _ _ _) as [[dr w3] s3]. simpl in H2.
  destruct dr; simpl; [etrans; [apply IH|]|]; lia.
Qed.

Lemma run_fired fuel script w s : fired (run fuel script w s).2 <= total s.
Proof.
  pose proof (cycles_total fuel script w (with_running s true)) as H. unfold run.
  pose proof (pending_weight_pos (timers_ (cycles fuel script w (with_running s true)).2)).
  change (total (with_running s true)) with (total s) in H. unfold total at 1 in H. lia.
Qed.

End budget.

(** ** Properties *)

Definition anything : Z → Prop := λ _, True.

(** [C34] Timers fire in order: in every run of the loop, whatever the handlers
    and callbacks do, callbacks run in the order of their deadlines, equal
    deadlines in the order they were armed, each timer at most once, and none
    before its deadline.  (Delays are not negative and fewer than [2^64 - 1]
    timers are armed.) *)
Theorem timers_fire_in_order fuel script w :
  (∀ c w, respects 0 anything (body c w)) →
  (∀ h w, respects 0 anything (on_io_events h w)) →
  (∀ h w, wakeHandler_ = Some h → respects 0 anything (h w)) →
  let s := (run fuel script w init).2 in
  armed s < 2 ^ 64 - 1 →
  StronglySorted before (reverse (map fkey (history s))) ∧
  NoDup (map f_id (history s)) ∧
  ∀ f, f ∈ history s → f_deadline f <= f_at f.
Proof.
  intros Hb Hio Hw s Harm.
  pose proof (run_steps 0 anything Hb Hio Hw fuel script w init) as Hsteps.
  destruct (steps_inv 0 anything init s ltac:(lia) Hsteps inv_init Harm) as (_ & _ & []).
  split_and!.
  - by apply StronglySorted_reverse.
  - unfold ids in *. by apply list.NoDup_app in ord_nodup0 as (_ & _ & ?).
  - intros f Hf. specialize (ord_past0 f Hf). lia.
Qed.

(** A cancelled timer never fires: from the moment [cancel_timer] is
    called with an identifier that was handed out, at whatever point of a run,
    its callback does not run any more. *)
Theorem cancelled_timer_never_fires i s fuel script w :
  rtc (estep 0 anything) init s → i < nextTimerId_ s →
  (∀ c w, respects 0 anything (body c w)) →
  (∀ h w, respects 0 anything (on_io_events h w)) →
  (∀ h w, wakeHandler_ = Some h → respects 0 anything (h w)) →
  let s' := (run fuel script w (cancel_timer i s)).2 in
  armed s' < 2 ^ 64 - 1 →
  ∃ h, history s' = h ++ history s ∧ i ∉ map f_id h.
Proof.
  intros Hs Hi Hb Hio Hw s' Harm.
  pose proof (steps_inv 0 anything init s ltac:(lia) Hs inv_init) as Hinv.
  pose proof (run_steps 0 anything Hb Hio Hw fuel script w (cancel_timer i s)) as Hsteps.
  destruct (steps_silenced 0 anything i _ _ s' ltac:(lia) Hsteps (cancel_silenced i s Hinv Hi))
    as [_ Hsil].
  destruct (Hsil Harm) as (_ & _ & Hh). exact Hh.
Qed.

(** [C35] A sweep serves everything that is due, also when callbacks arm timers
    that fall due within the same sweep.  If the timers a callback arms with a
    delay under [D] cost no more turns than its rank allows, one turn for each
    pending timer and what its rank adds is enough for a sweep that takes less
    than [D]: it ends; afterwards no timer is due at the time last read; and
    every timer that was due when the sweep began, and that neither was nor gets
    cancelled, has run.  ([Φ] is what the callbacks keep of their own state,
    and fewer than [2^64 - 1] timers are armed.) *)
Theorem sweep_serves_all_due rank D Φ fuel w s :
  0 < D → rtc (estep 0 anything) init s → Φ w → (total_cost rank (timers_ s) <= fuel)%nat →
  (∀ c w, Φ w → frugal rank D anything Φ (rank c) (body c w)) →
  let '(drained, w', s') := fire_due_timers fuel w s in
  armed s' < 2 ^ 64 - 1 → clk (pred (reads s')) < clk (reads s) + D →
  drained = true ∧ Φ w' ∧
  (∀ e, e ∈ timers_ s' → clk (pred (reads s')) < e.1) ∧
  (∀ e, e ∈ timers_ s → e.1 <= clk (reads s) → cb e.2 ≠ None → id e.2 ∉ cancelled_ s →
     (∀ c w, Φ w → frugal rank D (λ i, i ≠ id e.2) Φ (rank c) (body c w)) →
     ∃ f, f ∈ history s' ∧ fkey f = key e).
Proof.
  intros HD Hs Hw Hfuel Hb.
  pose proof (λ C H, fire_due_timers_complete rank D C Φ fuel w s HD H Hw Hfuel) as Hc.
  pose proof (fire_loop_monotone fuel (clk (reads s)) w (read_clock s).2) as [Hr _].
  unfold fire_due_timers in *. cbn [read_clock snd] in *.
  destruct (fire_loop _ _ _ _) as [[dr w'] s']. cbn [snd reads] in *.
  intros Harm Hlt. destruct (Hc anything Hb Hlt) as (-> & Hw' & Hq & Hst).
  pose proof (steps_inv 0 anything init s ltac:(lia) Hs inv_init) as Hinv.
  destruct (steps_inv 0 anything s s' ltac:(lia) Hst Hinv Harm) as (_ & _ & Ho).
  split_and!; [done|done|by apply quiet_all|].
  intros e He Hdue Hcb Hnc HC. destruct (Hc _ HC Hlt) as (_ & _ & _ & Hst').
  destruct (steps_tracked 0 e s s' Hcb Hst' ltac:(by left)) as [[Hin _]|Hf]; [|done].
  apply (quiet_all _ _ Ho Hq) in Hin.
  pose proof (clk_steady (reads s) (pred (reads s')) ltac:(lia)). lia.
Qed.

End loop.

(** The loop neither oversleeps nor spins: with no timer it blocks, else
    the timeout it passes to [epoll_wait] is between 0 and 1000 ms, does not
    reach past the next deadline, and falls short of it by less than a
    millisecond unless capped. *)
Theorem next_timeout_tight {CB : Type} (clk : nat → Z) (s : @t CB) :
  let r := (next_timeout_ms clk s).1 in
  match timers_ s with
  | [] => r = -1
  | (next, _) :: _ =>
      let left := next - clk (reads s) in
      0 <= r <= 1000 ∧ ms r <= Z.max 0 left ∧ (r < 1000 → left < ms (r + 1))
  end.
Proof.
  unfold next_timeout_ms, ms. destruct (timers_ s) as [|[next tm] rest]; [done|].
  cbn [read_clock]. destruct (_ <=? _) eqn:H1; simpl.
  { apply Z.leb_le in H1. lia. }
  apply Z.leb_gt in H1.
  rewrite Z.quot_div_nonneg by lia. change (1 * 1000000) with 1000000.
  assert (0 <= (next - clk (reads s)) / 1000000) by (apply Z.div_pos; lia).
  destruct (_ <? 0) eqn:H2; [apply Z.ltb_lt in H2; lia|].
  destruct (1000 <? _) eqn:H3; simpl; [apply Z.ltb_lt in H3|apply Z.ltb_ge in H3]; zlia.
Qed.

(** ** A loop with a periodic timer *)

(** Callback 0 re-arms itself every 5 time units; callback 1 cancels timer 3;
    the clock advances by 2 with each reading. *)
Definition sample_clk (n : nat) : Z := 2 * Z.of_nat n.
Definition sample_body (c : nat) (w : list nat) : @prog nat (list nat) :=
  match c with
  | 0%nat => AddTimer 5 (Some 0%nat) (λ _, Ret (c :: w))
  | 1%nat => CancelTimer 3 (Ret (c :: w))
  | _ => Ret (c :: w)
  end.
Definition sample_io (h : unit) (w : list nat) : @prog nat (list nat) :=
  AddTimer 8 (Some 0%nat) (λ _, AddTimer 3 (Some 1%nat) (λ _, AddTimer 9 (Some 2%nat)
    (λ _, Ret w))).
Definition sample_wake : option (list nat → @prog nat (list nat)) := None.
Definition sample_script : list (@epoll_result unit) :=
  [Ready [Io (Some tt)]; Ready []; Eintr; Ready []; Ready []; Ready []].

Lemma sample_steady i j : (i <= j)%nat → sample_clk i <= sample_clk j.
Proof. unfold sample_clk. lia. Qed.

Lemma sample_respects c w : respects 0 anything (sample_body c w).
Proof. destruct c as [|[|c]]; simpl; repeat split; lia. Qed.

Lemma sample_io_respects h w : respects 0 anything (sample_io h w).
Proof. simpl. repeat split; lia. Qed.

Definition sample_end : t :=
  (run sample_clk sample_body sample_io sample_wake 5 sample_script [] init).2.

(** Timer 2 (deadline 5) fires first and cancels timer 3; timer 1 (deadline 8)
    fires next and its successors 4 to 7 after it. *)
Lemma timers_fire_in_order_witness :
  map fkey (history sample_end) =
    [(41, 7); (33, 6); (23, 5); (15, 4); (8, 1); (5, 2)] ∧
  StronglySorted before (reverse (map fkey (history sample_end))).
Proof.
  split; [vm_compute; reflexivity|].
  apply (timers_fire_in_order sample_clk sample_body sample_io sample_wake sample_steady 5
    sample_script [] sample_respects sample_io_respects).
  - intros h w H. discriminate H.
  - vm_compute. reflexivity.
Defined.

Definition sample_armed : t := (add_timer sample_clk 1 (Some 2%nat) init).2.

Lemma cancelled_timer_never_fires_witness :
  ∃ h, history (run sample_clk sample_body sample_io sample_wake 5 sample_script []
    (cancel_timer 1 sample_armed)).2 = h ++ [] ∧ 1 ∉ map f_id h.
Proof.
  apply (cancelled_timer_never_fires sample_clk sample_body sample_io sample_wake sample_steady
    1 sample_armed 5 sample_script []).
  - apply rtc_once. apply (StepAdd sample_clk 0 anything 1). lia.
  - reflexivity.
  - apply sample_respects.
  - apply sample_io_respects.
  - intros h w H. discriminate H.
  - vm_compute. reflexivity.
Defined.

(** A callback that arms another without delay, as a callback does that lets a
    connection die: of the two timers one is due, and the sweep runs its
    callback and the one this arms. *)
Definition reaping_body (c : nat) (w : list nat) : @prog nat (list nat) :=
  match c with
  | 2%nat => AddTimer 0 (Some 1%nat) (λ _, AddTimer 1000 (Some 2%nat) (λ _, Ret (c :: w)))
  | _ => Ret (c :: w)
  end.
Definition reaping_rank (c : nat) : nat := match c with 2%nat => 1 | _ => 0 end.

Lemma sweep_serves_all_due_witness :
  let '(drained, w, s) := fire_due_timers sample_clk reaping_body 2 [] sample_armed in
  drained = true ∧ w = [1%nat; 2%nat] ∧ ∃ f, f ∈ history s ∧ fkey f = (1, 1).
Proof.
  assert (∀ C c w, True →
    frugal reaping_rank 100 C (λ _, True) (reaping_rank c) (reaping_body c w)) as Hb.
  { intros C [|[|[|c]]] w _; done. }
  pose proof (sweep_serves_all_due sample_clk reaping_body sample_steady reaping_rank 100
    (λ _, True) 2 [] sample_armed ltac:(lia)
    ltac:(apply rtc_once; apply (StepAdd sample_clk 0 anything 1); lia) I
    ltac:(vm_compute; lia) (Hb anything)) as H.
  destruct (fire_due_timers sample_clk reaping_body 2 [] sample_armed) as [[dr w] s] eqn:E.
  vm_compute in E. injection E as <- <- <-.
  destruct H as (Hd & _ & _ & Hran); [vm_compute; reflexivity..|].
  split; [exact Hd|]. split; [reflexivity|].
  apply (Hran (1, mk_timer 1 (Some 2%nat))).
  - vm_compute. left.
  - vm_compute. congruence.
  - done.
  - vm_compute. intros H. inversion H.
  - apply Hb.
Defined.

End event_loop.
