(* ===== verification/Gossip.v ===== *)
(** * The gossip router

    src/src/gossip_router.hpp and src/src/gossip_router.cpp: the dedup cache, hop
    counting, broadcast flooding and targeted relay.  The router drives the
    abstract class [forwarder], which is a type class here: every theorem is
    proved for any implementation of it.  The theorems give the dedup window
    (how long a message identifier is remembered), the forwarding policy, and
    the uniqueness of minted identifiers. *)
From Stdlib Require Import ZArith Lia.
From Stdlib.Strings Require Import Byte.
From stdpp Require Import base gmap sets list strings numbers option.
From S2P Require Import Prelude PeerId Wire WireFacts Config EventLoop.

(** The abstract class [forwarder]: what the router may do to the outside, as
    operations on the implementation's state [F]. *)
Class Forwarder (F : Type) := {
  forward_except : list byte → Z → F → F;
  forward_to : peer_id → list byte → F → bool * F;
  deliver_local : peer_id → list byte → F → F;
}.

Module gossip_router.

Record stamp := mk_stamp { sid : message_id; at_ : Z }.

Record t := mk {
  cfg_ : mesh_config;
  self_ : peer_id;
  counter_ : Z;
  dedup_ : gset message_id;
  order_ : list stamp;
}.

(** The constructor: [rd1], [rd2] are the two words of the random device. *)
Definition make (cfg : mesh_config) (self : peer_id) (rd1 rd2 : Z) : t :=
  mk cfg self (Z.lxor (wrap 64 (Z.shiftl rd1 32)) rd2) ∅ [].

Definition next_id (r : t) : message_id * t :=
  let c := wrap 64 (counter_ r + 1) in
  let low := take 8 (elems (bytes (self_ r))) in
  let high := map (λ i, byte_of_Z (Z.land (Z.shiftr c ((7 - i) * 8)) 255))
                [0; 1; 2; 3; 4; 5; 6; 7] in
  (mk_message_id (array_of 16 (low ++ high)),
   mk (cfg_ r) (self_ r) c (dedup_ r) (order_ r)).

(** [while (order_.size() > maxDedupEntries)]: evict the oldest. *)
Fixpoint evict_size (max : Z) (d : gset message_id) (o : list stamp)
    : gset message_id * list stamp :=
  match o with
  | [] => (d, [])
  | s :: o' =>
      if max <? Z.of_nat (length o) then evict_size max (d ∖ {[sid s]}) o' else (d, o)
  end.

Definition seen (now : Z) (id : message_id) (r : t) : bool * t :=
  if bool_decide (id ∈ dedup_ r) then (true, r)
  else
    let '(d, o) := evict_size (maxDedupEntries (cfg_ r)) ({[id]} ∪ dedup_ r)
                     (order_ r ++ [mk_stamp id now]) in
    (false, mk (cfg_ r) (self_ r) (counter_ r) d o).

(** [while (!order_.empty() && order_.front().at < cutoff)]. *)
Fixpoint evict_before (cutoff : Z) (d : gset message_id) (o : list stamp)
    : gset message_id * list stamp :=
  match o with
  | [] => (d, [])
  | s :: o' => if at_ s <? cutoff then evict_before cutoff (d ∖ {[sid s]}) o' else (d, o)
  end.

Definition evict_sweep (now : Z) (r : t) : t :=
  let cutoff := now - ms (dedupTtl (cfg_ r)) in
  let '(d, o) := evict_before cutoff (dedup_ r) (order_ r) in
  mk (cfg_ r) (self_ r) (counter_ r) d o.

Section with_forwarder.
Context {F : Type} `{!Forwarder F}.

Definition on_data (now : Z) (view : data_view) (inboundFd : Z) (r : t) (fwd : F)
    : t * F :=
  let '(dup, r) := seen now (d_msgId view) r in
  if dup then (r, fwd)
  else if is_zero (d_dst view) then
    let fwd := if negb (peer_id_eqb (d_src view) (self_ r))
               then deliver_local (d_src view) (d_payload view) fwd else fwd in
    if 1 <? d_ttl view then
      let frame := encode_data (d_src view) (d_dst view) (d_msgId view)
                     (wrap 8 (d_ttl view - 1)) (d_payload view) in
      (r, forward_except frame inboundFd fwd)
    else (r, fwd)
  else if peer_id_eqb (d_dst view) (self_ r) then
    (r, deliver_local (d_src view) (d_payload view) fwd)
  else if 1 <? d_ttl view then
    let frame := encode_data (d_src view) (d_dst view) (d_msgId view)
                   (wrap 8 (d_ttl view - 1)) (d_payload view) in
    let '(direct, fwd) := forward_to (d_dst view) frame fwd in
    if direct then (r, fwd) else (r, forward_except frame inboundFd fwd)
  else (r, fwd).

Definition originate_broadcast (now : Z) (payload : list byte) (r : t) (fwd : F) : t * F :=
  let '(id, r) := next_id r in
  let '(_, r) := seen now id r in
  let frame := encode_data (self_ r) peer_id_zero id (initialTtl (cfg_ r)) payload in
  (r, forward_except frame (-1) fwd).

Definition originate_targeted (now : Z) (dst : peer_id) (payload : list byte)
    (r : t) (fwd : F) : t * F :=
  if peer_id_eqb dst (self_ r) then (r, deliver_local (self_ r) payload fwd)
  else
    let '(id, r) := next_id r in
    let '(_, r) := seen now id r in
    let frame := encode_data (self_ r) dst id (initialTtl (cfg_ r)) payload in
    let '(direct, fwd) := forward_to dst frame fwd in
    if direct then (r, fwd) else (r, forward_except frame (-1) fwd).

End with_forwarder.

(** ** The cache invariant *)

(** The set and the FIFO hold the same identifiers, each once. *)
Record wf (r : t) : Prop := {
  wf_same : ∀ id, id ∈ dedup_ r ↔ id ∈ map sid (order_ r);
  wf_nodup : NoDup (map sid (order_ r));
}.

(** Evicting a prefix of the FIFO keeps set and FIFO in step. *)
Definition in_step (d : gset message_id) (o : list stamp) : Prop :=
  (∀ id, id ∈ d ↔ id ∈ map sid o) ∧ NoDup (map sid o).

Lemma wf_in_step r : wf r ↔ in_step (dedup_ r) (order_ r).
Proof. split; [intros [H1 H2]|intros [H1 H2]]; by split. Qed.

Lemma in_step_pop d s o : in_step d (s :: o) → in_step (d ∖ {[sid s]}) o.
Proof.
  intros [Hs Hn]. simpl in *. apply list.NoDup_cons in Hn as [Hni Hn]. split; [|done].
  intros id. rewrite elem_of_difference, Hs, elem_of_cons, elem_of_singleton.
  split; [by intros [[->|?] ?]|]. intros Hid. split; [by right|]. by intros ->.
Qed.

Lemma evict_size_in_step max d o :
  in_step d o → in_step (evict_size max d o).1 (evict_size max d o).2.
Proof.
  revert d; induction o as [|s o IH]; intros d Hd; cbn [evict_size]; [done|].
  destruct (_ <? _); [|done]. by apply IH, in_step_pop.
Qed.

Lemma evict_before_in_step cutoff d o :
  in_step d o → in_step (evict_before cutoff d o).1 (evict_before cutoff d o).2.
Proof.
  revert d; induction o as [|s o IH]; intros d Hd; cbn [evict_before]; [done|].
  destruct (_ <? _); [|done]. by apply IH, in_step_pop.
Qed.

(** What remains is the newest [max] entries. *)
Lemma evict_size_order max d o :
  (evict_size max d o).2 = drop (length o - Z.to_nat max) o.
Proof.
  revert d; induction o as [|s o IH]; intros d; cbn [evict_size]; [by rewrite drop_nil|].
  destruct (Z.ltb_spec max (Z.of_nat (length (s :: o)))) as [Hlt|Hge].
  - rewrite IH. cbn [length] in *.
    replace (S (length o) - Z.to_nat max)%nat with (S (length o - Z.to_nat max)) by lia.
    done.
  - cbn [length] in *. by replace (S (length o) - Z.to_nat max)%nat with 0%nat by lia.
Qed.

Lemma seen_true now id r : id ∈ dedup_ r → seen now id r = (true, r).
Proof. intros H. unfold seen. by rewrite bool_decide_eq_true_2. Qed.

Lemma in_step_push d o id now :
  in_step d o → id ∉ d → in_step ({[id]} ∪ d) (o ++ [mk_stamp id now]).
Proof.
  intros [Hs Hn] Hid. unfold in_step. rewrite map_app; simpl. split.
  - intros j. rewrite elem_of_union, elem_of_singleton, elem_of_app, Hs.
    rewrite list_elem_of_singleton. tauto.
  - apply list.NoDup_app. split_and!; [done| |apply list.NoDup_singleton].
    intros j Hj ->%list_elem_of_singleton. by apply Hid, Hs.
Qed.

Lemma seen_wf now id r : wf r → wf (seen now id r).2.
Proof.
  intros Hwf. unfold seen. case_bool_decide as Hid; [done|].
  apply wf_in_step in Hwf. apply (in_step_push _ _ id now) in Hwf; [|done].
  apply (evict_size_in_step (maxDedupEntries (cfg_ r))) in Hwf.
  destruct (evict_size _ _ _) as [d o]. by apply wf_in_step.
Qed.

Lemma evict_sweep_wf now r : wf r → wf (evict_sweep now r).
Proof.
  rewrite wf_in_step. intros Hwf. unfold evict_sweep.
  apply (evict_before_in_step (now - ms (dedupTtl (cfg_ r)))) in Hwf.
  destruct (evict_before _ _ _) as [d o]. by apply wf_in_step.
Qed.

Lemma next_id_wf r : wf r → wf (next_id r).2.
Proof. intros [H1 H2]. by split. Qed.

(** Every operation leaves the cache fields as [seen] left them. *)
Lemma on_data_router {F} `{!Forwarder F} now view fd r (fwd : F) :
  (on_data now view fd r fwd).1 = (seen now (d_msgId view) r).2.
Proof.
  unfold on_data. destruct (seen now (d_msgId view) r) as [dup r'].
  destruct dup; [done|]. destruct (is_zero (d_dst view)); [by destruct (1 <? d_ttl view)|].
  destruct (peer_id_eqb _ _); [done|]. destruct (1 <? d_ttl view); [|done].
  by destruct (forward_to _ _ _) as [[] ?].
Qed.

(** ** How long an identifier is remembered *)

(** The cache operations the router performs. *)
Inductive cache_op := OpSeen (now : Z) (id : message_id) | OpSweep (now : Z).

Definition cache_step (r : t) (o : cache_op) : t :=
  match o with
  | OpSeen now id => (seen now id r).2
  | OpSweep now => evict_sweep now r
  end.

(** [s] is in the FIFO with at most [n] newer entries behind it. *)
Definition held (s : stamp) (n : nat) (r : t) : Prop :=
  ∃ pre post, order_ r = pre ++ s :: post ∧ (length post ≤ n)%nat.

Lemma held_dedup s n r : wf r → held s n r → sid s ∈ dedup_ r.
Proof.
  intros [Hs _] (pre & post & Ho & _). apply Hs. rewrite Ho, map_app.
  apply elem_of_app. right. by left.
Qed.

Lemma cache_step_cfg r o : cfg_ (cache_step r o) = cfg_ r.
Proof.
  destruct o; cbn [cache_step]; unfold seen, evict_sweep.
  - case_bool_decide; [done|]. by destruct (evict_size _ _ _).
  - by destruct (evict_before _ _ _).
Qed.

Lemma seen_cfg now id r : cfg_ (seen now id r).2 = cfg_ r.
Proof. apply (cache_step_cfg r (OpSeen now id)). Qed.

Lemma evict_sweep_cfg now r : cfg_ (evict_sweep now r) = cfg_ r.
Proof. apply (cache_step_cfg r (OpSweep now)). Qed.

Lemma cache_step_wf r o : wf r → wf (cache_step r o).
Proof. destruct o; cbn [cache_step]; auto using seen_wf, evict_sweep_wf. Qed.

Lemma seen_order now id r :
  id ∉ dedup_ r →
  order_ (seen now id r).2 =
  let o := order_ r ++ [mk_stamp id now] in
  drop (length o - Z.to_nat (maxDedupEntries (cfg_ r))) o.
Proof.
  intros Hid. unfold seen. rewrite bool_decide_eq_false_2 by done.
  pose proof (evict_size_order (maxDedupEntries (cfg_ r)) ({[id]} ∪ dedup_ r)
    (order_ r ++ [mk_stamp id now])) as H.
  by destruct (evict_size _ _ _) as [d o].
Qed.

Lemma seen_fresh now id r : id ∉ dedup_ r → (seen now id r).1 = false.
Proof.
  intros. unfold seen. rewrite bool_decide_eq_false_2 by done.
  by destruct (evict_size _ _ _).
Qed.

(** A new entry pushes a held one back by one place; it stays while the cache
    has room for it and everything newer. *)
Lemma seen_held s n now id r :
  held s n r → Z.of_nat n + 1 < maxDedupEntries (cfg_ r) → held s (S n) (seen now id r).2.
Proof.
  intros (pre & post & Ho & Hn) Hmax.
  destruct (decide (id ∈ dedup_ r)) as [Hin|Hni].
  { rewrite seen_true by done. exists pre, post. split; [done|lia]. }
  unfold held. rewrite seen_order by done. cbv zeta. rewrite Ho, <-(assoc_L (++)).
  cbn [app].
  set (k := (length _ - _)%nat).
  exists (drop k pre), (post ++ [mk_stamp id now]). split.
  - rewrite drop_app_le; [done|]. subst k. rewrite length_app. cbn [length].
    rewrite length_app. cbn [length]. lia.
  - rewrite length_app. cbn [length]. lia.
Qed.

Lemma evict_before_keeps cutoff d pre s post :
  cutoff ≤ at_ s → ∃ pre', (evict_before cutoff d (pre ++ s :: post)).2 = pre' ++ s :: post.
Proof.
  intros Hs. revert d; induction pre as [|x pre IH]; intros d; cbn [app evict_before].
  - destruct (Z.ltb_spec (at_ s) cutoff); [lia|]. by exists [].
  - destruct (at_ x <? cutoff); [by apply IH|]. by exists (x :: pre).
Qed.

Lemma sweep_held s n now r :
  held s n r → now ≤ at_ s + ms (dedupTtl (cfg_ r)) → held s n (evict_sweep now r).
Proof.
  intros (pre & post & Ho & Hn) Hnow. unfold held, evict_sweep. rewrite Ho.
  destruct (evict_before_keeps (now - ms (dedupTtl (cfg_ r))) (dedup_ r) pre s post)
    as [pre' Hpre]; [lia|].
  destruct (evict_before _ _ _) as [d o]. simpl in *. subst o. eauto.
Qed.

Definition is_seen_op (o : cache_op) : bool :=
  match o with OpSeen _ _ => true | OpSweep _ => false end.

(** Sweeps that run no later than the entry's time to live. *)
Definition sweeps_by (deadline : Z) (os : list cache_op) : Prop :=
  ∀ now, OpSweep now ∈ os → now ≤ deadline.

Lemma cache_steps_held os s n r :
  held s n r →
  Z.of_nat n + Z.of_nat (length (List.filter is_seen_op os)) < maxDedupEntries (cfg_ r) →
  sweeps_by (at_ s + ms (dedupTtl (cfg_ r))) os →
  ∃ n', held s n' (fold_left cache_step os r).
Proof.
  revert n r. induction os as [|o os IH]; intros n r Hh Hmax Hsw; [by eauto|].
  assert (sweeps_by (at_ s + ms (dedupTtl (cfg_ r))) os) as Hsw'
    by (intros t Ht; apply Hsw; by right).
  cbn [fold_left]. rewrite <-(cache_step_cfg r o) in Hsw'.
  destruct o as [now id|now]; cbn [List.filter is_seen_op length] in Hmax;
    cbn [cache_step] in *.
  - apply (IH (S n)); [|rewrite seen_cfg; lia|done].
    apply seen_held; [done|lia].
  - apply (IH n); [|by rewrite evict_sweep_cfg|done].
    apply sweep_held; [done|]. apply Hsw. by left.
Qed.

Lemma fold_cache_wf os r : wf r → wf (fold_left cache_step os r).
Proof. revert r; induction os; simpl; auto using cache_step_wf. Qed.

Lemma fold_cache_cfg os r : cfg_ (fold_left cache_step os r) = cfg_ r.
Proof.
  revert r; induction os as [|o os IH]; intros r; simpl; [done|].
  by rewrite IH, cache_step_cfg.
Qed.

(** A freshly recorded identifier is held with nothing behind it. *)
Lemma seen_held_new now id r :
  id ∉ dedup_ r → 0 < maxDedupEntries (cfg_ r) →
  held (mk_stamp id now) 0 (seen now id r).2.
Proof.
  intros Hid Hmax. unfold held. rewrite seen_order by done. cbv zeta.
  exists (drop (length (order_ r ++ [mk_stamp id now]) - Z.to_nat (maxDedupEntries (cfg_ r)))
    (order_ r)), [].
  split; [|done]. rewrite drop_app_le; [done|]. rewrite length_app. cbn [length]. lia.
Qed.

(** An identifier recorded at time [now] is still known after any further
    cache operations that record fewer than [maxDedupEntries] other messages
    and sweep no later than [dedupTtl] after it. *)
Lemma remembered os now id r :
  wf r → id ∉ dedup_ r →
  Z.of_nat (length (List.filter is_seen_op os)) < maxDedupEntries (cfg_ r) →
  sweeps_by (now + ms (dedupTtl (cfg_ r))) os →
  id ∈ dedup_ (fold_left cache_step os (seen now id r).2).
Proof.
  intros Hwf Hid Hmax Hsw. pose proof (seen_cfg now id r) as Hcfg.
  destruct (cache_steps_held os (mk_stamp id now) 0 (seen now id r).2) as [n Hn].
  - apply seen_held_new; [done|lia].
  - rewrite Hcfg. lia.
  - by rewrite Hcfg.
  - apply (held_dedup (mk_stamp id now) n); [|done].
    by apply fold_cache_wf, seen_wf.
Qed.

(** ** Runs of the router *)

(** What reaches the router between two looks at it. *)
Inductive input :=
  | InData (now : Z) (view : data_view) (inboundFd : Z)
  | InBroadcast (now : Z) (payload : list byte)
  | InTargeted (now : Z) (dst : peer_id) (payload : list byte)
  | InSweep (now : Z).

Definition handle {F} `{!Forwarder F} (s : t * F) (i : input) : t * F :=
  let '(r, fwd) := s in
  match i with
  | InData now view fd => on_data now view fd r fwd
  | InBroadcast now payload => originate_broadcast now payload r fwd
  | InTargeted now dst payload => originate_targeted now dst payload r fwd
  | InSweep now => (evict_sweep now r, fwd)
  end.

(** The cache operation an input performs on router [r]. *)
Definition cache_ops (r : t) (i : input) : list cache_op :=
  match i with
  | InData now view _ => [OpSeen now (d_msgId view)]
  | InBroadcast now _ => [OpSeen now (next_id r).1]
  | InTargeted now dst _ =>
      if peer_id_eqb dst (self_ r) then [] else [OpSeen now (next_id r).1]
  | InSweep now => [OpSweep now]
  end.

(** The cache of a router, leaving out the identifier counter. *)
Definition same_cache (r1 r2 : t) : Prop :=
  cfg_ r1 = cfg_ r2 ∧ dedup_ r1 = dedup_ r2 ∧ order_ r1 = order_ r2.

#[global] Instance same_cache_equiv : Equivalence same_cache.
Proof.
  split; [by repeat split|intros r1 r2 (?&?&?); by repeat split|].
  intros r1 r2 r3 (?&?&?) (?&?&?). repeat split; congruence.
Qed.

Lemma same_cache_step r1 r2 o : same_cache r1 r2 → same_cache (cache_step r1 o) (cache_step r2 o).
Proof.
  intros (Hc & Hd & Ho). destruct o as [now id|now]; cbn [cache_step];
    unfold seen, evict_sweep, same_cache; rewrite Hc, Hd, Ho.
  - case_bool_decide; [done|]. by destruct (evict_size _ _ _).
  - by destruct (evict_before _ _ _).
Qed.

Lemma same_cache_steps os r1 r2 :
  same_cache r1 r2 → same_cache (fold_left cache_step os r1) (fold_left cache_step os r2).
Proof. revert r1 r2; induction os; simpl; auto using same_cache_step. Qed.

Lemma handle_cache {F} `{!Forwarder F} (r : t) (fwd : F) i :
  same_cache (handle (r, fwd) i).1 (fold_left cache_step (cache_ops r i) r).
Proof.
  destruct i as [now view fd|now payload|now dst payload|now]; cbn [handle cache_ops].
  - rewrite on_data_router. by repeat split.
  - unfold originate_broadcast. destruct (next_id r) as [id r1] eqn:E.
    assert (same_cache r1 r) as H by (injection E as _ <-; by repeat split).
    apply (same_cache_step _ _ (OpSeen now id)) in H. cbn [cache_step fold_left fst] in *.
    by destruct (seen now id r1) as [? ?].
  - unfold originate_targeted. destruct (peer_id_eqb dst (self_ r)); [by repeat split|].
    destruct (next_id r) as [id r1] eqn:E.
    assert (same_cache r1 r) as H by (injection E as _ <-; by repeat split).
    apply (same_cache_step _ _ (OpSeen now id)) in H. cbn [cache_step fold_left fst] in *.
    destruct (seen now id r1) as [? ?]. by destruct (forward_to _ _ _) as [[] ?].
  - by repeat split.
Qed.

(** The cache operations of a whole run. *)
Fixpoint run_ops {F} `{!Forwarder F} (s : t * F) (ins : list input) : list cache_op :=
  match ins with
  | [] => []
  | i :: ins => cache_ops s.1 i ++ run_ops (handle s i) ins
  end.

Lemma run_cache {F} `{!Forwarder F} (s : t * F) ins :
  same_cache (fold_left handle ins s).1 (fold_left cache_step (run_ops s ins) s.1).
Proof.
  revert s; induction ins as [|i ins IH]; intros s; simpl; [by repeat split|].
  rewrite fold_left_app. destruct s as [r fwd]. etrans; [apply IH|].
  apply same_cache_steps, handle_cache.
Qed.

(** Inputs that can record a message, and sweeps that come early enough. *)
Definition is_message (i : input) : bool :=
  match i with InSweep _ => false | _ => true end.

Definition inputs_by (deadline : Z) (ins : list input) : Prop :=
  ∀ now, InSweep now ∈ ins → now ≤ deadline.

Lemma run_ops_messages {F} `{!Forwarder F} (s : t * F) ins :
  (length (List.filter is_seen_op (run_ops s ins)) ≤ length (List.filter is_message ins))%nat.
Proof.
  revert s; induction ins as [|i ins IH]; intros s; cbn [run_ops]; [done|].
  rewrite List.filter_app, length_app. specialize (IH (handle s i)).
  destruct i; simpl in *; try lia. destruct (peer_id_eqb _ _); simpl; lia.
Qed.

Lemma run_ops_sweeps {F} `{!Forwarder F} deadline (s : t * F) ins :
  inputs_by deadline ins → sweeps_by deadline (run_ops s ins).
Proof.
  revert s; induction ins as [|i ins IH]; intros s Hin now; cbn [run_ops]; [by intros ?%elem_of_nil|].
  rewrite elem_of_app. intros [H|H].
  - apply Hin. destruct i; simpl in H; try destruct (peer_id_eqb _ _);
      rewrite ?list_elem_of_singleton, ?elem_of_nil in H; try done.
    injection H as ->. by left.
  - eapply IH; [|done]. intros t Ht. apply Hin. by right.
Qed.

(** [C26] At most once: when a message has been accepted, every later copy of it,
    on whatever link and with whatever remaining hops, leaves the router and
    the outside world exactly as they are, as long as fewer than
    [maxDedupEntries] messages were handled since and no cache sweep ran more
    than [dedupTtl] after it. *)
Theorem duplicate_dropped {F} `{!Forwarder F} (r : t) (fwd : F) now view fd ins now' view' fd' :
  wf r → d_msgId view ∉ dedup_ r →
  Z.of_nat (length (List.filter is_message ins)) < maxDedupEntries (cfg_ r) →
  inputs_by (now + ms (dedupTtl (cfg_ r))) ins →
  d_msgId view' = d_msgId view →
  let s := fold_left handle ins (on_data now view fd r fwd) in
  on_data now' view' fd' s.1 s.2 = s.
Proof.
  intros Hwf Hid Hmax Hin Heq s.
  enough (d_msgId view' ∈ dedup_ s.1) as Hs.
  { unfold on_data. rewrite seen_true by done. by destruct s. }
  subst s. destruct (run_cache (on_data now view fd r fwd) ins) as (_ & -> & _).
  rewrite on_data_router, Heq. apply remembered; [done..| |by apply run_ops_sweeps].
  pose proof (run_ops_messages (on_data now view fd r fwd) ins). lia.
Qed.

(** ** A recording implementation of the forwarder *)

(** The test suite's mock: it logs what the router asks for, and has a direct
    link exactly to the peers in [direct]. *)
Inductive fwd_event :=
  | EvForward (frame : list byte) (exceptFd : Z)
  | EvSend (dst : peer_id) (frame : list byte)
  | EvDeliver (from : peer_id) (payload : list byte).

Record recorder := mk_recorder { direct : list peer_id; log : list fwd_event }.

#[global] Instance recorder_forwarder : Forwarder recorder := {
  forward_except frame fd f := mk_recorder (direct f) (log f ++ [EvForward frame fd]);
  forward_to dst frame f :=
    if bool_decide (dst ∈ direct f)
    then (true, mk_recorder (direct f) (log f ++ [EvSend dst frame])) else (false, f);
  deliver_local from payload f :=
    mk_recorder (direct f) (log f ++ [EvDeliver from payload]);
}.

Definition sample_msg (n : Z) : message_id := mk_message_id (array_of 16 (be_bytes 16 n)).
Definition sample_router : t := make (default_config (sample_id 100)) (sample_id 100) 0 0.
Definition sample_view : data_view :=
  mk_data_view (sample_id 1) peer_id_zero (sample_msg 50) 4 (bytes_of_string "hi").

Lemma wf_make cfg self rd1 rd2 : wf (make cfg self rd1 rd2).
Proof. split; simpl; [set_solver|constructor]. Qed.

Lemma duplicate_dropped_witness :
  let s := on_data 0 sample_view 5 sample_router (mk_recorder [] []) in
  length (log s.2) = 2%nat ∧ on_data 9 sample_view 6 s.1 s.2 = s.
Proof.
  split; [vm_compute; reflexivity|].
  apply (duplicate_dropped sample_router (mk_recorder [] []) 0 sample_view 5 [] 9
    sample_view 6).
  - apply wf_make.
  - apply (bool_decide_unpack _). vm_compute. exact I.
  - vm_compute. reflexivity.
  - intros now H. by apply not_elem_of_nil in H.
  - reflexivity.
Defined.

(** ** The forwarding policy *)

Inductive hop := Flood (exceptFd : Z) | Unicast (dst : peer_id).

(** A message is for this node when it is someone else's broadcast or is
    addressed to it. *)
Definition deliver_here (self : peer_id) (view : data_view) : Prop :=
  if decide (d_dst view = peer_id_zero) then d_src view ≠ self else d_dst view = self.

#[global] Instance deliver_here_dec self view : Decision (deliver_here self view).
Proof. unfold deliver_here. case_decide; apply _. Defined.

(** A message travels on while hops remain and it has not reached its target:
    straight to the target if that is a neighbour, to all other links if not. *)
Definition travels_on (self : peer_id) (direct : list peer_id) (fd : Z) (view : data_view)
    : option hop :=
  if decide (d_ttl view ≤ 1) then None
  else if decide (d_dst view = peer_id_zero) then Some (Flood fd)
  else if decide (d_dst view = self) then None
  else if decide (d_dst view ∈ direct) then Some (Unicast (d_dst view)) else Some (Flood fd).

Definition one_hop_less (view : data_view) : data_view :=
  mk_data_view (d_src view) (d_dst view) (d_msgId view) (d_ttl view - 1) (d_payload view).

Definition sent_on (h : option hop) (frame : list byte) : list fwd_event :=
  match h with
  | None => []
  | Some (Flood fd) => [EvForward frame fd]
  | Some (Unicast dst) => [EvSend dst frame]
  end.

Lemma is_zero_decide id : is_zero id = bool_decide (id = peer_id_zero).
Proof. apply Bool.eq_true_iff_eq. by rewrite is_zero_spec, bool_decide_eq_true. Qed.

Lemma on_data_log now view fd r f :
  d_msgId view ∉ dedup_ r → in_range 8 (d_ttl view) →
  log (on_data now view fd r f).2 = log f ++
    (if decide (deliver_here (self_ r) view)
     then [EvDeliver (d_src view) (d_payload view)] else []) ++
    sent_on (travels_on (self_ r) (direct f) fd view) (encode (MsgData (one_hop_less view))).
Proof.
  intros Hid Httl. unfold in_range in Httl. unfold on_data.
  assert (self_ (seen now (d_msgId view) r).2 = self_ r) as Hself.
  { unfold seen. case_bool_decide; [done|]. by destruct (evict_size _ _ _). }
  pose proof (seen_fresh now _ r Hid) as Hdup.
  destruct (seen now (d_msgId view) r) as [dup r']. simpl in Hself, Hdup. subst dup.
  rewrite !peer_id_eqb_decide, is_zero_decide, Hself.
  unfold travels_on, deliver_here. cbn [encode one_hop_less d_src d_dst d_msgId d_ttl d_payload].
  destruct (Z.ltb_spec 1 (d_ttl view)); [rewrite wrap_small by (unfold in_range; lia)|];
    repeat (case_decide || case_bool_decide); simpl;
    try case_bool_decide; rewrite <-?(assoc_L (++)), ?app_nil_r; try done; try lia.
Qed.

(** [C27] The forwarding policy of an accepted message, whatever the forwarder
    holds: it is handed to the application once if it is for this node; it
    travels on exactly when more than one hop remains and it is not yet at its
    target, to the target alone if that is a neighbour and otherwise to every
    link but the one it came in on; and the frame that goes out decodes to the
    same message with one hop less. *)
Theorem on_data_policy now view fd r f max :
  d_msgId view ∉ dedup_ r → in_range 8 (d_ttl view) → fits max (MsgData view) →
  let frame := encode (MsgData (one_hop_less view)) in
  log (on_data now view fd r f).2 = log f ++
    (if decide (deliver_here (self_ r) view)
     then [EvDeliver (d_src view) (d_payload view)] else []) ++
    sent_on (travels_on (self_ r) (direct f) fd view) frame ∧
  (travels_on (self_ r) (direct f) fd view ≠ None →
   ∃ n, try_decode_frame frame max parsed_frame_zero 0 =
     (Ok, received parsed_frame_zero (MsgData (one_hop_less view)), n)).
Proof.
  intros Hid Httl Hfit frame. split; [by apply on_data_log|].
  unfold travels_on. case_decide; [done|]. intros _.
  eexists. subst frame. rewrite <-(app_nil_r (encode _)).
  apply decode_encode; [unfold in_range in *; simpl; unfold in_range; lia|].
  unfold fits in *. by rewrite length_body_data in *.
Qed.

Lemma on_data_policy_witness :
  log (on_data 0 sample_view 5 sample_router (mk_recorder [] [])).2 =
  [EvDeliver (sample_id 1) (bytes_of_string "hi");
   EvForward (encode (MsgData (one_hop_less sample_view))) 5].
Proof.
  destruct (on_data_policy 0 sample_view 5 sample_router (mk_recorder [] []) 1024)
    as [H _].
  - apply (bool_decide_unpack _). vm_compute. exact I.
  - vm_compute. split; congruence.
  - vm_compute. split; congruence.
  - exact H.
Defined.

(** ** Minted identifiers *)

Lemma next_id_bytes r :
  elems (msg_bytes (next_id r).1) =
  take 8 (elems (bytes (self_ r))) ++ be_bytes 8 (wrap 64 (counter_ r + 1)).
Proof.
  unfold next_id. cbn [fst msg_bytes]. rewrite elems_array_of_exact; [done|].
  rewrite length_app, length_take, length_elems. done.
Qed.

(** The identifiers of [n] consecutive originations. *)
Fixpoint mint (n : nat) (r : t) : list message_id :=
  match n with
  | O => []
  | S n => (next_id r).1 :: mint n (next_id r).2
  end.

Lemma mint_lookup n r i :
  (i < n)%nat → ∃ id, mint n r !! i = Some id ∧
    elems (msg_bytes id) = take 8 (elems (bytes (self_ r))) ++
      be_bytes 8 (wrap 64 (counter_ r + Z.of_nat i + 1)).
Proof.
  revert r i; induction n as [|n IH]; intros r i Hi; [lia|]. destruct i as [|i].
  - eexists. split; [done|]. rewrite next_id_bytes. do 3 f_equal. lia.
  - destruct (IH (next_id r).2 i ltac:(lia)) as (id & Hid & Hb).
    exists id. split; [done|]. rewrite Hb. cbn [next_id snd self_ counter_].
    do 2 f_equal. unfold wrap. rewrite <-Z.add_assoc, Zplus_mod_idemp_l.
    f_equal. lia.
Qed.

Lemma length_mint n r : length (mint n r) = n.
Proof. revert r; induction n as [|n IH]; intros r; simpl; [done|]. by rewrite IH. Qed.

(** The identifiers a node mints are pairwise distinct for the first
    [2^64] messages, whatever the random seed of its counter, and never equal to
    one minted by a node whose identifier differs in its first eight bytes. *)
Theorem minted_ids_unique n r :
  Z.of_nat n ≤ 2 ^ 64 →
  NoDup (mint n r) ∧
  ∀ r' id, take 8 (elems (bytes (self_ r'))) ≠ take 8 (elems (bytes (self_ r))) →
    id ∈ mint n r' → id ∉ mint n r.
Proof.
  intros Hn. split.
  - apply NoDup_alt. intros i j id Hi Hj.
    pose proof (lookup_lt_Some _ _ _ Hi) as Hil. pose proof (lookup_lt_Some _ _ _ Hj) as Hjl.
    rewrite length_mint in *.
    destruct (mint_lookup n r i Hil) as (id1 & H1 & E1).
    destruct (mint_lookup n r j Hjl) as (id2 & H2 & E2).
    simplify_eq. rewrite E1 in E2. apply app_inj_1 in E2 as [_ E]; [|done].
    apply be_bytes_inj in E; [|by apply (wrap_range 64)..].
    unfold wrap in E. apply Nat2Z.inj.
    set (c := counter_ r + 1) in *.
    replace (counter_ r + Z.of_nat i + 1) with (c + Z.of_nat i) in E by lia.
    replace (counter_ r + Z.of_nat j + 1) with (c + Z.of_nat j) in E by lia.
    pose proof (Z.div_mod (c + Z.of_nat i) (2 ^ 64)).
    pose proof (Z.div_mod (c + Z.of_nat j) (2 ^ 64)). lia.
  - intros r' id Hne H1 H2. apply list_elem_of_lookup in H1 as [i Hi].
    apply list_elem_of_lookup in H2 as [j Hj].
    pose proof (lookup_lt_Some _ _ _ Hi) as Hil. pose proof (lookup_lt_Some _ _ _ Hj) as Hjl.
    rewrite length_mint in *.
    destruct (mint_lookup n r' i Hil) as (id1 & H1 & E1).
    destruct (mint_lookup n r j Hjl) as (id2 & H2 & E2).
    simplify_eq. rewrite E1 in E2. apply app_inj_1 in E2 as [E _]; [done|].
    rewrite !length_take, !length_elems. done.
Qed.

Lemma minted_ids_unique_witness : NoDup (mint 3 sample_router).
Proof. apply (minted_ids_unique 3 sample_router). vm_compute. congruence. Defined.

(** ** The eviction timer *)

Section eviction_timer.

(** Every other timer of the loop, and the state next to the router's. *)
Context {O X : Type}.

(** The callbacks of the loop: the two lambdas of [start], and the rest. *)
Inductive loop_cb := FirstSweep (period : Z) | LaterSweep | Other (o : O).

Abbreviation loop_prog := (event_loop.prog (CB:=loop_cb) (W:=t * X)).

Definition start (r : t) (x : X) : loop_prog :=
  let period := Z.quot (dedupTtl (cfg_ r)) 4 in
  let period := if period <=? 0 then 1000 else period in
  event_loop.AddTimer (ms period) (Some (FirstSweep period)) (λ _, event_loop.Ret (r, x)).

Variable other : O → t * X → loop_prog.

Definition on_timer (c : loop_cb) (w : t * X) : loop_prog :=
  match c with
  | FirstSweep period =>
      event_loop.Now (λ now, event_loop.AddTimer (ms period) (Some LaterSweep)
        (λ _, event_loop.Ret (evict_sweep now w.1, w.2)))
  | LaterSweep => event_loop.Now (λ now, event_loop.Ret (evict_sweep now w.1, w.2))
  | Other o => other o w
  end.

Definition is_sweep (c : loop_cb) : bool :=
  match c with FirstSweep _ | LaterSweep => true | Other _ => false end.

Definition sweep_weight (c : loop_cb) : Z :=
  match c with FirstSweep _ => 2 | LaterSweep => 1 | Other _ => 0 end.

(** The rest of the program does not arm the router's callbacks. *)
Definition arms_no_sweep (p : loop_prog) : Prop := event_loop.spends sweep_weight 0 p.

(** [C40] The eviction of old identifiers stops after two sweeps: [start] arms
    one sweep, whose callback arms a second one, whose callback arms nothing.
    However long the loop runs and whatever the other handlers and timers do,
    [evict_sweep] runs at most twice, so from then on only the size cap
    [maxDedupEntries] ever removes an identifier. *)
Theorem at_most_two_sweeps {EV} clk (io : EV → t * X → loop_prog) wake fuel script r x :
  (∀ o w, arms_no_sweep (other o w)) → (∀ h w, arms_no_sweep (io h w)) →
  (∀ h w, wake = Some h → arms_no_sweep (h w)) →
  let s0 := (event_loop.exec clk (start r x) event_loop.init).2 in
  let s := (event_loop.run clk on_timer io wake fuel script (r, x) s0).2 in
  (length (filter (λ f, is_sweep (event_loop.f_cb f) = true) (event_loop.history s)) <= 2)%nat.
Proof.
  intros Hother Hio Hwake s0 s.
  pose proof (event_loop.run_fired clk on_timer io wake sweep_weight is_sweep) as Hrun.
  assert (event_loop.fired is_sweep s <= event_loop.total sweep_weight is_sweep s0) as H.
  { apply Hrun; [by intros []| |done|done]. intros [p| |o] w; simpl; try lia. apply Hother. }
  unfold event_loop.fired in H. change (event_loop.total sweep_weight is_sweep s0) with 2 in H.
  lia.
Qed.

End eviction_timer.

(** A loop with only the router's timers, run long after both deadlines. *)
Lemma at_most_two_sweeps_witness :
  let r := make (default_config (sample_id 100)) (sample_id 100) 0 0 in
  let clk := λ n, ms (40000 * Z.of_nat n) in
  let io := λ (h : unit) (w : t * unit), event_loop.Ret (CB:=@loop_cb unit) w in
  let other := λ (o : unit) (w : t * unit), event_loop.Ret (CB:=@loop_cb unit) w in
  let s0 := (event_loop.exec clk (start r tt) event_loop.init).2 in
  let s := (event_loop.run clk (on_timer other) io None 5
    (replicate 6 (event_loop.Ready [])) (r, tt) s0).2 in
  length (event_loop.history s) = 2%nat ∧
  (length (filter (λ f, is_sweep (event_loop.f_cb f) = true) (event_loop.history s)) <= 2)%nat.
Proof.
  intros r clk io other s0 s. split; [vm_compute; reflexivity|].
  apply (at_most_two_sweeps other clk io None 5 (replicate 6 (event_loop.Ready [])) r tt).
  - intros o w. unfold arms_no_sweep. simpl. lia.
  - intros h w. unfold arms_no_sweep. simpl. lia.
  - intros h w H. discriminate H.
Defined.

End gossip_router.
