(* ===== verification/Network.v ===== *)
(** * A network of routers

    The routers of several nodes (Gossip.v) joined by links: what one node's
    [forward_except] and [forward_to] hand to its connections travels as bytes
    and reaches the other end's [on_data] through the decoder (Wire.v).
    Packets are delivered in any order.  The theorem is what flooding is for:
    a broadcast reaches every node that a path of links leads to, exactly once,
    and the flood ends, provided the hop limit is not smaller than the number
    of other nodes. *)
From Stdlib Require Import ZArith Lia.
From Stdlib.Strings Require Import Byte.
From stdpp Require Import base gmap sets list strings numbers option relations.
From S2P Require Import Prelude PeerId Wire WireFacts Config Gossip.

Module network.

Record packet := mk_packet { p_from : peer_id; p_to : peer_id; p_frame : list byte }.

#[global] Instance packet_eq_dec : EqDecision packet.
Proof. solve_decision. Defined.

(** What is on the links, and what the applications were given: where, from
    whom, and what. *)
Record world := mk_world {
  inflight : list packet;
  delivered : list (peer_id * (peer_id * list byte));
}.

Record t := mk { routers : gmap peer_id gossip_router.t; wire : world }.

Section topology.

(** The neighbours of each node and the socket by which it knows each. *)
Context (links : peer_id → list peer_id) (fd_of : peer_id → peer_id → Z).

(** The node [u] as the router's forwarder: [peer_manager] over its table of
    established connections. *)
#[local] Instance node_forwarder (u : peer_id) : Forwarder world := {|
  forward_except frame exceptFd w :=
    mk_world (inflight w ++ map (λ v, mk_packet u v frame)
                (filter (λ v, fd_of u v ≠ exceptFd) (links u))) (delivered w);
  forward_to dst frame w :=
    if bool_decide (dst ∈ links u)
    then (true, mk_world (inflight w ++ [mk_packet u dst frame]) (delivered w)) else (false, w);
  deliver_local from payload w := mk_world (inflight w) (delivered w ++ [(u, (from, payload))]);
|}.

(** Node [u] broadcasts. *)
Definition originate (u : peer_id) (now : Z) (payload : list byte) (s : t) : option t :=
  r ← routers s !! u;
  let '(r, w) := @gossip_router.originate_broadcast world (node_forwarder u) now payload r (wire s) in
  Some (mk (<[u := r]> (routers s)) w).

(** The packet [pk] arrives: the connection's parser hands data frames to the
    router, with the socket they came in on. *)
Definition receive (max now : Z) (pk : packet) (s : t) : t :=
  match routers s !! p_to pk with
  | None => s
  | Some r =>
      match try_decode_frame (p_frame pk) max parsed_frame_zero 0 with
      | (Ok, pf, _) =>
          if bool_decide (pf_type pf = Data) then
            let '(r, w) := @gossip_router.on_data world (node_forwarder (p_to pk)) now (pf_data pf)
                             (fd_of (p_to pk) (p_from pk)) r (wire s) in
            mk (<[p_to pk := r]> (routers s)) w
          else s
      | _ => s
      end
  end.

(** Some packet on some link arrives next. *)
Definition deliver (max : Z) (k : nat) (now : Z) (s : t) : option t :=
  pk ← inflight (wire s) !! k;
  Some (receive max now pk
          (mk (routers s) (mk_world (delete k (inflight (wire s))) (delivered (wire s))))).

Fixpoint run (max : Z) (l : list (nat * Z)) (s : t) : option t :=
  match l with
  | [] => Some s
  | (k, now) :: l => s' ← deliver max k now s; run max l s'
  end.

(** ** Flooding *)

Definition link (a b : peer_id) : Prop := b ∈ links a.

(** What the application at [v] was given. *)
Definition given (v : peer_id) (s : t) : list (peer_id * list byte) :=
  map snd (filter (λ x, x.1 = v) (delivered (wire s))).

(** The packets a flood has left to send, at most. *)
Definition degrees (X : gset peer_id) : nat := sum_list_with (λ v, length (links v)) (elements X).

Lemma degrees_remove X v : v ∈ X → degrees X = (length (links v) + degrees (X ∖ {[v]}))%nat.
Proof.
  intros Hv. unfold degrees. rewrite (union_difference_singleton_L v X Hv) at 1.
  rewrite elements_union_singleton by set_solver. done.
Qed.

Context (fd_inj : ∀ v a b, fd_of v a = fd_of v b → a = b).

(** The router [r] of node [v], which knows the message if [v] is in [X]. *)
Definition node_ok (mid : message_id) (X : gset peer_id) (v : peer_id) (r : gossip_router.t) : Prop :=
  gossip_router.self_ r = v ∧ gossip_router.wf r ∧
  0 < maxDedupEntries (gossip_router.cfg_ r) ∧ (mid ∈ gossip_router.dedup_ r ↔ v ∈ X).

(** Recording the message at [v]. *)
Lemma seen_node_ok mid X now v r : node_ok mid X v r → v ∉ X →
  node_ok mid ({[v]} ∪ X) v (gossip_router.seen now mid r).2.
Proof.
  intros (H1 & H2 & H3 & H4) Hv. assert (mid ∉ gossip_router.dedup_ r) as Hd by by rewrite H4.
  split_and!.
  - rewrite <-H1. unfold gossip_router.seen. rewrite bool_decide_false by done.
    by destruct (gossip_router.evict_size _ _ _).
  - by apply gossip_router.seen_wf.
  - by rewrite gossip_router.seen_cfg.
  - split; [set_solver|]. intros _.
    apply (gossip_router.held_dedup (gossip_router.mk_stamp mid now) 0);
      [by apply gossip_router.seen_wf|by apply gossip_router.seen_held_new].
Qed.

Lemma nodes_ok_insert mid X v r (rs : gmap peer_id gossip_router.t) :
  (∀ x r, rs !! x = Some r → node_ok mid X x r) → node_ok mid ({[v]} ∪ X) v r →
  ∀ x r', <[v := r]> rs !! x = Some r' → node_ok mid ({[v]} ∪ X) x r'.
Proof.
  intros Hrs Hr x r' [[<- <-]|[Hne Hx]]%lookup_insert_Some; [done|].
  destruct (Hrs _ _ Hx) as (? & ? & ? & Hm). split_and!; try done. rewrite Hm. set_solver.
Qed.

Section flood.

(** A message: its origin, identifier, hop limit and payload; the nodes of the
    network; the receivers' limit. *)
Context (u : peer_id) (mid : message_id) (T : Z) (payload : list byte) (nodes : gset peer_id).
Context (max : Z).

Definition view (ttl : Z) : data_view := mk_data_view u peer_id_zero mid ttl payload.

(** A packet of the flood while [n] nodes have the message. *)
Definition packet_ok (X : gset peer_id) (pk : packet) : Prop :=
  p_from pk ∈ X ∧ link (p_from pk) (p_to pk) ∧
  ∃ ttl, p_frame pk = encode (MsgData (view ttl)) ∧ 1 ≤ ttl ≤ 255 ∧ T - Z.of_nat (size X) + 1 ≤ ttl.

(** The flood has reached exactly the nodes of [X]. *)
Record flooded (X : gset peer_id) (s : t) : Prop := {
  fl_dom : dom (routers s) = nodes;
  fl_node v r : routers s !! v = Some r → node_ok mid X v r;
  fl_origin : u ∈ X;
  fl_nodes : X ⊆ nodes;
  fl_reach v : v ∈ X → rtc link u v;
  fl_packets : Forall (packet_ok X) (inflight (wire s));
  fl_covered a b : a ∈ X → link a b →
    b ∈ X ∨ ∃ pk, pk ∈ inflight (wire s) ∧ p_from pk = a ∧ p_to pk = b;
  fl_given v : given v s = if decide (v ∈ X ∧ v ≠ u) then [(u, payload)] else [];
}.

Context (closed : ∀ a b, a ∈ nodes → link a b → b ∈ nodes).
Context (hops : Z.of_nat (size nodes) ≤ T + 1).
Context (limit : ∀ ttl, fits max (MsgData (view ttl))).

Lemma decode_view ttl : 1 ≤ ttl ≤ 255 →
  ∃ n, try_decode_frame (encode (MsgData (view ttl))) max parsed_frame_zero 0 =
    (Ok, received parsed_frame_zero (MsgData (view ttl)), n).
Proof.
  intros Ht. eexists. rewrite <-(app_nil_r (encode _)). apply decode_encode; [|apply limit].
  simpl. unfold in_range. lia.
Qed.

(** A copy that arrives where the message is known changes nothing. *)
Lemma receive_known X now pk s r :
  packet_ok X pk → routers s !! p_to pk = Some r → mid ∈ gossip_router.dedup_ r →
  receive max now pk s = s.
Proof.
  intros (_ & _ & ttl & Hf & Ht & _) Hr Hd. unfold receive. rewrite Hr, Hf.
  destruct (decode_view ttl Ht) as [n ->]. rewrite bool_decide_true by done. simpl.
  unfold gossip_router.on_data. simpl. rewrite gossip_router.seen_true by done.
  rewrite insert_id by done. by destruct s.
Qed.

(** The first copy is delivered and, while hops are left, passed on to all
    neighbours but the sender. *)
Lemma receive_new X now pk s r :
  packet_ok X pk → routers s !! p_to pk = Some r → mid ∉ gossip_router.dedup_ r →
  gossip_router.self_ r = p_to pk → p_to pk ≠ u →
  ∃ ttl, 1 ≤ ttl ≤ 255 ∧ T - Z.of_nat (size X) + 1 ≤ ttl ∧
  receive max now pk s =
    mk (<[p_to pk := (gossip_router.seen now mid r).2]> (routers s))
      (mk_world (inflight (wire s) ++
         (if 1 <? ttl then map (λ b, mk_packet (p_to pk) b (encode (MsgData (view (ttl - 1)))))
            (filter (λ b, fd_of (p_to pk) b ≠ fd_of (p_to pk) (p_from pk)) (links (p_to pk)))
          else []))
         (delivered (wire s) ++ [(p_to pk, (u, payload))])).
Proof.
  intros (_ & _ & ttl & Hf & Ht & Hb) Hr Hd Hs Hu. exists ttl. split; [done|]. split; [done|].
  unfold receive. rewrite Hr, Hf.
  destruct (decode_view ttl Ht) as [n ->]. rewrite bool_decide_true by done. simpl.
  unfold gossip_router.on_data. simpl.
  pose proof (gossip_router.seen_fresh now mid r Hd) as Hn.
  assert (gossip_router.self_ (gossip_router.seen now mid r).2 = p_to pk) as Hs'.
  { unfold gossip_router.seen. rewrite bool_decide_false by done. by destruct (gossip_router.evict_size _ _ _). }
  destruct (gossip_router.seen now mid r) as [dup r']. simpl in Hn, Hs'. subst dup.
  rewrite Hs'. rewrite (proj2 (peer_id_eqb_neq u (p_to pk))) by done. cbn [negb].
  change (is_zero peer_id_zero) with true. cbn iota. unfold wrap.
  destruct (1 <? ttl) eqn:E1; [|by rewrite app_nil_r].
  rewrite Z.mod_small by lia. done.
Qed.

Definition drop_packet (k : nat) (s : t) : t :=
  mk (routers s) (mk_world (delete k (inflight (wire s))) (delivered (wire s))).

Lemma elem_of_delete_other (l : list packet) k pk x :
  l !! k = Some pk → x ∈ l → x ≠ pk → x ∈ delete k l.
Proof.
  intros (l1 & l2 & -> & ->)%list_elem_of_split_length. rewrite delete_middle, !elem_of_app, elem_of_cons.
  naive_solver.
Qed.

Lemma delete_Forall (P : packet → Prop) l k : Forall P l → Forall P (delete k l).
Proof. intros Hl. rewrite delete_take_drop. apply Forall_app. split; [by apply Forall_take|by apply Forall_drop]. Qed.

(** A packet to a node of [X] can be dropped. *)
Lemma drop_known X k pk s : flooded X s → inflight (wire s) !! k = Some pk → p_to pk ∈ X →
  flooded X (drop_packet k s).
Proof.
  intros [H1 H2 H6 H7 H8 H9 H10 H11] Hk Hto. split; try done.
  - by apply delete_Forall.
  - intros a b Ha Hab. destruct (H10 a b Ha Hab) as [Hb|(x & Hx & Hf & Ht)]; [by left|].
    destruct (decide (b ∈ X)) as [|Hn]; [by left|right]. exists x. split_and!; try done.
    apply (elem_of_delete_other _ _ pk); [done..|]. intros ->. by subst b.
Qed.

(** What a new node [v] sends on, having got the message from [a] with [ttl]
    hops left. *)
Definition passed_on (v a : peer_id) (ttl : Z) : list packet :=
  if 1 <? ttl then map (λ b, mk_packet v b (encode (MsgData (view (ttl - 1)))))
    (filter (λ b, fd_of v b ≠ fd_of v a) (links v))
  else [].

Lemma passed_on_ok X v a ttl : v ∉ X → 1 ≤ ttl ≤ 255 → T - Z.of_nat (size X) + 1 ≤ ttl →
  Forall (packet_ok ({[v]} ∪ X)) (passed_on v a ttl).
Proof.
  intros Hv Ht Hb. unfold passed_on. destruct (Z.ltb_spec 1 ttl); [|constructor].
  apply Forall_forall. intros x (b & -> & [_ Hin]%list_elem_of_filter)%list_elem_of_fmap.
  split; [set_solver|]. split; [done|]. exists (ttl - 1).
  rewrite size_union, size_singleton by set_solver. split_and!; [done|lia|lia|lia].
Qed.

Lemma packet_ok_grow X v pk : v ∉ X → packet_ok X pk → packet_ok ({[v]} ∪ X) pk.
Proof.
  intros Hv (Hx1 & Hx2 & ttl & Hx3 & Hx4 & Hx5). split; [set_solver|]. split; [done|].
  exists ttl. rewrite size_union, size_singleton by set_solver. split_and!; [done|lia|lia|lia].
Qed.

(** Whoever [v] does not send to has the message: the sender, or, when no hops
    are left, everyone. *)
Lemma passed_on_covers X v a b ttl : v ∉ X → v ∈ nodes → X ⊆ nodes → a ∈ X →
  T - Z.of_nat (size X) + 1 ≤ ttl → link v b →
  b ∈ {[v]} ∪ X ∨ ∃ pk, pk ∈ passed_on v a ttl ∧ p_from pk = v ∧ p_to pk = b.
Proof.
  intros Hv Hvn HX Ha Hb Hl. destruct (decide (b ∈ {[v]} ∪ X)) as [|Hb']; [by left|right].
  unfold passed_on. destruct (Z.ltb_spec 1 ttl) as [H1|H1].
  - exists (mk_packet v b (encode (MsgData (view (ttl - 1))))). split_and!; try done.
    apply list_elem_of_fmap. exists b. split; [done|].
    apply list_elem_of_filter. split; [|done]. intros E%fd_inj. set_solver.
  - exfalso. apply Hb'. assert ({[v]} ∪ X = nodes) as ->; [|by eapply closed].
    apply set_subseteq_size_eq; [set_solver|].
    rewrite size_union, size_singleton by set_solver. lia.
Qed.

(** The flood takes a step to a new node. *)
Lemma infect X k now pk s r : flooded X s → inflight (wire s) !! k = Some pk →
  routers s !! p_to pk = Some r → p_to pk ∉ X →
  flooded ({[p_to pk]} ∪ X) (receive max now pk (drop_packet k s)) ∧
  (length (inflight (wire (receive max now pk (drop_packet k s)))) <
   length (inflight (wire s)) + length (links (p_to pk)))%nat.
Proof.
  intros Hfl Hk Hr Hto. destruct Hfl as [H1 H2 H6 H7 H8 H9 H10 H11].
  assert (packet_ok X pk) as Hpk by (rewrite Forall_lookup in H9; by eapply H9).
  assert (p_to pk ≠ u) as Hu by (intros E; by rewrite E in Hto).
  assert (p_to pk ∈ nodes) as Hvn by (rewrite <-H1; apply elem_of_dom; by eexists).
  pose proof (H2 _ _ Hr) as Hok. pose proof Hok as (Hself & _ & _ & Hd).
  destruct (receive_new X now pk (drop_packet k s) r Hpk Hr ltac:(by rewrite Hd) Hself Hu)
    as (ttl & Ht & Hb & ->). destruct Hpk as (Hfrom & Hlink & _).
  fold (passed_on (p_to pk) (p_from pk) ttl). split.
  - split; cbn [routers wire inflight delivered drop_packet].
    + rewrite dom_insert_L, H1. set_solver.
    + apply nodes_ok_insert; [done|by apply seen_node_ok].
    + by apply elem_of_union_r.
    + apply union_subseteq. split; [by apply singleton_subseteq_l|done].
    + intros x [->%elem_of_singleton|Hx]%elem_of_union; [|by apply H8]. eapply rtc_r; [by apply H8|done].
    + apply Forall_app. split; [|by apply passed_on_ok]. apply delete_Forall.
      eapply list.Forall_impl; [exact H9|]. intros x. by apply packet_ok_grow.
    + intros a b [->%elem_of_singleton|Ha]%elem_of_union Hab.
      * destruct (passed_on_covers X (p_to pk) (p_from pk) b ttl) as [?|(x & Hx & ? & ?)]; try done; [by left|].
        right. exists x. split_and!; [|done|done]. apply elem_of_app. by right.
      * destruct (H10 a b Ha Hab) as [?|(x & Hx & Hxf & Hxt)]; [by left; apply elem_of_union_r|].
        destruct (decide (b ∈ {[p_to pk]} ∪ X)) as [|Hb']; [by left|right]. exists x.
        split_and!; [|done|done]. apply elem_of_app. left. apply (elem_of_delete_other _ _ pk); [done..|].
        intros ->. apply Hb'. rewrite Hxt. by apply elem_of_union_l, elem_of_singleton.
    + intros x. unfold given. cbn [wire delivered].
      rewrite list.filter_app, map_app. etrans; [apply f_equal2; [exact (H11 x)|reflexivity]|].
      destruct (decide (x = p_to pk)) as [->|Hne].
      * rewrite filter_cons_True by done. rewrite decide_False by tauto. rewrite decide_True; [done|].
        split; [by apply elem_of_union_l, elem_of_singleton|done].
      * rewrite filter_cons_False by (simpl; congruence). rewrite app_nil_r. apply decide_ext. set_solver.
  - cbn [routers wire inflight delivered drop_packet]. rewrite length_app, length_delete by (by eexists).
    pose proof (lookup_lt_Some _ _ _ Hk). unfold passed_on. destruct (1 <? ttl); [|simpl; lia].
    rewrite length_map. pose proof (length_filter (λ b, fd_of (p_to pk) b ≠ fd_of (p_to pk) (p_from pk)) (links (p_to pk))). lia.
Qed.

(** Every delivery uses up a packet; a new node adds at most one per link. *)
Definition left (X : gset peer_id) (s : t) : nat :=
  degrees (nodes ∖ X) + length (inflight (wire s)).

Lemma deliver_flooded X k now s s' : flooded X s → deliver max k now s = Some s' →
  ∃ X', flooded X' s' ∧ (left X' s' < left X s)%nat.
Proof.
  intros Hfl (pk & Hk & [= <-])%bind_Some. fold (drop_packet k s).
  pose proof (lookup_lt_Some _ _ _ Hk) as Hlt.
  pose proof Hfl as [H1 H2 H6 H7 H8 H9 H10 H11].
  assert (packet_ok X pk) as Hpk by (rewrite Forall_lookup in H9; by eapply H9).
  pose proof Hpk as (Hfrom & Hlink & _).
  assert (p_to pk ∈ nodes) as Hn by (eapply closed; [by apply H7|done]).
  destruct (proj1 (elem_of_dom (routers s) (p_to pk)) ltac:(by rewrite H1)) as [r Hr].
  destruct (decide (p_to pk ∈ X)) as [Hto|Hto].
  - exists X. rewrite (receive_known X now pk (drop_packet k s) r Hpk Hr) by (by apply (H2 _ _ Hr)).
    split; [by eapply drop_known|]. unfold left. simpl. rewrite length_delete by (by eexists). lia.
  - destruct (infect X k now pk s r Hfl Hk Hr Hto) as [Hfl' Hlen]. eexists. split; [exact Hfl'|].
    unfold left. rewrite (degrees_remove (nodes ∖ X) (p_to pk)) by set_solver.
    replace (nodes ∖ ({[p_to pk]} ∪ X)) with (nodes ∖ X ∖ {[p_to pk]}) by set_solver. lia.
Qed.

Lemma run_flooded l : ∀ X s s', flooded X s → run max l s = Some s' →
  ∃ X', flooded X' s' ∧ (length l + left X' s' ≤ left X s)%nat.
Proof.
  induction l as [|[k now] l IH]; intros X s s' Hfl; simpl.
  - intros [= <-]. exists X. split; [done|lia].
  - intros (s1 & Hd & Hr)%bind_Some. destruct (deliver_flooded X k now s s1 Hfl Hd) as (X1 & Hfl1 & Hl1).
    destruct (IH X1 s1 s' Hfl1 Hr) as (X2 & Hfl2 & Hl2). exists X2. split; [done|lia].
Qed.

(** Once nothing is on the links, the flood has reached the whole component. *)
Lemma quiet_component X s : flooded X s → inflight (wire s) = [] → ∀ v, v ∈ X ↔ rtc link u v.
Proof.
  intros [H1 H2 H6 H7 H8 H9 H10 H11] Hq v. split; [apply H8|].
  revert v. apply rtc_ind_r; [done|]. intros v w _ Hvw IH.
  destruct (H10 v w IH Hvw) as [?|(pk & Hpk & _)]; [done|]. by rewrite Hq, elem_of_nil in Hpk.
Qed.

End flood.

(** A network at rest, all of whose nodes may take the message [mid]. *)
Record ready (mid : message_id) (s : t) : Prop := {
  rd_quiet : wire s = mk_world [] [];
  rd_closed a b : is_Some (routers s !! a) → link a b → is_Some (routers s !! b);
  rd_node v r : routers s !! v = Some r → node_ok mid ∅ v r;
}.

Lemma originate_flooded u now payload s s0 r0 :
  routers s !! u = Some r0 → ready (gossip_router.next_id r0).1 s →
  1 ≤ initialTtl (gossip_router.cfg_ r0) ≤ 255 → (∀ b, fd_of u b ≠ -1) →
  originate u now payload s = Some s0 →
  flooded u (gossip_router.next_id r0).1 (initialTtl (gossip_router.cfg_ r0)) payload
    (dom (routers s)) {[u]} s0 ∧ (length (inflight (wire s0)) ≤ length (links u))%nat.
Proof.
  intros Hu [H1 H2 H3] Ht Hfd. unfold originate. rewrite Hu, H1. cbn [mbind option_bind].
  unfold gossip_router.originate_broadcast. set (mid := (gossip_router.next_id r0).1).
  assert (node_ok mid ({[u]} ∪ ∅) u (gossip_router.seen now mid (gossip_router.next_id r0).2).2) as Hn.
  { apply seen_node_ok; [|set_solver]. destruct (H3 _ _ Hu) as (? & ? & ? & ?).
    split_and!; [done|by apply gossip_router.next_id_wf|done|done]. }
  assert (gossip_router.cfg_ (gossip_router.seen now mid (gossip_router.next_id r0).2).2 =
    gossip_router.cfg_ r0) as Hc by (by rewrite gossip_router.seen_cfg).
  destruct (gossip_router.next_id r0) as [mid' r1] eqn:E. subst mid. cbn [fst snd] in *.
  destruct (gossip_router.seen now mid' r1) as [dup r2]. cbn [snd] in *.
  destruct Hn as (Hs & Hn). rewrite Hs, Hc. intros [= <-].
  rewrite (right_id_L ∅ (∪)) in Hn. cbn [forward_except node_forwarder inflight delivered app].
  rewrite (filter_all _ (links u)) by (apply Forall_true; intros; apply Hfd).
  split; [|cbn [wire inflight]; by rewrite length_map].
  split; cbn [routers wire inflight delivered].
  - rewrite dom_insert_L. assert (u ∈ dom (routers s)) by (apply elem_of_dom; by eexists). set_solver.
  - intros v r Hv. rewrite <-(right_id_L ∅ (∪) {[u]}). revert v r Hv.
    apply nodes_ok_insert; [done|]. by rewrite (right_id_L ∅ (∪)).
  - set_solver.
  - apply singleton_subseteq_l, elem_of_dom. by eexists.
  - by intros v ->%elem_of_singleton.
  - apply Forall_forall. intros pk (b & -> & Hb)%list_elem_of_fmap. split; [set_solver|].
    split; [done|]. exists (initialTtl (gossip_router.cfg_ r0)). rewrite size_singleton.
    split_and!; [done|lia|lia|lia].
  - intros a b ->%elem_of_singleton Hb. right.
    eexists (mk_packet u b _). split; [|done]. apply list_elem_of_fmap. by exists b.
  - intros v. unfold given. simpl. rewrite decide_False; [done|]. set_solver.
Qed.

(** Flooding works: when a node of a network at rest broadcasts, and its
    hop limit is at least the number of other nodes, then in whatever order the
    packets arrive, the flood ends after at most one packet per direction of a
    link; no application is given the message twice or by mistake; and when no
    packet is left, every node that a path of links leads to has been given it
    exactly once, with its origin. *)
Theorem flood_reaches_all u now payload max s s0 s' r0 l :
  routers s !! u = Some r0 → ready (gossip_router.next_id r0).1 s →
  1 ≤ initialTtl (gossip_router.cfg_ r0) ≤ 255 → (∀ b, fd_of u b ≠ -1) →
  Z.of_nat (size (dom (routers s))) ≤ initialTtl (gossip_router.cfg_ r0) + 1 →
  (∀ ttl, fits max (MsgData (view u (gossip_router.next_id r0).1 payload ttl))) →
  originate u now payload s = Some s0 → run max l s0 = Some s' →
  (length l ≤ degrees (dom (routers s)))%nat ∧
  (∀ v, given v s' = [] ∨ (v ≠ u ∧ rtc link u v ∧ given v s' = [(u, payload)])) ∧
  (inflight (wire s') = [] → ∀ v, v ≠ u → rtc link u v → given v s' = [(u, payload)]).
Proof.
  intros Hu Hrd Ht Hfd Hh Hfit Ho Hr.
  destruct (originate_flooded u now payload s s0 r0 Hu Hrd Ht Hfd Ho) as [Hfl Hlen].
  assert (∀ a b, a ∈ dom (routers s) → link a b → b ∈ dom (routers s)) as Hcl.
  { intros a b. rewrite !elem_of_dom. apply Hrd. }
  destruct (run_flooded u _ _ payload _ max Hcl Hh Hfit l _ s0 s' Hfl Hr) as (X & Hfl' & Hl).
  split; [|split].
  - unfold left in Hl. rewrite (degrees_remove (dom (routers s)) u); [lia|].
    apply elem_of_dom. by eexists.
  - intros v. rewrite (fl_given _ _ _ _ _ _ _ Hfl' v). destruct (decide _) as [[Hv Hne]|]; [right|by left].
    split_and!; [done| |done]. by apply (fl_reach _ _ _ _ _ _ _ Hfl').
  - intros Hq v Hne Hv. rewrite (fl_given _ _ _ _ _ _ _ Hfl' v), decide_True; [done|].
    split; [|done]. by eapply quiet_component.
Qed.

End topology.

(** ** Examples *)

(** A ring of four nodes: 1 and 4 are opposite each other. *)
Definition ring (v : peer_id) : list peer_id :=
  if decide (v = sample_id 1) then [sample_id 2; sample_id 3]
  else if decide (v = sample_id 2) then [sample_id 1; sample_id 4]
  else if decide (v = sample_id 3) then [sample_id 1; sample_id 4]
  else if decide (v = sample_id 4) then [sample_id 2; sample_id 3]
  else [].

(** Every node numbers its sockets after the peer. *)
Definition sample_fd (v a : peer_id) : Z := be_value (elems (bytes a)).

Lemma sample_fd_inj v a b : sample_fd v a = sample_fd v b → a = b.
Proof.
  unfold sample_fd. intros E. apply peer_id_eq.
  rewrite <-(be_bytes_be_value (elems (bytes a))), <-(be_bytes_be_value (elems (bytes b))), E.
  by rewrite !length_elems.
Qed.

Definition sample_router (ttl n : Z) : gossip_router.t :=
  gossip_router.make (let c := default_config (sample_id n) in
    mk_mesh_config (nodeId c) (groupName c) (protocolVersion c) (psk c) (identityFile c)
    (identitySeedHex c) (nodeName c) (trustedKeys c) (requireIdentity c) (multicastAddr c)
    (multicastPort c) (multicastIface c) (announceInterval c) (peerLostTimeout c) (multicastTtl c)
    (listenPort c) (bindAddr c) (heartbeatInterval c) (heartbeatTimeout c) (handshakeTimeout c)
    (reconnectBase c) (reconnectMax c) ttl (dedupTtl c) (maxDedupEntries c) (fanout c)
    (membershipInterval c) (membershipTimeout c) (maxOutboundQueueBytes c) (overflowPolicy c)
    (maxMessageBytes c) (seedPeers c) (staticPeers c)) (sample_id n) 0 0.

Definition sample_net (ttl : Z) : t :=
  mk (<[sample_id 1 := sample_router ttl 1]> (<[sample_id 2 := sample_router ttl 2]>
       (<[sample_id 3 := sample_router ttl 3]> (<[sample_id 4 := sample_router ttl 4]> ∅))))
     (mk_world [] []).

Lemma sample_net_ready ttl mid : ready ring mid (sample_net ttl).
Proof.
  split.
  - done.
  - intros a b _ Hl. unfold link, ring in Hl. repeat case_decide; try (by apply elem_of_nil in Hl).
    all: apply elem_of_cons in Hl as [->|[->|?%elem_of_nil]%elem_of_cons]; [..|done];
      vm_compute; by eexists.
  - intros v r Hv. cbn [routers sample_net] in Hv.
    do 4 (apply lookup_insert_Some in Hv as [[<- <-]|[_ Hv]];
      [split_and!; [done|apply gossip_router.wf_make|done|simpl; set_solver]|]).
    by rewrite lookup_empty in Hv.
Qed.

Definition sample_broadcast (ttl : Z) : t :=
  default (sample_net ttl) (originate ring sample_fd (sample_id 1) 0 [Byte.x2a] (sample_net ttl)).

(** Packets arrive in this order; the last two are copies. *)
Definition sample_order : list (nat * Z) := [(1%nat, 1); (1%nat, 2); (0%nat, 3); (0%nat, 4); (0%nat, 5)].

Lemma flood_reaches_all_witness :
  let s' := default (sample_net 8) (run ring sample_fd 1000 sample_order (sample_broadcast 8)) in
  inflight (wire s') = [] ∧ given (sample_id 4) s' = [(sample_id 1, [Byte.x2a])].
Proof.
  intros s'. assert (inflight (wire s') = []) as Hq by (vm_compute; reflexivity).
  split; [exact Hq|].
  destruct (flood_reaches_all ring sample_fd sample_fd_inj (sample_id 1) 0 [Byte.x2a] 1000
    (sample_net 8) (sample_broadcast 8) s' (sample_router 8 1) sample_order) as (_ & _ & H).
  - reflexivity.
  - apply sample_net_ready.
  - vm_compute. split; congruence.
  - intros b. unfold sample_fd. pose proof (be_value_range (elems (bytes b))). lia.
  - vm_compute. congruence.
  - intros ttl. unfold fits. rewrite length_body_data. vm_compute. split; congruence.
  - apply some_default. vm_compute. reflexivity.
  - apply some_default. vm_compute. reflexivity.
  - apply H; [exact Hq|vm_compute; discriminate|].
    apply (rtc_l _ _ (sample_id 2)); [|apply rtc_once]; vm_compute; [left|right; left].
Defined.

(** With a smaller hop limit a flood can end early: node 4 of the ring is two
    hops away and a limit of one does not reach it. *)
Example short_limit_misses :
  let s' := default (sample_net 1) (run ring sample_fd 1000 [(0%nat, 1); (0%nat, 2)] (sample_broadcast 1)) in
  inflight (wire s') = [] ∧ given (sample_id 2) s' = [(sample_id 1, [Byte.x2a])] ∧
  given (sample_id 4) s' = [].
Proof. split_and!; vm_compute; reflexivity. Qed.

End network.
