(* ===== verification/Traffic.v ===== *)
(** * Traffic on a network of routers

    The network of Network.v under load: any number of nodes originate
    broadcasts and targeted messages at any time, sweeps of the dedup caches
    run, the packets of all of them arrive in any order, links come and go and
    lose what is on them.  The theorems say that every application is given
    only messages that are meant for it, each once, that it gets all of those
    that a path of lasting links leads to it, and how many deliveries that
    takes.  They rest on what the nodes have to provide: identifiers that differ
    in their first eight bytes, caches with room for the messages of the period,
    and a period shorter than the time an entry is kept.  (A socket is numbered
    after the peer it leads to.) *)
From Stdlib Require Import ZArith Lia.
From Stdlib.Strings Require Import Byte.
From stdpp Require Import base gmap sets list strings numbers option relations.
From S2P Require Import Prelude PeerId Wire WireFacts Config Gossip Network.

Module traffic.
Import network(packet, mk_packet, p_from, p_to, p_frame, world, mk_world, inflight, delivered, routers, wire).

(** A message that was originated, and its identifier. *)
Record msg := mk_msg { src : peer_id; dst : peer_id; mid : message_id; payload : list byte }.

#[global] Instance msg_eq_dec : EqDecision msg.
Proof. solve_decision. Defined.

(** The network, the log of the originated messages, and the links of each node
    as they are at present. *)
Record t := mk { net : network.t; sent : list msg; topo : peer_id → list peer_id }.

Inductive event :=
  | Broadcast (u : peer_id) (now : Z) (payload : list byte)
  | Send (u : peer_id) (now : Z) (dst : peer_id) (payload : list byte)
  | Arrive (k : nat) (now : Z)
  | Sweep (v : peer_id) (now : Z)
  | Relink (v : peer_id) (l : list peer_id)
  | Lose (a b : peer_id) (k : nat).

Definition is_arrival (e : event) : bool := match e with Arrive _ _ => true | _ => false end.
Definition is_message (e : event) : bool :=
  match e with Broadcast _ _ _ | Send _ _ _ _ => true | _ => false end.

Section network.

Context (fd_of : peer_id → peer_id → Z) (max : Z).

(** [mesh::send] at node [u]. *)
Definition send (links : peer_id → list peer_id) (u : peer_id) (now : Z) (d : peer_id) (p : list byte)
    (s : network.t) : option network.t :=
  r ← routers s !! u;
  let '(r, w) := @gossip_router.originate_targeted world (network.node_forwarder links fd_of u) now d p r (wire s) in
  Some (network.mk (<[u := r]> (routers s)) w).

Definition sweep (v : peer_id) (now : Z) (s : network.t) : network.t :=
  network.mk (alter (gossip_router.evict_sweep now) v (routers s)) (wire s).

Definition log (u d : peer_id) (p : list byte) (s : t) : list msg :=
  match routers (net s) !! u with
  | Some r => sent s ++ [mk_msg u d (gossip_router.next_id r).1 p]
  | None => sent s
  end.

(** The links of [v] become [l]. *)
Definition relink (v : peer_id) (l : list peer_id) (links : peer_id → list peer_id) : peer_id → list peer_id :=
  λ x, if decide (x = v) then l else links x.

(** The [k]-th packet in flight, which is on its way from [a] to [b], is lost. *)
Definition lose (a b : peer_id) (k : nat) (n : network.t) : option network.t :=
  pk ← inflight (wire n) !! k;
  if bool_decide (p_from pk = a ∧ p_to pk = b)
  then Some (network.mk (routers n) (mk_world (delete k (inflight (wire n))) (delivered (wire n))))
  else None.

Definition step (e : event) (s : t) : option t :=
  match e with
  | Broadcast u now p =>
      n ← network.originate (topo s) fd_of u now p (net s); Some (mk n (log u peer_id_zero p s) (topo s))
  | Send u now d p => n ← send (topo s) u now d p (net s); Some (mk n (log u d p s) (topo s))
  | Arrive k now => n ← network.deliver (topo s) fd_of max k now (net s); Some (mk n (sent s) (topo s))
  | Sweep v now => Some (mk (sweep v now (net s)) (sent s) (topo s))
  | Relink v l => Some (mk (net s) (sent s) (relink v l (topo s)))
  | Lose a b k => n ← lose a b k (net s); Some (mk n (sent s) (topo s))
  end.

Fixpoint run (l : list event) (s : t) : option t :=
  match l with [] => Some s | e :: l => s' ← step e s; run l s' end.

Definition given (v : peer_id) (s : t) : list (peer_id * list byte) := network.given v (net s).

(** Whose application is to be given a message. *)
Definition due (m : msg) (v : peer_id) : Prop :=
  v ≠ src m ∧ (is_zero (dst m) = true ∨ v = dst m).

#[global] Instance due_dec m v : Decision (due m v).
Proof. unfold due. apply _. Defined.

Definition gist (m : msg) : peer_id * list byte := (src m, payload m).

(** ** The state of the traffic *)

Definition view (m : msg) (ttl : Z) : data_view := mk_data_view (src m) (dst m) (mid m) ttl (payload m).
Definition frame (m : msg) (ttl : Z) : list byte := encode (MsgData (view m ttl)).

(** The nodes that have taken the message [id]. *)
Definition reached (rs : gmap peer_id gossip_router.t) (id : message_id) : gset peer_id :=
  dom (filter (λ kv, id ∈ gossip_router.dedup_ kv.2) rs).

Lemma elem_of_reached rs id v :
  v ∈ reached rs id ↔ ∃ r, rs !! v = Some r ∧ id ∈ gossip_router.dedup_ r.
Proof.
  unfold reached. rewrite elem_of_dom. unfold is_Some. setoid_rewrite map_lookup_filter_Some. naive_solver.
Qed.

(** The links there may ever be, those that last and lose nothing, the nodes
    that are reached by lasting links only, and how many links a node has at
    most. *)
Context (ever stable : peer_id → peer_id → Prop) (fixed : peer_id → Prop) (deg : peer_id → nat).

Definition links_ok (v : peer_id) (l : list peer_id) : Prop :=
  (∀ b, b ∈ l → ever v b) ∧ (∀ b, stable v b → b ∈ l) ∧
  (∀ b, fixed b → b ∈ l → stable v b) ∧ (length l ≤ deg v)%nat.

(** The messages that lasting links are enough for. *)
Definition assured (m : msg) : Prop := is_zero (dst m) = true ∨ fixed (dst m).

(** Where [a] passes the message on to over lasting links: all neighbours, or
    the one it is for. *)
Definition next (m : msg) (a b : peer_id) : Prop :=
  assured m ∧ stable a b ∧ (is_zero (dst m) = false → stable a (dst m) → b = dst m).

(** The deliveries that the nodes of [X] can cause. *)
Definition degrees (X : gset peer_id) : nat := sum_list_with deg (elements X).

Lemma degree_split X v : v ∈ X → degrees X = (deg v + degrees (X ∖ {[v]}))%nat.
Proof.
  intros Hv. unfold degrees. rewrite (union_difference_singleton_L v X Hv) at 1.
  rewrite elements_union_singleton by set_solver. done.
Qed.

(** The nodes, what each was configured with, where its counter started; the
    messages there will be; the beginning of the period. *)
Context (nodes : gset peer_id) (cfg : peer_id → mesh_config) (c0 : peer_id → Z) (N : nat) (lo : Z).

Definition T (m : msg) : Z := initialTtl (cfg (src m)).

Definition count (u : peer_id) (l : list msg) : nat := length (filter (λ m, src m = u) l).

Definition id_at (u : peer_id) (k : nat) : list byte :=
  take 8 (elems (bytes u)) ++ be_bytes 8 (wrap 64 (c0 u + Z.of_nat k)).

Record node_ok (l : list msg) (v : peer_id) (r : gossip_router.t) : Prop := {
  n_self : gossip_router.self_ r = v;
  n_wf : gossip_router.wf r;
  n_cfg : gossip_router.cfg_ r = cfg v;
  n_counter : wrap 64 (gossip_router.counter_ r) = wrap 64 (c0 v + Z.of_nat (count v l));
  n_stamps : Forall (λ st, lo ≤ gossip_router.at_ st) (gossip_router.order_ r);
  n_known id : id ∈ gossip_router.dedup_ r → id ∈ map mid l;
}.

Definition msg_ok (l : list msg) (m : msg) : Prop :=
  src m ∈ nodes ∧ (∀ ttl, fits max (MsgData (view m ttl))) ∧
  ∃ k, (1 ≤ k ≤ count (src m) l)%nat ∧ elems (msg_bytes (mid m)) = id_at (src m) k.

Definition packet_of (X : gset peer_id) (m : msg) (pk : packet) : Prop :=
  p_from pk ∈ X ∧ ever (p_from pk) (p_to pk) ∧
  ∃ ttl, p_frame pk = frame m ttl ∧ 1 ≤ ttl ≤ 255 ∧ T m - Z.of_nat (size X) + 1 ≤ ttl.

(** Whoever has the message and passes it on has done so. *)
Definition covered (X : gset peer_id) (w : list packet) (m : msg) : Prop :=
  ∀ a b, a ∈ X → is_zero (dst m) = true ∨ a ≠ dst m → next m a b →
    b ∈ X ∨ ∃ pk, pk ∈ w ∧ p_from pk = a ∧ p_to pk = b ∧ ∃ ttl, p_frame pk = frame m ttl ∧ 1 ≤ ttl ≤ 255.

(** [pending]: a message that is just being originated. *)
Record inv (pending : option msg) (s : t) : Prop := {
  i_dom : dom (routers (net s)) = nodes;
  i_node v r : routers (net s) !! v = Some r → node_ok (sent s) v r;
  i_msg m : m ∈ sent s → msg_ok (sent s) m;
  i_nodup : NoDup (map mid (sent s));
  i_count : (length (sent s) ≤ N)%nat;
  i_src m : m ∈ sent s → src m ∈ reached (routers (net s)) (mid m) ∨
              (pending = Some m ∧ reached (routers (net s)) (mid m) = ∅);
  i_reach m v : m ∈ sent s → v ∈ reached (routers (net s)) (mid m) → rtc ever (src m) v;
  i_packets pk : pk ∈ inflight (wire (net s)) →
    ∃ m, m ∈ sent s ∧ packet_of (reached (routers (net s)) (mid m)) m pk;
  i_covered m : m ∈ sent s → covered (reached (routers (net s)) (mid m)) (inflight (wire (net s))) m;
  i_given v : given v s ≡ₚ
    map gist (filter (λ m, due m v ∧ v ∈ reached (routers (net s)) (mid m)) (sent s));
  i_links v : links_ok v (topo s v);
}.

Context (fd_inj : ∀ v a b, fd_of v a = fd_of v b → a = b) (fd_pos : ∀ v b, fd_of v b ≠ -1).
Context (closed : ∀ a b, a ∈ nodes → ever a b → b ∈ nodes).
Context (roomy : ∀ v, v ∈ nodes → Z.of_nat N ≤ maxDedupEntries (cfg v)).
Context (hops : ∀ v, v ∈ nodes → 1 ≤ initialTtl (cfg v) ≤ 255 ∧ Z.of_nat (size nodes) ≤ initialTtl (cfg v) + 1).
Context (prefixes : ∀ v v', v ∈ nodes → v' ∈ nodes →
  take 8 (elems (bytes v)) = take 8 (elems (bytes v')) → v = v').
Context (few : Z.of_nat N ≤ 2 ^ 64).

(** *** Lists *)

Lemma filter_ext_in {A} (P Q : A → Prop) `{!∀ x, Decision (P x), !∀ x, Decision (Q x)} (l : list A) :
  (∀ x, x ∈ l → P x ↔ Q x) → filter P l = filter Q l.
Proof.
  induction l as [|x l IH]; intros Heq; [done|]. rewrite !filter_cons, IH by set_solver.
  apply decide_ext, Heq. by left.
Qed.

Lemma filter_extend {A} (P Q : A → Prop) `{!∀ x, Decision (P x), !∀ x, Decision (Q x)} (l : list A) m :
  NoDup l → m ∈ l → ¬ P m → (∀ x, x ∈ l → Q x ↔ P x ∨ x = m) → filter Q l ≡ₚ filter P l ++ [m].
Proof.
  intros Hn Hm HP HQ. apply list_elem_of_split in Hm as (l1 & l2 & ->).
  apply list.NoDup_app in Hn as (_ & H1 & [Hm2 _]%list.NoDup_cons).
  assert (∀ l' : list A, (∀ x, x ∈ l' → x ≠ m ∧ x ∈ l1 ++ m :: l2) → filter Q l' = filter P l') as Heq.
  { intros l' Hl'. apply filter_ext_in. intros x Hx. destruct (Hl' x Hx) as [Hne Hin]. rewrite (HQ x Hin). tauto. }
  rewrite !filter_app, filter_cons_True, filter_cons_False by (try apply HQ; set_solver).
  rewrite !Heq.
  - rewrite <-(assoc_L (++)). f_equiv. by rewrite Permutation_cons_append.
  - intros x Hx. split; [by intros ->|set_solver].
  - intros x Hx. split; [|set_solver]. intros ->. apply (H1 m Hx). by left.
Qed.

Lemma sum_update {A} (f g : A → nat) (l : list A) m a : NoDup l → m ∈ l → f m = (a + g m)%nat →
  (∀ x, x ∈ l → x ≠ m → f x = g x) → sum_list_with f l = (a + sum_list_with g l)%nat.
Proof.
  intros Hn Hm Hf Hg. induction l as [|x l IH]; [by apply elem_of_nil in Hm|].
  apply list.NoDup_cons in Hn as [Hx Hn]. simpl. apply elem_of_cons in Hm as [->|Hm].
  - rewrite Hf. assert (sum_list_with f l = sum_list_with g l) as ->; [|lia].
    clear IH Hn Hf. induction l as [|y l IH]; [done|]. simpl. rewrite (Hg y) by set_solver.
    rewrite IH; [done|set_solver|set_solver].
  - rewrite (Hg x) by set_solver. rewrite IH; [lia|done|done|set_solver].
Qed.

Lemma sum_ext {A} (f g : A → nat) (l : list A) : (∀ x, f x = g x) → sum_list_with f l = sum_list_with g l.
Proof. intros Heq. induction l as [|x l IH]; simpl; [done|]. by rewrite Heq, IH. Qed.

(** *** Routers *)

(** The router after it has taken a message. *)
Definition learned (now : Z) (id : message_id) (r : gossip_router.t) : gossip_router.t :=
  gossip_router.mk (gossip_router.cfg_ r) (gossip_router.self_ r) (gossip_router.counter_ r)
    ({[id]} ∪ gossip_router.dedup_ r)
    (gossip_router.order_ r ++ [gossip_router.mk_stamp id now]).

Lemma evict_size_room mx d (o : list gossip_router.stamp) :
  Z.of_nat (length o) ≤ mx → gossip_router.evict_size mx d o = (d, o).
Proof.
  intros H. destruct o as [|st o]; [done|]. cbn [gossip_router.evict_size].
  by destruct (Z.ltb_spec mx (Z.of_nat (length (st :: o)))); [lia|].
Qed.

(** The cache has room for every message there will be. *)
Lemma seen_learned l now id v r : node_ok l v r → v ∈ nodes → NoDup (map mid l) →
  (length l ≤ N)%nat → id ∈ map mid l → id ∉ gossip_router.dedup_ r →
  gossip_router.seen now id r = (false, learned now id r).
Proof.
  intros [H1 H2 H3 H4 H5 H6] Hv Hn Hl Hid Hd. unfold gossip_router.seen.
  rewrite bool_decide_false by done. rewrite evict_size_room; [done|].
  rewrite length_app. cbn [length]. rewrite H3. pose proof (roomy v Hv).
  assert (length (id :: map gossip_router.sid (gossip_router.order_ r)) ≤ length (map mid l))%nat as Hlen.
  { apply submseteq_length, NoDup_submseteq.
    - apply list.NoDup_cons. split; [by rewrite <-gossip_router.wf_same|by apply gossip_router.wf_nodup].
    - intros x [->|Hx]%elem_of_cons; [done|]. by apply H6, gossip_router.wf_same. }
  cbn [length] in Hlen. rewrite !length_map in Hlen. lia.
Qed.

Lemma learned_ok l now id v r : node_ok l v r → lo ≤ now → id ∈ map mid l →
  id ∉ gossip_router.dedup_ r → node_ok l v (learned now id r).
Proof.
  intros [H1 H2 H3 H4 H5 H6] Hn Hid Hd. split; cbn; try done.
  - apply gossip_router.wf_in_step. apply gossip_router.in_step_push; [|done]. by apply gossip_router.wf_in_step.
  - apply Forall_app. split; [done|]. by repeat constructor.
  - intros x [->%elem_of_singleton|Hx]%elem_of_union; auto.
Qed.

Lemma reached_insert rs v r r' id id' : rs !! v = Some r →
  gossip_router.dedup_ r' = {[id]} ∪ gossip_router.dedup_ r →
  reached (<[v := r']> rs) id' =
  if decide (id' = id) then {[v]} ∪ reached rs id else reached rs id'.
Proof.
  intros Hv Hd. apply set_eq. intros x. rewrite elem_of_reached. destruct (decide (id' = id)) as [->|Hne].
  - rewrite elem_of_union, elem_of_singleton, elem_of_reached. destruct (decide (x = v)) as [->|Hx].
    + rewrite lookup_insert_eq. split; [by left|]. intros _. exists r'. split; [done|]. set_solver.
    + rewrite lookup_insert_ne by done. naive_solver.
  - rewrite elem_of_reached. destruct (decide (x = v)) as [->|Hx].
    + rewrite lookup_insert_eq, Hv. split; intros (y & [= <-] & Hy); eexists; (split; [done|]); set_solver.
    + by rewrite lookup_insert_ne by done.
Qed.

(** *** Packets *)

(** What [v] sends of a message: nothing if it is for [v], to the addressee if
    that is a neighbour, or else to all neighbours but one. *)
Definition emit (links : list peer_id) (m : msg) (v : peer_id) (exc ttl : Z) : list packet :=
  if negb (is_zero (dst m)) && bool_decide (dst m = v) then []
  else if negb (is_zero (dst m)) && bool_decide (dst m ∈ links)
  then [mk_packet v (dst m) (frame m ttl)]
  else map (λ b, mk_packet v b (frame m ttl)) (filter (λ b, fd_of v b ≠ exc) links).

Lemma emit_elem links m v exc ttl pk : links_ok v links → pk ∈ emit links m v exc ttl →
  p_from pk = v ∧ ever v (p_to pk) ∧ p_frame pk = frame m ttl.
Proof.
  intros (Hl & _). unfold emit. destruct (_ && _); [by intros ?%elem_of_nil|]. destruct (is_zero _); cbn.
  - intros (b & -> & [_ Hb]%list_elem_of_filter)%list_elem_of_fmap. auto.
  - case_bool_decide as Hd; [intros ->%list_elem_of_singleton; auto|].
    intros (b & -> & [_ Hb]%list_elem_of_filter)%list_elem_of_fmap. auto.
Qed.

Lemma emit_length links m v exc ttl : (length (emit links m v exc ttl) ≤ length links)%nat.
Proof.
  unfold emit. destruct (_ && _); [simpl; lia|]. destruct (negb _ && bool_decide (dst m ∈ links)) eqn:E.
  - apply andb_true_iff in E as [_ Hd%bool_decide_eq_true]. apply list_elem_of_split in Hd as (l1 & l2 & ->).
    rewrite length_app. simpl. lia.
  - rewrite length_map. apply length_filter.
Qed.

Lemma emit_covers links m v exc ttl b : links_ok v links →
  is_zero (dst m) = true ∨ v ≠ dst m → next m v b →
  fd_of v b ≠ exc ∨ b = dst m ∧ is_zero (dst m) = false → mk_packet v b (frame m ttl) ∈ emit links m v exc ttl.
Proof.
  intros (_ & Hs & Hfix & _) Hv (Has & Hl & Hd) He. unfold emit. destruct (is_zero (dst m)) eqn:Ez; cbn.
  - apply list_elem_of_fmap. exists b. split; [done|]. apply list_elem_of_filter. split; [naive_solver|auto].
  - destruct Has as [?|Has]; [congruence|]. rewrite bool_decide_false by naive_solver.
    case_bool_decide as Hin.
    + rewrite (Hd eq_refl (Hfix _ Has Hin)). by apply list_elem_of_singleton.
    + apply list_elem_of_fmap. exists b. split; [done|]. apply list_elem_of_filter. split; [|auto].
      destruct He as [|[-> _]]; [done|]. destruct Hin. auto.
Qed.

Lemma decode_msg_frame m ttl : (∀ ttl, fits max (MsgData (view m ttl))) → 1 ≤ ttl ≤ 255 →
  ∃ n, try_decode_frame (frame m ttl) max parsed_frame_zero 0 =
    (Ok, received parsed_frame_zero (MsgData (view m ttl)), n).
Proof.
  intros Hf Ht. eexists. rewrite <-(app_nil_r (frame m ttl)). apply decode_encode; [|apply Hf].
  simpl. unfold in_range. lia.
Qed.

Lemma mid_inj l m m' : NoDup (map mid l) → m ∈ l → m' ∈ l → mid m = mid m' → m = m'.
Proof.
  intros Hn [i Hi]%list_elem_of_lookup [j Hj]%list_elem_of_lookup E.
  assert (i = j) as ->; [|congruence].
  apply (proj1 (NoDup_alt _) Hn i j (mid m)); rewrite list_lookup_fmap; [by rewrite Hi|by rewrite Hj, E].
Qed.

(** Frames tell the messages apart. *)
Lemma frame_msg l m m' ttl ttl' : (∀ m, m ∈ l → msg_ok l m) → NoDup (map mid l) → m ∈ l → m' ∈ l →
  1 ≤ ttl ≤ 255 → 1 ≤ ttl' ≤ 255 → frame m ttl = frame m' ttl' → m = m'.
Proof.
  intros Hok Hn Hm Hm' Ht Ht' Hf.
  destruct (Hok m Hm) as (_ & Hfit & _). destruct (Hok m' Hm') as (_ & Hfit' & _).
  destruct (decode_msg_frame m ttl Hfit Ht) as [n Hd]. destruct (decode_msg_frame m' ttl' Hfit' Ht') as [n' Hd'].
  rewrite Hf, Hd' in Hd.
  assert (pf_data (received parsed_frame_zero (MsgData (view m' ttl'))) =
    pf_data (received parsed_frame_zero (MsgData (view m ttl)))) as E by congruence.
  cbn in E. injection E as _ _ E _ _. by apply (mid_inj l).
Qed.

(** *** A node takes a message *)

(** The world after that: of the packets only copies for [v] are gone, [out] has
    been added, and the application was given what is due. *)
Definition taken (m : msg) (v : peer_id) (now : Z) (r : gossip_router.t) (w out : list packet) (s : t) : t :=
  mk (network.mk (<[v := learned now (mid m) r]> (routers (net s)))
        (mk_world (w ++ out) (delivered (wire (net s)) ++
           if decide (due m v) then [(v, gist m)] else []))) (sent s) (topo s).

Definition copies (m : msg) (v : peer_id) (w0 w : list packet) : Prop :=
  (∀ pk, pk ∈ w → pk ∈ w0) ∧
  (∀ pk, pk ∈ w0 → pk ∈ w ∨ p_to pk = v ∧ ∃ ttl, p_frame pk = frame m ttl ∧ 1 ≤ ttl ≤ 255).

Lemma given_taken m v now r w out s x :
  given x (taken m v now r w out s) =
  given x s ++ if decide (x = v ∧ due m v) then [gist m] else [].
Proof.
  unfold given, network.given, taken. cbn. rewrite filter_app, map_app. f_equal.
  destruct (decide (due m v)) as [Hd|Hd].
  - destruct (decide (x = v)) as [->|Hx].
    + by rewrite filter_cons_True, decide_True.
    + rewrite filter_cons_False, decide_False by (simpl; naive_solver). done.
  - by rewrite decide_False by tauto.
Qed.

Lemma covered_grow (X X' : gset peer_id) m (w0 w : list packet) :
  X ⊆ X' → covered X w0 m →
  (∀ pk, pk ∈ w0 → pk ∈ w ∨ ¬ stable (p_from pk) (p_to pk) ∨
     (∀ ttl, 1 ≤ ttl ≤ 255 → p_frame pk = frame m ttl → p_to pk ∈ X')) →
  ∀ a b, a ∈ X → is_zero (dst m) = true ∨ a ≠ dst m → next m a b →
    b ∈ X' ∨ ∃ pk, pk ∈ w ∧ p_from pk = a ∧ p_to pk = b ∧ ∃ ttl, p_frame pk = frame m ttl ∧ 1 ≤ ttl ≤ 255.
Proof.
  intros HX Hc Hw a b Ha Hz Hn. destruct (Hc a b Ha Hz Hn) as [Hb|(pk & Hpk & Hf & Ht & ttl & Hfr & Httl)].
  - left. by apply HX.
  - destruct (Hw pk Hpk) as [Hin|[Hns|Hto]]; [right; eauto 10| |left; rewrite <-Ht; by eapply Hto].
    destruct Hns. rewrite Hf, Ht. apply Hn.
Qed.

Section taking.

Context (pending : option msg) (m : msg) (v : peer_id) (now : Z) (r : gossip_router.t)
  (w out : list packet) (s : t).
Context (Hi : inv pending s) (Hm : m ∈ sent s) (Hv : routers (net s) !! v = Some r)
  (Hd : mid m ∉ gossip_router.dedup_ r).

Abbreviation X := (reached (routers (net s))).
Abbreviation X' := (reached (<[v := learned now (mid m) r]> (routers (net s)))).

Lemma reached_taken m' : m' ∈ sent s → X' (mid m') = if decide (m' = m) then {[v]} ∪ X (mid m) else X (mid m').
Proof.
  intros Hm'. rewrite (reached_insert _ v r _ (mid m)) by done. destruct (decide (m' = m)) as [->|Hne].
  - by rewrite decide_True.
  - rewrite decide_False; [done|]. intros E. apply Hne, (mid_inj (sent s)); try done. apply Hi.
Qed.

Lemma reached_grow m' : m' ∈ sent s → X (mid m') ⊆ X' (mid m').
Proof. intros Hm'. rewrite reached_taken by done. case_decide as E; [subst; apply union_subseteq_r|done]. Qed.

Lemma taken_packets : copies m v (inflight (wire (net s))) w →
  (∀ pk, pk ∈ out → packet_of ({[v]} ∪ X (mid m)) m pk) →
  ∀ pk, pk ∈ w ++ out → ∃ m', m' ∈ sent s ∧ packet_of (X' (mid m')) m' pk.
Proof.
  intros [Hw1 _] Ho pk [Hpk|Hpk]%elem_of_app.
  - destruct (i_packets _ _ Hi pk (Hw1 pk Hpk)) as (m' & Hm' & Hfrom & Hlink & ttl & Hf & Ht & Hb).
    exists m'. split; [done|]. split; [by apply reached_grow|]. split; [done|]. exists ttl.
    pose proof (subseteq_size _ _ (reached_grow m' Hm')). split_and!; try done; lia.
  - exists m. split; [done|]. rewrite reached_taken, decide_True by done. by apply Ho.
Qed.

Lemma taken_covered : copies m v (inflight (wire (net s))) w →
  (∀ b, is_zero (dst m) = true ∨ v ≠ dst m → next m v b →
     b ∈ {[v]} ∪ X (mid m) ∨ ∃ ttl, 1 ≤ ttl ≤ 255 ∧ mk_packet v b (frame m ttl) ∈ out) →
  ∀ m', m' ∈ sent s → covered (X' (mid m')) (w ++ out) m'.
Proof.
  intros [_ Hw2] Hc m' Hm' a b Ha Hz Hn.
  assert (a ∈ X (mid m') ∨ a = v ∧ m' = m) as [Ha'|[-> ->]].
  { rewrite reached_taken in Ha by done. case_decide as E; [subst m'|by left].
    apply elem_of_union in Ha as [?%elem_of_singleton|?]; [by right|by left]. }
  - destruct (covered_grow _ _ m' _ w (reached_grow m' Hm') (i_covered _ _ Hi m' Hm')) with (a := a) (b := b)
      as [?|(pk & ? & ?)]; try done; [|by left|].
    + intros pk Hpk. destruct (Hw2 pk Hpk) as [?|(Hto & ttl & Hf & Ht)]; [by left|right; right].
      intros ttl' Ht' Hf'. rewrite Hto. rewrite Hf in Hf'.
      apply (frame_msg (sent s)) in Hf' as <-; try done; [|by apply Hi..].
      rewrite reached_taken, decide_True by done. by apply elem_of_union_l, elem_of_singleton.
    + right. exists pk. split; [|done]. apply elem_of_app. by left.
  - rewrite reached_taken, decide_True by done. destruct (Hc b Hz Hn) as [?|(ttl & Ht & Hin)]; [by left|right].
    eexists. split; [apply elem_of_app; right; exact Hin|]. eauto.
Qed.

Lemma taken_given x :
  given x (taken m v now r w out s) ≡ₚ
  map gist (filter (λ m', due m' x ∧ x ∈ X' (mid m')) (sent s)).
Proof.
  assert (v ∉ X (mid m)) as Hvn by (rewrite elem_of_reached; naive_solver).
  rewrite given_taken, (i_given _ _ Hi x). destruct (decide (x = v ∧ due m v)) as [[-> Hdue]|Hnd].
  - rewrite <-(map_app gist _ [m]). f_equiv. symmetry. apply filter_extend; [|done|naive_solver|].
    { eapply NoDup_fmap_1, Hi. }
    intros m' Hm'. rewrite reached_taken by done. case_decide as E; [subst m'|split; [tauto|by intros [?| ->]]].
    rewrite elem_of_union, elem_of_singleton. tauto.
  - rewrite app_nil_r. apply reflexive_eq. f_equal. apply filter_ext_in. intros m' Hm'.
    rewrite reached_taken by done. case_decide as E; [subst m'|done].
    rewrite elem_of_union, elem_of_singleton. split; [tauto|]. intros [Hdx [->|Hx]]; [by destruct Hnd|done].
Qed.

Lemma take_inv : lo ≤ now →
  (pending = None ∧ v ≠ src m) ∨ (pending = Some m ∧ v = src m) →
  rtc ever (src m) v →
  copies m v (inflight (wire (net s))) w →
  (∀ pk, pk ∈ out → packet_of ({[v]} ∪ X (mid m)) m pk) →
  (∀ b, is_zero (dst m) = true ∨ v ≠ dst m → next m v b →
     b ∈ {[v]} ∪ X (mid m) ∨ ∃ ttl, 1 ≤ ttl ≤ 255 ∧ mk_packet v b (frame m ttl) ∈ out) →
  inv None (taken m v now r w out s).
Proof.
  intros Hnow Hp Hr Hw Ho Hc. pose proof Hi as [H1 H2 H3 H4 H5 H6 H7 H8 H9 H10 H11].
  split; cbn [net sent routers wire inflight delivered taken]; try done.
  - rewrite dom_insert_L, H1. assert (v ∈ nodes) by (rewrite <-H1; by eapply elem_of_dom_2).
    by apply subseteq_union_1_L, singleton_subseteq_l.
  - intros x y [[<- <-]|[_ Hx]]%lookup_insert_Some; [|by apply H2].
    apply learned_ok; [by apply H2|done|apply list_elem_of_fmap; eauto|done].
  - intros m' Hm'. left. destruct (H6 m' Hm') as [Hs|[Hpe He]]; [by apply reached_grow|].
    destruct Hp as [[? _]|[Hpm Hvm]]; [congruence|]. assert (m' = m) as -> by congruence.
    rewrite reached_taken, decide_True by done. by apply elem_of_union_l, elem_of_singleton.
  - intros m' x Hm'. rewrite reached_taken by done. case_decide as E; [subst m'|by apply H7].
    intros [->%elem_of_singleton|Hx]%elem_of_union; [done|by apply H7].
  - by apply taken_packets.
  - by apply taken_covered.
  - apply taken_given.
Qed.

End taking.

(** *** A packet arrives *)

Lemma shrink_inv s w : inv None s → (∀ pk, pk ∈ w → pk ∈ inflight (wire (net s))) →
  (∀ pk, pk ∈ inflight (wire (net s)) → pk ∈ w ∨ ¬ stable (p_from pk) (p_to pk) ∨
     ∃ m, m ∈ sent s ∧ p_to pk ∈ reached (routers (net s)) (mid m) ∧
       ∃ ttl, p_frame pk = frame m ttl ∧ 1 ≤ ttl ≤ 255) →
  inv None (mk (network.mk (routers (net s)) (mk_world w (delivered (wire (net s))))) (sent s) (topo s)).
Proof.
  intros [H1 H2 H3 H4 H5 H6 H7 H8 H9 H10 H11] Hw1 Hw2. split; cbn; try done; [by intros pk ?%Hw1; apply H8|].
  intros m Hm a b Ha Hz Hn.
  apply (covered_grow _ _ m _ w (reflexivity _) (H9 m Hm)); try done.
  intros pk Hpk. destruct (Hw2 pk Hpk) as [?|[?|(m' & Hm' & Hto & ttl & Hf & Ht)]]; [by left|right; by left|right; right].
  intros ttl' Ht' Hf'. rewrite Hf in Hf'. by apply (frame_msg (sent s)) in Hf' as <-.
Qed.

Lemma on_data_known now m ttl fd (w : world) r {Fw : Forwarder world} : mid m ∈ gossip_router.dedup_ r →
  gossip_router.on_data now (view m ttl) fd r w = (r, w).
Proof. intros Hd. unfold gossip_router.on_data. by rewrite gossip_router.seen_true. Qed.

(** What a new message does at [v]. *)
Lemma on_data_new links now m ttl v a r w : gossip_router.self_ r = v → v ≠ src m → 1 ≤ ttl ≤ 255 →
  gossip_router.seen now (mid m) r = (false, learned now (mid m) r) →
  @gossip_router.on_data world (network.node_forwarder links fd_of v) now (view m ttl) (fd_of v a) r w =
  (learned now (mid m) r,
   mk_world (inflight w ++ if 1 <? ttl then emit (links v) m v (fd_of v a) (ttl - 1) else [])
     (delivered w ++ if decide (due m v) then [(v, gist m)] else [])).
Proof.
  intros Hs Hv Ht Hseen. unfold gossip_router.on_data. cbn [d_msgId view]. rewrite Hseen. cbn [d_dst d_src d_ttl d_payload view].
  change (gossip_router.self_ (learned now (mid m) r)) with (gossip_router.self_ r). rewrite Hs.
  unfold emit. destruct (is_zero (dst m)) eqn:Ez; cbn [negb andb].
  - rewrite (proj2 (peer_id_eqb_neq (src m) v)) by done. cbn [negb].
    rewrite (decide_True (P := due m v)) by (split; auto). destruct (Z.ltb_spec 1 ttl); cbn; [|by rewrite app_nil_r].
    by rewrite (wrap_small 8) by (unfold in_range; lia).
  - destruct (decide (dst m = v)) as [Hdv|Hdv].
    + rewrite (proj2 (peer_id_eqb_spec (dst m) v)), bool_decide_true by done.
      rewrite (decide_True (P := due m v)) by (split; auto). destruct (1 <? ttl); cbn; by rewrite app_nil_r.
    + rewrite (proj2 (peer_id_eqb_neq (dst m) v)), bool_decide_false by done.
      rewrite (decide_False (P := due m v)) by (intros [_ [|]]; congruence).
      destruct (Z.ltb_spec 1 ttl); cbn; [|by rewrite !app_nil_r; destruct w].
      rewrite (wrap_small 8) by (unfold in_range; lia).
      case_bool_decide; cbn; by rewrite app_nil_r.
Qed.

(** The packets left to send, at most. *)
Definition left (s : t) : nat :=
  (sum_list_with (λ m, degrees (nodes ∖ reached (routers (net s)) (mid m))) (sent s) +
   length (inflight (wire (net s))))%nat.

Lemma left_taken pending m v now r w out s : inv pending s → m ∈ sent s →
  routers (net s) !! v = Some r → mid m ∉ gossip_router.dedup_ r → (length out ≤ deg v)%nat →
  (left (taken m v now r w out s) + length (inflight (wire (net s))) ≤ left s + length w)%nat.
Proof.
  intros Hi Hm Hv Hd Ho. unfold left. cbn [net sent routers wire inflight taken]. rewrite length_app.
  assert (v ∈ nodes ∖ reached (routers (net s)) (mid m)) as Hvn.
  { rewrite elem_of_difference. split; [rewrite <-(i_dom _ _ Hi); by eapply elem_of_dom_2|].
    rewrite elem_of_reached. naive_solver. }
  rewrite (sum_update (λ m, degrees (nodes ∖ reached (routers (net s)) (mid m)))
    (λ m', degrees (nodes ∖ reached (<[v := learned now (mid m) r]> (routers (net s))) (mid m')))
    (sent s) m (deg v)); [lia|eapply NoDup_fmap_1, Hi|done| |].
  - rewrite (reached_taken pending m v now r s Hi Hm Hv m Hm), decide_True by done.
    rewrite (degree_split _ v Hvn). do 2 f_equal. set_solver.
  - intros m' Hm' Hne. by rewrite (reached_taken pending m v now r s Hi Hm Hv m' Hm'), decide_False.
Qed.

Lemma delete_copies (l : list packet) k pk : l !! k = Some pk →
  (∀ x, x ∈ delete k l → x ∈ l) ∧ (∀ x, x ∈ l → x ∈ delete k l ∨ x = pk).
Proof.
  intros (l1 & l2 & -> & ->)%list_elem_of_split_length. rewrite delete_middle.
  split; intros x; rewrite !elem_of_app, elem_of_cons; tauto.
Qed.

Lemma T_hops m s pending : inv pending s → m ∈ sent s → 1 ≤ T m ≤ 255 ∧ Z.of_nat (size nodes) ≤ T m + 1.
Proof. intros Hi Hm. apply hops. by apply (i_msg _ _ Hi m Hm). Qed.

Lemma reached_nodes pending s m : inv pending s → reached (routers (net s)) (mid m) ⊆ nodes.
Proof. intros Hi v (r & Hv & _)%elem_of_reached. rewrite <-(i_dom _ _ Hi). by eapply elem_of_dom_2. Qed.

(** What a relay sends on is in order, and whoever it skips has the message. *)
Lemma relay_packets m v a ttl s : inv None s → m ∈ sent s → v ∈ nodes →
  v ∉ reached (routers (net s)) (mid m) → a ∈ reached (routers (net s)) (mid m) →
  1 ≤ ttl ≤ 255 → T m - Z.of_nat (size (reached (routers (net s)) (mid m))) + 1 ≤ ttl →
  let out := if 1 <? ttl then emit (topo s v) m v (fd_of v a) (ttl - 1) else [] in
  (∀ pk, pk ∈ out → packet_of ({[v]} ∪ reached (routers (net s)) (mid m)) m pk) ∧
  (∀ b, is_zero (dst m) = true ∨ v ≠ dst m → next m v b →
     b ∈ {[v]} ∪ reached (routers (net s)) (mid m) ∨
     ∃ ttl, 1 ≤ ttl ≤ 255 ∧ mk_packet v b (frame m ttl) ∈ out).
Proof.
  intros Hi Hm Hvn Hv Ha Ht Hb. pose proof (reached_nodes _ s m Hi) as Hn.
  pose proof (i_links _ _ Hi v) as Hlinks.
  assert (size ({[v]} ∪ reached (routers (net s)) (mid m)) = S (size (reached (routers (net s)) (mid m)))) as Hsz
    by (by rewrite size_union, size_singleton by set_solver).
  cbv zeta. destruct (Z.ltb_spec 1 ttl) as [H1|H1]; (split; [intros pk Hpk|intros b Hz Hnx]).
  - destruct (emit_elem _ _ _ _ _ _ Hlinks Hpk) as (Hf & Hl & Hfr). split; [|split].
    + rewrite Hf. by apply elem_of_union_l, elem_of_singleton.
    + by rewrite Hf.
    + exists (ttl - 1). split; [done|]. rewrite Hsz. lia.
  - destruct (decide (b = a)) as [->|Hba]; [left; by apply elem_of_union_r|right].
    exists (ttl - 1). split; [lia|]. apply emit_covers; try done. left. by intros ?%fd_inj.
  - by apply elem_of_nil in Hpk.
  - left. assert ({[v]} ∪ reached (routers (net s)) (mid m) = nodes) as ->; [|destruct Hlinks as (Hle & Hls & _); eapply closed, Hle, Hls, Hnx; done].
    destruct (T_hops m s None Hi Hm). apply set_subseteq_size_eq; [|lia].
    apply union_subseteq. split; [by apply singleton_subseteq_l|done].
Qed.

(** The first copy that arrives. *)
Lemma new_copy k pk now m ttl r s : inv None s → lo ≤ now → inflight (wire (net s)) !! k = Some pk →
  m ∈ sent s → p_from pk ∈ reached (routers (net s)) (mid m) → ever (p_from pk) (p_to pk) →
  p_frame pk = frame m ttl → 1 ≤ ttl ≤ 255 →
  T m - Z.of_nat (size (reached (routers (net s)) (mid m))) + 1 ≤ ttl →
  routers (net s) !! p_to pk = Some r → mid m ∉ gossip_router.dedup_ r →
  let s' := taken m (p_to pk) now r (delete k (inflight (wire (net s))))
    (if 1 <? ttl then emit (topo s (p_to pk)) m (p_to pk) (fd_of (p_to pk) (p_from pk)) (ttl - 1) else []) s in
  p_to pk ≠ src m ∧ inv None s' ∧ (left s' < left s)%nat.
Proof.
  intros Hi Hnow Hk Hm Hfrom Hl Hf Ht Hb Hr Hd. pose proof (lookup_lt_Some _ _ _ Hk) as Hlt.
  destruct (delete_copies _ _ _ Hk) as [Hdel1 Hdel2].
  assert (p_to pk ∈ nodes) as Hn by (rewrite <-(i_dom _ _ Hi); by eapply elem_of_dom_2).
  assert (p_to pk ∉ reached (routers (net s)) (mid m)) as Hv by (rewrite elem_of_reached; naive_solver).
  assert (p_to pk ≠ src m) as Hne.
  { intros E. rewrite E in Hv. by destruct (i_src _ _ Hi m Hm) as [?|[? _]]. }
  destruct (relay_packets m (p_to pk) (p_from pk) ttl s Hi Hm Hn Hv Hfrom Ht Hb) as [Ho Hc].
  cbv zeta. split_and!; [done| |].
  - apply (take_inv None m (p_to pk) now r (delete k (inflight (wire (net s)))) _ s Hi Hm Hr Hd Hnow); try done.
    + by left.
    + refine (rtc_r _ (p_from pk) _ _ Hl). by apply (i_reach _ _ Hi m).
    + split; [done|]. intros x Hx. destruct (Hdel2 x Hx) as [?| ->]; [by left|right]. eauto.
  - pose proof (left_taken None m (p_to pk) now r (delete k (inflight (wire (net s))))
      (if 1 <? ttl then emit (topo s (p_to pk)) m (p_to pk) (fd_of (p_to pk) (p_from pk)) (ttl - 1) else []) s Hi Hm Hr Hd) as Hleft.
    rewrite length_delete in Hleft by (by eexists).
    enough (length (if (1 <? ttl)%Z then emit (topo s (p_to pk)) m (p_to pk)
      (fd_of (p_to pk) (p_from pk)) (ttl - 1) else []) ≤ deg (p_to pk))%nat by lia.
    destruct (1 <? ttl); [|simpl; lia]. etrans; [apply emit_length|]. apply (i_links _ _ Hi).
Qed.

Lemma deliver_inv k now s n : inv None s → lo ≤ now →
  network.deliver (topo s) fd_of max k now (net s) = Some n →
  inv None (mk n (sent s) (topo s)) ∧ (left (mk n (sent s) (topo s)) < left s)%nat.
Proof.
  intros Hi Hnow (pk & Hk & [= <-])%bind_Some. pose proof (lookup_lt_Some _ _ _ Hk) as Hlt.
  destruct (i_packets _ _ Hi pk (list_elem_of_lookup_2 _ _ _ Hk)) as (m & Hm & Hfrom & Hl & ttl & Hf & Ht & Hb).
  destruct (i_msg _ _ Hi m Hm) as (_ & Hfit & _). destruct (decode_msg_frame m ttl Hfit Ht) as [n Hdec].
  assert (p_to pk ∈ nodes) as Hn by (eapply closed; [by eapply reached_nodes|done]).
  pose proof Hn as Hn'. rewrite <-(i_dom _ _ Hi) in Hn'. apply elem_of_dom in Hn' as [r Hr].
  unfold network.receive. cbn [routers wire]. rewrite Hr, Hf, Hdec. rewrite bool_decide_true by done.
  change (pf_data _) with (view m ttl).
  destruct (decide (mid m ∈ gossip_router.dedup_ r)) as [Hd|Hd].
  - rewrite on_data_known, insert_id by done. split.
    + destruct (delete_copies _ _ _ Hk) as [Hdel1 Hdel2].
      apply shrink_inv; [done..|]. intros x Hx. destruct (Hdel2 x Hx) as [?| ->]; [by left|right; right].
      exists m. split_and!; [done|apply elem_of_reached; eauto|eauto].
    + unfold left. cbn. rewrite length_delete by (by eexists). lia.
  - destruct (new_copy k pk now m ttl r s Hi Hnow Hk Hm Hfrom Hl Hf Ht Hb Hr Hd) as (Hne & Hinv & Hleft).
    pose proof (i_node _ _ Hi _ _ Hr) as Hok.
    rewrite (on_data_new (topo s) now m ttl (p_to pk) (p_from pk) r); [exact (conj Hinv Hleft)|apply Hok|done|done|].
    apply (seen_learned (sent s) now (mid m) (p_to pk)); try done; [apply Hi..|].
    apply list_elem_of_fmap. eauto.
Qed.

(** *** A node originates a message *)

Lemma count_snoc u l m : count u (l ++ [m]) = (count u l + if decide (src m = u) then 1 else 0)%nat.
Proof.
  unfold count. rewrite filter_app, length_app. f_equal. rewrite filter_cons, filter_nil. by case_decide.
Qed.

Lemma count_le u l : (count u l ≤ length l)%nat.
Proof. apply length_filter. Qed.

Lemma id_at_inj u k k' : (1 ≤ k ≤ N)%nat → (1 ≤ k' ≤ N)%nat → id_at u k = id_at u k' → k = k'.
Proof.
  intros Hk Hk' E. unfold id_at in E. apply app_inv_head in E.
  apply be_bytes_inj in E; [|by apply (wrap_range 64)..]. unfold wrap in E.
  pose proof (Z.div_mod (c0 u + Z.of_nat k) (2 ^ 64)). pose proof (Z.div_mod (c0 u + Z.of_nat k') (2 ^ 64)). lia.
Qed.

Lemma minted_fresh s u r : inv None s → (length (sent s) < N)%nat → routers (net s) !! u = Some r →
  elems (msg_bytes (gossip_router.next_id r).1) = id_at u (S (count u (sent s))) ∧
  (gossip_router.next_id r).1 ∉ map mid (sent s).
Proof.
  intros Hi Hn Hu. destruct (i_node _ _ Hi u r Hu) as [H1 H2 H3 H4 H5 H6].
  assert (elems (msg_bytes (gossip_router.next_id r).1) = id_at u (S (count u (sent s)))) as E.
  { rewrite gossip_router.next_id_bytes, H1. unfold id_at. do 2 f_equal. unfold wrap in *.
    rewrite Nat2Z.inj_succ, <-Z.add_1_r, Z.add_assoc, <-(Zplus_mod_idemp_l (c0 u + _)), <-H4.
    by rewrite Zplus_mod_idemp_l. }
  split; [done|]. intros (m & Em & Hm)%list_elem_of_fmap.
  destruct (i_msg _ _ Hi m Hm) as (Hsrc & _ & k & Hk & Hid).
  rewrite Em, Hid in E. pose proof (count_le (src m) (sent s)). pose proof (count_le u (sent s)).
  assert (src m = u) as Hs.
  { unfold id_at in E. apply app_inj_1 in E as [E _]; [|by rewrite !length_take, !length_elems].
    apply prefixes; [done| |done]. rewrite <-(i_dom _ _ Hi). by eapply elem_of_dom_2. }
  rewrite Hs in *. apply id_at_inj in E; lia.
Qed.

(** The message is logged, and the counter advanced. *)
Definition logged (u : peer_id) (r : gossip_router.t) (m : msg) (s : t) : t :=
  mk (network.mk (<[u := (gossip_router.next_id r).2]> (routers (net s))) (wire (net s))) (sent s ++ [m])
    (topo s).

Definition minted (u d : peer_id) (p : list byte) (r : gossip_router.t) : msg :=
  mk_msg u d (gossip_router.next_id r).1 p.

Lemma reached_logged u r m s id : routers (net s) !! u = Some r →
  reached (routers (net (logged u r m s))) id = reached (routers (net s)) id.
Proof.
  intros Hu. apply set_eq. intros x. rewrite !elem_of_reached. cbn [logged net routers].
  destruct (decide (x = u)) as [->|Hx]; [|by rewrite lookup_insert_ne by done].
  rewrite lookup_insert_eq, Hu. split; intros (y & [= <-] & Hy); eauto.
Qed.

Lemma fresh_unreached s pending id : inv pending s → id ∉ map mid (sent s) →
  reached (routers (net s)) id = ∅.
Proof.
  intros Hi Hid. apply elem_of_equiv_empty_L. intros x (r & Hr & Hd)%elem_of_reached.
  apply Hid. by eapply (n_known _ _ _ (i_node _ _ Hi x r Hr)).
Qed.

Lemma node_ok_logged l u r m x y : src m = u → gossip_router.self_ r = u →
  (x = u ∧ y = (gossip_router.next_id r).2 ∧ node_ok l u r) ∨ (x ≠ u ∧ node_ok l x y) →
  node_ok (l ++ [m]) x y.
Proof.
  intros Hs Hr [(-> & -> & [H1 H2 H3 H4 H5 H6])|[Hx [H1 H2 H3 H4 H5 H6]]].
  - split; cbn; try done.
    + by apply gossip_router.next_id_wf.
    + rewrite count_snoc, decide_True by done. unfold wrap in *. rewrite Zmod_mod.
      rewrite Nat2Z.inj_add, Z.add_assoc, <-(Zplus_mod_idemp_l (c0 u + _)), <-H4. by rewrite Zplus_mod_idemp_l.
    + intros id Hid%H6. rewrite map_app. apply elem_of_app. by left.
  - split; try done.
    + rewrite count_snoc, decide_False by congruence. by rewrite Nat.add_0_r.
    + intros id Hid%H6. rewrite map_app. apply elem_of_app. by left.
Qed.

Lemma msg_ok_snoc l m m' : msg_ok l m' → msg_ok (l ++ [m]) m'.
Proof.
  intros (H1 & H2 & k & Hk & H4). split_and!; try done. exists k. rewrite count_snoc. split; [lia|done].
Qed.

Lemma log_inv u d p r s : inv None s → (length (sent s) < N)%nat → routers (net s) !! u = Some r →
  (∀ ttl, fits max (MsgData (view (minted u d p r) ttl))) →
  inv (Some (minted u d p r)) (logged u r (minted u d p r) s).
Proof.
  intros Hi Hn Hu Hfit. pose proof (i_node _ _ Hi u r Hu) as Hok.
  destruct (minted_fresh s u r Hi Hn Hu) as [Hid Hfresh]. pose proof (fresh_unreached s None _ Hi Hfresh) as Hem.
  pose proof (λ id, reached_logged u r (minted u d p r) s id Hu) as HX.
  destruct Hi as [H1 H2 H3 H4 H5 H6 H7 H8 H9 H10 H11]. split; try setoid_rewrite HX; cbn [net sent routers wire logged].
  - rewrite dom_insert_L, H1. assert (u ∈ nodes) by (rewrite <-H1; by eapply elem_of_dom_2).
    by apply subseteq_union_1_L, singleton_subseteq_l.
  - intros x y [[<- <-]|[Hx Hy]]%lookup_insert_Some; apply (node_ok_logged _ u r); try done; [apply Hok|by left|apply Hok|].
    right. split; [done|by apply H2].
  - intros m [Hm| ->%list_elem_of_singleton]%elem_of_app; [by apply msg_ok_snoc, H3|].
    split_and!; [rewrite <-H1; by eapply elem_of_dom_2|done|]. exists (S (count u (sent s))).
    cbn [src minted]. rewrite count_snoc, decide_True by done. split; [lia|done].
  - rewrite map_app. apply list.NoDup_app. split_and!; [done| |apply list.NoDup_singleton].
    intros id Hin ->%list_elem_of_singleton. done.
  - rewrite length_app. simpl. lia.
  - intros m [Hm| ->%list_elem_of_singleton]%elem_of_app; [|by right].
    left. by destruct (H6 m Hm) as [?|[? _]].
  - intros m x [Hm| ->%list_elem_of_singleton]%elem_of_app; [by apply H7|]. cbn [mid minted]. by rewrite Hem, elem_of_empty.
  - intros pk Hpk. destruct (H8 pk Hpk) as (m & Hm & ?). exists m. split; [apply elem_of_app; by left|done].
  - intros m [Hm| ->%list_elem_of_singleton]%elem_of_app; [by apply H9|]. intros a b. cbn [mid minted]. by rewrite Hem, elem_of_empty.
  - intros x. cbn [logged net routers] in HX. rewrite filter_app, filter_cons_False, filter_nil, app_nil_r.
    + etrans; [apply (H10 x)|]. apply reflexive_eq. f_equal. apply filter_ext_in. intros m' _. by rewrite HX.
    + rewrite HX. cbn [mid minted]. rewrite Hem, elem_of_empty. tauto.
  - exact H11.
Qed.

Lemma originated_inv u d p now r s : inv None s → (length (sent s) < N)%nat → lo ≤ now →
  routers (net s) !! u = Some r → (∀ ttl, fits max (MsgData (view (minted u d p r) ttl))) →
  let m := minted u d p r in
  let s' := taken m u now (gossip_router.next_id r).2 (inflight (wire (net s))) (emit (topo s u) m u (-1) (T m)) (logged u r m s) in
  gossip_router.seen now (mid m) (gossip_router.next_id r).2 = (false, learned now (mid m) (gossip_router.next_id r).2) ∧
  inv None s' ∧ (left s' ≤ left s + degrees nodes)%nat.
Proof.
  intros Hi Hn Hnow Hu Hfit m. pose proof (log_inv u d p r s Hi Hn Hu Hfit) as Hi1. fold m in Hi1.
  destruct (minted_fresh s u r Hi Hn Hu) as [_ Hfresh]. pose proof (fresh_unreached s None (mid m) Hi Hfresh) as Hem.
  pose proof (λ id, reached_logged u r m s id Hu) as HX.
  assert (routers (net (logged u r m s)) !! u = Some (gossip_router.next_id r).2) as Hu1 by (cbn; by rewrite lookup_insert_eq).
  assert (mid m ∉ gossip_router.dedup_ (gossip_router.next_id r).2) as Hnd.
  { intros Hin. apply Hfresh. by apply (n_known _ _ _ (i_node _ _ Hi u r Hu)). }
  assert (m ∈ sent (logged u r m s)) as Hm by (apply elem_of_app; right; by apply list_elem_of_singleton).
  assert (u ∈ nodes) as Hun by (rewrite <-(i_dom _ _ Hi); by eapply elem_of_dom_2).
  destruct (T_hops m _ _ Hi1 Hm) as [HT _].
  pose proof (i_links _ _ Hi u) as Hlinks. pose proof Hlinks as (_ & _ & _ & Hdeg).
  cbv zeta. split_and!.
  - apply (seen_learned (sent (logged u r m s)) now (mid m) u); try done; try apply Hi1; [done|].
    apply list_elem_of_fmap. eauto.
  - apply (take_inv (Some m) m u now _ (inflight (wire (net s))) _ _ Hi1 Hm Hu1 Hnd Hnow); [by right|done|by split; auto|..].
    + intros pk Hpk. destruct (emit_elem _ _ _ _ _ _ Hlinks Hpk) as (Hf & Hl & Hfr). rewrite HX, Hem, (right_id_L ∅ (∪)).
      split; [|split]; [rewrite Hf; by apply elem_of_singleton|by rewrite Hf|].
      exists (T m). rewrite size_singleton. split_and!; [done|lia..].
    + intros b Hz Hnx. right. exists (T m). split; [done|]. apply emit_covers; try done. left. apply fd_pos.
  - pose proof (left_taken (Some m) m u now _ (inflight (wire (net s))) (emit (topo s u) m u (-1) (T m)) _ Hi1 Hm Hu1 Hnd
      (Nat.le_trans _ _ _ (emit_length (topo s u) m u (-1) (T m)) Hdeg)) as Hl. cbn [net wire inflight logged] in Hl.
    enough (left (logged u r m s) = left s + degrees nodes)%nat by lia.
    unfold left. cbn [sent logged net wire]. rewrite sum_list_with_app.
    rewrite (sum_ext _ (λ m', degrees (nodes ∖ reached (routers (net s)) (mid m'))) (sent s)) by (intros m'; by rewrite HX).
    cbn [sum_list_with]. rewrite HX, Hem, difference_empty_L. lia.
Qed.

(** The routers' code for it, in the two cases. *)
Lemma originate_broadcast_new links u p now r w (m := minted u peer_id_zero p r) :
  gossip_router.self_ r = u → gossip_router.cfg_ r = cfg u →
  gossip_router.seen now (mid m) (gossip_router.next_id r).2 = (false, learned now (mid m) (gossip_router.next_id r).2) →
  @gossip_router.originate_broadcast world (network.node_forwarder links fd_of u) now p r w =
  (learned now (mid m) (gossip_router.next_id r).2,
   mk_world (inflight w ++ emit (links u) m u (-1) (T m)) (delivered w)).
Proof.
  intros Hs Hc Hseen. unfold gossip_router.originate_broadcast.
  destruct (gossip_router.next_id r) as [id r1] eqn:E. subst m. unfold T, minted in *. rewrite E in *. cbn [fst snd mid src] in *.
  assert (gossip_router.self_ r1 = u ∧ gossip_router.cfg_ r1 = cfg u) as [Hs1 Hc1].
  { by injection E as _ <-. }
  rewrite Hseen. cbn [gossip_router.self_ gossip_router.cfg_ learned]. by rewrite Hs1, Hc1.
Qed.

Lemma originate_targeted_new links u d p now r w (m := minted u d p r) :
  gossip_router.self_ r = u → gossip_router.cfg_ r = cfg u → d ≠ u → is_zero d = false →
  gossip_router.seen now (mid m) (gossip_router.next_id r).2 = (false, learned now (mid m) (gossip_router.next_id r).2) →
  @gossip_router.originate_targeted world (network.node_forwarder links fd_of u) now d p r w =
  (learned now (mid m) (gossip_router.next_id r).2,
   mk_world (inflight w ++ emit (links u) m u (-1) (T m)) (delivered w)).
Proof.
  intros Hs Hc Hd Hz Hseen. unfold gossip_router.originate_targeted.
  rewrite Hs, (proj2 (peer_id_eqb_neq d u)) by done.
  destruct (gossip_router.next_id r) as [id r1] eqn:E. subst m. unfold T, emit, minted in *. rewrite E in *. cbn [fst snd mid src dst] in *.
  assert (gossip_router.self_ r1 = u ∧ gossip_router.cfg_ r1 = cfg u) as [Hs1 Hc1].
  { by injection E as _ <-. }
  rewrite Hseen. cbn [gossip_router.self_ gossip_router.cfg_ learned]. rewrite Hs1, Hc1, Hz.
  rewrite (bool_decide_false (d = u)) by done. cbn [negb andb]. cbn. by case_bool_decide.
Qed.

Lemma taken_logged u d p now r s (m := minted u d p r) out :
  taken m u now (gossip_router.next_id r).2 (inflight (wire (net s))) out (logged u r m s) =
  mk (network.mk (<[u := learned now (mid m) (gossip_router.next_id r).2]> (routers (net s)))
        (mk_world (inflight (wire (net s)) ++ out) (delivered (wire (net s))))) (sent s ++ [m]) (topo s).
Proof.
  unfold taken, logged. cbn [net routers wire sent inflight delivered]. rewrite insert_insert_eq.
  rewrite (decide_False (P := due m u)) by (by intros [? _]). by rewrite app_nil_r.
Qed.

(** *** Runs *)

(** What an event has to satisfy: its time, and what is sent; lasting links
    stay and lose nothing. *)
Definition sound (e : event) : Prop :=
  match e with
  | Broadcast u now p => lo ≤ now ∧ Z.of_nat (length p) + 59 ≤ Z.min (max + 5) (2 ^ 32)
  | Send u now d p => lo ≤ now ∧ d ≠ u ∧ is_zero d = false ∧ Z.of_nat (length p) + 59 ≤ Z.min (max + 5) (2 ^ 32)
  | Arrive _ now => lo ≤ now
  | Sweep v now => now ≤ lo + ms (dedupTtl (cfg v))
  | Relink v l => links_ok v l
  | Lose a b _ => ¬ stable a b
  end.

Lemma fits_view m : Z.of_nat (length (payload m)) + 59 ≤ Z.min (max + 5) (2 ^ 32) →
  ∀ ttl, fits max (MsgData (view m ttl)).
Proof. intros H ttl. unfold fits. rewrite length_body_data. cbn [d_payload view]. lia. Qed.

Lemma sweep_nothing v now r l : node_ok l v r → now ≤ lo + ms (dedupTtl (cfg v)) →
  gossip_router.evict_sweep now r = r.
Proof.
  intros [H1 H2 H3 H4 H5 H6] Hn. unfold gossip_router.evict_sweep.
  destruct r as [c s k d o]. cbn in *. subst c. destruct o as [|st o]; cbn; [done|].
  apply Forall_cons in H5 as [H5 _]. by destruct (Z.ltb_spec (gossip_router.at_ st) (now - ms (dedupTtl (cfg v)))); [lia|].
Qed.

Definition weight (e : event) : nat := if is_message e then degrees nodes else 0.

Lemma originate_inv u now p n s : inv None s → (length (sent s) < N)%nat → sound (Broadcast u now p) →
  network.originate (topo s) fd_of u now p (net s) = Some n →
  inv None (mk n (log u peer_id_zero p s) (topo s)) ∧
  (left (mk n (log u peer_id_zero p s) (topo s)) ≤ left s + degrees nodes)%nat.
Proof.
  intros Hi Hn (Hnow & Hlen) (r & Hu & Ho)%bind_Some. pose proof (i_node _ _ Hi u r Hu) as Hok.
  destruct (originated_inv u peer_id_zero p now r s Hi Hn Hnow Hu (fits_view (minted u peer_id_zero p r) Hlen)) as (Hseen & Hinv & Hleft).
  rewrite (originate_broadcast_new (topo s) u p now r _ (n_self _ _ _ Hok) (n_cfg _ _ _ Hok) Hseen) in Ho.
  rewrite taken_logged in Hinv, Hleft. injection Ho as <-. unfold log. by rewrite Hu.
Qed.

Lemma send_inv u now d p n s : inv None s → (length (sent s) < N)%nat → sound (Send u now d p) →
  send (topo s) u now d p (net s) = Some n →
  inv None (mk n (log u d p s) (topo s)) ∧ (left (mk n (log u d p s) (topo s)) ≤ left s + degrees nodes)%nat.
Proof.
  intros Hi Hn (Hnow & Hd & Hz & Hlen) (r & Hu & Ho)%bind_Some. pose proof (i_node _ _ Hi u r Hu) as Hok.
  destruct (originated_inv u d p now r s Hi Hn Hnow Hu (fits_view (minted u d p r) Hlen)) as (Hseen & Hinv & Hleft).
  rewrite (originate_targeted_new (topo s) u d p now r _ (n_self _ _ _ Hok) (n_cfg _ _ _ Hok) Hd Hz Hseen) in Ho.
  rewrite taken_logged in Hinv, Hleft. injection Ho as <-. unfold log. by rewrite Hu.
Qed.

Lemma relink_inv v l s : inv None s → links_ok v l → inv None (mk (net s) (sent s) (relink v l (topo s))).
Proof.
  intros [H1 H2 H3 H4 H5 H6 H7 H8 H9 H10 H11] Hl. split; try done. intros x. cbn. unfold relink.
  by case_decide; subst.
Qed.

Lemma lose_inv a b k s n : inv None s → ¬ stable a b → lose a b k (net s) = Some n →
  inv None (mk n (sent s) (topo s)) ∧ (left (mk n (sent s) (topo s)) ≤ left s)%nat.
Proof.
  intros Hi Hns (pk & Hk & Hl)%bind_Some. case_bool_decide as E; [|done]. destruct E as [<- <-].
  injection Hl as <-. destruct (delete_copies _ _ _ Hk) as [Hdel1 Hdel2]. split.
  - apply shrink_inv; [done..|]. intros x Hx. destruct (Hdel2 x Hx) as [?| ->]; [by left|right; by left].
  - unfold left. cbn. rewrite length_delete by (by eexists). lia.
Qed.

Lemma step_inv e s s' : inv None s → sound e → (is_message e = true → (length (sent s) < N)%nat) →
  step e s = Some s' →
  inv None s' ∧ ((if is_arrival e then 1 else 0) + left s' ≤ left s + weight e)%nat ∧
  (length (sent s') = length (sent s) + if is_message e then 1 else 0)%nat ∧
  sent s `prefix_of` sent s'.
Proof.
  intros Hi Hs Hn. destruct e as [u now p|u now d p|k now|v now|v l|a b k]; cbn [step is_message is_arrival] in *; unfold weight; cbn [is_message].
  - intros (n & Ho & [= <-])%bind_Some. destruct (originate_inv u now p n s Hi (Hn eq_refl) Hs Ho). split; [done|]. split; [lia|].
    apply bind_Some in Ho as (r & Hu & _). unfold log. rewrite Hu. cbn. rewrite length_app. split; [done|by eexists].
  - intros (n & Ho & [= <-])%bind_Some. destruct (send_inv u now d p n s Hi (Hn eq_refl) Hs Ho). split; [done|]. split; [lia|].
    apply bind_Some in Ho as (r & Hu & _). unfold log. rewrite Hu. cbn. rewrite length_app. split; [done|by eexists].
  - intros (n & Ho & [= <-])%bind_Some. destruct (deliver_inv k now s n Hi Hs Ho). split_and!; [done|lia|cbn; lia|done].
  - intros [= <-]. assert (sweep v now (net s) = net s) as ->.
    { unfold sweep. destruct (net s) as [rs w] eqn:E. cbn. f_equal. apply alter_id. intros r Hr.
      eapply sweep_nothing; [|exact Hs]. apply (i_node _ _ Hi). by rewrite E. }
    destruct s. cbn. split_and!; [done|lia|lia|done].
  - intros [= <-]. split_and!; [by apply relink_inv|unfold left; cbn; lia|cbn; lia|done].
  - intros (n & Ho & [= <-])%bind_Some. destruct (lose_inv a b k s n Hi Hs Ho). split_and!; [done|lia|cbn; lia|done].
Qed.

Definition tally (f : event → bool) (l : list event) : nat := length (List.filter f l).

Lemma traffic_run_inv l : ∀ s s', inv None s → Forall sound l → (length (sent s) + tally is_message l ≤ N)%nat →
  run l s = Some s' →
  inv None s' ∧ (tally is_arrival l + left s' ≤ left s + tally is_message l * degrees nodes)%nat.
Proof.
  induction l as [|e l IH]; intros s s' Hi Hs Hn Hr; cbn [run] in Hr; [injection Hr as <-; split; [done|cbn; lia]|].
  apply Forall_cons in Hs as [He Hs]. apply bind_Some in Hr as (s1 & Hst & Hr).
  unfold tally in *. cbn [List.filter] in *.
  destruct (step_inv e s s1 Hi He) as (Hi1 & Hl1 & Hn1 & _); [|done|].
  { intros Hm. rewrite Hm in Hn. cbn in Hn. lia. }
  destruct (IH s1 s' Hi1 Hs) as [Hi' Hl']; [|done|].
  - rewrite Hn1. destruct (is_message e); cbn in Hn; lia.
  - split; [done|]. unfold weight in Hl1. destruct (is_message e), (is_arrival e); cbn in *; lia.
Qed.

(** When no packet is on a lasting link, every message has got to where those
    can carry it. *)
Definition settled (s : t) : Prop :=
  ∀ pk, pk ∈ inflight (wire (net s)) → ¬ stable (p_from pk) (p_to pk).

Lemma quiet_reached s m v : inv None s → settled s → m ∈ sent s → assured m →
  due m v → rtc stable (src m) v → v ∈ reached (routers (net s)) (mid m).
Proof.
  intros Hi Hq Hm Has [Hne Hd] Hr.
  assert (src m ∈ reached (routers (net s)) (mid m)) as Hsrc by (by destruct (i_src _ _ Hi m Hm) as [?|[? _]]).
  destruct (decide (v ∈ reached (routers (net s)) (mid m))) as [|Hv]; [done|exfalso].
  assert (∀ a b, a ∈ reached (routers (net s)) (mid m) → is_zero (dst m) = true ∨ a ≠ dst m → next m a b →
    b ∈ reached (routers (net s)) (mid m)) as Hc.
  { intros a b Ha Hz Hn. destruct (i_covered _ _ Hi m Hm a b Ha Hz Hn) as [?|(pk & Hpk & Ef & Et & _)]; [done|].
    destruct (Hq pk Hpk). rewrite Ef, Et. apply Hn. }
  apply Hv. apply (rtc_ind_r (λ x, x ∈ reached (routers (net s)) (mid m)) (src m)) in Hr; [done|done|].
  intros a b _ Hab Ha. destruct (is_zero (dst m)) eqn:Ez.
  { apply (Hc a b Ha); [by left|]. split_and!; [done|done|]. congruence. }
  destruct Hd as [?| ->]; [done|].
  assert (a ≠ dst m) as Had by (by intros ->).
  apply (Hc a b Ha); [by right|]. split_and!; [done|done|]. intros _ Hin. destruct Hv.
  apply (Hc a (dst m) Ha); [by right|]. by split_and!.
Qed.

(** What the application at [v] has been given at the end of a run. *)
Lemma run_delivers l s s' : inv None s → left s = 0%nat → Forall sound l →
  (length (sent s) + tally is_message l ≤ N)%nat → run l s = Some s' →
  (tally is_arrival l ≤ tally is_message l * degrees nodes)%nat ∧
  ∀ v, ∃ got, NoDup got ∧ given v s' ≡ₚ map gist got ∧
    (∀ m, m ∈ got → m ∈ sent s' ∧ due m v ∧ rtc ever (src m) v) ∧
    (settled s' → ∀ m, m ∈ sent s' → assured m → due m v → rtc stable (src m) v → m ∈ got).
Proof.
  intros Hi H0 Hs Hn Hr. destruct (traffic_run_inv l s s' Hi Hs Hn Hr) as [Hi' Hl]. split; [lia|].
  intros v. exists (filter (λ m, due m v ∧ v ∈ reached (routers (net s')) (mid m)) (sent s')). split_and!.
  - apply list.NoDup_filter. eapply NoDup_fmap_1, Hi'.
  - apply (i_given _ _ Hi').
  - intros m [[Hd Hv] Hm]%list_elem_of_filter. split_and!; [done|done|]. by eapply i_reach.
  - intros Hq m Hm Has Hd Hp. apply list_elem_of_filter. split; [|done]. split; [done|]. by eapply quiet_reached.
Qed.

End network.

(** ** The theorem *)

Definition cfg_of (rs : gmap peer_id gossip_router.t) (v : peer_id) : mesh_config :=
  match rs !! v with Some r => gossip_router.cfg_ r | None => default_config v end.

Definition counter_of (rs : gmap peer_id gossip_router.t) (v : peer_id) : Z :=
  match rs !! v with Some r => gossip_router.counter_ r | None => 0 end.

(** A network at rest whose nodes have room for [N] messages. *)
Record fresh (ever : peer_id → peer_id → Prop) (N : nat) (n : network.t) : Prop := {
  f_quiet : wire n = mk_world [] [];
  f_closed a b : is_Some (routers n !! a) → ever a b → is_Some (routers n !! b);
  f_node v r : routers n !! v = Some r →
    gossip_router.self_ r = v ∧ gossip_router.dedup_ r = ∅ ∧ gossip_router.order_ r = [] ∧
    Z.of_nat N ≤ maxDedupEntries (gossip_router.cfg_ r) ∧
    1 ≤ initialTtl (gossip_router.cfg_ r) ≤ 255 ∧
    Z.of_nat (size (dom (routers n))) ≤ initialTtl (gossip_router.cfg_ r) + 1;
  f_prefixes v v' : is_Some (routers n !! v) → is_Some (routers n !! v') →
    take 8 (elems (bytes v)) = take 8 (elems (bytes v')) → v = v';
}.

Section delivery.

Context (fd_of : peer_id → peer_id → Z) (max lo : Z) (ever stable : peer_id → peer_id → Prop)
  (fixed : peer_id → Prop) (deg : peer_id → nat).

Lemma fresh_inv N n links : fresh ever N n → (∀ v, links_ok ever stable fixed deg v (links v)) →
  inv max ever stable fixed deg (dom (routers n)) (cfg_of (routers n)) (counter_of (routers n)) N lo
    None (mk n [] links).
Proof.
  intros [H1 H2 H3 H4] Hl. split; cbn [net sent]; try done; try (by intros ? ?%elem_of_nil).
  - intros v r Hv. destruct (H3 v r Hv) as (Hs & Hd & Ho & _). split; try done.
    + split; [intros id; by rewrite Hd, Ho, elem_of_empty, elem_of_nil|rewrite Ho; apply NoDup_nil_2].
    + unfold cfg_of. by rewrite Hv.
    + unfold counter_of, count. rewrite Hv. cbn. by rewrite Z.add_0_r.
    + by rewrite Ho.
    + by rewrite Hd.
  - apply NoDup_nil_2.
  - simpl. lia.
  - by intros ? ? ?%elem_of_nil.
  - intros pk. rewrite H1. by intros ?%elem_of_nil.
  - intros v. unfold given, network.given. cbn. by rewrite H1.
Qed.

(** What the theorems below say of a run, from the hypotheses on the nodes. *)
Lemma delivers n links l s' :
  (∀ v a b, fd_of v a = fd_of v b → a = b) → (∀ v b, fd_of v b ≠ -1) →
  fresh ever (tally is_message l) n → Z.of_nat (tally is_message l) ≤ 2 ^ 64 →
  (∀ v, links_ok ever stable fixed deg v (links v)) →
  Forall (sound max ever stable fixed deg (cfg_of (routers n)) lo) l →
  run fd_of max l (mk n [] links) = Some s' →
  (tally is_arrival l ≤ tally is_message l * degrees deg (dom (routers n)))%nat ∧
  ∀ v, ∃ got, NoDup got ∧ given v s' ≡ₚ map gist got ∧
    (∀ m, m ∈ got → m ∈ sent s' ∧ due m v ∧ rtc ever (src m) v) ∧
    (settled stable s' → ∀ m, m ∈ sent s' → assured fixed m → due m v → rtc stable (src m) v → m ∈ got).
Proof.
  intros Hinj Hpos Hf Hfew Hlinks Hs Hr.
  pose proof (fresh_inv (tally is_message l) n links Hf Hlinks) as Hi. destruct Hf as [H1 H2 H3 H4].
  assert (∀ v, v ∈ dom (routers n) → ∃ r, routers n !! v = Some r ∧ cfg_of (routers n) v = gossip_router.cfg_ r) as Hcfg.
  { intros v [r Hv]%elem_of_dom. exists r. split; [done|]. unfold cfg_of. by rewrite Hv. }
  apply (run_delivers fd_of max ever stable fixed deg (dom (routers n)) (cfg_of (routers n))
    (counter_of (routers n)) (tally is_message l) lo Hinj Hpos) with (s := mk n [] links); try done.
  - intros a b. rewrite !elem_of_dom. apply H2.
  - intros v Hv. destruct (Hcfg v Hv) as (r & Hr' & ->). by apply H3 in Hr' as (_ & _ & _ & ? & _).
  - intros v Hv. destruct (Hcfg v Hv) as (r & Hr' & ->). by apply H3 in Hr' as (_ & _ & _ & _ & ? & ?).
  - intros v v'. rewrite !elem_of_dom. apply H4.
  - unfold left. cbn [net sent]. by rewrite H1.
Qed.

End delivery.

(** Events on a network whose links stay as they are. *)
Definition calm (max lo : Z) (links : peer_id → list peer_id) (n : network.t) : event → Prop :=
  sound max (network.link links) (network.link links) (λ _, True) (λ v, length (links v))
    (cfg_of (routers n)) lo.

(** [C5] The mesh under load: let any nodes of a network at rest originate
    broadcasts and targeted messages at any time, while packets arrive in
    whatever order and caches are swept.  Provided that every node's hop limit
    ([initialTtl]) is at least the number of other nodes, that the caches start
    empty and hold all the messages of the period, that the period is no longer
    than [dedupTtl] keeps an entry, and that messages fit a frame and number no
    more than [2^64], then the number of deliveries is bounded
    by the messages times the directions of links; no application is given a
    message twice, one that is for another node or one of its own; and when no
    packet is left, each has been given every message that is meant for it and
    that a path of links leads to it. *)
Theorem traffic_delivered links fd_of max lo n l s' :
  (∀ v a b, fd_of v a = fd_of v b → a = b) → (∀ v b, fd_of v b ≠ -1) →
  fresh (network.link links) (tally is_message l) n → Z.of_nat (tally is_message l) ≤ 2 ^ 64 →
  Forall (calm max lo links n) l →
  run fd_of max l (mk n [] links) = Some s' →
  (tally is_arrival l ≤ tally is_message l * network.degrees links (dom (routers n)))%nat ∧
  ∀ v, ∃ got, NoDup got ∧ given v s' ≡ₚ map gist got ∧
    (∀ m, m ∈ got → m ∈ sent s' ∧ due m v ∧ rtc (network.link links) (src m) v) ∧
    (inflight (wire (net s')) = [] →
     ∀ m, m ∈ sent s' → due m v → rtc (network.link links) (src m) v → m ∈ got).
Proof.
  intros Hinj Hpos Hf Hfew Hs Hr.
  destruct (delivers fd_of max lo (network.link links) (network.link links) (λ _, True)
    (λ v, length (links v)) n links l s') as [Hl H]; try done.
  split; [exact Hl|]. intros v. destruct (H v) as (got & Hn & Hg & H1 & H2). exists got.
  split_and!; [done..|]. intros Hq m Hm. apply H2; [|done|by right].
  intros pk. by rewrite Hq, elem_of_nil.
Qed.


(** ** An example *)

(** A ring of four nodes; every node numbers its sockets after the peer. *)
Definition node (k : Z) : peer_id := sample_id (k * 2 ^ 64).

Definition ring (v : peer_id) : list peer_id :=
  if decide (v = node 1) then [node 2; node 3]
  else if decide (v = node 2) then [node 1; node 4]
  else if decide (v = node 3) then [node 1; node 4]
  else if decide (v = node 4) then [node 2; node 3]
  else [].

Definition sample_router (k : Z) : gossip_router.t :=
  gossip_router.make (default_config (node k)) (node k) 0 0.

Definition sample_net : network.t :=
  network.mk (<[node 1 := sample_router 1]> (<[node 2 := sample_router 2]>
       (<[node 3 := sample_router 3]> (<[node 4 := sample_router 4]> ∅)))) (mk_world [] []).

(** Node 1 broadcasts and, while that is under way, node 2 writes to node 3,
    which is two hops away. *)
Definition sample_events : list event :=
  [Broadcast (node 1) 5 [Byte.x01]; Arrive 1 6; Send (node 2) 7 (node 3) [Byte.x02]; Sweep (node 4) 9] ++
  replicate 8 (Arrive 0 10).

Definition sample_end : t :=
  default (mk sample_net [] ring) (run network.sample_fd 1000 sample_events (mk sample_net [] ring)).

Definition four : list peer_id := [node 1; node 2; node 3; node 4].

Lemma sample_node v r : routers sample_net !! v = Some r → ∃ k, k ∈ [1; 2; 3; 4] ∧ v = node k ∧ r = sample_router k.
Proof.
  cbn [sample_net routers]. intros Hv.
  do 4 (apply lookup_insert_Some in Hv as [[<- <-]|[_ Hv]]; [eexists; split; [|done]; set_solver|]).
  by rewrite lookup_empty in Hv.
Qed.

Lemma sample_size : size (dom (routers sample_net)) = 4%nat.
Proof. vm_compute. reflexivity. Qed.

Lemma sample_fresh : fresh (network.link ring) 2 sample_net.
Proof.
  split.
  - done.
  - intros a b _ Hl. unfold network.link, ring in Hl. repeat case_decide; try (by apply elem_of_nil in Hl).
    all: apply elem_of_cons in Hl as [->|[->|?%elem_of_nil]%elem_of_cons]; [..|done]; vm_compute; by eexists.
  - intros v r (k & Hk & -> & ->)%sample_node. rewrite sample_size. cbn. split_and!; try reflexivity; lia.
  - intros v v' [r (k & Hk & -> & _)%sample_node] [r' (k' & Hk' & -> & _)%sample_node] E.
    repeat (apply elem_of_cons in Hk as [->|Hk]); [..|by apply elem_of_nil in Hk];
      repeat (apply elem_of_cons in Hk' as [->|Hk']); try (by apply elem_of_nil in Hk');
      first [vm_compute in E; discriminate E|reflexivity].
Qed.

Lemma sample_sound : Forall (calm 1000 5 ring sample_net) sample_events.
Proof. repeat constructor; try (vm_compute; congruence); vm_compute; reflexivity. Qed.

Lemma sample_events_run :
  run network.sample_fd 1000 sample_events (mk sample_net [] ring) = Some sample_end.
Proof. apply some_default. vm_compute. reflexivity. Qed.

Lemma sample_fd_pos v b : network.sample_fd v b ≠ -1.
Proof. unfold network.sample_fd. pose proof (be_value_range (elems (bytes b))). lia. Qed.

Lemma traffic_delivered_witness :
  inflight (wire (net sample_end)) = [] ∧
  given (node 3) sample_end = [(node 1, [Byte.x01]); (node 2, [Byte.x02])] ∧
  ∃ got, NoDup got ∧ given (node 3) sample_end ≡ₚ map gist got ∧
    ∀ m, m ∈ sent sample_end → due m (node 3) → rtc (network.link ring) (src m) (node 3) → m ∈ got.
Proof.
  assert (inflight (wire (net sample_end)) = []) as Hq by (vm_compute; reflexivity).
  split; [exact Hq|]. split; [vm_compute; reflexivity|].
  destruct (traffic_delivered ring network.sample_fd 1000 5 sample_net sample_events sample_end
    network.sample_fd_inj sample_fd_pos sample_fresh ltac:(vm_compute; congruence) sample_sound sample_events_run) as [_ H].
  destruct (H (node 3)) as (got & Hn & Hg & _ & Hall). exists got.
  split; [exact Hn|]. split; [exact Hg|exact (Hall Hq)].
Defined.

(** The links between 1 and 2 break while node 1 broadcasts, and the packet for
    node 2 is lost; the others last.  Meanwhile node 2 writes to node 4. *)
Definition lasting (v : peer_id) : list peer_id :=
  if decide (v = node 1) then [node 3]
  else if decide (v = node 2) then [node 4]
  else if decide (v = node 3) then [node 1; node 4]
  else if decide (v = node 4) then [node 2; node 3]
  else [].

Definition sample_churn : list event :=
  [Broadcast (node 1) 5 [Byte.x01]; Lose (node 1) (node 2) 0; Relink (node 1) [node 3];
   Relink (node 2) [node 4]; Send (node 2) 7 (node 4) [Byte.x02]] ++ replicate 4 (Arrive 0 10).

Definition sample_fixed (d : peer_id) : Prop := d = node 3 ∨ d = node 4.

Definition churn_end : t :=
  default (mk sample_net [] ring) (run network.sample_fd 1000 sample_churn (mk sample_net [] ring)).

Lemma churn_end_run : run network.sample_fd 1000 sample_churn (mk sample_net [] ring) = Some churn_end.
Proof. apply some_default. vm_compute. reflexivity. Qed.

Lemma sample_links v :
  links_ok (network.link ring) (network.link lasting) sample_fixed (λ _, 2%nat) v (ring v).
Proof.
  split_and!; [done| | |].
  - intros b. unfold network.link, lasting, ring. repeat case_decide; set_solver.
  - intros b [->| ->]; unfold network.link, lasting, ring; repeat case_decide; subst; try set_solver.
    all: intros Hin; repeat (apply elem_of_cons in Hin as [Hin|Hin]);
      first [vm_compute in Hin; discriminate Hin|by apply elem_of_nil in Hin].
  - unfold ring. repeat case_decide; simpl; lia.
Qed.

Lemma sample_churn_sound :
  Forall (sound 1000 (network.link ring) (network.link lasting) sample_fixed (λ _, 2%nat)
    (cfg_of (routers sample_net)) 5) sample_churn.
Proof.
  assert (∀ v l, lasting v = l → l ⊆ ring v → (length l ≤ 2)%nat →
    links_ok (network.link ring) (network.link lasting) sample_fixed (λ _, 2%nat) v l) as Hl.
  { intros v l <- Hr Hn. split_and!; [intros b; apply Hr|done|done|done]. }
  repeat apply list.Forall_cons_2; [..|constructor]; [| | | | |vm_compute; discriminate..].
  - split; vm_compute; discriminate.
  - intros Hin. vm_compute in Hin. apply list_elem_of_singleton in Hin. discriminate Hin.
  - apply Hl; [vm_compute; reflexivity|vm_compute; set_solver|simpl; lia].
  - apply Hl; [vm_compute; reflexivity|vm_compute; set_solver|simpl; lia].
  - split_and!; try (vm_compute; discriminate). vm_compute. reflexivity.
Qed.


End traffic.
