(* ===== verification/Membership.v ===== *)
(** * Mesh-wide membership

    src/src/membership.hpp and src/src/membership.cpp: every node floods its direct
    neighbours, keeps the latest record of every other node, and takes the
    connected component of the adjacency graph around itself as the mesh.  The
    module models all operations, with the breadth-first search as the loop it
    is, and proves that the member set is exactly the reachable set at all
    times, that the application's join and leave events reproduce it, and that
    stale records are dropped. *)
From Stdlib Require Import ZArith Lia.
From Stdlib.Strings Require Import Byte.
From stdpp Require Import base gmap sets list strings numbers option sorting relations.
From S2P Require Import Prelude PeerId Wire WireFacts Config.

Module membership.

Record entry := mk_entry { version : Z; neighbors : list peer_id; lastSeen : Z }.

#[global] Instance entry_eq_dec : EqDecision entry.
Proof. solve_decision. Defined.

Record t := mk {
  self_ : peer_id;
  cfg_ : mesh_config;
  selfNeighbors_ : list peer_id;
  selfVersion_ : Z;
  lastSelfFlood_ : Z;
  view_ : gmap peer_id entry;
  members_ : gset peer_id;
}.

(** What an operation asks of its surroundings: the delegate's callbacks and
    the [flood] function.  Every call of [flood] is the last thing an operation
    does, so running the effects after the state change is what the code does. *)
Inductive effect :=
  | MemberJoined (id : peer_id)
  | MemberLeft (id : peer_id)
  | MembersSnapshot (ids : list peer_id)
  | FloodFrame (frame : list byte) (exceptFd : Z).

(** The constructor; [wall_ms] is the wall clock in milliseconds. *)
Definition make (self : peer_id) (cfg : mesh_config) (wall_ms : Z) : t :=
  mk self cfg [] (wrap 64 wall_ms) 0 ∅ ∅.

Definition with_view (m : t) (v : gmap peer_id entry) : t :=
  mk (self_ m) (cfg_ m) (selfNeighbors_ m) (selfVersion_ m) (lastSelfFlood_ m) v (members_ m).
Definition with_neighbors (m : t) (l : list peer_id) : t :=
  mk (self_ m) (cfg_ m) l (selfVersion_ m) (lastSelfFlood_ m) (view_ m) (members_ m).
Definition with_members (m : t) (s : gset peer_id) : t :=
  mk (self_ m) (cfg_ m) (selfNeighbors_ m) (selfVersion_ m) (lastSelfFlood_ m) (view_ m) s.

(** ** The adjacency graph and the search *)

Abbreviation graph := (gmap peer_id (gset peer_id)).

(** [adj[a].insert(b)], creating the set if it is missing. *)
Definition insert_edge (a b : peer_id) (adj : graph) : graph :=
  <[a := {[b]} ∪ default ∅ (adj !! a)]> adj.

Definition add_edge (a b : peer_id) (adj : graph) : graph :=
  insert_edge b a (insert_edge a b adj).

Definition add_edges (a : peer_id) (ns : list peer_id) (adj : graph) : graph :=
  fold_left (λ adj n, add_edge a n adj) ns adj.

Definition adjacency (m : t) : graph :=
  fold_left (λ adj '(origin, e), add_edges origin (neighbors e) adj)
    (map_to_list (view_ m)) (add_edges (self_ m) (selfNeighbors_ m) ∅).

(** The search's state: the work queue, [visited] and [reachable]. *)
Record search := mk_search {
  work : list peer_id;
  visited : gset peer_id;
  reachable : gset peer_id;
}.

(** [if (visited.insert(v).second) { reachable.insert(v); work.push(v); }] *)
Definition discover (s : search) (v : peer_id) : search :=
  if bool_decide (v ∈ visited s) then s
  else mk_search (work s ++ [v]) ({[v]} ∪ visited s) ({[v]} ∪ reachable s).

(** One turn of the loop on a non-empty queue. *)
Definition bfs_step (adj : graph) (u : peer_id) (s : search) : search :=
  match adj !! u with
  | None => s
  | Some vs => fold_left discover (elements vs) s
  end.

Fixpoint bfs (fuel : nat) (adj : graph) (s : search) : search :=
  match fuel, work s with
  | O, _ | _, [] => s
  | S fuel, u :: rest =>
      bfs fuel adj (bfs_step adj u (mk_search rest (visited s) (reachable s)))
  end.

(** Every turn of the loop takes a node off the queue that was never on it
    before, so one turn per node of the graph is enough. *)
Definition bfs_fuel (self : peer_id) (adj : graph) : nat := size (dom adj ∪ {[self]}).

Definition compute_reachable (m : t) : gset peer_id :=
  let adj := adjacency m in
  let s := bfs (bfs_fuel (self_ m) adj) adj
             (mk_search [self_ m] {[self_ m]} ∅) in
  reachable s ∖ {[self_ m]}.

Definition recompute_and_fire (m : t) : t * list effect :=
  let reach := compute_reachable m in
  let joined := map MemberJoined (filter (λ id, id ∉ members_ m) (elements reach)) in
  let left := map MemberLeft (filter (λ id, id ∉ reach) (elements (members_ m))) in
  if bool_decide (reach = members_ m) then (m, joined ++ left)
  else (with_members m reach, joined ++ left ++ [MembersSnapshot (elements reach)]).

(** ** Operations *)

Definition flood_self (exceptFd now : Z) (m : t) : t * list effect :=
  let v := wrap 64 (selfVersion_ m + 1) in
  let rec := mk_membership_record (self_ m) v (selfNeighbors_ m) in
  (mk (self_ m) (cfg_ m) (selfNeighbors_ m) v now (view_ m) (members_ m),
   [FloodFrame (encode_membership rec) exceptFd]).

(** The order [std::sort] uses. *)
Definition peer_id_le (a b : peer_id) : Prop := peer_id_ltb b a = false.

#[global] Instance peer_id_le_dec : RelDecision peer_id_le.
Proof. intros a b. unfold peer_id_le. apply _. Defined.

Definition set_local_neighbors (ns : list peer_id) (now : Z) (m : t) : t * list effect :=
  let ns := merge_sort peer_id_le ns in
  if bool_decide (ns = selfNeighbors_ m) then (m, [])
  else
    let '(m, e1) := recompute_and_fire (with_neighbors m ns) in
    let '(m, e2) := flood_self (-1) now m in
    (m, e1 ++ e2).

(** [it != view_.end() && rec.version <= it->second.version]. *)
Definition is_stale (rec : membership_record) (m : t) : bool :=
  match view_ m !! m_origin rec with
  | Some e => m_version rec <=? version e
  | None => false
  end.

Definition on_remote_record (rec : membership_record) (inboundFd now : Z) (m : t)
    : t * list effect :=
  if peer_id_eqb (m_origin rec) (self_ m) then (m, [])
  else
    if is_stale rec m then (m, [])
    else
      let e := mk_entry (m_version rec) (m_neighbors rec) now in
      let '(m, evs) := recompute_and_fire (with_view m (<[m_origin rec := e]> (view_ m))) in
      (m, evs ++ [FloodFrame (encode_membership rec) inboundFd]).

(** [now - lastSeen > membershipTimeout]. *)
Definition expired (m : t) (now : Z) (e : entry) : Prop :=
  ms (membershipTimeout (cfg_ m)) < now - lastSeen e.

#[global] Instance expired_dec m now e : Decision (expired m now e).
Proof. unfold expired. apply _. Defined.

Definition tick (now : Z) (m : t) : t * list effect :=
  let kept := filter (λ kv, ¬ expired m now kv.2) (view_ m) in
  let '(m, e1) :=
    if bool_decide (kept = view_ m) then (m, [])
    else recompute_and_fire (with_view m kept) in
  if ms (membershipInterval (cfg_ m)) <=? now - lastSelfFlood_ m then
    let '(m, e2) := flood_self (-1) now m in (m, e1 ++ e2)
  else (m, e1).

Definition clear (m : t) : t :=
  mk (self_ m) (cfg_ m) [] (selfVersion_ m) 0 ∅ ∅.

(** ** Reachability *)

(** [a] says that [b] is its neighbour. *)
Definition claims (m : t) (a b : peer_id) : Prop :=
  (a = self_ m ∧ b ∈ selfNeighbors_ m) ∨
  (∃ e, view_ m !! a = Some e ∧ b ∈ neighbors e).

(** A link exists when either end says so. *)
Definition linked (m : t) (a b : peer_id) : Prop := claims m a b ∨ claims m b a.

(** The nodes of the mesh: everything but the node itself that a path of links
    leads to. *)
Definition is_member (m : t) (x : peer_id) : Prop := x ≠ self_ m ∧ rtc (linked m) (self_ m) x.

Definition edge (adj : graph) (a b : peer_id) : Prop := b ∈ default ∅ (adj !! a).

Lemma edge_insert_edge a b adj x y :
  edge (insert_edge a b adj) x y ↔ (x = a ∧ y = b) ∨ edge adj x y.
Proof.
  unfold edge, insert_edge. destruct (decide (x = a)) as [->|Hne].
  - rewrite lookup_insert_eq. simpl. set_solver.
  - rewrite lookup_insert_ne by done. naive_solver.
Qed.

Lemma edge_add_edge a b adj x y :
  edge (add_edge a b adj) x y ↔ (x = a ∧ y = b) ∨ (x = b ∧ y = a) ∨ edge adj x y.
Proof. unfold add_edge. rewrite !edge_insert_edge. tauto. Qed.

Lemma edge_add_edges a ns adj x y :
  edge (add_edges a ns adj) x y ↔ (x = a ∧ y ∈ ns) ∨ (y = a ∧ x ∈ ns) ∨ edge adj x y.
Proof.
  unfold add_edges. revert adj; induction ns as [|n ns IH]; intros adj; simpl; [set_solver|].
  rewrite IH, edge_add_edge, !elem_of_cons. naive_solver.
Qed.

Lemma edge_fold (es : list (peer_id * entry)) adj x y :
  edge (fold_left (λ adj '(origin, e), add_edges origin (neighbors e) adj) es adj) x y ↔
  (∃ e, (x, e) ∈ es ∧ y ∈ neighbors e) ∨ (∃ e, (y, e) ∈ es ∧ x ∈ neighbors e) ∨ edge adj x y.
Proof.
  revert adj; induction es as [|[o e] es IH]; intros adj; simpl; [set_solver|].
  rewrite IH, edge_add_edges. setoid_rewrite elem_of_cons. naive_solver.
Qed.

Lemma edge_adjacency m x y : edge (adjacency m) x y ↔ linked m x y.
Proof.
  unfold adjacency, linked, claims. rewrite edge_fold, edge_add_edges.
  setoid_rewrite elem_of_map_to_list.
  assert (¬ edge ∅ x y) by (unfold edge; rewrite lookup_empty; simpl; set_solver).
  naive_solver.
Qed.

#[global] Instance linked_sym m : Symmetric (linked m).
Proof. unfold linked. intros x y. tauto. Qed.

(** ** The search computes the connected component *)

Section search.
Context (adj : graph) (self : peer_id).
Context (adj_sym : ∀ x y, edge adj x y → edge adj y x).

Definition nodes : gset peer_id := dom adj ∪ {[self]}.

(** [cur] is the node whose neighbours are being scanned, if any: every other
    visited node off the queue has all its neighbours visited. *)
Record search_inv (cur : option peer_id) (s : search) : Prop := {
  inv_visited : visited s = {[self]} ∪ reachable s;
  inv_sound x : x ∈ visited s → rtc (edge adj) self x;
  inv_closed x y : x ∈ visited s → x ∉ work s → cur ≠ Some x → edge adj x y → y ∈ visited s;
  inv_work x : x ∈ work s → x ∈ visited s;
  inv_nodes : visited s ⊆ nodes;
}.

(** The turns the loop can still make. *)
Definition turns_left (s : search) : nat := length (work s) + size (nodes ∖ visited s).

Lemma edge_nodes x y : edge adj x y → y ∈ nodes.
Proof.
  intros H%adj_sym. unfold edge in H. unfold nodes. destruct (adj !! y) eqn:E; simpl in H.
  - apply elem_of_union_l, elem_of_dom. eauto.
  - set_solver.
Qed.

Lemma discover_inv cur s v :
  search_inv cur s → rtc (edge adj) self v → v ∈ nodes →
  search_inv cur (discover s v) ∧ v ∈ visited (discover s v) ∧
  visited s ⊆ visited (discover s v) ∧ turns_left (discover s v) = turns_left s.
Proof.
  intros [Hv Hs Hc Hw Hn] Hr Hnode. unfold discover. case_bool_decide as Hin; [by repeat split|].
  split_and!; simpl; [|set_solver..|].
  - split; simpl.
    + rewrite Hv. set_solver.
    + set_solver.
    + intros x y Hx Hnw Hcur He. rewrite elem_of_app, list_elem_of_singleton in Hnw.
      apply elem_of_union_r, (Hc x); set_solver.
    + intros x. rewrite elem_of_app, list_elem_of_singleton. set_solver.
    + set_solver.
  - unfold turns_left; simpl. rewrite length_app; simpl.
    replace (nodes ∖ ({[v]} ∪ visited s)) with ((nodes ∖ visited s) ∖ {[v]}) by set_solver.
    rewrite size_difference by set_solver. rewrite size_singleton.
    assert (size (nodes ∖ visited s) ≠ 0%nat) by (apply size_non_empty_iff; set_solver). lia.
Qed.

Lemma discover_all_inv cur vs s :
  search_inv cur s → (∀ v, v ∈ vs → rtc (edge adj) self v ∧ v ∈ nodes) →
  let s' := fold_left discover vs s in
  search_inv cur s' ∧ (∀ v, v ∈ vs → v ∈ visited s') ∧ visited s ⊆ visited s' ∧
  turns_left s' = turns_left s.
Proof.
  revert s; induction vs as [|v vs IH]; intros s Hinv Hvs; simpl.
  { split_and!; [done| |done|done]. by intros v ?%elem_of_nil. }
  destruct (Hvs v) as [Hr Hn]; [by left|].
  destruct (discover_inv cur s v Hinv Hr Hn) as (H1 & H2 & H3 & H4).
  destruct (IH (discover s v) H1) as (H5 & H6 & H7 & H8).
  { intros w Hw. apply Hvs. by right. }
  split_and!; [done| |set_solver|lia]. intros w [->|Hw]%elem_of_cons; [by apply H7|by apply H6].
Qed.

Lemma bfs_step_inv u rest s :
  search_inv None s → work s = u :: rest →
  let s' := bfs_step adj u (mk_search rest (visited s) (reachable s)) in
  search_inv None s' ∧ S (turns_left s') = turns_left s.
Proof.
  intros [Hv Hs Hc Hw Hn] Hwork.
  set (s0 := mk_search rest (visited s) (reachable s)).
  assert (u ∈ visited s) as Hu by (apply Hw; rewrite Hwork; by left).
  assert (search_inv (Some u) s0) as H0.
  { split; simpl; try done.
    - intros x y Hx Hnr Hne. apply Hc; [done| |done]. rewrite Hwork. set_solver.
    - intros x Hx. apply Hw. rewrite Hwork. by right. }
  assert (S (turns_left s0) = turns_left s) as Ht by (unfold turns_left; simpl; by rewrite Hwork).
  assert (∀ y, edge adj u y → rtc (edge adj) self y ∧ y ∈ nodes) as Hnb.
  { intros y Hy. split; [eapply rtc_r; eauto|by eapply edge_nodes]. }
  unfold bfs_step. unfold edge in Hnb. destruct (adj !! u) as [vs|] eqn:E; simpl in Hnb.
  - destruct (discover_all_inv (Some u) (elements vs) s0 H0) as (H1 & H2 & H3 & H4).
    { intros v Hin. apply Hnb. by apply elem_of_elements. }
    split; [|lia]. destruct H1 as [Hv1 Hs1 Hc1 Hw1 Hn1]. split; try done.
    intros x y Hx Hnw _ He. destruct (decide (x = u)) as [->|Hne].
    + apply H2, elem_of_elements. unfold edge in He. by rewrite E in He.
    + apply (Hc1 x); congruence.
  - split; [|lia]. destruct H0 as [Hv1 Hs1 Hc1 Hw1 Hn1]. split; try done.
    intros x y Hx Hnw _ He. destruct (decide (x = u)) as [->|Hne].
    + unfold edge in He. rewrite E in He. simpl in He. set_solver.
    + apply (Hc1 x); congruence.
Qed.

(** With one turn of fuel per turn left, the loop ends with an empty queue. *)
Lemma bfs_done fuel s :
  search_inv None s → (turns_left s ≤ fuel)%nat →
  search_inv None (bfs fuel adj s) ∧ work (bfs fuel adj s) = [].
Proof.
  revert s; induction fuel as [|fuel IH]; intros s Hinv Hf.
  - simpl. split; [done|]. unfold turns_left in Hf. apply nil_length_inv. lia.
  - cbn [bfs]. destruct (work s) as [|u rest] eqn:E; [done|].
    destruct (bfs_step_inv u rest s Hinv E) as [H1 H2]. apply IH; [done|lia].
Qed.

Lemma search_inv_init : search_inv None (mk_search [self] {[self]} ∅).
Proof. split; simpl; set_solver. Qed.

Lemma turns_left_init :
  turns_left (mk_search [self] {[self]} ∅) = bfs_fuel self adj.
Proof.
  unfold turns_left, bfs_fuel. cbn [work visited length]. fold nodes.
  assert (({[self]} : gset peer_id) ⊆ nodes) as Hsub by (unfold nodes; set_solver).
  rewrite size_difference, size_singleton by done.
  apply subseteq_size in Hsub. rewrite size_singleton in Hsub. lia.
Qed.

Lemma bfs_reachable x :
  let s := bfs (bfs_fuel self adj) adj (mk_search [self] {[self]} ∅) in
  work s = [] ∧ (x ∈ reachable s ∖ {[self]} ↔ x ≠ self ∧ rtc (edge adj) self x).
Proof.
  destruct (bfs_done (bfs_fuel self adj) _ search_inv_init) as [[Hv Hs Hc Hw Hn] He].
  { by rewrite turns_left_init. }
  split; [done|]. set (s := bfs _ _ _) in *.
  assert (∀ y, y ∈ visited s ↔ rtc (edge adj) self y) as Hall.
  { intros y. split; [apply Hs|]. intros Hr.
    revert y Hr. apply (rtc_ind_r (λ y, y ∈ visited s)); [rewrite Hv; set_solver|].
    intros a b _ Hab IH. apply (Hc a b IH); [rewrite He; set_solver|done|done]. }
  rewrite elem_of_difference, elem_of_singleton, <-Hall, Hv. set_solver.
Qed.

End search.

Lemma rtc_edge_linked m x y : rtc (edge (adjacency m)) x y ↔ rtc (linked m) x y.
Proof. split; apply rtc_subrel; intros a b; by rewrite edge_adjacency. Qed.

Lemma elem_of_compute_reachable m x : x ∈ compute_reachable m ↔ is_member m x.
Proof.
  unfold compute_reachable, is_member. rewrite <-rtc_edge_linked.
  apply (bfs_reachable (adjacency m) (self_ m)).
  intros a b. rewrite !edge_adjacency. apply linked_sym.
Qed.

(** ** The members are the reachable nodes, at all times *)

(** The published member set is the connected component of the current graph. *)
Definition synced (m : t) : Prop := ∀ x, x ∈ members_ m ↔ is_member m x.

(** What a computation of the member set depends on. *)
Definition same_graph (m1 m2 : t) : Prop :=
  self_ m1 = self_ m2 ∧ selfNeighbors_ m1 = selfNeighbors_ m2 ∧ view_ m1 = view_ m2.

#[global] Instance is_member_proper : Proper (same_graph ==> eq ==> iff) is_member.
Proof.
  intros m1 m2 (E1 & E2 & E3) x ? <-. unfold is_member, linked, claims.
  by rewrite E1, E2, E3.
Qed.

#[global] Instance compute_reachable_proper : Proper (same_graph ==> eq) compute_reachable.
Proof.
  intros m1 m2 (E1 & E2 & E3). unfold compute_reachable, adjacency. by rewrite E1, E2, E3.
Qed.

Lemma recompute_members m :
  same_graph (recompute_and_fire m).1 m ∧
  members_ (recompute_and_fire m).1 = compute_reachable m ∧
  selfVersion_ (recompute_and_fire m).1 = selfVersion_ m ∧
  lastSelfFlood_ (recompute_and_fire m).1 = lastSelfFlood_ m ∧
  cfg_ (recompute_and_fire m).1 = cfg_ m.
Proof. unfold recompute_and_fire. case_bool_decide; by repeat split. Qed.

Lemma recompute_synced m : synced (recompute_and_fire m).1.
Proof.
  destruct (recompute_members m) as (Hg & Hm & _). intros x.
  rewrite Hm, Hg. apply elem_of_compute_reachable.
Qed.

(** Operations that leave graph and members alone keep them in step. *)
Lemma synced_same m1 m2 :
  same_graph m1 m2 → members_ m1 = members_ m2 → synced m2 → synced m1.
Proof. intros Hg Hm Hs x. rewrite Hm, Hg. apply Hs. Qed.


(** ** Runs *)

Inductive op :=
  | SetNeighbors (ns : list peer_id) (now : Z)
  | RemoteRecord (rec : membership_record) (inboundFd now : Z)
  | Tick (now : Z).

Definition step (m : t) (o : op) : t * list effect :=
  match o with
  | SetNeighbors ns now => set_local_neighbors ns now m
  | RemoteRecord rec fd now => on_remote_record rec fd now m
  | Tick now => tick now m
  end.

(** The state after a run and everything it asked of its surroundings. *)
Fixpoint run (m : t) (os : list op) : t * list effect :=
  match os with
  | [] => (m, [])
  | o :: os =>
      let '(m1, e1) := step m o in
      let '(m2, e2) := run m1 os in (m2, e1 ++ e2)
  end.

(** The application's side: the set it builds from join and leave events
    ([None] when it is told of a join it already knows or of a leave of a node
    it does not), and the last snapshot published. *)
Definition observe (o : option (gset peer_id * list peer_id)) (e : effect)
    : option (gset peer_id * list peer_id) :=
  '(s, snap) ← o;
  match e with
  | MemberJoined id => if decide (id ∈ s) then None else Some ({[id]} ∪ s, snap)
  | MemberLeft id => if decide (id ∈ s) then Some (s ∖ {[id]}, snap) else None
  | MembersSnapshot ids => Some (s, ids)
  | FloodFrame _ _ => Some (s, snap)
  end.

Lemma observe_joins l s snap :
  NoDup l → (∀ x, x ∈ l → x ∉ s) →
  fold_left observe (map MemberJoined l) (Some (s, snap)) = Some (list_to_set l ∪ s, snap).
Proof.
  revert s; induction l as [|x l IH]; intros s Hnd Hl; simpl; [by rewrite (left_id_L ∅ (∪))|].
  apply list.NoDup_cons in Hnd as [Hx Hnd].
  rewrite decide_False by (apply Hl; by left).
  rewrite IH; [|done|].
  - do 2 f_equal. set_solver.
  - intros y Hy. specialize (Hl y). set_solver.
Qed.

Lemma observe_leaves l s snap :
  NoDup l → (∀ x, x ∈ l → x ∈ s) →
  fold_left observe (map MemberLeft l) (Some (s, snap)) = Some (s ∖ list_to_set l, snap).
Proof.
  revert s; induction l as [|x l IH]; intros s Hnd Hl; simpl.
  { do 2 f_equal. set_solver. }
  apply list.NoDup_cons in Hnd as [Hx Hnd].
  rewrite decide_True by (apply Hl; by left).
  rewrite IH; [|done|].
  - do 2 f_equal. set_solver.
  - intros y Hy. specialize (Hl y). set_solver.
Qed.

(** The application's view agrees with the state: same set, and the last
    snapshot lists it. *)
Definition agrees (m : t) (o : option (gset peer_id * list peer_id)) : Prop :=
  ∃ snap, o = Some (members_ m, snap) ∧ list_to_set snap = members_ m.

Lemma recompute_agrees m o :
  agrees m o → agrees (recompute_and_fire m).1 (fold_left observe (recompute_and_fire m).2 o).
Proof.
  intros (snap & -> & Hsnap).
  assert (∀ tl, fold_left observe (map MemberJoined (filter (λ id, id ∉ members_ m)
      (elements (compute_reachable m))) ++ map MemberLeft (filter (λ id, id ∉ compute_reachable m)
      (elements (members_ m))) ++ tl) (Some (members_ m, snap)) =
    fold_left observe tl (Some (compute_reachable m, snap))) as Hobs.
  { intros tl. rewrite !fold_left_app, observe_joins, observe_leaves.
    - f_equal. do 2 f_equal. apply set_eq. intros x.
      rewrite elem_of_difference, elem_of_union, !elem_of_list_to_set, !list_elem_of_filter,
        !elem_of_elements. destruct (decide (x ∈ members_ m)), (decide (x ∈ compute_reachable m));
        tauto.
    - apply NoDup_filter, NoDup_elements.
    - intros x. rewrite list_elem_of_filter, elem_of_elements. set_solver.
    - apply NoDup_filter, NoDup_elements.
    - intros x. rewrite list_elem_of_filter. tauto. }
  unfold recompute_and_fire. case_bool_decide as Heq.
  - specialize (Hobs []). rewrite app_nil_r in Hobs. cbn [fst snd]. rewrite Hobs, Heq.
    by exists snap.
  - cbn [fst snd]. rewrite Hobs. exists (elements (compute_reachable m)).
    split; [done|]. by rewrite list_to_set_elements_L.
Qed.

(** Every step that changes the graph ends with [recompute_and_fire] on it,
    possibly followed by a flood, which the application does not see. *)
Lemma observe_flood o frame fd : observe o (FloodFrame frame fd) = o.
Proof. by destruct o as [[]|]. Qed.

Lemma flood_self_agrees fd now m o :
  agrees m o → agrees (flood_self fd now m).1 (fold_left observe (flood_self fd now m).2 o).
Proof. intros H. cbn -[observe]. by rewrite observe_flood. Qed.

Lemma agrees_same m1 m2 o : members_ m1 = members_ m2 → agrees m2 o → agrees m1 o.
Proof. intros E (snap & Ho & Hs). exists snap. by rewrite E. Qed.

Lemma step_agrees m o obs :
  agrees m obs → agrees (step m o).1 (fold_left observe (step m o).2 obs).
Proof.
  intros H. destruct o as [ns now|rec fd now|now]; cbn [step].
  - unfold set_local_neighbors. case_bool_decide; [done|].
    pose proof (recompute_agrees (with_neighbors m (merge_sort peer_id_le ns)) obs H) as H1.
    destruct (recompute_and_fire _) as [m1 e1]. cbn [fst snd] in H1.
    pose proof (flood_self_agrees (-1) now m1 _ H1) as H2.
    destruct (flood_self _ _ _) as [m2 e2]. cbn [fst snd] in *. by rewrite fold_left_app.
  - unfold on_remote_record. destruct (peer_id_eqb _ _); [done|].
    destruct (is_stale rec m); [done|].
    match goal with |- context [recompute_and_fire ?x] =>
      pose proof (recompute_agrees x obs H) as H1 end.
    destruct (recompute_and_fire _) as [m1 e1]. cbn [fst snd] in *.
    rewrite fold_left_app. cbn [fold_left]. by rewrite observe_flood.
  - unfold tick. set (kept := filter _ _). cbv zeta.
    assert (∃ m1 e1, (if bool_decide (kept = view_ m) then (m, [])
      else recompute_and_fire (with_view m kept)) = (m1, e1) ∧
      agrees m1 (fold_left observe e1 obs)) as (m1 & e1 & -> & H1).
    { case_bool_decide; [by exists m, []|].
      pose proof (recompute_agrees (with_view m kept) obs H).
      destruct (recompute_and_fire _) as [m1 e1]. eauto. }
    destruct (_ <=? _); [|done].
    pose proof (flood_self_agrees (-1) now m1 _ H1) as H2.
    destruct (flood_self _ _ _) as [m2 e2]. cbn [fst snd] in *. by rewrite fold_left_app.
Qed.

Lemma step_synced m o : synced m → synced (step m o).1.
Proof.
  intros H. destruct o as [ns now|rec fd now|now]; cbn [step].
  - unfold set_local_neighbors. case_bool_decide; [done|].
    pose proof (recompute_synced (with_neighbors m (merge_sort peer_id_le ns))) as H1.
    destruct (recompute_and_fire _) as [m1 e1]. exact H1.
  - unfold on_remote_record. destruct (peer_id_eqb _ _); [done|].
    destruct (is_stale rec m); [done|].
    match goal with |- context [recompute_and_fire ?x] =>
      pose proof (recompute_synced x) as H1 end.
    destruct (recompute_and_fire _) as [m1 e1]. exact H1.
  - unfold tick. set (kept := filter _ _). cbv zeta.
    pose proof (recompute_synced (with_view m kept)) as H1.
    destruct (bool_decide (kept = view_ m)); [by destruct (_ <=? _)|].
    destruct (recompute_and_fire _) as [m1 e1]. by destruct (_ <=? _).
Qed.

Lemma run_ind (P : t → option (gset peer_id * list peer_id) → Prop) :
  (∀ m o obs, P m obs → P (step m o).1 (fold_left observe (step m o).2 obs)) →
  ∀ os m obs, P m obs → P (run m os).1 (fold_left observe (run m os).2 obs).
Proof.
  intros Hstep. induction os as [|o os IH]; intros m obs H; simpl; [done|].
  specialize (Hstep m o obs H). destruct (step m o) as [m1 e1].
  specialize (IH m1 _ Hstep). destruct (run m1 os) as [m2 e2]. simpl in *.
  by rewrite fold_left_app.
Qed.

Lemma make_synced self cfg wall : synced (make self cfg wall).
Proof.
  intros x. split; [set_solver|]. intros [Hne Hr]. exfalso. apply Hne. symmetry.
  inversion Hr as [|a y b Hl]; subst; [done|].
  destruct Hl as [[[_ Hn]|(e & Hn & _)]|[[_ Hn]|(e & Hn & _)]]; simpl in Hn;
    try (by rewrite lookup_empty in Hn); by apply elem_of_nil in Hn.
Qed.

(** [C12] The member set is exactly the connected component: after any sequence
    of neighbour changes, received records and ticks, a node is a member iff it
    is not this node and a path of links, each vouched for by one of its ends
    in the current records, leads to it.  The breadth-first search behind it
    empties its queue within one turn per node. *)
Theorem members_are_component self cfg wall os :
  let m := (run (make self cfg wall) os).1 in
  (∀ x, x ∈ members_ m ↔ x ≠ self_ m ∧ rtc (linked m) (self_ m) x) ∧
  work (bfs (bfs_fuel (self_ m) (adjacency m)) (adjacency m)
    (mk_search [self_ m] {[self_ m]} ∅)) = [].
Proof.
  intros m. split.
  - change (synced m). subst m.
    apply (run_ind (λ m _, synced m) (λ m o _, step_synced m o) os _ None), make_synced.
  - apply (bfs_reachable (adjacency m) (self_ m)); [|exact self].
    intros a b. rewrite !edge_adjacency. apply linked_sym.
Qed.

(** The events tell the truth: replaying the join and leave callbacks of
    any run, an application never hears of a join it already knows or of a
    leave of a node it does not, ends with exactly the member set, and the last
    published snapshot lists that set. *)
Theorem member_events_replay self cfg wall os :
  let '(m, evs) := run (make self cfg wall) os in
  ∃ snap, fold_left observe evs (Some (∅, [])) = Some (members_ m, snap) ∧
    list_to_set snap = members_ m.
Proof.
  assert (agrees (make self cfg wall) (Some (∅, []))) as H by (exists []; done).
  pose proof (run_ind agrees step_agrees os _ _ H) as Hr.
  destruct (run _ os) as [m evs]. exact Hr.
Qed.

(** ** Stale records and neighbour lists *)

Lemma view_recompute m : view_ (recompute_and_fire m).1 = view_ m.
Proof. unfold recompute_and_fire. by case_bool_decide. Qed.

Lemma frame_recompute m :
  let m' := (recompute_and_fire m).1 in
  self_ m' = self_ m ∧ cfg_ m' = cfg_ m ∧ view_ m' = view_ m.
Proof. unfold recompute_and_fire. by case_bool_decide. Qed.

(** What a step may do to the records: those of [o] never go back, and one
    disappears only in a tick more than [membershipTimeout] after it came. *)
Definition knows (o : peer_id) (v t0 : Z) (m : t) : Prop :=
  ∃ e, view_ m !! o = Some e ∧ v <= version e ∧ t0 <= lastSeen e.

(** The step happens at a time in the window [t0, t0 + membershipTimeout]. *)
Definition within (t0 : Z) (m : t) (o : op) : Prop :=
  match o with
  | SetNeighbors _ _ => True
  | RemoteRecord _ _ now => t0 <= now
  | Tick now => now <= t0 + ms (membershipTimeout (cfg_ m))
  end.

Lemma frame_step m o : self_ (step m o).1 = self_ m ∧ cfg_ (step m o).1 = cfg_ m.
Proof.
  destruct o as [ns now|rec fd now|now]; cbn [step].
  - unfold set_local_neighbors. case_bool_decide; [done|].
    pose proof (frame_recompute (with_neighbors m (merge_sort peer_id_le ns))) as Hr.
    destruct (recompute_and_fire _) as [m1 e1]. naive_solver.
  - unfold on_remote_record. destruct (peer_id_eqb _ _); [done|].
    destruct (is_stale rec m); [done|].
    match goal with |- context [recompute_and_fire ?x] => pose proof (frame_recompute x) as Hr end.
    destruct (recompute_and_fire _) as [m1 e1]. naive_solver.
  - unfold tick. set (kept := filter _ _). cbv zeta.
    pose proof (frame_recompute (with_view m kept)) as Hr.
    destruct (bool_decide (kept = view_ m)); [by destruct (_ <=? _)|].
    destruct (recompute_and_fire _) as [m1 e1]. destruct (_ <=? _); naive_solver.
Qed.

Lemma view_tick now m :
  view_ (tick now m).1 = filter (λ kv, ¬ expired m now kv.2) (view_ m).
Proof.
  unfold tick. set (kept := filter _ _). cbv zeta.
  pose proof (view_recompute (with_view m kept)) as Hr.
  case_bool_decide as Hk; [by destruct (_ <=? _)|].
  destruct (recompute_and_fire _) as [m1 e1]. by destruct (_ <=? _).
Qed.

Lemma view_set_local_neighbors ns now m :
  view_ (set_local_neighbors ns now m).1 = view_ m.
Proof.
  unfold set_local_neighbors. case_bool_decide; [done|].
  pose proof (view_recompute (with_neighbors m (merge_sort peer_id_le ns))) as Hr.
  by destruct (recompute_and_fire _) as [m1 e1].
Qed.

Lemma view_on_remote_record rec fd now m :
  view_ (on_remote_record rec fd now m).1 =
  if peer_id_eqb (m_origin rec) (self_ m) || is_stale rec m then view_ m
  else <[m_origin rec := mk_entry (m_version rec) (m_neighbors rec) now]> (view_ m).
Proof.
  unfold on_remote_record. destruct (peer_id_eqb _ _); [done|].
  destruct (is_stale rec m); [done|]. simpl.
  match goal with |- context [recompute_and_fire ?x] => pose proof (view_recompute x) as Hr end.
  by destruct (recompute_and_fire _) as [m1 e1].
Qed.

Lemma step_knows o v t0 m s : within t0 m s → knows o v t0 m → knows o v t0 (step m s).1.
Proof.
  unfold knows. intros Hw (e & He & Hv & Ht). destruct s as [ns now|rec fd now|now]; cbn [step].
  - rewrite view_set_local_neighbors. eauto.
  - rewrite view_on_remote_record. destruct (peer_id_eqb _ _) eqn:Hself; [eauto|].
    destruct (is_stale rec m) eqn:Hst; [eauto|]. simpl.
    destruct (decide (m_origin rec = o)) as [<-|Hne].
    + rewrite lookup_insert_eq. eexists; split; [done|]. simpl.
      unfold is_stale in Hst. rewrite He in Hst. cbn in Hw. lia.
    + rewrite lookup_insert_ne by done. eauto.
  - rewrite view_tick. exists e. split; [|done]. apply map_lookup_filter_Some.
    split; [done|]. unfold expired, within in *. simpl. lia.
Qed.

Definition all_within (t0 : Z) (m : t) (os : list op) : Prop := Forall (within t0 m) os.

Lemma run_knows o v t0 os m : all_within t0 m os → knows o v t0 m → knows o v t0 (run m os).1.
Proof.
  unfold all_within.
  revert m; induction os as [|s os IH]; intros m Hw Hk; simpl; [done|].
  apply list.Forall_cons in Hw as [Hs Hw].
  pose proof (step_knows o v t0 m s Hs Hk) as H1. destruct (frame_step m s) as [_ Hcfg].
  destruct (step m s) as [m1 e1]. simpl in *.
  specialize (IH m1). destruct (run m1 os) as [m2 e2]. simpl in *. apply IH; [|done].
  eapply list.Forall_impl; [exact Hw|]. intros []; simpl; by rewrite ?Hcfg.
Qed.

(** A record of version [v] or less of a known origin changes nothing. *)
Lemma stale_ignored rec fd now m t0 :
  knows (m_origin rec) (m_version rec) t0 m → on_remote_record rec fd now m = (m, []).
Proof.
  intros (e & He & Hv & _). unfold on_remote_record, is_stale. rewrite He.
  destruct (peer_id_eqb _ _); [done|]. by rewrite (proj2 (Z.leb_le _ _) Hv).
Qed.

Lemma accept_knows rec fd now m :
  m_origin rec ≠ self_ m →
  knows (m_origin rec) (m_version rec) now (on_remote_record rec fd now m).1 ∨
  (on_remote_record rec fd now m = (m, []) ∧ is_stale rec m = true).
Proof.
  intros Hne. destruct (is_stale rec m) eqn:Hst.
  { right. split; [|done]. unfold on_remote_record. rewrite Hst. by destruct (peer_id_eqb _ _). }
  left. unfold knows. rewrite view_on_remote_record, Hst, (proj2 (peer_id_eqb_neq _ _) Hne). simpl.
  rewrite lookup_insert_eq. eexists; split; [done|]. simpl. lia.
Qed.

(** Flooding a record stops: once a record has been accepted at [t0],
    every copy of it, and every older record of its origin, that arrives before
    [membershipTimeout] has passed is dropped without changing the state,
    without an event and without being flooded again, whatever happens in
    between. *)
Theorem record_flooded_once rec fd t0 os rec' fd' now' m :
  m_origin rec ≠ self_ m → is_stale rec m = false → m_origin rec' = m_origin rec →
  m_version rec' <= m_version rec → all_within t0 m os →
  let m1 := (on_remote_record rec fd t0 m).1 in
  on_remote_record rec' fd' now' (run m1 os).1 = ((run m1 os).1, []).
Proof.
  intros Hne Hst Ho Hv Hw m1.
  destruct (accept_knows rec fd t0 m Hne) as [Hk|[_ Hk]]; [|congruence].
  apply (stale_ignored _ _ _ _ t0). rewrite Ho.
  assert (knows (m_origin rec) (m_version rec) t0 (run m1 os).1) as (e & He & Hve & Ht).
  { apply run_knows; [|done]. unfold all_within in *.
    eapply list.Forall_impl; [exact Hw|]. destruct (frame_step m (RemoteRecord rec fd t0)) as [_ E].
    cbn [step] in E. intros []; simpl; subst m1; by rewrite ?E. }
  exists e. split_and!; [done|lia|done].
Qed.

Definition sample_node : t := make (sample_id 1) (default_config (sample_id 1)) 0.
Definition sample_record : membership_record :=
  mk_membership_record (sample_id 2) 7 [sample_id 1; sample_id 3].
Definition sample_run : t :=
  (run (on_remote_record sample_record 5 100 sample_node).1
     [SetNeighbors [sample_id 2] 150; Tick 200]).1.

Lemma record_flooded_once_witness :
  on_remote_record sample_record 6 300 sample_run = (sample_run, []).
Proof.
  apply (record_flooded_once sample_record 5 100 [SetNeighbors [sample_id 2] 150; Tick 200]
    sample_record 6 300 sample_node).
  - vm_compute. congruence.
  - vm_compute. reflexivity.
  - reflexivity.
  - vm_compute. congruence.
  - unfold all_within. repeat constructor; vm_compute; congruence.
Defined.

(** ** The neighbour list as a set *)

#[global] Instance peer_id_le_order : PartialOrder peer_id_le.
Proof.
  unfold peer_id_le. pose proof peer_id_lt_strict as [Hirr Htr]. repeat split.
  - intros a. apply peer_id_ltb_irrefl.
  - intros a b c Hab Hbc. destruct (decide (a = b)) as [->|Hne1]; [done|].
    destruct (decide (b = c)) as [->|Hne2]; [done|].
    destruct (decide (a = c)) as [->|Hne3]; [apply peer_id_ltb_irrefl|].
    rewrite (peer_id_ltb_flip a c) by done.
    rewrite (peer_id_ltb_flip a b) in Hab by done. rewrite (peer_id_ltb_flip b c) in Hbc by done.
    apply negb_false_iff in Hab, Hbc. by rewrite (Htr _ _ _ Hab Hbc).
  - intros a b Hab Hba. destruct (decide (a = b)) as [->|Hne]; [done|].
    rewrite (peer_id_ltb_flip a b), Hba in Hab by done. discriminate.
Qed.

#[global] Instance peer_id_le_total : Total peer_id_le.
Proof.
  intros a b. unfold peer_id_le. destruct (peer_id_ltb b a) eqn:E; [right|by left].
  destruct (decide (a = b)) as [->|Hne]; [apply peer_id_ltb_irrefl|].
  rewrite (peer_id_ltb_flip a b) in E by done. by apply negb_true_iff.
Qed.

Lemma sort_permutation l1 l2 : l1 ≡ₚ l2 → merge_sort peer_id_le l1 = merge_sort peer_id_le l2.
Proof.
  intros Hp. apply (StronglySorted_unique peer_id_le).
  - apply (StronglySorted_merge_sort _).
  - apply (StronglySorted_merge_sort _).
  - by rewrite !merge_sort_Permutation.
Qed.

Lemma selfNeighbors_set ns now m :
  selfNeighbors_ (set_local_neighbors ns now m).1 = merge_sort peer_id_le ns.
Proof.
  unfold set_local_neighbors. case_bool_decide as Hd; [by rewrite Hd|].
  unfold recompute_and_fire. by case_bool_decide.
Qed.

(** Only a change of the neighbour set is announced: a call that passes
    the set the node already has, in whatever order the connections are listed,
    changes nothing, raises no event and floods nothing; and any call leaves
    exactly the passed nodes as the neighbours. *)
Theorem neighbours_change_only ns1 ns2 now1 now2 m :
  let m1 := (set_local_neighbors ns1 now1 m).1 in
  (ns1 ≡ₚ ns2 → set_local_neighbors ns2 now2 m1 = (m1, [])) ∧
  (¬ ns1 ≡ₚ ns2 → ∃ evs m2, set_local_neighbors ns2 now2 m1 =
    (m2, evs ++ [FloodFrame (encode_membership
       (mk_membership_record (self_ m) (selfVersion_ m2) (merge_sort peer_id_le ns2))) (-1)])) ∧
  selfNeighbors_ m1 ≡ₚ ns1.
Proof.
  intros m1. pose proof (selfNeighbors_set ns1 now1 m) as Hn. fold m1 in Hn.
  assert (self_ m1 = self_ m) as Hs by apply (frame_step m (SetNeighbors ns1 now1)).
  split_and!.
  - intros Hp. unfold set_local_neighbors. rewrite Hn, (sort_permutation _ _ Hp).
    by rewrite bool_decide_true.
  - intros Hp. unfold set_local_neighbors at 1. rewrite Hn, bool_decide_false.
    2:{ intros E. apply Hp. by rewrite <- (merge_sort_Permutation peer_id_le ns1), <- E,
          merge_sort_Permutation. }
    unfold recompute_and_fire. case_bool_decide; cbn; rewrite Hs; by eexists _, (mk _ _ _ _ _ _ _).
  - by rewrite Hn, merge_sort_Permutation.
Qed.

(** A node that falls silent is forgotten: after a tick at [now] the
    member set is the component of the records received within
    [membershipTimeout] of [now]; every other record has been dropped and
    carries no link any more. *)
Theorem tick_expires_silent self cfg wall os now :
  let m := (run (make self cfg wall) os).1 in
  let m' := (tick now m).1 in
  (∀ o e, view_ m' !! o = Some e ↔
     view_ m !! o = Some e ∧ now - lastSeen e <= ms (membershipTimeout (cfg_ m))) ∧
  (∀ x, x ∈ members_ m' ↔ x ≠ self_ m' ∧ rtc (linked m') (self_ m') x).
Proof.
  intros m m'. split.
  - intros o e. subst m'. rewrite view_tick, map_lookup_filter_Some. unfold expired. simpl.
    rewrite Z.nlt_ge. tauto.
  - change (synced m'). apply (step_synced m (Tick now)). subst m.
    apply (run_ind (λ m _, synced m) (λ m o _, step_synced m o) os _ None), make_synced.
Qed.

End membership.
