(* ===== verification/MembershipNet.v ===== *)
(** * A network of memberships

    The membership components of several nodes (Membership.v) joined by links:
    the records one node floods travel as frames and reach [on_remote_record]
    of its neighbours through the decoder (Wire.v), in any order.  The theorem
    is what the protocol is for: while the links stay as they are, every node
    comes to list exactly the nodes that a path of links leads to. *)
From Stdlib Require Import ZArith Lia.
From Stdlib.Strings Require Import Byte.
From stdpp Require Import base gmap sets list strings numbers option relations.
From S2P Require Import Prelude PeerId Wire WireFacts Config Membership Network.

Module membership_network.
Import network(packet, mk_packet, p_from, p_to, p_frame).

(** What an operation floods. *)
Definition floods (es : list membership.effect) : list (list byte * Z) :=
  omap (λ e, match e with membership.FloodFrame frame fd => Some (frame, fd) | _ => None end) es.

Lemma floods_recompute m : floods (membership.recompute_and_fire m).2 = [].
Proof.
  assert (∀ (f : peer_id → membership.effect) l,
    (∀ x, floods [f x] = []) → floods (map f l) = []) as Hm.
  { intros f l Hf. induction l as [|x l IH]; [done|]. unfold floods in *. simpl.
    specialize (Hf x). simpl in Hf. by destruct (f x). }
  unfold membership.recompute_and_fire, floods. case_bool_decide; simpl; rewrite !omap_app;
    fold (floods); rewrite !Hm; done.
Qed.

(** The record a node floods about itself. *)
Definition self_record (m : membership.t) : membership_record :=
  mk_membership_record (membership.self_ m) (membership.selfVersion_ m) (membership.selfNeighbors_ m).

(** A tick drops what has expired and, when that is due, floods a new record. *)
Lemma tick_shape now m :
  let r := membership.tick now m in
  membership.self_ r.1 = membership.self_ m ∧ membership.cfg_ r.1 = membership.cfg_ m ∧
  membership.selfNeighbors_ r.1 = membership.selfNeighbors_ m ∧
  membership.view_ r.1 = filter (λ kv, ¬ membership.expired m now kv.2) (membership.view_ m) ∧
  if ms (membershipInterval (membership.cfg_ m)) <=? now - membership.lastSelfFlood_ m then
    membership.selfVersion_ r.1 = wrap 64 (membership.selfVersion_ m + 1) ∧
    floods r.2 = [(encode_membership (self_record r.1), -1)]
  else
    membership.selfVersion_ r.1 = membership.selfVersion_ m ∧ floods r.2 = [] ∧
    membership.lastSelfFlood_ r.1 = membership.lastSelfFlood_ m.
Proof.
  cbv zeta. unfold membership.tick. set (kept := filter _ _).
  assert (∃ m1 e1, (if bool_decide (kept = membership.view_ m) then (m, [])
    else membership.recompute_and_fire (membership.with_view m kept)) = (m1, e1) ∧
    membership.same_graph m1 (membership.with_view m kept) ∧ membership.cfg_ m1 = membership.cfg_ m ∧
    membership.selfVersion_ m1 = membership.selfVersion_ m ∧
    membership.lastSelfFlood_ m1 = membership.lastSelfFlood_ m ∧ floods e1 = [])
    as (m1 & e1 & -> & (H1 & H2 & H3) & H4 & H5 & H6 & H7).
  { case_bool_decide as E.
    - by exists m, [].
    - pose proof (membership.recompute_members (membership.with_view m kept)) as (? & _ & ? & ? & ?).
      pose proof (floods_recompute (membership.with_view m kept)).
      destruct (membership.recompute_and_fire _) as [m1 e1]. by exists m1, e1. }
  simpl in *. rewrite H4, H6. destruct (_ <=? _); simpl; rewrite ?H1, ?H2, ?H3, ?H5; [|done].
  unfold floods in *. rewrite omap_app, H7. done.
Qed.

Lemma remote_shape rec fd now m :
  let r := membership.on_remote_record rec fd now m in
  membership.self_ r.1 = membership.self_ m ∧ membership.cfg_ r.1 = membership.cfg_ m ∧
  membership.selfNeighbors_ r.1 = membership.selfNeighbors_ m ∧
  membership.selfVersion_ r.1 = membership.selfVersion_ m ∧
  membership.lastSelfFlood_ r.1 = membership.lastSelfFlood_ m ∧
  if bool_decide (m_origin rec = membership.self_ m) || membership.is_stale rec m then
    membership.view_ r.1 = membership.view_ m ∧ floods r.2 = []
  else
    membership.view_ r.1 =
      <[m_origin rec := membership.mk_entry (m_version rec) (m_neighbors rec) now]> (membership.view_ m) ∧
    floods r.2 = [(encode_membership rec, fd)].
Proof.
  cbv zeta. unfold membership.on_remote_record. rewrite peer_id_eqb_decide.
  destruct (bool_decide _); [done|]. destruct (membership.is_stale rec m); [done|]. simpl.
  set (m0 := membership.with_view m _).
  pose proof (membership.recompute_members m0) as ((? & ? & ?) & _ & ? & ? & ?).
  pose proof (floods_recompute m0) as Hf.
  destruct (membership.recompute_and_fire m0) as [m1 e1]. simpl in *.
  split_and!; try done. unfold floods in *. by rewrite omap_app, Hf.
Qed.

(** ** The network *)

Record t := mk { nodes_ : gmap peer_id membership.t; inflight : list packet }.

Inductive action := Tick (u : peer_id) (now : Z) | Deliver (k : nat) (now : Z).

Section topology.

(** The neighbours of each node and the socket by which it knows each. *)
Context (links : peer_id → list peer_id) (fd_of : peer_id → peer_id → Z).

Definition link (a b : peer_id) : Prop := b ∈ links a.

(** [forward_except] of node [u], to which membership's [flood_] is bound. *)
Definition flood_from (u : peer_id) (x : list byte * Z) : list packet :=
  map (λ v, mk_packet u v x.1) (filter (λ v, fd_of u v ≠ x.2) (links u)).

(** Node [u] has carried out an operation. *)
Definition perform (u : peer_id) (r : membership.t * list membership.effect) (s : t) : t :=
  mk (<[u := r.1]> (nodes_ s)) (inflight s ++ concat (map (flood_from u) (floods r.2))).

(** The packet [pk] arrives: [peer_manager::on_peer_membership]. *)
Definition receive (max now : Z) (pk : packet) (s : t) : t :=
  match nodes_ s !! p_to pk with
  | None => s
  | Some m =>
      match try_decode_frame (p_frame pk) max parsed_frame_zero 0 with
      | (Ok, pf, _) =>
          if bool_decide (pf_type pf = Membership)
          then perform (p_to pk) (membership.on_remote_record (pf_membership pf)
                                    (fd_of (p_to pk) (p_from pk)) now m) s
          else s
      | _ => s
      end
  end.

Definition act (max : Z) (a : action) (s : t) : option t :=
  match a with
  | Tick u now => m ← nodes_ s !! u; Some (perform u (membership.tick now m) s)
  | Deliver k now =>
      pk ← inflight s !! k; Some (receive max now pk (mk (nodes_ s) (delete k (inflight s))))
  end.

Fixpoint run (max : Z) (l : list action) (s : t) : option t :=
  match l with [] => Some s | a :: l => s' ← act max a s; run max l s' end.

(** ** A period of stable links *)

Section period.

(** The nodes, their versions when the period begins, and their neighbour lists;
    records older than the period were received by [told], the period begins at
    [t0]; [TO] and [IV] are timeout and interval; [max] the receivers' limit. *)
Context (N : gset peer_id) (V0 : peer_id → Z) (nb : peer_id → list peer_id).
Context (C : peer_id → mesh_config) (told t0 TO IV max : Z).

Definition record_of (o : peer_id) (w : Z) : membership_record := mk_membership_record o w (nb o).
Definition frame_of (o : peer_id) (w : Z) : list byte := encode (MsgMembership (record_of o w)).

Context (times : told < t0).
Context (nb_links : ∀ a b, b ∈ nb a ↔ link a b).
Context (nb_short : ∀ a, (length (nb a) ≤ max_neighbors)%nat).
Context (frames_fit : ∀ o w, fits max (MsgMembership (record_of o w))).
Context (fd_inj : ∀ v a b, fd_of v a = fd_of v b → a = b) (fd_pos : ∀ v a, fd_of v a ≠ -1).
Context (closed : ∀ a b, a ∈ N → link a b → b ∈ N).
Context (V0_pos : ∀ v, 0 ≤ V0 v).
Context (timeouts : ∀ v, v ∈ N → membershipTimeout (C v) = TO).
Context (intervals : ∀ v, v ∈ N → membershipInterval (C v) = IV).

(** [w] is a version [o] has flooded in this period. *)
Definition issued (s : t) (o : peer_id) (w : Z) : Prop :=
  ∃ m, nodes_ s !! o = Some m ∧ V0 o < w ≤ membership.selfVersion_ m.

(** A record received before the period, or one flooded in it. *)
Definition stale_entry (o : peer_id) (e : membership.entry) : Prop :=
  membership.lastSeen e ≤ told ∧ (o ∈ N → membership.version e ≤ V0 o).
Definition fresh_entry (s : t) (v o : peer_id) (e : membership.entry) : Prop :=
  issued s o (membership.version e) ∧ membership.neighbors e = nb o ∧
  t0 ≤ membership.lastSeen e ∧ rtc link o v.

(** Node [a] has version [w] of [o]'s record, or a later one. *)
Definition has (s : t) (o : peer_id) (w : Z) (a : peer_id) : Prop :=
  a = o ∨ ∃ m e, nodes_ s !! a = Some m ∧ membership.view_ m !! o = Some e ∧ w ≤ membership.version e.

Definition node_ok (s : t) (v : peer_id) (m : membership.t) : Prop :=
  membership.self_ m = v ∧ membership.selfNeighbors_ m = nb v ∧ membership.synced m ∧
  membership.cfg_ m = C v ∧ V0 v ≤ membership.selfVersion_ m ∧
  ∀ o e, membership.view_ m !! o = Some e → stale_entry o e ∨ fresh_entry s v o e.

Definition packet_ok (s : t) (pk : packet) : Prop :=
  ∃ o w, p_frame pk = frame_of o w ∧ issued s o w ∧ has s o w (p_from pk) ∧
    link (p_from pk) (p_to pk) ∧ rtc link o (p_from pk).

(** The latest record of [o] has spread from [a] to [b] or is on its way. *)
Definition covered (s : t) (o a b : peer_id) : Prop :=
  ∀ m, nodes_ s !! o = Some m → V0 o < membership.selfVersion_ m →
  has s o (membership.selfVersion_ m) a → link a b →
  has s o (membership.selfVersion_ m) b ∨
  mk_packet a b (frame_of o (membership.selfVersion_ m)) ∈ inflight s.

(** [B] steps are left; the versions do not wrap. *)
Record inv (B : nat) (s : t) : Prop := {
  i_dom : dom (nodes_ s) = N;
  i_budget v m : nodes_ s !! v = Some m → membership.selfVersion_ m + Z.of_nat B < 2 ^ 64;
  i_node v m : nodes_ s !! v = Some m → node_ok s v m;
  i_wire : Forall (packet_ok s) (inflight s);
  i_covered o a b : covered s o a b;
}.

Lemma node_in B s v m : inv B s → nodes_ s !! v = Some m → v ∈ N.
Proof. intros Hi Hv. rewrite <-(i_dom _ _ Hi). apply elem_of_dom. by eexists. Qed.

Lemma issued_in_range B s o w : inv B s → issued s o w → in_range 64 w.
Proof.
  intros Hi (m & Hm & Hw). pose proof (i_budget _ _ Hi o m Hm). specialize (V0_pos o).
  unfold in_range. lia.
Qed.

Lemma issued_node B s o w : inv B s → issued s o w → o ∈ N.
Proof. intros Hi (m & Hm & _). by eapply node_in. Qed.

Lemma decode_frame o w : in_range 64 w →
  ∃ n pf, try_decode_frame (frame_of o w) max parsed_frame_zero 0 = (Ok, pf, n) ∧
    pf_type pf = Membership ∧ pf_membership pf = record_of o w.
Proof.
  intros Hw. do 2 eexists. split.
  - rewrite <-(app_nil_r (frame_of o w)). apply decode_encode; [done|apply frames_fit].
  - split; [done|]. cbn. by rewrite take_ge.
Qed.

Lemma frame_inj o w o' w' : in_range 64 w → in_range 64 w' →
  frame_of o w = frame_of o' w' → o = o' ∧ w = w'.
Proof.
  intros Hw Hw' E. destruct (decode_frame o w Hw) as (n & pf & H1 & _ & H2).
  destruct (decode_frame o' w' Hw') as (n' & pf' & H1' & _ & H2'). rewrite E, H1' in H1.
  injection H1 as <- <-. rewrite H2' in H2. by injection H2.
Qed.

(** ** Knowledge grows *)

(** From [s] to [s'], no version is unissued and no node forgets a record of the
    period. *)
Definition grows (s s' : t) : Prop :=
  (∀ o w, issued s o w → issued s' o w) ∧
  (∀ o w a, issued s o w → has s o w a → has s' o w a).

Lemma fresh_not_stale B s o e w :
  inv B s → issued s o w → w ≤ membership.version e → ¬ stale_entry o e.
Proof.
  intros Hi Hw Hv [_ Hs]. specialize (Hs (issued_node _ _ _ _ Hi Hw)).
  destruct Hw as (m & _ & Hw). lia.
Qed.

(** Node [u] goes from [m] to [m']. *)
Lemma grows_node B s u m m' fl :
  inv B s → nodes_ s !! u = Some m → membership.selfVersion_ m ≤ membership.selfVersion_ m' →
  (∀ o e, membership.view_ m !! o = Some e → fresh_entry s u o e →
     ∃ e', membership.view_ m' !! o = Some e' ∧ membership.version e ≤ membership.version e') →
  grows s (mk (<[u := m']> (nodes_ s)) fl).
Proof.
  intros Hi Hu Hv Hview. split.
  - intros o w (mo & Ho & Hw). destruct (decide (o = u)) as [->|Hne].
    + exists m'. rewrite Hu in Ho. injection Ho as <-. simpl. rewrite lookup_insert_eq. split; [done|lia].
    + exists mo. simpl. by rewrite lookup_insert_ne.
  - intros o w a Hw [->|(ma & e & Ha & He & Hle)]; [by left|right].
    destruct (decide (a = u)) as [->|Hne].
    + rewrite Hu in Ha. injection Ha as <-.
      destruct (i_node _ _ Hi u m Hu) as (_ & _ & _ & _ & _ & Hent).
      destruct (Hent o e He) as [Hs|Hf]; [by destruct (fresh_not_stale _ _ _ _ _ Hi Hw Hle)|].
      destruct (Hview o e He Hf) as (e' & He' & Hle'). exists m', e'. simpl.
      rewrite lookup_insert_eq. split_and!; [done|done|lia].
    + exists ma, e. simpl. by rewrite lookup_insert_ne.
Qed.

Lemma fresh_grows s s' v o e : grows s s' → fresh_entry s v o e → fresh_entry s' v o e.
Proof. intros [G _] (H1 & H2). split; [by apply G|done]. Qed.

Lemma packet_grows s s' pk : grows s s' → packet_ok s pk → packet_ok s' pk.
Proof.
  intros [G1 G2] (o & w & H1 & H2 & H3 & H4). exists o, w. split_and!; [done|by apply G1|by apply G2|apply H4..].
Qed.

(** The nodes that did not move. *)
Lemma nodes_grow B s s' u m' :
  inv B s → grows s s' → nodes_ s' = <[u := m']> (nodes_ s) → node_ok s' u m' →
  ∀ v m, nodes_ s' !! v = Some m → node_ok s' v m.
Proof.
  intros Hi G E Hu v m. rewrite E. intros [[<- <-]|[Hne Hv]]%lookup_insert_Some; [done|].
  destruct (i_node _ _ Hi v m Hv) as (H1 & H2 & H3 & H4 & H5 & H6). split_and!; try done.
  intros o e He. destruct (H6 o e He) as [?|?]; [by left|right]. by eapply fresh_grows.
Qed.

(** ** A tick *)

Lemma tick_grows B s u m now :
  inv (S B) s → nodes_ s !! u = Some m → now ≤ t0 + ms TO →
  let m' := (membership.tick now m).1 in
  (∀ fl, grows s (mk (<[u := m']> (nodes_ s)) fl)) ∧
  (∀ o e, membership.view_ m' !! o = Some e → membership.view_ m !! o = Some e) ∧
  membership.selfVersion_ m ≤ membership.selfVersion_ m' ≤ membership.selfVersion_ m + 1.
Proof.
  intros Hi Hu Hnow m'. destruct (tick_shape now m) as (_ & _ & _ & Hv & Hx).
  fold m' in Hv, Hx. destruct (i_node _ _ Hi u m Hu) as (_ & _ & _ & HTO & HV & _).
  assert (membership.selfVersion_ m ≤ membership.selfVersion_ m' ≤ membership.selfVersion_ m + 1) as Hsv.
  { destruct (_ <=? _); destruct Hx as [-> _]; [|lia]. pose proof (i_budget _ _ Hi u m Hu).
    specialize (V0_pos u). rewrite wrap_small; unfold in_range; lia. }
  assert (∀ o e, membership.view_ m' !! o = Some e → membership.view_ m !! o = Some e) as Hsub.
  { intros o e. rewrite Hv. by intros [? _]%map_lookup_filter_Some. }
  split; [|done]. intros fl. eapply grows_node; [done|done|lia|].
  intros o e He (_ & _ & Ht & _). exists e. split; [|done]. rewrite Hv.
  apply map_lookup_filter_Some. split; [done|]. unfold membership.expired.
  rewrite HTO, timeouts by (by eapply node_in). simpl. lia.
Qed.

Lemma elem_of_flood u b frame fd : link u b → fd_of u b ≠ fd → mk_packet u b frame ∈ flood_from u (frame, fd).
Proof. intros Hl Hf. apply list_elem_of_fmap. exists b. split; [done|]. by apply list_elem_of_filter. Qed.

(** What a node says of another after a tick, it has said before. *)
Lemma has_before_tick B s u m now o w a fl :
  inv (S B) s → nodes_ s !! u = Some m → now ≤ t0 + ms TO →
  has (mk (<[u := (membership.tick now m).1]> (nodes_ s)) fl) o w a → has s o w a.
Proof.
  intros Hi Hu Hnow. destruct (tick_grows B s u m now Hi Hu Hnow) as (_ & Hsub & _).
  intros [->|(ma & e & Hma & He & Hle)]; [by left|right]. simpl in Hma.
  apply lookup_insert_Some in Hma as [[<- <-]|[? ?]]; [exists m, e|exists ma, e]; split_and!; auto.
Qed.

(** A version that was just made is known to its node alone. *)
Lemma new_version_alone B s u m w a :
  inv B s → nodes_ s !! u = Some m → membership.selfVersion_ m < w → has s u w a → a = u.
Proof.
  intros Hi Hu Hw [->|(ma & e & Hma & He & Hle)]; [done|exfalso].
  destruct (i_node _ _ Hi u m Hu) as (_ & _ & _ & _ & HV & _).
  destruct (i_node _ _ Hi a ma Hma) as (_ & _ & _ & _ & _ & Hent).
  destruct (Hent u e He) as [[_ Hst]|((mu & Hmu & Hw') & _)].
  - specialize (Hst (node_in _ _ _ _ Hi Hu)). lia.
  - rewrite Hu in Hmu. injection Hmu as <-. lia.
Qed.

Lemma tick_covered B s u m now :
  inv (S B) s → nodes_ s !! u = Some m → now ≤ t0 + ms TO →
  ∀ o a b, covered (perform u (membership.tick now m) s) o a b.
Proof.
  intros Hi Hu Hnow o a b mo Ho Hlt Ha Hl.
  destruct (tick_grows B s u m now Hi Hu Hnow) as (G & Hsub & Hsv).
  destruct (tick_shape now m) as (Hs & _ & Hn & _ & Hx).
  apply (has_before_tick B) in Ha; [|done..]. destruct (i_node _ _ Hi u m Hu) as (N1 & N2 & _).
  set (r := membership.tick now m) in *. set (s' := perform u r s) in *. specialize (G (inflight s')).
  assert (o = u ∧ mo = r.1 ∧ membership.selfVersion_ m < membership.selfVersion_ mo ∨
    ∃ m0, nodes_ s !! o = Some m0 ∧ membership.selfVersion_ m0 = membership.selfVersion_ mo)
    as [(-> & -> & Hnew)|(m0 & Hm0 & E)].
  { simpl in Ho. apply lookup_insert_Some in Ho as [[<- <-]|[? ?]]; [|by right; eexists].
    destruct (decide (membership.selfVersion_ m = membership.selfVersion_ r.1)); [right; by eexists|].
    left. split_and!; [done..|lia]. }
  - assert (a = u) as -> by by eapply new_version_alone.
    right. simpl. apply elem_of_app. right.
    destruct (_ <=? _); [|destruct Hx as [? _]; lia]. destruct Hx as [_ ->].
    simpl. rewrite app_nil_r.
    replace (frame_of u _) with (encode_membership (self_record r.1))
      by (unfold frame_of, record_of, self_record; simpl; congruence).
    by apply elem_of_flood.
  - rewrite <-E in *. destruct (i_covered _ _ Hi o a b m0 Hm0 Hlt Ha Hl) as [Hb|Hb].
    + left. apply G; [|done]. exists m0. split; [done|lia].
    + right. simpl. apply elem_of_app. by left.
Qed.

Lemma tick_inv B s u m now :
  inv (S B) s → nodes_ s !! u = Some m → now ≤ t0 + ms TO →
  inv B (perform u (membership.tick now m) s).
Proof.
  intros Hi Hu Hnow. destruct (tick_grows B s u m now Hi Hu Hnow) as (G & Hsub & Hsv).
  destruct (tick_shape now m) as (Hs & Hc & Hn & Hv & Hx).
  pose proof (tick_covered B s u m now Hi Hu Hnow) as Hcov.
  pose proof (membership.step_synced m (membership.Tick now)) as Hsync. cbn [membership.step] in Hsync.
  set (r := membership.tick now m) in *. set (s' := perform u r s) in *. specialize (G (inflight s')).
  destruct (i_node _ _ Hi u m Hu) as (N1 & N2 & N3 & N4 & N5 & N6).
  pose proof (i_budget _ _ Hi u m Hu) as Hbud.
  assert (node_ok s' u r.1) as Hok.
  { split_and!; [congruence|congruence|by apply Hsync|congruence|lia|].
    intros o e He. destruct (N6 o e (Hsub o e He)) as [?|?]; [by left|right]. by eapply fresh_grows. }
  split; [| | | |done].
  - simpl. rewrite dom_insert_L, (i_dom _ _ Hi). pose proof (node_in _ _ _ _ Hi Hu). set_solver.
  - simpl. intros v mv [[<- <-]|[Hne Hmv]]%lookup_insert_Some; [lia|].
    pose proof (i_budget _ _ Hi v mv Hmv). lia.
  - by apply (nodes_grow (S B) s s' u r.1).
  - simpl. apply Forall_app. split.
    { eapply list.Forall_impl; [apply (i_wire _ _ Hi)|]. intros pk. by apply packet_grows. }
    destruct (_ <=? _); destruct Hx as [Hx1 Hx2]; [|destruct Hx2 as [-> _]; constructor].
    rewrite Hx2. simpl. rewrite app_nil_r. apply Forall_forall.
    intros pk (b & -> & [_ Hb]%list_elem_of_filter)%list_elem_of_fmap.
    exists u, (membership.selfVersion_ r.1). split_and!; [|exists r.1|by left|done|done].
    { unfold frame_of, record_of, self_record. simpl. congruence. }
    simpl. rewrite lookup_insert_eq. split; [done|]. rewrite Hx1.
    specialize (V0_pos u). rewrite wrap_small; unfold in_range; lia.
Qed.

(** ** A packet arrives *)

(** The links after a packet has been taken in, as far as they were covered
    before. *)
Lemma covered_after B s s' k pk o w :
  inv B s → grows s s' →
  (∀ x m', nodes_ s' !! x = Some m' →
     ∃ m, nodes_ s !! x = Some m ∧ membership.selfVersion_ m = membership.selfVersion_ m') →
  inflight s !! k = Some pk → p_frame pk = frame_of o w → in_range 64 w →
  has s' o w (p_to pk) → (∀ x, x ∈ delete k (inflight s) → x ∈ inflight s') →
  ∀ o' a b m', nodes_ s' !! o' = Some m' → V0 o' < membership.selfVersion_ m' →
    has s o' (membership.selfVersion_ m') a → link a b →
    has s' o' (membership.selfVersion_ m') b ∨
    mk_packet a b (frame_of o' (membership.selfVersion_ m')) ∈ inflight s'.
Proof.
  intros Hi G Hver Hk Hf Hw Hto Hsub o' a b m' Hm' Hlt Ha Hl.
  destruct (Hver o' m' Hm') as (m & Hm & E). rewrite <-E in *.
  assert (issued s o' (membership.selfVersion_ m)) as Hiss by (exists m; split; [done|lia]).
  destruct (i_covered _ _ Hi o' a b m Hm Hlt Ha Hl) as [Hb|Hb]; [left; by apply G|].
  destruct (decide (mk_packet a b (frame_of o' (membership.selfVersion_ m)) = pk)) as [Epk|Hne].
  - left. subst pk. simpl in *. apply frame_inj in Hf as [<- <-]; [done| |done].
    by eapply issued_in_range.
  - right. apply Hsub. by apply (network.elem_of_delete_other _ _ pk).
Qed.

Section arrival.

(** Version [w] of the record of [o] arrives at [v], which is in state [m], from
    [a]. *)
Context (B : nat) (s : t) (o v a : peer_id) (w now : Z) (m : membership.t).
Context (Hi : inv B s) (Hv : nodes_ s !! v = Some m) (Hiss : issued s o w).
Context (Hnow : t0 ≤ now) (Hlink : link a v) (Hreach : rtc link o a) (Hhas : has s o w a).

#[local] Abbreviation r := (membership.on_remote_record (record_of o w) (fd_of v a) now m).
#[local] Abbreviation taken := (negb (bool_decide (o = v) || membership.is_stale (record_of o w) m)).

Definition entry_of : membership.entry := membership.mk_entry w (nb o) now.

Lemma arrival_shape :
  membership.self_ r.1 = v ∧ membership.cfg_ r.1 = membership.cfg_ m ∧
  membership.selfNeighbors_ r.1 = nb v ∧ membership.selfVersion_ r.1 = membership.selfVersion_ m ∧
  membership.view_ r.1 = (if taken then <[o := entry_of]> (membership.view_ m) else membership.view_ m) ∧
  floods r.2 = (if taken then [(frame_of o w, fd_of v a)] else []).
Proof.
  destruct (i_node _ _ Hi v m Hv) as (N1 & N2 & _).
  destruct (remote_shape (record_of o w) (fd_of v a) now m) as (H1 & H2 & H3 & H4 & _ & H5).
  cbv zeta in *. cbn [m_origin record_of] in H5. rewrite N1 in *. rewrite <-N2.
  destruct (bool_decide (o = v) || _); destruct H5 as [-> ->]; by split_and!.
Qed.

(** What a node has after the arrival it had before, or it is the record. *)
Lemma arrival_view o' e :
  membership.view_ r.1 !! o' = Some e →
  membership.view_ m !! o' = Some e ∨ (o' = o ∧ e = entry_of ∧ taken = true).
Proof.
  destruct arrival_shape as (_ & _ & _ & _ & -> & _). destruct taken; [|by left].
  intros [[<- <-]|[? ?]]%lookup_insert_Some; [by right|by left].
Qed.

Lemma arrival_grows fl : grows s (mk (<[v := r.1]> (nodes_ s)) fl).
Proof.
  destruct arrival_shape as (_ & _ & _ & H4 & H5 & _).
  apply (grows_node B s v m); [done|done|lia|]. intros o' e He _. rewrite H5.
  destruct (bool_decide (o = v)); simpl; [by eexists|].
  destruct (membership.is_stale _ _) eqn:Hst; simpl; [by eexists|].
  destruct (decide (o' = o)) as [->|Hne]; [|rewrite lookup_insert_ne by done; by eexists].
  rewrite lookup_insert_eq. eexists. split; [done|]. unfold membership.is_stale in Hst.
  cbn [m_origin record_of] in Hst. rewrite He in Hst. cbn in *. lia.
Qed.

Lemma arrival_has fl : has (mk (<[v := r.1]> (nodes_ s)) fl) o w v.
Proof.
  destruct arrival_shape as (_ & _ & _ & _ & H5 & _). unfold has. simpl.
  destruct (decide (v = o)) as [->|Hne]; [by left|right]. exists r.1.
  rewrite H5, bool_decide_false by congruence. simpl.
  destruct (membership.is_stale _ _) eqn:Hst; simpl.
  - unfold membership.is_stale in Hst. cbn [m_origin m_version record_of] in Hst.
    destruct (membership.view_ m !! o) as [e|] eqn:He; [|done]. exists e.
    rewrite lookup_insert_eq. split_and!; [done..|lia].
  - exists entry_of. by rewrite !lookup_insert_eq.
Qed.

Lemma arrival_node fl : node_ok (mk (<[v := r.1]> (nodes_ s)) fl) v r.1.
Proof.
  destruct arrival_shape as (H1 & H2 & H3 & H4 & H5 & _).
  destruct (i_node _ _ Hi v m Hv) as (N1 & N2 & N3 & N4 & N5 & N6).
  pose proof (arrival_grows fl) as G.
  split_and!; [done|done| |congruence|lia|].
  - by apply (membership.step_synced m (membership.RemoteRecord (record_of o w) (fd_of v a) now)).
  - intros o' e [He|(-> & -> & _)]%arrival_view.
    + destruct (N6 o' e He) as [?|?]; [by left|right]. by eapply fresh_grows.
    + right. split_and!; [by apply G|done|done|]. by eapply rtc_r.
Qed.

Lemma arrival_inv k pk :
  inflight s !! k = Some pk → pk = mk_packet a v (frame_of o w) →
  inv B (perform v r (mk (nodes_ s) (delete k (inflight s)))).
Proof.
  intros Hk ->. set (s' := perform v r _).
  destruct arrival_shape as (H1 & H2 & H3 & H4 & H5 & H6).
  pose proof (arrival_grows (inflight s')) as G. change (mk _ _) with s' in G.
  pose proof (issued_in_range _ _ _ _ Hi Hiss) as Hw.
  split.
  - simpl. rewrite dom_insert_L, (i_dom _ _ Hi). pose proof (node_in _ _ _ _ Hi Hv). set_solver.
  - simpl. intros x mx [[<- <-]|[Hne Hmx]]%lookup_insert_Some; [rewrite H4|]; by eapply i_budget.
  - apply (nodes_grow B s s' v r.1); [done..|]. apply arrival_node.
  - simpl. apply Forall_app. split.
    { apply network.delete_Forall. eapply list.Forall_impl; [apply (i_wire _ _ Hi)|].
      intros x. by apply packet_grows. }
    rewrite H6. destruct taken; [|constructor]. simpl. rewrite app_nil_r. apply Forall_forall.
    intros x (b & -> & [_ Hb]%list_elem_of_filter)%list_elem_of_fmap.
    exists o, w. split_and!; [done|by apply G|apply arrival_has|done|]. by eapply rtc_r.
  - intros o' x b m' Hm' Hlt Hx Hl.
    assert (∀ y m', nodes_ s' !! y = Some m' →
      ∃ m, nodes_ s !! y = Some m ∧ membership.selfVersion_ m = membership.selfVersion_ m') as Hver.
    { simpl. intros y my [[<- <-]|[? ?]]%lookup_insert_Some; eauto. }
    assert (has s o' (membership.selfVersion_ m') x ∨
      (x = v ∧ o' = o ∧ membership.selfVersion_ m' ≤ w ∧ taken = true)) as [Hold|(-> & -> & Hle & Ht)].
    { destruct Hx as [->|(mx & e & Hmx & He & Hle)]; [by left; left|]. simpl in Hmx.
      apply lookup_insert_Some in Hmx as [[<- <-]|[? ?]]; [|left; right; by eauto].
      apply arrival_view in He as [He|(-> & -> & Ht)]; [left; right; by eauto|by right]. }
    + apply (covered_after B s s' k (mk_packet a v (frame_of o w)) o w); try done; [apply arrival_has|].
      intros y Hy. simpl. apply elem_of_app. by left.
    + destruct (Hver _ _ Hm') as (mo & Hmo & E). destruct Hiss as (mo' & Hmo' & Hw').
      rewrite Hmo in Hmo'. injection Hmo' as <-. assert (membership.selfVersion_ m' = w) as -> by lia.
      destruct (decide (b = a)) as [->|Hne]; [left; by apply G|right].
      simpl. apply elem_of_app. right. rewrite H6, Ht. simpl. rewrite app_nil_r.
      apply elem_of_flood; [done|]. intros E'%fd_inj. done.
Qed.

End arrival.

Lemma receive_shape B s k pk now :
  inv B s → inflight s !! k = Some pk →
  ∃ o w m, pk = mk_packet (p_from pk) (p_to pk) (frame_of o w) ∧ issued s o w ∧
    has s o w (p_from pk) ∧ link (p_from pk) (p_to pk) ∧ rtc link o (p_from pk) ∧
    p_to pk ∈ N ∧ nodes_ s !! p_to pk = Some m ∧
    ∀ fl, receive max now pk (mk (nodes_ s) fl) =
      perform (p_to pk) (membership.on_remote_record (record_of o w) (fd_of (p_to pk) (p_from pk)) now m)
        (mk (nodes_ s) fl).
Proof.
  intros Hi Hk.
  destruct (proj1 (Forall_lookup _ _) (i_wire _ _ Hi) k pk Hk) as (o & w & Hf & Hiss & Hhas & Hl & Hr).
  destruct (decode_frame o w (issued_in_range _ _ _ _ Hi Hiss)) as (n & pf & Hd & Hty & Hpf).
  assert (p_from pk ∈ N) as Hfrom.
  { destruct Hhas as [->|(m & _ & Hm & _)]; [by eapply issued_node|by eapply node_in]. }
  pose proof (closed _ _ Hfrom Hl) as HtoN. pose proof HtoN as Hto. rewrite <-(i_dom _ _ Hi) in Hto.
  apply elem_of_dom in Hto as [m Hm]. exists o, w, m. split_and!; try done.
  - by destruct pk; simpl in *; subst.
  - intros fl. unfold receive. cbn [nodes_]. rewrite Hm, Hf, Hd, Hpf. by rewrite bool_decide_true.
Qed.

Lemma receive_inv B s k pk now :
  inv B s → inflight s !! k = Some pk → t0 ≤ now →
  inv B (receive max now pk (mk (nodes_ s) (delete k (inflight s)))).
Proof.
  intros Hi Hk Hnow.
  destruct (receive_shape B s k pk now Hi Hk) as (o & w & m & E & Hiss & Hhas & Hl & Hr & _ & Hm & ->).
  by eapply arrival_inv.
Qed.

(** ** Runs *)

(** The clock stays within the period, which is no longer than the timeout. *)
Definition in_period (a : action) : Prop :=
  match a with Tick _ now => t0 ≤ now ≤ t0 + ms TO | Deliver _ now => t0 ≤ now end.

Lemma inv_weaken B s : inv (S B) s → inv B s.
Proof. intros [H1 H2 H3 H4 H5]. split; try done. intros v m Hv. specialize (H2 v m Hv). lia. Qed.

Lemma net_act_inv B s s' a : inv (S B) s → in_period a → act max a s = Some s' → inv B s'.
Proof.
  intros Hi Ha. destruct a as [u now|k now]; simpl in Ha.
  - intros (m & Hm & [= <-])%bind_Some. apply tick_inv; [done..|lia].
  - intros (pk & Hk & [= <-])%bind_Some. apply receive_inv; [by apply inv_weaken|done..].
Qed.

(** What a step does to a node. *)
Lemma act_node s s' a v m' : act max a s = Some s' → nodes_ s' !! v = Some m' →
  ∃ m, nodes_ s !! v = Some m ∧
    ((m' = m ∧ ∀ now, a ≠ Tick v now) ∨
     (∃ now, a = Tick v now ∧ m' = (membership.tick now m).1) ∨
     ∃ k now rec fd, a = Deliver k now ∧ m' = (membership.on_remote_record rec fd now m).1).
Proof.
  destruct a as [u now|k now]; simpl.
  - intros (m & Hm & [= <-])%bind_Some. simpl. intros [[<- <-]|[Hne Hv]]%lookup_insert_Some.
    + exists m. split; [done|]. right. left. by eexists.
    + exists m'. split; [done|]. left. split; [done|]. congruence.
  - intros (pk & Hk & [= <-])%bind_Some. unfold receive. cbn [nodes_].
    assert (∀ m', nodes_ s !! v = Some m' → ∃ m, nodes_ s !! v = Some m ∧
      ((m' = m ∧ ∀ now', Deliver k now ≠ Tick v now') ∨
       (∃ now', Deliver k now = Tick v now' ∧ m' = (membership.tick now' m).1) ∨
       ∃ k' now' rec fd, Deliver k now = Deliver k' now' ∧
         m' = (membership.on_remote_record rec fd now' m).1)) as Hsame.
    { intros x Hx. exists x. split; [done|]. by left. }
    destruct (nodes_ s !! p_to pk) as [m|] eqn:Hm; [|apply Hsame].
    destruct (try_decode_frame _ _ _ _) as [[[] pf] n]; try apply Hsame.
    case_bool_decide; [|apply Hsame]. simpl. intros [[<- <-]|[Hne Hv]]%lookup_insert_Some; [|by apply Hsame].
    exists m. split; [done|]. right. right. by eexists k, now, _, _.
Qed.

(** Node [v] last flooded at [lf], or has flooded in the period. *)
Definition flooded_at (lf : Z) (v : peer_id) (s : t) : Prop :=
  ∀ m, nodes_ s !! v = Some m → membership.lastSelfFlood_ m = lf ∨ V0 v < membership.selfVersion_ m.

(** Node [v] has flooded in the period and has dropped all older records. *)
Definition caught_up (v : peer_id) (s : t) : Prop :=
  ∀ m, nodes_ s !! v = Some m → V0 v < membership.selfVersion_ m ∧
    ∀ o e, membership.view_ m !! o = Some e → told < membership.lastSeen e.

Lemma act_flooded_at B s s' a lf v : inv (S B) s → in_period a → act max a s = Some s' →
  flooded_at lf v s → flooded_at lf v s'.
Proof.
  intros Hi Hp Ha Hf m' Hm'. destruct (act_node s s' a v m' Ha Hm') as (m & Hm & Hcase).
  specialize (Hf m Hm). destruct Hcase as [[-> _]|[(now & -> & ->)|(k & now & rec & fd & _ & ->)]]; [done| |].
  - destruct (tick_grows B s v m now Hi Hm (proj2 Hp)) as (_ & _ & Hsv).
    destruct (tick_shape now m) as (_ & _ & _ & _ & Hx). cbv zeta in *.
    destruct (i_node _ _ Hi v m Hm) as (_ & _ & _ & _ & HV & _).
    pose proof (i_budget _ _ Hi v m Hm). specialize (V0_pos v).
    destruct (_ <=? _); destruct Hx as [Hx1 Hx2].
    + right. rewrite Hx1, wrap_small; unfold in_range; lia.
    + destruct Hx2 as [_ ->]. destruct Hf as [?|?]; [by left|right; lia].
  - destruct (remote_shape rec fd now m) as (_ & _ & _ & -> & -> & _). done.
Qed.

Lemma act_caught_up B s s' a v : inv (S B) s → in_period a → act max a s = Some s' →
  caught_up v s → caught_up v s'.
Proof.
  intros Hi Hp Ha Hc m' Hm'. destruct (act_node s s' a v m' Ha Hm') as (m & Hm & Hcase).
  destruct (Hc m Hm) as [Hv He].
  destruct Hcase as [[-> _]|[(now & -> & ->)|(k & now & rec & fd & -> & ->)]]; [done| |].
  - destruct (tick_grows B s v m now Hi Hm (proj2 Hp)) as (_ & Hsub & Hsv).
    split; [lia|]. intros o e Ho. by eapply He, Hsub.
  - destruct (remote_shape rec fd now m) as (_ & _ & _ & -> & _ & Hx). split; [done|].
    destruct (_ || _); destruct Hx as [-> _]; [done|].
    intros o e [[<- <-]|[? ?]]%lookup_insert_Some; [simpl in *; lia|by eapply He].
Qed.

(** A tick late enough brings the node up to date. *)
Lemma tick_catches_up B s s' v now lf : inv (S B) s → now ≤ t0 + ms TO →
  act max (Tick v now) s = Some s' → flooded_at lf v s →
  told + ms TO < now → ms IV ≤ now - lf → caught_up v s'.
Proof.
  intros Hi Hp Ha Hf Hold Hdue m' Hm'.
  destruct (act_node s s' _ v m' Ha Hm') as (m & Hm & [[_ Hn]|[(now' & [= <-] & ->)|(?&?&?&?&?&_)]]);
    [by destruct (Hn now)| |done].
  destruct (tick_shape now m) as (_ & _ & _ & Hview & Hx). cbv zeta in *.
  destruct (tick_grows B s v m now Hi Hm Hp) as (_ & _ & Hsv).
  destruct (i_node _ _ Hi v m Hm) as (_ & _ & _ & HC & HV & _).
  pose proof (node_in _ _ _ _ Hi Hm) as Hin. split.
  - destruct (Hf m Hm) as [E|?]; [|lia]. rewrite E, HC, intervals, (proj2 (Z.leb_le _ _)) in Hx by done.
    destruct Hx as [-> _]. pose proof (i_budget _ _ Hi v m Hm). specialize (V0_pos v).
    rewrite wrap_small; unfold in_range; lia.
  - intros o e. rewrite Hview. intros [_ Hne]%map_lookup_filter_Some. unfold membership.expired in Hne.
    rewrite HC, timeouts in Hne by done. simpl in Hne. lia.
Qed.

Lemma net_run_inv l : ∀ s s', inv (length l) s → Forall in_period l → run max l s = Some s' →
  inv 0 s' ∧
  ∀ v lf, flooded_at lf v s →
    (∃ now, Tick v now ∈ l ∧ told + ms TO < now ∧ ms IV ≤ now - lf) ∨ caught_up v s → caught_up v s'.
Proof.
  induction l as [|a l IH]; intros s s' Hi Hl; simpl.
  - intros [= <-]. split; [done|]. intros v lf _ [(now & Hin & _)|?]; [by apply elem_of_nil in Hin|done].
  - intros (s1 & Ha & Hr)%bind_Some. apply list.Forall_cons in Hl as [Hp Hl].
    destruct (IH s1 s' (net_act_inv _ _ _ _ Hi Hp Ha) Hl Hr) as [Hi' Hc]. split; [done|].
    intros v lf Hf Hor. apply (Hc v lf); [by eapply act_flooded_at|].
    destruct Hor as [(now & [<-|Hin]%elem_of_cons & H1 & H2)|Hcu].
    + right. simpl in Hp. eapply tick_catches_up; [done| |done..]. lia.
    + left. by exists now.
    + right. by eapply act_caught_up.
Qed.

(** ** How long a flood lasts *)

(** Deliveries use up packets; a node that takes in a record sends at most one
    packet per link, and then is less behind. *)
Definition degree (v : peer_id) : nat := length (links v).
Definition ends : nat := sum_list_with degree (elements N).

Definition latest (s : t) (o : peer_id) : Z :=
  match nodes_ s !! o with Some m => membership.selfVersion_ m | None => V0 o end.

Definition held (s : t) (v o : peer_id) : Z :=
  match nodes_ s !! v with
  | Some m => match membership.view_ m !! o with
              | Some e => Z.max (V0 o) (membership.version e) | None => V0 o end
  | None => V0 o
  end.

Definition lag (s : t) (o v : peer_id) : nat :=
  if decide (v = o) then 0%nat else Z.to_nat (latest s o - held s v o).

Definition debt (s : t) (o : peer_id) : nat := sum_list_with (λ v, degree v * lag s o v)%nat (elements N).
Definition left (s : t) : nat := length (inflight s) + sum_list_with (debt s) (elements N).

Lemma sum_mono {A} (f g : A → nat) l :
  (∀ x, x ∈ l → (f x ≤ g x)%nat) → (sum_list_with f l ≤ sum_list_with g l)%nat.
Proof.
  induction l as [|x l IH]; intros H; simpl; [lia|]. pose proof (H x ltac:(by left)).
  specialize (IH (λ y Hy, H y ltac:(by right))). lia.
Qed.

Lemma sum_gain {A} (f g : A → nat) l x d :
  (∀ y, y ∈ l → (f y ≤ g y)%nat) → x ∈ l → (f x + d ≤ g x)%nat →
  (sum_list_with f l + d ≤ sum_list_with g l)%nat.
Proof.
  intros H Hx Hd. apply list_elem_of_split in Hx as (l1 & l2 & ->).
  rewrite !sum_list_with_app. simpl.
  pose proof (sum_mono f g l1 (λ y Hy, H y ltac:(set_solver))).
  pose proof (sum_mono f g l2 (λ y Hy, H y ltac:(set_solver))). lia.
Qed.

Lemma sum_loss (f g : peer_id → nat) l x d :
  NoDup l → (∀ y, y ∈ l → y ≠ x → (f y ≤ g y)%nat) → (f x ≤ g x + d)%nat →
  (sum_list_with f l ≤ sum_list_with g l + d)%nat.
Proof.
  intros Hnd H Hx. induction l as [|y l IH]; simpl; [lia|].
  apply list.NoDup_cons in Hnd as [Hy Hnd]. destruct (decide (y = x)) as [->|Hne].
  - assert (sum_list_with f l ≤ sum_list_with g l)%nat; [|lia].
    apply sum_mono. intros z Hz. apply H; [by right|]. intros ->. done.
  - pose proof (H y ltac:(by left) Hne). specialize (IH Hnd (λ z Hz, H z ltac:(by right))). lia.
Qed.

Lemma sum_add {A} (f g : A → nat) l :
  sum_list_with (λ x, f x + g x)%nat l = (sum_list_with f l + sum_list_with g l)%nat.
Proof. induction l; simpl; lia. Qed.

Lemma length_flood u x : (length (flood_from u x) ≤ degree u)%nat.
Proof. unfold flood_from, degree. rewrite length_map. apply length_filter. Qed.

Lemma held_other s u m' fl v o : v ≠ u → held (mk (<[u := m']> (nodes_ s)) fl) v o = held s v o.
Proof. intros Hne. unfold held. simpl. by rewrite lookup_insert_ne. Qed.

Lemma latest_other s u m' fl o : o ≠ u → latest (mk (<[u := m']> (nodes_ s)) fl) o = latest s o.
Proof. intros Hne. unfold latest. simpl. by rewrite lookup_insert_ne. Qed.

(** Taking in a record leaves the node less behind, and no node more. *)
Lemma arrival_lag B s o v a w now m fl :
  inv B s → nodes_ s !! v = Some m → issued s o w →
  let r := membership.on_remote_record (record_of o w) (fd_of v a) now m in
  let taken := negb (bool_decide (o = v) || membership.is_stale (record_of o w) m) in
  let s' := mk (<[v := r.1]> (nodes_ s)) fl in
  (∀ o' x, (lag s' o' x ≤ lag s o' x)%nat) ∧ (taken = true → (lag s' o v < lag s o v)%nat).
Proof.
  intros Hi Hv Hiss r taken s'.
  destruct (arrival_shape B s o v a w now m Hi Hv) as (_ & _ & _ & Hsv & Hview & _). fold r taken in Hsv, Hview.
  assert (∀ x, latest s' x = latest s x) as Hlat.
  { intros x. destruct (decide (x = v)) as [->|Hne]; [|by apply latest_other].
    unfold latest. simpl. by rewrite lookup_insert_eq, Hv. }
  assert (∀ o', held s v o' ≤ held s' v o' ∧ (taken = true → o' = o → held s v o' < w ≤ held s' v o')) as Hheld.
  { intros o'. unfold held. simpl. rewrite lookup_insert_eq, Hv, Hview. subst taken.
    destruct Hiss as (mo & _ & Hw). destruct (bool_decide (o = v)); simpl; [lia|].
    destruct (membership.is_stale _ _) eqn:Hst; simpl; [lia|].
    destruct (decide (o' = o)) as [->|Hne]; [|rewrite lookup_insert_ne by done; split; [lia|done]].
    rewrite lookup_insert_eq. cbn [membership.version entry_of]. unfold membership.is_stale in Hst.
    cbn [m_origin m_version record_of] in Hst. destruct (membership.view_ m !! o); lia. }
  split.
  - intros o' x. unfold lag. destruct (decide (x = o')); [lia|]. rewrite Hlat.
    destruct (decide (x = v)) as [->|Hne]; [destruct (Hheld o'); lia|].
    subst s'. rewrite held_other by done. lia.
  - intros Ht. destruct (Hheld o) as [_ Hh]. specialize (Hh Ht eq_refl). unfold lag. rewrite Hlat.
    subst taken. destruct (decide (v = o)) as [->|Hne]; [by rewrite bool_decide_true in Ht by done|].
    destruct Hiss as (mo & Hmo & Hw). assert (w ≤ latest s o) by (unfold latest; rewrite Hmo; lia). lia.
Qed.

Lemma receive_left B s k pk now :
  inv B s → inflight s !! k = Some pk →
  (left (receive max now pk (mk (nodes_ s) (delete k (inflight s)))) < left s)%nat.
Proof.
  intros Hi Hk. pose proof (lookup_lt_Some _ _ _ Hk) as Hlen.
  destruct (receive_shape B s k pk now Hi Hk) as (o & w & m & _ & Hiss & _ & _ & _ & HtoN & Hm & ->).
  destruct (arrival_shape B s o (p_to pk) (p_from pk) w now m Hi Hm) as (_ & _ & _ & _ & _ & Hfl).
  set (s' := perform _ _ _).
  destruct (arrival_lag B s o (p_to pk) (p_from pk) w now m (inflight s') Hi Hm Hiss) as [Hmono Hgain].
  change (mk _ (inflight s')) with s' in Hmono, Hgain. unfold left.
  assert (∀ o', (debt s' o' ≤ debt s o')%nat) as Hdebt.
  { intros o'. apply sum_mono. intros x _. specialize (Hmono o' x). nia. }
  pose proof (sum_mono (debt s') (debt s) (elements N) (λ x _, Hdebt x)) as Hall.
  subst s'. cbn [inflight perform]. rewrite Hfl, length_app, length_delete by (by eexists).
  destruct (negb _); simpl; [|lia]. rewrite app_nil_r.
  pose proof (length_flood (p_to pk) (frame_of o w, fd_of (p_to pk) (p_from pk))) as Hlf.
  set (s' := perform _ _ _) in *. specialize (Hgain eq_refl).
  assert (sum_list_with (debt s') (elements N) + degree (p_to pk) ≤ sum_list_with (debt s) (elements N))%nat;
    [|lia].
  apply (sum_gain _ _ _ o); [done|by apply elem_of_elements; eapply issued_node|].
  apply (sum_gain _ _ _ (p_to pk)); [|by apply elem_of_elements|nia].
  intros x _. specialize (Hmono o x). nia.
Qed.

(** A tick makes the others at most one version of its node more behind. *)
Lemma tick_lag B s u m now fl :
  inv (S B) s → nodes_ s !! u = Some m → now ≤ t0 + ms TO →
  let s' := mk (<[u := (membership.tick now m).1]> (nodes_ s)) fl in
  ∀ o v, o ∈ N →
  (lag s' o v ≤ lag s o v +
    (if decide (v = o) then 0 else Z.to_nat (latest s' o - latest s o)))%nat.
Proof.
  intros Hi Hu Hnow s' o v HoN.
  destruct (tick_grows B s u m now Hi Hu Hnow) as (_ & _ & Hsv).
  destruct (tick_shape now m) as (_ & _ & _ & Hview & _). cbv zeta in Hview.
  destruct (i_node _ _ Hi u m Hu) as (_ & _ & _ & HC & _ & Hent).
  assert (held s' v o = held s v o) as Hh.
  { destruct (decide (v = u)) as [->|Hne]; [|by apply held_other].
    unfold held, s'. simpl. rewrite lookup_insert_eq, Hu, Hview.
    destruct (membership.view_ m !! o) as [e|] eqn:He.
    2:{ destruct (filter _ _ !! o) as [e'|] eqn:He'; [|done].
        apply map_lookup_filter_Some in He' as [? _]. congruence. }
    destruct (filter _ _ !! o) as [e'|] eqn:He'.
    { apply map_lookup_filter_Some in He' as [? _]. congruence. }
    destruct (Hent o e He) as [[_ Hst]|(_ & _ & Hls & _)]; [specialize (Hst HoN); lia|].
    apply map_lookup_filter_None in He' as [He'|He']; [congruence|]. exfalso.
    apply (He' e He). unfold membership.expired.
    rewrite HC, timeouts by (by eapply node_in). simpl. lia. }
  unfold lag. rewrite Hh. destruct (decide (v = o)); [lia|]. lia.
Qed.

Lemma tick_left B s u m now :
  inv (S B) s → nodes_ s !! u = Some m → now ≤ t0 + ms TO →
  (left (perform u (membership.tick now m) s) ≤ left s + ends)%nat.
Proof.
  intros Hi Hu Hnow. set (s' := perform u (membership.tick now m) s).
  pose proof (tick_lag B s u m now (inflight s') Hi Hu Hnow) as Hlag. change (mk _ (inflight s')) with s' in Hlag.
  destruct (tick_grows B s u m now Hi Hu Hnow) as (_ & _ & Hsv).
  destruct (tick_shape now m) as (_ & _ & _ & _ & Hx). cbv zeta in Hlag, Hx.
  pose proof (node_in _ _ _ _ Hi Hu) as HuN.
  assert (∀ o, o ∈ N → o ≠ u → (debt s' o ≤ debt s o)%nat) as Hother.
  { intros o Ho Hne. apply sum_mono. intros v _. specialize (Hlag o v Ho).
    assert (latest s' o = latest s o) as E by (by apply latest_other). rewrite E in Hlag.
    replace (latest s o - latest s o) with 0 in Hlag by lia. destruct (decide (v = o)); simpl in Hlag; nia. }
  set (h := λ v, if decide (v = u) then 0%nat else degree v).
  assert (sum_list_with h (elements N) + degree u ≤ ends)%nat as Hh.
  { apply (sum_gain h degree _ u); [|by apply elem_of_elements|].
    - intros y _. unfold h. destruct (decide _); lia.
    - unfold h. rewrite decide_True by done. lia. }
  assert (latest s' u - latest s u ≤ 1) as Hone.
  { unfold latest, s'. simpl. rewrite lookup_insert_eq, Hu. lia. }
  assert (debt s' u ≤ debt s u + sum_list_with h (elements N))%nat as Hown.
  { unfold debt. rewrite <-sum_add. apply sum_mono. intros v _. specialize (Hlag u v HuN). unfold h.
    destruct (decide (v = u)); nia. }
  assert (sum_list_with (debt s') (elements N) ≤ sum_list_with (debt s) (elements N) +
    sum_list_with h (elements N))%nat as Hsum.
  { apply (sum_loss _ _ _ u); [apply NoDup_elements| |done].
    intros o Ho%elem_of_elements Hne. by apply Hother. }
  unfold left. cbn [inflight perform s']. rewrite length_app.
  assert (length (concat (map (flood_from u) (floods (membership.tick now m).2))) ≤ degree u)%nat; [|lia].
  destruct (_ <=? _); destruct Hx as [_ Hx2]; [rewrite Hx2|destruct Hx2 as [-> _]; simpl; lia].
  simpl. rewrite app_nil_r. apply length_flood.
Qed.

Definition is_tick (a : action) : bool := match a with Tick _ _ => true | Deliver _ _ => false end.

(** The number of packets that arrive is bounded by the ticks. *)
Lemma run_left l : ∀ s s', inv (length l) s → Forall in_period l → run max l s = Some s' →
  (left s' + length (filter (λ a, is_tick a = false) l) ≤
   left s + ends * length (filter (λ a, is_tick a = true) l))%nat.
Proof.
  induction l as [|a l IH]; intros s s' Hi Hl.
  { intros [= <-]. simpl. lia. }
  intros (s1 & Ha & Hr)%bind_Some. apply list.Forall_cons in Hl as [Hp Hl].
  specialize (IH s1 s' (net_act_inv _ _ _ _ Hi Hp Ha) Hl Hr). destruct a as [u now|k now].
  - rewrite filter_cons_False, filter_cons_True by done. cbn [length].
    apply bind_Some in Ha as (m & Hm & [= <-]). simpl in Hp.
    pose proof (tick_left _ s u m now Hi Hm (proj2 Hp)). lia.
  - rewrite filter_cons_True, filter_cons_False by done. cbn [length].
    apply bind_Some in Ha as (pk & Hk & [= <-]).
    pose proof (receive_left _ s k pk now Hi Hk). lia.
Qed.

(** ** The end *)

Context (symmetric : ∀ a b, link a b → link b a).

Lemma rtc_link_sym a b : rtc link a b → rtc link b a.
Proof. induction 1 as [|x y z Hxy _ IH]; [done|]. eapply rtc_r; [done|by apply symmetric]. Qed.

Lemma rtc_link_in a b : a ∈ N → rtc link a b → b ∈ N.
Proof. intros Ha. induction 1; [done|]. by eauto. Qed.

(** With nothing on the links, every latest record is known in its component. *)
Lemma spread B s o m v : inv B s → inflight s = [] → nodes_ s !! o = Some m →
  V0 o < membership.selfVersion_ m → rtc link o v → has s o (membership.selfVersion_ m) v.
Proof.
  intros Hi Hq Hm Hlt. revert v. apply rtc_ind_r; [by left|]. intros y z _ Hyz IH.
  destruct (i_covered _ _ Hi o y z m Hm Hlt IH Hyz) as [?|Hin]; [done|].
  rewrite Hq in Hin. by apply elem_of_nil in Hin.
Qed.

Lemma linked_is_link B s v m : inv B s → inflight s = [] → (∀ x, x ∈ N → caught_up x s) →
  nodes_ s !! v = Some m → ∀ x, rtc (membership.linked m) v x ↔ rtc link v x.
Proof.
  intros Hi Hq Hc Hm. destruct (i_node _ _ Hi v m Hm) as (N1 & N2 & _ & _ & _ & Hent).
  pose proof (node_in _ _ _ _ Hi Hm) as Hv.
  assert (∀ a b, membership.claims m a b → link a b) as Hclaims.
  { intros a b [[-> Hb]|(e & He & Hb)]; apply nb_links.
    - by rewrite N1, <-N2.
    - destruct (Hent a e He) as [[Hst _]|(_ & <- & _)]; [|done].
      destruct (Hc v Hv m Hm) as [_ Hl]. specialize (Hl a e He). lia. }
  intros x. split.
  - apply rtc_subrel. intros a b [?|?]; [by apply Hclaims|by apply symmetric, Hclaims].
  - revert x. apply rtc_ind_r; [done|]. intros y z Hy Hyz IH. eapply rtc_r; [exact IH|]. left.
    destruct (decide (y = v)) as [->|Hne].
    + left. rewrite N2. split; [done|]. by apply nb_links.
    + pose proof (rtc_link_in v y Hv Hy) as Hyn. pose proof Hyn as Hyd.
      rewrite <-(i_dom _ _ Hi) in Hyd. apply elem_of_dom in Hyd as [my Hmy].
      destruct (Hc y Hyn my Hmy) as [Hlt _].
      destruct (spread B s y my v Hi Hq Hmy Hlt (rtc_link_sym _ _ Hy)) as [->|(m' & e & Hm' & He & _)]; [done|].
      rewrite Hm in Hm'. injection Hm' as <-. right. exists e. split; [done|].
      destruct (Hent y e He) as [[Hst _]|(_ & -> & _)]; [|by apply nb_links].
      destruct (Hc v Hv m Hm) as [_ Hl]. specialize (Hl y e He). lia.
Qed.

End period.

(** The network when the period begins: nothing is on the links; every node
    knows its neighbours, and its members are what it computes from the records
    it has (so it is after any run, see Membership.v); these records came by
    [told], and no node has one that its origin has yet to issue.  The links go
    both ways, and neighbour lists fit into a frame. *)
Record stable (s : t) (steps : nat) (told t0 TO IV max : Z) : Prop := {
  st_quiet : inflight s = [];
  st_node v m : nodes_ s !! v = Some m →
    membership.self_ m = v ∧ membership.selfNeighbors_ m ≡ₚ links v ∧ membership.synced m ∧
    membershipTimeout (membership.cfg_ m) = TO ∧ membershipInterval (membership.cfg_ m) = IV ∧
    0 ≤ membership.selfVersion_ m ∧ membership.selfVersion_ m + Z.of_nat steps < 2 ^ 64;
  st_view v m o e : nodes_ s !! v = Some m → membership.view_ m !! o = Some e →
    membership.lastSeen e ≤ told ∧
    ∀ mo, nodes_ s !! o = Some mo → membership.version e ≤ membership.selfVersion_ mo;
  st_time : told < t0;
  st_closed a b : is_Some (nodes_ s !! a) → link a b → is_Some (nodes_ s !! b);
  st_symmetric a b : link a b → link b a;
  st_short a : (length (links a) ≤ max_neighbors)%nat ∧ 27 + 16 * Z.of_nat (length (links a)) ≤ max;
  st_fds v : (∀ a b, fd_of v a = fd_of v b → a = b) ∧ ∀ a, fd_of v a ≠ -1;
}.

Section start.

Context (s : t) (steps : nat) (told t0 TO IV max : Z) (Hst : stable s steps told t0 TO IV max).

Definition nb0 (v : peer_id) : list peer_id :=
  match nodes_ s !! v with Some m => membership.selfNeighbors_ m | None => links v end.
Definition version0 (v : peer_id) : Z :=
  match nodes_ s !! v with Some m => membership.selfVersion_ m | None => 0 end.
Definition cfg0 (v : peer_id) : mesh_config :=
  match nodes_ s !! v with Some m => membership.cfg_ m | None => default_config v end.

Lemma nb0_links v : nb0 v ≡ₚ links v.
Proof.
  unfold nb0. destruct (nodes_ s !! v) as [m|] eqn:Hm; [|done]. apply (st_node _ _ _ _ _ _ _ Hst v m Hm).
Qed.

Lemma record_fits o w : fits max (MsgMembership (record_of nb0 o w)).
Proof.
  destruct (st_short _ _ _ _ _ _ _ Hst o) as [Hl Hm].
  assert (length (body (MsgMembership (record_of nb0 o w))) ≤ 26 + 16 * length (links o))%nat as Hb.
  { cbn [body record_of m_origin m_version m_neighbors]. rewrite !length_app, length_elems, !length_be_bytes.
    assert (∀ l, length (neighbors_bytes l) = 16 * length l)%nat as Hn.
    { induction l as [|x l IH]; [done|]. unfold neighbors_bytes in *. simpl.
      rewrite length_app, length_elems, IH. lia. }
    rewrite Hn, length_take, (Permutation_length (nb0_links o)). lia. }
  unfold max_neighbors in Hl. unfold fits. split; [lia|]. simpl in *. lia.
Qed.

Lemma stable_inv : inv (dom (nodes_ s)) version0 nb0 cfg0 told t0 steps s.
Proof.
  split; [done| | | |].
  - intros v m Hm. apply (st_node _ _ _ _ _ _ _ Hst v m Hm).
  - intros v m Hm. destruct (st_node _ _ _ _ _ _ _ Hst v m Hm) as (H1 & H2 & H3 & _).
    unfold node_ok, nb0, cfg0, version0. rewrite Hm. split_and!; try done.
    intros o e He. left. destruct (st_view _ _ _ _ _ _ _ Hst v m o e Hm He) as [Ht Hv].
    split; [done|]. intros [mo Hmo]%elem_of_dom. rewrite Hmo. by apply Hv.
  - rewrite (st_quiet _ _ _ _ _ _ _ Hst). constructor.
  - intros o a b m Hm. unfold version0. rewrite Hm. lia.
Qed.

Lemma stable_left : left (dom (nodes_ s)) version0 s = 0%nat.
Proof.
  unfold left. rewrite (st_quiet _ _ _ _ _ _ _ Hst). cbn [length Nat.add].
  assert (∀ f : peer_id → nat, (∀ x, f x = 0%nat) → sum_list_with f (elements (dom (nodes_ s))) = 0%nat) as H0.
  { intros f Hf. induction (elements _) as [|x l IH]; [done|]. simpl. by rewrite Hf, IH. }
  apply H0. intros o. apply H0. intros v. unfold lag. destruct (decide (v = o)); [lia|].
  assert (latest version0 s o ≤ held version0 s v o) as Hle; [|replace (Z.to_nat _) with 0%nat by lia; lia].
  assert (version0 o ≤ held version0 s v o) as Hh by (unfold held; repeat case_match; lia).
  unfold latest, version0 in *. destruct (nodes_ s !! o); lia.
Qed.

Lemma nb0_link a b : b ∈ nb0 a ↔ link a b.
Proof. by rewrite nb0_links. Qed.

Lemma nodes_closed a b : a ∈ dom (nodes_ s) → link a b → b ∈ dom (nodes_ s).
Proof. rewrite !elem_of_dom. apply Hst. Qed.

(** The period's facts from its beginning. *)
Lemma stable_ends s' l :
  steps = length l → Forall (in_period t0 TO) l → run max l s = Some s' →
  (length (filter (λ a, is_tick a = false) l) ≤
   ends (dom (nodes_ s)) * length (filter (λ a, is_tick a = true) l))%nat ∧
  inv (dom (nodes_ s)) version0 nb0 cfg0 told t0 0 s' ∧
  ∀ v lf, flooded_at version0 lf v s →
    (∃ now, Tick v now ∈ l ∧ told + ms TO < now ∧ ms IV ≤ now - lf) → caught_up version0 told v s'.
Proof.
  intros Hsteps Hl Hr. pose proof stable_inv as Hi. rewrite Hsteps in Hi.
  assert (∀ v, 0 ≤ version0 v) as Hpos.
  { intros v. unfold version0. destruct (nodes_ s !! v) as [m|] eqn:Hm; [|lia].
    apply (st_node _ _ _ _ _ _ _ Hst v m Hm). }
  assert (∀ v, v ∈ dom (nodes_ s) → membershipTimeout (cfg0 v) = TO ∧ membershipInterval (cfg0 v) = IV) as Hcfg.
  { intros v [m Hm]%elem_of_dom. unfold cfg0. rewrite Hm.
    destruct (st_node _ _ _ _ _ _ _ Hst v m Hm) as (_ & _ & _ & H1 & H2 & _). done. }
  assert (∀ a, (length (nb0 a) ≤ max_neighbors)%nat) as Hshort.
  { intros a. rewrite (Permutation_length (nb0_links a)). apply (st_short _ _ _ _ _ _ _ Hst). }
  assert (∀ v a b, fd_of v a = fd_of v b → a = b) as Hinj by apply (st_fds _ _ _ _ _ _ _ Hst).
  assert (∀ v a, fd_of v a ≠ -1) as Hfd by apply (st_fds _ _ _ _ _ _ _ Hst).
  pose proof (st_time _ _ _ _ _ _ _ Hst) as Htime. split.
  - pose proof (run_left _ version0 nb0 cfg0 told t0 TO IV max Htime nb0_link Hshort record_fits Hinj Hfd
      nodes_closed Hpos (λ v Hv, proj1 (Hcfg v Hv)) (λ v Hv, proj2 (Hcfg v Hv)) l s s' Hi Hl Hr) as H.
    rewrite stable_left in H. lia.
  - destruct (net_run_inv _ version0 nb0 cfg0 told t0 TO IV max Htime nb0_link Hshort record_fits Hinj Hfd
      nodes_closed Hpos (λ v Hv, proj1 (Hcfg v Hv)) (λ v Hv, proj2 (Hcfg v Hv)) l s s' Hi Hl Hr) as [H1 H2].
    split; [done|]. intros v lf Hf Ht. apply (H2 v lf Hf). by left.
Qed.

End start.

(** [C7] Membership converges.  Take a moment when nothing is on the links and
    every node knows its neighbours; the records held, which all came by [told],
    may be arbitrarily out of date.  All nodes have the same
    [membershipTimeout] and [membershipInterval].  From then on let the links
    stay as they are, let the nodes tick and the packets arrive in any order,
    with all ticks within one [membershipTimeout]; and let every node tick once
    later than [told] plus the timeout, and so drop the older records, and at
    least an interval after it last flooded its own, and so flood again.  Then the
    packets that arrive are at most one per link end and tick, and once none is
    on its way, every node lists exactly the nodes that a path of links leads
    to: no more, no less, and so the nodes of a component agree. *)
Theorem membership_converges max s s' l told t0 TO IV :
  stable s (length l) told t0 TO IV max → Forall (in_period t0 TO) l →
  (∀ v m, nodes_ s !! v = Some m → ∃ now, Tick v now ∈ l ∧ told + ms TO < now ∧
     ms IV ≤ now - membership.lastSelfFlood_ m) →
  run max l s = Some s' →
  (length (filter (λ a, is_tick a = false) l) ≤
   ends (dom (nodes_ s)) * length (filter (λ a, is_tick a = true) l))%nat ∧
  (inflight s' = [] →
   ∀ v m, nodes_ s' !! v = Some m →
   ∀ x, x ∈ membership.members_ m ↔ x ≠ v ∧ rtc link v x).
Proof.
  intros Hst Hl Hticks Hr. destruct (stable_ends s _ _ _ _ _ _ Hst s' l eq_refl Hl Hr) as (Hlen & Hi & Hcu).
  split; [exact Hlen|]. intros Hq v m Hm x.
  assert (∀ y, y ∈ dom (nodes_ s) → caught_up (version0 s) told y s') as Hall.
  { intros y [my Hy]%elem_of_dom. apply (Hcu y (membership.lastSelfFlood_ my)).
    - intros m' Hm'. rewrite Hy in Hm'. injection Hm' as <-. by left.
    - by apply Hticks. }
  destruct (i_node _ _ _ _ _ _ _ _ Hi v m Hm) as (Hself & _ & Hsync & _).
  rewrite (Hsync x). unfold membership.is_member. rewrite Hself.
  rewrite (linked_is_link _ _ _ _ _ _ (nb0_link _ _ _ _ _ _ _ Hst) (nodes_closed _ _ _ _ _ _ _ Hst)
    (st_symmetric _ _ _ _ _ _ _ Hst) 0 s' v m Hi Hq Hall Hm). done.
Qed.

End topology.

(** ** Three nodes in a row *)

Definition row (v : peer_id) : list peer_id :=
  if decide (v = sample_id 1) then [sample_id 2]
  else if decide (v = sample_id 2) then [sample_id 1; sample_id 3]
  else if decide (v = sample_id 3) then [sample_id 2]
  else [].

(** Node 3 has a record of a node 9 that is long gone; the others have none. *)
Definition sample_history (n : Z) : list membership.op :=
  membership.SetNeighbors (row (sample_id n)) 0 ::
  (if n =? 3
   then [membership.RemoteRecord (mk_membership_record (sample_id 9) 7 [sample_id 3]) 4 0] else []).

Definition sample_node (n : Z) : membership.t :=
  (membership.run (membership.make (sample_id n) (default_config (sample_id n)) 0) (sample_history n)).1.

Definition sample_net : t :=
  mk (<[sample_id 1 := sample_node 1]> (<[sample_id 2 := sample_node 2]> {[sample_id 3 := sample_node 3]})) [].

Definition sample_time : Z := ms 8000 + 1.

(** Every node ticks once; then the packets arrive. *)
Definition sample_actions : list action :=
  [Tick (sample_id 1) sample_time; Tick (sample_id 2) sample_time; Tick (sample_id 3) sample_time] ++
  replicate 6 (Deliver 0 sample_time).

Definition sample_end : t :=
  default sample_net (run row network.sample_fd 1024 sample_actions sample_net).

Lemma sample_nodes v m : nodes_ sample_net !! v = Some m → ∃ n, v = sample_id n ∧ m = sample_node n ∧ 1 ≤ n ≤ 3.
Proof.
  unfold sample_net. cbn [nodes_].
  intros [[<- <-]|[_ [[<- <-]|[_ [<- <-]%lookup_singleton_Some]]%lookup_insert_Some]]%lookup_insert_Some;
    eexists; (split; [reflexivity|]); (split; [reflexivity|lia]).
Qed.

Lemma sample_synced n : membership.synced (sample_node n).
Proof.
  unfold sample_node. apply (membership.run_ind (λ m _, membership.synced m)
    (λ m o _, membership.step_synced m o) _ _ None), membership.make_synced.
Qed.

Lemma sample_view n o e : 1 ≤ n ≤ 3 → membership.view_ (sample_node n) !! o = Some e →
  o = sample_id 9 ∧ membership.lastSeen e = 0.
Proof.
  intros Hn. assert (membership.view_ (sample_node n) =
    if n =? 3 then {[sample_id 9 := membership.mk_entry 7 [sample_id 3] 0]} else ∅) as ->.
  { assert (n = 1 ∨ n = 2 ∨ n = 3) as [->|[->| ->]] by lia;
      apply (bool_decide_unpack _); vm_compute; exact I. }
  destruct (n =? 3); [|by rewrite lookup_empty]. by intros [<- <-]%lookup_singleton_Some.
Qed.

(** Who is next to whom. *)
Lemma row_cases a b : b ∈ row a →
  (a, b) ∈ [(sample_id 1, sample_id 2); (sample_id 2, sample_id 1); (sample_id 2, sample_id 3);
            (sample_id 3, sample_id 2)].
Proof. unfold row. repeat destruct (decide _) as [->|]; set_solver. Qed.

Lemma sample_stable : stable row network.sample_fd sample_net (length sample_actions) 0 1 8000 2000 1024.
Proof.
  split.
  - reflexivity.
  - intros v m (n & -> & -> & Hn)%sample_nodes.
    assert (n = 1 ∨ n = 2 ∨ n = 3) as [->|[->| ->]] by lia; split_and!;
      try (apply sample_synced); try (vm_compute; reflexivity); try (vm_compute; congruence).
  - intros v m o e (n & -> & -> & Hn)%sample_nodes [-> Hl]%sample_view; [|done]. split; [lia|].
    intros mo (n' & E & -> & Hn')%sample_nodes. exfalso. revert E.
    assert (n' = 1 ∨ n' = 2 ∨ n' = 3) as [->|[->| ->]] by lia; vm_compute; congruence.
  - lia.
  - intros a b _ Hb%row_cases. apply elem_of_dom.
    unfold sample_net. cbn [nodes_]. rewrite !dom_insert_L, dom_singleton_L, !elem_of_union, !elem_of_singleton.
    rewrite !elem_of_cons, elem_of_nil in Hb. naive_solver.
  - intros a b Hb%row_cases. unfold link. rewrite !elem_of_cons, elem_of_nil in Hb.
    destruct Hb as [[= -> ->]|[[= -> ->]|[[= -> ->]|[[= -> ->]|[]]]]]; vm_compute; repeat constructor.
  - intros a. unfold row. repeat destruct (decide _); unfold max_neighbors; simpl; lia.
  - intros v. split; [apply network.sample_fd_inj|]. intros a. unfold network.sample_fd.
    pose proof (be_value_range (elems (bytes a))). lia.
Qed.

Lemma membership_converges_witness :
  inflight sample_end = [] ∧
  ∀ v m, nodes_ sample_end !! v = Some m →
  ∀ x, x ∈ membership.members_ m ↔ x ≠ v ∧ rtc (link row) v x.
Proof.
  assert (inflight sample_end = []) as Hq by (vm_compute; reflexivity). split; [exact Hq|].
  apply (membership_converges row network.sample_fd 1024 sample_net sample_end sample_actions 0 1 8000 2000).
  - exact sample_stable.
  - unfold sample_actions. repeat constructor; vm_compute; congruence.
  - intros v m (n & -> & -> & Hn)%sample_nodes. exists sample_time.
    assert (n = 1 ∨ n = 2 ∨ n = 3) as [->|[->| ->]] by lia;
      (split; [|split; vm_compute; congruence]).
    + apply (list_elem_of_lookup_2 _ 0). reflexivity.
    + apply (list_elem_of_lookup_2 _ 1). reflexivity.
    + apply (list_elem_of_lookup_2 _ 2). reflexivity.
  - apply some_default. vm_compute. reflexivity.
  - exact Hq.
Defined.

End membership_network.
