(* ===== verification/Crypto.v ===== *)
(** * The crypto wrapper ([src/src/crypto.hpp], [src/src/crypto.cpp])

    Key derivation, the discovery MAC, the X25519 + PSK handshake, the record
    layer ([secure_session]) and node identities.  libsodium is a parameter: the
    class [Sodium] lists the primitives the wrapper calls, the class
    [SodiumLaws] what libsodium documents about them.  The theorems show that
    both ends of a handshake derive mirrored keys and matching confirmation
    tags, that the record layer delivers what was sealed, in order, and that no
    nonce is used twice under one key. *)
From Stdlib Require Import ZArith Lia.
From Stdlib.Strings Require Import Byte.
From stdpp Require Import base gmap sets list strings numbers option.
From S2P Require Import Prelude PeerId Wire.

Abbreviation key32 := (array 32).
Abbreviation tag32 := (array 32).
Abbreviation mac16 := (array 16).
Abbreviation id_pubkey := (array 32).
Abbreviation id_seckey := (array 64).
Abbreviation seed32 := (array 32).
Abbreviation id_sig := (array 64).

(** libsodium's primitives. [generichash n key msg] is BLAKE2b with an [n]-byte
    digest (the multi-part interface hashes the concatenation of the parts);
    [scalarmult] and the two verifying functions return [None] or [false]
    where the C functions return a non-zero code; [box_pk] is the public key
    that [crypto_box_keypair] computes for a secret key. *)
Class Sodium := {
  generichash : ∀ n, list byte → list byte → array n;
  sodium_memcmp : list byte → list byte → bool;
  box_pk : key32 → key32;
  scalarmult : key32 → key32 → option (array 32);
  aead_encrypt : key32 → list byte → list byte → list byte;
  aead_decrypt : key32 → list byte → list byte → option (list byte);
  sign_seed_keypair : seed32 → id_pubkey * id_seckey;
  sk_to_seed : id_seckey → seed32;
  sign_detached : list byte → id_seckey → id_sig;
  sign_verify_detached : id_sig → list byte → id_pubkey → bool;
}.

(** What libsodium documents: the comparison decides equality, the two ends of
    an X25519 exchange compute the same secret (or both refuse), decryption
    undoes encryption, which adds 16 bytes, and a signature verifies under the
    key pair's public key. *)
Class SodiumLaws `{!Sodium} := {
  memcmp_spec : ∀ a b, length a = length b → sodium_memcmp a b = true ↔ a = b;
  scalarmult_comm : ∀ a b, scalarmult a (box_pk b) = scalarmult b (box_pk a);
  aead_length : ∀ k n m, length (aead_encrypt k n m) = (length m + 16)%nat;
  aead_roundtrip : ∀ k n m, aead_decrypt k n (aead_encrypt k n m) = Some m;
  sign_verifies : ∀ seed m,
    let '(pk, sk) := sign_seed_keypair seed in
    sign_verify_detached (sign_detached m sk) m pk = true;
  seed_recovered : ∀ seed, sk_to_seed (sign_seed_keypair seed).2 = seed;
}.

Module crypto.

Record ephemeral_keypair := mk_ephemeral { eph_pk : key32; eph_sk : key32 }.

Definition ephemeral_zero : ephemeral_keypair := mk_ephemeral (zero_array 32) (zero_array 32).

Record secure_session := mk_session {
  txKey : key32;
  rxKey : key32;
  txCtr : Z;
  rxCtr : Z;
}.

Record handshake_result := mk_handshake_result {
  session : secure_session;
  myConfirmTag : tag32;
  expectedPeerTag : tag32;
}.

Record identity_keypair := mk_identity { id_pk : id_pubkey; id_sk : id_seckey }.

Definition kPskCtx : list byte := bytes_of_string "multimaster-psk-v1".

(** A build has libsodium or the stubs; [sodium_init] returns a negative number
    when it fails. *)
Definition init (have_crypto : bool) (sodium_init : Z) : bool :=
  if have_crypto then 0 <=? sodium_init else false.

Definition available (have_crypto : bool) : bool := have_crypto.

(** The last eight of the twelve bytes, filled from the end. *)
Definition nonce_from_counter (ctr : Z) : list byte :=
  fold_left (λ nonce i, <[(11 - i)%nat := byte_of_Z (Z.land (Z.shiftr ctr (Z.of_nat i * 8)) 0xFF)]>
      nonce) (seq 0 8) (replicate 12 Byte.x00).

Section wrapper.

Context `{!Sodium}.

Definition derive_group_key (passphrase : list byte) : key32 :=
  generichash 32 kPskCtx passphrase.

Definition derive_discovery_key (groupKey : key32) : key32 :=
  generichash 32 (elems groupKey) (bytes_of_string "discovery").

Definition discovery_tag (msg : list byte) (discoveryKey : key32) : mac16 :=
  generichash 16 (elems discoveryKey) msg.

Definition discovery_verify (msg tag : list byte) (discoveryKey : key32) : bool :=
  if negb (length tag =? 16)%nat then false
  else sodium_memcmp (elems (discovery_tag msg discoveryKey)) tag.

(** The key pair [crypto_box_keypair] makes of the secret it draws. *)
Definition gen_ephemeral (sk : key32) : ephemeral_keypair := mk_ephemeral (box_pk sk) sk.

Definition verify_tag (a b : list byte) : bool :=
  if negb (length a =? length b)%nat then false else sodium_memcmp a b.

(** [None] is the failing return; the counters of a fresh session are zero. *)
Definition do_handshake (mine : ephemeral_keypair) (peerEphPk groupKey : key32)
    (groupName : list byte) : option handshake_result :=
  dh ← scalarmult (eph_sk mine) peerEphPk;
  let iAmLo := match memcmp (elems (eph_pk mine)) (elems peerEphPk) with
               | Lt => true | _ => false end in
  let lo := if iAmLo then eph_pk mine else peerEphPk in
  let hi := if iAmLo then peerEphPk else eph_pk mine in
  let master := generichash 64 (elems groupKey) (elems dh ++ elems lo ++ elems hi ++ groupName) in
  let skbytes := generichash 64 (elems master) (bytes_of_string "mm-session-keys-v1") in
  let kA := array_of 32 (take 32 (elems skbytes)) in
  let kB := array_of 32 (take 32 (drop 32 (elems skbytes))) in
  let txKey := if iAmLo then kA else kB in
  let rxKey := if iAmLo then kB else kA in
  let confirmBase := generichash 32 (elems master) (bytes_of_string "mm-confirm-v1") in
  let myConfirmTag := generichash 32 (elems confirmBase) (elems (eph_pk mine)) in
  let expectedPeerTag := generichash 32 (elems confirmBase) (elems peerEphPk) in
  Some (mk_handshake_result (mk_session txKey rxKey 0 0) myConfirmTag expectedPeerTag).

(** A record: the length of the ciphertext in four bytes, then the ciphertext. *)
Definition seal (plaintext : list byte) (s : secure_session) : list byte * secure_session :=
  let nonce := nonce_from_counter (txCtr s) in
  let s := mk_session (txKey s) (rxKey s) (wrap 64 (txCtr s + 1)) (rxCtr s) in
  let ctLen := Z.of_nat (length plaintext) + 16 in
  let header := [byte_of_Z (Z.land (Z.shiftr ctLen 24) 0xFF);
                 byte_of_Z (Z.land (Z.shiftr ctLen 16) 0xFF);
                 byte_of_Z (Z.land (Z.shiftr ctLen 8) 0xFF);
                 byte_of_Z (Z.land ctLen 0xFF)] in
  (header ++ aead_encrypt (txKey s) nonce plaintext, s).

(** [None] is the failing return; the counter only advances on success. *)
Definition open (ciphertext : list byte) (s : secure_session)
    : option (list byte) * secure_session :=
  if Z.of_nat (length ciphertext) <? 16 then (None, s)
  else
    match aead_decrypt (rxKey s) (nonce_from_counter (rxCtr s)) ciphertext with
    | None => (None, s)
    | Some out => (Some out, mk_session (txKey s) (rxKey s) (txCtr s) (wrap 64 (rxCtr s + 1)))
    end.

(** The key pair [crypto_sign_keypair] makes of the seed it draws. *)
Definition gen_identity (drawn : seed32) : identity_keypair :=
  let '(pk, sk) := sign_seed_keypair drawn in mk_identity pk sk.

Definition identity_from_seed (seed : seed32) : identity_keypair :=
  let '(pk, sk) := sign_seed_keypair seed in mk_identity pk sk.

Definition seed_of (kp : identity_keypair) : seed32 := sk_to_seed (id_sk kp).

Definition id_from_identity (pk : id_pubkey) : array 16 := generichash 16 [] (elems pk).

Definition sign (msg : list byte) (sk : id_seckey) : id_sig := sign_detached msg sk.

Definition verify_sig (msg : list byte) (sig : id_sig) (pk : id_pubkey) : bool :=
  sign_verify_detached sig msg pk.

End wrapper.

(** ** Nonces *)

Lemma nonce_shape ctr : nonce_from_counter ctr = replicate 4 Byte.x00 ++ be_bytes 8 ctr.
Proof. reflexivity. Qed.

Lemma nonce_inj c1 c2 :
  in_range 64 c1 → in_range 64 c2 → nonce_from_counter c1 = nonce_from_counter c2 → c1 = c2.
Proof. rewrite !nonce_shape. intros H1 H2 H%app_inv_head. by apply (be_bytes_inj 8). Qed.

(** ** The record layer *)

Section records.

Context `{!Sodium, !SodiumLaws}.

(** The record sealed under [k] with counter [c]. *)
Definition record (k : key32) (c : Z) (m : list byte) : list byte :=
  be_bytes 4 (Z.of_nat (length m) + 16) ++ aead_encrypt k (nonce_from_counter c) m.

Definition next_ctr (c : Z) : Z := wrap 64 (c + 1).

Lemma seal_record m s :
  seal m s = (record (txKey s) (txCtr s) m,
              mk_session (txKey s) (rxKey s) (next_ctr (txCtr s)) (rxCtr s)).
Proof. unfold seal, record. cbn [be_bytes]. by rewrite Z.shiftr_0_r. Qed.

Lemma open_record m s :
  open (drop 4 (record (rxKey s) (rxCtr s) m)) s =
  (Some m, mk_session (txKey s) (rxKey s) (txCtr s) (next_ctr (rxCtr s))).
Proof.
  unfold open, record. rewrite drop_app_length' by len. rewrite aead_length.
  rewrite (proj2 (Z.ltb_ge _ _)) by lia. by rewrite aead_roundtrip.
Qed.

(** Two ends joined by two ordered byte streams (TCP), with everything sent and
    received so far. *)
Record link := mk_link {
  end_a : secure_session; end_b : secure_session;
  wire_ab : list (list byte); wire_ba : list (list byte);
  sent_a : list (list byte); got_b : list (list byte);
  sent_b : list (list byte); got_a : list (list byte);
}.

Inductive link_op := SendA (m : list byte) | SendB (m : list byte) | RecvA | RecvB.

(** One action; [None] when a record does not open. *)
Definition link_step (l : link) (o : link_op) : option link :=
  match o with
  | SendA m =>
      let '(r, a) := seal m (end_a l) in
      Some (mk_link a (end_b l) (wire_ab l ++ [r]) (wire_ba l) (sent_a l ++ [m]) (got_b l)
              (sent_b l) (got_a l))
  | SendB m =>
      let '(r, b) := seal m (end_b l) in
      Some (mk_link (end_a l) b (wire_ab l) (wire_ba l ++ [r]) (sent_a l) (got_b l)
              (sent_b l ++ [m]) (got_a l))
  | RecvA =>
      match wire_ba l with
      | [] => Some l
      | r :: w =>
          match open (drop 4 r) (end_a l) with
          | (Some m, a) => Some (mk_link a (end_b l) (wire_ab l) w (sent_a l) (got_b l)
                                   (sent_b l) (got_a l ++ [m]))
          | (None, _) => None
          end
      end
  | RecvB =>
      match wire_ab l with
      | [] => Some l
      | r :: w =>
          match open (drop 4 r) (end_b l) with
          | (Some m, b) => Some (mk_link (end_a l) b w (wire_ba l) (sent_a l) (got_b l ++ [m])
                                   (sent_b l) (got_a l))
          | (None, _) => None
          end
      end
  end.

Definition link_run (l : link) (os : list link_op) : option link :=
  foldl (λ l o, l ← l; link_step l o) (Some l) os.

(** The keys of the two ends are mirrored and the counters at zero. *)
Definition mirrored (a b : secure_session) : Prop :=
  txKey a = rxKey b ∧ rxKey a = txKey b ∧ txCtr a = rxCtr b ∧ rxCtr a = txCtr b.

Definition fresh_link (a b : secure_session) : link := mk_link a b [] [] [] [] [] [].

(** The records of [ms] sealed with consecutive counters from [c]. *)
Fixpoint sealed_from (k : key32) (c : Z) (ms : list (list byte)) : list (list byte) :=
  match ms with
  | [] => []
  | m :: ms => record k c m :: sealed_from k (next_ctr c) ms
  end.

(** One direction: the wire holds the records of what was sent and not yet
    received, from the receiver's counter on. *)
Definition in_step (k : key32) (tx rx : Z) (wire sent got : list (list byte)) : Prop :=
  ∃ pending, wire = sealed_from k rx pending ∧ tx = Nat.iter (length pending) next_ctr rx ∧
    sent = got ++ pending.

Lemma iter_next n c : Nat.iter n next_ctr (next_ctr c) = next_ctr (Nat.iter n next_ctr c).
Proof. induction n as [|n IH]; simpl; [done|]. by rewrite IH. Qed.

Lemma sealed_from_snoc k c ms m :
  sealed_from k c (ms ++ [m]) =
  sealed_from k c ms ++ [record k (Nat.iter (length ms) next_ctr c) m].
Proof.
  revert c; induction ms as [|x ms IH]; intros c; simpl; [done|]. by rewrite IH, iter_next.
Qed.

Lemma in_step_send k tx rx wire sent got m :
  in_step k tx rx wire sent got →
  in_step k (next_ctr tx) rx (wire ++ [record k tx m]) (sent ++ [m]) got.
Proof.
  intros (ms & -> & -> & ->). exists (ms ++ [m]). rewrite sealed_from_snoc, length_app.
  rewrite Nat.add_comm. simpl. by rewrite (assoc_L (++)).
Qed.

Lemma in_step_recv k tx rx r wire sent got :
  in_step k tx rx (r :: wire) sent got →
  ∃ m, r = record k rx m ∧ in_step k tx (next_ctr rx) wire sent (got ++ [m]).
Proof.
  intros ([|m ms] & Hw & -> & ->); simplify_eq/=. exists m. split; [done|]. exists ms.
  rewrite iter_next. by rewrite <- (assoc_L (++)).
Qed.

Definition link_ok (l : link) : Prop :=
  txKey (end_a l) = rxKey (end_b l) ∧ txKey (end_b l) = rxKey (end_a l) ∧
  in_step (txKey (end_a l)) (txCtr (end_a l)) (rxCtr (end_b l)) (wire_ab l) (sent_a l) (got_b l) ∧
  in_step (txKey (end_b l)) (txCtr (end_b l)) (rxCtr (end_a l)) (wire_ba l) (sent_b l) (got_a l).

Lemma link_step_ok l o : link_ok l → ∃ l', link_step l o = Some l' ∧ link_ok l'.
Proof.
  intros (Ka & Kb & Hab & Hba). destruct o as [m|m| |]; cbn [link_step].
  - rewrite seal_record. eexists; split; [done|]. split_and!; simpl; try done.
    by apply in_step_send.
  - rewrite seal_record. eexists; split; [done|]. split_and!; simpl; try done.
    by apply in_step_send.
  - destruct (wire_ba l) as [|r w] eqn:Hw; [exists l; by rewrite <- Hw in *|].
    apply in_step_recv in Hba as (m & -> & Hba). rewrite Kb, open_record.
    eexists; split; [done|]. split_and!; simpl; done.
  - destruct (wire_ab l) as [|r w] eqn:Hw; [exists l; by rewrite <- Hw in *|].
    apply in_step_recv in Hab as (m & -> & Hab). rewrite Ka, open_record.
    eexists; split; [done|]. split_and!; simpl; done.
Qed.

Lemma link_run_ok l os : link_ok l → ∃ l', link_run l os = Some l' ∧ link_ok l'.
Proof.
  unfold link_run. revert l; induction os as [|o os IH]; intros l Hl; simpl; [by exists l|].
  destruct (link_step_ok l o Hl) as (l1 & -> & H1). by apply IH.
Qed.

Lemma mirrored_ok a b : mirrored a b → link_ok (fresh_link a b).
Proof.
  intros (H1 & H2 & H3 & H4). split_and!; simpl; try done; exists []; simpl; split_and!;
    congruence || done.
Qed.

(** ** Both ends agree *)

(** Comparing two distinct keys, exactly one end finds itself the lower. *)
Lemma lower_flip (a b : key32) :
  a ≠ b →
  match memcmp (elems b) (elems a) with Lt => true | _ => false end =
  negb match memcmp (elems a) (elems b) with Lt => true | _ => false end.
Proof.
  intros Hne. rewrite (memcmp_antisym (elems a)).
  destruct (memcmp (elems a) (elems b)) eqn:E; try done.
  apply memcmp_eq in E; [|by rewrite !length_elems]. by apply array_eq in E.
Qed.

Lemma handshake_mirrors sa sb groupKey groupName ra rb :
  let a := gen_ephemeral sa in
  let b := gen_ephemeral sb in
  eph_pk a ≠ eph_pk b →
  do_handshake a (eph_pk b) groupKey groupName = Some ra →
  do_handshake b (eph_pk a) groupKey groupName = Some rb →
  mirrored (session ra) (session rb) ∧
  myConfirmTag ra = expectedPeerTag rb ∧ expectedPeerTag ra = myConfirmTag rb.
Proof.
  intros a b Hne. unfold do_handshake. subst a b. simpl in *.
  rewrite (scalarmult_comm sa sb), (lower_flip _ _ Hne).
  destruct (scalarmult sb (box_pk sa)) as [dh|]; [|done]. simpl.
  destruct (match memcmp _ _ with Lt => true | _ => false end); simpl;
    intros Ha Hb; simplify_eq; done.
Qed.

Lemma verify_tag_spec (a b : tag32) : verify_tag (elems a) (elems b) = true ↔ a = b.
Proof.
  unfold verify_tag. rewrite !length_elems. simpl.
  rewrite memcmp_spec by (by rewrite !length_elems).
  split; [apply array_eq|by intros ->].
Qed.

(** [C29] Both ends of a key agreement end up with the same channel: with fresh
    ephemeral keys that differ, the same group key and the same group name,
    either both succeed or both fail; if they succeed, each end's transmit key
    is the other's receive key, the counters match, and the confirmation tag
    each sends is the one the other expects. *)
Theorem handshake_agreement sa sb groupKey groupName :
  let a := gen_ephemeral sa in
  let b := gen_ephemeral sb in
  eph_pk a ≠ eph_pk b →
  match do_handshake a (eph_pk b) groupKey groupName,
        do_handshake b (eph_pk a) groupKey groupName with
  | Some ra, Some rb =>
      mirrored (session ra) (session rb) ∧
      verify_tag (elems (myConfirmTag ra)) (elems (expectedPeerTag rb)) = true ∧
      verify_tag (elems (myConfirmTag rb)) (elems (expectedPeerTag ra)) = true
  | None, None => True
  | _, _ => False
  end.
Proof.
  intros a b Hne. pose proof (handshake_mirrors sa sb groupKey groupName) as Hmir.
  assert (is_Some (do_handshake a (eph_pk b) groupKey groupName) ↔
          is_Some (do_handshake b (eph_pk a) groupKey groupName)) as Hiff.
  { unfold do_handshake. subst a b. simpl. rewrite (scalarmult_comm sa sb).
    destruct (scalarmult sb (box_pk sa)); simpl; [by split; eauto|done]. }
  destruct (do_handshake a _ _ _) as [ra|] eqn:Ea, (do_handshake b _ _ _) as [rb|] eqn:Eb.
  - destruct (Hmir ra rb Hne Ea Eb) as (Hm & H1 & H2). split; [done|].
    by rewrite !verify_tag_spec.
  - destruct Hiff as [Hiff _]. by destruct (Hiff ltac:(eauto)).
  - destruct Hiff as [_ Hiff]. by destruct (Hiff ltac:(eauto)).
  - done.
Qed.

(** The record layer is a reliable channel: from mirrored sessions, over
    any interleaving of sends and receipts at both ends, every record that
    arrives in order opens, and each end has received exactly a prefix of what
    the other sent; when nothing is in flight, everything. *)
Theorem records_arrive_in_order a b os :
  mirrored a b →
  ∃ l, link_run (fresh_link a b) os = Some l ∧
    got_b l `prefix_of` sent_a l ∧ got_a l `prefix_of` sent_b l ∧
    (wire_ab l = [] → got_b l = sent_a l) ∧ (wire_ba l = [] → got_a l = sent_b l).
Proof.
  intros Hm. destruct (link_run_ok _ os (mirrored_ok _ _ Hm)) as (l & Hl & _ & _ & Hab & Hba).
  exists l. split; [done|].
  destruct Hab as (p1 & -> & _ & ->), Hba as (p2 & -> & _ & ->).
  split_and!; [by eexists|by eexists| |].
  - destruct p1; [by rewrite app_nil_r|done].
  - destruct p2; [by rewrite app_nil_r|done].
Qed.

End records.

(** Sealing a list of frames one after the other: the records. *)
Fixpoint seal_all `{!Sodium} (ms : list (list byte)) (s : secure_session)
    : list (list byte) * secure_session :=
  match ms with
  | [] => ([], s)
  | m :: ms =>
      let '(rec, s) := seal m s in
      let '(recs, s) := seal_all ms s in (rec :: recs, s)
  end.

(** The record counters are consecutive. *)
Lemma seal_all_records `{!Sodium} ms s :
  in_range 64 (txCtr s) → txCtr s + Z.of_nat (length ms) <= 2 ^ 64 →
  (seal_all ms s).1 = zip_with (record (txKey s)) (seqZ (txCtr s) (Z.of_nat (length ms))) ms.
Proof.
  revert s; induction ms as [|m ms IH]; intros s Hr Hlen; cbn [seal_all]; [done|].
  rewrite seal_record. cbn [length] in *. rewrite seqZ_cons by lia. cbn [zip_with].
  set (s1 := mk_session _ _ _ _). destruct (decide (ms = [])) as [->|Hne]; [done|].
  assert (0 < Z.of_nat (length ms)) by (destruct ms; [done|simpl; lia]).
  assert (txCtr s1 = Z.succ (txCtr s)) as E.
  { subst s1. simpl. unfold next_ctr, in_range in *. rewrite wrap_small; [done|]. unfold in_range. lia. }
  specialize (IH s1). rewrite E in IH. destruct (seal_all ms s1) as [recs s2]. cbn [fst] in *.
  unfold in_range in *. rewrite IH by lia. by replace (Z.pred (Z.of_nat (S (length ms)))) with (Z.of_nat (length ms)) by lia.
Qed.

(** [C38] No nonce is used twice under one key: the records a session seals, up
    to [2^64] of them, are the encryptions of its frames under its key, each
    with a nonce of its own, behind the length in four bytes. *)
Theorem nonces_unique `{!Sodium} ms s :
  txCtr s = 0 → Z.of_nat (length ms) <= 2 ^ 64 →
  ∃ nonces, NoDup nonces ∧ length nonces = length ms ∧
    (seal_all ms s).1 = zip_with (λ nonce m,
      be_bytes 4 (Z.of_nat (length m) + 16) ++ aead_encrypt (txKey s) nonce m) nonces ms.
Proof.
  intros H0 Hlen. set (ctrs := seqZ 0 (Z.of_nat (length ms))). exists (map nonce_from_counter ctrs). split_and!.
  - apply NoDup_fmap_2_strong; [|apply NoDup_seqZ]. intros x y Hx%elem_of_seqZ Hy%elem_of_seqZ.
    apply nonce_inj; unfold in_range; lia.
  - rewrite length_map. unfold ctrs. rewrite length_seqZ. lia.
  - rewrite seal_all_records by (rewrite H0; unfold in_range; lia). rewrite H0. fold ctrs.
    change (map nonce_from_counter ctrs) with (nonce_from_counter <$> ctrs). by rewrite zip_with_fmap_l.
Qed.

(** ** An instance *)

(** Concrete primitives that satisfy the laws (and protect nothing): a digest is
    the truncated concatenation of key and message, a shared secret the
    bytewise sum, a ciphertext the plaintext followed by half the key. *)
Definition add_bytes (a b : byte) : byte := byte_of_Z (byte_to_Z a + byte_to_Z b).

Definition toy_tag (k : key32) : list byte := take 16 (elems k).

#[local] Instance toy_sodium : Sodium := {|
  generichash n k m := array_of n (k ++ m);
  sodium_memcmp a b := bool_decide (a = b);
  box_pk sk := sk;
  scalarmult a b := Some (array_of 32 (zip_with add_bytes (elems a) (elems b)));
  aead_encrypt k n m := m ++ toy_tag k;
  aead_decrypt k n c :=
    if bool_decide (drop (length c - 16) c = toy_tag k) then Some (take (length c - 16) c)
    else None;
  sign_seed_keypair seed := (seed, array_of 64 (elems seed ++ elems seed));
  sk_to_seed sk := array_of 32 (take 32 (elems sk));
  sign_detached m sk := array_of 64 (take 32 (elems sk) ++ m);
  sign_verify_detached sig m pk := bool_decide (sig = array_of 64 (elems pk ++ m));
|}.

#[local] Instance toy_laws : SodiumLaws.
Proof.
  assert (∀ k : key32, length (toy_tag k) = 16%nat) as Htag.
  { intros k. unfold toy_tag. by rewrite length_take, length_elems. }
  assert (∀ seed : seed32, take 32 (elems (array_of 64 (elems seed ++ elems seed))) = elems seed)
    as Hseed.
  { intros seed. rewrite elems_array_of_exact by (by rewrite length_app, !length_elems).
    apply take_app_length'. by rewrite length_elems. }
  split; simpl.
  - intros a b _. by rewrite bool_decide_eq_true.
  - intros a b. do 2 f_equal. rewrite <- zip_with_flip. apply zip_with_ext; [|done|done].
    intros x y. unfold flip, add_bytes. f_equal. lia.
  - intros k n m. by rewrite length_app, Htag.
  - intros k n m. rewrite length_app, Htag, Nat.add_sub.
    rewrite drop_app_length, take_app_length. by rewrite bool_decide_true.
  - intros seed m. rewrite Hseed. by rewrite bool_decide_true.
  - intros seed. rewrite Hseed. apply array_of_elems.
Qed.

Definition sample_key (n : Z) : key32 := array_of 32 (be_bytes 32 n).

Lemma handshake_agreement_witness :
  match do_handshake (gen_ephemeral (sample_key 1)) (sample_key 2) (sample_key 3)
          (bytes_of_string "default"),
        do_handshake (gen_ephemeral (sample_key 2)) (sample_key 1) (sample_key 3)
          (bytes_of_string "default") with
  | Some ra, Some rb => mirrored (session ra) (session rb)
  | _, _ => False
  end.
Proof.
  pose proof (handshake_agreement (sample_key 1) (sample_key 2) (sample_key 3)
    (bytes_of_string "default")) as Hw.
  cbv zeta in Hw. specialize (Hw ltac:(vm_compute; congruence)).
  change (eph_pk (gen_ephemeral (sample_key 1))) with (sample_key 1) in Hw.
  change (eph_pk (gen_ephemeral (sample_key 2))) with (sample_key 2) in Hw.
  destruct (do_handshake (gen_ephemeral (sample_key 1)) _ _ _) eqn:Ea; [|vm_compute in Ea; congruence].
  destruct (do_handshake (gen_ephemeral (sample_key 2)) _ _ _) eqn:Eb; [|vm_compute in Eb; congruence].
  apply Hw.
Defined.

Definition sample_session_a : secure_session := mk_session (sample_key 1) (sample_key 2) 0 0.
Definition sample_session_b : secure_session := mk_session (sample_key 2) (sample_key 1) 0 0.

Lemma records_arrive_in_order_witness :
  ∃ l, link_run (fresh_link sample_session_a sample_session_b)
         [SendA (bytes_of_string "one"); SendA (bytes_of_string "two"); RecvB;
          SendB (bytes_of_string "three"); RecvA; RecvB] = Some l ∧
    got_b l `prefix_of` sent_a l ∧ got_a l `prefix_of` sent_b l ∧
    (wire_ab l = [] → got_b l = sent_a l) ∧ (wire_ba l = [] → got_a l = sent_b l).
Proof. apply records_arrive_in_order. vm_compute. split_and!; reflexivity. Defined.

Lemma nonces_unique_witness :
  ∃ nonces, NoDup nonces ∧ length nonces = 2%nat ∧
    (seal_all [bytes_of_string "a"; bytes_of_string "b"] sample_session_a).1 =
    zip_with (λ nonce m, be_bytes 4 (Z.of_nat (length m) + 16) ++ aead_encrypt (sample_key 1) nonce m)
      nonces [bytes_of_string "a"; bytes_of_string "b"].
Proof.
  apply (nonces_unique [bytes_of_string "a"; bytes_of_string "b"] sample_session_a);
    [reflexivity|vm_compute; congruence].
Defined.

End crypto.
