(* ===== verification/Identity.v ===== *)
(** * The local identity ([local_identity] of [src/src/peer_connection.hpp])

    What a node presents to its peers: identifier, group, protocol version and
    port, the keys of a secured mesh, and the node's signing identity. *)
From Stdlib Require Import ZArith Lia.
From Stdlib.Strings Require Import Byte.
From stdpp Require Import base list.
From S2P Require Import Prelude PeerId Crypto.

Record local_identity := mk_local_identity {
  l_nodeId : peer_id;
  l_groupName : list byte;
  l_protocolVersion : Z;
  l_listenPort : Z;
  l_secure : bool;
  l_groupKey : key32;
  l_discoveryKey : key32;
  l_hasIdentity : bool;
  l_idKeys : crypto.identity_keypair;
  l_nodeName : list byte;
  l_trustedKeys : list id_pubkey;
}.
