(* ===== verification/Discovery.v ===== *)
(** * Discovery ([src/src/discovery.hpp], [src/src/discovery.cpp])

    Setting up the multicast socket, the announce datagram a node multicasts and
    the filter it applies to the datagrams it receives.  The kernel is a
    parameter: the results of the calls [start] makes and the datagrams
    [recvfrom] returns until it fails are arguments; the options set on the
    socket, the datagrams passed to [sendto], the timers and the calls of
    [onDiscover_] are results.  The theorems show when discovery runs and
    exactly which datagrams are surfaced. *)
From Stdlib Require Import ZArith Lia.
From Stdlib.Strings Require Import Byte.
From stdpp Require Import base list strings numbers option.
From S2P Require Import Prelude PeerId Wire WireFacts WireGrammar Config Socket EventLoop Crypto Identity.

Module discovery.

Section with_sodium.

Context `{!Sodium}.

(** The datagram [send_announce] passes to [sendto]; none while the socket is
    not [usable_]. *)
Definition send_announce (usable_ : bool) (self_ : local_identity) : option (list byte) :=
  if negb usable_ then None
  else
    let a := mk_announce (l_protocolVersion self_)
               (if l_secure self_ then kAnnounceFlagSecure else 0)
               (l_listenPort self_) (l_nodeId self_) (l_groupName self_) in
    let dat := encode_announce a in
    let dat := if l_secure self_
               then dat ++ elems (crypto.discovery_tag dat (l_discoveryKey self_)) else dat in
    Some dat.

(** The delay before the next announce, for a draw [jit] of the distribution
    on [-base/5, base/5]. *)
Definition jitter_range (base : Z) : Z * Z := (Z.quot (- base) 5, Z.quot base 5).

Definition announce_delay (base jit : Z) : Z := base + jit.

(** [schedule_announce]: the callback sends and schedules again. *)
Definition schedule_announce {W CB} (announceInterval jit : Z) (again : CB) (w : W)
    : event_loop.prog (CB:=CB) (W:=W) :=
  event_loop.AddTimer (ms (announce_delay announceInterval jit)) (Some again)
    (λ _, event_loop.Ret w).

Definition kRecvBuf : nat := 2048.

(** The body of one turn of the receive loop: the announce to surface, [None]
    where the code continues. *)
Definition accept (self_ : local_identity) (received : list byte) : option announce :=
  let datagram := take kRecvBuf received in
  body ← (if l_secure self_ then
            if (length datagram <=? 16)%nat then None
            else
              let body := take (length datagram - 16) datagram in
              let tag := take 16 (drop (length datagram - 16) datagram) in
              if crypto.discovery_verify body tag (l_discoveryKey self_) then Some body else None
          else Some datagram);
  a ← decode_announce body;
  if negb (Bool.eqb (negb (Z.land (a_flags a) kAnnounceFlagSecure =? 0)) (l_secure self_))
  then None
  else if negb (a_protocolVersion a =? l_protocolVersion self_) then None
  else if negb (bool_decide (a_groupName a = l_groupName self_)) then None
  else if peer_id_eqb (a_nodeId a) (l_nodeId self_) then None
  else Some a.

Definition EPOLLIN : Z := 0x001.

(** [on_io_events] on the datagrams (with their sources) that [recvfrom] returns
    before it fails: the calls of [onDiscover_], in order. *)
Definition on_io_events {A} (events : Z) (self_ : local_identity) (datagrams : list (list byte * A))
    : list (announce * A) :=
  if Z.land events EPOLLIN =? 0 then []
  else omap (λ '(d, src), (λ a, (a, src)) <$> accept self_ d) datagrams.

(** *** Starting *)

(** The results of the calls [start] makes: a descriptor or an [errno]; 0 or an
    [errno]; and what [errno] holds where no call has just set it. *)
Record calls := mk_calls {
  r_socket : Z + Z;
  r_bind : Z;
  r_join : Z;
  r_add : Z;
  stale_errno : Z;
}.

(** The options [start] sets; only the result of joining the group is used. *)
Inductive sockopt :=
  | ReuseAddr | ReusePort
  | AddMembership (multiaddr interface : Z)
  | MulticastTtl (ttl : Z) | MulticastLoop (on : Z)
  | MulticastIf (iface : Z).

Record t := mk {
  sock_ : Z;
  groupAddr_ : Z * Z;
  usable_ : bool;
  options : list sockopt;
  reports : list error;
  datagrams : list (list byte);
  delays : list Z;
}.

Definition make : t := mk (-1) (0, 0) false [] [] [] [].

Definition report (errno : Z) (what : list byte) (d : t) : t :=
  mk (sock_ d) (groupAddr_ d) (usable_ d) (options d)
    (reports d ++ [mk_error ErrDiscovery errno what None]) (datagrams d) (delays d).

Definition setsockopt (o : sockopt) (d : t) : t :=
  mk (sock_ d) (groupAddr_ d) (usable_ d) (options d ++ [o]) (reports d) (datagrams d) (delays d).

(** An interface that does not parse leaves the zeroed address, as an empty one
    does. *)
Definition start (inet_pton : list byte → option Z) (cfg_ : mesh_config) (self_ : local_identity)
    (jit : Z) (k : calls) (d : t) : t :=
  match r_socket k with
  | inl e => report e (bytes_of_string "multicast socket()") d
  | inr fd =>
      let d := mk fd (groupAddr_ d) (usable_ d) (options d) (reports d) (datagrams d) (delays d) in
      let d := setsockopt ReusePort (setsockopt ReuseAddr d) in
      if negb (make_addr inet_pton (bytes_of_string "0.0.0.0") (multicastPort cfg_)).1 ||
         negb (r_bind k =? 0)
      then report (r_bind k) (bytes_of_string "multicast bind()") d
      else
        match inet_pton (until_nul (multicastAddr cfg_)) with
        | None => report (stale_errno k) (bytes_of_string "bad multicast address") d
        | Some multiaddr =>
            let iface := default 0 (inet_pton (until_nul (multicastIface cfg_))) in
            let interface := if bool_decide (multicastIface cfg_ = []) then 0 else iface in
            let d := setsockopt (AddMembership multiaddr interface) d in
            if negb (r_join k =? 0) then report (r_join k) (bytes_of_string "IP_ADD_MEMBERSHIP") d
            else
              let d := setsockopt (MulticastLoop 1) (setsockopt (MulticastTtl (multicastTtl cfg_)) d) in
              let d := if bool_decide (multicastIface cfg_ = []) then d
                       else setsockopt (MulticastIf iface) d in
              let '(ok, group) := make_addr inet_pton (multicastAddr cfg_) (multicastPort cfg_) in
              let d := mk (sock_ d) group (usable_ d) (options d) (reports d) (datagrams d) (delays d) in
              if negb ok then report (stale_errno k) (bytes_of_string "bad multicast dest") d
              else if negb (r_add k =? 0)
              then report (r_add k) (bytes_of_string "multicast epoll add") d
              else
                mk (sock_ d) (groupAddr_ d) true (options d) (reports d)
                  (datagrams d ++ option_list (send_announce true self_))
                  (delays d ++ [ms (announce_delay (announceInterval cfg_) jit)])
        end
  end.

(** Everything [start] needs, in the order it is asked for. *)
Definition all_succeed (inet_pton : list byte → option Z) (cfg_ : mesh_config) (k : calls) : Prop :=
  (∃ fd, r_socket k = inr fd) ∧ r_bind k = 0 ∧
  (∃ a, inet_pton (until_nul (multicastAddr cfg_)) = Some a) ∧ r_join k = 0 ∧ r_add k = 0.

(** The destination is parsed a second time, when it is known to parse. *)
Lemma make_addr_again inet_pton ip port a :
  inet_pton (until_nul ip) = Some a → (make_addr inet_pton ip port).1 = true.
Proof. intros Ha. unfold make_addr. case_bool_decide; [done|]. by rewrite Ha. Qed.

(** Discovery starts completely or reports why not: it is usable exactly
    when every call succeeded, and has then reported nothing, joined the
    configured group, announced itself once and armed one timer; otherwise it
    has reported exactly one error, announces nothing and is not armed, and the
    error is never the unreachable one about the destination address. *)
Theorem discovery_starts_or_reports inet_pton cfg self jit k :
  let d := start inet_pton cfg self jit k make in
  if usable_ d then
    all_succeed inet_pton cfg k ∧ reports d = [] ∧ r_socket k = inr (sock_ d) ∧
    (∃ a i, inet_pton (until_nul (multicastAddr cfg)) = Some a ∧ AddMembership a i ∈ options d) ∧
    datagrams d = option_list (send_announce true self) ∧
    delays d = [ms (announce_delay (announceInterval cfg) jit)]
  else
    ¬ all_succeed inet_pton cfg k ∧ datagrams d = [] ∧ delays d = [] ∧
    ∃ e, reports d = [e] ∧ category e = ErrDiscovery ∧
      what e ≠ bytes_of_string "bad multicast dest".
Proof.
  intros d. unfold d, start, all_succeed.
  destruct (r_socket k) as [e|fd]; simpl; [naive_solver|].
  destruct (Z.eqb_spec (r_bind k) 0); simpl; [|naive_solver].
  destruct (inet_pton (until_nul (multicastAddr cfg))) as [a|] eqn:Ha; simpl; [|naive_solver].
  destruct (Z.eqb_spec (r_join k) 0); simpl; [|naive_solver].
  pose proof (make_addr_again inet_pton _ (multicastPort cfg) a Ha) as Hm.
  destruct (make_addr inet_pton (multicastAddr cfg) (multicastPort cfg)) as [ok group].
  simpl in Hm. subst ok. simpl.
  destruct (Z.eqb_spec (r_add k) 0), (bool_decide (multicastIface cfg = [])); simpl;
    (split_and!; [naive_solver|..]); try done; try by eexists.
  all: eexists a, _; split; [done|]; right; right; left.
Qed.

(** ** Which datagrams are surfaced *)

(** The announce a node sends about itself. *)
Definition self_announce (s : local_identity) : announce :=
  mk_announce (l_protocolVersion s) (if l_secure s then kAnnounceFlagSecure else 0)
    (l_listenPort s) (l_nodeId s) (l_groupName s).

Definition identity_ok (s : local_identity) : Prop :=
  in_range 8 (l_protocolVersion s) ∧ in_range 16 (l_listenPort s).

(** The datagram is accepted as announcing [a]. *)
Record acceptable (r : local_identity) (a : announce) : Prop := {
  acc_mode : negb (Z.land (a_flags a) kAnnounceFlagSecure =? 0) = l_secure r;
  acc_version : a_protocolVersion a = l_protocolVersion r;
  acc_group : a_groupName a = l_groupName r;
  acc_other : a_nodeId a ≠ l_nodeId r;
}.

(** The checks after decoding. *)
Definition filter_announce (r : local_identity) (a : announce) : option announce :=
  if negb (Bool.eqb (negb (Z.land (a_flags a) kAnnounceFlagSecure =? 0)) (l_secure r)) then None
  else if negb (a_protocolVersion a =? l_protocolVersion r) then None
  else if negb (bool_decide (a_groupName a = l_groupName r)) then None
  else if peer_id_eqb (a_nodeId a) (l_nodeId r) then None
  else Some a.

Lemma filter_announce_spec r a b : filter_announce r a = Some b ↔ b = a ∧ acceptable r a.
Proof.
  unfold filter_announce. destruct (Bool.eqb _ _) eqn:E1; simpl.
  2:{ split; [done|]. intros (-> & [H1 _ _ _]). rewrite H1, Bool.eqb_reflx in E1. done. }
  destruct (_ =? l_protocolVersion r) eqn:E2; simpl.
  2:{ split; [done|]. intros (-> & [_ H2 _ _]). rewrite H2, Z.eqb_refl in E2. done. }
  case_bool_decide as E3; simpl.
  2:{ split; [done|]. by intros (-> & []). }
  destruct (peer_id_eqb _ _) eqn:E4.
  { split; [done|]. intros (-> & [_ _ _ H4]). apply peer_id_eqb_neq in H4. congruence. }
  apply eqb_prop in E1. apply Z.eqb_eq in E2. apply peer_id_eqb_neq in E4.
  split; [intros [= <-]; by split|by intros [-> _]].
Qed.

Lemma accept_plain r d :
  l_secure r = false → accept r d = a ← decode_announce (take kRecvBuf d); filter_announce r a.
Proof. intros Hr. unfold accept, filter_announce. by rewrite Hr. Qed.

Lemma accept_secure r body (tag : mac16) :
  l_secure r = true → (0 < length body)%nat → (length body + 16 <= kRecvBuf)%nat →
  accept r (body ++ elems tag) =
  if crypto.discovery_verify body (elems tag) (l_discoveryKey r)
  then a ← decode_announce body; filter_announce r a else None.
Proof.
  intros Hr Hne Hlen. unfold accept, filter_announce. rewrite Hr.
  rewrite take_ge by (rewrite length_app, length_elems; done).
  rewrite length_app, length_elems, Nat.add_sub.
  destruct (_ <=? 16)%nat eqn:E; [apply Nat.leb_le in E; lia|].
  rewrite take_app_length, drop_app_length, take_ge by (by rewrite length_elems).
  by destruct (crypto.discovery_verify _ _ _).
Qed.

(** Whatever is accepted passed every check, the MAC first. *)
Lemma accept_sound r d a :
  accept r d = Some a →
  ∃ body, decode_announce body = Some a ∧ acceptable r a ∧
    if l_secure r
    then ∃ tag : list byte, take kRecvBuf d = body ++ tag ∧
           crypto.discovery_verify body tag (l_discoveryKey r) = true
    else take kRecvBuf d = body.
Proof.
  unfold accept. set (g := take kRecvBuf d). intros Ha.
  destruct (l_secure r) eqn:Hr.
  - destruct (_ <=? 16)%nat eqn:E; [done|]. apply Nat.leb_gt in E.
    destruct (crypto.discovery_verify _ _ _) eqn:Hv; [|done].
    rewrite <- Hr in Ha. simpl in Ha. apply bind_Some in Ha as (b & Hb & Ha).
    apply filter_announce_spec in Ha as [-> Hok].
    eexists; split_and!; [done|done|]. eexists; split; [|exact Hv].
    rewrite (take_ge (drop _ _)) by (rewrite length_drop; lia). by rewrite take_drop.
  - rewrite <- Hr in Ha. simpl in Ha. apply bind_Some in Ha as (b & Hb & Ha).
    apply filter_announce_spec in Ha as [-> Hok]. eauto.
Qed.

Lemma length_announce a : (length (encode_announce a) <= 280)%nat.
Proof.
  rewrite encode_announce_shape. unfold announce_body, str_bytes.
  pose proof (length_clip (a_groupName a)). rewrite !length_app, !length_be_bytes, !length_elems. lia.
Qed.

Lemma send_announce_shape s :
  send_announce true s = Some (encode_announce (self_announce s) ++
    if l_secure s
    then elems (crypto.discovery_tag (encode_announce (self_announce s)) (l_discoveryKey s))
    else []).
Proof.
  unfold send_announce, self_announce. cbn [negb].
  by destruct (l_secure s); [|rewrite app_nil_r].
Qed.

(** The announce as its receiver sees it. *)
Definition announced (s : local_identity) : announce :=
  mk_announce (l_protocolVersion s) (if l_secure s then kAnnounceFlagSecure else 0)
    (l_listenPort s) (l_nodeId s) (clip (l_groupName s)).

Lemma decode_announced s tail :
  identity_ok s → decode_announce (encode_announce (self_announce s) ++ tail) = Some (announced s).
Proof.
  intros [Hv Hp]. apply decode_encode_announce. unfold announce_ok, self_announce. simpl.
  split_and!; [done| |done]. by destruct (l_secure s).
Qed.

Lemma length_sent s d : send_announce true s = Some d → (length d <= kRecvBuf)%nat.
Proof.
  rewrite send_announce_shape. intros <-%(inj Some). pose proof (length_announce (self_announce s)).
  change kRecvBuf with 2048%nat.
  destruct (l_secure s); rewrite length_app; [rewrite length_elems|cbn [length]]; lia.
Qed.

(** Whatever an announce is accepted as, it was sent as that. *)
Lemma accepted_as_sent s r d b :
  identity_ok s → send_announce true s = Some d → accept r d = Some b →
  b = announced s ∧ acceptable r b.
Proof.
  intros Hs Hd Ha. apply accept_sound in Ha as (body & Hdec & Hok & Hmac). split; [|done].
  assert (∃ t, d = body ++ t) as [t ->].
  { rewrite <-(take_ge d kRecvBuf) by (by eapply length_sent). destruct (l_secure r).
    - destruct Hmac as (tag & Ht & _). eauto.
    - exists []. by rewrite app_nil_r. }
  apply decode_announce_iff in Hdec as (t' & -> & Hb & Hshort).
  rewrite send_announce_shape in Hd. apply (inj Some) in Hd. rewrite <-(assoc_L (++)) in Hd.
  apply (f_equal decode_announce) in Hd. rewrite decode_announced, decode_encode_announce in Hd by done.
  rewrite clip_short in Hd by done. apply (inj Some) in Hd. rewrite Hd. by destruct b.
Qed.

(** [C36] Discovery finds exactly the other nodes of the mesh: the announce of a
    node [s] makes a node [r] surface [s] (with its port, and its identifier)
    if and only if both agree on whether the mesh is secured, on the protocol
    version and on the group name as transmitted, their identifiers differ,
    and, in a secured mesh, both keys give the datagram the same MAC. *)
Theorem announce_accepted_iff `{!SodiumLaws} s r d :
  identity_ok s → send_announce true s = Some d →
  ∀ b, accept r d = Some b ↔
    b = announced s ∧ l_secure s = l_secure r ∧ l_protocolVersion s = l_protocolVersion r ∧
    clip (l_groupName s) = l_groupName r ∧ l_nodeId s ≠ l_nodeId r ∧
    (l_secure r = true →
       crypto.discovery_tag (encode_announce (self_announce s)) (l_discoveryKey s) =
       crypto.discovery_tag (encode_announce (self_announce s)) (l_discoveryKey r)).
Proof.
  intros Hs Hd b. pose proof (length_sent s d Hd) as Hlen.
  assert (acceptable r (announced s) ↔ l_secure s = l_secure r ∧
    l_protocolVersion s = l_protocolVersion r ∧ clip (l_groupName s) = l_groupName r ∧
    l_nodeId s ≠ l_nodeId r) as Hacc.
  { assert (negb (Z.land (a_flags (announced s)) kAnnounceFlagSecure =? 0) = l_secure s) as Hf
      by (simpl; by destruct (l_secure s)).
    split; [intros []; by rewrite <-Hf|]. intros (? & ? & ? & ?). split; try done. by rewrite Hf. }
  destruct (decide (l_secure s = l_secure r)) as [Hmode|Hmode].
  2:{ split; [|naive_solver]. intros Ha.
      destruct (accepted_as_sent s r d b Hs Hd Ha) as [-> Hok%Hacc]. naive_solver. }
  rewrite send_announce_shape in Hd. apply (inj Some) in Hd as <-. rewrite Hmode in *.
  pose proof (decode_announced s [] Hs) as Hdec. rewrite app_nil_r in Hdec.
  destruct (l_secure r) eqn:Hr.
  - rewrite length_app, length_elems in Hlen.
    rewrite accept_secure; [|done| |done].
    2:{ rewrite encode_announce_shape, length_app, length_be_bytes. lia. }
    rewrite Hdec. cbn [mbind option_bind].
    unfold crypto.discovery_verify. rewrite length_elems. cbn [Nat.eqb negb].
    destruct (sodium_memcmp _ _) eqn:Hm.
    + apply memcmp_spec in Hm; [|by rewrite !length_elems]. apply array_eq in Hm.
      rewrite filter_announce_spec, Hacc. naive_solver.
    + split; [done|]. intros (_ & _ & _ & _ & _ & Htag). rewrite Htag in Hm by done.
      rewrite (proj2 (memcmp_spec _ _ eq_refl) eq_refl) in Hm. done.
  - rewrite accept_plain, take_ge, app_nil_r, Hdec by done. cbn [mbind option_bind].
    rewrite filter_announce_spec, Hacc. naive_solver.
Qed.

(** Nothing else gets through: every node surfaced to the peer manager
    comes from a received datagram whose decoded announce agrees with this
    node's security mode, version and group and names another node; in a
    secured mesh, the announce ends with the 16-byte MAC of what precedes it
    under this node's discovery key. *)
Theorem discovered_is_checked `{!SodiumLaws} {A} events r (ds : list (list byte * A)) a src :
  (a, src) ∈ on_io_events events r ds →
  ∃ d body, (d, src) ∈ ds ∧ decode_announce body = Some a ∧ acceptable r a ∧
    take kRecvBuf d = body ++ (if l_secure r
      then elems (crypto.discovery_tag body (l_discoveryKey r)) else []).
Proof.
  unfold on_io_events. destruct (_ =? 0); [by intros ?%elem_of_nil|].
  intros ([d src'] & Hin & Ha)%list_elem_of_omap. cbn beta iota in Ha.
  apply fmap_Some in Ha as (a' & Ha & [= -> ->]).
  apply accept_sound in Ha as (body & Hdec & Hok & Hmac). exists d, body.
  split_and!; [done|done|done|]. destruct (l_secure r); [|by rewrite app_nil_r].
  destruct Hmac as (tag & -> & Hv). unfold crypto.discovery_verify in Hv.
  destruct (length tag =? 16)%nat eqn:El; [|done]. apply Nat.eqb_eq in El.
  cbn [negb] in Hv. apply memcmp_spec in Hv; [by rewrite Hv|by rewrite length_elems].
Qed.

(** A group name of more than 255 bytes disables discovery: the format
    clips names to 255 bytes, the receiver compares with its whole name, and so
    no datagram whatsoever is accepted. *)
Theorem long_group_never_discovered {A} events r (ds : list (list byte * A)) :
  (255 < length (l_groupName r))%nat → on_io_events events r ds = [].
Proof.
  intros Hlong. unfold on_io_events. destruct (_ =? 0); [done|].
  apply elem_of_nil_inv. intros x ([d src] & _ & Ha)%list_elem_of_omap.
  apply fmap_Some in Ha as (a & Ha & _).
  apply accept_sound in Ha as (body & Hdec & [_ _ Hg _] & _).
  apply decode_announce_short in Hdec. rewrite Hg in Hdec. lia.
Qed.

End with_sodium.

(** The jittered interval stays within a fifth of the configured one. *)
Lemma announce_delay_bounds base jit :
  0 <= base → (jitter_range base).1 <= jit <= (jitter_range base).2 →
  4 * base <= 5 * announce_delay base jit <= 6 * base.
Proof.
  unfold jitter_range, announce_delay. simpl. intros Hb [H1 H2].
  rewrite Z.quot_opp_l in H1 by lia. rewrite !Z.quot_div_nonneg in * by lia. zlia.
Qed.

(** ** Examples *)

#[local] Existing Instance crypto.toy_sodium.
#[local] Existing Instance crypto.toy_laws.

Definition sample_local (n : Z) (group : list byte) : local_identity :=
  mk_local_identity (sample_id n) group 1 (40000 + n) true (crypto.sample_key 7)
    (crypto.sample_key 8) false (crypto.mk_identity (zero_array 32) (zero_array 64)) [] [].

Definition sample_datagram : list byte :=
  default [] (send_announce true (sample_local 1 (bytes_of_string "lan"))).

Lemma announce_accepted_iff_witness :
  accept (sample_local 2 (bytes_of_string "lan")) sample_datagram =
  Some (mk_announce 1 1 40001 (sample_id 1) (bytes_of_string "lan")).
Proof.
  apply (announce_accepted_iff (sample_local 1 (bytes_of_string "lan"))
    (sample_local 2 (bytes_of_string "lan")) sample_datagram).
  - vm_compute. repeat split; congruence.
  - vm_compute. reflexivity.
  - split_and!; try reflexivity. vm_compute. congruence.
Defined.

Lemma discovered_is_checked_witness :
  ∃ d body, (d, tt) ∈ [(bytes_of_string "junk", tt); (sample_datagram, tt)] ∧
    decode_announce body = Some (mk_announce 1 1 40001 (sample_id 1) (bytes_of_string "lan")) ∧
    acceptable (sample_local 2 (bytes_of_string "lan"))
      (mk_announce 1 1 40001 (sample_id 1) (bytes_of_string "lan")) ∧
    take kRecvBuf d = body ++ elems (crypto.discovery_tag body (crypto.sample_key 8)).
Proof.
  apply (discovered_is_checked 1 (sample_local 2 (bytes_of_string "lan"))
    [(bytes_of_string "junk", tt); (sample_datagram, tt)] _ tt).
  vm_compute. left.
Defined.

Lemma long_group_never_discovered_witness :
  on_io_events 1 (sample_local 2 (replicate 256 Byte.x61)) [(sample_datagram, tt)] = [].
Proof. apply long_group_never_discovered. vm_compute. lia. Defined.

End discovery.
