(* ===== verification/MeshConfig.v ===== *)
(** * Starting a node: configuration and identity

    The first half of [mesh_impl] (src/src/mesh_impl.cpp): the hexadecimal
    text of keys, [load_or_create_seed] on a file system, and the part of
    [start] that turns a [mesh_config] into the node's [local_identity] and its
    table of labels.  The file system is a map of files with what the process
    may do; random numbers, and whether libsodium initialises, are arguments. *)
From Stdlib Require Import ZArith Lia.
From Stdlib.Strings Require Import Byte.
From stdpp Require Import base gmap sets list strings numbers option.
From S2P Require Import Prelude PeerId Config Socket Crypto Identity.

(** ** Hexadecimal text *)

Module hex.

(** [std::isspace] in the "C" locale. *)
Definition isspace (c : byte) : bool :=
  let c := byte_to_Z c in ((9 <=? c) && (c <=? 13)) || (c =? 32).

Definition hex_nibble (c : byte) : Z :=
  let c := byte_to_Z c in
  if (48 <=? c) && (c <=? 57) then c - 48
  else if (97 <=? c) && (c <=? 102) then c - 97 + 10
  else if (65 <=? c) && (c <=? 70) then c - 65 + 10
  else -1.

(** The two trimming loops: the first position that is not a space, and the
    last one after it. *)
Fixpoint find_begin (sv : list byte) : nat :=
  match sv with
  | [] => 0
  | c :: sv => if isspace c then S (find_begin sv) else 0
  end.

Fixpoint find_end (sv : list byte) (begin end_ : nat) : nat :=
  match end_ with
  | O => O
  | S e => if (begin <? end_)%nat && isspace (nth e sv Byte.x00) then find_end sv begin e else end_
  end.

(** The decoding loop, [n] turns from index [i] on. *)
Fixpoint decode_loop (sv : list byte) (i n : nat) : option (list byte) :=
  match n with
  | O => Some []
  | S n =>
      let hi := hex_nibble (nth (i * 2) sv Byte.x00) in
      let lo := hex_nibble (nth (i * 2 + 1) sv Byte.x00) in
      if (hi <? 0) || (lo <? 0) then None
      else out ← decode_loop sv (S i) n; Some (byte_of_Z (Z.lor (Z.shiftl hi 4) lo) :: out)
  end.

Definition decode_hex (sv : list byte) (n : nat) : option (array n) :=
  let begin := find_begin sv in
  let end_ := find_end sv begin (length sv) in
  let sv := take (end_ - begin) (drop begin sv) in
  if negb (length sv =? n * 2)%nat then None
  else out ← decode_loop sv 0 n; Some (array_of n out).

Definition to_hex (p : list byte) : list byte :=
  fold_left (λ s b,
    let v := byte_to_Z b in (s ++ [hex_char (Z.shiftr v 4)]) ++ [hex_char (Z.land v 0x0F)]) p [].

(** ** What the decoder accepts *)

Definition spaces (l : list byte) : Prop := Forall (λ c, isspace c = true) l.

Lemma digit_not_space c : 0 ≤ hex_val c → isspace c = false.
Proof. by destruct c. Qed.

Lemma find_begin_spec s l : spaces s → (∀ c l', l = c :: l' → isspace c = false) →
  find_begin (s ++ l) = length s.
Proof.
  intros Hs Hl. induction Hs as [|c s Hc _ IH]; simpl.
  - destruct l as [|c l]; [done|]. simpl. by rewrite (Hl c l).
  - by rewrite Hc, IH.
Qed.

Lemma find_begin_split sv : ∃ s l, sv = s ++ l ∧ spaces s ∧
  (∀ c l', l = c :: l' → isspace c = false).
Proof.
  induction sv as [|c sv (s & l & -> & Hs & Hl)]; [exists [], []; by repeat constructor|].
  destruct (isspace c) eqn:E.
  - exists (c :: s), l. by repeat constructor.
  - exists [], (c :: s ++ l). repeat constructor. by intros ? ? [= <- _].
Qed.

(** Scanning back over the spaces [s] that follow [b ++ l]. *)
Lemma find_end_spec b l s : spaces s →
  (∀ c l', l = l' ++ [c] → isspace c = false) →
  find_end (b ++ l ++ s) (length b) (length (b ++ l ++ s)) = length (b ++ l).
Proof.
  intros Hs Hl.
  enough (∀ r, find_end (b ++ l ++ s ++ r) (length b) (length (b ++ l ++ s)) = length (b ++ l)) as H.
  { specialize (H []). by rewrite app_nil_r in H. }
  induction s as [|c s IH] using rev_ind; intros r.
  - rewrite app_nil_r. destruct l as [|c l _] using rev_ind.
    + rewrite app_nil_r. destruct (length b) as [|k] eqn:E; [done|]. cbn [find_end].
      by rewrite Nat.ltb_irrefl.
    + assert (b ++ (l ++ [c]) ++ [] ++ r = (b ++ l) ++ c :: r) as -> by (by rewrite <-!(assoc_L (++))).
      assert (length (b ++ l ++ [c]) = S (length (b ++ l))) as -> by len. cbn [find_end].
      by rewrite nth_middle, (Hl c l eq_refl), andb_false_r.
  - apply Forall_app in Hs as [Hs Hc]. rewrite Forall_singleton in Hc.
    assert (b ++ l ++ (s ++ [c]) ++ r = (b ++ l ++ s) ++ c :: r) as -> by (by rewrite <-!(assoc_L (++))).
    assert (length (b ++ l ++ s ++ [c]) = S (length (b ++ l ++ s))) as -> by len. cbn [find_end].
    rewrite nth_middle, Hc.
    replace (_ <? _)%nat with true by (symmetry; apply Nat.ltb_lt; len). simpl.
    rewrite <-!(assoc_L (++)). by apply IH.
Qed.

Lemma last_split sv : ∃ l s, sv = l ++ s ∧ spaces s ∧ (∀ c l', l = l' ++ [c] → isspace c = false).
Proof.
  induction sv as [|c sv (l & s & -> & Hs & Hl)] using rev_ind.
  { exists [], []. split_and!; [done|constructor|]. by intros ? [|? ?]. }
  destruct (isspace c) eqn:E.
  - exists l, (s ++ [c]). rewrite (assoc_L (++)). split_and!; [done| |done].
    apply Forall_app. by repeat constructor.
  - exists ((l ++ s) ++ [c]), []. rewrite app_nil_r. split_and!; [done|constructor|].
    intros c' l' [_ H]%app_inj_tail. congruence.
Qed.

(** A byte and its two digits. *)
Lemma hex_pair hi lo b : 0 ≤ hi < 16 → 0 ≤ lo < 16 →
  byte_of_Z (Z.lor (Z.shiftl hi 4) lo) = b ↔
  hi = Z.shiftr (byte_to_Z b) 4 ∧ lo = Z.land (byte_to_Z b) 15.
Proof.
  intros Hhi Hlo. rewrite (shift_in 4) by lia. change (2 ^ 4) with 16.
  change 15 with (Z.ones 4). rewrite Z.land_ones, Z.shiftr_div_pow2 by lia. change (2 ^ 4) with 16.
  pose proof (byte_to_Z_range b). split.
  - intros <-. rewrite byte_to_of_Z, Z.mod_small by lia. zlia.
  - intros [-> ->]. rewrite <-(byte_of_to_Z b) at 3. f_equal. zlia.
Qed.

(** The decoding loop reads the digits of the text pairwise. *)
Lemma decode_loop_spec sv n : ∀ i out, length sv = ((i + n) * 2)%nat →
  decode_loop sv i n = Some out ↔ map hex_val (drop (i * 2) sv) = nibbles out.
Proof.
  induction n as [|n IH]; intros i out Hlen; cbn [decode_loop].
  { rewrite drop_ge by lia. destruct out; simpl; split; congruence. }
  destruct (lookup_lt_is_Some_2 sv (i * 2) ltac:(lia)) as [c1 H1].
  destruct (lookup_lt_is_Some_2 sv (i * 2 + 1) ltac:(lia)) as [c2 H2].
  rewrite (drop_S _ _ _ H1). replace (S (i * 2)) with (i * 2 + 1)%nat by lia.
  rewrite (drop_S _ _ _ H2). replace (S (i * 2 + 1)) with (S i * 2)%nat by lia.
  rewrite !nth_lookup, H1, H2. cbn [from_option map id]. change hex_nibble with hex_val.
  pose proof (hex_val_lt c1) as L1. pose proof (hex_val_lt c2) as L2.
  assert (∀ b l, hex_val c1 :: hex_val c2 :: map hex_val (drop (S i * 2) sv) = nibbles (b :: l) ↔
    hex_val c1 = Z.shiftr (byte_to_Z b) 4 ∧ hex_val c2 = Z.land (byte_to_Z b) 15 ∧
    map hex_val (drop (S i * 2) sv) = nibbles l) as Hc.
  { intros b l. change (nibbles (b :: l)) with
      (Z.shiftr (byte_to_Z b) 4 :: Z.land (byte_to_Z b) 15 :: nibbles l). naive_solver congruence. }
  destruct (_ || _) eqn:E.
  - split; [done|]. destruct out as [|b out]; [done|]. intros (E1 & E2 & _)%Hc.
    assert (0 ≤ hex_val c1 ∧ 0 ≤ hex_val c2) by (rewrite E1, E2; by destruct b).
    apply orb_true_iff in E as [?%Z.ltb_lt|?%Z.ltb_lt]; lia.
  - apply orb_false_iff in E as [P1%Z.ltb_ge P2%Z.ltb_ge].
    destruct (decode_loop sv (S i) n) as [out'|] eqn:E'; simpl.
    + pose proof (proj1 (IH (S i) out' ltac:(lia)) E') as Hr. split.
      * intros [= <-]. apply Hc.
        by destruct (proj1 (hex_pair _ _ _ (conj P1 L1) (conj P2 L2)) eq_refl).
      * destruct out as [|b out]; [done|]. intros (E1 & E2 & E3)%Hc. f_equal. f_equal.
        -- apply hex_pair; [lia|lia|done].
        -- apply (IH (S i)) in E3; [congruence|lia].
    + split; [done|]. destruct out as [|b out]; [done|]. intros (_ & _ & E3)%Hc.
      apply (IH (S i)) in E3; [congruence|lia].
Qed.

(** Every text is spaces, a core that neither begins nor ends with one, and
    spaces; the decoder sees the core. *)
Lemma trim_split sv : ∃ s1 l s2, sv = s1 ++ l ++ s2 ∧ spaces s1 ∧ spaces s2 ∧
  take (find_end sv (find_begin sv) (length sv) - find_begin sv) (drop (find_begin sv) sv) = l.
Proof.
  destruct (find_begin_split sv) as (s1 & r & -> & H1 & Hf).
  destruct (last_split r) as (l & s2 & -> & H2 & Hl).
  exists s1, l, s2. split_and!; [done..|].
  rewrite find_begin_spec, find_end_spec by done.
  rewrite drop_app_length, length_app. apply take_app_length'. lia.
Qed.

Lemma trim_digits s1 l s2 : spaces s1 → spaces s2 → l ≠ [] → Forall (λ c, 0 ≤ hex_val c) l →
  let sv := s1 ++ l ++ s2 in
  take (find_end sv (find_begin sv) (length sv) - find_begin sv) (drop (find_begin sv) sv) = l.
Proof.
  intros H1 H2 Hne Hd sv. subst sv.
  assert (∀ c, c ∈ l → isspace c = false) as Hs.
  { intros c Hc. apply digit_not_space. rewrite list.Forall_forall in Hd. by apply Hd. }
  rewrite find_begin_spec; [|done|].
  - rewrite find_end_spec; [|done|intros c l' E; apply Hs; subst l;
      apply elem_of_app; right; by apply list_elem_of_singleton].
    rewrite drop_app_length, length_app. apply take_app_length'. lia.
  - intros c l' Hl. destruct l as [|c' l]; [done|]. injection Hl as <- _. apply Hs. by left.
Qed.

(** The text is accepted when it is the digits of the array between spaces. *)
Lemma decode_hex_spec sv n a : decode_hex sv n = Some a ↔
  ∃ s1 digits s2, sv = s1 ++ digits ++ s2 ∧ spaces s1 ∧ spaces s2 ∧
    map hex_val digits = nibbles (elems a).
Proof.
  unfold decode_hex. pose proof (length_elems a) as Ha. split.
  - destruct (trim_split sv) as (s1 & l & s2 & Hsv & H1 & H2 & ->).
    destruct (Nat.eqb_spec (length l) (n * 2)) as [Hl|]; simpl; [|done].
    destruct (decode_loop l 0 n) as [out|] eqn:E; simpl; [|done]. intros [= <-].
    apply decode_loop_spec in E; [|done]. rewrite drop_0 in E.
    exists s1, l, s2. split_and!; [done..|]. rewrite elems_array_of_exact; [done|].
    apply (f_equal length) in E. rewrite length_map, length_nibbles in E. lia.
  - intros (s1 & l & s2 & -> & H1 & H2 & Hm).
    assert (length l = n * 2)%nat as Hl.
    { apply (f_equal length) in Hm. rewrite length_map, length_nibbles in Hm. lia. }
    assert (take (find_end (s1 ++ l ++ s2) (find_begin (s1 ++ l ++ s2)) (length (s1 ++ l ++ s2)) -
      find_begin (s1 ++ l ++ s2)) (drop (find_begin (s1 ++ l ++ s2)) (s1 ++ l ++ s2)) = l) as ->.
    { destruct (decide (l = [])) as [->|Hne].
      - rewrite app_nil_l. assert (spaces (s1 ++ s2)) as Hs by by apply Forall_app.
        pose proof (find_begin_spec (s1 ++ s2) [] Hs ltac:(done)) as Hb. rewrite app_nil_r in Hb.
        rewrite Hb, drop_all. apply take_nil.
      - apply trim_digits; [done..|]. apply Forall_lookup. intros i c Hc.
        assert (map hex_val l !! i = Some (hex_val c)) as Hi by (rewrite list_lookup_fmap, Hc; done).
        rewrite Hm in Hi. apply nibbles_range in Hi. lia. }
    rewrite Hl, Nat.eqb_refl. simpl.
    rewrite (proj2 (decode_loop_spec l n 0 (elems a) ltac:(lia))) by (by rewrite drop_0). simpl.
    by rewrite array_of_elems.
Qed.

Lemma to_hex_nibbles l : to_hex l = map hex_char (nibbles l).
Proof.
  unfold to_hex.
  enough (∀ out, fold_left (λ s b,
    (s ++ [hex_char (Z.shiftr (byte_to_Z b) 4)]) ++ [hex_char (Z.land (byte_to_Z b) 15)]) l out =
    out ++ map hex_char (nibbles l)) as H by exact (H []).
  induction l as [|b l IH]; intros out; simpl; [by rewrite app_nil_r|].
  rewrite IH. by rewrite <-!(assoc_L (++)).
Qed.

Lemma length_to_hex l : length (to_hex l) = (2 * length l)%nat.
Proof. by rewrite to_hex_nibbles, length_map, length_nibbles. Qed.

Lemma decode_to_hex {n} (a : array n) : decode_hex (to_hex (elems a)) n = Some a.
Proof.
  apply decode_hex_spec. exists [], (to_hex (elems a)), [].
  rewrite app_nil_r. split_and!; [done|constructor|constructor|].
  rewrite to_hex_nibbles, map_map. apply list_eq. intros i. rewrite list_lookup_fmap.
  destruct (nibbles (elems a) !! i) as [v|] eqn:E; simpl; [|done].
  f_equal. by eapply hex_val_char, nibbles_range.
Qed.

(** A text cut short is not accepted. *)
Lemma decode_hex_short sv n : (length sv < n * 2)%nat → decode_hex sv n = None.
Proof.
  intros Hlen. destruct (decode_hex sv n) as [a|] eqn:E; [|done].
  apply decode_hex_spec in E as (s1 & l & s2 & -> & _ & _ & Hm).
  apply (f_equal length) in Hm. rewrite length_map, length_nibbles, length_elems in Hm. len.
Qed.

(** Key texts are exact: [decode_hex] accepts a text for [n] bytes
    precisely when it is the hexadecimal digits (either case) of those bytes
    between any amount of white space, and what [to_hex] writes is read back as
    the same bytes. *)
Theorem hex_text_exact :
  (∀ sv n a, decode_hex sv n = Some a ↔
    ∃ s1 digits s2, sv = s1 ++ digits ++ s2 ∧ spaces s1 ∧ spaces s2 ∧
      map hex_val digits = nibbles (elems a)) ∧
  (∀ n (a : array n), decode_hex (to_hex (elems a)) n = Some a).
Proof. split; [apply decode_hex_spec|intros n a; apply decode_to_hex]. Qed.

End hex.

(** ** Files *)

Module disk.

(** Contents and mode of the files; what the process may do with a path; the
    bytes that fit on the device; the mode a new file gets. *)
Record t := mk {
  files : gmap (list byte) (list byte * Z);
  readable : list byte → bool;
  writable : list byte → bool;
  owned : list byte → bool;
  room : nat;
  new_mode : Z;
}.

Definition set_files (f : gmap (list byte) (list byte * Z)) (d : t) : t :=
  mk f (readable d) (writable d) (owned d) (room d) (new_mode d).

(** [std::ifstream] and reading to the end. *)
Definition read (path : list byte) (d : t) : option (list byte) :=
  if readable d path then fst <$> files d !! path else None.

(** [std::ofstream] with [trunc]; [None] if it cannot be opened. *)
Definition open_trunc (path : list byte) (d : t) : option t :=
  if writable d path
  then Some (set_files (<[path := ([], from_option snd (new_mode d) (files d !! path))]> (files d)) d)
  else None.

(** [write]: what does not fit is not stored, which only the stream's state
    tells. *)
Definition write (path data : list byte) (d : t) : t :=
  set_files (alter (λ '(old, mode), (old ++ take (room d) data, mode)) path (files d)) d.

Definition chmod (path : list byte) (mode : Z) (d : t) : t :=
  if owned d path then set_files (alter (λ '(c, _), (c, mode)) path (files d)) d else d.

End disk.

(** ** Configuring a node *)

Module mesh_start.

Record t := mk {
  cfg_ : mesh_config;
  self_ : local_identity;
  localLabels_ : gmap peer_id (list byte);
  reported : list error;
}.

Definition identity_zero : crypto.identity_keypair :=
  crypto.mk_identity (zero_array 32) (zero_array 64).

(** The constructor. *)
Definition make (cfg : mesh_config) : t :=
  mk cfg (mk_local_identity (nodeId cfg) (groupName cfg) (protocolVersion cfg) (listenPort cfg)
            false (zero_array 32) (zero_array 32) false identity_zero [] []) ∅ [].

Definition on_error (cat : error_category) (what : list byte) (n : t) : t :=
  mk (cfg_ n) (self_ n) (localLabels_ n) (reported n ++ [mk_error cat 0 what None]).

Definition set_cfg (c : mesh_config) (n : t) : t := mk c (self_ n) (localLabels_ n) (reported n).
Definition set_self (s : local_identity) (n : t) : t := mk (cfg_ n) s (localLabels_ n) (reported n).

(** [cfg_.nodeId] overwritten by the identifier of the key. *)
Definition with_nodeId (id : peer_id) (c : mesh_config) : mesh_config :=
  mk_mesh_config id (groupName c) (protocolVersion c) (psk c) (identityFile c) (identitySeedHex c)
    (nodeName c) (trustedKeys c) (requireIdentity c) (multicastAddr c) (multicastPort c)
    (multicastIface c) (announceInterval c) (peerLostTimeout c) (multicastTtl c) (listenPort c)
    (bindAddr c) (heartbeatInterval c) (heartbeatTimeout c) (handshakeTimeout c) (reconnectBase c)
    (reconnectMax c) (initialTtl c) (dedupTtl c) (maxDedupEntries c) (fanout c)
    (membershipInterval c) (membershipTimeout c) (maxOutboundQueueBytes c) (overflowPolicy c)
    (maxMessageBytes c) (seedPeers c) (staticPeers c).

Definition with_keys (gk dk : key32) (s : local_identity) : local_identity :=
  mk_local_identity (l_nodeId s) (l_groupName s) (l_protocolVersion s) (l_listenPort s)
    true gk dk (l_hasIdentity s) (l_idKeys s) (l_nodeName s) (l_trustedKeys s).
Definition with_identity (k : crypto.identity_keypair) (name : list byte) (id : peer_id)
    (s : local_identity) : local_identity :=
  mk_local_identity id (l_groupName s) (l_protocolVersion s) (l_listenPort s)
    (l_secure s) (l_groupKey s) (l_discoveryKey s) true k name (l_trustedKeys s).
Definition with_trusted (pk : id_pubkey) (s : local_identity) : local_identity :=
  mk_local_identity (l_nodeId s) (l_groupName s) (l_protocolVersion s) (l_listenPort s)
    (l_secure s) (l_groupKey s) (l_discoveryKey s) (l_hasIdentity s) (l_idKeys s) (l_nodeName s)
    (l_trustedKeys s ++ [pk]).

(** [S_IRUSR | S_IWUSR]. *)
Definition kOwnerOnly : Z := Z.lor 256 128.

Section start.

Context `{!Sodium} (have_crypto : bool) (sodium_init : Z).

(** [load_or_create_seed]; [drawn] is the seed the generator would draw. *)
Definition load_or_create_seed (drawn : seed32) (d : disk.t) (n : t)
    : option seed32 * (disk.t * t) :=
  let c := cfg_ n in
  let path := until_nul (identityFile c) in
  if negb (bool_decide (identitySeedHex c = [])) then
    match hex.decode_hex (identitySeedHex c) 32 with
    | None => (None, (d, on_error ErrIdentity (bytes_of_string "invalid identitySeedHex") n))
    | Some seed => (Some seed, (d, n))
    end
  else
    match disk.read path d with
    | Some content =>
        match hex.decode_hex content 32 with
        | None => (None, (d, on_error ErrIdentity
                    (bytes_of_string "malformed identity file: " ++ identityFile c) n))
        | Some seed => (Some seed, (d, n))
        end
    | None =>
        let seed := crypto.seed_of (crypto.gen_identity drawn) in
        match disk.open_trunc path d with
        | None => (None, (d, on_error ErrIdentity
                    (bytes_of_string "cannot write identity file: " ++ identityFile c) n))
        | Some d =>
            let d := disk.write path (hex.to_hex (elems seed)) d in
            (Some seed, (disk.chmod path kOwnerOnly d, n))
        end
    end.

(** The allowlist loop; [false] where the code returns. *)
Fixpoint trust_all (l : list trusted_node) (n : t) : bool * t :=
  match l with
  | [] => (true, n)
  | e :: l =>
      match hex.decode_hex (publicKeyHex e) 32 with
      | None => (false, on_error ErrIdentity
                  (bytes_of_string "invalid trustedKeys public key: " ++ publicKeyHex e) n)
      | Some pk =>
          let n := set_self (with_trusted pk (self_ n)) n in
          let n := if bool_decide (label e = []) then n
                   else mk (cfg_ n) (self_ n)
                          (<[mk_peer_id (crypto.id_from_identity pk) := label e]> (localLabels_ n))
                          (reported n) in
          trust_all l n
      end
  end.

Definition configure_psk (n : t) : bool * t :=
  if bool_decide (psk (cfg_ n) = []) then (true, n)
  else if negb (crypto.init have_crypto sodium_init)
  then (false, on_error ErrCrypto
          (bytes_of_string "PSK configured but library built without libsodium support") n)
  else
    let gk := crypto.derive_group_key (psk (cfg_ n)) in
    (true, set_self (with_keys gk (crypto.derive_discovery_key gk) (self_ n)) n).

Definition identityConfigured (c : mesh_config) : bool :=
  negb (bool_decide (identityFile c = [])) || negb (bool_decide (identitySeedHex c = [])).

Definition configure_identity (drawn : seed32) (d : disk.t) (n : t) : bool * (disk.t * t) :=
  if negb (identityConfigured (cfg_ n)) then (true, (d, n))
  else if bool_decide (psk (cfg_ n) = [])
  then (false, (d, on_error ErrIdentity
          (bytes_of_string "node identity requires a PSK (a secured mesh)") n))
  else
    match load_or_create_seed drawn d n with
    | (None, dn) => (false, dn)
    | (Some seed, (d, n)) =>
        let keys := crypto.identity_from_seed seed in
        let id := mk_peer_id (crypto.id_from_identity (crypto.id_pk keys)) in
        let n := set_cfg (with_nodeId id (cfg_ n)) n in
        let n := set_self (with_identity keys (nodeName (cfg_ n)) id (self_ n)) n in
        let '(ok, n) := trust_all (trustedKeys (cfg_ n)) n in
        (ok, (d, n))
    end.

(** [start] up to the test of [started_]: [false] where the code returns. *)
Definition configure (drawn : seed32) (d : disk.t) (n : t) : bool * (disk.t * t) :=
  let '(ok, n) := configure_psk n in
  if negb ok then (false, (d, n)) else configure_identity drawn d n.

(** ** What starting does *)

(** The allowlist as the loop leaves it, for the keys [pks] of its entries. *)
Definition trusted (l : list trusted_node) (pks : list id_pubkey) (n : t) : t :=
  fold_left (λ n '(e, pk),
    mk (cfg_ n) (with_trusted pk (self_ n))
      (if bool_decide (label e = []) then localLabels_ n
       else <[mk_peer_id (crypto.id_from_identity pk) := label e]> (localLabels_ n))
      (reported n)) (zip l pks) n.

Definition decoded (l : list trusted_node) : option (list id_pubkey) :=
  mapM (λ e, hex.decode_hex (publicKeyHex e) 32) l.

Lemma trust_all_spec l : ∀ n,
  match decoded l with
  | Some pks => trust_all l n = (true, trusted l pks n)
  | None => ∃ n' e, trust_all l n = (false, n') ∧ reported n' = reported n ++ [e] ∧
      category e = ErrIdentity
  end.
Proof.
  unfold decoded, trusted. induction l as [|e l IH]; intros n; [done|]. cbn [mapM trust_all].
  destruct (hex.decode_hex (publicKeyHex e) 32) as [pk|]; cbn [mbind option_bind].
  2: { eexists _, _. split; [done|]. done. }
  match goal with |- context[trust_all l ?m] => specialize (IH m) end.
  destruct (mapM _ l) as [pks|]; cbn [mbind option_bind mret option_ret] in *.
  - rewrite IH. cbn [zip fold_left zip_with]. by destruct (bool_decide (label e = [])).
  - destruct IH as (n' & e' & -> & Hr & He). exists n', e'. split; [done|]. split; [|done].
    rewrite Hr. by destruct (bool_decide (label e = [])).
Qed.

Lemma trusted_self l pks n : length pks = length l →
  cfg_ (trusted l pks n) = cfg_ n ∧ reported (trusted l pks n) = reported n ∧
  self_ (trusted l pks n) = fold_left (λ s pk, with_trusted pk s) pks (self_ n).
Proof.
  unfold trusted. revert pks n. induction l as [|e l IH]; intros [|pk pks] n Hl; try done.
  cbn [zip zip_with fold_left]. injection Hl as Hl. destruct (IH pks (mk (cfg_ n) (with_trusted pk (self_ n))
    (if bool_decide (label e = []) then localLabels_ n
     else <[mk_peer_id (crypto.id_from_identity pk) := label e]> (localLabels_ n)) (reported n)) Hl)
    as (-> & -> & ->). done.
Qed.

Lemma trust_fold pks : ∀ s,
  fold_left (λ s pk, with_trusted pk s) pks s =
  mk_local_identity (l_nodeId s) (l_groupName s) (l_protocolVersion s) (l_listenPort s)
    (l_secure s) (l_groupKey s) (l_discoveryKey s) (l_hasIdentity s) (l_idKeys s) (l_nodeName s)
    (l_trustedKeys s ++ pks).
Proof.
  induction pks as [|pk pks IH]; intros s; simpl; [rewrite app_nil_r; by destruct s|].
  rewrite IH. simpl. by rewrite <-(assoc_L (++)).
Qed.

(** What [configure] asks of the configuration and the system. *)
Definition startable (drawn : seed32) (d : disk.t) (cfg : mesh_config) : Prop :=
  (psk cfg ≠ [] → crypto.init have_crypto sodium_init = true) ∧
  (identityConfigured cfg = true → psk cfg ≠ [] ∧
     (∃ seed, (load_or_create_seed drawn d (make cfg)).1 = Some seed) ∧
     is_Some (decoded (trustedKeys cfg))).

(** The seed does not depend on what the node knows of itself, and failing to
    find one is reported once. *)
Lemma load_frame drawn d n n' : cfg_ n = cfg_ n' →
  (load_or_create_seed drawn d n).1 = (load_or_create_seed drawn d n').1 ∧
  (load_or_create_seed drawn d n).2.1 = (load_or_create_seed drawn d n').2.1.
Proof.
  intros Hc. unfold load_or_create_seed. rewrite Hc.
  destruct (bool_decide _); simpl; [|by destruct (hex.decode_hex _ _)].
  destruct (disk.read _ _); [by destruct (hex.decode_hex _ _)|].
  by destruct (disk.open_trunc _ _).
Qed.

Lemma load_node drawn d n : let '(r, (_, n')) := load_or_create_seed drawn d n in
  match r with
  | Some _ => n' = n
  | None => ∃ e, n' = mk (cfg_ n) (self_ n) (localLabels_ n) (reported n ++ [e]) ∧
      category e = ErrIdentity
  end.
Proof.
  unfold load_or_create_seed. destruct (bool_decide _); simpl.
  2: { destruct (hex.decode_hex _ _); [done|]. by eexists. }
  destruct (disk.read _ _).
  - destruct (hex.decode_hex _ _); [done|]. by eexists.
  - destruct (disk.open_trunc _ _); [done|]. by eexists.
Qed.

(** The node that results, without an identity and with one. *)
Definition keyed (cfg : mesh_config) : t :=
  (if bool_decide (psk cfg = []) then make cfg
   else let gk := crypto.derive_group_key (psk cfg) in
     set_self (with_keys gk (crypto.derive_discovery_key gk) (self_ (make cfg))) (make cfg)).

Definition identified (seed : seed32) (pks : list id_pubkey) (cfg : mesh_config) : t :=
  let keys := crypto.identity_from_seed seed in
  let id := mk_peer_id (crypto.id_from_identity (crypto.id_pk keys)) in
  let n := set_cfg (with_nodeId id cfg) (keyed cfg) in
  trusted (trustedKeys cfg) pks (set_self (with_identity keys (nodeName cfg) id (self_ n)) n).

Lemma keyed_cfg cfg : cfg_ (keyed cfg) = cfg ∧ reported (keyed cfg) = [].
Proof. unfold keyed. by destruct (bool_decide _). Qed.

(** The identity stage of a secured node. *)
Lemma identity_cases drawn d cfg : psk cfg ≠ [] → identityConfigured cfg = true →
  let '(ok, (d', n)) := configure_identity drawn d (keyed cfg) in
  if ok then ∃ seed pks,
    (load_or_create_seed drawn d (make cfg)).1 = Some seed ∧
    d' = (load_or_create_seed drawn d (make cfg)).2.1 ∧
    decoded (trustedKeys cfg) = Some pks ∧ n = identified seed pks cfg
  else (∃ e, reported n = [e] ∧ category e = ErrIdentity) ∧
    ((load_or_create_seed drawn d (make cfg)).1 = None ∨ decoded (trustedKeys cfg) = None).
Proof.
  intros Hp Hid. unfold configure_identity. destruct (keyed_cfg cfg) as [Hkc Hkr].
  rewrite Hkc, Hid, bool_decide_false by done. cbn [negb].
  pose proof (load_frame drawn d (keyed cfg) (make cfg) Hkc) as [Hf1 Hf2].
  pose proof (load_node drawn d (keyed cfg)) as Hn.
  destruct (load_or_create_seed drawn d (keyed cfg)) as [r [d' n]]. simpl in Hf1, Hf2.
  destruct r as [seed|].
  2: { destruct Hn as (e & -> & He). split; [|by left]. exists e. simpl. by rewrite Hkr. }
  subst n. cbn [set_cfg set_self cfg_ self_]. rewrite Hkc. cbn [with_nodeId trustedKeys nodeName].
  match goal with |- context[trust_all _ ?m] => pose proof (trust_all_spec (trustedKeys cfg) m) as Ht end.
  destruct (decoded (trustedKeys cfg)) as [pks|].
  - rewrite Ht. exists seed, pks. by split_and!.
  - destruct Ht as (n' & e & -> & Hr & He). split; [|by right]. exists e. split; [|done].
    rewrite Hr. cbn. by rewrite Hkr.
Qed.

(** [configure] succeeds with one of these, or reports one error. *)
Lemma configure_cases drawn d cfg :
  let '(ok, (d', n)) := configure drawn d (make cfg) in
  if ok then
    startable drawn d cfg ∧
    if identityConfigured cfg then ∃ seed pks,
      (load_or_create_seed drawn d (make cfg)).1 = Some seed ∧
      d' = (load_or_create_seed drawn d (make cfg)).2.1 ∧
      decoded (trustedKeys cfg) = Some pks ∧ n = identified seed pks cfg
    else d' = d ∧ n = keyed cfg
  else ¬ startable drawn d cfg ∧ ∃ e, reported n = [e] ∧ category e ∈ [ErrCrypto; ErrIdentity].
Proof.
  unfold configure, configure_psk, startable. simpl.
  destruct (bool_decide (psk cfg = [])) eqn:Hp.
  - apply bool_decide_eq_true in Hp. simpl. unfold configure_identity. simpl.
    destruct (identityConfigured cfg) eqn:Hid; simpl.
    + rewrite Hp. simpl. split; [naive_solver|]. eexists. split; [done|]. by right; left.
    + unfold keyed. rewrite Hp. naive_solver.
  - apply bool_decide_eq_false in Hp. destruct (crypto.init have_crypto sodium_init) eqn:Hi; simpl.
    2: { split; [naive_solver|]. eexists. split; [done|]. by left. }
    match goal with |- context[configure_identity drawn d ?m] => assert (m = keyed cfg) as -> end.
    { unfold keyed. by rewrite bool_decide_false. }
    destruct (identityConfigured cfg) eqn:Hid.
    + pose proof (identity_cases drawn d cfg Hp Hid) as Hc.
      destruct (configure_identity drawn d (keyed cfg)) as [[] [d' n]].
      * destruct Hc as (seed & pks & Hl & Hd & Hpk & Hn). split; [naive_solver|].
        exists seed, pks. by split_and!.
      * destruct Hc as [(e & He & Hcat) Hno]. split.
        -- intros [_ HS]. destruct HS as (_ & [seed Hs] & [pks Hk]); [done|].
           destruct Hno; congruence.
        -- exists e. rewrite Hcat. split; [done|]. by right; left.
    + unfold configure_identity. rewrite (proj1 (keyed_cfg cfg)), Hid. simpl. naive_solver.
Qed.

(** The identity of the node that results. *)
Lemma identified_self seed pks cfg : length pks = length (trustedKeys cfg) →
  let n := identified seed pks cfg in
  let keys := crypto.identity_from_seed seed in
  let id := mk_peer_id (crypto.id_from_identity (crypto.id_pk keys)) in
  reported n = [] ∧ nodeId (cfg_ n) = id ∧ l_nodeId (self_ n) = id ∧
  l_idKeys (self_ n) = keys ∧ l_nodeName (self_ n) = nodeName cfg ∧ l_hasIdentity (self_ n) = true ∧ l_trustedKeys (self_ n) = pks ∧
  l_secure (self_ n) = l_secure (self_ (keyed cfg)) ∧
  l_groupKey (self_ n) = l_groupKey (self_ (keyed cfg)) ∧
  l_discoveryKey (self_ n) = l_discoveryKey (self_ (keyed cfg)).
Proof.
  intros Hl n keys id. unfold n, identified.
  match goal with |- context[trusted _ _ ?m] => destruct (trusted_self (trustedKeys cfg) pks m Hl) as (-> & -> & ->) end.
  rewrite trust_fold. simpl. unfold keyed. by destruct (bool_decide _).
Qed.

Lemma decoded_length l pks : decoded l = Some pks → length pks = length l.
Proof. unfold decoded. intros Hm. symmetry. by eapply length_mapM. Qed.

(** Where the seed of the identity comes from: the configured hexadecimal
    digits; else the identity file, when it can be read; else the generator,
    and then the file is written for the next time, for its owner only. *)
Definition seed_source (drawn : seed32) (d d' : disk.t) (cfg : mesh_config) (seed : seed32) : Prop :=
  let path := until_nul (identityFile cfg) in
  (identitySeedHex cfg ≠ [] ∧ hex.decode_hex (identitySeedHex cfg) 32 = Some seed ∧ d' = d) ∨
  (identitySeedHex cfg = [] ∧ ∃ content, disk.read path d = Some content ∧
     hex.decode_hex content 32 = Some seed ∧ d' = d) ∨
  (identitySeedHex cfg = [] ∧ disk.read path d = None ∧ seed = crypto.seed_of (crypto.gen_identity drawn) ∧
     ∃ d1, disk.open_trunc path d = Some d1 ∧
       d' = disk.chmod path kOwnerOnly (disk.write path (hex.to_hex (elems seed)) d1)).

Lemma load_source drawn d cfg seed :
  (load_or_create_seed drawn d (make cfg)).1 = Some seed →
  seed_source drawn d (load_or_create_seed drawn d (make cfg)).2.1 cfg seed.
Proof.
  unfold load_or_create_seed, seed_source. cbn [make cfg_]. case_bool_decide as Hh; cbn [negb].
  - destruct (disk.read _ d) as [content|] eqn:Hr.
    + destruct (hex.decode_hex content 32) eqn:Hc; [|done]. intros [= <-]. naive_solver.
    + destruct (disk.open_trunc _ d) as [d1|] eqn:Ho; [|done]. intros [= <-].
      right; right. split_and!; [done..|]. by exists d1.
  - destruct (hex.decode_hex _ 32) eqn:Hc; [|done]. intros [= <-]. by left.
Qed.


(** ** Restarting *)

(** What is read back of a file that was just written. *)
Lemma read_written path data mode d d' :
  disk.open_trunc path d = Some d' → disk.readable d path = true →
  let d2 := disk.chmod path mode (disk.write path data d') in
  disk.read path d2 = Some (take (disk.room d) data) ∧ disk.readable d2 = disk.readable d ∧
  disk.writable d2 = disk.writable d ∧ disk.room d2 = disk.room d.
Proof.
  unfold disk.open_trunc. destruct (disk.writable d path); [|done].
  intros Ho Hr. injection Ho as <-. unfold disk.chmod, disk.write. simpl.
  destruct (disk.owned d path); unfold disk.read; simpl; rewrite Hr, !lookup_alter_eq, lookup_insert_eq;
    by split_and!.
Qed.

(** A seed that was loaded, or written in full, is loaded the next time. *)
Lemma load_again drawn drawn' d d1 n n1 seed :
  load_or_create_seed drawn d n = (Some seed, (d1, n1)) →
  disk.readable d (until_nul (identityFile (cfg_ n))) = true → (64 ≤ disk.room d)%nat →
  load_or_create_seed drawn' d1 n = (Some seed, (d1, n)).
Proof.
  intros Hl Hr Hroom. unfold load_or_create_seed in *.
  destruct (bool_decide (identitySeedHex (cfg_ n) = [])) eqn:Hs; cbn [negb] in *.
  2: { destruct (hex.decode_hex _ _) as [sd|] eqn:E; [|done]. by simplify_eq. }
  destruct (disk.read (until_nul (identityFile (cfg_ n))) d) as [content|] eqn:Er.
  - destruct (hex.decode_hex content 32) as [sd|] eqn:E; [|done]. simplify_eq.
    by rewrite Er, E.
  - destruct (disk.open_trunc _ d) as [d'|] eqn:Eo; [|done]. simplify_eq.
    destruct (read_written _ (hex.to_hex (elems (crypto.seed_of (crypto.gen_identity drawn))))
      kOwnerOnly d d' Eo Hr) as (Hrd & _).
    rewrite Hrd. rewrite take_ge by (rewrite hex.length_to_hex, length_elems; lia).
    by rewrite hex.decode_to_hex.
Qed.

Lemma identified_any_id seed pks cfg id :
  psk cfg ≠ [] → identified seed pks (with_nodeId id cfg) = identified seed pks cfg.
Proof. intros Hp. unfold identified, keyed. simpl. by rewrite bool_decide_false. Qed.

Lemma load_nodeId drawn d cfg id :
  (load_or_create_seed drawn d (make (with_nodeId id cfg))).1 = (load_or_create_seed drawn d (make cfg)).1 ∧
  (load_or_create_seed drawn d (make (with_nodeId id cfg))).2.1 = (load_or_create_seed drawn d (make cfg)).2.1.
Proof.
  unfold load_or_create_seed. simpl.
  destruct (bool_decide _); simpl; [|by destruct (hex.decode_hex _ _)].
  destruct (disk.read _ _); [by destruct (hex.decode_hex _ _)|].
  by destruct (disk.open_trunc _ _).
Qed.

(** [C20] The identity survives a restart: a node with a configured identity
    that was started once, on a disk with room for the seed, is on the next
    start configured with exactly the same keys, identifier and allowlist,
    whatever random identifier and seed the new process draws, and leaves the
    file as it is. *)
Theorem identity_survives_restart drawn drawn' id d d1 cfg n1 :
  identityConfigured cfg = true →
  disk.readable d (until_nul (identityFile cfg)) = true → (64 ≤ disk.room d)%nat →
  configure drawn d (make cfg) = (true, (d1, n1)) →
  configure drawn' d1 (make (with_nodeId id cfg)) = (true, (d1, n1)).
Proof.
  intros Hid Hr Hroom H1. pose proof (configure_cases drawn d cfg) as Hc.
  rewrite H1, Hid in Hc. destruct Hc as [Hst (seed & pks & Hl & -> & Hpk & ->)].
  destruct Hst as [Hi Hst]. destruct (Hst Hid) as (Hp & _ & _).
  pose proof (configure_cases drawn' (load_or_create_seed drawn d (make cfg)).2.1 (with_nodeId id cfg)) as Hc.
  assert ((load_or_create_seed drawn' (load_or_create_seed drawn d (make cfg)).2.1 (make cfg)) =
    (Some seed, ((load_or_create_seed drawn d (make cfg)).2.1, make cfg))) as Hl1.
  { destruct (load_or_create_seed drawn d (make cfg)) as [r [d1 m]] eqn:El. simpl in Hl. subst r.
    by eapply load_again. }
  destruct (load_nodeId drawn' (load_or_create_seed drawn d (make cfg)).2.1 cfg id) as [Hn1 Hn2].
  destruct (configure drawn' _ (make (with_nodeId id cfg))) as [[] [d2 n2]].
  - change (identityConfigured (with_nodeId id cfg)) with (identityConfigured cfg) in Hc.
    rewrite Hid in Hc. destruct Hc as [_ (seed' & pks' & Hs' & -> & Hpk' & ->)].
    rewrite Hn1, Hl1 in Hs'. simpl in Hs'. injection Hs' as <-.
    change (trustedKeys (with_nodeId id cfg)) with (trustedKeys cfg) in Hpk'.
    rewrite Hpk in Hpk'. injection Hpk' as <-.
    by rewrite Hn2, Hl1, identified_any_id.
  - destruct Hc as [Hno _]. destruct Hno. split; [done|]. intros _. split_and!; [done| |by eexists].
    exists seed. by rewrite Hn1, Hl1.
Qed.

(** The write of a new identity is not checked: on a full disk the node runs,
    with an identity that its next start rejects as malformed. *)
Lemma short_write_breaks_restart drawn drawn' d cfg :
  identitySeedHex cfg = [] → disk.read (until_nul (identityFile cfg)) d = None →
  disk.readable d (until_nul (identityFile cfg)) = true →
  disk.writable d (until_nul (identityFile cfg)) = true → (disk.room d < 64)%nat →
  let r := load_or_create_seed drawn d (make cfg) in
  is_Some r.1 ∧ (load_or_create_seed drawn' r.2.1 (make cfg)).1 = None.
Proof.
  intros Hs Hn Hr Hw Hroom r. unfold r, load_or_create_seed. cbn [cfg_ make].
  rewrite Hs, Hn. cbn [negb bool_decide]. destruct (disk.open_trunc _ d) as [d'|] eqn:Eo.
  2: { unfold disk.open_trunc in Eo. by rewrite Hw in Eo. }
  split; [by eexists|]. simpl.
  destruct (read_written _ (hex.to_hex (elems (crypto.seed_of (crypto.gen_identity drawn))))
    kOwnerOnly d d' Eo Hr) as (Hrd & _).
  rewrite Hrd.
  rewrite hex.decode_hex_short; [done|]. rewrite length_take. lia.
Qed.

(** Configuring is not idempotent: [start] does it before it looks at
    [started_], and every further call appends the allowlist once more. *)
Lemma trust_all_appends l n n' : trust_all l n = (true, n') →
  ∃ pks, decoded l = Some pks ∧ l_trustedKeys (self_ n') = l_trustedKeys (self_ n) ++ pks.
Proof.
  intros Ht. pose proof (trust_all_spec l n) as Hs. destruct (decoded l) as [pks|] eqn:E.
  - rewrite Hs in Ht. injection Ht as <-. exists pks. split; [done|].
    destruct (trusted_self l pks n (decoded_length _ _ E)) as (_ & _ & ->). by rewrite trust_fold.
  - destruct Hs as (n'' & e & Hf & _). congruence.
Qed.

End start.

(** ** Examples *)

#[local] Existing Instance crypto.toy_sodium.

Definition sample_disk (room : nat) : disk.t :=
  disk.mk ∅ (λ _, true) (λ _, true) (λ _, true) room 420.

Definition sample_trusted : trusted_node :=
  mk_trusted_node (hex.to_hex (elems (crypto.sample_key 9))) (bytes_of_string "nine").

Definition sample_config (n : Z) : mesh_config :=
  let c := default_config (sample_id n) in
  mk_mesh_config (nodeId c) (groupName c) (protocolVersion c) (bytes_of_string "secret")
    (bytes_of_string "node.key") (identitySeedHex c) (bytes_of_string "alpha") [sample_trusted]
    (requireIdentity c) (multicastAddr c) (multicastPort c)
    (multicastIface c) (announceInterval c) (peerLostTimeout c) (multicastTtl c) (listenPort c)
    (bindAddr c) (heartbeatInterval c) (heartbeatTimeout c) (handshakeTimeout c) (reconnectBase c)
    (reconnectMax c) (initialTtl c) (dedupTtl c) (maxDedupEntries c) (fanout c)
    (membershipInterval c) (membershipTimeout c) (maxOutboundQueueBytes c) (overflowPolicy c)
    (maxMessageBytes c) (seedPeers c) (staticPeers c).

Lemma identity_survives_restart_witness :
  let r := configure true 0 (crypto.sample_key 5) (sample_disk 4096) (make (sample_config 1)) in
  r.1 = true ∧
  configure true 0 (crypto.sample_key 6) r.2.1 (make (with_nodeId (sample_id 2) (sample_config 1))) =
  (true, (r.2.1, r.2.2)).
Proof.
  split; [vm_compute; reflexivity|].
  apply (identity_survives_restart true 0 (crypto.sample_key 5) (crypto.sample_key 6) (sample_id 2)
    (sample_disk 4096)).
  - vm_compute. reflexivity.
  - vm_compute. reflexivity.
  - apply Nat.leb_le. vm_compute. reflexivity.
  - vm_compute. reflexivity.
Defined.

(** A second [start()] of a running node. *)
Example second_start_appends :
  let r := configure true 0 (crypto.sample_key 5) (sample_disk 4096) (make (sample_config 1)) in
  l_trustedKeys (self_ (configure true 0 (crypto.sample_key 6) r.2.1 r.2.2).2.2) =
  [crypto.sample_key 9; crypto.sample_key 9].
Proof. vm_compute. reflexivity. Qed.

End mesh_start.
