(* ===== verification/PeerConnection.v ===== *)
(** * One TCP connection ([src/src/peer_connection.hpp], [src/src/peer_connection.cpp])

    The framed, non-blocking connection with its handshake state machine:
    reading and parsing, the plaintext and the secured handshake, dispatch of
    frames to the owner, the outbound queue with its overflow policies, and
    closing.  The owner ([connection_listener]) is a type class: its reaction
    to an event is a program over the operations a connection offers it.  The
    kernel's part (results of [send], [recv], [epoll_ctl], the clock, fresh key
    material) is a script in the world the operations run in.  The facts about
    these definitions are in ConnectionFacts.v. *)
From Stdlib Require Import ZArith Lia.
From Stdlib.Strings Require Import Byte.
From stdpp Require Import base gmap sets list strings numbers option.
From S2P Require Import Prelude PeerId Buffer Wire Config Crypto Identity.

Module peer_connection.

Inductive conn_state := ConnectingOut | Handshaking | AwaitingConfirm | Established | Dead.

#[global] Instance conn_state_eq_dec : EqDecision conn_state.
Proof. solve_decision. Defined.

Record t := mk {
  sock_ : Z;
  peerAddr_ : Z * Z;
  inbound_ : bool;
  state_ : conn_state;
  peerId_ : peer_id;
  peerListenPort_ : Z;
  localNonce_ : Z;
  peerNonce_ : Z;
  secure_ : bool;
  ephKeys_ : crypto.ephemeral_keypair;
  sess_ : option crypto.secure_session;
  myConfirmTag_ : tag32;
  expectedPeerTag_ : tag32;
  useIdentity_ : bool;
  myIdSig_ : id_sig;
  peerHello_ : hello;
  plain_ : buffer.t;
  in_ : buffer.t;
  out_ : buffer.t;
  wantWrite_ : bool;
  createdAt_ : Z;
  lastRecv_ : Z;
  lastSend_ : Z;
  registered_ : bool;
  dead_ : bool;
}.

Definition set_sock (x : Z) (c : t) : t :=
  mk x (peerAddr_ c) (inbound_ c) (state_ c) (peerId_ c) (peerListenPort_ c) (localNonce_ c)
    (peerNonce_ c) (secure_ c) (ephKeys_ c) (sess_ c) (myConfirmTag_ c) (expectedPeerTag_ c)
    (useIdentity_ c) (myIdSig_ c) (peerHello_ c) (plain_ c) (in_ c) (out_ c) (wantWrite_ c)
    (createdAt_ c) (lastRecv_ c) (lastSend_ c) (registered_ c) (dead_ c).
Definition set_state (x : conn_state) (c : t) : t :=
  mk (sock_ c) (peerAddr_ c) (inbound_ c) x (peerId_ c) (peerListenPort_ c) (localNonce_ c)
    (peerNonce_ c) (secure_ c) (ephKeys_ c) (sess_ c) (myConfirmTag_ c) (expectedPeerTag_ c)
    (useIdentity_ c) (myIdSig_ c) (peerHello_ c) (plain_ c) (in_ c) (out_ c) (wantWrite_ c)
    (createdAt_ c) (lastRecv_ c) (lastSend_ c) (registered_ c) (dead_ c).
Definition set_peer (x : peer_id) (y : Z) (z : Z) (c : t) : t :=
  mk (sock_ c) (peerAddr_ c) (inbound_ c) (state_ c) x y (localNonce_ c) z (secure_ c)
    (ephKeys_ c) (sess_ c) (myConfirmTag_ c) (expectedPeerTag_ c) (useIdentity_ c) (myIdSig_ c)
    (peerHello_ c) (plain_ c) (in_ c) (out_ c) (wantWrite_ c) (createdAt_ c) (lastRecv_ c)
    (lastSend_ c) (registered_ c) (dead_ c).
Definition set_eph (x : crypto.ephemeral_keypair) (c : t) : t :=
  mk (sock_ c) (peerAddr_ c) (inbound_ c) (state_ c) (peerId_ c) (peerListenPort_ c)
    (localNonce_ c) (peerNonce_ c) (secure_ c) x (sess_ c) (myConfirmTag_ c)
    (expectedPeerTag_ c) (useIdentity_ c) (myIdSig_ c) (peerHello_ c) (plain_ c) (in_ c)
    (out_ c) (wantWrite_ c) (createdAt_ c) (lastRecv_ c) (lastSend_ c) (registered_ c) (dead_ c).
Definition set_sess (x : option crypto.secure_session) (c : t) : t :=
  mk (sock_ c) (peerAddr_ c) (inbound_ c) (state_ c) (peerId_ c) (peerListenPort_ c)
    (localNonce_ c) (peerNonce_ c) (secure_ c) (ephKeys_ c) x (myConfirmTag_ c)
    (expectedPeerTag_ c) (useIdentity_ c) (myIdSig_ c) (peerHello_ c) (plain_ c) (in_ c)
    (out_ c) (wantWrite_ c) (createdAt_ c) (lastRecv_ c) (lastSend_ c) (registered_ c) (dead_ c).
Definition set_handshake (x : option crypto.secure_session) (y : tag32) (z : tag32) (u : hello) (c : t) : t :=
  mk (sock_ c) (peerAddr_ c) (inbound_ c) (state_ c) (peerId_ c) (peerListenPort_ c)
    (localNonce_ c) (peerNonce_ c) (secure_ c) (ephKeys_ c) x y z (useIdentity_ c) (myIdSig_ c)
    u (plain_ c) (in_ c) (out_ c) (wantWrite_ c) (createdAt_ c) (lastRecv_ c) (lastSend_ c)
    (registered_ c) (dead_ c).
Definition set_identity (x : bool) (y : id_sig) (c : t) : t :=
  mk (sock_ c) (peerAddr_ c) (inbound_ c) (state_ c) (peerId_ c) (peerListenPort_ c)
    (localNonce_ c) (peerNonce_ c) (secure_ c) (ephKeys_ c) (sess_ c) (myConfirmTag_ c)
    (expectedPeerTag_ c) x y (peerHello_ c) (plain_ c) (in_ c) (out_ c) (wantWrite_ c)
    (createdAt_ c) (lastRecv_ c) (lastSend_ c) (registered_ c) (dead_ c).
Definition set_plain (x : buffer.t) (c : t) : t :=
  mk (sock_ c) (peerAddr_ c) (inbound_ c) (state_ c) (peerId_ c) (peerListenPort_ c)
    (localNonce_ c) (peerNonce_ c) (secure_ c) (ephKeys_ c) (sess_ c) (myConfirmTag_ c)
    (expectedPeerTag_ c) (useIdentity_ c) (myIdSig_ c) (peerHello_ c) x (in_ c) (out_ c)
    (wantWrite_ c) (createdAt_ c) (lastRecv_ c) (lastSend_ c) (registered_ c) (dead_ c).
Definition set_in (x : buffer.t) (c : t) : t :=
  mk (sock_ c) (peerAddr_ c) (inbound_ c) (state_ c) (peerId_ c) (peerListenPort_ c)
    (localNonce_ c) (peerNonce_ c) (secure_ c) (ephKeys_ c) (sess_ c) (myConfirmTag_ c)
    (expectedPeerTag_ c) (useIdentity_ c) (myIdSig_ c) (peerHello_ c) (plain_ c) x (out_ c)
    (wantWrite_ c) (createdAt_ c) (lastRecv_ c) (lastSend_ c) (registered_ c) (dead_ c).
Definition set_out (x : buffer.t) (c : t) : t :=
  mk (sock_ c) (peerAddr_ c) (inbound_ c) (state_ c) (peerId_ c) (peerListenPort_ c)
    (localNonce_ c) (peerNonce_ c) (secure_ c) (ephKeys_ c) (sess_ c) (myConfirmTag_ c)
    (expectedPeerTag_ c) (useIdentity_ c) (myIdSig_ c) (peerHello_ c) (plain_ c) (in_ c) x
    (wantWrite_ c) (createdAt_ c) (lastRecv_ c) (lastSend_ c) (registered_ c) (dead_ c).
Definition set_wantWrite (x : bool) (c : t) : t :=
  mk (sock_ c) (peerAddr_ c) (inbound_ c) (state_ c) (peerId_ c) (peerListenPort_ c)
    (localNonce_ c) (peerNonce_ c) (secure_ c) (ephKeys_ c) (sess_ c) (myConfirmTag_ c)
    (expectedPeerTag_ c) (useIdentity_ c) (myIdSig_ c) (peerHello_ c) (plain_ c) (in_ c)
    (out_ c) x (createdAt_ c) (lastRecv_ c) (lastSend_ c) (registered_ c) (dead_ c).
Definition set_lastRecv (x : Z) (c : t) : t :=
  mk (sock_ c) (peerAddr_ c) (inbound_ c) (state_ c) (peerId_ c) (peerListenPort_ c)
    (localNonce_ c) (peerNonce_ c) (secure_ c) (ephKeys_ c) (sess_ c) (myConfirmTag_ c)
    (expectedPeerTag_ c) (useIdentity_ c) (myIdSig_ c) (peerHello_ c) (plain_ c) (in_ c)
    (out_ c) (wantWrite_ c) (createdAt_ c) x (lastSend_ c) (registered_ c) (dead_ c).
Definition set_lastSend (x : Z) (c : t) : t :=
  mk (sock_ c) (peerAddr_ c) (inbound_ c) (state_ c) (peerId_ c) (peerListenPort_ c)
    (localNonce_ c) (peerNonce_ c) (secure_ c) (ephKeys_ c) (sess_ c) (myConfirmTag_ c)
    (expectedPeerTag_ c) (useIdentity_ c) (myIdSig_ c) (peerHello_ c) (plain_ c) (in_ c)
    (out_ c) (wantWrite_ c) (createdAt_ c) (lastRecv_ c) x (registered_ c) (dead_ c).
Definition set_registered (x : bool) (c : t) : t :=
  mk (sock_ c) (peerAddr_ c) (inbound_ c) (state_ c) (peerId_ c) (peerListenPort_ c)
    (localNonce_ c) (peerNonce_ c) (secure_ c) (ephKeys_ c) (sess_ c) (myConfirmTag_ c)
    (expectedPeerTag_ c) (useIdentity_ c) (myIdSig_ c) (peerHello_ c) (plain_ c) (in_ c)
    (out_ c) (wantWrite_ c) (createdAt_ c) (lastRecv_ c) (lastSend_ c) x (dead_ c).
Definition set_dead (x : bool) (c : t) : t :=
  mk (sock_ c) (peerAddr_ c) (inbound_ c) (state_ c) (peerId_ c) (peerListenPort_ c)
    (localNonce_ c) (peerNonce_ c) (secure_ c) (ephKeys_ c) (sess_ c) (myConfirmTag_ c)
    (expectedPeerTag_ c) (useIdentity_ c) (myIdSig_ c) (peerHello_ c) (plain_ c) (in_ c)
    (out_ c) (wantWrite_ c) (createdAt_ c) (lastRecv_ c) (lastSend_ c) (registered_ c) x.

(** ** The kernel's side *)

Definition EAGAIN : Z := 11.
Definition EINTR : Z := 4.

(** The result of a system call on the socket: bytes transferred, or an
    [errno].  A script that has run out stands for [EAGAIN]. *)
Inductive send_result := SendOk (n : nat) | SendErr (e : Z).
Inductive recv_result := RecvData (s : list byte) | RecvErr (e : Z).

(** The scripts, the number of clock readings, the last [errno], and the bytes
    the kernel has accepted for transmission. *)
Record os := mk_os {
  sends : list send_result;
  mods : list bool;
  entropy : list key32;
  so_error : option Z;
  readings : nat;
  errno : Z;
  sent : list byte;
}.

(** ** The owner *)

(** What the owner does when told of an event: change its own state, and call
    [send_raw] or [close_gracefully] on the connection; each continuation sees
    the connection and the owner's state as the call left them. *)
Inductive reaction (L : Type) :=
  | Done (l : L)
  | SendRaw (l : L) (frame : list byte) (k : t → L → reaction L)
  | CloseGracefully (l : L) (k : t → L → reaction L).

Arguments Done {L} l.
Arguments SendRaw {L} l frame k.
Arguments CloseGracefully {L} l k.

(** [connection_listener].  When [on_peer_closed] runs, the connection is dead
    and every operation on it does nothing; [report_error] only reports. *)
Class ConnectionListener (L : Type) := {
  on_peer_handshake : t → hello → L → reaction L;
  on_peer_data : t → data_view → L → reaction L;
  on_peer_membership : t → membership_record → L → reaction L;
  on_peer_identity : t → identity_record → L → reaction L;
  on_peer_closed : t → L → L;
  report_error : error → L → L;
}.

(** The calls of the owner, with the connection at the time of the call. *)
Inductive event :=
  | EvHandshake (c : t) (h : hello)
  | EvData (c : t) (d : data_view)
  | EvMembership (c : t) (r : membership_record)
  | EvIdentity (c : t) (r : identity_record)
  | EvClosed (c : t)
  | EvError (e : error).

Section connection.

Context {Sod : Sodium} {L : Type} {Own : ConnectionListener L}.
Context (cfg_ : mesh_config) (self_ : local_identity) (clk : nat → Z).

(** The connection, the kernel, the owner; [calls] (latest first), [queued] and
    [arrived] only observe: the owner's events, all bytes ever put into [out_],
    and all bytes ever read from the socket. *)
Record world := mk_world {
  conn : t;
  kernel : os;
  owner : L;
  calls : list event;
  queued : list byte;
  arrived : list byte;
}.

Definition M (A : Type) : Type := world → A * world.

#[global] Instance M_ret : MRet M := λ A x w, (x, w).
#[global] Instance M_bind : MBind M := λ A B f m w, let '(x, w') := m w in f x w'.

Definition get : M t := λ w, (conn w, w).

Definition modify (f : t → t) : M unit := λ w,
  ((), mk_world (f (conn w)) (kernel w) (owner w) (calls w) (queued w) (arrived w)).

Definition set_kernel (k : os) : M unit := λ w,
  ((), mk_world (conn w) k (owner w) (calls w) (queued w) (arrived w)).

Definition get_kernel : M os := λ w, (kernel w, w).

Definition set_owner (l : L) : M unit := λ w,
  ((), mk_world (conn w) (kernel w) l (calls w) (queued w) (arrived w)).

Definition get_owner : M L := λ w, (owner w, w).

Definition notify (e : event) : M unit := λ w,
  ((), mk_world (conn w) (kernel w) (owner w) (e :: calls w) (queued w) (arrived w)).

(** [out_.append(...)]. *)
Definition append_out (s : list byte) : M unit := λ w,
  ((), mk_world (set_out (buffer.append (out_ (conn w)) s) (conn w)) (kernel w) (owner w)
         (calls w) (queued w ++ s) (arrived w)).

Definition when (b : bool) (m : M unit) : M unit := if b then m else mret ().

(** [event_loop::clock::now()]. *)
Definition now : M Z :=
  k ← get_kernel;
  _ ← set_kernel (mk_os (sends k) (mods k) (entropy k) (so_error k) (S (readings k)) (errno k)
                    (sent k));
  mret (clk (readings k)).

(** [loop_.mod(...)]. *)
Definition loop_mod : M bool :=
  k ← get_kernel;
  match mods k with
  | [] => mret true
  | b :: mods =>
      _ ← set_kernel (mk_os (sends k) mods (entropy k) (so_error k) (readings k) (errno k) (sent k));
      mret b
  end.

(** The secret key [crypto_box_keypair] draws. *)
Definition draw_key : M key32 :=
  k ← get_kernel;
  match entropy k with
  | [] => mret (zero_array 32)
  | s :: entropy =>
      _ ← set_kernel (mk_os (sends k) (mods k) entropy (so_error k) (readings k) (errno k) (sent k));
      mret s
  end.

Definition set_errno (e : Z) : M unit :=
  k ← get_kernel;
  set_kernel (mk_os (sends k) (mods k) (entropy k) (so_error k) (readings k) e (sent k)).

(** ** Closing *)

Definition mark_dead : M unit :=
  c ← get;
  if dead_ c then mret ()
  else
    _ ← modify (λ c, set_state Dead (set_dead true c));
    _ ← modify (λ c, if registered_ c && (0 <=? sock_ c) then set_registered false c else c);
    c ← get;
    _ ← notify (EvClosed c);
    l ← get_owner;
    set_owner (on_peer_closed c l).

Definition raise (e : error) : M unit :=
  _ ← notify (EvError e);
  l ← get_owner;
  set_owner (report_error e l).

Definition fail (cat : error_category) (err : Z) (what : list byte) : M unit :=
  c ← get;
  if dead_ c then mret ()
  else
    _ ← when (negb (bool_decide (cat = ErrSocket)) || negb (err =? 0))
          (raise (mk_error cat err what (if is_zero (peerId_ c) then None else Some (peerId_ c))));
    mark_dead.

(** ** Writing *)

Definition update_epoll : M unit :=
  c ← get;
  if dead_ c || negb (registered_ c) then mret ()
  else
    let needWrite := negb (buffer.empty (out_ c)) || bool_decide (state_ c = ConnectingOut) in
    if Bool.eqb needWrite (wantWrite_ c) then mret ()
    else
      ok ← loop_mod;
      when ok (modify (set_wantWrite needWrite)).

(** The loop of [flush_outbound] on the coming results of [send]; [false] when
    it has failed the connection. *)
Fixpoint flush_loop (script : list send_result) : M bool :=
  c ← get;
  if buffer.empty (out_ c) then mret true
  else
    match script with
    | [] => _ ← set_errno EAGAIN; mret true
    | r :: script =>
        k ← get_kernel;
        match r with
        | SendOk n =>
            let n := Nat.min n (buffer.size (out_ c)) in
            if (0 <? n)%nat then
              _ ← set_kernel (mk_os script (mods k) (entropy k) (so_error k) (readings k) (errno k)
                                (sent k ++ take n (buffer.data (out_ c))));
              _ ← modify (set_out (buffer.consume (out_ c) n));
              flush_loop script
            else
              _ ← set_kernel (mk_os script (mods k) (entropy k) (so_error k) (readings k) (errno k)
                                (sent k));
              _ ← fail ErrSocket (errno k) (bytes_of_string "send failed");
              mret false
        | SendErr e =>
            _ ← set_kernel (mk_os script (mods k) (entropy k) (so_error k) (readings k) e (sent k));
            if e =? EAGAIN then mret true
            else if e =? EINTR then flush_loop script
            else
              _ ← fail ErrSocket e (bytes_of_string "send failed");
              mret false
        end
    end.

Definition flush_outbound : M unit :=
  k ← get_kernel;
  ok ← flush_loop (sends k);
  when ok update_epoll.

Definition established_secure (c : t) : bool :=
  secure_ c && bool_decide (state_ c = Established).

(** [sess_->seal(frame)]; the session exists whenever this is called. *)
Definition seal_frame (frame : list byte) : M (list byte) :=
  c ← get;
  match sess_ c with
  | Some s =>
      let '(rec, s) := crypto.seal frame s in
      _ ← modify (set_sess (Some s));
      mret rec
  | None => mret frame
  end.

Definition enqueue (frame : list byte) : M unit :=
  c ← get;
  if dead_ c then mret ()
  else
    rec ← (if established_secure c then seal_frame frame else mret frame);
    c ← get;
    let over := maxOutboundQueueBytes cfg_ <? Z.of_nat (buffer.size (out_ c) + length rec) in
    let finish :=
      _ ← append_out rec;
      t ← now;
      _ ← modify (set_lastSend t);
      flush_outbound in
    if over then
      match overflowPolicy cfg_ with
      | Disconnect => fail ErrBackpressure 0 (bytes_of_string "outbound queue overflow")
      | DropNewest =>
          raise (mk_error ErrBackpressure 0 (bytes_of_string "dropped outbound (newest)")
                   (Some (peerId_ c)))
      | DropOldest =>
          _ ← when (negb (buffer.empty (out_ c)))
                (modify (set_out (buffer.consume (out_ c) (buffer.size (out_ c)))));
          finish
      end
    else finish.

Definition send_raw (frame : list byte) : M unit := enqueue frame.

Definition close_gracefully : M unit :=
  c ← get;
  if dead_ c then mret ()
  else
    _ ← enqueue encode_goodbye;
    mark_dead.

Definition maybe_heartbeat (tnow interval : Z) : M unit :=
  c ← get;
  if negb (bool_decide (state_ c = Established)) || dead_ c then mret ()
  else when (ms interval <=? tnow - lastSend_ c) (send_raw encode_heartbeat).

(** ** Calling the owner *)

Fixpoint react (r : reaction L) : M unit :=
  match r with
  | Done l => set_owner l
  | SendRaw l frame k =>
      _ ← set_owner l;
      _ ← send_raw frame;
      c ← get;
      l ← get_owner;
      react (k c l)
  | CloseGracefully l k =>
      _ ← set_owner l;
      _ ← close_gracefully;
      c ← get;
      l ← get_owner;
      react (k c l)
  end.

(** Call the owner and let it act. *)
Definition call (ev : t → event) (handler : t → L → reaction L) : M unit :=
  c ← get;
  _ ← notify (ev c);
  l ← get_owner;
  react (handler c l).

Definition alive : M bool := c ← get; mret (negb (dead_ c)).

(** ** Handshake *)

Definition send_hello : M unit :=
  c ← get;
  _ ← when (secure_ c) (sk ← draw_key; modify (set_eph (crypto.gen_ephemeral sk)));
  c ← get;
  let h := mk_hello (l_nodeId self_) (l_protocolVersion self_) (l_listenPort self_)
             (l_groupName self_) (localNonce_ c) (secure_ c)
             (if secure_ c then crypto.eph_pk (ephKeys_ c) else zero_array 32)
             (l_hasIdentity self_)
             (if l_hasIdentity self_ then crypto.id_pk (l_idKeys self_) else zero_array 32)
             (if l_hasIdentity self_ then l_nodeName self_ else []) in
  _ ← append_out (encode_hello (if inbound_ c then HelloAck else Hello) h);
  t ← now;
  _ ← modify (set_lastSend t);
  flush_outbound.

Definition send_auth_confirm : M unit :=
  c ← get;
  _ ← append_out (encode_auth_confirm (myConfirmTag_ c) (useIdentity_ c) (myIdSig_ c));
  t ← now;
  _ ← modify (set_lastSend t);
  flush_outbound.

Definition id_transcript (firstEph secondEph : array 32) (name : list byte) : list byte :=
  bytes_of_string "mm-id-v1" ++ elems firstEph ++ elems secondEph ++ name.

(** The buffer a frame was parsed from. *)
Inductive source := FromIn | FromPlain.

Definition consume_src (src : source) (consumed : Z) : M unit :=
  modify (λ c, match src with
               | FromIn => set_in (buffer.consume (in_ c) (Z.to_nat consumed)) c
               | FromPlain => set_plain (buffer.consume (plain_ c) (Z.to_nat consumed)) c
               end).

(** [fail(...); return false;] *)
Definition reject (cat : error_category) (what : list byte) : M bool :=
  _ ← fail cat 0 what; mret false.

Definition handle_hello (frame : parsed_frame) (consumed : Z) (src : source) : M bool :=
  c ← get;
  if negb (bool_decide (state_ c = Handshaking)) then _ ← consume_src src consumed; mret true
  else
    let h := pf_hello frame in
    if negb (h_protocolVersion h =? l_protocolVersion self_) ||
       negb (bool_decide (h_groupName h = l_groupName self_)) then
      reject ErrProtocol (bytes_of_string "protocol/group mismatch")
    else if negb (Bool.eqb (h_secure h) (secure_ c)) then
      reject ErrProtocol (bytes_of_string "security mode mismatch")
    else
      _ ← modify (set_peer (h_nodeId h) (h_tcpListenPort h) (h_nonce h));
      _ ← consume_src src consumed;
      if negb (secure_ c) then
        _ ← modify (set_state Established);
        _ ← call (λ c, EvHandshake c h) (λ c, on_peer_handshake c h);
        alive
      else if l_hasIdentity self_ && requireIdentity cfg_ && negb (h_hasIdentity h) then
        reject ErrIdentity (bytes_of_string "peer presented no identity")
      else
        match crypto.do_handshake (ephKeys_ c) (h_ephPubKey h) (l_groupKey self_)
                (l_groupName self_) with
        | None => reject ErrCrypto (bytes_of_string "key agreement failed")
        | Some hr =>
            _ ← modify (set_handshake (Some (crypto.session hr)) (crypto.myConfirmTag hr)
                          (crypto.expectedPeerTag hr) h);
            let useIdentity := l_hasIdentity self_ && h_hasIdentity h in
            _ ← modify (λ c, set_identity useIdentity
                  (if useIdentity
                   then crypto.sign (id_transcript (crypto.eph_pk (ephKeys_ c)) (h_ephPubKey h)
                          (l_nodeName self_)) (crypto.id_sk (l_idKeys self_))
                   else myIdSig_ c) c);
            _ ← modify (set_state AwaitingConfirm);
            _ ← send_auth_confirm;
            alive
        end.

(** [memcmp(derived, peerId_) == 0], the signature, and the allowlist; the
    first failing check's message. *)
Definition check_identity (frame : parsed_frame) (c : t) : option (list byte) :=
  if negb (useIdentity_ c) then None
  else if negb (pf_has_auth_sig frame) then Some (bytes_of_string "missing identity signature")
  else
    let derived := crypto.id_from_identity (h_idPubKey (peerHello_ c)) in
    match memcmp (elems derived) (elems (bytes (peerId_ c))) with
    | Eq =>
        let msg := id_transcript (h_ephPubKey (peerHello_ c)) (crypto.eph_pk (ephKeys_ c))
                     (h_nodeName (peerHello_ c)) in
        if negb (crypto.verify_sig msg (pf_auth_sig frame) (h_idPubKey (peerHello_ c))) then
          Some (bytes_of_string "identity signature invalid")
        else if negb (bool_decide (l_trustedKeys self_ = [])) &&
                negb (existsb (λ k, bool_decide (k = h_idPubKey (peerHello_ c)))
                        (l_trustedKeys self_)) then
          Some (bytes_of_string "peer identity not in allowlist")
        else None
    | _ => Some (bytes_of_string "node id does not match identity key")
    end.

Definition handle_auth_confirm (frame : parsed_frame) (consumed : Z) (src : source) : M bool :=
  c ← get;
  if negb (secure_ c) || negb (bool_decide (state_ c = AwaitingConfirm)) then
    reject ErrProtocol (bytes_of_string "unexpected auth confirm")
  else
    _ ← consume_src src consumed;
    if negb (crypto.verify_tag (elems (pf_auth_tag frame)) (elems (expectedPeerTag_ c))) then
      reject ErrCrypto (bytes_of_string "authentication failed")
    else
      match check_identity frame c with
      | Some what => reject ErrIdentity what
      | None =>
          _ ← modify (set_state Established);
          c ← get;
          _ ← call (λ c, EvHandshake c (peerHello_ c)) (λ c', on_peer_handshake c' (peerHello_ c));
          alive
      end.

(** ** Dispatch *)

Definition dispatch (frame : parsed_frame) (consumed : Z) (src : source) : M bool :=
  t ← now;
  _ ← modify (set_lastRecv t);
  c ← get;
  let up := bool_decide (state_ c = Established) in
  match pf_type frame with
  | Hello | HelloAck => handle_hello frame consumed src
  | AuthConfirm => handle_auth_confirm frame consumed src
  | Heartbeat => _ ← consume_src src consumed; mret true
  | Goodbye =>
      _ ← consume_src src consumed;
      reject ErrSocket (bytes_of_string "peer said goodbye")
  | Data =>
      if negb up then reject ErrProtocol (bytes_of_string "data before handshake")
      else
        _ ← call (λ c, EvData c (pf_data frame)) (λ c, on_peer_data c (pf_data frame));
        ok ← alive;
        if (ok : bool) then _ ← consume_src src consumed; mret true else mret false
  | Membership =>
      if negb up then reject ErrProtocol (bytes_of_string "membership before handshake")
      else
        _ ← consume_src src consumed;
        _ ← call (λ c, EvMembership c (pf_membership frame))
              (λ c, on_peer_membership c (pf_membership frame));
        alive
  | IdentityRecord =>
      if negb up then reject ErrProtocol (bytes_of_string "identity record before handshake")
      else
        _ ← consume_src src consumed;
        _ ← call (λ c, EvIdentity c (pf_identity frame))
              (λ c, on_peer_identity c (pf_identity frame));
        alive
  | OtherFrame _ => _ ← consume_src src consumed; mret true
  end.

(** ** Reading *)

Fixpoint parse_plaintext (fuel : nat) : M bool :=
  match fuel with
  | O => mret true
  | S fuel =>
      c ← get;
      match try_decode_frame (buffer.data (in_ c)) (maxMessageBytes cfg_) parsed_frame_zero 0 with
      | (NeedMore, _, _) => mret true
      | (Error, _, _) => reject ErrProtocol (bytes_of_string "malformed/oversized frame")
      | (Ok, frame, consumed) =>
          ok ← dispatch frame consumed FromIn;
          if negb ok then mret false
          else
            c ← get;
            if established_secure c then mret true else parse_plaintext fuel
      end
  end.

Fixpoint drain_records (fuel : nat) : M bool :=
  match fuel with
  | O => mret true
  | S fuel =>
      c ← get;
      let size := Z.of_nat (buffer.size (in_ c)) in
      if size <? 4 then mret true
      else
        let clen := peek_u32 (buffer.data (in_ c)) in
        if (clen <? 16) || (maxMessageBytes cfg_ + 64 <? clen) then
          reject ErrProtocol (bytes_of_string "malformed encrypted record")
        else if size <? 4 + clen then mret true
        else
          let ct := take (Z.to_nat clen) (drop 4 (buffer.data (in_ c))) in
          match sess_ c with
          | None => mret true
          | Some s =>
              match crypto.open ct s with
              | (None, s) =>
                  _ ← modify (set_sess (Some s));
                  reject ErrCrypto (bytes_of_string "record authentication failed")
              | (Some pt, s) =>
                  _ ← modify (λ c, set_plain (buffer.append (plain_ c) pt) (set_sess (Some s) c));
                  _ ← modify (λ c, set_in (buffer.consume (in_ c) (Z.to_nat (wrap 32 (4 + clen)))) c);
                  drain_records fuel
              end
          end
  end.

Fixpoint parse_secure (fuel : nat) : M unit :=
  match fuel with
  | O => mret ()
  | S fuel =>
      c ← get;
      match try_decode_frame (buffer.data (plain_ c)) (maxMessageBytes cfg_) parsed_frame_zero 0 with
      | (NeedMore, _, _) => mret ()
      | (Error, _, _) => fail ErrProtocol 0 (bytes_of_string "malformed decrypted frame")
      | (Ok, frame, consumed) =>
          ok ← dispatch frame consumed FromPlain;
          if negb ok then mret () else parse_secure fuel
      end
  end.

(** Every turn of a loop consumes at least one byte of its buffer. *)
Definition parse_inbound : M unit :=
  c ← get;
  ok ← (if established_secure c then mret true else parse_plaintext (S (buffer.size (in_ c))));
  if negb ok then mret ()
  else
    c ← get;
    if established_secure c then
      ok ← drain_records (S (buffer.size (in_ c)));
      if negb ok then mret ()
      else
        c ← get;
        parse_secure (S (buffer.size (plain_ c)))
    else mret ().

Definition kReadChunk : nat := Z.to_nat 65536.

(** The bytes [recv] has put into the reserved tail. *)
Definition append_in (s : list byte) : M unit := λ w,
  ((), mk_world (set_in (buffer.read_into (in_ (conn w)) kReadChunk s) (conn w)) (kernel w) (owner w)
         (calls w) (queued w) (arrived w ++ s)).

(** The loop of [do_read] on the coming results of [recv] (a [recv] returns at
    most the size of the reserved tail, and 0 at the end of the stream). *)
Fixpoint do_read (script : list recv_result) : M unit :=
  match script with
  | [] => parse_inbound
  | RecvData s :: script =>
      let s := take kReadChunk s in
      if (0 <? length s)%nat then
        _ ← append_in s;
        do_read script
      else fail ErrSocket 0 (bytes_of_string "peer closed connection")
  | RecvErr e :: script =>
      _ ← set_errno e;
      if e =? EAGAIN then parse_inbound
      else if e =? EINTR then do_read script
      else fail ErrSocket e (bytes_of_string "recv failed")
  end.

(** ** Connecting *)

Definition blank (sock : Z) (addr : Z * Z) (inbound : bool) (st : conn_state) (nonce created : Z) : t :=
  mk sock addr inbound st peer_id_zero 0 nonce 0 (l_secure self_) crypto.ephemeral_zero None
    (zero_array 32) (zero_array 32) false (zero_array 64) hello_zero buffer.empty_buffer
    buffer.empty_buffer buffer.empty_buffer false created created created false false.

Definition on_connect_complete : M unit :=
  k ← get_kernel;
  match so_error k with
  | None => fail ErrSocket 0 (bytes_of_string "async connect failed")
  | Some err =>
      if negb (err =? 0) then fail ErrSocket err (bytes_of_string "async connect failed")
      else
        _ ← modify (set_state Handshaking);
        c ← get;
        _ ← when (registered_ c) (ok ← loop_mod; when ok (modify (set_wantWrite false)));
        send_hello
  end.

(** The three calls of [start_connect]: the new socket, the result of [connect]
    (0 or an [errno]), and whether the registration worked. *)
Definition EINPROGRESS : Z := 115.

Definition start_connect (new_sock : Z + Z) (connect_errno : Z) (added : Z + unit) : M bool :=
  match new_sock with
  | inl e => _ ← fail ErrSocket e (bytes_of_string "socket() failed"); mret false
  | inr fd =>
      _ ← modify (set_sock fd);
      if negb (connect_errno =? 0) && negb (connect_errno =? EINPROGRESS) then
        _ ← fail ErrSocket connect_errno (bytes_of_string "connect() failed"); mret false
      else
        match added with
        | inl e => _ ← fail ErrSocket e (bytes_of_string "epoll add failed"); mret false
        | inr _ =>
            _ ← modify (λ c, set_wantWrite true (set_registered true c));
            mret true
        end
  end.

Definition EPOLLIN : Z := 0x001.
Definition EPOLLOUT : Z := 0x004.
Definition EPOLLERR : Z := 0x008.
Definition EPOLLHUP : Z := 0x010.
Definition EPOLLRDHUP : Z := 0x2000.

Definition has (events mask : Z) : bool := negb (Z.land events mask =? 0).

Definition on_io_events (events : Z) (script : list recv_result) : M unit :=
  c ← get;
  if dead_ c then mret ()
  else if has events (Z.lor EPOLLHUP EPOLLERR) then
    fail ErrSocket 0 (bytes_of_string "peer hangup/error")
  else
    _ ← when (bool_decide (state_ c = ConnectingOut) && has events EPOLLOUT) on_connect_complete;
    c ← get;
    if dead_ c then mret ()
    else
      _ ← when (has events EPOLLOUT) flush_outbound;
      c ← get;
      if dead_ c then mret ()
      else when (has events (Z.lor EPOLLIN EPOLLRDHUP)) (do_read script).

(** The constructor for an accepted socket, and the one for an outbound dial. *)
Definition accepted (fd : Z) (addr : Z * Z) (nonce : Z) (added : bool) (k : os) (l : L) : world :=
  let created := clk (readings k) in
  let k := mk_os (sends k) (mods k) (entropy k) (so_error k) (S (readings k)) (errno k) (sent k) in
  let c := blank fd addr true Handshaking nonce created in
  let c := if added then set_registered true c else c in
  (send_hello (mk_world c k l [] [] [])).2.

Definition dialed (addr : Z * Z) (nonce : Z) (k : os) (l : L) : world :=
  let created := clk (readings k) in
  let k := mk_os (sends k) (mods k) (entropy k) (so_error k) (S (readings k)) (errno k) (sent k) in
  mk_world (blank (-1) addr false ConnectingOut nonce created) k l [] [] [].

End connection.

End peer_connection.
