(* ===== verification/ConnectionFacts.v ===== *)
(** * Facts about a connection

    The invariant of a connection and what it gives: the order in which the
    owner hears of events, who is admitted, and that the bytes handed to the
    kernel are the queued frames in order.  Every result holds for any owner,
    any behaviour of the kernel and any sequence of operations. *)
From Stdlib Require Import ZArith Lia.
From Stdlib.Strings Require Import Byte.
From stdpp Require Import base gmap sets list strings numbers option.
From S2P Require Import Prelude PeerId Buffer Wire WireFacts Config Crypto Identity PeerConnection.

Module connection_facts.
Import peer_connection.

(** ** The order of events *)

(** What the owner has been told: nothing yet, that the peer is up, that the
    connection is closed; [PBad] is a violation of that order. *)
Inductive phase := PInit | PUp | PClosed | PBad.

Definition phase_step (p : phase) (e : event) : phase :=
  match p, e with
  | PInit, EvHandshake _ _ => PUp
  | PUp, (EvData _ _ | EvMembership _ _ | EvIdentity _ _) => PUp
  | (PInit | PUp), EvError _ => p
  | (PInit | PUp), EvClosed _ => PClosed
  | _, _ => PBad
  end.

(** The latest event comes first. *)
Definition phase_of (log : list event) : phase := foldr (λ e p, phase_step p e) PInit log.

Definition expected_phase (c : t) : phase :=
  if dead_ c then PClosed
  else match state_ c with Established => PUp | _ => PInit end.

Section facts.

Context {Sod : Sodium} {L : Type} {Own : ConnectionListener L}.
Context (cfg_ : mesh_config) (self_ : local_identity) (clk : nat → Z).

#[local] Abbreviation world := (@world L).
#[local] Abbreviation M := (@M L).

(** ** Admission *)

Definition hello_matches (h : hello) (c : t) : Prop :=
  h_protocolVersion h = l_protocolVersion self_ ∧ h_groupName h = l_groupName self_ ∧
  h_secure h = secure_ c ∧ h_nodeId h = peerId_ c.

(** The key agreement with the saved hello has been run. *)
Definition keyed (c : t) : Prop :=
  hello_matches (peerHello_ c) c ∧
  (∃ hr, crypto.do_handshake (ephKeys_ c) (h_ephPubKey (peerHello_ c)) (l_groupKey self_)
           (l_groupName self_) = Some hr ∧ expectedPeerTag_ c = crypto.expectedPeerTag hr ∧
         myConfirmTag_ c = crypto.myConfirmTag hr) ∧
  useIdentity_ c = l_hasIdentity self_ && h_hasIdentity (peerHello_ c) ∧
  (l_hasIdentity self_ && requireIdentity cfg_ = true → h_hasIdentity (peerHello_ c) = true) ∧
  is_Some (sess_ c).

Definition admitted (c : t) (h : hello) : Prop :=
  hello_matches h c ∧ secure_ c = l_secure self_ ∧
  (secure_ c = true → h = peerHello_ c ∧ keyed c ∧
     ∃ frame, crypto.verify_tag (elems (pf_auth_tag frame)) (elems (expectedPeerTag_ c)) = true ∧
       check_identity self_ frame c = None).

(** ** The invariant *)

Record inv (w : world) : Prop := {
  inv_dead : dead_ (conn w) = true ↔ state_ (conn w) = Dead;
  inv_mode : secure_ (conn w) = l_secure self_;
  inv_await : state_ (conn w) = AwaitingConfirm → secure_ (conn w) = true;
  inv_keyed : secure_ (conn w) = true →
    state_ (conn w) = AwaitingConfirm ∨ state_ (conn w) = Established → keyed (conn w);
  inv_phase : phase_of (calls w) = expected_phase (conn w);
  inv_admitted : ∀ c h, EvHandshake c h ∈ calls w → admitted c h;
  inv_out : buffer.wf (out_ (conn w));
  inv_stream : overflowPolicy cfg_ ≠ DropOldest →
    sent (kernel w) ++ buffer.data (out_ (conn w)) = queued w;
}.

(** [m] keeps the invariant. *)
Definition keeps {A} (m : M A) : Prop := ∀ w, inv w → inv (m w).2.

Lemma keeps_ret {A} (x : A) : keeps (mret x).
Proof. by intros w. Qed.

Lemma keeps_bind {A B} (m : M A) (f : A → M B) :
  keeps m → (∀ x, keeps (f x)) → keeps (m ≫= f).
Proof.
  intros Hm Hf w Hw. unfold mbind, M_bind. specialize (Hm w Hw).
  destruct (m w) as [x w']. by apply Hf.
Qed.

Lemma inv_bind {A B} (m : M A) (f : A → M B) w :
  inv (m w).2 → (∀ x, keeps (f x)) → inv ((m ≫= f) w).2.
Proof. intros Hm Hf. unfold mbind, M_bind. destruct (m w) as [x w']. by apply Hf. Qed.

(** Reading the state and branching on what was read. *)
Lemma keeps_get {B} (f : t → M B) : (∀ w, inv w → inv (f (conn w) w).2) → keeps (get ≫= f).
Proof. intros H w Hw. by apply (H w Hw). Qed.

Lemma keeps_get_kernel {B} (f : os → M B) :
  (∀ w, inv w → inv (f (kernel w) w).2) → keeps (get_kernel ≫= f).
Proof. intros H w Hw. by apply (H w Hw). Qed.

Lemma keeps_when b m : keeps m → keeps (when b m).
Proof. by destruct b; [|intros _ w]. Qed.

Lemma keeps_set_kernel k w :
  sent k = sent (kernel w) → inv w → inv (set_kernel k w).2.
Proof. intros Hk []. split; simpl; rewrite ?Hk; done. Qed.

Lemma keeps_set_owner l : keeps (set_owner l).
Proof. intros w []. by split. Qed.

Lemma keeps_get_owner : keeps get_owner.
Proof. by intros w. Qed.

(** A change of fields the invariant does not look at. *)
Definition unrelated (f : t → t) : Prop :=
  ∀ c, dead_ (f c) = dead_ c ∧ state_ (f c) = state_ c ∧ secure_ (f c) = secure_ c ∧
    out_ (f c) = out_ c ∧ (keyed c → keyed (f c)).

Lemma keeps_modify f : unrelated f → keeps (modify f).
Proof.
  intros Hf w []. destruct (Hf (conn w)) as (H1 & H2 & H3 & H4 & H5).
  split; simpl; unfold expected_phase in *; rewrite ?H1, ?H2, ?H3, ?H4; auto.
Qed.

Lemma keeps_now : keeps (now clk).
Proof. unfold now. apply keeps_get_kernel. intros w Hw. by apply keeps_set_kernel. Qed.

Lemma keeps_loop_mod : keeps loop_mod.
Proof.
  unfold loop_mod. apply keeps_get_kernel. intros w Hw. destruct (mods (kernel w)); [done|].
  by apply keeps_set_kernel.
Qed.

Lemma keeps_draw_key : keeps draw_key.
Proof.
  unfold draw_key. apply keeps_get_kernel. intros w Hw. destruct (entropy (kernel w)); [done|].
  by apply keeps_set_kernel.
Qed.

Lemma keeps_set_errno e : keeps (set_errno e).
Proof. unfold set_errno. apply keeps_get_kernel. intros w Hw. by apply keeps_set_kernel. Qed.

(** ** Closing *)

Lemma phase_open w : inv w → dead_ (conn w) = false → phase_of (calls w) = PInit ∨
  phase_of (calls w) = PUp.
Proof.
  intros [] Hd. rewrite inv_phase0. unfold expected_phase. rewrite Hd.
  destruct (state_ (conn w)); auto.
Qed.

Lemma keeps_mark_dead : keeps mark_dead.
Proof.
  unfold mark_dead. apply keeps_get. intros w Hw. destruct (dead_ (conn w)) eqn:Hd; [done|].
  pose proof (phase_open w Hw Hd) as Hp. destruct Hw.
  set (c1 := set_state Dead (set_dead true (conn w))).
  set (c2 := if registered_ c1 && (0 <=? sock_ c1) then set_registered false c1 else c1).
  assert (dead_ c2 = true ∧ state_ c2 = Dead ∧ secure_ c2 = secure_ (conn w) ∧
    out_ c2 = out_ (conn w)) as (H1 & H2 & H3 & H4).
  { subst c2. by destruct (_ && _). }
  change (inv (mk_world c2 (kernel w) (on_peer_closed c2 (owner w)) (EvClosed c2 :: calls w)
    (queued w) (arrived w))).
  split; simpl; unfold expected_phase; rewrite ?H1, ?H2, ?H3, ?H4; auto; try done.
  - intros _ [|]; done.
  - destruct Hp as [-> | ->]; done.
  - intros c h [|Hin]%elem_of_cons; [done|]. eauto.
Qed.

Lemma raise_inv e w :
  inv w → dead_ (conn w) = false →
  inv (raise e w).2 ∧ conn (raise e w).2 = conn w.
Proof.
  intros Hw Hd. split; [|done]. pose proof (phase_open w Hw Hd) as Hp. destruct Hw.
  split; simpl; auto.
  - rewrite <- inv_phase0. by destruct Hp as [-> | ->].
  - intros c h [|Hin]%elem_of_cons; [done|]. eauto.
Qed.

Lemma keeps_fail cat err what : keeps (fail cat err what).
Proof.
  unfold fail. apply keeps_get. intros w Hw. destruct (dead_ (conn w)) eqn:Hd; [done|].
  unfold when, mbind, M_bind. destruct (_ || _); [|by apply keeps_mark_dead].
  destruct (raise_inv (mk_error cat err what
    (if is_zero (peerId_ (conn w)) then None else Some (peerId_ (conn w)))) w Hw Hd) as [H1 _].
  destruct (raise _ w) as [[] w1]. by apply keeps_mark_dead.
Qed.

Lemma keeps_reject cat what : keeps (reject cat what).
Proof. apply keeps_bind; [apply keeps_fail|]. intros _. apply keeps_ret. Qed.

(** ** Writing *)

Lemma keeps_update_epoll : keeps update_epoll.
Proof.
  unfold update_epoll. apply keeps_get. intros w Hw. destruct (_ || negb _); [done|].
  destruct (Bool.eqb _ _); [done|].
  apply (keeps_bind loop_mod); [apply keeps_loop_mod| |done].
  intros ok. apply keeps_when, keeps_modify. by intros c.
Qed.

(** The kernel takes the first [n] bytes of the queue. *)
Lemma transmit_inv n k w :
  (n <= buffer.size (out_ (conn w)))%nat → inv w →
  sent k = sent (kernel w) ++ take n (buffer.data (out_ (conn w))) →
  inv (mk_world (set_out (buffer.consume (out_ (conn w)) n) (conn w)) k (owner w) (calls w)
    (queued w) (arrived w)).
Proof.
  intros Hn [] Hk. split; simpl; auto.
  - by apply buffer.consume_wf.
  - intros Hpol. rewrite buffer.data_consume, Hk by done.
    rewrite <- (assoc_L (++)), take_drop. auto.
Qed.

Lemma keeps_flush_loop script : keeps (flush_loop script).
Proof.
  induction script as [|r script IH]; cbn [flush_loop]; apply keeps_get; intros w Hw;
    destruct (buffer.empty _); try done.
  { apply (keeps_bind (set_errno EAGAIN)); [apply keeps_set_errno|intros _; apply keeps_ret|done]. }
  unfold mbind at 1, M_bind at 1, get_kernel at 1. destruct r as [n|e].
  - set (n' := Nat.min n _). destruct (0 <? n')%nat.
    + apply IH. apply (transmit_inv n' _ w); [|done|done]. subst n'. lia.
    + apply (keeps_bind (fail _ _ _)); [apply keeps_fail|intros _; apply keeps_ret|].
      by apply keeps_set_kernel.
  - set (k := mk_os _ _ _ _ _ _ _).
    assert (inv (set_kernel k w).2) as H1 by (by apply keeps_set_kernel).
    destruct (e =? EAGAIN); [done|]. destruct (e =? EINTR); [by apply IH|].
    apply (keeps_bind (fail _ _ _)); [apply keeps_fail|intros _; apply keeps_ret|done].
Qed.

Lemma keeps_flush_outbound : keeps flush_outbound.
Proof.
  unfold flush_outbound. apply keeps_get_kernel. intros w Hw.
  apply (keeps_bind (flush_loop _)); [apply keeps_flush_loop| |done].
  intros ok. apply keeps_when, keeps_update_epoll.
Qed.

Lemma keeps_append_out s : keeps (append_out s).
Proof.
  intros w []. split; simpl; auto.
  - by apply buffer.append_wf.
  - intros Hpol. rewrite buffer.data_append, (assoc_L (++)) by done. by rewrite inv_stream0.
Qed.

(** [append; lastSend_ = now; flush_outbound] *)
Lemma keeps_finish rec :
  keeps (_ ← append_out rec; t ← now clk; _ ← modify (set_lastSend t); flush_outbound).
Proof.
  apply keeps_bind; [apply keeps_append_out|intros _].
  apply keeps_bind; [apply keeps_now|intros t].
  apply keeps_bind; [apply keeps_modify; by intros c|intros _]. apply keeps_flush_outbound.
Qed.

Lemma seal_frame_inv frame w :
  inv w → inv (seal_frame frame w).2 ∧ dead_ (conn (seal_frame frame w).2) = dead_ (conn w).
Proof.
  intros Hw. unfold seal_frame, mbind, M_bind, get. destruct (sess_ (conn w)) as [s|] eqn:Hs; [|done].
  destruct (crypto.seal frame s) as [rec s']. split; [|done].
  apply (keeps_modify (set_sess (Some s'))); [|done].
  intros c. split_and!; try done. intros (H1 & H2 & H3 & H4 & _). split_and!; done.
Qed.

Lemma keeps_enqueue frame : keeps (enqueue cfg_ clk frame).
Proof.
  unfold enqueue. apply keeps_get. intros w Hw. destruct (dead_ (conn w)) eqn:Hd; [done|].
  assert (∃ rec w1, (if established_secure (conn w) then seal_frame frame else mret frame) w =
    (rec, w1) ∧ inv w1 ∧ dead_ (conn w1) = false) as (rec & w1 & Hs & H1 & Hd1).
  { destruct (established_secure _); [|by exists frame, w].
    destruct (seal_frame_inv frame w Hw) as [H1 H2].
    destruct (seal_frame frame w) as [rec w1]. exists rec, w1. rewrite Hd in H2. done. }
  unfold mbind at 1, M_bind at 1. rewrite Hs. unfold mbind at 1, M_bind at 1, get.
  destruct (_ <? _); [|by apply keeps_finish].
  destruct (overflowPolicy cfg_) eqn:Hpol.
  - by apply keeps_fail.
  - unfold when. destruct (negb _); [|by apply keeps_finish].
    apply (keeps_finish rec (modify (set_out _) w1).2). destruct H1. split; simpl; auto.
    + by apply buffer.consume_wf.
    + by rewrite Hpol.
  - by apply raise_inv.
Qed.

Lemma keeps_close_gracefully : keeps (close_gracefully cfg_ clk).
Proof.
  unfold close_gracefully. apply keeps_get. intros w Hw. destruct (dead_ (conn w)); [done|].
  apply (keeps_bind (enqueue cfg_ clk _)); [apply keeps_enqueue|intros _; apply keeps_mark_dead|done].
Qed.

Lemma keeps_maybe_heartbeat tnow interval : keeps (maybe_heartbeat cfg_ clk tnow interval).
Proof.
  unfold maybe_heartbeat. apply keeps_get. intros w Hw. destruct (_ || _); [done|].
  by apply keeps_when; [apply keeps_enqueue|].
Qed.

(** ** Calling the owner *)

Lemma keeps_react r : keeps (react cfg_ clk r).
Proof.
  induction r as [l|l frame k IH|l k IH]; cbn [react]; [apply keeps_set_owner| |];
    (apply keeps_bind; [apply keeps_set_owner|intros _]; apply keeps_bind;
      [apply keeps_enqueue || apply keeps_close_gracefully|intros _];
      apply keeps_get; intros w Hw; by apply (IH (conn w) (owner w))).
Qed.

(** An event of an established connection. *)
Lemma call_inv ev handler w :
  inv w → dead_ (conn w) = false → state_ (conn w) = Established →
  (∀ c, phase_step PUp (ev c) = PUp) →
  inv (call cfg_ clk ev handler w).2.
Proof.
  intros Hw Hd Hs Hev. apply keeps_react. destruct Hw.
  unfold expected_phase in *. rewrite Hd, Hs in *.
  split; simpl; unfold expected_phase; rewrite ?Hd, ?Hs; auto.
  - by rewrite inv_phase0.
  - intros c h [Heq|Hin]%elem_of_cons; [|eauto]. specialize (Hev (conn w)). by rewrite <- Heq in Hev.
Qed.

(** The handshake event: the state has just become [Established]. *)
Lemma call_handshake_inv h handler w :
  inv w → dead_ (conn w) = false → state_ (conn w) ≠ Established →
  let c := set_state Established (conn w) in
  (secure_ c = true → keyed c) → admitted c h →
  inv (call cfg_ clk (λ c, EvHandshake c h) handler
         (mk_world c (kernel w) (owner w) (calls w) (queued w) (arrived w))).2.
Proof.
  intros [] Hd Hs c Hk Hadm. apply keeps_react.
  assert (state_ (conn w) ≠ Dead) by (intros H; apply inv_dead0 in H; congruence).
  split; simpl; auto; try done.
  - rewrite Hd. done.
  - rewrite inv_phase0. unfold expected_phase. simpl. rewrite Hd.
    by destruct (state_ (conn w)).
  - intros c' h' [[= -> ->]|Hin]%elem_of_cons; [done|eauto].
Qed.

(** ** Handshake *)

Lemma keeps_consume_src src n : keeps (consume_src src n).
Proof. apply keeps_modify. by destruct src. Qed.

Lemma keeps_alive : keeps alive.
Proof. unfold alive. apply keeps_get. by intros w. Qed.

Lemma keeps_send_auth_confirm : keeps (send_auth_confirm clk).
Proof. unfold send_auth_confirm. apply keeps_get. intros w Hw. by apply keeps_finish. Qed.

Lemma alive_state w st : inv w → state_ (conn w) = st → st ≠ Dead → dead_ (conn w) = false.
Proof.
  intros [] <- Hne. destruct (dead_ (conn w)) ; [|done].
  exfalso. by apply Hne, inv_dead0.
Qed.

(** The ephemeral keys are only replaced before the key agreement. *)
Lemma keeps_set_eph k w :
  inv w → state_ (conn w) = Handshaking → inv (modify (set_eph k) w).2.
Proof. intros [] Hs. split; simpl; auto. rewrite Hs. by intros _ [|]. Qed.

Lemma send_hello_inv w :
  inv w → state_ (conn w) = Handshaking → inv (send_hello self_ clk w).2.
Proof.
  intros Hw Hs. unfold send_hello. unfold mbind at 1, M_bind at 1, get at 1.
  assert (∃ w1, when (secure_ (conn w)) (sk ← draw_key; modify (set_eph (crypto.gen_ephemeral sk))) w
    = ((), w1) ∧ inv w1) as (w1 & H1 & Hw1).
  { unfold when. destruct (secure_ (conn w)); [|by exists w].
    pose proof (keeps_draw_key w Hw) as Hd.
    assert (conn (draw_key w).2 = conn w) as Hc.
    { unfold draw_key, mbind, M_bind, get_kernel. by destruct (entropy (kernel w)). }
    unfold mbind, M_bind. destruct (draw_key w) as [sk w']. simpl in *.
    eexists; split; [done|]. apply keeps_set_eph; [done|]. by rewrite Hc. }
  unfold mbind at 1, M_bind at 1. rewrite H1. by apply keeps_finish.
Qed.

(** What the secured branch of [handle_hello] writes before it answers. *)
Definition keyed_conn (h : hello) (hr : crypto.handshake_result) (c : t) : t :=
  let use := l_hasIdentity self_ && h_hasIdentity h in
  set_state AwaitingConfirm
    (set_identity use
       (if use then crypto.sign (id_transcript (crypto.eph_pk (ephKeys_ c)) (h_ephPubKey h)
          (l_nodeName self_)) (crypto.id_sk (l_idKeys self_)) else myIdSig_ c)
       (set_handshake (Some (crypto.session hr)) (crypto.myConfirmTag hr)
          (crypto.expectedPeerTag hr) h c)).

Lemma keyed_conn_inv h hr w :
  inv w → dead_ (conn w) = false → state_ (conn w) = Handshaking → secure_ (conn w) = true →
  hello_matches h (conn w) →
  crypto.do_handshake (ephKeys_ (conn w)) (h_ephPubKey h) (l_groupKey self_) (l_groupName self_) =
    Some hr →
  (l_hasIdentity self_ && requireIdentity cfg_ && negb (h_hasIdentity h) = false) →
  inv (mk_world (keyed_conn h hr (conn w)) (kernel w) (owner w) (calls w) (queued w) (arrived w)).
Proof.
  intros [] Hd Hs Hsec Hm Hhr Hid.
  split; simpl; auto; try done.
  - by rewrite Hd.
  - intros _ _. split_and!; try done; [by exists hr|].
    simpl. destruct (l_hasIdentity self_ && requireIdentity cfg_); [|done].
    by destruct (h_hasIdentity h).
  - rewrite inv_phase0. unfold expected_phase. simpl. by rewrite Hd, Hs.
Qed.

Lemma keeps_handle_hello frame consumed src :
  keeps (handle_hello cfg_ self_ clk frame consumed src).
Proof.
  unfold handle_hello. apply keeps_get. intros w Hw. case_bool_decide as Hs; cbn [negb].
  2:{ apply (keeps_bind (consume_src _ _)); [apply keeps_consume_src|intros _; apply keeps_ret|done]. }
  set (h := pf_hello frame).
  destruct (negb (_ =? _) || _) eqn:Hmatch; [by apply keeps_reject|].
  apply orb_false_iff in Hmatch as [Hv Hg]. apply negb_false_iff in Hv, Hg.
  apply Z.eqb_eq in Hv. apply bool_decide_eq_true in Hg.
  destruct (Bool.eqb (h_secure h) _) eqn:Hmode; cbn [negb]; [|by apply keeps_reject].
  apply eqb_prop in Hmode.
  assert (dead_ (conn w) = false) as Hd by (by eapply alive_state).
  set (w1 := (consume_src src consumed
    (modify (set_peer (h_nodeId h) (h_tcpListenPort h) (h_nonce h)) w).2).2).
  assert (inv w1) as Hw1.
  { apply keeps_consume_src. destruct Hw. split; simpl; auto. rewrite Hs. by intros _ [|]. }
  assert (state_ (conn w1) = Handshaking ∧ dead_ (conn w1) = false ∧
    secure_ (conn w1) = secure_ (conn w) ∧ peerId_ (conn w1) = h_nodeId h ∧
    ephKeys_ (conn w1) = ephKeys_ (conn w)) as (Hs1 & Hd1 & Hsec1 & Hid1 & He1).
  { by destruct src. }
  assert (hello_matches h (conn w1)) as Hm by (unfold hello_matches; by rewrite Hsec1, Hid1).
  match goal with |- inv ((_ ← _; _ ← _; ?k) _).2 => change (inv (k w1).2) end.
  destruct (secure_ (conn w)) eqn:Hsec; cbn [negb].
  - destruct (_ && negb _) eqn:Hreq; [by apply keeps_reject|].
    destruct (crypto.do_handshake _ _ _ _) as [hr|] eqn:Hhr; [|by apply keeps_reject].
    apply (keeps_bind (send_auth_confirm clk)); [apply keeps_send_auth_confirm
      |intros _; apply keeps_alive|].
    apply (keyed_conn_inv h hr w1); try done. by rewrite He1.
  - apply (inv_bind (call cfg_ clk _ _)); [|intros _; apply keeps_alive].
    assert (¬ secure_ (set_state Established (conn w1)) = true) as Hns.
    { change (secure_ (conn w1) ≠ true). by rewrite Hsec1. }
    apply (call_handshake_inv h _ w1); [done|done|by rewrite Hs1|done|]. split_and!; [done|apply Hw1|done].
Qed.

Lemma keeps_handle_auth_confirm frame consumed src :
  keeps (handle_auth_confirm cfg_ self_ clk frame consumed src).
Proof.
  unfold handle_auth_confirm. apply keeps_get. intros w Hw.
  destruct (negb (secure_ _) || _) eqn:Hst; [by apply keeps_reject|].
  apply orb_false_iff in Hst as [Hsec Hs]. apply negb_false_iff in Hsec, Hs.
  apply bool_decide_eq_true in Hs.
  assert (dead_ (conn w) = false) as Hd by (by eapply alive_state).
  set (w1 := (consume_src src consumed w).2).
  assert (inv w1) as Hw1 by (by apply keeps_consume_src).
  match goal with |- inv ((_ ← _; ?k) _).2 => change (inv (k w1).2) end.
  destruct (crypto.verify_tag _ _) eqn:Htag; cbn [negb]; [|by apply keeps_reject].
  destruct (check_identity self_ frame (conn w)) eqn:Hid; [by apply keeps_reject|].
  apply (inv_bind (call cfg_ clk _ _)); [|intros _; apply keeps_alive].
  assert (keyed (conn w)) as Hk by (apply (inv_keyed w Hw); auto).
  apply (call_handshake_inv (peerHello_ (conn w1)) _ w1); try done.
  - by destruct src.
  - destruct src; simpl; congruence.
  - intros _. by destruct src.
  - assert (admitted (conn w) (peerHello_ (conn w))) as Ha.
    { split; [apply Hk|]. split; [apply Hw|]. intros _. split_and!; [done|done|by exists frame]. }
    by destruct src.
Qed.

(** ** Dispatch and reading *)

Lemma keeps_dispatch frame consumed src :
  keeps (dispatch cfg_ self_ clk frame consumed src).
Proof.
  unfold dispatch. apply keeps_bind; [apply keeps_now|intros tnow].
  apply keeps_bind; [apply keeps_modify; by intros c|intros _].
  apply keeps_get. intros w Hw.
  assert (∀ {A} (x : A), keeps (_ ← consume_src src consumed; mret x)) as Hcons.
  { intros A x. apply keeps_bind; [apply keeps_consume_src|intros _; apply keeps_ret]. }
  case_bool_decide as Hs; cbn [negb]; destruct (pf_type frame); try (by apply keeps_reject);
    try (by apply keeps_handle_hello); try (by apply keeps_handle_auth_confirm);
    try (by apply Hcons);
    try (apply (keeps_bind (consume_src src consumed)); [apply keeps_consume_src
      |intros _; apply keeps_reject|done]).
  - apply (inv_bind (call cfg_ clk _ _)); [by apply call_inv; [|eapply alive_state| |]|].
    intros _. apply keeps_bind; [apply keeps_alive|]. intros []; [apply Hcons|apply keeps_ret].
  - apply (inv_bind (call cfg_ clk _ _)); [|intros _; apply keeps_alive].
    assert (inv (consume_src src consumed w).2) as Hw1 by (by apply keeps_consume_src).
    apply call_inv; [done| | |done]; [eapply alive_state; [done| |]|]; by destruct src.
  - apply (inv_bind (call cfg_ clk _ _)); [|intros _; apply keeps_alive].
    assert (inv (consume_src src consumed w).2) as Hw1 by (by apply keeps_consume_src).
    apply call_inv; [done| | |done]; [eapply alive_state; [done| |]|]; by destruct src.
Qed.

Lemma keeps_parse_plaintext fuel : keeps (parse_plaintext cfg_ self_ clk fuel).
Proof.
  induction fuel as [|fuel IH]; cbn [parse_plaintext]; [apply keeps_ret|].
  apply keeps_get. intros w Hw. destruct (try_decode_frame _ _ _ _) as [[[| |] frame] consumed];
    try done; try (by apply keeps_reject).
  apply (keeps_bind (dispatch _ _ _ _ _ _)); [apply keeps_dispatch| |done].
  intros []; cbn [negb]; [|apply keeps_ret]. apply keeps_get. intros w2 Hw2.
  destruct (established_secure _); [done|]. by apply IH.
Qed.

Lemma keeps_parse_secure fuel : keeps (parse_secure cfg_ self_ clk fuel).
Proof.
  induction fuel as [|fuel IH]; cbn [parse_secure]; [apply keeps_ret|].
  apply keeps_get. intros w Hw. destruct (try_decode_frame _ _ _ _) as [[[| |] frame] consumed];
    try done; try (by apply keeps_fail).
  apply (keeps_bind (dispatch _ _ _ _ _ _)); [apply keeps_dispatch| |done].
  intros []; cbn [negb]; [apply IH|apply keeps_ret].
Qed.

Lemma keeps_set_sess s g :
  unrelated g → keeps (modify (λ c, g (set_sess (Some s) c))).
Proof.
  intros Hg. apply keeps_modify. intros c. destruct (Hg (set_sess (Some s) c)) as (H1&H2&H3&H4&H5).
  split_and!; try done. intros (K1 & K2 & K3 & K4 & _). apply H5. by split_and!.
Qed.

Lemma keeps_drain_records fuel : keeps (drain_records cfg_ fuel).
Proof.
  induction fuel as [|fuel IH]; cbn [drain_records]; [apply keeps_ret|].
  apply keeps_get. intros w Hw. destruct (_ <? 4); [done|].
  destruct (_ || _); [by apply keeps_reject|]. destruct (_ <? 4 + _); [done|].
  destruct (sess_ (conn w)) as [s|]; [|done]. destruct (crypto.open _ s) as [[pt|] s'].
  - apply (keeps_bind (modify _)); [by apply (keeps_set_sess s' (λ c, set_plain (buffer.append (plain_ c) pt) c))
      | |done].
    intros _. apply keeps_bind; [by apply keeps_modify|]. intros _. apply IH.
  - apply (keeps_bind (modify _)); [by apply (keeps_set_sess s' (λ c, c))| |done].
    intros _. apply keeps_reject.
Qed.

Lemma keeps_parse_inbound : keeps (parse_inbound cfg_ self_ clk).
Proof.
  unfold parse_inbound. apply keeps_get. intros w Hw.
  apply (keeps_bind (if established_secure (conn w) then _ else _));
    [destruct (established_secure _); [apply keeps_ret|apply keeps_parse_plaintext]| |done].
  intros []; cbn [negb]; [|apply keeps_ret]. apply keeps_get. intros w1 Hw1.
  destruct (established_secure _); [|done].
  apply (keeps_bind (drain_records cfg_ _)); [apply keeps_drain_records| |done].
  intros []; cbn [negb]; [|apply keeps_ret]. apply keeps_get. intros w2 Hw2.
  by apply keeps_parse_secure.
Qed.

Lemma keeps_append_in s : keeps (append_in s).
Proof. intros w []. by split. Qed.

Lemma keeps_do_read script : keeps (do_read cfg_ self_ clk script).
Proof.
  induction script as [|[s|e] script IH]; cbn [do_read]; [apply keeps_parse_inbound| |].
  - destruct (0 <? _)%nat; [|apply keeps_fail].
    apply keeps_bind; [apply keeps_append_in|]. intros _. apply IH.
  - apply keeps_bind; [apply keeps_set_errno|]. intros _.
    destruct (e =? EAGAIN); [apply keeps_parse_inbound|].
    destruct (e =? EINTR); [apply IH|apply keeps_fail].
Qed.

Lemma on_connect_complete_inv w :
  inv w → state_ (conn w) = ConnectingOut → inv (on_connect_complete self_ clk w).2.
Proof.
  intros Hw Hs. unfold on_connect_complete, mbind at 1, M_bind at 1, get_kernel at 1.
  destruct (so_error (kernel w)) as [err|]; [|by apply keeps_fail].
  destruct (negb _); [by apply keeps_fail|].
  assert (dead_ (conn w) = false) as Hd by (by eapply alive_state).
  set (w1 := (modify (set_state Handshaking) w).2).
  assert (inv w1) as Hw1.
  { destruct Hw. split; simpl; auto; try done.
    - by rewrite Hd.
    - by intros _ [|].
    - rewrite inv_phase0. unfold expected_phase. simpl. by rewrite Hd, Hs. }
  match goal with |- inv ((_ ← _; ?k) _).2 => change (inv (k w1).2) end.
  unfold mbind at 1, M_bind at 1, get at 1.
  assert (∃ w2, when (registered_ (conn w1)) (ok ← loop_mod; when ok (modify (set_wantWrite false)))
    w1 = ((), w2) ∧ inv w2 ∧ state_ (conn w2) = Handshaking) as (w2 & Hw2 & Hi2 & Hs2).
  { unfold when at 1. destruct (registered_ (conn w1)); [|by exists w1].
    pose proof (keeps_loop_mod w1 Hw1) as Hl.
    assert (conn (loop_mod w1).2 = conn w1) as Hc.
    { unfold loop_mod, mbind, M_bind, get_kernel. by destruct (mods (kernel w1)). }
    unfold mbind, M_bind. destruct (loop_mod w1) as [ok w2]. simpl in *.
    destruct ok; simpl; eexists; (split; [done|]); [|by rewrite Hc].
    split; [by apply (keeps_modify (set_wantWrite false))|]. simpl. by rewrite Hc. }
  unfold mbind at 1, M_bind at 1. rewrite Hw2. by apply send_hello_inv.
Qed.

Lemma keeps_start_connect sock err added : keeps (start_connect sock err added).
Proof.
  assert (∀ cat e what, keeps (_ ← fail cat e what; mret false)) as Hf.
  { intros. apply keeps_bind; [apply keeps_fail|intros _; apply keeps_ret]. }
  unfold start_connect. destruct sock as [e|fd]; [apply Hf|].
  apply keeps_bind; [by apply keeps_modify|intros _]. destruct (_ && _); [apply Hf|].
  destruct added as [e|[]]; [apply Hf|].
  apply keeps_bind; [by apply keeps_modify|intros _; apply keeps_ret].
Qed.

Lemma keeps_on_io_events events script : keeps (on_io_events cfg_ self_ clk events script).
Proof.
  unfold on_io_events. apply keeps_get. intros w Hw. destruct (dead_ (conn w)); [done|].
  destruct (has events _); [by apply keeps_fail|].
  apply (inv_bind (when _ _)).
  - case_bool_decide; [|done]. simpl. destruct (has events EPOLLOUT); [|done].
    by apply on_connect_complete_inv.
  - intros _. apply keeps_get. intros w1 Hw1. destruct (dead_ (conn w1)); [done|].
    apply (keeps_bind (when _ _)); [apply keeps_when, keeps_flush_outbound| |done].
    intros _. apply keeps_get. intros w2 Hw2. destruct (dead_ (conn w2)); [done|].
    by apply keeps_when; [apply keeps_do_read|].
Qed.

(** ** Runs *)

(** What can happen to a connection: the loop reports events (with what [recv]
    will return), the owner calls an operation, or the kernel's future
    behaviour changes. *)
Inductive op :=
  | OpIo (events : Z) (script : list recv_result)
  | OpHeartbeat (tnow interval : Z)
  | OpSend (frame : list byte)
  | OpClose
  | OpStart (sock : Z + Z) (err : Z) (added : Z + unit)
  | OpKernel (sends : list send_result) (mods : list bool) (so_error : option Z).

Definition step (o : op) : M unit :=
  match o with
  | OpIo events script => on_io_events cfg_ self_ clk events script
  | OpHeartbeat tnow interval => maybe_heartbeat cfg_ clk tnow interval
  | OpSend frame => send_raw cfg_ clk frame
  | OpClose => close_gracefully cfg_ clk
  | OpStart sock err added => _ ← start_connect sock err added; mret ()
  | OpKernel sends mods so_error =>
      k ← get_kernel;
      set_kernel (mk_os sends mods (entropy k) so_error (readings k) (errno k) (sent k))
  end.

Definition run (os : list op) (w : world) : world := fold_left (λ w o, (step o w).2) os w.

Inductive origin := Accepted (fd : Z) (added : bool) | Dialed.

Definition begin (o : origin) (addr : Z * Z) (nonce : Z) (k : os) (l : L) : world :=
  match o with
  | Accepted fd added => accepted self_ clk fd addr nonce added k l
  | Dialed => dialed self_ clk addr nonce k l
  end.

Lemma keeps_step o : keeps (step o).
Proof.
  destruct o; cbn [step].
  - apply keeps_on_io_events.
  - apply keeps_maybe_heartbeat.
  - apply keeps_enqueue.
  - apply keeps_close_gracefully.
  - apply keeps_bind; [apply keeps_start_connect|intros _; apply keeps_ret].
  - apply keeps_get_kernel. intros w Hw. by apply keeps_set_kernel.
Qed.

Lemma run_inv os w : inv w → inv (run os w).
Proof. revert w; induction os as [|o os IH]; intros w Hw; simpl; [done|]. by apply IH, keeps_step. Qed.

Lemma blank_inv fd addr inb st nonce created added k l :
  sent k = [] → st = ConnectingOut ∨ st = Handshaking →
  inv (mk_world (let c := blank self_ fd addr inb st nonce created in
    if (added : bool) then set_registered true c else c) k l [] [] []).
Proof.
  intros Hk Hst. split; destruct added; simpl; rewrite ?Hk; try done;
    try (by destruct Hst as [-> | ->]); try (by intros c h ?%elem_of_nil);
    try (apply buffer.wf_empty); by destruct Hst as [-> | ->]; intros _ [|].
Qed.

Lemma begin_inv o addr nonce k l : sent k = [] → inv (begin o addr nonce k l).
Proof.
  intros Hk. destruct o as [fd added|]; cbn [begin].
  - unfold accepted. apply send_hello_inv; [by apply blank_inv; [|right]|by destruct added].
  - apply (blank_inv (-1) addr false ConnectingOut nonce _ false); [done|by left].
Qed.

(** [C11] The owner hears of events in order: in any life of a connection, with
    any owner, kernel and peer, the owner is told of the handshake at most
    once, of data, membership and identity records only after it, of the
    closing at most once, and of nothing afterwards; what it was told always
    matches the connection's state. *)
Theorem owner_hears_in_order o addr nonce k l os :
  sent k = [] →
  let w := run os (begin o addr nonce k l) in
  phase_of (calls w) = expected_phase (conn w) ∧ phase_of (calls w) ≠ PBad.
Proof.
  intros Hk w. assert (phase_of (calls w) = expected_phase (conn w)) as Hp.
  { apply inv_phase. by apply run_inv, begin_inv. }
  split; [done|]. rewrite Hp. unfold expected_phase. destruct (dead_ (conn w)); [done|].
  by destruct (state_ (conn w)).
Qed.

(** [C30] The outbound queue is a FIFO: unless the policy is to drop the oldest
    bytes, what the kernel has accepted followed by what is still queued is
    exactly everything that was ever put into the queue, in order; no frame is
    lost, repeated or reordered by partial writes. *)
Theorem outbound_fifo o addr nonce k l os :
  sent k = [] → overflowPolicy cfg_ ≠ DropOldest →
  let w := run os (begin o addr nonce k l) in
  sent (kernel w) ++ buffer.data (out_ (conn w)) = queued w.
Proof. intros Hk Hpol w. by apply inv_stream; [apply run_inv, begin_inv|]. Qed.

End facts.

(** ** A pair of connections *)

#[local] Existing Instance crypto.toy_sodium.
#[local] Existing Instance crypto.toy_laws.

(** An owner that answers the handshake with a frame and echoes payloads. *)
#[local] Instance echo_owner : ConnectionListener nat := {|
  on_peer_handshake c h n := SendRaw n encode_heartbeat (λ _ n, Done (S n));
  on_peer_data c d n := SendRaw n (d_payload d) (λ _ n, Done (S n));
  on_peer_membership c r n := Done n;
  on_peer_identity c r n := Done n;
  on_peer_closed c n := n;
  report_error e n := n;
|}.

Definition sample_peer (n : Z) : local_identity :=
  let pk := crypto.sample_key (50 + n) in
  mk_local_identity (mk_peer_id (crypto.id_from_identity pk)) (bytes_of_string "lan") 1 (40000 + n)
    true (crypto.sample_key 7) (crypto.sample_key 8) true
    (crypto.identity_from_seed pk) (bytes_of_string "node") [].

Definition sample_os (n : Z) : os := mk_os [] [] [crypto.sample_key n] (Some 0) 0 0 [].
Definition sample_clock (n : nat) : Z := Z.of_nat n.
Definition sample_cfg : mesh_config := default_config (sample_id 1).

Definition sample_begin (n : Z) : world :=
  begin (sample_peer n) sample_clock (Accepted 5 true) (1, 2) n (sample_os n) 0%nat.

(** Node 2 after it has received node 1's hello; node 1 after it has received
    everything node 2 sent, in two pieces. *)
Definition sample_two : world :=
  run sample_cfg (sample_peer 2) sample_clock [OpIo EPOLLIN [RecvData (queued (sample_begin 1))]]
    (sample_begin 2).
Definition sample_ops : list op :=
  [OpIo EPOLLIN [RecvData (take 20 (queued sample_two))];
   OpIo EPOLLIN [RecvData (drop 20 (queued sample_two))]].
#[local] Abbreviation sample_one :=
  (run sample_cfg (sample_peer 1) sample_clock sample_ops
    (begin (sample_peer 1) sample_clock (Accepted 5 true) (1, 2) 1 (sample_os 1) 0%nat)).

Definition latest_handshake (log : list event) : option (t * hello) :=
  match log with EvHandshake c h :: _ => Some (c, h) | _ => None end.

Lemma latest_handshake_in log c h : latest_handshake log = Some (c, h) → EvHandshake c h ∈ log.
Proof. destruct log as [|[] log]; simpl; try done. intros [= -> ->]. by left. Qed.

Lemma owner_hears_in_order_witness :
  phase_of (calls sample_one) = PUp ∧ phase_of (calls sample_one) ≠ PBad.
Proof.
  destruct (owner_hears_in_order sample_cfg (sample_peer 1) sample_clock (Accepted 5 true) (1, 2) 1
    (sample_os 1) 0%nat sample_ops) as [H1 H2].
  - reflexivity.
  - split; [|exact H2]. vm_compute. reflexivity.
Defined.

Lemma outbound_fifo_witness :
  sent (kernel sample_one) ++ buffer.data (out_ (conn sample_one)) = queued sample_one.
Proof.
  apply (outbound_fifo sample_cfg (sample_peer 1) sample_clock (Accepted 5 true) (1, 2) 1
    (sample_os 1) 0%nat sample_ops).
  - reflexivity.
  - vm_compute. congruence.
Defined.

End connection_facts.
