(* ===== verification/CryptoStub.v ===== *)
(** * The build without libsodium (src/src/crypto.cpp, the stubs)

    When the library is built without libsodium the wrapper's functions are
    stubs.  This file models them one by one, shows that they are what the
    wrapper of Crypto.v computes over primitives that refuse everything, and
    concludes that such a node never secures a link: it refuses a
    configuration with a passphrase, and no connection that asks for security
    ever comes up, whatever the peer sends. *)
From Stdlib Require Import ZArith Lia.
From Stdlib.Strings Require Import Byte.
From stdpp Require Import base gmap sets list strings numbers option.
From S2P Require Import Prelude PeerId Wire Config Crypto Identity MeshConfig PeerConnection ConnectionFacts.

Module crypto_stub.

(** [return {};] gives zeroed arrays and empty vectors. *)
Definition init : bool := false.
Definition available : bool := false.
Definition derive_group_key (passphrase : list byte) : key32 := zero_array 32.
Definition derive_discovery_key (groupKey : key32) : key32 := zero_array 32.
Definition discovery_tag (msg : list byte) (discoveryKey : key32) : mac16 := zero_array 16.
Definition discovery_verify (msg tag : list byte) (discoveryKey : key32) : bool := false.
Definition gen_ephemeral : crypto.ephemeral_keypair := crypto.ephemeral_zero.
Definition verify_tag (a b : list byte) : bool := false.

(** [false], with the result untouched. *)
Definition do_handshake (mine : crypto.ephemeral_keypair) (peerEphPk groupKey : key32)
    (groupName : list byte) : option crypto.handshake_result := None.
Definition seal (plaintext : list byte) (s : crypto.secure_session)
    : list byte * crypto.secure_session := ([], s).
Definition open (ciphertext : list byte) (s : crypto.secure_session)
    : option (list byte) * crypto.secure_session := (None, s).

Definition gen_identity : crypto.identity_keypair :=
  crypto.mk_identity (zero_array 32) (zero_array 64).
Definition identity_from_seed (seed : seed32) : crypto.identity_keypair :=
  crypto.mk_identity (zero_array 32) (zero_array 64).
Definition seed_of (kp : crypto.identity_keypair) : seed32 := zero_array 32.
Definition id_from_identity (pk : id_pubkey) : array 16 := zero_array 16.
Definition sign (msg : list byte) (sk : id_seckey) : id_sig := zero_array 64.
Definition verify_sig (msg : list byte) (sig : id_sig) (pk : id_pubkey) : bool := false.

(** ** The stubs as a library *)

(** Primitives that compute nothing and refuse everything. *)
#[local] Instance inert : Sodium := {|
  generichash n _ _ := zero_array n;
  sodium_memcmp _ _ := false;
  box_pk _ := zero_array 32;
  scalarmult _ _ := None;
  aead_encrypt _ _ _ := [];
  aead_decrypt _ _ _ := None;
  sign_seed_keypair _ := (zero_array 32, zero_array 64);
  sk_to_seed _ := zero_array 32;
  sign_detached _ _ := zero_array 64;
  sign_verify_detached _ _ _ := false;
|}.

(** Over these the wrapper is the stubs.  (Two stubs differ, and both are
    reached only by a secured link that is up: [seal], which writes no header,
    and the secret half of [gen_ephemeral].) *)
Lemma wrapper_is_stub :
  (∀ n, crypto.init false n = init) ∧ crypto.available false = available ∧
  (∀ p, crypto.derive_group_key p = derive_group_key p) ∧
  (∀ k, crypto.derive_discovery_key k = derive_discovery_key k) ∧
  (∀ m k, crypto.discovery_tag m k = discovery_tag m k) ∧
  (∀ m g k, crypto.discovery_verify m g k = discovery_verify m g k) ∧
  (∀ sk, crypto.eph_pk (crypto.gen_ephemeral sk) = crypto.eph_pk gen_ephemeral) ∧
  (∀ a b, crypto.verify_tag a b = verify_tag a b) ∧
  (∀ e p k g, crypto.do_handshake e p k g = do_handshake e p k g) ∧
  (∀ c s, crypto.open c s = open c s) ∧
  (∀ d, crypto.gen_identity d = gen_identity) ∧
  (∀ d, crypto.identity_from_seed d = identity_from_seed d) ∧
  (∀ kp, crypto.seed_of kp = seed_of kp) ∧
  (∀ pk, crypto.id_from_identity pk = id_from_identity pk) ∧
  (∀ m sk, crypto.sign m sk = sign m sk) ∧
  (∀ m g pk, crypto.verify_sig m g pk = verify_sig m g pk).
Proof.
  split_and!; try done; intros; unfold crypto.discovery_verify, crypto.verify_tag, crypto.open;
    by destruct (negb _) || destruct (_ <? _).
Qed.

Import peer_connection.

Section life.

Context {L : Type} {Own : ConnectionListener L}.
Context (cfg_ : mesh_config) (self_ : local_identity) (clk : nat → Z).

(** Where a key agreement is required, the stubs stop the connection. *)
Lemma never_keyed (c : t) : ¬ connection_facts.keyed cfg_ self_ c.
Proof. by intros (_ & (hr & Hhr & _) & _). Qed.

(** [C28] A node built without libsodium never secures a link: it does not start
    with a passphrase, but reports that the library is missing; and in any life
    of a connection, with any owner, kernel and peer, the connection is never
    both secured and up, so nothing is ever sealed with the stubs, and the owner
    only hears of handshakes of plain connections. *)
Theorem stub_build_never_secure o addr nonce k l os drawn sodium_init d n :
  sent k = [] →
  (psk (mesh_start.cfg_ n) ≠ [] →
   ∃ e n', mesh_start.configure available sodium_init drawn d n = (false, (d, n')) ∧
     category e = ErrCrypto ∧ mesh_start.reported n' = mesh_start.reported n ++ [e]) ∧
  let w := connection_facts.run cfg_ self_ clk os (connection_facts.begin self_ clk o addr nonce k l) in
  established_secure (conn w) = false ∧
  ∀ c h, EvHandshake c h ∈ calls w → secure_ c = false.
Proof.
  intros Hk. split.
  - intros Hp. unfold mesh_start.configure, mesh_start.configure_psk.
    rewrite bool_decide_false by done. simpl.
    eexists (mk_error ErrCrypto _ _ _), _. split; [reflexivity|]. by split.
  - intros w. assert (connection_facts.inv cfg_ self_ w) as Hi
      by (by apply connection_facts.run_inv, connection_facts.begin_inv).
    split.
    + unfold established_secure. destruct (secure_ (conn w)) eqn:Hs; [|done]. simpl.
      apply bool_decide_eq_false. intros He. destruct Hi.
      by destruct (never_keyed (conn w)); apply inv_keyed; [|right].
    + intros c h Hh. destruct Hi. destruct (inv_admitted c h Hh) as (_ & _ & Ha).
      destruct (secure_ c) eqn:Hs; [|done]. destruct (Ha eq_refl) as (_ & Hkd & _).
      by destruct (never_keyed c).
Qed.

End life.

(** ** A secured peer calls *)

#[local] Existing Instance connection_facts.echo_owner.

Lemma stub_build_never_secure_witness :
  let w := connection_facts.run connection_facts.sample_cfg (connection_facts.sample_peer 1)
    connection_facts.sample_clock connection_facts.sample_ops
    (connection_facts.begin (connection_facts.sample_peer 1) connection_facts.sample_clock
       (connection_facts.Accepted 5 true) (1, 2) 1 (connection_facts.sample_os 1) 0%nat) in
  established_secure (conn w) = false ∧ dead_ (conn w) = true.
Proof.
  split.
  - exact (proj1 (proj2 (stub_build_never_secure connection_facts.sample_cfg
      (connection_facts.sample_peer 1) connection_facts.sample_clock
      (connection_facts.Accepted 5 true) (1, 2) 1 (connection_facts.sample_os 1) 0%nat
      connection_facts.sample_ops (zero_array 32) 0
      (disk.mk ∅ (λ _, false) (λ _, false) (λ _, false) 0 0)
      (mesh_start.make connection_facts.sample_cfg) eq_refl))).
  - vm_compute. reflexivity.
Defined.

End crypto_stub.
