(* ===== verification/ConnectionProgress.v ===== *)
(** * Progress of a connection

    What the loops of [src/src/peer_connection.cpp] achieve: parsing leaves no
    complete frame behind (and its loops end within one turn per byte), the
    outbound queue stays within its limit, and two honest ends complete the
    secured handshake. *)
From Stdlib Require Import ZArith Lia.
From Stdlib.Strings Require Import Byte.
From stdpp Require Import base gmap sets list strings numbers option.
From S2P Require Import Prelude PeerId Buffer Wire WireFacts Config Crypto Identity PeerConnection ConnectionFacts.

Module connection_progress.
Import peer_connection.

(** ** Operations that leave a part of the world alone *)

Section logic.

Context {L : Type}.

#[local] Abbreviation world := (@world L).
#[local] Abbreviation M := (@M L).

(** [m] keeps [P], whatever it finds. *)
Definition holds {A} (P : world → Prop) (m : M A) : Prop := ∀ w, P w → P (m w).2.

Lemma holds_ret {A} P (x : A) : holds P (mret x).
Proof. by intros w. Qed.

Lemma holds_bind {A B} P (m : M A) (f : A → M B) :
  holds P m → (∀ x, holds P (f x)) → holds P (m ≫= f).
Proof.
  intros Hm Hf w Hw. unfold mbind, M_bind. specialize (Hm w Hw).
  destruct (m w) as [x w']. by apply Hf.
Qed.

Lemma holds_after {A B} (P : world → Prop) (m : M A) (f : A → M B) w :
  P (m w).2 → (∀ x, holds P (f x)) → P ((m ≫= f) w).2.
Proof. intros Hm Hf. unfold mbind, M_bind. destruct (m w) as [x w']. by apply Hf. Qed.

Lemma holds_get P : holds P get. Proof. by intros w. Qed.
Lemma holds_get_kernel P : holds P get_kernel. Proof. by intros w. Qed.
Lemma holds_get_owner P : holds P get_owner. Proof. by intros w. Qed.

Lemma holds_when P b m : holds P m → holds P (when b m).
Proof. by destruct b; [|intros _ w]. Qed.

End logic.

(** Walks through a program whose leaves are known to keep [P]. *)
#[export] Hint Resolve holds_ret holds_get holds_get_kernel holds_get_owner : mm.
Ltac hold :=
  repeat first
    [ progress eauto with mm
    | apply holds_bind; [|intros ?]
    | apply holds_when
    | match goal with
      | |- holds _ (if ?b then _ else _) => destruct b
      | |- holds _ (match ?x with _ => _ end) => destruct x
      end ].

Section progress.

Context {Sod : Sodium} {L : Type} {Own : ConnectionListener L}.
Context (cfg_ : mesh_config) (self_ : local_identity) (clk : nat → Z).

#[local] Abbreviation world := (@world L).
#[local] Abbreviation M := (@M L).

(** *** Everything but parsing *)

(** Sending, failing, closing and calling the owner keep every property of the
    world that a change of the kernel, of the owner's state, of the event log
    (a new event, but no handshake) and of the connection keeps that leaves its
    inbound buffers, the peer's hello and, but for closing, its state alone. *)
Definition outer (f : t → t) : Prop := ∀ c,
  in_ (f c) = in_ c ∧ plain_ (f c) = plain_ c ∧ peerHello_ (f c) = peerHello_ c ∧
  (state_ (f c) ≠ Dead → state_ (f c) = state_ c).

Section outer_ops.

Context (P : world → Prop).
Hypothesis P_modify : ∀ f, outer f → holds P (modify f).
Hypothesis P_kernel : ∀ k, holds P (set_kernel k).
Hypothesis P_owner : ∀ l, holds P (set_owner l).
Hypothesis P_notify : ∀ e, (∀ c h, e ≠ EvHandshake c h) → holds P (notify e).
Hypothesis P_append : ∀ s, holds P (append_out s).

#[local] Hint Resolve P_kernel P_owner P_append : mm.
#[local] Hint Extern 1 (holds _ (notify _)) => (apply P_notify; done) : mm.
#[local] Hint Extern 1 (holds _ (modify _)) =>
  apply P_modify; let c := fresh in intros c; repeat case_match; done : mm.

Lemma keep_now : holds P (now clk). Proof. unfold now. hold. Qed.
Lemma keep_loop_mod : holds P loop_mod. Proof. unfold loop_mod. hold. Qed.
Lemma keep_set_errno e : holds P (set_errno e). Proof. unfold set_errno. hold. Qed.
#[local] Hint Resolve keep_now keep_loop_mod keep_set_errno : mm.

Lemma keep_mark_dead : holds P mark_dead. Proof. unfold mark_dead. hold. Qed.
#[local] Hint Resolve keep_mark_dead : mm.
Lemma keep_raise e : holds P (raise e). Proof. unfold raise. hold. Qed.
#[local] Hint Resolve keep_raise : mm.
Lemma keep_fail cat err what : holds P (fail cat err what). Proof. unfold fail. hold. Qed.
#[local] Hint Resolve keep_fail : mm.
Lemma keep_reject cat what : holds P (reject cat what). Proof. unfold reject. hold. Qed.

Lemma keep_flush_loop script : holds P (flush_loop script).
Proof. induction script; cbn [flush_loop]; hold. Qed.
#[local] Hint Resolve keep_flush_loop : mm.

Lemma keep_update_epoll : holds P update_epoll. Proof. unfold update_epoll. hold. Qed.
#[local] Hint Resolve keep_update_epoll : mm.
Lemma keep_flush_outbound : holds P flush_outbound. Proof. unfold flush_outbound. hold. Qed.
#[local] Hint Resolve keep_flush_outbound : mm.
Lemma keep_seal_frame frame : holds P (seal_frame frame).
Proof. unfold seal_frame. hold. Qed.
#[local] Hint Resolve keep_seal_frame : mm.
Lemma keep_enqueue frame : holds P (enqueue cfg_ clk frame).
Proof. unfold enqueue. cbv zeta. hold. Qed.
#[local] Hint Resolve keep_enqueue : mm.
Lemma keep_close : holds P (close_gracefully cfg_ clk).
Proof. unfold close_gracefully. hold. Qed.
#[local] Hint Resolve keep_close : mm.
Lemma keep_react r : holds P (react cfg_ clk r).
Proof. induction r; cbn [react]; unfold send_raw; hold. Qed.
#[local] Hint Resolve keep_react : mm.
Lemma keep_call ev handler : (∀ c, holds P (notify (ev c))) → holds P (call cfg_ clk ev handler).
Proof. intros Hev. unfold call. hold. Qed.
Lemma keep_send_auth_confirm : holds P (send_auth_confirm clk).
Proof. unfold send_auth_confirm. hold. Qed.

End outer_ops.

(** *** The inbound buffers *)

Definition bufs (w : world) : buffer.t * buffer.t := (in_ (conn w), plain_ (conn w)).

Lemma bufs_modify b f : outer f → holds (λ w : world, bufs w = b) (modify f).
Proof. intros Hf w <-. unfold bufs. simpl. by destruct (Hf (conn w)) as (-> & -> & _). Qed.

Lemma same_now b : holds (λ w, bufs w = b) (now clk).
Proof. apply keep_now. by intros k w. Qed.
Lemma same_call b ev handler : holds (λ w, bufs w = b) (call cfg_ clk ev handler).
Proof. apply keep_call; first [apply bufs_modify|by intros ? w|by intros ? _ w]. Qed.
Lemma same_send_auth_confirm b : holds (λ w, bufs w = b) (send_auth_confirm clk).
Proof. apply keep_send_auth_confirm; first [apply bufs_modify|by intros ? w|by intros ? _ w]. Qed.

(** *** The event log *)

(** The log only grows. *)
Section logged.

Context (e : event).
#[local] Abbreviation P := (λ w : world, e ∈ calls w).

Lemma logged_modify f : holds P (modify f). Proof. by intros w. Qed.
Lemma logged_notify e' : holds P (notify e'). Proof. intros w Hw. by right. Qed.
#[local] Hint Resolve logged_modify logged_notify : mm.

Lemma logged_now : holds P (now clk). Proof. apply keep_now. by intros k w. Qed.
Lemma logged_reject cat what : holds P (reject cat what).
Proof. apply keep_reject; first [by auto with mm|by intros ? w|by intros ? _ w]. Qed.
Lemma logged_fail cat err what : holds P (fail cat err what).
Proof. apply keep_fail; first [by auto with mm|by intros ? w|by intros ? _ w]. Qed.
Lemma logged_call ev handler : holds P (call cfg_ clk ev handler).
Proof. apply keep_call; first [by auto with mm|by intros ? w|by intros ? _ w]. Qed.
Lemma logged_send_auth_confirm : holds P (send_auth_confirm clk).
Proof. apply keep_send_auth_confirm; first [by auto with mm|by intros ? w|by intros ? _ w]. Qed.
Lemma logged_alive : holds P alive. Proof. unfold alive. hold. Qed.
Lemma logged_consume_src src n : holds P (consume_src src n). Proof. by intros w. Qed.
#[local] Hint Resolve logged_now logged_reject logged_fail logged_call logged_send_auth_confirm
  logged_alive logged_consume_src : mm.

Lemma logged_handle_hello frame n src : holds P (handle_hello cfg_ self_ clk frame n src).
Proof. unfold handle_hello. cbv zeta. hold. Qed.
Lemma logged_handle_auth_confirm frame n src :
  holds P (handle_auth_confirm cfg_ self_ clk frame n src).
Proof. unfold handle_auth_confirm. hold. Qed.
#[local] Hint Resolve logged_handle_hello logged_handle_auth_confirm : mm.
Lemma logged_dispatch frame n src : holds P (dispatch cfg_ self_ clk frame n src).
Proof. unfold dispatch. cbv zeta. hold. Qed.
#[local] Hint Resolve logged_dispatch : mm.
Lemma logged_parse_secure fuel : holds P (parse_secure cfg_ self_ clk fuel).
Proof. induction fuel; cbn [parse_secure]; hold. Qed.
Lemma logged_drain_records fuel : holds P (drain_records cfg_ fuel).
Proof. induction fuel; cbn [drain_records]; cbv zeta; hold. Qed.
Lemma logged_parse_plaintext fuel : holds P (parse_plaintext cfg_ self_ clk fuel).
Proof. induction fuel; cbn [parse_plaintext]; hold. Qed.

(** Calling the owner records the call. *)
Lemma logged_by_call ev handler w : ev (conn w) = e → P (call cfg_ clk ev handler w).2.
Proof.
  intros He. apply (keep_react P); try (by auto with mm); try (by intros ? w'); try (by intros; apply logged_notify).
  simpl. rewrite He. by left.
Qed.

End logged.

(** ** Dispatch consumes the frame or ends the connection *)

Lemma mark_dead_dead w : dead_ (conn (mark_dead w).2) = true.
Proof.
  unfold mark_dead, mbind, M_bind, get. destruct (dead_ (conn w)) eqn:Hd; [done|].
  simpl. by destruct (_ && _).
Qed.

Lemma fail_dead cat err what w : dead_ (conn (fail cat err what w).2) = true.
Proof.
  unfold fail, mbind at 1, M_bind at 1, get at 1. destruct (dead_ (conn w)) eqn:Hd; [done|].
  unfold mbind at 1, M_bind at 1. destruct (when _ _ w) as [[] w1]. apply mark_dead_dead.
Qed.

Definition eat (src : source) (n : Z) (b : buffer.t * buffer.t) : buffer.t * buffer.t :=
  match src with
  | FromIn => (buffer.consume b.1 (Z.to_nat n), b.2)
  | FromPlain => (b.1, buffer.consume b.2 (Z.to_nat n))
  end.

(** Either the frame was consumed from its buffer and the other buffer is as it
    was, or the connection is dead. *)
Definition consumed_or_dead (src : source) (n : Z) (b : buffer.t * buffer.t) (r : bool * world)
    : Prop :=
  if r.1 then bufs r.2 = eat src n b else dead_ (conn r.2) = true.

Lemma consume_src_bufs src n w : bufs (consume_src src n w).2 = eat src n (bufs w).
Proof. by destruct src. Qed.

Lemma reject_dead src n b cat what w : consumed_or_dead src n b (reject cat what w).
Proof.
  unfold reject, mbind, M_bind. pose proof (fail_dead cat 0 what w) as H.
  by destruct (fail cat 0 what w) as [[] w1].
Qed.

(** A step that keeps the buffers, then a check whether the connection lives. *)
Lemma then_alive src n b (m : M unit) w :
  holds (λ w, bufs w = eat src n b) m → bufs w = eat src n b →
  consumed_or_dead src n b ((_ ← m; alive) w).
Proof.
  intros Hm Hw. unfold mbind, M_bind. specialize (Hm w Hw). destruct (m w) as [[] w1].
  unfold consumed_or_dead, alive, mbind, M_bind, get. simpl. by destruct (dead_ (conn w1)).
Qed.

Lemma handle_hello_progress frame n src w :
  consumed_or_dead src n (bufs w) (handle_hello cfg_ self_ clk frame n src w).
Proof.
  unfold handle_hello. unfold mbind at 1, M_bind at 1, get at 1.
  destruct (negb (bool_decide _)); [apply consume_src_bufs|].
  destruct (_ || _); [apply reject_dead|]. destruct (negb (Bool.eqb _ _)); [apply reject_dead|].
  set (h := pf_hello frame).
  set (w1 := (consume_src src n (modify (set_peer (h_nodeId h) (h_tcpListenPort h) (h_nonce h)) w).2).2).
  assert (bufs w1 = eat src n (bufs w)) as Hb by (by destruct src).
  match goal with |- consumed_or_dead _ _ _ ((_ ← _; _ ← _; ?k) _) =>
    change (consumed_or_dead src n (bufs w) (k w1)) end.
  destruct (negb (secure_ (conn w))).
  - apply (then_alive src n (bufs w) (call cfg_ clk _ _)); [apply same_call|by destruct src].
  - destruct (_ && negb _); [apply reject_dead|].
    destruct (crypto.do_handshake _ _ _ _) as [hr|]; [|apply reject_dead].
    apply (then_alive src n (bufs w) (send_auth_confirm clk)); [apply same_send_auth_confirm|].
    by destruct src.
Qed.

Lemma handle_auth_confirm_progress frame n src w :
  consumed_or_dead src n (bufs w) (handle_auth_confirm cfg_ self_ clk frame n src w).
Proof.
  unfold handle_auth_confirm. unfold mbind at 1, M_bind at 1, get at 1.
  destruct (_ || _); [apply reject_dead|].
  set (w1 := (consume_src src n w).2).
  match goal with |- consumed_or_dead _ _ _ ((_ ← _; ?k) _) =>
    change (consumed_or_dead src n (bufs w) (k w1)) end.
  destruct (negb _); [apply reject_dead|].
  destruct (check_identity _ _ _); [apply reject_dead|].
  apply (then_alive src n (bufs w) (call cfg_ clk _ _)); [apply same_call|by destruct src].
Qed.

Lemma dispatch_progress frame n src w :
  consumed_or_dead src n (bufs w) (dispatch cfg_ self_ clk frame n src w).
Proof.
  unfold dispatch. unfold mbind at 1, M_bind at 1.
  pose proof (same_now (bufs w) w eq_refl) as Hn. destruct (now clk w) as [tn w0]. simpl in Hn.
  rewrite <- Hn. clear Hn w.
  set (w := (modify (set_lastRecv tn) w0).2).
  match goal with |- consumed_or_dead _ _ _ ((_ ← _; ?k) _) =>
    change (consumed_or_dead src n (bufs w) (k w)) end.
  unfold mbind at 1, M_bind at 1, get at 1.
  destruct (pf_type frame); try (apply handle_hello_progress); try (apply consume_src_bufs);
    try (apply handle_auth_confirm_progress); try (apply reject_dead);
    destruct (negb _); try (apply reject_dead).
  - pose proof (same_call (bufs w) (λ c, EvData c (pf_data frame))
      (λ c, on_peer_data c (pf_data frame)) w eq_refl) as Hc.
    unfold mbind at 1, M_bind at 1. destruct (call _ _ _ _ w) as [[] w1]. simpl in Hc.
    change (consumed_or_dead src n (bufs w) ((if negb (dead_ (conn w1))
      then (_ ← consume_src src n; mret true) else mret false) w1)).
    destruct (dead_ (conn w1)) eqn:Hd; [exact Hd|].
    change (bufs (consume_src src n w1).2 = eat src n (bufs w)). by rewrite consume_src_bufs, Hc.
  - apply (then_alive src n (bufs w) (call cfg_ clk _ _)); [apply same_call|by destruct src].
  - apply (then_alive src n (bufs w) (call cfg_ clk _ _)); [apply same_call|by destruct src].
Qed.

(** ** Parsing leaves nothing behind *)

(** The receiver's limit keeps frame lengths within 32 bits. *)
Hypothesis limit_ok : maxMessageBytes cfg_ + 68 < 2 ^ 32.

Definition decode_in (b : buffer.t) : decode_status :=
  (try_decode_frame (buffer.data b) (maxMessageBytes cfg_) parsed_frame_zero 0).1.1.

(** No complete encrypted record. *)
Definition no_record (b : buffer.t) : Prop :=
  Z.of_nat (buffer.size b) < 4 ∨
  16 <= peek_u32 (buffer.data b) <= maxMessageBytes cfg_ + 64 ∧
  Z.of_nat (buffer.size b) < 4 + peek_u32 (buffer.data b).

Lemma consume_shrinks b n :
  buffer.wf b → (0 < n <= buffer.size b)%nat →
  buffer.wf (buffer.consume b n) ∧ (buffer.size (buffer.consume b n) < buffer.size b)%nat.
Proof.
  intros Hb Hn. split; [apply buffer.consume_wf; [done|lia]|].
  rewrite <- !buffer.length_data, buffer.data_consume by (done || lia).
  rewrite length_drop, buffer.length_data. lia.
Qed.

Lemma decode_shrinks b frame n :
  buffer.wf b →
  try_decode_frame (buffer.data b) (maxMessageBytes cfg_) parsed_frame_zero 0 = (Ok, frame, n) →
  buffer.wf (buffer.consume b (Z.to_nat n)) ∧
  (buffer.size (buffer.consume b (Z.to_nat n)) < buffer.size b)%nat.
Proof.
  intros Hb Hd. apply decode_consumed in Hd as (_ & H1 & _); [|lia].
  rewrite buffer.length_data in H1. apply consume_shrinks; [done|lia].
Qed.

(** What a parsing loop leaves of its buffer. *)
Definition parsed (w : world) (r : bool * world) (buf : world → buffer.t) (done_ : world → Prop)
    : Prop :=
  if r.1 then
    buffer.wf (buf r.2) ∧ (buffer.size (buf r.2) <= buffer.size (buf w))%nat ∧ done_ r.2
  else dead_ (conn r.2) = true.

Lemma parse_plaintext_complete fuel w :
  buffer.wf (in_ (conn w)) → (buffer.size (in_ (conn w)) < fuel)%nat →
  parsed w (parse_plaintext cfg_ self_ clk fuel w) (λ w, in_ (conn w)) (λ w',
    plain_ (conn w') = plain_ (conn w) ∧
    (established_secure (conn w') = true ∨ decode_in (in_ (conn w')) = NeedMore)).
Proof.
  revert w; induction fuel as [|fuel IH]; intros w Hwf Hfuel; [lia|]. cbn [parse_plaintext].
  unfold mbind at 1, M_bind at 1, get at 1.
  destruct (try_decode_frame _ _ _ _) as [[st frame] n] eqn:Hd.
  destruct st.
  - split_and!; try done. right. change (decode_in (in_ (conn w)) = NeedMore).
    unfold decode_in. by rewrite Hd.
  - unfold mbind at 1, M_bind at 1.
    pose proof (dispatch_progress frame n FromIn w) as Hp.
    destruct (dispatch _ _ _ _ _ _ w) as [ok w1]. unfold consumed_or_dead in Hp. simpl in Hp.
    destruct ok; cbn [negb]; [|exact Hp].
    assert (in_ (conn w1) = buffer.consume (in_ (conn w)) (Z.to_nat n) ∧
      plain_ (conn w1) = plain_ (conn w)) as [Hin Hpl] by (by injection Hp).
    destruct (decode_shrinks _ _ _ Hwf Hd) as [Hwf1 Hsz]. rewrite <- Hin in *.
    unfold mbind at 1, M_bind at 1, get at 1.
    destruct (established_secure (conn w1)) eqn:Hes.
    { split_and!; try done; [simpl; lia|by left]. }
    specialize (IH w1 Hwf1 ltac:(lia)). revert IH. unfold parsed. rewrite Hpl.
    destruct (parse_plaintext _ _ _ _ w1) as [[] w2]; simpl; [|done].
    intros (? & ? & ?). split_and!; [done|lia|by naive_solver..].
  - pose proof (reject_dead FromIn 0 (bufs w) ErrProtocol
      (bytes_of_string "malformed/oversized frame") w) as Hr.
    unfold parsed. unfold consumed_or_dead in Hr.
    unfold reject, mbind, M_bind in *. by destruct (fail _ _ _ w).
Qed.

Definition secure_parsed (w : world) (r : unit * world) : Prop :=
  dead_ (conn r.2) = true ∨
  (in_ (conn r.2) = in_ (conn w) ∧ buffer.wf (plain_ (conn r.2)) ∧
   decode_in (plain_ (conn r.2)) = NeedMore).

Lemma parse_secure_complete fuel w :
  buffer.wf (plain_ (conn w)) → (buffer.size (plain_ (conn w)) < fuel)%nat →
  secure_parsed w (parse_secure cfg_ self_ clk fuel w).
Proof.
  revert w; induction fuel as [|fuel IH]; intros w Hwf Hfuel; [lia|].
  cbn [parse_secure]. unfold mbind at 1, M_bind at 1, get at 1.
  destruct (try_decode_frame _ _ _ _) as [[st frame] n] eqn:Hd.
  destruct st.
  - right. split_and!; try done. change (decode_in (plain_ (conn w)) = NeedMore).
    unfold decode_in. by rewrite Hd.
  - unfold mbind at 1, M_bind at 1.
    pose proof (dispatch_progress frame n FromPlain w) as Hp.
    destruct (dispatch _ _ _ _ _ _ w) as [ok w1]. unfold consumed_or_dead in Hp. simpl in Hp.
    destruct ok; cbn [negb]; [|by left].
    assert (in_ (conn w1) = in_ (conn w) ∧
      plain_ (conn w1) = buffer.consume (plain_ (conn w)) (Z.to_nat n)) as [Hin Hpl]
      by (by injection Hp).
    destruct (decode_shrinks _ _ _ Hwf Hd) as [Hwf1 Hsz]. rewrite <- Hpl in *.
    destruct (IH w1 Hwf1 ltac:(lia)) as [|(H1 & H2 & H3)]; [by left|]. right.
    split_and!; [by rewrite H1|done|done].
  - left. apply fail_dead.
Qed.

Lemma drain_records_complete fuel w :
  buffer.wf (in_ (conn w)) → buffer.wf (plain_ (conn w)) → is_Some (sess_ (conn w)) →
  (buffer.size (in_ (conn w)) < fuel)%nat →
  parsed w (drain_records cfg_ fuel w) (λ w, in_ (conn w)) (λ w',
    buffer.wf (plain_ (conn w')) ∧ no_record (in_ (conn w'))).
Proof.
  revert w; induction fuel as [|fuel IH]; intros w Hin Hpl Hss Hfuel; [lia|]. cbn [drain_records].
  unfold mbind at 1, M_bind at 1, get at 1.
  set (clen := peek_u32 _). destruct (_ <? 4) eqn:H4.
  { apply Z.ltb_lt in H4. split_and!; try done. by left. }
  apply Z.ltb_ge in H4.
  destruct ((clen <? 16) || _) eqn:Hbad.
  { pose proof (fail_dead ErrProtocol 0 (bytes_of_string "malformed encrypted record") w) as Hr.
    unfold parsed, reject, mbind, M_bind. by destruct (fail _ _ _ w). }
  apply orb_false_iff in Hbad as [Hlo Hhi]. apply Z.ltb_ge in Hlo, Hhi.
  destruct (_ <? 4 + clen) eqn:Hshort.
  { apply Z.ltb_lt in Hshort. split_and!; try done. right. simpl. fold clen. lia. }
  apply Z.ltb_ge in Hshort. destruct Hss as [s Hs]. rewrite Hs.
  destruct (crypto.open _ s) as [[pt|] s'].
  2:{ unfold parsed, reject, mbind, M_bind. simpl.
      match goal with |- context [fail ?a ?b ?c ?w'] => pose proof (fail_dead a b c w') as Hr;
        by destruct (fail a b c w') end. }
  rewrite wrap_small by (unfold in_range; lia).
  set (w1 := (modify (λ c, set_in (buffer.consume (in_ c) (Z.to_nat (4 + clen))) c)
    (modify (λ c, set_plain (buffer.append (plain_ c) pt) (set_sess (Some s') c)) w).2).2).
  match goal with |- parsed _ ((_ ← _; _ ← _; ?k) _) _ _ => change (parsed w (k w1)
    (λ w, in_ (conn w)) (λ w', buffer.wf (plain_ (conn w')) ∧ no_record (in_ (conn w')))) end.
  destruct (consume_shrinks (in_ (conn w)) (Z.to_nat (4 + clen)) Hin ltac:(lia)) as [Hw1 Hsz].
  specialize (IH w1 Hw1 (buffer.append_wf _ _ Hpl) ltac:(by eexists) ltac:(simpl; lia)).
  revert IH. unfold parsed. destruct (drain_records cfg_ fuel w1) as [[] w2]; simpl; [|done].
  intros (? & ? & ?). split_and!; [done|lia|by naive_solver..].
Qed.

(** *** From the log to the state *)

Lemma phase_not_init log c h :
  EvHandshake c h ∈ log → connection_facts.phase_of log ≠ connection_facts.PInit.
Proof.
  induction log as [|e log IH]; [by intros ?%elem_of_nil|].
  intros [<-|Hin]%elem_of_cons; simpl.
  - by destruct (connection_facts.phase_of log).
  - specialize (IH Hin). by destruct (connection_facts.phase_of log), e.
Qed.

Lemma phase_up log :
  connection_facts.phase_of log = connection_facts.PUp → ∃ c h, EvHandshake c h ∈ log.
Proof.
  induction log as [|e log IH]; simpl; [done|].
  destruct (connection_facts.phase_of log), e; try done;
    try (intros _; destruct IH as (? & ? & ?); [done|]; eexists _, _; by right).
  intros _. eexists _, _. by left.
Qed.

#[local] Abbreviation inv := (connection_facts.inv cfg_ self_).

Lemma established_logged (w : world) :
  inv w → dead_ (conn w) = false → established_secure (conn w) = true →
  ∃ c h, EvHandshake c h ∈ calls w.
Proof.
  intros [] Hd He. apply phase_up. rewrite inv_phase.
  unfold connection_facts.expected_phase. rewrite Hd.
  apply andb_true_iff in He as [_ He]. apply bool_decide_eq_true in He. by rewrite He.
Qed.

Lemma logged_established (w : world) c h :
  inv w → dead_ (conn w) = false → l_secure self_ = true → EvHandshake c h ∈ calls w →
  established_secure (conn w) = true.
Proof.
  intros [] Hd Hsec Hin. apply phase_not_init in Hin. rewrite inv_phase in Hin.
  unfold connection_facts.expected_phase in Hin. rewrite Hd in Hin.
  unfold established_secure. rewrite inv_mode, Hsec. simpl.
  by destruct (state_ (conn w)); simpl in *; try done.
Qed.

(** The secured half of [parse_inbound]. *)
Lemma parse_records_complete w :
  inv w → dead_ (conn w) = false → buffer.wf (in_ (conn w)) → buffer.wf (plain_ (conn w)) →
  established_secure (conn w) = true →
  let w' := ((ok ← drain_records cfg_ (S (buffer.size (in_ (conn w))));
    if negb ok then mret ()
    else c ← get; parse_secure cfg_ self_ clk (S (buffer.size (plain_ c)))) w).2 in
  dead_ (conn w') = true ∨
  (no_record (in_ (conn w')) ∧ decode_in (plain_ (conn w')) = NeedMore ∧
   established_secure (conn w') = true).
Proof.
  intros Hinv Hd Hin Hpl He w'.
  assert (inv w') as Hinv'.
  { subst w'. apply connection_facts.keeps_bind; [apply connection_facts.keeps_drain_records| |done].
    intros []; cbn [negb]; [|apply connection_facts.keeps_ret]. apply connection_facts.keeps_get.
    intros w2 Hw2. by apply connection_facts.keeps_parse_secure. }
  destruct (dead_ (conn w')) eqn:Hdead; [by left|right].
  destruct (established_logged w Hinv Hd He) as (c & h & Hlog).
  pose proof He as He'. apply andb_true_iff in He' as [Hsec Hst]. apply bool_decide_eq_true in Hst.
  assert (is_Some (sess_ (conn w))) as Hs.
  { destruct Hinv. destruct (inv_keyed Hsec ltac:(by right)) as (_ & _ & _ & _ & ?). done. }
  assert (l_secure self_ = true) as Hself by (destruct Hinv; congruence).
  assert (EvHandshake c h ∈ calls w') as Hlog'.
  { subst w'. apply holds_bind; [apply logged_drain_records| |done].
    intros []; cbn [negb]; [|apply holds_ret]. apply holds_bind; [apply holds_get|].
    intros c'. apply logged_parse_secure. }
  pose proof (logged_established w' c h Hinv' Hdead Hself Hlog') as He2.
  pose proof (drain_records_complete (S (buffer.size (in_ (conn w)))) w Hin Hpl Hs ltac:(lia)) as Hdr.
  destruct (drain_records _ _ w) as [ok w1] eqn:Edr.
  assert (w' = if ok then (parse_secure cfg_ self_ clk (S (buffer.size (plain_ (conn w1)))) w1).2
    else w1) as Hw'.
  { subst w'. unfold mbind at 1, M_bind at 1. rewrite Edr. by destruct ok. }
  clearbody w'. subst w'. unfold parsed in Hdr. simpl in Hdr.
  destruct ok; [|congruence]. destruct Hdr as (Hin1 & _ & Hpl1 & Hno).
  pose proof (parse_secure_complete (S (buffer.size (plain_ (conn w1)))) w1 Hpl1 ltac:(lia)) as Hps.
  destruct Hps as [Hps|(Hps1 & _ & Hps2)]; [congruence|]. by rewrite Hps1.
Qed.

(** [parse_inbound] when the records are already encrypted, and otherwise. *)
Definition parse_records (w : world) : unit * world :=
  (ok ← drain_records cfg_ (S (buffer.size (in_ (conn w))));
   if negb ok then mret ()
   else c ← get; parse_secure cfg_ self_ clk (S (buffer.size (plain_ c)))) w.

Lemma parse_inbound_secure w :
  established_secure (conn w) = true → parse_inbound cfg_ self_ clk w = parse_records w.
Proof.
  intros He. unfold parse_inbound, parse_records, mbind at 1 2 4, M_bind at 1 2 4, get at 1 2.
  rewrite He. simpl. unfold mbind at 1, M_bind at 1, get at 1. by rewrite He.
Qed.

Lemma logged_parse_records e (w : world) : e ∈ calls w → e ∈ calls (parse_records w).2.
Proof.
  intros He. unfold parse_records. apply (holds_bind (λ w, e ∈ calls w));
    [apply logged_drain_records| |done].
  intros []; cbn [negb]; [|apply holds_ret]. apply holds_bind; [apply holds_get|].
  intros c. apply logged_parse_secure.
Qed.

Lemma parse_inbound_plain w ok w1 :
  established_secure (conn w) = false →
  parse_plaintext cfg_ self_ clk (S (buffer.size (in_ (conn w)))) w = (ok, w1) →
  parse_inbound cfg_ self_ clk w =
  if ok then if established_secure (conn w1) then parse_records w1 else ((), w1) else ((), w1).
Proof.
  intros He Hp. unfold parse_inbound, mbind at 1, M_bind at 1, get at 1. rewrite He.
  unfold mbind at 1, M_bind at 1. rewrite Hp. destruct ok; [|done]. cbn [negb].
  unfold mbind at 1, M_bind at 1, get at 1. by destruct (established_secure (conn w1)).
Qed.

(** [C31] Parsing leaves no complete frame behind: after the bytes read in one
    cycle have been parsed, either the connection is closed, or what is left in
    the inbound buffer is an incomplete frame (in plaintext), or an incomplete
    record with an incomplete frame decrypted so far (once secured).  Each
    parsing loop ends within one turn per buffered byte, whatever the owner
    does when it is called. *)
Theorem parse_leaves_no_frame w :
  inv w → dead_ (conn w) = false → buffer.wf (in_ (conn w)) → buffer.wf (plain_ (conn w)) →
  let c := conn (parse_inbound cfg_ self_ clk w).2 in
  dead_ c = true ∨
  (if established_secure c then no_record (in_ c) ∧ decode_in (plain_ c) = NeedMore
   else decode_in (in_ c) = NeedMore).
Proof.
  intros Hinv Hd Hin Hpl. destruct (established_secure (conn w)) eqn:He.
  { rewrite (parse_inbound_secure w He).
    destruct (parse_records_complete w Hinv Hd Hin Hpl He) as [|(H1 & H2 & H3)]; [by left|right].
    unfold parse_records. rewrite H3. done. }
  pose proof (parse_plaintext_complete (S (buffer.size (in_ (conn w)))) w Hin ltac:(lia)) as Hp.
  pose proof (connection_facts.keeps_parse_plaintext cfg_ self_ clk
    (S (buffer.size (in_ (conn w)))) w Hinv) as Hinv1.
  destruct (parse_plaintext _ _ _ _ w) as [ok w1] eqn:Ep.
  rewrite (parse_inbound_plain w ok w1 He Ep). unfold parsed in Hp. simpl in Hp, Hinv1.
  destruct ok; [|by left]. destruct Hp as (Hin1 & _ & Hpl1 & Hor).
  destruct (established_secure (conn w1)) eqn:He1.
  - destruct (dead_ (conn w1)) eqn:Hd1.
    { exfalso. destruct Hinv1. apply inv_dead in Hd1. apply andb_true_iff in He1 as [_ He1].
      apply bool_decide_eq_true in He1. congruence. }
    rewrite <- Hpl1 in Hpl.
    destruct (parse_records_complete w1 Hinv1 Hd1 Hin1 Hpl He1) as [|(H1 & H2 & H3)];
      [by left|right]. unfold parse_records. rewrite H3. done.
  - right. simpl. rewrite He1. by destruct Hor.
Qed.

(** ** The outbound queue *)

Definition out_size (w : world) : nat := buffer.size (out_ (conn w)).

Definition bounded (n : nat) (w : world) : Prop :=
  buffer.wf (out_ (conn w)) ∧ (out_size w <= n)%nat.

Section out_bound.

Context (n : nat).
#[local] Abbreviation P := (bounded n).

Lemma bound_modify f : (∀ c, out_ (f c) = out_ c) → holds P (modify f).
Proof. intros Hf w. unfold bounded, out_size. simpl. by rewrite Hf. Qed.
Lemma bound_kernel k : holds P (set_kernel k). Proof. by intros w. Qed.
Lemma bound_owner l : holds P (set_owner l). Proof. by intros w. Qed.
Lemma bound_notify e : holds P (notify e). Proof. by intros w. Qed.
#[local] Hint Resolve bound_kernel bound_owner bound_notify : mm.
#[local] Hint Extern 1 (holds _ (modify _)) =>
  apply bound_modify; let c := fresh in intros c; repeat case_match; done : mm.

Lemma bound_now : holds P (now clk). Proof. unfold now. hold. Qed.
Lemma bound_loop_mod : holds P loop_mod. Proof. unfold loop_mod. hold. Qed.
Lemma bound_set_errno e : holds P (set_errno e). Proof. unfold set_errno. hold. Qed.
#[local] Hint Resolve bound_now bound_loop_mod bound_set_errno : mm.
Lemma bound_mark_dead : holds P mark_dead. Proof. unfold mark_dead. hold. Qed.
Lemma bound_raise e : holds P (raise e). Proof. unfold raise. hold. Qed.
#[local] Hint Resolve bound_mark_dead bound_raise : mm.
Lemma bound_fail cat err what : holds P (fail cat err what). Proof. unfold fail. hold. Qed.
Lemma bound_update_epoll : holds P update_epoll. Proof. unfold update_epoll. hold. Qed.
Lemma bound_seal_frame frame : holds P (seal_frame frame). Proof. unfold seal_frame. hold. Qed.
#[local] Hint Resolve bound_fail bound_update_epoll bound_seal_frame : mm.

Lemma bound_flush_loop script : holds P (flush_loop script).
Proof.
  induction script as [|r script IH]; cbn [flush_loop].
  { hold. }
  intros w [Hwf Hn]. unfold mbind at 1, M_bind at 1, get at 1.
  destruct (buffer.empty _); [by split|]. unfold mbind at 1, M_bind at 1, get_kernel at 1.
  destruct r as [m|e].
  - set (m' := Nat.min m _). destruct (0 <? m')%nat.
    + apply IH. unfold bounded, out_size in *. simpl.
      assert (m' <= buffer.size (out_ (conn w)))%nat as Hm by (subst m'; lia).
      split; [by apply buffer.consume_wf|].
      rewrite <- buffer.length_data, buffer.data_consume by done.
      rewrite length_drop, buffer.length_data. lia.
    + apply (holds_bind P (fail _ _ _)); [apply bound_fail|intros _; apply holds_ret|done].
  - apply (holds_bind P (set_kernel _)); [apply bound_kernel| |done]. intros _.
    destruct (e =? EAGAIN); [apply holds_ret|]. destruct (e =? EINTR); [apply IH|]. hold.
Qed.
#[local] Hint Resolve bound_flush_loop : mm.

Lemma bound_flush_outbound : holds P flush_outbound. Proof. unfold flush_outbound. hold. Qed.
#[local] Hint Resolve bound_flush_outbound : mm.

(** The queue after the frame has been appended is the bound. *)
Lemma bound_finish rec w :
  buffer.wf (out_ (conn w)) → (out_size w + length rec <= n)%nat →
  P ((_ ← append_out rec; t ← now clk; _ ← modify (set_lastSend t); flush_outbound) w).2.
Proof.
  intros Hwf Hn.
  match goal with |- P ((_ ← _; ?k) w).2 => assert (holds P k) as Hk by hold;
    apply (Hk (append_out rec w).2) end.
  unfold bounded, out_size in *. simpl. split; [by apply buffer.append_wf|].
  rewrite <- buffer.length_data, buffer.data_append, length_app, buffer.length_data by done. lia.
Qed.

End out_bound.

Lemma seal_frame_length {Laws : SodiumLaws} frame (w : world) :
  (length (seal_frame frame w).1 <= length frame + 20)%nat ∧
  out_ (conn (seal_frame frame w).2) = out_ (conn w).
Proof.
  unfold seal_frame, mbind, M_bind, get. destruct (sess_ (conn w)) as [s|]; [|split; [simpl; lia|done]].
  rewrite crypto.seal_record. split; [|done]. cbv beta iota. cbn [modify mret M_ret fst].
  unfold crypto.record. rewrite length_app, length_be_bytes, aead_length. lia.
Qed.

(** [C39] The outbound queue is bounded: queueing a frame never takes the queue
    beyond the larger of its length before and [maxOutboundQueueBytes], except
    that under [DropOldest] a single frame larger than the limit is still
    queued, alone (a sealed frame is 20 bytes longer than the plain one). *)
Theorem outbound_bounded {Laws : SodiumLaws} frame (w : world) :
  buffer.wf (out_ (conn w)) →
  let w' := (enqueue cfg_ clk frame w).2 in
  Z.of_nat (out_size w') <=
  Z.max (Z.of_nat (out_size w))
    (Z.max (maxOutboundQueueBytes cfg_)
       (if bool_decide (overflowPolicy cfg_ = DropOldest) then Z.of_nat (length frame) + 20 else 0)).
Proof.
  intros Hwf. unfold enqueue. unfold mbind at 1, M_bind at 1, get at 1.
  destruct (dead_ (conn w)); [simpl; lia|].
  assert (∃ rec w1, (if established_secure (conn w) then seal_frame frame else mret frame) w =
    (rec, w1) ∧ (length rec <= length frame + 20)%nat ∧ out_ (conn w1) = out_ (conn w))
    as (rec & w1 & Hs & Hlen & Ho).
  { destruct (established_secure _); [|exists frame, w; split_and!; [done|lia|done]].
    destruct (seal_frame_length frame w) as [H1 H2].
    destruct (seal_frame frame w) as [rec w1]. by exists rec, w1. }
  unfold mbind at 1, M_bind at 1. rewrite Hs. unfold mbind at 1, M_bind at 1, get at 1.
  assert (out_size w1 = out_size w) as Hsz by (unfold out_size; by rewrite Ho).
  rewrite <- Ho in Hwf. destruct (_ <? _) eqn:Hover.
  2:{ apply Z.ltb_ge in Hover.
      destruct (bound_finish (out_size w1 + length rec) rec w1 Hwf ltac:(lia)) as [_ Hb].
      unfold out_size in *. simpl in *. lia. }
  destruct (overflowPolicy cfg_) eqn:Hpol.
  - destruct (bound_fail (out_size w1) ErrBackpressure 0
      (bytes_of_string "outbound queue overflow") w1 (conj Hwf (le_n _))) as [_ Hb].
    rewrite bool_decide_false by done. lia.
  - rewrite bool_decide_true by done. unfold when.
    destruct (buffer.empty (out_ (conn w1))) eqn:He; cbn [negb].
    + apply Nat.eqb_eq in He.
      destruct (bound_finish (length rec) rec w1 Hwf ltac:(unfold out_size; lia)) as [_ Hb].
      change (Z.of_nat (out_size ((_ ← append_out rec; t ← now clk; _ ← modify (set_lastSend t);
        flush_outbound) w1).2) <= Z.max (Z.of_nat (out_size w)) (Z.max (maxOutboundQueueBytes cfg_)
        (Z.of_nat (length frame) + 20))). lia.
    + set (w2 := (modify (set_out (buffer.consume (out_ (conn w1))
        (buffer.size (out_ (conn w1))))) w1).2).
      assert (out_size w2 = 0%nat) as H0.
      { unfold out_size, w2. simpl. rewrite <- buffer.length_data, buffer.data_consume by done.
        rewrite length_drop, buffer.length_data. lia. }
      destruct (bound_finish (length rec) rec w2 (buffer.consume_wf _ _ Hwf (le_n _))
        ltac:(lia)) as [_ Hb].
      change (Z.of_nat (out_size ((_ ← append_out rec; t ← now clk; _ ← modify (set_lastSend t);
        flush_outbound) w2).2) <= Z.max (Z.of_nat (out_size w)) (Z.max (maxOutboundQueueBytes cfg_)
        (Z.of_nat (length frame) + 20))). lia.
  - rewrite bool_decide_false by done. simpl. unfold out_size in *. simpl. lia.
Qed.

(** Dropping a frame of a secured connection breaks the connection: under
    [DropNewest] a frame that does not fit is sealed before it is dropped, so
    the transmit counter moves on although nothing is queued; the peer still
    expects the old counter. *)
Theorem drop_newest_skips_counter frame s (w : world) :
  dead_ (conn w) = false → established_secure (conn w) = true → sess_ (conn w) = Some s →
  overflowPolicy cfg_ = DropNewest →
  maxOutboundQueueBytes cfg_ < Z.of_nat (out_size w + length (crypto.seal frame s).1) →
  let w' := (enqueue cfg_ clk frame w).2 in
  queued w' = queued w ∧ out_ (conn w') = out_ (conn w) ∧ dead_ (conn w') = false ∧
  sess_ (conn w') = Some (crypto.mk_session (crypto.txKey s) (crypto.rxKey s)
    (crypto.next_ctr (crypto.txCtr s)) (crypto.rxCtr s)).
Proof.
  intros Hd He Hs Hpol Hover. rewrite crypto.seal_record in Hover. cbn [fst] in Hover.
  set (rec := crypto.record _ _ _) in Hover. set (s' := crypto.mk_session _ _ _ _).
  set (w1 := (modify (set_sess (Some s')) w).2).
  assert (seal_frame frame w = (rec, w1)) as Hseal.
  { unfold seal_frame, mbind, M_bind, get. rewrite Hs. by rewrite crypto.seal_record. }
  assert (enqueue cfg_ clk frame w = raise (mk_error ErrBackpressure 0
    (bytes_of_string "dropped outbound (newest)") (Some (peerId_ (conn w1)))) w1) as ->.
  { unfold enqueue. unfold mbind at 1, M_bind at 1, get at 1. rewrite Hd, He.
    unfold mbind at 1, M_bind at 1. rewrite Hseal. unfold mbind at 1, M_bind at 1, get at 1.
    change (out_ (conn w1)) with (out_ (conn w)). unfold out_size in Hover.
    rewrite (proj2 (Z.ltb_lt _ _) Hover). by rewrite Hpol. }
  done.
Qed.

End progress.

(** ** Examples *)

#[local] Existing Instance crypto.toy_sodium.
#[local] Existing Instance crypto.toy_laws.
#[local] Existing Instance connection_facts.echo_owner.

(** Node 1 has received the first 30 bytes of what node 2 sent. *)
Definition sample_partial : world :=
  (modify (λ c, set_in (buffer.append (in_ c) (take 30 (queued connection_facts.sample_two))) c)
     (connection_facts.sample_begin 1)).2.

Lemma sample_partial_inv :
  connection_facts.inv connection_facts.sample_cfg (connection_facts.sample_peer 1) sample_partial.
Proof.
  apply connection_facts.keeps_modify; [by intros c|].
  by apply connection_facts.begin_inv.
Qed.

Lemma parse_leaves_no_frame_witness :
  decode_in connection_facts.sample_cfg (in_ (conn sample_partial)) = NeedMore ∧
  let c := conn (parse_inbound connection_facts.sample_cfg (connection_facts.sample_peer 1)
                   connection_facts.sample_clock sample_partial).2 in
  dead_ c = true ∨
  (if established_secure c
   then no_record connection_facts.sample_cfg (in_ c) ∧
        decode_in connection_facts.sample_cfg (plain_ c) = NeedMore
   else decode_in connection_facts.sample_cfg (in_ c) = NeedMore).
Proof.
  split; [vm_compute; reflexivity|].
  apply (parse_leaves_no_frame connection_facts.sample_cfg (connection_facts.sample_peer 1)
    connection_facts.sample_clock).
  - vm_compute. reflexivity.
  - apply sample_partial_inv.
  - vm_compute. reflexivity.
  - split; vm_compute; lia.
  - split; vm_compute; lia.
Defined.

Lemma outbound_bounded_witness :
  let w := (enqueue connection_facts.sample_cfg connection_facts.sample_clock encode_heartbeat
              (connection_facts.sample_begin 1)).2 in
  Z.of_nat (out_size w) <=
  Z.max (Z.of_nat (out_size (connection_facts.sample_begin 1)))
    (Z.max (maxOutboundQueueBytes connection_facts.sample_cfg)
       (if bool_decide (overflowPolicy connection_facts.sample_cfg = DropOldest)
        then Z.of_nat (length encode_heartbeat) + 20 else 0)).
Proof.
  apply (outbound_bounded connection_facts.sample_cfg connection_facts.sample_clock encode_heartbeat
    (connection_facts.sample_begin 1)).
  split; vm_compute; lia.
Defined.

(** A connection that has just been confirmed, with a queue of ten bytes. *)
Definition tight_cfg : mesh_config :=
  let c := connection_facts.sample_cfg in
  mk_mesh_config (nodeId c) (groupName c) (protocolVersion c) (psk c) (identityFile c)
    (identitySeedHex c) (nodeName c) (trustedKeys c) (requireIdentity c) (multicastAddr c)
    (multicastPort c) (multicastIface c) (announceInterval c) (peerLostTimeout c) (multicastTtl c)
    (listenPort c) (bindAddr c) (heartbeatInterval c) (heartbeatTimeout c) (handshakeTimeout c)
    (reconnectBase c) (reconnectMax c) (initialTtl c) (dedupTtl c) (maxDedupEntries c) (fanout c)
    (membershipInterval c) (membershipTimeout c) 10 DropNewest (maxMessageBytes c) (seedPeers c)
    (staticPeers c).

Definition sample_secured : world :=
  let w := connection_facts.sample_begin 1 in
  mk_world (set_sess (Some crypto.sample_session_a) (set_state Established (conn w))) (kernel w)
    (owner w) (calls w) (queued w) (arrived w).

Lemma drop_newest_skips_counter_witness :
  sess_ (conn (enqueue tight_cfg connection_facts.sample_clock encode_heartbeat sample_secured).2) =
  Some (crypto.mk_session (crypto.sample_key 1) (crypto.sample_key 2) 1 0).
Proof.
  apply (drop_newest_skips_counter tight_cfg connection_facts.sample_clock encode_heartbeat
    crypto.sample_session_a sample_secured); vm_compute; reflexivity.
Defined.

End connection_progress.
