(* ===== verification/Admission.v ===== *)
(** * Who is admitted

    What [src/src/peer_connection.cpp] has checked when the owner is told that a peer
    is up.  The hello and the confirmation are frames that stand in the bytes
    read from the socket, in this order, and the confirmation's tag and
    signature are the ones expected. *)
From Stdlib Require Import ZArith Lia.
From Stdlib.Strings Require Import Byte.
From stdpp Require Import base gmap sets list strings numbers option.
From S2P Require Import Prelude PeerId Buffer Wire WireFacts Config Crypto Identity PeerConnection ConnectionFacts ConnectionProgress.

Module admission.

Import peer_connection connection_facts connection_progress.

Section admission.

Context {Sod : Sodium} {L : Type} {Own : ConnectionListener L}.
Context (cfg_ : mesh_config) (self_ : local_identity) (clk : nat → Z).

#[local] Abbreviation world := (@world L).
#[local] Abbreviation M := (@M L).

(** ** Frames in the bytes read *)

Definition decoded (s : list byte) (f : parsed_frame) (n : Z) : Prop :=
  try_decode_frame s (maxMessageBytes cfg_) parsed_frame_zero 0 = (Ok, f, n).

(** At position [i] of [s] stands the frame [f], [n] bytes long. *)
Definition frame_at (s : list byte) (i : nat) (f : parsed_frame) (n : Z) : Prop := decoded (drop i s) f n.

Definition greets (f : parsed_frame) : Prop := pf_type f = Hello ∨ pf_type f = HelloAck.

Lemma decoded_within s f n : decoded s f n → s ≠ [] ∧ (Z.to_nat n ≤ length s)%nat.
Proof.
  unfold decoded, try_decode_frame. cbv zeta. destruct (Z.ltb_spec (Z.of_nat (length s)) 4); [done|].
  destruct (_ <? 1) eqn:H1; [done|]. destruct (maxMessageBytes cfg_ <? _); [done|].
  destruct (Z.ltb_spec (Z.of_nat (length s)) (4 + peek_u32 s)); [done|].
  destruct (reader.u8 _) as [ty r]. destruct (decode_body _ _) as [m|]; [|done].
  destruct (m r) as [o r']. destruct (reader.bad r'); [done|]. intros [= _ <-].
  apply Z.ltb_ge in H1. split; [intros ->; simpl in *; lia|].
  assert (wrap 32 (4 + peek_u32 s) <= 4 + peek_u32 s); [|lia]. unfold wrap. apply Z.mod_le; lia.
Qed.

Lemma frame_at_app s more i f n : frame_at s i f n → frame_at (s ++ more) i f n.
Proof.
  unfold frame_at. intros H. destruct (decoded_within _ _ _ H) as [Hne _].
  assert (i ≤ length s)%nat as Hi.
  { destruct (le_lt_dec i (length s)); [done|]. by rewrite drop_ge in Hne by lia. }
  rewrite drop_app_le by done. by apply try_decode_frame_app.
Qed.

(** What stands behind a handshake event. *)
Definition vouched (s : list byte) (c : t) (h : hello) : Prop :=
  ∃ i f n, frame_at s i f n ∧ greets f ∧ pf_hello f = h ∧
    (secure_ c = true → ∃ j f' n', (i + Z.to_nat n ≤ j)%nat ∧ frame_at s j f' n' ∧ pf_type f' = AuthConfirm ∧
       crypto.verify_tag (elems (pf_auth_tag f')) (elems (expectedPeerTag_ c)) = true ∧
       check_identity self_ f' c = None).

Lemma vouched_app s more c h : vouched s c h → vouched (s ++ more) c h.
Proof.
  intros (i & f & n & Hf & Hg & Hh & Hs). exists i, f, n. split_and!; [by apply frame_at_app|done..|].
  intros Hsec. destruct (Hs Hsec) as (j & f' & n' & ? & ? & ?). exists j, f', n'.
  split_and!; [done|by apply frame_at_app|naive_solver..].
Qed.

(** ** The invariant *)

(** What is buffered is the end of what was read; nothing is decrypted before
    the handshake is over; the peer's hello, once saved, was read. *)
Record traced (w : world) : Prop := {
  tr_wf : buffer.wf (in_ (conn w));
  tr_in : ∃ pre, arrived w = pre ++ buffer.data (in_ (conn w));
  tr_plain : state_ (conn w) ≠ Established → state_ (conn w) ≠ Dead →
    buffer.data (plain_ (conn w)) = [];
  tr_await : state_ (conn w) = AwaitingConfirm → ∃ i f n, frame_at (arrived w) i f n ∧ greets f ∧
    pf_hello f = peerHello_ (conn w) ∧
    (i + Z.to_nat n + length (buffer.data (in_ (conn w))) ≤ length (arrived w))%nat;
  tr_calls : ∀ c h, EvHandshake c h ∈ calls w → vouched (arrived w) c h;
}.

Lemma traced_modify f : outer f → holds traced (modify f).
Proof.
  intros Hf w []. destruct (Hf (conn w)) as (Hi & Hp & Hh & Hs).
  split; cbn [conn modify snd arrived calls]; rewrite ?Hi, ?Hp, ?Hh; auto.
  - intros H1 H2. apply tr_plain0; by rewrite <-Hs.
  - intros Ha. apply tr_await0. rewrite <-Hs; [done|]. by rewrite Ha.
Qed.

Lemma traced_kernel k : holds traced (set_kernel k). Proof. by intros w []. Qed.
Lemma traced_owner l : holds traced (set_owner l). Proof. by intros w []. Qed.
Lemma traced_append s : holds traced (append_out s). Proof. by intros w []. Qed.

Lemma traced_notify e : (∀ c h, e ≠ EvHandshake c h) → holds traced (notify e).
Proof.
  intros He w []. split; auto. cbn. intros c h [E|?]%elem_of_cons; [by destruct (He c h)|auto].
Qed.

(** The parts of a connection that read nothing. *)
#[local] Ltac outside := first [exact traced_modify | exact traced_kernel | exact traced_owner
  | exact traced_notify | exact traced_append].

Lemma traced_now : holds traced (now clk). Proof. apply keep_now. outside. Qed.
Lemma traced_loop_mod : holds traced loop_mod. Proof. apply keep_loop_mod. outside. Qed.
Lemma traced_set_errno e : holds traced (set_errno e). Proof. apply keep_set_errno. outside. Qed.
Lemma traced_fail cat err what : holds traced (fail cat err what). Proof. apply keep_fail; outside. Qed.
Lemma traced_reject cat what : holds traced (reject cat what). Proof. apply keep_reject; outside. Qed.
Lemma traced_flush : holds traced flush_outbound. Proof. apply keep_flush_outbound; outside. Qed.
Lemma traced_enqueue f : holds traced (enqueue cfg_ clk f). Proof. apply keep_enqueue; outside. Qed.
Lemma traced_close : holds traced (close_gracefully cfg_ clk). Proof. apply keep_close; outside. Qed.
Lemma traced_react r : holds traced (react cfg_ clk r). Proof. apply keep_react; outside. Qed.
Lemma traced_confirm : holds traced (send_auth_confirm clk). Proof. apply keep_send_auth_confirm; outside. Qed.

#[local] Hint Resolve traced_now traced_loop_mod traced_set_errno traced_fail traced_reject traced_flush
  traced_enqueue traced_close traced_react traced_confirm traced_kernel traced_append : mm.
#[local] Hint Extern 1 (holds traced (modify _)) =>
  (apply traced_modify; let c := fresh in intros c; repeat case_match; done) : mm.

Lemma traced_call ev handler : (∀ c c' h, ev c ≠ EvHandshake c' h) → holds traced (call cfg_ clk ev handler).
Proof. intros Hev. apply keep_call; try outside. intros c. by apply traced_notify. Qed.

Lemma traced_alive : holds traced alive. Proof. unfold alive. hold. Qed.

Lemma traced_draw_key : holds traced draw_key. Proof. unfold draw_key. hold. Qed.
#[local] Hint Resolve traced_alive traced_draw_key : mm.

Lemma traced_send_hello : holds traced (send_hello self_ clk).
Proof. unfold send_hello. cbv zeta. hold. Qed.
#[local] Hint Resolve traced_send_hello : mm.

(** ** Parsing *)

Definition buf (src : source) (w : world) : buffer.t :=
  match src with FromIn => in_ (conn w) | FromPlain => plain_ (conn w) end.

(** The frame to dispatch is the first of its buffer. *)
Definition shows (src : source) (f : parsed_frame) (n : Z) (w : world) : Prop :=
  decoded (buffer.data (buf src w)) f n.

Lemma shows_in f n w : traced w → shows FromIn f n w →
  ∃ i, frame_at (arrived w) i f n ∧ (i + length (buffer.data (in_ (conn w))) = length (arrived w))%nat ∧
    (Z.to_nat n ≤ length (buffer.data (in_ (conn w))))%nat.
Proof.
  intros [_ [pre Hpre] _ _ _] Hf. exists (length pre). unfold frame_at. rewrite Hpre, drop_app_length, length_app.
  split_and!; [done|lia|]. by apply (decoded_within _ f n).
Qed.

(** Before the handshake is over frames come from the socket. *)
Lemma shows_early src f n w : traced w → shows src f n w → state_ (conn w) ≠ Established →
  state_ (conn w) ≠ Dead → src = FromIn.
Proof.
  intros Hw Hf H1 H2. destruct src; [done|]. destruct (decoded_within _ _ _ Hf) as [Hne _].
  destruct Hne. by apply tr_plain.
Qed.

Lemma consume_in w k : traced w → (k ≤ length (buffer.data (in_ (conn w))))%nat →
  traced (modify (λ c, set_in (buffer.consume (in_ c) k) c) w).2.
Proof.
  intros [Hwf [pre Hpre] Hp Ha Hc] Hk. rewrite buffer.length_data in Hk.
  split; cbn [conn modify snd arrived calls in_ plain_ state_ peerHello_ set_in]; auto.
  - by apply buffer.consume_wf.
  - rewrite buffer.data_consume by done. exists (pre ++ take k (buffer.data (in_ (conn w)))).
    by rewrite <-(assoc_L (++)), take_drop.
  - intros Hs. destruct (Ha Hs) as (i & f & n & ? & ? & ? & Hl). exists i, f, n.
    split_and!; try done. rewrite buffer.data_consume, length_drop by done. lia.
Qed.

Lemma traced_consume src f n w : traced w → shows src f n w → traced (consume_src src n w).2.
Proof.
  intros Hw Hf. destruct (decoded_within _ _ _ Hf) as [_ Hn].
  destruct src; [by apply consume_in|].
  destruct (decide (state_ (conn w) = Established ∨ state_ (conn w) = Dead)) as [Hs|Hs].
  - destruct Hw. split; cbn; auto; destruct Hs as [Hs|Hs]; by rewrite Hs.
  - by pose proof (shows_early FromPlain f n w Hw Hf ltac:(tauto) ltac:(tauto)).
Qed.

(** The owner is told of a handshake for which there is evidence. *)
Lemma traced_call_up h handler w : traced w → vouched (arrived w) (conn w) h →
  traced (call cfg_ clk (λ c, EvHandshake c h) handler w).2.
Proof.
  intros [] Hv. apply traced_react. split; auto. cbn.
  intros c h' [[= -> ->]|?]%elem_of_cons; auto.
Qed.

Lemma traced_handle_hello f n src w : traced w → shows src f n w → greets f →
  traced (handle_hello cfg_ self_ clk f n src w).2.
Proof.
  intros Hw Hf Hg. unfold handle_hello, mbind at 1, M_bind at 1, get at 1.
  destruct (bool_decide_reflect (state_ (conn w) = Handshaking)) as [Hs|Hs]; cbn [negb].
  2:{ by apply (traced_consume src f n). }
  pose proof (shows_early src f n w Hw Hf ltac:(by rewrite Hs) ltac:(by rewrite Hs)) as ->.
  destruct (shows_in f n w Hw Hf) as (i & Hi & Hlen & Hn).
  destruct (_ || _); [by apply traced_reject|]. destruct (negb (Bool.eqb _ _)); [by apply traced_reject|].
  set (h := pf_hello f).
  set (w1 := (consume_src FromIn n (modify (set_peer (h_nodeId h) (h_tcpListenPort h) (h_nonce h)) w).2).2).
  assert (traced w1) as Hw1.
  { apply (traced_consume FromIn f n); [|exact Hf]. by apply traced_modify. }
  assert (length (buffer.data (in_ (conn w1))) = length (buffer.data (in_ (conn w))) - Z.to_nat n)%nat as Hl1.
  { subst w1. cbn. rewrite buffer.data_consume, length_drop; [done|apply Hw|by rewrite <-buffer.length_data]. }
  match goal with |- traced ((_ ← _; _ ← _; ?k) _).2 => change (traced (k w1).2) end.
  destruct (secure_ (conn w)) eqn:Hsec; cbn [negb].
  - destruct (_ && negb _); [by apply traced_reject|].
    destruct (crypto.do_handshake _ _ _ _) as [hr|]; [|by apply traced_reject].
    apply (holds_bind traced (send_auth_confirm clk)); [apply traced_confirm|intros _; apply traced_alive|].
    destruct Hw1 as [H1 H2 H3 H4 H5]. split; auto.
    + intros _ _. apply H3; cbn; by rewrite Hs.
    + intros _. exists i, f, n. split_and!; [exact Hi|done|done|].
      match goal with |- (_ + length ?a ≤ length ?b)%nat => change (i + Z.to_nat n + length (buffer.data (in_ (conn w1))) ≤ length (arrived w))%nat end.
      lia.
  - apply (holds_after traced (call cfg_ clk _ _)); [|intros _; apply traced_alive].
    apply traced_call_up; [destruct Hw1; by split|]. exists i, f, n. split_and!; [exact Hi|done|done|].
    intros Hns. change (secure_ (conn w) = true) in Hns. congruence.
Qed.

Lemma traced_handle_auth_confirm f n src w : traced w → shows src f n w → pf_type f = AuthConfirm →
  traced (handle_auth_confirm cfg_ self_ clk f n src w).2.
Proof.
  intros Hw Hf Hty. unfold handle_auth_confirm, mbind at 1, M_bind at 1, get at 1.
  destruct (_ || _) eqn:Hst; [by apply traced_reject|].
  apply orb_false_iff in Hst as [_ Hs%negb_false_iff%bool_decide_eq_true].
  pose proof (shows_early src f n w Hw Hf ltac:(by rewrite Hs) ltac:(by rewrite Hs)) as ->.
  destruct (shows_in f n w Hw Hf) as (j & Hj & Hlen & Hn).
  destruct (tr_await w Hw Hs) as (i & f0 & n0 & Hi & Hg & Hh & Hle).
  set (w1 := (consume_src FromIn n w).2).
  assert (traced w1) as Hw1 by (by apply (traced_consume FromIn f n)).
  match goal with |- traced ((_ ← _; ?k) _).2 => change (traced (k w1).2) end.
  destruct (crypto.verify_tag _ _) eqn:Htag; cbn [negb]; [|by apply traced_reject].
  destruct (check_identity self_ f (conn w)) eqn:Hid; [by apply traced_reject|].
  apply (holds_after traced (call cfg_ clk _ _)); [|intros _; apply traced_alive].
  apply traced_call_up; [destruct Hw1; by split|]. exists i, f0, n0. split_and!; [exact Hi|done|exact Hh|].
  intros _. exists j, f, n. split_and!; [lia|exact Hj|done|exact Htag|exact Hid].
Qed.

Lemma traced_dispatch f n src w : traced w → shows src f n w → traced (dispatch cfg_ self_ clk f n src w).2.
Proof.
  intros Hw0 Hf0. unfold dispatch, mbind at 1, M_bind at 1.
  pose proof (traced_now w Hw0) as Hw1. pose proof (same_now clk (bufs w) w eq_refl) as Hb1.
  destruct (now clk w) as [tn w1]. cbn [snd] in *.
  set (w2 := (modify (set_lastRecv tn) w1).2).
  assert (traced w2) as Hw by (by apply traced_modify).
  assert (shows src f n w2) as Hf.
  { unfold shows, buf in *. unfold bufs in Hb1. injection Hb1 as E1 E2. destruct src; subst w2; cbn; congruence. }
  match goal with |- traced ((_ ← _; ?k) _).2 => change (traced (k w2).2) end.
  clearbody w2. clear w w1 Hw0 Hf0 Hw1 Hb1. unfold mbind at 1, M_bind at 1, get at 1.
  destruct (pf_type f) eqn:Hty; try (by apply traced_handle_hello; [..|left]);
    try (by apply traced_handle_hello; [..|right]);
    try (by apply traced_handle_auth_confirm); try (by apply (traced_consume src f n w2));
    try (destruct (negb _); [by apply traced_reject|]).
  - pose proof (same_call cfg_ clk (bufs w2) (λ c, EvData c (pf_data f)) (λ c, on_peer_data c (pf_data f)) w2 eq_refl) as Hb.
    pose proof (traced_call (λ c, EvData c (pf_data f)) (λ c, on_peer_data c (pf_data f)) ltac:(done) w2 Hw) as H3.
    unfold mbind at 1, M_bind at 1. destruct (call _ _ _ _ w2) as [[] w3]. cbn [snd] in *.
    change (traced ((if negb (dead_ (conn w3)) then (_ ← consume_src src n; mret true) else mret false) w3).2).
    destruct (dead_ (conn w3)); [done|]. apply (traced_consume src f n w3); [done|].
    unfold shows, buf in *. unfold bufs in Hb. injection Hb as E1 E2. destruct src; congruence.
  - apply (holds_after traced (consume_src src n)); [by apply (traced_consume src f n)|intros _; apply traced_reject].
  - apply (holds_after traced (consume_src src n)); [by apply (traced_consume src f n)|intros _].
    apply holds_bind; [by apply traced_call|intros _; apply traced_alive].
  - apply (holds_after traced (consume_src src n)); [by apply (traced_consume src f n)|intros _].
    apply holds_bind; [by apply traced_call|intros _; apply traced_alive].
Qed.

Lemma traced_parse_plaintext fuel : holds traced (parse_plaintext cfg_ self_ clk fuel).
Proof.
  induction fuel as [|fuel IH]; cbn [parse_plaintext]; [apply holds_ret|]. intros w Hw.
  unfold mbind at 1, M_bind at 1, get at 1. destruct (try_decode_frame _ _ _ _) as [[[| |] f] n] eqn:Hd;
    [done| |by apply traced_reject].
  apply holds_after; [by apply (traced_dispatch f n FromIn)|]. intros ok. hold.
Qed.

Lemma traced_parse_secure fuel : holds traced (parse_secure cfg_ self_ clk fuel).
Proof.
  induction fuel as [|fuel IH]; cbn [parse_secure]; [apply holds_ret|]. intros w Hw.
  unfold mbind at 1, M_bind at 1, get at 1. destruct (try_decode_frame _ _ _ _) as [[[| |] f] n] eqn:Hd;
    [done| |by apply traced_fail].
  apply holds_after; [by apply (traced_dispatch f n FromPlain)|]. intros ok. hold.
Qed.

Lemma traced_drain_records fuel w : traced w → state_ (conn w) = Established →
  traced (drain_records cfg_ fuel w).2.
Proof.
  revert w; induction fuel as [|fuel IH]; intros w Hw Hs; cbn [drain_records]; [done|].
  unfold mbind at 1, M_bind at 1, get at 1. set (clen := peek_u32 _).
  destruct (_ <? 4); [done|]. destruct ((clen <? 16) || _) eqn:Hb; [by apply traced_reject|].
  apply orb_false_iff in Hb as [Hlo%Z.ltb_ge _].
  destruct (Z.ltb_spec (Z.of_nat (buffer.size (in_ (conn w)))) (4 + clen)) as [|Hsz]; [done|].
  assert (Z.to_nat (wrap 32 (4 + clen)) ≤ buffer.size (in_ (conn w)))%nat as Hle.
  { assert (wrap 32 (4 + clen) <= 4 + clen); [unfold wrap; apply Z.mod_le; lia|lia]. }
  destruct (sess_ (conn w)) as [s|]; [|done]. destruct (crypto.open _ s) as [[pt|] s'].
  - apply IH; [|done]. apply consume_in; [|by rewrite buffer.length_data].
    destruct Hw. split; auto; cbn; intros; congruence.
  - apply (holds_after traced (modify _)); [by apply traced_modify|intros _; apply traced_reject].
Qed.

Lemma traced_parse_inbound : holds traced (parse_inbound cfg_ self_ clk).
Proof.
  intros w Hw. unfold parse_inbound, mbind at 1, M_bind at 1, get at 1.
  apply holds_after; [destruct (established_secure _); [done|by apply traced_parse_plaintext]|].
  intros []; cbn [negb]; [|apply holds_ret]. intros w1 Hw1. unfold mbind at 1, M_bind at 1, get at 1.
  destruct (established_secure (conn w1)) eqn:He; [|done].
  apply andb_true_iff in He as [_ He%bool_decide_eq_true].
  apply holds_after; [by apply traced_drain_records|]. intros []; cbn [negb]; [|apply holds_ret].
  intros w2 Hw2. by apply traced_parse_secure.
Qed.

Lemma traced_append_in s w : traced w → (length s ≤ kReadChunk)%nat → traced (append_in s w).2.
Proof.
  intros [Hwf [pre Hpre] Hp Ha Hc] Hl. unfold append_in. rewrite buffer.read_into_append by done.
  split; cbn [conn snd arrived calls in_ plain_ state_ peerHello_ set_in]; auto.
  - by apply buffer.append_wf.
  - rewrite buffer.data_append by done. exists pre. by rewrite Hpre, <-(assoc_L (++)).
  - intros Hs. destruct (Ha Hs) as (i & f & n & ? & ? & ? & ?). exists i, f, n.
    split_and!; [by apply frame_at_app|done..|]. rewrite buffer.data_append, !length_app by done. lia.
  - intros c h Hin. by apply vouched_app, Hc.
Qed.

Lemma traced_do_read script : holds traced (do_read cfg_ self_ clk script).
Proof.
  induction script as [|[s|e] script IH]; cbn [do_read]; [apply traced_parse_inbound| |].
  - destruct (0 <? _)%nat; [|apply traced_fail]. intros w Hw.
    apply (holds_after traced (append_in _)); [apply traced_append_in; [done|rewrite length_take; lia]|by intros _].
  - apply holds_bind; [apply traced_set_errno|intros _]. destruct (e =? EAGAIN); [apply traced_parse_inbound|].
    destruct (e =? EINTR); [apply IH|apply traced_fail].
Qed.
#[local] Hint Resolve traced_do_read : mm.

Lemma traced_on_connect_complete w : traced w → state_ (conn w) = ConnectingOut →
  traced (on_connect_complete self_ clk w).2.
Proof.
  intros Hw Hs. unfold on_connect_complete, mbind at 1, M_bind at 1, get_kernel at 1.
  destruct (so_error (kernel w)) as [err|]; [|by apply traced_fail].
  destruct (negb _); [by apply traced_fail|].
  apply (holds_after traced (modify _)); [|intros _; hold].
  destruct Hw. split; auto; cbn; [|done]. intros _ _. apply tr_plain0; by rewrite Hs.
Qed.

Lemma traced_on_io_events events script : holds traced (on_io_events cfg_ self_ clk events script).
Proof.
  intros w Hw. unfold on_io_events, mbind at 1, M_bind at 1, get at 1.
  destruct (dead_ (conn w)); [done|]. destruct (has events _); [by apply traced_fail|].
  apply (holds_after traced (when _ _)).
  - case_bool_decide; [|done]. cbn. destruct (has events EPOLLOUT); [|done]. by apply traced_on_connect_complete.
  - intros _. hold.
Qed.

Lemma traced_step o : holds traced (step cfg_ self_ clk o).
Proof.
  destruct o; cbn [step]; [apply traced_on_io_events|..];
    unfold maybe_heartbeat, send_raw, start_connect; hold.
Qed.

Lemma traced_run os w : traced w → traced (run cfg_ self_ clk os w).
Proof. revert w; induction os as [|o os IH]; intros w Hw; simpl; [done|]. by apply IH, traced_step. Qed.

Lemma traced_begin o addr nonce k l : traced (begin self_ clk o addr nonce k l).
Proof.
  assert (∀ c k, in_ c = buffer.empty_buffer → plain_ c = buffer.empty_buffer → state_ c ≠ AwaitingConfirm →
    traced (mk_world c k l [] [] [])) as Hb.
  { intros c k' Hi Hp Hs. split; cbn; rewrite ?Hi, ?Hp; try done; first [by exists (@nil byte)|by apply buffer.wf_empty|by intros c' h Hin; apply elem_of_nil in Hin]. }
  destruct o as [fd added|]; cbn [begin]; [|by apply Hb].
  unfold accepted. apply traced_send_hello. by destruct added; apply Hb.
Qed.

(** ** The property *)

(** What the check of the identity has established when it passes. *)
Lemma check_identity_spec f c : check_identity self_ f c = None → useIdentity_ c = true →
  crypto.id_from_identity (h_idPubKey (peerHello_ c)) = bytes (peerId_ c) ∧ pf_has_auth_sig f = true ∧
  crypto.verify_sig (id_transcript (h_ephPubKey (peerHello_ c)) (crypto.eph_pk (ephKeys_ c))
    (h_nodeName (peerHello_ c))) (pf_auth_sig f) (h_idPubKey (peerHello_ c)) = true ∧
  (l_trustedKeys self_ = [] ∨ h_idPubKey (peerHello_ c) ∈ l_trustedKeys self_).
Proof.
  unfold check_identity. intros Hid Huse. rewrite Huse in Hid. cbn [negb] in Hid.
  destruct (pf_has_auth_sig f); [|done]. cbn [negb] in Hid.
  destruct (memcmp _ _) eqn:Hmem; [|done|done]. apply memcmp_eq in Hmem; [|by rewrite !length_elems].
  destruct (crypto.verify_sig _ _ _) eqn:Hsig; [|done]. cbn [negb] in Hid.
  split_and!; [by apply array_eq|done|done|].
  case_bool_decide as Htr; [by left|]. right. cbn [negb andb] in Hid.
  destruct (existsb _ _) eqn:Hex; [|done]. apply existsb_exists in Hex as (key & Hin & Heq).
  apply bool_decide_eq_true in Heq as ->. by apply list_elem_of_In.
Qed.

(** [C10] Only authenticated peers are admitted.  Whenever the owner is told
    that a peer is up, the bytes read from the socket so far contain a hello of
    this node's protocol version, group name and security mode, and it is that
    hello the owner is told of.  In a secured mesh a confirmation follows it in
    these bytes, whose tag is the one computed from the group key and both
    ephemeral keys; and if this node has an identity and requires one, the
    peer's identifier is the hash of its public key, the confirmation carries
    its signature of this connection's ephemeral keys and of its name, and the
    key is on the allowlist if there is one. *)
Theorem only_authenticated_admitted `{!SodiumLaws} o addr nonce k l os c h :
  sent k = [] →
  let w := run cfg_ self_ clk os (begin self_ clk o addr nonce k l) in
  EvHandshake c h ∈ calls w →
  h_protocolVersion h = l_protocolVersion self_ ∧ h_groupName h = l_groupName self_ ∧
  h_secure h = secure_ c ∧ h_nodeId h = peerId_ c ∧ secure_ c = l_secure self_ ∧
  ∃ i f n, frame_at (arrived w) i f n ∧ greets f ∧ pf_hello f = h ∧
  (secure_ c = true → ∃ hr j f' n',
     crypto.do_handshake (ephKeys_ c) (h_ephPubKey h) (l_groupKey self_) (l_groupName self_) = Some hr ∧
     (i + Z.to_nat n ≤ j)%nat ∧ frame_at (arrived w) j f' n' ∧ pf_type f' = AuthConfirm ∧
     pf_auth_tag f' = crypto.expectedPeerTag hr ∧
     (l_hasIdentity self_ = true → requireIdentity cfg_ = true →
        h_hasIdentity h = true ∧
        crypto.id_from_identity (h_idPubKey h) = bytes (h_nodeId h) ∧ pf_has_auth_sig f' = true ∧
        crypto.verify_sig (id_transcript (h_ephPubKey h) (crypto.eph_pk (ephKeys_ c)) (h_nodeName h))
          (pf_auth_sig f') (h_idPubKey h) = true ∧
        (l_trustedKeys self_ = [] ∨ h_idPubKey h ∈ l_trustedKeys self_))).
Proof.
  intros Hk w Hin.
  pose proof (run_inv cfg_ self_ clk os _ (begin_inv cfg_ self_ clk o addr nonce k l Hk)) as Hinv.
  destruct (inv_admitted cfg_ self_ w Hinv c h Hin) as [(H1 & H2 & H3 & H4) [Hmode Hsec]].
  destruct (tr_calls w (traced_run os _ (traced_begin o addr nonce k l)) c h Hin) as (i & f & n & Hf & Hg & Hh & Hc).
  split_and!; try done. exists i, f, n. split_and!; [done..|]. intros Hs.
  destruct (Hsec Hs) as (-> & Hkey & _). destruct (Hc Hs) as (j & f' & n' & Hij & Hf' & Hty & Htag & Hid).
  destruct Hkey as (Hm & (hr & Hhr & Hexp & _) & Huse & Hreq & _).
  apply crypto.verify_tag_spec in Htag. exists hr, j, f', n'. split_and!; [done..|congruence|].
  intros Hhas Hrq. rewrite Hhas, Hrq in Hreq. specialize (Hreq eq_refl).
  rewrite Hhas, Hreq in Huse. split; [done|]. rewrite H4. by apply check_identity_spec.
Qed.

End admission.

(** Node 1 admits node 2 (the sample of ConnectionFacts.v); node 2's hello stands
    at the beginning of what node 1 has read, and its confirmation behind it. *)
#[local] Existing Instance crypto.toy_sodium.
#[local] Existing Instance crypto.toy_laws.
#[local] Existing Instance echo_owner.

#[local] Abbreviation sample_one :=
  (run sample_cfg (sample_peer 1) sample_clock sample_ops
    (begin (sample_peer 1) sample_clock (Accepted 5 true) (1, 2) 1 (sample_os 1) 0%nat)).

Lemma only_authenticated_admitted_witness :
  match latest_handshake (calls sample_one) with
  | Some (c, h) => secure_ c = true ∧ crypto.id_from_identity (h_idPubKey h) = bytes (h_nodeId h) ∧
      ∃ i f n j f' n', (i + Z.to_nat n ≤ j)%nat ∧ frame_at sample_cfg (arrived sample_one) i f n ∧ pf_hello f = h ∧
        frame_at sample_cfg (arrived sample_one) j f' n' ∧ pf_type f' = AuthConfirm
  | None => False
  end.
Proof.
  assert (option_map (λ x, secure_ x.1) (latest_handshake (calls sample_one)) = Some true) as Hx
    by (vm_compute; reflexivity).
  destruct (latest_handshake (calls sample_one)) as [[c h]|] eqn:He; [|discriminate Hx].
  assert (secure_ c = true) as Hs by (injection Hx; done).
  apply latest_handshake_in in He.
  destruct (only_authenticated_admitted sample_cfg (sample_peer 1) sample_clock (Accepted 5 true)
    (1, 2) 1 (sample_os 1) 0%nat sample_ops c h) as (_ & _ & _ & _ & _ & i & f & n & Hf & _ & Hh & Hsec).
  - reflexivity.
  - exact He.
  - destruct (Hsec Hs) as (hr & j & f' & n' & _ & Hij & Hf' & Hty & _ & Hid).
    destruct Hid as (_ & Hid & _); [reflexivity|reflexivity|].
    split_and!; [exact Hs|exact Hid|]. exists i, f, n, j, f', n'. split_and!; [exact Hij|exact Hf|exact Hh|exact Hf'|exact Hty].
Defined.

End admission.
