(* ===== verification/Handshake.v ===== *)
(** * Two honest ends complete the secured handshake

    The two state machines of [src/src/peer_connection.cpp] against each other:
    each end reads the other's hello, answers with its confirmation, verifies
    the other's, and tells its owner; the sessions of both ends are mirrored.
    The kernel may write the frames in any number of pieces. *)
From Stdlib Require Import ZArith Lia.
From Stdlib.Strings Require Import Byte.
From stdpp Require Import base gmap sets list strings numbers option.
From S2P Require Import Prelude PeerId Buffer Wire WireFacts Config Crypto Identity PeerConnection ConnectionFacts ConnectionProgress.

Module handshake.
Import peer_connection.

(** The hello a node sends with nonce [nonce] and ephemeral key pair [eph]. *)
Definition own_hello (s : local_identity) (nonce : Z) (eph : crypto.ephemeral_keypair) : hello :=
  mk_hello (l_nodeId s) (l_protocolVersion s) (l_listenPort s) (l_groupName s) nonce true
    (crypto.eph_pk eph) (l_hasIdentity s)
    (if l_hasIdentity s then crypto.id_pk (l_idKeys s) else zero_array 32)
    (if l_hasIdentity s then l_nodeName s else []).

(** Results of [send] that do not end the connection. *)
Definition harmless (r : send_result) : Prop :=
  match r with SendOk n => (0 < n)%nat | SendErr e => e = EAGAIN ∨ e = EINTR end.

Definition benign (k : os) : Prop := Forall harmless (sends k).

(** The fields writing may touch are blanked out. *)
Definition core (c : t) : t :=
  set_out buffer.empty_buffer (set_wantWrite false (set_lastSend 0 c)).

Section one_end.

Context {Sod : Sodium} {L : Type} {Own : ConnectionListener L}.
Context (cfg_ : mesh_config) (self_ : local_identity) (clk : nat → Z).

#[local] Abbreviation world := (@world L).
#[local] Abbreviation M := (@M L).

(** ** Writing succeeds *)

(** [w'] differs from [w] only in what writing touches. *)
Definition only_wrote (w w' : world) : Prop :=
  core (conn w') = core (conn w) ∧ owner w' = owner w ∧ calls w' = calls w ∧
  queued w' = queued w ∧ benign (kernel w').

Lemma only_wrote_refl w : benign (kernel w) → only_wrote w w.
Proof. by repeat split. Qed.

Lemma only_wrote_trans w1 w2 w3 : only_wrote w1 w2 → only_wrote w2 w3 → only_wrote w1 w3.
Proof. intros (?&?&?&?&?) (?&?&?&?&?). repeat split; congruence. Qed.

Lemma flush_loop_benign script w :
  Forall harmless script → benign (kernel w) →
  ∃ w', flush_loop script w = (true, w') ∧ only_wrote w w'.
Proof.
  revert w; induction script as [|r script IH]; intros w Hs Hk; cbn [flush_loop];
    unfold mbind at 1, M_bind at 1, get at 1;
    destruct (buffer.empty _) eqn:He; try (by eexists; split; [|apply only_wrote_refl]).
  { by eexists; split. }
  apply list.Forall_cons in Hs as [Hr Hs].
  unfold mbind at 1, M_bind at 1, get_kernel at 1. destruct r as [n|e].
  - simpl in Hr. apply Nat.eqb_neq in He. rewrite (proj2 (Nat.ltb_lt _ _)) by lia.
    set (n' := Nat.min n _).
    set (w1 := (modify (set_out (buffer.consume (out_ (conn w)) n')) (set_kernel (mk_os script
      (mods (kernel w)) (entropy (kernel w)) (so_error (kernel w)) (readings (kernel w))
      (errno (kernel w)) (sent (kernel w) ++ take n' (buffer.data (out_ (conn w))))) w).2).2).
    destruct (IH w1 Hs Hs) as (w' & Hw' & Ho). exists w'. split; [exact Hw'|].
    by apply (only_wrote_trans w w1 w').
  - set (w1 := (set_kernel (mk_os script (mods (kernel w)) (entropy (kernel w)) (so_error (kernel w))
      (readings (kernel w)) e (sent (kernel w))) w).2).
    assert (only_wrote w w1) as H1 by done.
    destruct Hr as [-> | ->]; [by exists w1|].
    destruct (IH w1 Hs Hs) as (w' & Hw' & Ho). exists w'. split; [exact Hw'|].
    by apply (only_wrote_trans w w1 w').
Qed.

Lemma update_epoll_only w : benign (kernel w) → only_wrote w (update_epoll w).2.
Proof.
  intros Hk. unfold update_epoll, mbind at 1, M_bind at 1, get at 1.
  destruct (_ || negb _); [by apply only_wrote_refl|].
  destruct (Bool.eqb _ _); [by apply only_wrote_refl|].
  unfold loop_mod, mbind, M_bind, get_kernel. destruct (mods (kernel w)) as [|ok l]; simpl; [done|].
  by destruct ok.
Qed.

Lemma flush_outbound_benign w : benign (kernel w) → only_wrote w (flush_outbound w).2.
Proof.
  intros Hk. unfold flush_outbound, mbind, M_bind, get_kernel.
  destruct (flush_loop_benign (sends (kernel w)) w Hk Hk) as (w1 & -> & H1). simpl.
  apply (only_wrote_trans w w1); [done|]. apply update_epoll_only. apply H1.
Qed.

(** Queueing a frame of the handshake. *)
Lemma send_frame_benign frame w :
  benign (kernel w) →
  let w' := ((_ ← append_out frame; t ← now clk; _ ← modify (set_lastSend t); flush_outbound) w).2 in
  core (conn w') = core (conn w) ∧ owner w' = owner w ∧ calls w' = calls w ∧
  queued w' = queued w ++ frame ∧ benign (kernel w').
Proof.
  intros Hk w'.
  set (w1 := (append_out frame w).2). set (w2 := (now clk w1).2).
  set (w3 := (modify (set_lastSend (now clk w1).1) w2).2).
  change w' with (flush_outbound w3).2.
  destruct (flush_outbound_benign w3 Hk) as (-> & -> & -> & -> & H5). done.
Qed.

(** ** The first message *)

(** Ready: the hello is queued and nothing has been received. *)
Record ready (sk : key32) (nonce : Z) (w : world) : Prop := {
  rd_state : state_ (conn w) = Handshaking;
  rd_dead : dead_ (conn w) = false;
  rd_secure : secure_ (conn w) = true;
  rd_wf : buffer.wf (in_ (conn w));
  rd_in : buffer.data (in_ (conn w)) = [];
  rd_eph : ephKeys_ (conn w) = crypto.gen_ephemeral sk;
  rd_queued : queued w =
    encode (MsgHello (inbound_ (conn w)) (own_hello self_ nonce (crypto.gen_ephemeral sk)));
  rd_kernel : benign (kernel w);
}.

(** Everything received has been parsed. *)
Definition idle (w : world) : Prop :=
  buffer.wf (in_ (conn w)) ∧ buffer.data (in_ (conn w)) = [].

(** Waiting for the confirmation of the peer whose hello was [h]. *)
Record awaiting (sk : key32) (h : hello) (hr : crypto.handshake_result) (w : world) : Prop := {
  aw_state : state_ (conn w) = AwaitingConfirm;
  aw_dead : dead_ (conn w) = false;
  aw_secure : secure_ (conn w) = true;
  aw_eph : ephKeys_ (conn w) = crypto.gen_ephemeral sk;
  aw_peer : peerId_ (conn w) = h_nodeId h;
  aw_hello : peerHello_ (conn w) = h;
  aw_sess : sess_ (conn w) = Some (crypto.session hr);
  aw_tag : expectedPeerTag_ (conn w) = crypto.expectedPeerTag hr;
  aw_use : useIdentity_ (conn w) = l_hasIdentity self_ && h_hasIdentity h;
  aw_kernel : benign (kernel w);
}.

(** The confirmation this end sends to a peer whose hello was [h]. *)
Definition own_confirm (sk : key32) (h : hello) (hr : crypto.handshake_result) (old : id_sig)
    : message :=
  let use := l_hasIdentity self_ && h_hasIdentity h in
  MsgAuthConfirm (crypto.myConfirmTag hr) use
    (if use then crypto.sign (id_transcript (box_pk sk) (h_ephPubKey h) (l_nodeName self_))
       (crypto.id_sk (l_idKeys self_)) else old).

(** ** Receiving a message *)

Definition deliverable (m : message) : Prop :=
  message_ok m ∧ fits (maxMessageBytes cfg_) m ∧ (length (encode m) <= kReadChunk)%nat.

(** The world in which the bytes of [m] have been read. *)
Definition filled (m : message) (w : world) : world :=
  mk_world (set_in (buffer.append (in_ (conn w)) (encode m)) (conn w)) (kernel w) (owner w) (calls w)
    (queued w) (arrived w ++ encode m).

Lemma do_read_one m w :
  deliverable m → do_read cfg_ self_ clk [RecvData (encode m)] w = parse_inbound cfg_ self_ clk (filled m w).
Proof.
  intros (_ & _ & Hlen). cbn [do_read]. rewrite take_ge by lia.
  rewrite (proj2 (Nat.ltb_lt _ _)) by (rewrite length_encode; lia).
  unfold mbind, M_bind, append_in, filled. by rewrite buffer.read_into_append.
Qed.

Lemma parse_turn fuel m w :
  deliverable m → buffer.data (in_ (conn w)) = encode m →
  parse_plaintext cfg_ self_ clk (S fuel) w =
  let '(ok, w1) := dispatch cfg_ self_ clk (received parsed_frame_zero m)
    (Z.of_nat (length (encode m))) FromIn w in
  if negb ok then (false, w1)
  else if established_secure (conn w1) then (true, w1)
  else parse_plaintext cfg_ self_ clk fuel w1.
Proof.
  intros (Hok & Hfit & _) Hin. cbn [parse_plaintext]. unfold mbind at 1, M_bind at 1, get at 1.
  pose proof (decode_encode m [] (maxMessageBytes cfg_) parsed_frame_zero 0 Hok Hfit) as Hd.
  rewrite app_nil_r in Hd. rewrite Hin, Hd. unfold mbind at 1, M_bind at 1.
  destruct (dispatch _ _ _ _ _ _ w) as [[] w1]; [|done]. cbn [negb].
  unfold mbind at 1, M_bind at 1, get at 1. by destruct (established_secure _).
Qed.

Lemma parse_empty fuel w :
  buffer.data (in_ (conn w)) = [] → parse_plaintext cfg_ self_ clk (S fuel) w = (true, w).
Proof.
  intros Hin. cbn [parse_plaintext]. unfold mbind at 1, M_bind at 1, get at 1. by rewrite Hin.
Qed.

Lemma filled_in m w :
  buffer.wf (in_ (conn w)) → buffer.data (in_ (conn w)) = [] →
  buffer.wf (in_ (conn (filled m w))) ∧ buffer.data (in_ (conn (filled m w))) = encode m ∧
  buffer.size (in_ (conn (filled m w))) = length (encode m).
Proof.
  intros Hwf Hin. unfold filled. simpl. split_and!.
  - by apply buffer.append_wf.
  - by rewrite buffer.data_append, Hin.
  - rewrite <- buffer.length_data. by rewrite buffer.data_append, Hin.
Qed.

(** Consuming all there is empties the buffer. *)
Lemma consume_all b n :
  buffer.wf b → length (buffer.data b) = n →
  buffer.wf (buffer.consume b n) ∧ buffer.data (buffer.consume b n) = [].
Proof.
  intros Hwf Hn. rewrite buffer.length_data in Hn. split; [apply buffer.consume_wf; [done|lia]|].
  rewrite buffer.data_consume by (done || lia). apply drop_ge. rewrite buffer.length_data. lia.
Qed.

(** The peer's hello fits this node's configuration. *)
Definition welcome (h : hello) : Prop :=
  h_protocolVersion h = l_protocolVersion self_ ∧ h_groupName h = l_groupName self_ ∧
  h_secure h = true ∧ wire_hello hello_zero h = h ∧
  (l_hasIdentity self_ && requireIdentity cfg_ && negb (h_hasIdentity h) = false).

(** [lastRecv_ = clock::now()]. *)
Definition touched (w : world) : world :=
  (modify (set_lastRecv (now clk w).1) (now clk w).2).2.

Lemma dispatch_is_hello frame n src w :
  pf_type frame = Hello ∨ pf_type frame = HelloAck →
  dispatch cfg_ self_ clk frame n src w = handle_hello cfg_ self_ clk frame n src (touched w).
Proof. intros Hty. unfold dispatch, mbind, M_bind. by destruct Hty as [-> | ->]. Qed.

Lemma dispatch_is_confirm frame n src w :
  pf_type frame = AuthConfirm →
  dispatch cfg_ self_ clk frame n src w = handle_auth_confirm cfg_ self_ clk frame n src (touched w).
Proof. intros Hty. unfold dispatch, mbind, M_bind. by rewrite Hty. Qed.

Lemma handle_hello_accepts sk frame n h hr w :
  pf_hello frame = h →
  state_ (conn w) = Handshaking → dead_ (conn w) = false → secure_ (conn w) = true →
  ephKeys_ (conn w) = crypto.gen_ephemeral sk → benign (kernel w) → buffer.wf (in_ (conn w)) →
  Z.of_nat (length (buffer.data (in_ (conn w)))) = n → welcome h →
  crypto.do_handshake (crypto.gen_ephemeral sk) (h_ephPubKey h) (l_groupKey self_)
    (l_groupName self_) = Some hr →
  ∃ w', handle_hello cfg_ self_ clk frame n FromIn w = (true, w') ∧
    awaiting sk h hr w' ∧ idle w' ∧ calls w' = calls w ∧
    queued w' = queued w ++ encode (own_confirm sk h hr (myIdSig_ (conn w))).
Proof.
  intros Hh Hs Hd Hsec Heph Hk Hwf Hn (Hv & Hg & Hm & _ & Hreq) Hhr.
  unfold handle_hello. unfold mbind at 1, M_bind at 1, get at 1.
  rewrite bool_decide_true by done. rewrite Hh, Hv, Hg, Hm, Hsec, Z.eqb_refl.
  rewrite bool_decide_true by done. cbn [negb orb Bool.eqb]. rewrite Heph, Hreq, Hhr.
  set (w1 := (consume_src FromIn n (modify (set_peer (h_nodeId h) (h_tcpListenPort h) (h_nonce h)) w).2).2).
  set (w2 := mk_world (connection_facts.keyed_conn self_ h hr (conn w1)) (kernel w1) (owner w1)
    (calls w1) (queued w1) (arrived w1)).
  pose proof (send_frame_benign (encode_auth_confirm (myConfirmTag_ (conn w2))
    (useIdentity_ (conn w2)) (myIdSig_ (conn w2))) w2 Hk) as (Hc & Ho & Hca & Hq & Hb).
  match goal with |- ∃ w', ?p = (true, w') ∧ _ =>
    change p with ((_ ← send_auth_confirm clk; alive) w2) end.
  set (w3 := (send_auth_confirm clk w2).2) in *.
  change ((_ ← append_out (encode_auth_confirm (myConfirmTag_ (conn w2))
    (useIdentity_ (conn w2)) (myIdSig_ (conn w2))); t ← now clk; _ ← modify (set_lastSend t);
    flush_outbound) w2).2 with w3 in *.
  assert (∀ {A} (f : t → A), f (core (conn w3)) = f (core (conn w2))) as Hf
    by (intros A f; by rewrite Hc).
  destruct (consume_all (in_ (conn w)) (Z.to_nat n) Hwf ltac:(lia)) as [Hwf' Hin'].
  exists w3. split_and!.
  - assert ((_ ← send_auth_confirm clk; alive) w2 = (negb (dead_ (conn w3)), w3)) as ->.
    { subst w3. unfold mbind at 1, M_bind at 1. by destruct (send_auth_confirm clk w2) as [[] w']. }
    change (dead_ (conn w3)) with (dead_ (core (conn w3))). rewrite (Hf _ dead_). simpl. by rewrite Hd.
  - split.
    + exact (Hf _ state_).
    + change (dead_ (core (conn w3)) = false). by rewrite (Hf _ dead_).
    + change (secure_ (core (conn w3)) = true). by rewrite (Hf _ secure_).
    + change (ephKeys_ (core (conn w3)) = crypto.gen_ephemeral sk). by rewrite (Hf _ ephKeys_).
    + change (peerId_ (core (conn w3)) = h_nodeId h). by rewrite (Hf _ peerId_).
    + change (peerHello_ (core (conn w3)) = h). by rewrite (Hf _ peerHello_).
    + change (sess_ (core (conn w3)) = Some (crypto.session hr)). by rewrite (Hf _ sess_).
    + change (expectedPeerTag_ (core (conn w3)) = crypto.expectedPeerTag hr). by rewrite (Hf _ expectedPeerTag_).
    + change (useIdentity_ (core (conn w3)) = l_hasIdentity self_ && h_hasIdentity h). by rewrite (Hf _ useIdentity_).
    + done.
  - unfold idle. change (in_ (conn w3)) with (in_ (core (conn w3))). by rewrite (Hf _ in_).
  - by rewrite Hca.
  - rewrite Hq. unfold own_confirm, encode. simpl. by rewrite Heph.
Qed.

Lemma receive_hello sk nonce ack h hr w :
  ready sk nonce w → welcome h → deliverable (MsgHello ack h) →
  crypto.do_handshake (crypto.gen_ephemeral sk) (h_ephPubKey h) (l_groupKey self_)
    (l_groupName self_) = Some hr →
  let w' := (do_read cfg_ self_ clk [RecvData (encode (MsgHello ack h))] w).2 in
  awaiting sk h hr w' ∧ idle w' ∧ calls w' = calls w ∧
  queued w' = queued w ++ encode (own_confirm sk h hr (myIdSig_ (conn w))).
Proof.
  intros [] Hw Hdel Hhr. rewrite (do_read_one _ w Hdel).
  set (m := MsgHello ack h) in *.
  destruct (filled_in m w rd_wf0 rd_in0) as (Hwf & Hin & Hsz).
  set (w0 := filled m w) in *.
  destruct (handle_hello_accepts sk (received parsed_frame_zero m) (Z.of_nat (length (encode m))) h hr
    (touched w0)) as (w' & Hh & Haw & Hidle & Hc & Hq); try done.
  { destruct Hw as (_ & _ & _ & Hw & _). exact Hw. }
  { change (in_ (conn (touched w0))) with (in_ (conn w0)). by rewrite Hin. }
  assert (parse_plaintext cfg_ self_ clk (S (buffer.size (in_ (conn w0)))) w0 = (true, w')) as Hp.
  { rewrite (parse_turn _ m w0 Hdel Hin), dispatch_is_hello by (destruct ack; auto).
    rewrite Hh. cbn [negb].
    assert (established_secure (conn w') = false) as ->.
    { unfold established_secure. rewrite (aw_state _ _ _ _ Haw). by rewrite andb_false_r. }
    rewrite Hsz, length_encode. apply parse_empty, Hidle. }
  assert (established_secure (conn w0) = false) as He.
  { unfold established_secure. change (state_ (conn w0)) with (state_ (conn w)).
    rewrite rd_state0. by rewrite andb_false_r. }
  rewrite (connection_progress.parse_inbound_plain cfg_ self_ clk w0 true w' He Hp).
  assert (established_secure (conn w') = false) as ->.
  { unfold established_secure. rewrite (aw_state _ _ _ _ Haw). by rewrite andb_false_r. }
  done.
Qed.

(** ** The confirmation *)

(** What the confirmation of a peer whose hello was [h] has to satisfy. *)
Definition convincing (sk : key32) (h : hello) (hasSig : bool) (sig : id_sig) : Prop :=
  l_hasIdentity self_ && h_hasIdentity h = true →
  hasSig = true ∧ crypto.id_from_identity (h_idPubKey h) = bytes (h_nodeId h) ∧
  crypto.verify_sig (id_transcript (h_ephPubKey h) (box_pk sk) (h_nodeName h)) sig (h_idPubKey h)
    = true ∧
  (l_trustedKeys self_ = [] ∨ h_idPubKey h ∈ l_trustedKeys self_).

Lemma check_identity_passes sk h hr frame w :
  awaiting sk h hr w → convincing sk h (pf_has_auth_sig frame) (pf_auth_sig frame) →
  check_identity self_ frame (conn w) = None.
Proof.
  intros [] Hconv. unfold check_identity. rewrite aw_use0, aw_hello0, aw_peer0, aw_eph0.
  destruct (l_hasIdentity self_ && h_hasIdentity h) eqn:Huse; [|done]. cbn [negb].
  destruct (Hconv Huse) as (-> & Hid & Hsig & Htr). cbn [negb].
  rewrite Hid, memcmp_refl. simpl. rewrite Hsig. cbn [negb].
  destruct Htr as [Htr|Htr]; [by rewrite bool_decide_true|].
  destruct (existsb _ _) eqn:Hex; [by rewrite andb_false_r|].
  exfalso. apply not_true_iff_false in Hex. apply Hex, existsb_exists.
  exists (h_idPubKey h). split; [by apply list_elem_of_In|]. by apply bool_decide_eq_true.
Qed.

Lemma handle_confirm_admits {Laws : SodiumLaws} sk h hr frame n w :
  awaiting sk h hr w → pf_auth_tag frame = crypto.expectedPeerTag hr →
  convincing sk h (pf_has_auth_sig frame) (pf_auth_sig frame) →
  ∃ c, EvHandshake c h ∈ calls (handle_auth_confirm cfg_ self_ clk frame n FromIn w).2 ∧
    sess_ c = Some (crypto.session hr) ∧ peerId_ c = h_nodeId h.
Proof.
  intros Haw Htag Hconv. pose proof (check_identity_passes sk h hr frame w Haw Hconv) as Hid.
  destruct Haw. unfold handle_auth_confirm. unfold mbind at 1, M_bind at 1, get at 1.
  rewrite aw_secure0, bool_decide_true by done. cbn [negb orb].
  set (w1 := (consume_src FromIn n w).2).
  set (w2 := (modify (set_state Established) w1).2).
  rewrite (proj2 (crypto.verify_tag_spec _ _)) by congruence. rewrite Hid. cbn [negb].
  match goal with |- ∃ c, _ ∈ calls ?p.2 ∧ _ => change p with ((_ ← call cfg_ clk
    (λ c, EvHandshake c (peerHello_ c)) (λ c', on_peer_handshake c' (peerHello_ (conn w2))); alive) w2)
    end.
  exists (conn w2). split_and!; [|done|done].
  apply (connection_progress.holds_after (λ w, EvHandshake (conn w2) h ∈ calls w));
    [|intros _; apply connection_progress.logged_alive].
  apply connection_progress.logged_by_call. by simpl; f_equal.
Qed.

Lemma receive_confirm {Laws : SodiumLaws} sk h hr hasSig sig w :
  let m := MsgAuthConfirm (crypto.expectedPeerTag hr) hasSig sig in
  awaiting sk h hr w → idle w → deliverable m →
  convincing sk h hasSig (if hasSig then sig else zero_array 64) →
  ∃ c, EvHandshake c h ∈ calls (do_read cfg_ self_ clk [RecvData (encode m)] w).2 ∧
    sess_ c = Some (crypto.session hr) ∧ peerId_ c = h_nodeId h.
Proof.
  intros m Haw [Hiw Hii] Hdel Hconv. rewrite (do_read_one _ w Hdel).
  destruct (filled_in m w Hiw Hii) as (Hwf & Hin & Hsz). set (w0 := filled m w) in *.
  destruct (handle_confirm_admits sk h hr (received parsed_frame_zero m)
    (Z.of_nat (length (encode m))) (touched w0)) as (c & Hc & Hs & Hp); [by destruct Haw|done|done|].
  exists c. split_and!; [|done|done].
  rewrite <- dispatch_is_confirm in Hc by done.
  assert (established_secure (conn w0) = false) as He.
  { unfold established_secure. change (state_ (conn w0)) with (state_ (conn w)).
    rewrite (aw_state _ _ _ _ Haw). by rewrite andb_false_r. }
  assert (EvHandshake c h ∈ calls (parse_plaintext cfg_ self_ clk
    (S (buffer.size (in_ (conn w0)))) w0).2) as Hlog.
  { rewrite (parse_turn _ m w0 Hdel Hin). destruct (dispatch _ _ _ _ _ _ w0) as [ok w1].
    simpl in Hc. destruct ok; [|done]. cbn [negb]. destruct (established_secure (conn w1)); [done|].
    by apply connection_progress.logged_parse_plaintext. }
  destruct (parse_plaintext _ _ _ _ w0) as [ok w1] eqn:Ep. simpl in Hlog.
  rewrite (connection_progress.parse_inbound_plain cfg_ self_ clk w0 ok w1 He Ep).
  destruct ok; [|done]. destruct (established_secure (conn w1)); [|done].
  by apply connection_progress.logged_parse_records.
Qed.

(** ** Becoming ready *)

Lemma draw_key_some sk rest (w : world) :
  entropy (kernel w) = sk :: rest →
  draw_key w = (sk, (set_kernel (mk_os (sends (kernel w)) (mods (kernel w)) rest
    (so_error (kernel w)) (readings (kernel w)) (errno (kernel w)) (sent (kernel w))) w).2).
Proof. intros He. unfold draw_key, mbind, M_bind, get_kernel. by rewrite He. Qed.

(** [send_hello] in a secured mesh. *)
Lemma send_hello_secure sk rest w :
  secure_ (conn w) = true → entropy (kernel w) = sk :: rest → benign (kernel w) →
  let eph := crypto.gen_ephemeral sk in
  let w' := (send_hello self_ clk w).2 in
  core (conn w') = core (set_eph eph (conn w)) ∧ calls w' = calls w ∧
  queued w' = queued w ++
    encode (MsgHello (inbound_ (conn w)) (own_hello self_ (localNonce_ (conn w)) eph)) ∧
  benign (kernel w').
Proof.
  intros Hsec Hent Hk eph.
  set (k1 := mk_os (sends (kernel w)) (mods (kernel w)) rest (so_error (kernel w))
    (readings (kernel w)) (errno (kernel w)) (sent (kernel w))).
  set (w1 := mk_world (set_eph eph (conn w)) k1 (owner w) (calls w) (queued w) (arrived w)).
  assert (when (secure_ (conn w)) (sk ← draw_key; modify (set_eph (crypto.gen_ephemeral sk))) w =
    ((), w1)) as Hwhen.
  { rewrite Hsec. unfold when, mbind, M_bind. by rewrite (draw_key_some sk rest w Hent). }
  assert (send_hello self_ clk w = (_ ← append_out (encode (MsgHello (inbound_ (conn w))
    (own_hello self_ (localNonce_ (conn w)) eph))); t ← now clk; _ ← modify (set_lastSend t);
    flush_outbound) w1) as ->.
  { unfold send_hello. unfold mbind at 1, M_bind at 1, get at 1.
    unfold mbind at 1, M_bind at 1. rewrite Hwhen. unfold mbind at 1, M_bind at 1, get at 1.
    change (secure_ (conn w1)) with (secure_ (conn w)). rewrite Hsec. done. }
  destruct (send_frame_benign (encode (MsgHello (inbound_ (conn w))
    (own_hello self_ (localNonce_ (conn w)) eph))) w1 Hk) as (H1 & _ & H3 & H4 & H5). done.
Qed.

Lemma ready_after_hello sk rest w :
  state_ (conn w) = Handshaking → dead_ (conn w) = false → secure_ (conn w) = true →
  in_ (conn w) = buffer.empty_buffer → queued w = [] →
  entropy (kernel w) = sk :: rest → benign (kernel w) →
  ready sk (localNonce_ (conn w)) (send_hello self_ clk w).2.
Proof.
  intros Hs Hd Hsec Hin Hq Hent Hk.
  destruct (send_hello_secure sk rest w Hsec Hent Hk) as (Hc & _ & Hqu & Hb).
  set (w' := (send_hello self_ clk w).2) in *.
  assert (∀ {A} (f : t → A), f (core (conn w')) = f (core (set_eph (crypto.gen_ephemeral sk)
    (conn w)))) as Hf by (intros A f; by rewrite Hc).
  split.
  - change (state_ (core (conn w')) = Handshaking). by rewrite (Hf _ state_).
  - change (dead_ (core (conn w')) = false). by rewrite (Hf _ dead_).
  - change (secure_ (core (conn w')) = true). by rewrite (Hf _ secure_).
  - change (buffer.wf (in_ (core (conn w')))). rewrite (Hf _ in_). simpl. rewrite Hin.
    apply buffer.wf_empty.
  - change (buffer.data (in_ (core (conn w'))) = []). rewrite (Hf _ in_). simpl. by rewrite Hin.
  - change (ephKeys_ (core (conn w')) = crypto.gen_ephemeral sk). by rewrite (Hf _ ephKeys_).
  - change (inbound_ (conn w')) with (inbound_ (core (conn w'))). rewrite (Hf _ inbound_).
    by rewrite Hqu, Hq.
  - done.
Qed.

(** An accepted connection is ready as soon as it exists; a dialled one when the
    connect has completed. *)
Lemma accepted_ready fd addr nonce added sk rest k l :
  l_secure self_ = true → entropy k = sk :: rest → benign k →
  ready sk nonce (accepted self_ clk fd addr nonce added k l).
Proof.
  intros Hsec Hent Hk. unfold accepted.
  set (c := if added then _ else _). set (k1 := mk_os _ _ _ _ _ _ _).
  assert (secure_ c = true ∧ localNonce_ c = nonce ∧ state_ c = Handshaking ∧
    dead_ c = false ∧ in_ c = buffer.empty_buffer) as (H1 & H3 & H4 & H5 & H6).
  { subst c. by destruct added. }
  pose proof (ready_after_hello sk rest (mk_world c k1 l [] [] [])) as Hr. simpl in Hr.
  rewrite H3 in Hr. by apply Hr.
Qed.

Lemma connected_ready sk rest w :
  state_ (conn w) = ConnectingOut → dead_ (conn w) = false → secure_ (conn w) = true →
  in_ (conn w) = buffer.empty_buffer → queued w = [] → so_error (kernel w) = Some 0 →
  entropy (kernel w) = sk :: rest → benign (kernel w) →
  ready sk (localNonce_ (conn w)) (on_connect_complete self_ clk w).2.
Proof.
  intros Hs Hd Hsec Hin Hq Hso Hent Hk. unfold on_connect_complete.
  unfold mbind at 1, M_bind at 1, get_kernel at 1. rewrite Hso. cbn [Z.eqb negb].
  set (w1 := (modify (set_state Handshaking) w).2).
  match goal with |- ready _ _ ((_ ← _; ?k) w).2 => change (ready sk (localNonce_ (conn w)) (k w1).2) end.
  unfold mbind at 1, M_bind at 1, get at 1.
  assert (∃ w2, when (registered_ (conn w1)) (ok ← loop_mod; when ok (modify (set_wantWrite false))) w1
    = ((), w2) ∧ core (conn w2) = core (conn w1) ∧ queued w2 = queued w1 ∧
      entropy (kernel w2) = sk :: rest ∧ benign (kernel w2)) as (w2 & Hwhen & Hc & Hq2 & He2 & Hk2).
  { unfold when at 1. destruct (registered_ (conn w1)); [|by exists w1].
    unfold loop_mod, mbind, M_bind, get_kernel. destruct (mods (kernel w1)) as [|ok l]; [by eexists|].
    by destruct ok; eexists. }
  unfold mbind at 1, M_bind at 1. rewrite Hwhen.
  assert (∀ {A} (f : t → A), f (core (conn w2)) = f (core (conn w1))) as Hf
    by (intros A f; by rewrite Hc).
  replace (localNonce_ (conn w)) with (localNonce_ (conn w2)) by apply (Hf _ localNonce_).
  apply (ready_after_hello sk rest w2).
  - change (state_ (core (conn w2)) = Handshaking). by rewrite (Hf _ state_).
  - change (dead_ (core (conn w2)) = false). by rewrite (Hf _ dead_).
  - change (secure_ (core (conn w2)) = true). by rewrite (Hf _ secure_).
  - change (in_ (core (conn w2)) = buffer.empty_buffer). by rewrite (Hf _ in_).
  - by rewrite Hq2.
  - done.
  - done.
Qed.

End one_end.

(** ** Two ends *)

Section two_ends.

Context {Sod : Sodium} {Laws : SodiumLaws}.

(** A correctly configured node of a secured mesh; its identity, if it has one,
    comes from a seed and its identifier from the identity's public key. *)
Definition honest (s : local_identity) : Prop :=
  l_secure s = true ∧ (length (l_groupName s) <= 255)%nat ∧ in_range 8 (l_protocolVersion s) ∧
  in_range 16 (l_listenPort s) ∧
  (l_hasIdentity s = true → ∃ seed,
     l_idKeys s = crypto.identity_from_seed seed ∧
     crypto.id_from_identity (crypto.id_pk (l_idKeys s)) = bytes (l_nodeId s) ∧
     (length (l_nodeName s) <= 255)%nat).

(** Node [a] with configuration [cfg] is willing to admit node [b]. *)
Definition admits (cfg : mesh_config) (a b : local_identity) : Prop :=
  l_groupName b = l_groupName a ∧ l_protocolVersion b = l_protocolVersion a ∧
  l_groupKey b = l_groupKey a ∧
  (l_hasIdentity a && requireIdentity cfg && negb (l_hasIdentity b) = false) ∧
  (l_trustedKeys a = [] ∨ crypto.id_pk (l_idKeys b) ∈ l_trustedKeys a) ∧
  1024 <= maxMessageBytes cfg.

Lemma own_hello_wire s nonce eph :
  honest s → wire_hello hello_zero (own_hello s nonce eph) = own_hello s nonce eph.
Proof.
  intros (_ & Hg & _ & _ & Hid). unfold wire_hello, own_hello. simpl.
  rewrite (clip_short _ Hg). destruct (l_hasIdentity s); [|done].
  destruct (Hid eq_refl) as (_ & _ & _ & Hn). by rewrite (clip_short _ Hn).
Qed.

Lemma length_str s : (length (str_bytes s) <= 256)%nat.
Proof.
  unfold str_bytes. pose proof (length_clip s). rewrite length_app, length_be_bytes. lia.
Qed.

Lemma hello_deliverable cfg s nonce eph ack :
  honest s → in_range 64 nonce → 1024 <= maxMessageBytes cfg →
  deliverable cfg (MsgHello ack (own_hello s nonce eph)).
Proof.
  intros (_ & _ & Hv & Hp & _) Hn Hmax.
  assert (length (body (MsgHello ack (own_hello s nonce eph))) <= 700)%nat as Hlen.
  { cbn [body own_hello h_secure h_groupName h_nodeName h_hasIdentity].
    pose proof (length_str (l_groupName s)). pose proof (length_str (l_nodeName s)).
    destruct (l_hasIdentity s); rewrite !length_app, !length_elems, !length_be_bytes;
      cbn [length]; lia. }
  split_and!; [done| |].
  - unfold fits. lia.
  - rewrite length_encode. unfold kReadChunk. lia.
Qed.

Lemma confirm_deliverable cfg tag hasSig sig :
  1024 <= maxMessageBytes cfg → deliverable cfg (MsgAuthConfirm tag hasSig sig).
Proof.
  intros Hmax.
  assert (length (body (MsgAuthConfirm tag hasSig sig)) <= 97)%nat as Hlen.
  { cbn [body]. destruct hasSig; rewrite !length_app, !length_elems, !length_be_bytes;
      cbn [length]; lia. }
  split_and!; [done| |].
  - unfold fits. lia.
  - rewrite length_encode. unfold kReadChunk. lia.
Qed.

Lemma own_hello_welcome cfg a b nonce eph :
  honest b → admits cfg a b → welcome cfg a (own_hello b nonce eph).
Proof.
  intros Hb (Hg & Hv & _ & Hreq & _). split_and!; try done. by apply own_hello_wire.
Qed.

(** The signature of [b] convinces [a]. *)
Lemma own_confirm_convincing cfg a b ska skb na nb hr old :
  honest b → admits cfg a b →
  let ha := own_hello a na (crypto.gen_ephemeral ska) in
  let hb := own_hello b nb (crypto.gen_ephemeral skb) in
  match own_confirm b skb ha hr old with
  | MsgAuthConfirm _ hasSig sig => convincing a ska hb hasSig (if hasSig then sig else zero_array 64)
  | _ => False
  end.
Proof.
  intros (_ & _ & _ & _ & Hid) (_ & _ & _ & _ & Htr & _). simpl. unfold convincing. simpl.
  intros Huse. rewrite andb_comm, Huse. apply andb_true_iff in Huse as [Ha Hb]. rewrite Hb.
  destruct (Hid Hb) as (seed & Hk & Hn & _). split_and!; [done|done| |done].
  rewrite Hk. unfold crypto.verify_sig, crypto.sign, crypto.identity_from_seed.
  pose proof (sign_verifies seed (id_transcript (box_pk skb) (box_pk ska) (l_nodeName b))) as Hv.
  by destruct (sign_seed_keypair seed) as [pk sk].
Qed.

(** The confirmation frame an end has queued after its hello. *)
Definition answer {L} (w w' : @world L) : list byte := drop (length (queued w)) (queued w').

(** What one end tells its owner, given the other end's frames. *)
Lemma one_end_completes {L} `{!ConnectionListener L} cfg a b clk ska skb na nb hra hrb old (w : @world L) :
  honest a → honest b → admits cfg a b → in_range 64 nb → ready a ska na w →
  crypto.do_handshake (crypto.gen_ephemeral ska) (box_pk skb) (l_groupKey a) (l_groupName a) =
    Some hra →
  crypto.myConfirmTag hrb = crypto.expectedPeerTag hra →
  let hb := own_hello b nb (crypto.gen_ephemeral skb) in
  let ha := own_hello a na (crypto.gen_ephemeral ska) in
  ∀ ack,
  let w1 := (do_read cfg a clk [RecvData (encode (MsgHello ack hb))] w).2 in
  answer w w1 = encode (own_confirm a ska hb hra (myIdSig_ (conn w))) ∧
  ∃ c, EvHandshake c hb ∈
      calls (do_read cfg a clk [RecvData (encode (own_confirm b skb ha hrb old))] w1).2 ∧
    sess_ c = Some (crypto.session hra) ∧ peerId_ c = l_nodeId b.
Proof.
  intros Ha Hb Hadm Hnb Hr Hhr Htag hb ha ack w1.
  assert (1024 <= maxMessageBytes cfg) as Hmax by apply Hadm.
  destruct (receive_hello cfg a clk ska na ack hb hra w Hr (own_hello_welcome cfg a b nb _ Hb Hadm)
    (hello_deliverable cfg b nb _ ack Hb Hnb Hmax) Hhr) as (Haw & Hidle & _ & Hq).
  split. { unfold answer. subst w1. by rewrite Hq, drop_app_length. }
  pose proof (own_confirm_convincing cfg a b ska skb na nb hrb old Hb Hadm) as Hconv.
  cbv zeta in Hconv. unfold own_confirm in *. rewrite Htag.
  by apply (receive_confirm cfg a clk ska hb hra _ _ w1 Haw Hidle
    (confirm_deliverable cfg _ _ _ Hmax)).
Qed.

(** [C3] Two honest ends complete the secured handshake: whatever the owners
    do and in however many pieces the kernel writes, when each end has read the
    other's hello and then the other's confirmation, each has told its owner
    that the other is up, with the other's own hello, and the two sessions are
    mirrored: what one seals, the other opens. *)
Theorem handshake_completes {La Lb} `{!ConnectionListener La} `{!ConnectionListener Lb}
    cfga cfgb a b clka clkb ska skb na nb (wa : @world La) (wb : @world Lb) :
  honest a → honest b → admits cfga a b → admits cfgb b a →
  in_range 64 na → in_range 64 nb → ready a ska na wa → ready b skb nb wb →
  box_pk ska ≠ box_pk skb → scalarmult ska (box_pk skb) ≠ None →
  let wa1 := (do_read cfga a clka [RecvData (queued wb)] wa).2 in
  let wb1 := (do_read cfgb b clkb [RecvData (queued wa)] wb).2 in
  let wa2 := (do_read cfga a clka [RecvData (answer wb wb1)] wa1).2 in
  let wb2 := (do_read cfgb b clkb [RecvData (answer wa wa1)] wb1).2 in
  ∃ ca cb sa sb,
    EvHandshake ca (own_hello b nb (crypto.gen_ephemeral skb)) ∈ calls wa2 ∧
    EvHandshake cb (own_hello a na (crypto.gen_ephemeral ska)) ∈ calls wb2 ∧
    sess_ ca = Some sa ∧ sess_ cb = Some sb ∧ crypto.mirrored sa sb.
Proof.
  intros Ha Hb Hab Hba Hna Hnb Hra Hrb Hne Hdh.
  assert (∃ hra, crypto.do_handshake (crypto.gen_ephemeral ska) (box_pk skb) (l_groupKey a)
    (l_groupName a) = Some hra) as (hra & Ehra).
  { unfold crypto.do_handshake. simpl. destruct (scalarmult ska (box_pk skb)); [by eexists|done]. }
  assert (∃ hrb, crypto.do_handshake (crypto.gen_ephemeral skb) (box_pk ska) (l_groupKey b)
    (l_groupName b) = Some hrb) as (hrb & Ehrb).
  { unfold crypto.do_handshake. simpl. rewrite scalarmult_comm.
    destruct (scalarmult ska (box_pk skb)); [by eexists|done]. }
  destruct (crypto.handshake_mirrors ska skb (l_groupKey a) (l_groupName a) hra hrb Hne Ehra)
    as (Hm & Ht1 & Ht2).
  { destruct Hab as (Hg & _ & Hk & _). simpl in *. by rewrite <- Hg, <- Hk. }
  rewrite (rd_queued _ _ _ _ Hra), (rd_queued _ _ _ _ Hrb).
  destruct (one_end_completes cfga a b clka ska skb na nb hra hrb (myIdSig_ (conn wb)) wa
    Ha Hb Hab Hnb Hra Ehra (eq_sym Ht2) (inbound_ (conn wb))) as (Hansa & ca & Hca & Hsa & _).
  destruct (one_end_completes cfgb b a clkb skb ska nb na hrb hra (myIdSig_ (conn wa)) wb
    Hb Ha Hba Hna Hrb Ehrb Ht1 (inbound_ (conn wa))) as (Hansb & cb & Hcb & Hsb & _).
  cbv zeta. rewrite Hansa, Hansb. eauto 10.
Qed.

End two_ends.

(** ** An accepted and a dialled connection *)

#[local] Existing Instance crypto.toy_sodium.
#[local] Existing Instance crypto.toy_laws.
#[local] Existing Instance connection_facts.echo_owner.

Definition sample_self (n : Z) : local_identity := connection_facts.sample_peer n.

(** The kernel writes seven bytes, is interrupted, then blocks. *)
Definition sample_kernel (n : Z) : os :=
  mk_os [SendOk 7; SendErr EINTR; SendErr EAGAIN] [] [crypto.sample_key n] (Some 0) 0 0 [].

Definition sample_a : world :=
  accepted (sample_self 1) connection_facts.sample_clock 5 (1, 2) 11 true (sample_kernel 1) 0%nat.
Definition sample_b0 : world :=
  dialed (sample_self 2) connection_facts.sample_clock (3, 4) 12 (sample_kernel 2) 0%nat.
Definition sample_b : world :=
  (on_connect_complete (sample_self 2) connection_facts.sample_clock sample_b0).2.

Lemma sample_honest n : in_range 14 n → honest (sample_self n).
Proof.
  intros Hn. unfold in_range in Hn. split_and!; try done.
  - apply Nat.leb_le. reflexivity.
  - unfold sample_self, connection_facts.sample_peer, in_range. cbn [l_listenPort]. lia.
  - intros _. exists (crypto.sample_key (50 + n)). split_and!; [reflexivity|reflexivity|].
    apply Nat.leb_le. reflexivity.
Qed.

Lemma sample_admits m n : admits connection_facts.sample_cfg (sample_self m) (sample_self n).
Proof. repeat split; try done; by left. Qed.

Lemma sample_benign n : benign (sample_kernel n).
Proof.
  apply list.Forall_cons; split; [simpl; lia|]. apply list.Forall_cons; split; [by right|].
  apply list.Forall_cons; split; [by left|constructor].
Qed.

Lemma handshake_completes_witness :
  ∃ ca cb sa sb,
    EvHandshake ca (own_hello (sample_self 2) 12 (crypto.gen_ephemeral (crypto.sample_key 2))) ∈
      calls (do_read connection_facts.sample_cfg (sample_self 1) connection_facts.sample_clock
        [RecvData (answer sample_b (do_read connection_facts.sample_cfg (sample_self 2)
           connection_facts.sample_clock [RecvData (queued sample_a)] sample_b).2)]
        (do_read connection_facts.sample_cfg (sample_self 1) connection_facts.sample_clock
           [RecvData (queued sample_b)] sample_a).2).2 ∧
    sess_ ca = Some sa ∧ sess_ cb = Some sb ∧ crypto.mirrored sa sb.
Proof.
  destruct (handshake_completes connection_facts.sample_cfg connection_facts.sample_cfg
    (sample_self 1) (sample_self 2) connection_facts.sample_clock connection_facts.sample_clock
    (crypto.sample_key 1) (crypto.sample_key 2) 11 12 sample_a sample_b)
    as (ca & cb & sa & sb & Hca & _ & Hsa & Hsb & Hm).
  - apply sample_honest. done.
  - apply sample_honest. done.
  - apply sample_admits.
  - apply sample_admits.
  - done.
  - done.
  - apply (accepted_ready _ _ _ _ _ _ _ []); [done|done|apply sample_benign].
  - apply (connected_ready _ _ _ [] sample_b0); try done. apply sample_benign.
  - vm_compute. congruence.
  - vm_compute. congruence.
  - exists ca, cb, sa, sb. split_and!; [exact Hca|exact Hsa|exact Hsb|apply Hm..].
Defined.

End handshake.
