(* ===== verification/Stream.v ===== *)
(** * From one owner to the other

    Two established, secured connections (src/src/peer_connection.cpp) joined
    by a TCP stream: what one end's owner hands to [send_raw] is framed
    (Wire.v), sealed (Crypto.v), queued and written; the other end reads the
    bytes in whatever pieces they come, opens the records, parses the frames and
    calls its owner.  The theorem is that the second owner is given what the
    first one sent: in order, once, unchanged, and as soon as the bytes are
    there. *)
From Stdlib Require Import ZArith Lia.
From Stdlib.Strings Require Import Byte.
From stdpp Require Import base gmap sets list strings numbers option.
From S2P Require Import Prelude PeerId Buffer Wire WireFacts Config Crypto Identity PeerConnection ConnectionFacts ConnectionProgress Handshake.

Module stream.
Import peer_connection connection_progress.

(** ** What an owner is given *)

(** The message behind a call of the owner. *)
Definition heard (e : event) : option message :=
  match e with
  | EvData _ d => Some (MsgData d)
  | EvMembership _ r => Some (MsgMembership r)
  | EvIdentity _ r => Some (MsgIdentity r)
  | _ => None
  end.

(** All of them, in order (the log has the latest first). *)
Definition given (log : list event) : list message := omap heard (reverse log).

(** What a message becomes at the other end: the format has room for 65535
    neighbours and 255 bytes of a name, and heartbeats are not passed on. *)
Definition shown (m : message) : option message :=
  match m with
  | MsgData d => Some (MsgData d)
  | MsgMembership r =>
      Some (MsgMembership (mk_membership_record (m_origin r) (m_version r)
              (take max_neighbors (m_neighbors r))))
  | MsgIdentity r =>
      Some (MsgIdentity (mk_identity_record (ir_idPubKey r) (ir_version r) (clip (ir_name r))
              (ir_signature r)))
  | _ => None
  end.

(** The messages an established connection carries. *)
Definition traffic (m : message) : Prop :=
  match m with
  | MsgHeartbeat | MsgData _ | MsgMembership _ | MsgIdentity _ => True
  | MsgHello _ _ | MsgAuthConfirm _ _ _ | MsgGoodbye => False
  end.

Lemma given_cons e log : given (e :: log) = given log ++ option_list (heard e).
Proof. unfold given. rewrite reverse_cons, omap_app. simpl. by destruct (heard e). Qed.

Section receiver.

Context {Sod : Sodium} {L : Type} {Own : ConnectionListener L}.
Context (cfg_ : mesh_config) (self_ : local_identity) (clk : nat → Z).

#[local] Abbreviation world := (@world L).
#[local] Abbreviation M := (@M L).

(** The connection is up and expects the record with counter [ctr] under the key
    [k] next. *)
Definition hearing (k : key32) (ctr : Z) (c : t) : Prop :=
  dead_ c = false ∧ state_ c = Established ∧ secure_ c = true ∧
  ∃ s, sess_ c = Some s ∧ crypto.rxKey s = k ∧ crypto.rxCtr s = ctr.

(** The owner was given [ms], and the connection is as before or closed. *)
Definition attends (k : key32) (ctr : Z) (ms : list message) (w : world) : Prop :=
  given (calls w) = ms ∧ (dead_ (conn w) = true ∨ hearing k ctr (conn w)).

(** ** What the owner may do *)

Section owner.

Context (k : key32) (ctr : Z) (ms : list message).
#[local] Abbreviation P := (attends k ctr ms).

Definition neutral (f : t → t) : Prop := ∀ c,
  dead_ (f c) = true ∨
  dead_ (f c) = dead_ c ∧ state_ (f c) = state_ c ∧ secure_ (f c) = secure_ c ∧ sess_ (f c) = sess_ c.

Lemma attends_modify f : neutral f → holds P (modify f).
Proof.
  intros Hf w [Hg Hw]. split; [done|]. simpl. unfold hearing in *.
  destruct (Hf (conn w)) as [->|(-> & -> & -> & ->)]; [by left|done].
Qed.

Lemma attends_notify e : heard e = None → holds P (notify e).
Proof. intros He w [Hg Hw]. split; [|done]. simpl. by rewrite given_cons, He, app_nil_r. Qed.

Lemma attends_set_kernel x : holds P (set_kernel x). Proof. by intros w. Qed.
Lemma attends_set_owner x : holds P (set_owner x). Proof. by intros w. Qed.
Lemma attends_append s : holds P (append_out s). Proof. by intros w. Qed.

#[local] Hint Resolve attends_set_kernel attends_set_owner attends_append : mm.
#[local] Hint Extern 1 (holds _ (notify _)) => by apply attends_notify : mm.
#[local] Hint Extern 1 (holds _ (modify _)) =>
  apply attends_modify; let c := fresh in intros c; repeat case_match; solve [by left | by right] : mm.

Lemma attends_now : holds P (now clk). Proof. unfold now. hold. Qed.
Lemma attends_loop_mod : holds P loop_mod. Proof. unfold loop_mod. hold. Qed.
Lemma attends_set_errno e : holds P (set_errno e). Proof. unfold set_errno. hold. Qed.
#[local] Hint Resolve attends_now attends_loop_mod attends_set_errno : mm.
Lemma attends_mark_dead : holds P mark_dead. Proof. unfold mark_dead. hold. Qed.
Lemma attends_raise e : holds P (raise e). Proof. unfold raise. hold. Qed.
#[local] Hint Resolve attends_mark_dead attends_raise : mm.
Lemma attends_fail cat err what : holds P (fail cat err what). Proof. unfold fail. hold. Qed.
#[local] Hint Resolve attends_fail : mm.
Lemma attends_flush_loop script : holds P (flush_loop script).
Proof. induction script; cbn [flush_loop]; hold. Qed.
Lemma attends_update_epoll : holds P update_epoll. Proof. unfold update_epoll. hold. Qed.
#[local] Hint Resolve attends_flush_loop attends_update_epoll : mm.
Lemma attends_flush_outbound : holds P flush_outbound. Proof. unfold flush_outbound. hold. Qed.
#[local] Hint Resolve attends_flush_outbound : mm.

(** Sealing moves the other counter. *)
Lemma attends_seal_frame frame : holds P (seal_frame frame).
Proof.
  intros w [Hg Hw]. unfold seal_frame, mbind, M_bind, get.
  destruct (sess_ (conn w)) as [s|] eqn:Hs; [|done]. rewrite crypto.seal_record.
  split; [done|]. destruct Hw as [Hw|(H1 & H2 & H3 & s' & Hs' & <- & <-)]; [by left|right].
  rewrite Hs in Hs'. injection Hs' as <-. repeat split; try done. by eexists.
Qed.
#[local] Hint Resolve attends_seal_frame : mm.

Lemma attends_enqueue frame : holds P (enqueue cfg_ clk frame).
Proof. unfold enqueue. cbv zeta. hold. Qed.
#[local] Hint Resolve attends_enqueue : mm.
Lemma attends_close : holds P (close_gracefully cfg_ clk). Proof. unfold close_gracefully. hold. Qed.
#[local] Hint Resolve attends_close : mm.
Lemma attends_react r : holds P (react cfg_ clk r).
Proof. induction r; cbn [react]; unfold send_raw; hold. Qed.

End owner.

(** ** Dispatching *)

(** A message that fits the receiver's limits. *)
Definition sendable (m : message) : Prop :=
  traffic m ∧ message_ok m ∧ fits (maxMessageBytes cfg_) m.

(** The step tells whether the connection lives. *)
Definition passes (k : key32) (ctr : Z) (ms : list message) (r : bool * world) : Prop :=
  r.1 = negb (dead_ (conn r.2)) ∧ attends k ctr ms r.2.

(** The owner is called with the message. *)
Lemma call_given k ctr ms m ev handler w :
  (∀ c, heard (ev c) = Some m) → attends k ctr ms w →
  attends k ctr (ms ++ [m]) (call cfg_ clk ev handler w).2.
Proof.
  intros Hev [Hg Hw]. apply attends_react. split; [|done]. simpl. by rewrite given_cons, Hev, Hg.
Qed.

Lemma call_passes k ctr ms m ev handler w :
  (∀ c, heard (ev c) = Some m) → attends k ctr ms w →
  passes k ctr (ms ++ [m]) ((_ ← call cfg_ clk ev handler; alive) w).
Proof.
  intros Hev Ha. pose proof (call_given k ctr ms m ev handler w Hev Ha) as Hc.
  unfold mbind at 1, M_bind at 1. by destruct (call cfg_ clk ev handler w) as [[] w'].
Qed.

Lemma dispatch_traffic k ctr m n w :
  traffic m → hearing k ctr (conn w) →
  passes k ctr (given (calls w) ++ option_list (shown m))
    (dispatch cfg_ self_ clk (received parsed_frame_zero m) n FromPlain w).
Proof.
  intros Ht Hw. unfold dispatch.
  set (w1 := handshake.touched clk w).
  assert (hearing k ctr (conn w1)) as Hw1 by exact Hw.
  assert (attends k ctr (given (calls w)) w1) as Ha by (split; [done|by right]).
  match goal with |- passes _ _ _ ((_ ← _; _ ← _; ?b) w) => change (passes k ctr
    (given (calls w) ++ option_list (shown m)) (b w1)) end.
  clearbody w1. unfold mbind at 1, M_bind at 1, get at 1.
  rewrite (bool_decide_true (state_ (conn w1) = Established)) by apply Hw1. cbn [negb].
  destruct m as [| | | |d|r|r]; try done.
  - split; [|by rewrite app_nil_r]. destruct Hw1 as (Hd & _). simpl. by rewrite Hd.
  - pose proof (call_given k ctr _ (MsgData d) (λ c, EvData c d) (λ c, on_peer_data c d) w1
      (λ _, eq_refl) Ha) as Hc.
    simpl. unfold mbind at 1, M_bind at 1. destruct (call _ _ _ _ w1) as [[] w2]. simpl in Hc.
    unfold alive, mbind at 1 2, M_bind at 1 2, get. simpl.
    destruct (dead_ (conn w2)) eqn:Hd; (split; [simpl; by rewrite Hd|exact Hc]).
  - by apply (call_passes k ctr _ _ _ _ (consume_src FromPlain n w1).2).
  - by apply (call_passes k ctr _ _ _ _ (consume_src FromPlain n w1).2).
Qed.

(** An owner that, told of a message, calls no operation of the connection. *)
Definition quiet_owner : Prop :=
  (∀ c d l, ∃ l', on_peer_data c d l = Done l') ∧
  (∀ c r l, ∃ l', on_peer_membership c r l = Done l') ∧
  (∀ c r l, ∃ l', on_peer_identity c r l = Done l').

Lemma call_quiet ev handler w :
  (∀ c l, ∃ l', handler c l = Done l') → conn (call cfg_ clk ev handler w).2 = conn w.
Proof.
  intros Hq. unfold call, mbind, M_bind, get, notify, get_owner. simpl.
  by destruct (Hq (conn w) (owner w)) as [l' ->].
Qed.

Lemma call_alive ev handler w :
  (∀ c l, ∃ l', handler c l = Done l') → dead_ (conn w) = false →
  ((_ ← call cfg_ clk ev handler; alive) w).1 = true.
Proof.
  intros Hq Hd. pose proof (call_quiet ev handler w Hq) as Hc.
  unfold mbind at 1, M_bind at 1. destruct (call _ _ _ _ w) as [[] w2]. simpl in *. by rewrite Hc, Hd.
Qed.

Lemma dispatch_quiet k ctr m n w :
  quiet_owner → traffic m → hearing k ctr (conn w) →
  dead_ (conn (dispatch cfg_ self_ clk (received parsed_frame_zero m) n FromPlain w).2) = false.
Proof.
  intros (Hqd & Hqm & Hqi) Ht Hw.
  pose proof (dispatch_traffic k ctr m n w Ht Hw) as [Hr _]. apply negb_true_iff. rewrite <-Hr. clear Hr.
  unfold dispatch. set (w1 := handshake.touched clk w).
  assert (hearing k ctr (conn w1)) as (Hd & Hst & _) by exact Hw.
  match goal with |- fst ((_ ← _; _ ← _; ?b) w) = _ => change (fst (b w1) = true) end.
  clearbody w1. unfold mbind at 1, M_bind at 1, get at 1.
  rewrite (bool_decide_true (state_ (conn w1) = Established)) by done. cbn [negb].
  destruct m as [| | | |d|r|r]; try done; simpl.
  - pose proof (call_quiet (λ c, EvData c d) (λ c, on_peer_data c d) w1 (λ c l, Hqd c d l)) as Hc.
    unfold mbind at 1, M_bind at 1. destruct (call _ _ _ _ w1) as [[] w2]. simpl in Hc.
    unfold alive, mbind at 1 2, M_bind at 1 2, get. simpl. by rewrite Hc, Hd.
  - by apply (call_alive _ _ (consume_src FromPlain n w1).2).
  - by apply (call_alive _ _ (consume_src FromPlain n w1).2).
Qed.

Lemma shown_cons m ms : omap shown (m :: ms) = option_list (shown m) ++ omap shown ms.
Proof. simpl. by destruct (shown m). Qed.

(** ** Parsing what was decrypted *)

Lemma parse_secure_turn m fuel tail w :
  sendable m → buffer.data (plain_ (conn w)) = encode m ++ tail →
  parse_secure cfg_ self_ clk (S fuel) w =
  let r := dispatch cfg_ self_ clk (received parsed_frame_zero m) (Z.of_nat (length (encode m)))
             FromPlain w in
  if r.1 then parse_secure cfg_ self_ clk fuel r.2 else ((), r.2).
Proof.
  intros (_ & Hok & Hfit) Hd. cbn [parse_secure]. unfold mbind at 1, M_bind at 1, get at 1.
  rewrite Hd, decode_encode by done. unfold mbind at 1, M_bind at 1.
  by destruct (dispatch _ _ _ _ _ _ w) as [[] w'].
Qed.

Lemma parse_secure_all ms : ∀ k ctr fuel w,
  Forall sendable ms → hearing k ctr (conn w) → buffer.wf (plain_ (conn w)) →
  buffer.data (plain_ (conn w)) = concat (map encode ms) → (length ms < fuel)%nat →
  let w' := (parse_secure cfg_ self_ clk fuel w).2 in
  ∃ n, attends k ctr (given (calls w) ++ omap shown (take n ms)) w' ∧
    (dead_ (conn w') = false → (length ms <= n)%nat ∧ in_ (conn w') = in_ (conn w) ∧
       buffer.wf (plain_ (conn w')) ∧ buffer.data (plain_ (conn w')) = []) ∧
    (quiet_owner → dead_ (conn w') = false).
Proof.
  induction ms as [|m ms IH]; intros k ctr [|fuel] w Hs Hw Hwf Hd Hf w'; try (simpl in Hf; lia).
  - exists 0%nat. subst w'. cbn [parse_secure]. unfold mbind, M_bind, get. rewrite Hd. simpl.
    rewrite app_nil_r. split_and!; [by split; [|right]|done|by intros _; apply Hw].
  - apply list.Forall_cons in Hs as [Hm Hs]. cbn [map concat] in Hd.
    pose proof (dispatch_traffic k ctr m (Z.of_nat (length (encode m))) w (proj1 Hm) Hw) as [Hr Ha].
    pose proof (dispatch_progress cfg_ self_ clk (received parsed_frame_zero m)
      (Z.of_nat (length (encode m))) FromPlain w) as Hp.
    pose proof (λ Hq, dispatch_quiet k ctr m (Z.of_nat (length (encode m))) w Hq (proj1 Hm) Hw) as Hqt.
    subst w'. rewrite (parse_secure_turn m fuel _ w Hm Hd). unfold consumed_or_dead in Hp.
    destruct (dispatch _ _ _ _ _ _ w) as [[] w1]; cbn [fst snd] in *.
    2:{ exists 1%nat. cbn [take]. rewrite shown_cons, app_nil_r. split_and!; [exact Ha| |].
        - intros Hl. by rewrite Hl in Hr.
        - intros Hq. by rewrite (Hqt Hq) in Hr. }
    destruct Ha as [Hg [Hdead|Hw1]]; [rewrite Hdead in Hr; done|].
    unfold bufs, eat in Hp. rewrite Nat2Z.id in Hp. injection Hp as Hin Hpl.
    assert (length (encode m) <= buffer.size (plain_ (conn w)))%nat as Hle
      by (rewrite <-buffer.length_data, Hd; len).
    destruct (IH k ctr fuel w1) as (n & Hn & Hlive & Hquiet); try done.
    + rewrite Hpl. by apply buffer.consume_wf.
    + rewrite Hpl, buffer.data_consume, Hd by done. by rewrite drop_app_length.
    + simpl in Hf. lia.
    + exists (S n). cbn [take]. rewrite shown_cons, (assoc_L (++)), <-Hg. split_and!; [exact Hn| |exact Hquiet].
      intros Hl. destruct (Hlive Hl) as (? & -> & ? & ?). simpl. split_and!; [lia|done..].
Qed.

(** ** Opening records *)

Context {Laws : SodiumLaws}.

(** The receiver's limit keeps record lengths within 32 bits. *)
Context (limit_ok : maxMessageBytes cfg_ + 68 < 2 ^ 32).

(** The bytes on which [ms] travel, from the record with counter [ctr] on. *)
Definition stream_of (k : key32) (ctr : Z) (ms : list message) : list byte :=
  concat (crypto.sealed_from k ctr (map encode ms)).

(** The counter after [n] records. *)
Definition after (ctr : Z) (n : nat) : Z := Nat.iter n crypto.next_ctr ctr.

Lemma after_S ctr n : after (crypto.next_ctr ctr) n = after ctr (S n).
Proof. apply crypto.iter_next. Qed.

Lemma after_add ctr n1 n2 : after (after ctr n1) n2 = after ctr (n1 + n2).
Proof. unfold after. by rewrite Nat.add_comm, Nat.iter_add. Qed.

(** [d] is the beginning of the stream and ends within its first record. *)
Definition partial (k : key32) (ctr : Z) (ms : list message) (d : list byte) : Prop :=
  d `prefix_of` stream_of k ctr ms ∧
  match ms with
  | [] => True
  | m :: _ => (length d < length (crypto.record k ctr (encode m)))%nat
  end.

Lemma length_record k ctr m : length (crypto.record k ctr m) = (20 + length m)%nat.
Proof. unfold crypto.record. rewrite length_app, length_be_bytes, aead_length. lia. Qed.

(** The length a record announces, and that it is within the limits. *)
Lemma peek_record k ctr m d rest :
  sendable m → d `prefix_of` crypto.record k ctr (encode m) ++ rest → (4 <= length d)%nat →
  peek_u32 d = Z.of_nat (length (encode m)) + 16 ∧
  16 <= peek_u32 d <= maxMessageBytes cfg_ + 64.
Proof.
  intros (_ & _ & Hf1 & Hf2) [x Hx] H4. rewrite length_encode.
  assert (peek_u32 d = Z.of_nat (length (encode m)) + 16) as Hp.
  { rewrite <-(peek_u32_frame (Z.of_nat (length (encode m)) + 16)
      (aead_encrypt k (crypto.nonce_from_counter ctr) (encode m) ++ rest)).
    - rewrite !peek_u32_be_value by len. rewrite <-(take_app_le d x) by done.
      rewrite <-Hx. unfold crypto.record. by rewrite <-(assoc_L (++)).
    - unfold in_range. rewrite length_encode. lia. }
  rewrite length_encode in Hp. lia.
Qed.

Lemma prefix_split (d r rest : list byte) :
  d `prefix_of` r ++ rest → (length r <= length d)%nat →
  ∃ tail, d = r ++ tail ∧ tail `prefix_of` rest.
Proof.
  intros [x Hx] Hl. exists (drop (length r) d). split.
  - rewrite <-(take_drop (length r) d) at 1. f_equal.
    rewrite <-(take_app_le d x) by done. by rewrite <-Hx, take_app_length.
  - exists x. rewrite <-drop_app_le by done. by rewrite <-Hx, drop_app_length.
Qed.

Lemma drain_none k ctr ms fuel w :
  Forall sendable ms → partial k ctr ms (buffer.data (in_ (conn w))) →
  drain_records cfg_ (S fuel) w = (true, w).
Proof.
  intros Hs [Hp Hlen]. cbn [drain_records]. unfold mbind at 1, M_bind at 1, get at 1.
  rewrite <-buffer.length_data. destruct (Z.ltb_spec (Z.of_nat (length (buffer.data (in_ (conn w))))) 4)
    as [|H4]; [done|].
  destruct ms as [|m ms]; [apply prefix_nil_inv in Hp; rewrite Hp in H4; simpl in H4; lia|].
  apply list.Forall_cons in Hs as [Hm _].
  destruct (peek_record k ctr m _ _ Hm Hp ltac:(lia)) as [Hpk Hr].
  rewrite (proj2 (Z.ltb_ge _ _)), (proj2 (Z.ltb_ge _ _)) by lia. cbn [orb].
  rewrite length_record in Hlen. by rewrite (proj2 (Z.ltb_lt _ _)) by lia.
Qed.

Lemma drain_one k ctr m tail fuel w :
  sendable m → hearing k ctr (conn w) → buffer.wf (in_ (conn w)) → buffer.wf (plain_ (conn w)) →
  buffer.data (in_ (conn w)) = crypto.record k ctr (encode m) ++ tail →
  ∃ w1, drain_records cfg_ (S fuel) w = drain_records cfg_ fuel w1 ∧
    hearing k (crypto.next_ctr ctr) (conn w1) ∧ calls w1 = calls w ∧
    buffer.wf (in_ (conn w1)) ∧ buffer.data (in_ (conn w1)) = tail ∧
    buffer.wf (plain_ (conn w1)) ∧
    buffer.data (plain_ (conn w1)) = buffer.data (plain_ (conn w)) ++ encode m.
Proof.
  intros Hm (Hd & Hst & Hsec & s & Hs & Hk & Hc) Hwi Hwp Hin.
  set (len := (20 + length (encode m))%nat).
  assert (length (buffer.data (in_ (conn w))) = len + length tail)%nat as Hl
    by (rewrite Hin, length_app, length_record; lia).
  destruct (peek_record k ctr m (buffer.data (in_ (conn w))) tail Hm) as [Hpk Hr];
    [by rewrite Hin|lia|].
  set (w1 := mk_world (set_in (buffer.consume (in_ (conn w)) len)
    (set_plain (buffer.append (plain_ (conn w)) (encode m)) (set_sess (Some
      (crypto.mk_session (crypto.txKey s) k (crypto.txCtr s) (crypto.next_ctr ctr))) (conn w))))
    (kernel w) (owner w) (calls w) (queued w) (arrived w)).
  exists w1.
  assert (in_ (conn w1) = buffer.consume (in_ (conn w)) len) as -> by done.
  assert (plain_ (conn w1) = buffer.append (plain_ (conn w)) (encode m)) as -> by done.
  rewrite buffer.data_consume, buffer.data_append by (done || rewrite <-buffer.length_data; lia).
  split_and!; try done.
  - cbn [drain_records]. unfold mbind at 1, M_bind at 1, get at 1. rewrite <-buffer.length_data, Hl.
    rewrite (proj2 (Z.ltb_ge _ _)), (proj2 (Z.ltb_ge _ _)), (proj2 (Z.ltb_ge _ _)), (proj2 (Z.ltb_ge _ _)) by lia.
    cbn [orb]. rewrite Hs.
    assert (take (Z.to_nat (peek_u32 (buffer.data (in_ (conn w))))) (drop 4 (buffer.data (in_ (conn w)))) =
      drop 4 (crypto.record (crypto.rxKey s) (crypto.rxCtr s) (encode m))) as ->.
    { rewrite Hin, Hk, Hc, drop_app_le by (rewrite length_record; lia). apply take_app_length'.
      rewrite <-Hin, Hpk, length_drop, length_record. lia. }
    rewrite crypto.open_record, Hk, Hc, Hpk, wrap_small by (unfold in_range; lia).
    replace (Z.to_nat (4 + (Z.of_nat (length (encode m)) + 16))) with len by lia. done.
  - split_and!; try done. by eexists.
  - apply buffer.consume_wf; [done|]. rewrite <-buffer.length_data. lia.
  - rewrite Hin. apply drop_app_length'. rewrite length_record. done.
  - by apply buffer.append_wf.
Qed.

Lemma stream_cons k ctr m ms :
  stream_of k ctr (m :: ms) = crypto.record k ctr (encode m) ++ stream_of k (crypto.next_ctr ctr) ms.
Proof. done. Qed.

(** The loop opens the records that are complete and leaves the rest. *)
Lemma drain_all k ms : ∀ ctr fuel w,
  Forall sendable ms → hearing k ctr (conn w) → buffer.wf (in_ (conn w)) →
  buffer.wf (plain_ (conn w)) → buffer.data (in_ (conn w)) `prefix_of` stream_of k ctr ms →
  (buffer.size (in_ (conn w)) < fuel)%nat →
  ∃ n w', drain_records cfg_ fuel w = (true, w') ∧ (n <= length ms)%nat ∧
    hearing k (after ctr n) (conn w') ∧ calls w' = calls w ∧
    buffer.wf (in_ (conn w')) ∧ partial k (after ctr n) (drop n ms) (buffer.data (in_ (conn w'))) ∧
    buffer.data (in_ (conn w)) = stream_of k ctr (take n ms) ++ buffer.data (in_ (conn w')) ∧
    buffer.wf (plain_ (conn w')) ∧
    buffer.data (plain_ (conn w')) = buffer.data (plain_ (conn w)) ++ concat (map encode (take n ms)).
Proof.
  induction ms as [|m ms IH]; intros ctr [|fuel] w Hs Hw Hwi Hwp Hpre Hf; try lia.
  { assert (partial k ctr [] (buffer.data (in_ (conn w)))) as Hp by (by split).
    exists 0%nat, w. rewrite (drain_none k ctr [] fuel w Hs Hp). simpl. rewrite app_nil_r. by split_and!. }
  destruct (decide (length (buffer.data (in_ (conn w))) < length (crypto.record k ctr (encode m)))%nat)
    as [Hlt|Hge].
  { assert (partial k ctr (m :: ms) (buffer.data (in_ (conn w)))) as Hp by (by split).
    exists 0%nat, w. rewrite (drain_none k ctr _ fuel w Hs Hp), drop_0. simpl. rewrite app_nil_r.
    split_and!; try done. lia. }
  apply list.Forall_cons in Hs as [Hm Hs].
  destruct (prefix_split _ _ _ Hpre ltac:(lia)) as (tail & Hin & Htail).
  destruct (drain_one k ctr m tail fuel w Hm Hw Hwi Hwp Hin)
    as (w1 & -> & Hw1 & Hc1 & Hwi1 & Hin1 & Hwp1 & Hpl1).
  destruct (IH (crypto.next_ctr ctr) fuel w1 Hs Hw1 Hwi1 Hwp1) as
    (n & w' & Hr & Hn & Hw' & Hc' & Hwi' & Hpart & Hd & Hwp' & Hpl').
  { by rewrite Hin1. }
  { rewrite <-buffer.length_data in *. rewrite Hin, length_app, length_record in Hf. rewrite Hin1. lia. }
  rewrite after_S in *. exists (S n), w'. cbn [take drop]. rewrite stream_cons. cbn [map concat].
  rewrite <-(assoc_L (++)), <-Hd, Hin1, Hpl', Hpl1, <-(assoc_L (++)), Hc', Hc1.
  split_and!; try done. simpl. lia.
Qed.

(** ** Reading *)

(** Everything that arrived completely has been passed on; [ms] are still to
    come. *)
Record waiting (k : key32) (ctr : Z) (ms : list message) (w : world) : Prop := {
  wt_hearing : hearing k ctr (conn w);
  wt_in : buffer.wf (in_ (conn w));
  wt_partial : partial k ctr ms (buffer.data (in_ (conn w)));
  wt_plain : buffer.wf (plain_ (conn w));
  wt_parsed : buffer.data (plain_ (conn w)) = [];
}.

Lemma encode_nonempty ms : (length ms <= length (concat (map encode ms)))%nat.
Proof. induction ms as [|m ms IH]; simpl; [lia|]. rewrite length_app, length_encode. lia. Qed.

Lemma parse_inbound_stream k ctr ms w :
  Forall sendable ms → hearing k ctr (conn w) → buffer.wf (in_ (conn w)) →
  buffer.wf (plain_ (conn w)) → buffer.data (plain_ (conn w)) = [] →
  buffer.data (in_ (conn w)) `prefix_of` stream_of k ctr ms →
  let w' := (parse_inbound cfg_ self_ clk w).2 in
  ∃ n, given (calls w') = given (calls w) ++ omap shown (take n ms) ∧
    (dead_ (conn w') = false → (n <= length ms)%nat ∧ waiting k (after ctr n) (drop n ms) w' ∧
       buffer.data (in_ (conn w)) = stream_of k ctr (take n ms) ++ buffer.data (in_ (conn w'))) ∧
    (quiet_owner → dead_ (conn w') = false).
Proof.
  intros Hs Hw Hwi Hwp Hpl Hpre w'. pose proof Hw as (_ & Hst & Hsec & _).
  destruct (drain_all k ms ctr (S (buffer.size (in_ (conn w)))) w) as
    (n & w1 & Hr & Hn & Hw1 & Hc1 & Hwi1 & Hpart & Hd & Hwp1 & Hpl1); try done; [lia|].
  rewrite Hpl in Hpl1. simpl in Hpl1.
  assert (w' = (parse_secure cfg_ self_ clk (S (buffer.size (plain_ (conn w1)))) w1).2) as ->.
  { subst w'. rewrite parse_inbound_secure.
    - unfold parse_records, mbind at 1, M_bind at 1. by rewrite Hr.
    - unfold established_secure. by rewrite Hsec, bool_decide_true. }
  destruct (parse_secure_all (take n ms) k (after ctr n) (S (buffer.size (plain_ (conn w1)))) w1)
    as (n' & [Hg Hh] & Hlive & Hquiet); try done.
  - by apply Forall_take.
  - rewrite <-buffer.length_data, Hpl1. pose proof (encode_nonempty (take n ms)). lia.
  - exists (Nat.min n' n). rewrite Hg, Hc1, take_take. split_and!; [done| |done]. intros Hdead.
    destruct (Hlive Hdead) as (Hl & Hin' & Hwp' & Hpl'). rewrite length_take in Hl.
    rewrite Nat.min_r by lia. destruct Hh as [Hh|Hh]; [congruence|].
    rewrite Hin'. split_and!; try done. split; rewrite ?Hin'; done.
Qed.

(** Results of [recv] that do not end the connection, and what they carry. *)
Definition clean (r : recv_result) : Prop :=
  match r with RecvData s => (0 < length s <= kReadChunk)%nat | RecvErr e => e = EINTR end.

Definition bytes_in (script : list recv_result) : list byte :=
  concat (map (λ r, match r with RecvData s => s | RecvErr _ => [] end) script).

Lemma do_read_clean script : ∀ w, Forall clean script → buffer.wf (in_ (conn w)) →
  ∃ w1, do_read cfg_ self_ clk script w = parse_inbound cfg_ self_ clk w1 ∧ calls w1 = calls w ∧
    (∃ b, conn w1 = set_in b (conn w)) ∧ buffer.wf (in_ (conn w1)) ∧
    buffer.data (in_ (conn w1)) = buffer.data (in_ (conn w)) ++ bytes_in script.
Proof.
  induction script as [|[s|e] script IH]; intros w Hc Hwf.
  - exists w. unfold bytes_in. simpl. rewrite app_nil_r. split_and!; try done.
    exists (in_ (conn w)). by destruct (conn w).
  - apply list.Forall_cons in Hc as [Hs Hc]. simpl in Hs. cbn [do_read].
    rewrite take_ge by lia. rewrite (proj2 (Nat.ltb_lt _ _)) by lia.
    set (w0 := mk_world (set_in (buffer.append (in_ (conn w)) s) (conn w)) (kernel w) (owner w)
      (calls w) (queued w) (arrived w ++ s)).
    destruct (IH w0 Hc (buffer.append_wf _ _ Hwf)) as (w1 & Hr & Hca & [b Hb] & Hw1 & Hd).
    assert (in_ (conn w0) = buffer.append (in_ (conn w)) s) as E by done.
    rewrite E, buffer.data_append in Hd by done.
    exists w1. split_and!; try done; [|by exists b|by rewrite Hd, <-(assoc_L (++))].
    rewrite <-Hr. unfold mbind, M_bind, append_in. by rewrite buffer.read_into_append by lia.
  - apply list.Forall_cons in Hc as [He Hc]. simpl in He. subst e. cbn [do_read].
    by apply (IH (set_errno EINTR w).2).
Qed.

Lemma stream_app k ms1 : ∀ ctr ms2,
  stream_of k ctr (ms1 ++ ms2) = stream_of k ctr ms1 ++ stream_of k (after ctr (length ms1)) ms2.
Proof.
  induction ms1 as [|m ms1 IH]; intros ctr ms2; [done|].
  cbn [app length]. rewrite !stream_cons, IH, after_S. by rewrite (assoc_L (++)).
Qed.

(** One turn of the event loop with input for this connection. *)
Definition read_cycle (script : list recv_result) (w : world) : world :=
  (on_io_events cfg_ self_ clk EPOLLIN script w).2.

Lemma read_cycle_dead script w : dead_ (conn w) = true → read_cycle script w = w.
Proof. intros Hd. unfold read_cycle, on_io_events, mbind, M_bind, get. by rewrite Hd. Qed.

Lemma read_cycle_up script w :
  dead_ (conn w) = false → state_ (conn w) = Established →
  read_cycle script w = (do_read cfg_ self_ clk script w).2.
Proof.
  intros Hd Hs. unfold read_cycle, on_io_events, mbind, M_bind, get. rewrite Hd, Hs. simpl.
  rewrite Hd. cbv beta. by rewrite Hd.
Qed.

(** What [n] of the messages [ms] arriving do to a connection: the owner was
    given them, and, unless the connection closed, the other bytes wait. *)
Definition progressed (k : key32) (ctr : Z) (ms : list message) (w w' : world) (n : nat)
    (new : list byte) : Prop :=
  given (calls w') = given (calls w) ++ omap shown (take n ms) ∧
  (dead_ (conn w') = false → (n <= length ms)%nat ∧ waiting k (after ctr n) (drop n ms) w' ∧
     buffer.data (in_ (conn w)) ++ new = stream_of k ctr (take n ms) ++ buffer.data (in_ (conn w'))) ∧
  (quiet_owner → dead_ (conn w') = false).

Lemma read_cycle_stream k ctr ms script w :
  Forall sendable ms → waiting k ctr ms w → Forall clean script →
  buffer.data (in_ (conn w)) ++ bytes_in script `prefix_of` stream_of k ctr ms →
  ∃ n, progressed k ctr ms w (read_cycle script w) n (bytes_in script).
Proof.
  intros Hs [Hw Hwi Hp Hwp Hpl] Hc Hpre. pose proof Hw as (Hd & Hst & _).
  rewrite read_cycle_up by done.
  destruct (do_read_clean script w Hc Hwi) as (w1 & -> & Hca & [b Hb] & Hwi1 & Hin1).
  assert (hearing k ctr (conn w1) ∧ plain_ (conn w1) = plain_ (conn w)) as [Hw1 Hpl1]
    by (by rewrite Hb).
  destruct (parse_inbound_stream k ctr ms w1) as (n & Hg & Hl & Hq); rewrite ?Hpl1, ?Hin1; try done.
  exists n. unfold progressed. by rewrite <-Hca, <-Hin1.
Qed.

Lemma progressed_trans k ctr ms w1 w2 w3 n1 n2 s1 s2 :
  progressed k ctr ms w1 w2 n1 s1 → dead_ (conn w2) = false →
  progressed k (after ctr n1) (drop n1 ms) w2 w3 n2 s2 → progressed k ctr ms w1 w3 (n1 + n2) (s1 ++ s2).
Proof.
  intros (G1 & L1 & _) Hd (G2 & L2 & Q2). destruct (L1 Hd) as (N1 & _ & E1).
  assert (take (n1 + n2) ms = take n1 ms ++ take n2 (drop n1 ms)) as Ht
    by (by rewrite take_take_drop).
  split_and!; [rewrite G2, G1, Ht, omap_app; by rewrite (assoc_L (++))| |done].
  intros Hd3. destruct (L2 Hd3) as (N2 & W2 & E2). rewrite length_drop in N2. split_and!; [lia| |].
  - rewrite drop_drop, after_add in W2. done.
  - rewrite Ht, stream_app, length_take, Nat.min_l, (assoc_L (++)), E1 by done.
    by rewrite <-!(assoc_L (++)), E2.
Qed.

Definition read_all (cycles : list (list recv_result)) (w : world) : world :=
  fold_left (λ w script, read_cycle script w) cycles w.

Lemma read_all_dead cycles w : dead_ (conn w) = true → read_all cycles w = w.
Proof. intros Hd. induction cycles as [|x l IH]; [done|]. simpl. by rewrite read_cycle_dead. Qed.

Lemma read_all_stream k cycles : ∀ ctr ms w,
  Forall sendable ms → waiting k ctr ms w → Forall (Forall clean) cycles →
  buffer.data (in_ (conn w)) ++ concat (map bytes_in cycles) `prefix_of` stream_of k ctr ms →
  ∃ n, progressed k ctr ms w (read_all cycles w) n (concat (map bytes_in cycles)).
Proof.
  induction cycles as [|x l IH]; intros ctr ms w Hs Hw Hc Hpre.
  { exists 0%nat. split_and!; [by rewrite app_nil_r| |].
    - intros _. rewrite drop_0, app_nil_r. split_and!; [lia|done..].
    - intros _. apply (wt_hearing _ _ _ _ Hw). }
  apply list.Forall_cons in Hc as [Hx Hl]. cbn [map concat] in *. rewrite (assoc_L (++)) in Hpre.
  destruct (read_cycle_stream k ctr ms x w Hs Hw Hx) as [n1 Hp1];
    [by etrans; [apply prefix_app_r|]|].
  change (read_all (x :: l) w) with (read_all l (read_cycle x w)).
  destruct (dead_ (conn (read_cycle x w))) eqn:Hd.
  { rewrite read_all_dead by done. exists n1. split_and!; [apply Hp1|congruence|apply Hp1]. }
  destruct (proj1 (proj2 Hp1) Hd) as (Hn & Hw1 & E1).
  destruct (IH _ _ _ (Forall_drop _ n1 _ Hs) Hw1 Hl) as [n2 Hp2].
  - rewrite E1, <-(take_drop n1 ms), stream_app, take_drop, length_take, Nat.min_l, <-(assoc_L (++)) in Hpre by done.
    by apply prefix_app_inv in Hpre.
  - exists (n1 + n2)%nat. by apply (progressed_trans _ _ _ _ _ _ _ _ _ _ Hp1).
Qed.

End receiver.

(** ** The sender *)

Section sender.

Context {Sod : Sodium} {Laws : SodiumLaws} {L : Type} {Own : ConnectionListener L}.
Context (cfg_ : mesh_config) (clk : nat → Z).

#[local] Abbreviation world := (@world L).

(** The connection is up, its next record has counter [ctr] under the key [k],
    and the kernel's results of [send] do not end it. *)
Record speaking (k : key32) (ctr : Z) (w : world) : Prop := {
  sp_dead : dead_ (conn w) = false;
  sp_up : established_secure (conn w) = true;
  sp_sess : ∃ s, sess_ (conn w) = Some s ∧ crypto.txKey s = k ∧ crypto.txCtr s = ctr;
  sp_kernel : handshake.benign (kernel w);
  sp_out : buffer.wf (out_ (conn w));
}.

Definition send_all (ms : list message) (w : world) : world :=
  fold_left (λ w m, (send_raw cfg_ clk (encode m) w).2) ms w.

Lemma send_one k ctr m w :
  speaking k ctr w →
  Z.of_nat (out_size w + length (crypto.record k ctr (encode m))) <= maxOutboundQueueBytes cfg_ →
  let w' := (send_raw cfg_ clk (encode m) w).2 in
  speaking k (crypto.next_ctr ctr) w' ∧
  queued w' = queued w ++ crypto.record k ctr (encode m) ∧
  (out_size w' <= out_size w + length (crypto.record k ctr (encode m)))%nat.
Proof.
  intros [Hd Hup (s & Hs & <- & <-) Hk Hwf] Hroom w'.
  set (rec := crypto.record _ _ _) in *.
  set (w1 := mk_world (set_sess (Some (crypto.mk_session (crypto.txKey s) (crypto.rxKey s)
    (crypto.next_ctr (crypto.txCtr s)) (crypto.rxCtr s))) (conn w)) (kernel w) (owner w) (calls w) (queued w) (arrived w)).
  assert (w' = ((_ ← append_out rec; t ← now clk; _ ← modify (set_lastSend t); flush_outbound) w1).2)
    as Hw'.
  { subst w'. unfold send_raw, enqueue, mbind at 1, M_bind at 1, get at 1. rewrite Hd, Hup.
    assert (seal_frame (encode m) w = (rec, w1)) as Hseal.
    { unfold seal_frame, mbind, M_bind, get. by rewrite Hs, crypto.seal_record. }
    unfold mbind at 1, M_bind at 1. rewrite Hseal. unfold mbind at 1, M_bind at 1, get at 1.
    rewrite (proj2 (Z.ltb_ge _ _)); [done|exact Hroom]. }
  destruct (handshake.send_frame_benign clk rec w1 Hk) as (Hc & _ & _ & Hq & Hb).
  destruct (bound_finish clk (out_size w1 + length rec) rec w1 Hwf ltac:(lia)) as [Hwf' Hsz].
  cbv zeta in *. rewrite <-Hw' in *.
  assert (∀ {A} (f : t → A), f (handshake.core (conn w')) = f (handshake.core (conn w1))) as Hf
    by (intros A f; by rewrite Hc).
  split_and!; [|by rewrite Hq|exact Hsz]. split; try done.
  - change (dead_ (handshake.core (conn w')) = false). by rewrite (Hf _ dead_).
  - change (established_secure (handshake.core (conn w')) = true). by rewrite (Hf _ established_secure).
  - change (sess_ (conn w')) with (sess_ (handshake.core (conn w'))). rewrite (Hf _ sess_). by eexists.
Qed.

Lemma send_all_stream k ms : ∀ ctr w,
  speaking k ctr w →
  Z.of_nat (out_size w + length (stream_of k ctr ms)) <= maxOutboundQueueBytes cfg_ →
  speaking k (after ctr (length ms)) (send_all ms w) ∧
  queued (send_all ms w) = queued w ++ stream_of k ctr ms.
Proof.
  induction ms as [|m ms IH]; intros ctr w Hw Hroom; [by rewrite app_nil_r|].
  rewrite stream_cons in *. rewrite length_app in Hroom.
  destruct (send_one k ctr m w Hw ltac:(lia)) as (Hw1 & Hq1 & Hs1).
  cbn [length]. rewrite <-after_S.
  destruct (IH (crypto.next_ctr ctr) _ Hw1 ltac:(lia)) as [H1 H2].
  split; [exact H1|]. change (send_all (m :: ms) w) with
    (send_all ms (send_raw cfg_ clk (encode m) w).2). by rewrite H2, Hq1, (assoc_L (++)).
Qed.

End sender.

(** ** From one owner to the other *)

(** [C4] What one owner sends, the other is given.  Take two established, secured
    ends, the first about to seal with the key and counter the second is about
    to open with.  Let the first owner send [ms], and let the second end read,
    in any number of turns and pieces and with interruptions, some of the bytes
    the first has queued.  Then the second owner has been given a beginning of
    [ms], in order, once, unchanged (but for what the format clips); and unless
    the connection has closed, these are exactly the messages whose bytes have
    arrived completely, so once everything has been read nothing is missing.
    Nothing that arrives closes the connection: it stays open if that owner does
    not use it in turn. *)
Theorem link_delivers `{!Sodium, !SodiumLaws} {La Lb} `{!ConnectionListener La, !ConnectionListener Lb}
    cfga cfgb self clka clkb k ctr ms cycles (wa : @world La) (wb : @world Lb) :
  maxMessageBytes cfgb + 68 < 2 ^ 32 → Forall (sendable cfgb) ms →
  speaking k ctr wa →
  Z.of_nat (out_size wa + length (stream_of k ctr ms)) <= maxOutboundQueueBytes cfga →
  hearing k ctr (conn wb) →
  in_ (conn wb) = buffer.empty_buffer → plain_ (conn wb) = buffer.empty_buffer →
  Forall (Forall clean) cycles →
  let wa' := send_all cfga clka ms wa in
  let bytes := concat (map bytes_in cycles) in
  bytes `prefix_of` drop (length (queued wa)) (queued wa') →
  let wb' := read_all cfgb self clkb cycles wb in
  dead_ (conn wa') = false ∧
  ∃ n, given (calls wb') = given (calls wb) ++ omap shown (take n ms) ∧
    (dead_ (conn wb') = false →
       (length (stream_of k ctr (take n ms)) <= length bytes)%nat ∧
       ((n < length ms)%nat → (length bytes < length (stream_of k ctr (take (S n) ms)))%nat) ∧
       (bytes = drop (length (queued wa)) (queued wa') →
          given (calls wb') = given (calls wb) ++ omap shown ms)) ∧
    (quiet_owner (L:=Lb) → dead_ (conn wb') = false).
Proof.
  intros Hlim Hms Hsp Hroom Hh Hin Hpl Hc wa' bytes Hpre wb'.
  destruct (send_all_stream cfga clka k ms ctr wa Hsp Hroom) as [Hsp' Hq].
  fold wa' in Hsp', Hq. rewrite Hq, drop_app_length in *. split; [apply Hsp'|].
  assert (waiting k ctr ms wb) as Hw.
  { split; rewrite ?Hin, ?Hpl; try done; try apply buffer.wf_empty. split; [apply prefix_nil|].
    destruct ms; [done|]. rewrite length_record. simpl. lia. }
  destruct (read_all_stream cfgb self clkb Hlim k cycles ctr ms wb Hms Hw Hc) as (n & Hg & Hl & Hquiet).
  { by rewrite Hin. }
  fold bytes wb' in Hg, Hl, Hquiet. exists n. split_and!; [exact Hg| |exact Hquiet]. intros Hd.
  destruct (Hl Hd) as (Hn & Hw' & E). rewrite Hin in E. simpl in E.
  destruct (wt_partial _ _ _ _ Hw') as [_ Hpart].
  assert ((n < length ms)%nat → (length bytes < length (stream_of k ctr (take (S n) ms)))%nat) as Hnext.
  { intros Hlt. destruct (lookup_lt_is_Some_2 ms n Hlt) as [m Hm].
    rewrite (take_S_r _ _ _ Hm), stream_app, length_take, Nat.min_l by lia.
    rewrite (drop_S _ _ _ Hm) in Hpart. rewrite E, !length_app, stream_cons, length_app. lia. }
  split_and!; [rewrite E, length_app; lia|exact Hnext|].
  intros Hall. rewrite Hg. destruct (decide (n < length ms)%nat) as [Hlt|Hge].
  - specialize (Hnext Hlt). rewrite Hall, <-(take_drop (S n) ms), stream_app in Hnext.
    rewrite take_drop, length_app in Hnext. lia.
  - by rewrite take_ge by lia.
Qed.

(** ** Two connections after their handshake *)

#[local] Existing Instance crypto.toy_sodium.
#[local] Existing Instance crypto.toy_laws.

(** An owner that only counts. *)
#[local] Instance counter_owner : ConnectionListener nat := {|
  on_peer_handshake c h n := Done n;
  on_peer_data c d n := Done (S n);
  on_peer_membership c r n := Done (S n);
  on_peer_identity c r n := Done (S n);
  on_peer_closed c n := n;
  report_error e n := n;
|}.

Definition sample_cfg : mesh_config := connection_facts.sample_cfg.
Definition sample_clock : nat → Z := connection_facts.sample_clock.

Definition sample_a0 : world :=
  accepted (handshake.sample_self 1) sample_clock 5 (1, 2) 11 true (handshake.sample_kernel 1) 0%nat.
Definition sample_b0 : world :=
  (on_connect_complete (handshake.sample_self 2) sample_clock
     (dialed (handshake.sample_self 2) sample_clock (3, 4) 12 (handshake.sample_kernel 2) 0%nat)).2.
Definition sample_a1 : world := read_cycle sample_cfg (handshake.sample_self 1) sample_clock
  [RecvData (queued sample_b0)] sample_a0.
Definition sample_b1 : world := read_cycle sample_cfg (handshake.sample_self 2) sample_clock
  [RecvData (queued sample_a0)] sample_b0.
Definition sample_a : world := read_cycle sample_cfg (handshake.sample_self 1) sample_clock
  [RecvData (handshake.answer sample_b0 sample_b1)] sample_a1.
Definition sample_b : world := read_cycle sample_cfg (handshake.sample_self 2) sample_clock
  [RecvData (handshake.answer sample_a0 sample_a1)] sample_b1.

Definition sample_session : crypto.secure_session :=
  default (crypto.mk_session (zero_array 32) (zero_array 32) 0 0) (sess_ (conn sample_a)).

Definition sample_messages : list message :=
  [MsgData (mk_data_view (sample_id 1) peer_id_zero (mk_message_id (zero_array 16)) 4
      (bytes_of_string "hello"));
   MsgHeartbeat;
   MsgMembership (mk_membership_record (sample_id 1) 3 [sample_id 2])].

(** What the first end has written; it arrives in three pieces. *)
Definition sample_bytes : list byte :=
  drop (length (queued sample_a)) (queued (send_all sample_cfg sample_clock sample_messages sample_a)).
Definition pieces (s : list byte) : list (list recv_result) :=
  [[RecvData (take 30 s); RecvErr EINTR; RecvData (take 40 (drop 30 s))];
   [RecvData (drop 40 (drop 30 s))]].
Definition sample_cycles : list (list recv_result) := pieces sample_bytes.

Lemma sample_speaking :
  speaking (crypto.txKey sample_session) (crypto.txCtr sample_session) sample_a.
Proof.
  split.
  - vm_compute. reflexivity.
  - vm_compute. reflexivity.
  - exists sample_session. split; [|done]. apply some_default. vm_compute. reflexivity.
  - repeat constructor; vm_compute; auto; lia.
  - split; vm_compute; lia.
Qed.

Lemma sample_hearing :
  hearing (crypto.txKey sample_session) (crypto.txCtr sample_session) (conn sample_b).
Proof.
  split_and!; [vm_compute; reflexivity..|].
  exists (default sample_session (sess_ (conn sample_b))).
  split; [apply some_default; vm_compute; reflexivity|]. split; vm_compute; reflexivity.
Qed.

Lemma sample_sendable : Forall (sendable sample_cfg) sample_messages.
Proof. repeat constructor; unfold fits; vm_compute; congruence. Qed.

Lemma clean_data s :
  (0 <? Z.of_nat (length s)) && (Z.of_nat (length s) <=? 65536) = true → clean (RecvData s).
Proof. intros [H1%Z.ltb_lt H2%Z.leb_le]%andb_true_iff. unfold clean, kReadChunk. lia. Qed.

Lemma sample_clean : Forall (Forall clean) sample_cycles.
Proof.
  unfold sample_cycles, pieces.
  repeat first [ apply list.Forall_nil; exact I | apply list.Forall_cons; split
               | apply clean_data; vm_compute; reflexivity | reflexivity ].
Qed.

Lemma pieces_arrive s : concat (map bytes_in (pieces s)) = s.
Proof.
  unfold pieces, bytes_in. cbn [map concat]. rewrite !app_nil_r, app_nil_l, <-(assoc_L (++)).
  by rewrite !take_drop.
Qed.

Lemma link_delivers_witness :
  let wb' := read_all sample_cfg (handshake.sample_self 2) sample_clock sample_cycles sample_b in
  given (calls wb') = omap shown sample_messages ∧ dead_ (conn wb') = false.
Proof.
  pose proof (pieces_arrive sample_bytes : concat (map bytes_in sample_cycles) = sample_bytes) as Hb.
  destruct (link_delivers sample_cfg sample_cfg (handshake.sample_self 2) sample_clock sample_clock
    (crypto.txKey sample_session) (crypto.txCtr sample_session) sample_messages sample_cycles
    sample_a sample_b) as (_ & n & _ & Hall & Hquiet).
  - vm_compute. reflexivity.
  - exact sample_sendable.
  - exact sample_speaking.
  - vm_compute. congruence.
  - exact sample_hearing.
  - vm_compute. reflexivity.
  - vm_compute. reflexivity.
  - exact sample_clean.
  - rewrite Hb. reflexivity.
  - assert (dead_ (conn (read_all sample_cfg (handshake.sample_self 2) sample_clock sample_cycles
      sample_b)) = false) as Hd by (apply Hquiet; repeat split; intros; by eexists).
    split; [|exact Hd]. destruct (Hall Hd) as (_ & _ & H). rewrite (H Hb).
    assert (given (calls sample_b) = []) as -> by (vm_compute; reflexivity). reflexivity.
Defined.

End stream.
