(* ===== verification/PeerManager.v ===== *)
(** * The peer manager ([src/src/peer_manager.hpp], [src/src/peer_manager.cpp])

    Dialling, accepting, dial races, reconnecting, liveness, static peers, the
    gossip of node names and the deferred destruction of connections.  A
    connection is seen through what it promises its owner (see
    PeerConnection.v): an object with an address, whose calls may report errors
    and may close it, upon which it calls [on_peer_closed] once.  Which calls
    do so, the results of [connect] and of name resolution, random numbers and
    the clock are scripts of the environment.  The manager re-enters itself:
    sending to one peer can close that connection, which updates the
    membership, which sends to others; the definitions take the re-entered
    [on_peer_closed] as a parameter and the knot is tied at the end.  The facts
    are in PeerManagerFacts.v. *)
From Stdlib Require Import ZArith Lia.
From Stdlib.Strings Require Import Byte.
From stdpp Require Import base gmap sets list strings numbers option.
From S2P Require Import Prelude PeerId Wire Config Crypto Identity Gossip Membership PeerConnection.

Module peer_manager.

(** The address of a connection object.  Every object gets a new one. *)
Abbreviation ptr := nat.

Abbreviation sockaddr := (Z * Z)%type.

Inductive peer_state := Discovered | Connecting | Connected | Disconnected | Lost.

#[global] Instance peer_state_eq_dec : EqDecision peer_state.
Proof. solve_decision. Defined.

Record peer_record := mk_record {
  r_id : peer_id;
  dialAddr : sockaddr;
  haveAddr : bool;
  state : peer_state;
  lastSeen : Z;
  reconnectAttempts : Z;
  announced : bool;
  isStatic : bool;
  r_conn : option ptr;
}.

Definition record_zero : peer_record :=
  mk_record peer_id_zero (0, 0) false Discovered 0 0 false false None.

Record static_target := mk_static_target {
  t_host : list byte;
  t_port : Z;
  learnedId : option peer_id;
  attempts : Z;
  nextAttempt : Z;
  dialing : option ptr;
}.

(** What the manager reads of a connection. *)
Record conn := mk_conn {
  c_fd : Z;
  c_addr : sockaddr;
  c_inbound : bool;
  c_state : peer_connection.conn_state;
  c_id : peer_id;
  c_created : Z;
  c_recv : Z;
}.

Definition with_state (s : peer_connection.conn_state) (c : conn) : conn :=
  mk_conn (c_fd c) (c_addr c) (c_inbound c) s (c_id c) (c_created c) (c_recv c).
Definition with_fd (fd : Z) (c : conn) : conn :=
  mk_conn fd (c_addr c) (c_inbound c) (c_state c) (c_id c) (c_created c) (c_recv c).
Definition with_id (pid : peer_id) (c : conn) : conn :=
  mk_conn (c_fd c) (c_addr c) (c_inbound c) (c_state c) pid (c_created c) (c_recv c).
Definition with_recv (tnow : Z) (c : conn) : conn :=
  mk_conn (c_fd c) (c_addr c) (c_inbound c) (c_state c) (c_id c) (c_created c) tnow.

(** [peer_manager_delegate]. *)
Inductive event :=
  | PeerDiscovered (id : peer_id)
  | PeerConnected (id : peer_id)
  | PeerDisconnected (id : peer_id)
  | PeerLost (id : peer_id)
  | MemberJoined (id : peer_id)
  | MemberLeft (id : peer_id)
  | MessageReceived (from : peer_id) (payload : list byte)
  | OnError (e : error)
  | ConnectedSnapshot (ids : list peer_id)
  | KnownSnapshot (ids : list peer_id)
  | MembersSnapshot (ids : list peer_id)
  | NamesSnapshot (names : gmap peer_id (list byte)).

Inductive timer_cb := TickTimer | ReapTimer | ReconnectTimer (id : peer_id) | SweepTimer.

(** What a call on a live connection does towards the owner: errors it reports,
    and whether it closes the connection. *)
Record outcome := mk_outcome { errors : list error; closes : bool }.

(** [start_connect]: the socket it opened, and the failure if there was one. *)
Record connect_result := mk_connect { new_fd : Z; failure : option (list error) }.

(** The scripts; one that has run out stands for calls that succeed, name
    resolution that fails, and zero. *)
Record world := mk_world {
  outcomes : list outcome;
  connects : list connect_result;
  draws : list Z;
  resolutions : list (option sockaddr);
  readings : nat;
  next_ptr : ptr;
}.

(** Observations: calls of the delegate, timers armed and frames handed to
    connections (latest first); [walking] while a range-for runs over [conns_],
    [invalidated] if [conns_] grew meanwhile, [dangled] if a destroyed object was
    used, [starved] if the re-entrance exceeded the model's depth. *)
Record trace := mk_trace {
  delegate_ : list event;
  armed : list (Z * timer_cb);
  sent : list (ptr * list byte);
  walking : bool;
  invalidated : bool;
  dangled : bool;
  starved : bool;
}.

Record t := mk {
  running_ : bool;
  conns_ : list ptr;
  records_ : gmap peer_id peer_record;
  estab_ : gmap peer_id ptr;
  static_targets_ : list static_target;
  static_dial_conn_ : gmap ptr nat;
  names_ : gmap peer_id (list byte);
  idVersions_ : gmap peer_id Z;
  selfIdVersion_ : Z;
  lastIdFlood_ : Z;
  reap_ : list ptr;
  reapScheduled_ : bool;
  router_ : gossip_router.t;
  membership_ : membership.t;
  objects : gmap ptr conn;
  env : world;
  obs : trace;
}.

Definition set_running (x : bool) (w : t) : t :=
  mk x (conns_ w) (records_ w) (estab_ w) (static_targets_ w) (static_dial_conn_ w) (names_ w)
    (idVersions_ w) (selfIdVersion_ w) (lastIdFlood_ w) (reap_ w) (reapScheduled_ w) (router_ w)
    (membership_ w) (objects w) (env w) (obs w).
Definition set_conns (x : list ptr) (w : t) : t :=
  mk (running_ w) x (records_ w) (estab_ w) (static_targets_ w) (static_dial_conn_ w) (names_ w)
    (idVersions_ w) (selfIdVersion_ w) (lastIdFlood_ w) (reap_ w) (reapScheduled_ w) (router_ w)
    (membership_ w) (objects w) (env w) (obs w).
Definition set_records (x : gmap peer_id peer_record) (w : t) : t :=
  mk (running_ w) (conns_ w) x (estab_ w) (static_targets_ w) (static_dial_conn_ w) (names_ w)
    (idVersions_ w) (selfIdVersion_ w) (lastIdFlood_ w) (reap_ w) (reapScheduled_ w) (router_ w)
    (membership_ w) (objects w) (env w) (obs w).
Definition set_estab (x : gmap peer_id ptr) (w : t) : t :=
  mk (running_ w) (conns_ w) (records_ w) x (static_targets_ w) (static_dial_conn_ w) (names_ w)
    (idVersions_ w) (selfIdVersion_ w) (lastIdFlood_ w) (reap_ w) (reapScheduled_ w) (router_ w)
    (membership_ w) (objects w) (env w) (obs w).
Definition set_static_targets (x : list static_target) (w : t) : t :=
  mk (running_ w) (conns_ w) (records_ w) (estab_ w) x (static_dial_conn_ w) (names_ w)
    (idVersions_ w) (selfIdVersion_ w) (lastIdFlood_ w) (reap_ w) (reapScheduled_ w) (router_ w)
    (membership_ w) (objects w) (env w) (obs w).
Definition set_static_dial_conn (x : gmap ptr nat) (w : t) : t :=
  mk (running_ w) (conns_ w) (records_ w) (estab_ w) (static_targets_ w) x (names_ w)
    (idVersions_ w) (selfIdVersion_ w) (lastIdFlood_ w) (reap_ w) (reapScheduled_ w) (router_ w)
    (membership_ w) (objects w) (env w) (obs w).
Definition set_names (x : gmap peer_id (list byte)) (w : t) : t :=
  mk (running_ w) (conns_ w) (records_ w) (estab_ w) (static_targets_ w) (static_dial_conn_ w) x
    (idVersions_ w) (selfIdVersion_ w) (lastIdFlood_ w) (reap_ w) (reapScheduled_ w) (router_ w)
    (membership_ w) (objects w) (env w) (obs w).
Definition set_idVersions (x : gmap peer_id Z) (w : t) : t :=
  mk (running_ w) (conns_ w) (records_ w) (estab_ w) (static_targets_ w) (static_dial_conn_ w)
    (names_ w) x (selfIdVersion_ w) (lastIdFlood_ w) (reap_ w) (reapScheduled_ w) (router_ w)
    (membership_ w) (objects w) (env w) (obs w).
Definition set_selfIdVersion (x : Z) (w : t) : t :=
  mk (running_ w) (conns_ w) (records_ w) (estab_ w) (static_targets_ w) (static_dial_conn_ w)
    (names_ w) (idVersions_ w) x (lastIdFlood_ w) (reap_ w) (reapScheduled_ w) (router_ w)
    (membership_ w) (objects w) (env w) (obs w).
Definition set_lastIdFlood (x : Z) (w : t) : t :=
  mk (running_ w) (conns_ w) (records_ w) (estab_ w) (static_targets_ w) (static_dial_conn_ w)
    (names_ w) (idVersions_ w) (selfIdVersion_ w) x (reap_ w) (reapScheduled_ w) (router_ w)
    (membership_ w) (objects w) (env w) (obs w).
Definition set_reap (x : list ptr) (w : t) : t :=
  mk (running_ w) (conns_ w) (records_ w) (estab_ w) (static_targets_ w) (static_dial_conn_ w)
    (names_ w) (idVersions_ w) (selfIdVersion_ w) (lastIdFlood_ w) x (reapScheduled_ w)
    (router_ w) (membership_ w) (objects w) (env w) (obs w).
Definition set_reapScheduled (x : bool) (w : t) : t :=
  mk (running_ w) (conns_ w) (records_ w) (estab_ w) (static_targets_ w) (static_dial_conn_ w)
    (names_ w) (idVersions_ w) (selfIdVersion_ w) (lastIdFlood_ w) (reap_ w) x (router_ w)
    (membership_ w) (objects w) (env w) (obs w).
Definition set_router (x : gossip_router.t) (w : t) : t :=
  mk (running_ w) (conns_ w) (records_ w) (estab_ w) (static_targets_ w) (static_dial_conn_ w)
    (names_ w) (idVersions_ w) (selfIdVersion_ w) (lastIdFlood_ w) (reap_ w) (reapScheduled_ w)
    x (membership_ w) (objects w) (env w) (obs w).
Definition set_membership (x : membership.t) (w : t) : t :=
  mk (running_ w) (conns_ w) (records_ w) (estab_ w) (static_targets_ w) (static_dial_conn_ w)
    (names_ w) (idVersions_ w) (selfIdVersion_ w) (lastIdFlood_ w) (reap_ w) (reapScheduled_ w)
    (router_ w) x (objects w) (env w) (obs w).
Definition set_objects (x : gmap ptr conn) (w : t) : t :=
  mk (running_ w) (conns_ w) (records_ w) (estab_ w) (static_targets_ w) (static_dial_conn_ w)
    (names_ w) (idVersions_ w) (selfIdVersion_ w) (lastIdFlood_ w) (reap_ w) (reapScheduled_ w)
    (router_ w) (membership_ w) x (env w) (obs w).
Definition set_env (x : world) (w : t) : t :=
  mk (running_ w) (conns_ w) (records_ w) (estab_ w) (static_targets_ w) (static_dial_conn_ w)
    (names_ w) (idVersions_ w) (selfIdVersion_ w) (lastIdFlood_ w) (reap_ w) (reapScheduled_ w)
    (router_ w) (membership_ w) (objects w) x (obs w).
Definition set_obs (x : trace) (w : t) : t :=
  mk (running_ w) (conns_ w) (records_ w) (estab_ w) (static_targets_ w) (static_dial_conn_ w)
    (names_ w) (idVersions_ w) (selfIdVersion_ w) (lastIdFlood_ w) (reap_ w) (reapScheduled_ w)
    (router_ w) (membership_ w) (objects w) (env w) x.


Definition M (A : Type) : Type := t → A * t.

#[global] Instance M_ret : MRet M := λ A x w, (x, w).
#[global] Instance M_bind : MBind M := λ A B f m w, let '(x, w') := m w in f x w'.

Definition get : M t := λ w, (w, w).
Definition modify (f : t → t) : M unit := λ w, ((), f w).
Definition when (b : bool) (m : M unit) : M unit := if b then m else mret ().

Fixpoint each {A} (l : list A) (f : A → M unit) : M unit :=
  match l with [] => mret () | x :: l => _ ← f x; each l f end.

(** ** Observations *)

Definition notify (e : event) : M unit := modify (λ w, let o := obs w in
  set_obs (mk_trace (e :: delegate_ o) (armed o) (sent o) (walking o) (invalidated o) (dangled o)
    (starved o)) w).
Definition add_timer (delay : Z) (cb : timer_cb) : M unit := modify (λ w, let o := obs w in
  set_obs (mk_trace (delegate_ o) ((delay, cb) :: armed o) (sent o) (walking o) (invalidated o)
    (dangled o) (starved o)) w).
Definition note_sent (p : ptr) (frame : list byte) : M unit := modify (λ w, let o := obs w in
  set_obs (mk_trace (delegate_ o) (armed o) ((p, frame) :: sent o) (walking o) (invalidated o)
    (dangled o) (starved o)) w).
Definition set_walking (b : bool) : M unit := modify (λ w, let o := obs w in
  set_obs (mk_trace (delegate_ o) (armed o) (sent o) b (invalidated o) (dangled o) (starved o)) w).
Definition note_dangled : M unit := modify (λ w, let o := obs w in
  set_obs (mk_trace (delegate_ o) (armed o) (sent o) (walking o) (invalidated o) true (starved o)) w).
Definition note_starved : M unit := modify (λ w, let o := obs w in
  set_obs (mk_trace (delegate_ o) (armed o) (sent o) (walking o) (invalidated o) (dangled o) true) w).

(** ** The environment *)

Definition next_outcome : M outcome := λ w, let e := env w in
  match outcomes e with
  | [] => (mk_outcome [] false, w)
  | o :: os => (o, set_env (mk_world os (connects e) (draws e) (resolutions e) (readings e)
                              (next_ptr e)) w)
  end.

Definition next_connect : M connect_result := λ w, let e := env w in
  match connects e with
  | [] => (mk_connect 0 None, w)
  | o :: os => (o, set_env (mk_world (outcomes e) os (draws e) (resolutions e) (readings e)
                              (next_ptr e)) w)
  end.

Definition rng_ : M Z := λ w, let e := env w in
  match draws e with
  | [] => (0, w)
  | o :: os => (o, set_env (mk_world (outcomes e) (connects e) os (resolutions e) (readings e)
                              (next_ptr e)) w)
  end.

(** [resolve_endpoint]: a numeric literal or the answer of [getaddrinfo]. *)
Definition resolve_endpoint (host : list byte) (port : Z) : M (option sockaddr) := λ w,
  let e := env w in
  match resolutions e with
  | [] => (None, w)
  | o :: os => (option_map (λ a, (a.1, port)) o,
                set_env (mk_world (outcomes e) (connects e) (draws e) os (readings e)
                           (next_ptr e)) w)
  end.

(** ** Connections as objects *)

Definition deref (p : ptr) : M (option conn) :=
  w ← get;
  match objects w !! p with
  | Some c => mret (Some c)
  | None => _ ← note_dangled; mret None
  end.

(** Run [f] on the object at [p]. *)
Definition with_conn (p : ptr) (f : conn → M unit) : M unit :=
  c ← deref p;
  match c with Some c => f c | None => mret () end.

Definition alter_conn (p : ptr) (f : conn → conn) (w : t) : t :=
  set_objects (alter f p (objects w)) w.

Definition is_dead (c : conn) : bool := bool_decide (c_state c = peer_connection.Dead).

Definition is_established (c : conn) : bool := bool_decide (c_state c = peer_connection.Established).

Section manager.

Context {Sod : Sodium} (cfg_ : mesh_config) (self_ : local_identity) (clk : nat → Z).

(** [event_loop::clock::now()]. *)
Definition now : M Z := λ w, let e := env w in
  (clk (readings e), set_env (mk_world (outcomes e) (connects e) (draws e) (resolutions e)
                                (S (readings e)) (next_ptr e)) w).

(** A new object, owned by the caller. *)
Definition alloc (c : conn) : M ptr := λ w,
  let e := env w in
  let p := next_ptr e in
  (p, set_env (mk_world (outcomes e) (connects e) (draws e) (resolutions e) (readings e) (S p))
        (set_objects (<[p := c]> (objects w)) w)).

Definition make_conn (fd : Z) (addr : sockaddr) (inbound : bool) (st : peer_connection.conn_state)
    : M ptr :=
  tnow ← now;
  alloc (mk_conn fd addr inbound st peer_id_zero tnow tnow).

(** [conns_.push_back(...)]. *)
Definition push_conn (p : ptr) : M unit := modify (λ w, let o := obs w in
  set_obs (mk_trace (delegate_ o) (armed o) (sent o) (walking o) (invalidated o || walking o)
    (dangled o) (starved o)) (set_conns (conns_ w ++ [p]) w)).

(** ** Snapshots *)

Definition emit_connected_snapshot : M unit :=
  w ← get; notify (ConnectedSnapshot (map fst (map_to_list (estab_ w)))).

Definition emit_known_snapshot : M unit :=
  w ← get; notify (KnownSnapshot (map fst (map_to_list (records_ w)))).

Definition emit_names_snapshot : M unit := w ← get; notify (NamesSnapshot (names_ w)).

Definition report_error (e : error) : M unit := notify (OnError e).

(** ** Back-off *)

(** A [long long]: the representative of [z] modulo [2^64] in the signed range. *)
Definition i64 (z : Z) : Z := (z + 2 ^ 63) `mod` 2 ^ 64 - 2 ^ 63.

(** The delay in milliseconds before the attempt after [n] failed ones, with
    the jitter picked by [draw] from its range. *)
Definition backoff (n draw : Z) : Z :=
  let base := reconnectBase cfg_ in
  let att := Z.min n 20 in
  let delay := i64 (Z.shiftl base att) in
  let cap := reconnectMax cfg_ in
  let delay := if (cap <? delay) || (delay <? 0) then cap else delay in
  delay + draw `mod` (Z.max 1 (Z.quot delay 5) + 1).

Definition alter_record (id : peer_id) (f : peer_record → peer_record) (w : t) : t :=
  set_records (alter f id (records_ w)) w.

Definition with_attempts (n : Z) (r : peer_record) : peer_record :=
  mk_record (r_id r) (dialAddr r) (haveAddr r) (state r) (lastSeen r) n (announced r) (isStatic r)
    (r_conn r).
Definition with_link (s : peer_state) (c : option ptr) (r : peer_record) : peer_record :=
  mk_record (r_id r) (dialAddr r) (haveAddr r) s (lastSeen r) (reconnectAttempts r) (announced r)
    (isStatic r) c.
Definition with_announced (r : peer_record) : peer_record :=
  mk_record (r_id r) (dialAddr r) (haveAddr r) (state r) (lastSeen r) (reconnectAttempts r) true
    (isStatic r) (r_conn r).

(** [schedule_reconnect(r)] for the record of [id]. *)
Definition schedule_reconnect (id : peer_id) : M unit :=
  w ← get;
  match records_ w !! id with
  | None => mret ()
  | Some r =>
      if negb (running_ w) then mret ()
      else if bool_decide (state r = Connected ∨ state r = Lost) then mret ()
      else
        draw ← rng_;
        _ ← modify (alter_record id (with_attempts (reconnectAttempts r + 1)));
        add_timer (ms (backoff (reconnectAttempts r) draw)) (ReconnectTimer (r_id r))
  end.

Definition schedule_reap : M unit :=
  w ← get;
  if reapScheduled_ w then mret ()
  else
    _ ← modify (set_reapScheduled true);
    add_timer 0 ReapTimer.

Definition schedule_tick : M unit := add_timer (ms (heartbeatInterval cfg_)) TickTimer.

(** ** Operations that may re-enter the manager *)

Section reentrant.

(** [on_peer_closed], as a connection calls it. *)
Variable on_closed : ptr → M unit.

(** [mark_dead] of a live connection. *)
Definition kill (p : ptr) : M unit :=
  _ ← modify (alter_conn p (with_state peer_connection.Dead));
  on_closed p.

(** The effect of a call on the live connection [p]. *)
Definition settle (p : ptr) (o : outcome) : M unit :=
  _ ← each (errors o) report_error;
  when (closes o) (kill p).

Definition send_raw (p : ptr) (frame : list byte) : M unit :=
  with_conn p (λ c,
    if is_dead c then mret ()
    else
      _ ← note_sent p frame;
      o ← next_outcome;
      settle p o).

(** The goodbye may close the connection; otherwise [mark_dead] does. *)
Definition close_gracefully (p : ptr) : M unit :=
  with_conn p (λ c,
    if is_dead c then mret ()
    else
      o ← next_outcome;
      settle p (mk_outcome (errors o) true)).

Definition maybe_heartbeat (p : ptr) : M unit :=
  with_conn p (λ c,
    if negb (is_established c) then mret ()
    else o ← next_outcome; settle p o).

Definition start_connect (p : ptr) : M bool :=
  r ← next_connect;
  _ ← modify (alter_conn p (with_fd (new_fd r)));
  match failure r with
  | None => mret true
  | Some es => _ ← settle p (mk_outcome es true); mret false
  end.

(** *** Forwarding *)

(** The connections of [l] whose socket is not [exceptFd]. *)
Fixpoint pick_targets (l : list ptr) (exceptFd : Z) : M (list ptr) :=
  match l with
  | [] => mret []
  | p :: l =>
      c ← deref p;
      targets ← pick_targets l exceptFd;
      mret (match c with
            | Some c => if c_fd c =? exceptFd then targets else p :: targets
            | None => targets
            end)
  end.

Definition forward_except (frame : list byte) (exceptFd : Z) : M unit :=
  w ← get;
  targets ← pick_targets (map snd (map_to_list (estab_ w))) exceptFd;
  each targets (λ p, send_raw p frame).

Definition forward_to (dst : peer_id) (frame : list byte) : M bool :=
  w ← get;
  match estab_ w !! dst with
  | None => mret false
  | Some p => _ ← send_raw p frame; mret true
  end.

Definition deliver_local (from : peer_id) (payload : list byte) : M unit :=
  notify (MessageReceived from payload).

#[local] Instance manager_forwarder : Forwarder t := {|
  Gossip.forward_except frame fd w := (forward_except frame fd w).2;
  Gossip.forward_to dst frame w := forward_to dst frame w;
  Gossip.deliver_local from payload w := (deliver_local from payload w).2;
|}.

(** *** Membership *)

(** The delegate's callbacks of the membership component, and its [flood]. *)
Definition run_effect (e : membership.effect) : M unit :=
  match e with
  | membership.MemberJoined id => notify (MemberJoined id)
  | membership.MemberLeft id => notify (MemberLeft id)
  | membership.MembersSnapshot ids => notify (MembersSnapshot ids)
  | membership.FloodFrame frame fd => forward_except frame fd
  end.

(** An operation of [membership_]. *)
Definition on_membership (f : membership.t → membership.t * list membership.effect) : M unit :=
  w ← get;
  let '(m, es) := f (membership_ w) in
  _ ← modify (set_membership m);
  each es run_effect.

Definition update_local_membership : M unit :=
  w ← get;
  let direct := map fst (map_to_list (estab_ w)) in
  tnow ← now;
  on_membership (membership.set_local_neighbors direct tnow).

(** *** Static peers *)

Definition alter_target (i : nat) (f : static_target → static_target) (w : t) : t :=
  set_static_targets (alter f i (static_targets_ w)) w.

Definition with_dialing (d : option ptr) (s : static_target) : static_target :=
  mk_static_target (t_host s) (t_port s) (learnedId s) (attempts s) (nextAttempt s) d.
Definition with_retry (n next : Z) (s : static_target) : static_target :=
  mk_static_target (t_host s) (t_port s) (learnedId s) n next (dialing s).
Definition with_learned (pid : peer_id) (s : static_target) : static_target :=
  mk_static_target (t_host s) (t_port s) (Some pid) 0 (nextAttempt s) None.

Definition start_static_dial (i : nat) : M unit :=
  w ← get;
  match static_targets_ w !! i with
  | None => mret ()
  | Some s =>
      a ← resolve_endpoint (t_host s) (t_port s);
      match a with
      | None =>
          report_error (mk_error ErrDiscovery 0
            (bytes_of_string "static peer DNS resolution failed: " ++ t_host s) None)
      | Some addr =>
          p ← make_conn (-1) addr false peer_connection.ConnectingOut;
          _ ← push_conn p;
          _ ← modify (alter_target i (with_dialing (Some p)));
          _ ← modify (λ w, set_static_dial_conn (<[p := i]> (static_dial_conn_ w)) w);
          _ ← start_connect p;
          mret ()
      end
  end.

Definition maintain_target (tnow : Z) (i : nat) : M unit :=
  w ← get;
  match static_targets_ w !! i with
  | None => mret ()
  | Some s =>
      if match learnedId s with Some l => bool_decide (is_Some (estab_ w !! l)) | None => false end
      then modify (alter_target i (with_retry 0 (nextAttempt s)))
      else if bool_decide (is_Some (dialing s)) then mret ()
      else if tnow <? nextAttempt s then mret ()
      else
        draw ← rng_;
        _ ← modify (alter_target i (with_retry (attempts s + 1)
              (tnow + ms (backoff (attempts s) draw))));
        start_static_dial i
  end.

Definition maintain_static_peers : M unit :=
  w ← get;
  if negb (running_ w) then mret ()
  else
    tnow ← now;
    w ← get;
    each (seq 0 (length (static_targets_ w))) (maintain_target tnow).

(** *** The end of a connection *)

(** Free the slot of an in-flight static dial. *)
Definition free_slot (p : ptr) (w : t) : t :=
  match static_dial_conn_ w !! p with
  | None => w
  | Some i => set_static_dial_conn (delete p (static_dial_conn_ w))
                (alter_target i (with_dialing None) w)
  end.

(** Detach from [estab_] if [p] is the live link of [pid]. *)
Definition detach (p : ptr) (pid : peer_id) (w : t) : t :=
  if is_zero pid then w
  else if bool_decide (estab_ w !! pid = Some p) then set_estab (delete pid (estab_ w)) w
  else w.

(** The owning record: by identifier, else by pointer. *)
Definition owning_record (p : ptr) (pid : peer_id) (w : t) : option peer_id :=
  if negb (is_zero pid) && bool_decide (is_Some (records_ w !! pid)) then Some pid
  else
    match filter (λ kr, r_conn kr.2 = Some p) (map_to_list (records_ w)) with
    | [] => None
    | (k, _) :: _ => Some k
    end.

Definition on_peer_closed_body (p : ptr) : M unit :=
  with_conn p (λ c,
    let pid := c_id c in
    _ ← modify (free_slot p);
    _ ← modify (detach p pid);
    w ← get;
    _ ← match owning_record p pid w with
        | None => mret ()
        | Some k =>
            match records_ w !! k with
            | None => mret ()
            | Some r =>
                if negb (bool_decide (r_conn r = Some p)) then mret ()
                else
                  _ ← modify (alter_record k (with_link Disconnected None));
                  _ ← when (bool_decide (state r = Connected))
                        (_ ← notify (PeerDisconnected (r_id r));
                         _ ← emit_connected_snapshot;
                         update_local_membership);
                  if isStatic r then maintain_static_peers else schedule_reconnect k
            end
        end;
    _ ← modify (λ w, set_reap (reap_ w ++ [p]) w);
    schedule_reap).

(** *** Discovery and dialling *)

Definition start_dial (id : peer_id) : M unit :=
  w ← get;
  match records_ w !! id with
  | None => mret ()
  | Some r =>
      p ← make_conn (-1) (dialAddr r) false peer_connection.ConnectingOut;
      _ ← push_conn p;
      _ ← modify (alter_record id (with_link Connecting (Some p)));
      _ ← start_connect p;
      mret ()
  end.

Definition maybe_dial (id : peer_id) : M unit :=
  w ← get;
  match records_ w !! id with
  | None => mret ()
  | Some r =>
      if negb (running_ w) then mret ()
      else if peer_id_eqb (r_id r) (l_nodeId self_) then mret ()
      else if bool_decide (state r = Connected ∨ state r = Connecting) then mret ()
      else if negb (haveAddr r) then mret ()
      else if negb (fanout cfg_ =? 0) && (fanout cfg_ <=? Z.of_nat (size (estab_ w))) then mret ()
      else start_dial id
  end.

Definition start_dial_addr (addr : sockaddr) : M unit :=
  p ← make_conn (-1) addr false peer_connection.ConnectingOut;
  _ ← push_conn p;
  _ ← start_connect p;
  mret ().

(** [records_[id]]: the record, created if it is missing. *)
Definition touch_record (id : peer_id) (f : peer_record → peer_record) (w : t) : t :=
  set_records (<[id := f (default record_zero (records_ w !! id))]> (records_ w)) w.

(** Tell the delegate of a record it has not heard of. *)
Definition announce_once (id : peer_id) : M unit :=
  w ← get;
  match records_ w !! id with
  | None => mret ()
  | Some r =>
      when (negb (announced r))
        (_ ← modify (alter_record id with_announced);
         _ ← notify (PeerDiscovered id);
         emit_known_snapshot)
  end.

Definition on_discovered (a : announce) (src : sockaddr) : M unit :=
  tnow ← now;
  let pid := a_nodeId a in
  _ ← modify (touch_record pid (λ r,
        mk_record pid (src.1, a_tcpListenPort a) true (state r) tnow (reconnectAttempts r)
          (announced r) (isStatic r) (r_conn r)));
  _ ← announce_once pid;
  _ ← modify (alter_record pid (λ r,
        if bool_decide (state r = Lost) then with_link Disconnected (r_conn r) r else r));
  maybe_dial pid.

(** The constructor sends the hello, which can fail before the object is
    stored in [conns_]. *)
Definition accept_connection (fd : Z) (addr : sockaddr) : M unit :=
  p ← make_conn fd addr true peer_connection.Handshaking;
  o ← next_outcome;
  _ ← settle p o;
  push_conn p.

Definition dial_seeds : M unit :=
  w ← get;
  if negb (running_ w) then mret ()
  else each (seedPeers cfg_) (λ s,
    a ← resolve_endpoint (host s) (port s);
    match a with None => mret () | Some addr => start_dial_addr addr end).

(** *** Connection events *)

Definition keep_existing (existing neu : conn) (peer : peer_id) : bool :=
  if Bool.eqb (c_inbound existing) (c_inbound neu) then true
  else
    let weAreLower := peer_id_ltb (l_nodeId self_) peer in
    let winnerInbound := negb weAreLower in
    Bool.eqb (c_inbound existing) winnerInbound.

(** The bytes of a name record that are signed. *)
Definition id_record_msg (version : Z) (name : list byte) : list byte :=
  bytes_of_string "mm-idrec-v1" ++
  map (λ i, byte_of_Z (Z.land (Z.shiftr version (i * 8)) 0xFF)) [7; 6; 5; 4; 3; 2; 1; 0] ++ name.

Definition make_self_id_record : M identity_record :=
  w ← get;
  let v := wrap 64 (selfIdVersion_ w + 1) in
  _ ← modify (set_selfIdVersion v);
  mret (mk_identity_record (crypto.id_pk (l_idKeys self_)) v (l_nodeName self_)
          (crypto.sign (id_record_msg v (l_nodeName self_)) (crypto.id_sk (l_idKeys self_)))).

Definition flood_self_identity (exceptFd : Z) : M unit :=
  if negb (l_hasIdentity self_) then mret ()
  else
    rec ← make_self_id_record;
    _ ← forward_except (encode_identity rec) exceptFd;
    tnow ← now;
    modify (set_lastIdFlood tnow).

(** Bind the target of a static dial to the identifier it answered with. *)
Definition bind_static (p : ptr) (pid : peer_id) : M bool :=
  w ← get;
  match static_dial_conn_ w !! p with
  | None => mret false
  | Some i =>
      _ ← match static_targets_ w !! i with
          | Some s =>
              match learnedId s with
              | Some old =>
                  when (negb (peer_id_eqb old pid))
                    (_ ← modify (λ w, set_records (delete old (records_ w)) w);
                     emit_known_snapshot)
              | None => mret ()
              end
          | None => mret ()
          end;
      _ ← modify (alter_target i (with_learned pid));
      _ ← modify (λ w, set_static_dial_conn (delete p (static_dial_conn_ w)) w);
      mret true
  end.

(** Install [p] as the link to [pid], and close the one it replaces. *)
Definition install (p : ptr) (pid : peer_id) (peer : hello) (existing : option ptr) : M unit :=
  w ← get;
  let wasConnected := match records_ w !! pid with
                      | Some r => bool_decide (state r = Connected)
                      | None => false
                      end in
  _ ← modify (λ w, set_estab (<[pid := p]> (estab_ w)) w);
  _ ← modify (alter_record pid (λ r, with_attempts 0 (with_link Connected (Some p) r)));
  _ ← when (h_hasIdentity peer)
        (_ ← modify (λ w, set_names (<[pid := h_nodeName peer]> (names_ w)) w);
         emit_names_snapshot);
  _ ← when (l_hasIdentity self_)
        (rec ← make_self_id_record;
         send_raw p (encode_identity rec));
  _ ← match existing with Some q => close_gracefully q | None => mret () end;
  when (negb wasConnected)
    (_ ← notify (PeerConnected pid);
     _ ← emit_connected_snapshot;
     update_local_membership).

Definition on_peer_handshake (p : ptr) (peer : hello) : M unit :=
  with_conn p (λ c,
    let pid := c_id c in
    if peer_id_eqb pid (l_nodeId self_) then close_gracefully p
    else
      fromStatic ← bind_static p pid;
      tnow ← now;
      _ ← modify (touch_record pid (λ r,
            mk_record pid ((c_addr c).1, h_tcpListenPort peer) true (state r) tnow
              (reconnectAttempts r) (announced r) (isStatic r || fromStatic) (r_conn r)));
      _ ← announce_once pid;
      w ← get;
      match estab_ w !! pid with
      | Some q =>
          if (q =? p)%nat then install p pid peer None
          else with_conn q (λ existing,
            if keep_existing existing c pid then close_gracefully p
            else install p pid peer (Some q))
      | None => install p pid peer None
      end).

(** An operation of [router_] with the manager as its forwarder. *)
Definition on_router (f : gossip_router.t → t → gossip_router.t * t) : M unit := λ w,
  let '(r, w) := f (router_ w) w in ((), set_router r w).

Definition on_peer_data (p : ptr) (view : data_view) : M unit :=
  with_conn p (λ c,
    tnow ← now;
    on_router (gossip_router.on_data tnow view (c_fd c))).

Definition on_peer_membership (p : ptr) (rec : membership_record) : M unit :=
  with_conn p (λ c,
    tnow ← now;
    on_membership (membership.on_remote_record rec (c_fd c) tnow)).

Definition is_trusted (pk : id_pubkey) : bool :=
  match l_trustedKeys self_ with
  | [] => true
  | keys => existsb (λ k, bool_decide (k = pk)) keys
  end.

Definition on_peer_identity (p : ptr) (rec : identity_record) : M unit :=
  if negb (l_hasIdentity self_) then mret ()
  else
    let origin := mk_peer_id (crypto.id_from_identity (ir_idPubKey rec)) in
    if peer_id_eqb origin (l_nodeId self_) then mret ()
    else if negb (is_trusted (ir_idPubKey rec)) then mret ()
    else if negb (crypto.verify_sig (id_record_msg (ir_version rec) (ir_name rec))
                    (ir_signature rec) (ir_idPubKey rec)) then mret ()
    else
      w ← get;
      if match idVersions_ w !! origin with Some v => ir_version rec <=? v | None => false end
      then mret ()
      else
        _ ← modify (λ w, set_idVersions (<[origin := ir_version rec]> (idVersions_ w)) w);
        _ ← when (negb (bool_decide (names_ w !! origin = Some (ir_name rec))))
              (_ ← modify (λ w, set_names (<[origin := ir_name rec]> (names_ w)) w);
               emit_names_snapshot);
        with_conn p (λ c, forward_except (encode_identity rec) (c_fd c)).

(** *** The tick *)

Definition tick_conn (tnow : Z) (p : ptr) : M unit :=
  with_conn p (λ c,
    match c_state c with
    | peer_connection.Established =>
        _ ← maybe_heartbeat p;
        when (ms (heartbeatTimeout cfg_) <? tnow - c_recv c) (close_gracefully p)
    | peer_connection.Dead => mret ()
    | _ => when (ms (handshakeTimeout cfg_) <? tnow - c_created c) (close_gracefully p)
    end).

Definition is_lost (tnow : Z) (r : peer_record) : bool :=
  negb (isStatic r) && negb (bool_decide (state r = Connected ∨ state r = Lost)) &&
  (ms (peerLostTimeout cfg_) <? tnow - lastSeen r).

Definition lose_records (tnow : Z) : M unit :=
  w ← get;
  let toLose := map fst (filter (λ kr, is_lost tnow kr.2 = true) (map_to_list (records_ w))) in
  when (negb (bool_decide (toLose = [])))
    (_ ← each toLose (λ id,
           _ ← notify (PeerLost id);
           modify (λ w, set_records (delete id (records_ w)) w));
     emit_known_snapshot).

Definition tick : M unit :=
  w ← get;
  if negb (running_ w) then mret ()
  else
    tnow ← now;
    _ ← set_walking true;
    _ ← each (conns_ w) (tick_conn tnow);
    _ ← set_walking false;
    _ ← lose_records tnow;
    _ ← maintain_static_peers;
    _ ← on_membership (membership.tick tnow);
    w ← get;
    _ ← when (l_hasIdentity self_ && (ms (membershipInterval cfg_) <=? tnow - lastIdFlood_ w))
          (flood_self_identity (-1));
    w ← get;
    _ ← when (bool_decide (estab_ w = ∅)) dial_seeds;
    schedule_tick.

Definition on_reconnect_timer (id : peer_id) : M unit :=
  w ← get;
  if negb (running_ w) then mret ()
  else
    match records_ w !! id with
    | None => mret ()
    | Some r =>
        if bool_decide (state r = Connected ∨ state r = Connecting) then mret ()
        else if bool_decide (state r = Lost) then mret ()
        else
          tnow ← now;
          if ms (peerLostTimeout cfg_) <? tnow - lastSeen r then mret ()
          else maybe_dial id
    end.

(** *** Start, shutdown, reaping *)

(** [router_.start()] arms the first eviction sweep. *)
Definition router_start : M unit :=
  let period := Z.quot (dedupTtl cfg_) 4 in
  add_timer (ms (if period <=? 0 then 1000 else period)) SweepTimer.

Definition start : M unit :=
  _ ← modify (set_running true);
  _ ← router_start;
  _ ← modify (λ w, set_static_targets (static_targets_ w ++
        map (λ s, mk_static_target (host s) (port s) None 0 0 None) (staticPeers cfg_)) w);
  _ ← dial_seeds;
  _ ← maintain_static_peers;
  schedule_tick.

Definition shutdown : M unit :=
  _ ← modify (set_running false);
  w ← get;
  _ ← set_walking true;
  _ ← each (conns_ w) (λ p, with_conn p (λ c, when (is_established c) (close_gracefully p)));
  _ ← set_walking false;
  modify (λ w,
    set_reap [] (set_membership (membership.clear (membership_ w))
      (set_static_dial_conn ∅ (set_static_targets [] (set_records ∅
        (set_objects (filter (λ pc, pc.1 ∉ conns_ w) (objects w))
          (set_conns [] (set_estab ∅ w)))))))).

Definition reap : M unit :=
  _ ← modify (set_reapScheduled false);
  modify (λ w,
    set_objects (filter (λ pc, ¬ (pc.1 ∈ conns_ w ∧ pc.1 ∈ reap_ w)) (objects w))
      (set_conns (filter (λ p, p ∉ reap_ w) (conns_ w)) (set_reap [] w))).

Definition originate_broadcast (payload : list byte) : M unit :=
  tnow ← now;
  on_router (gossip_router.originate_broadcast tnow payload).

Definition originate_targeted (dst : peer_id) (payload : list byte) : M unit :=
  tnow ← now;
  on_router (gossip_router.originate_targeted tnow dst payload).

(** *** What can happen *)

(** Calls of the manager by the rest of the program, and steps of a
    connection with the calls it makes. *)
Inductive op :=
  | Start
  | Shutdown
  | Discover (a : announce) (src : sockaddr)
  | Accept (fd : Z) (addr : sockaddr)
  | Broadcast (payload : list byte)
  | SendTo (dst : peer_id) (payload : list byte)
  | OnTimer (cb : timer_cb)
  | ConnUp (p : ptr)
  | ConnReceived (p : ptr)
  | ConnHello (p : ptr) (pid : peer_id)
  | ConnHandshake (p : ptr) (peer : hello)
  | ConnData (p : ptr) (view : data_view)
  | ConnMembership (p : ptr) (rec : membership_record)
  | ConnIdentity (p : ptr) (rec : identity_record)
  | ConnFails (p : ptr) (es : list error).

Definition on_timer (cb : timer_cb) : M unit :=
  match cb with
  | TickTimer => tick
  | ReapTimer => reap
  | ReconnectTimer id => on_reconnect_timer id
  | SweepTimer => tnow ← now; modify (λ w, set_router (gossip_router.evict_sweep tnow (router_ w)) w)
  end.

(** A step of the connection at [p], if there is one in a state for which [f]
    gives a step. *)
Definition conn_step (p : ptr) (f : conn → M unit) : M unit :=
  w ← get;
  match objects w !! p with Some c => f c | None => mret () end.

Definition step (o : op) : M unit :=
  match o with
  | Start => start
  | Shutdown => shutdown
  | Discover a src => on_discovered a src
  | Accept fd addr => accept_connection fd addr
  | Broadcast payload => originate_broadcast payload
  | SendTo dst payload => originate_targeted dst payload
  | OnTimer cb => on_timer cb
  | ConnUp p => conn_step p (λ c,
      when (bool_decide (c_state c = peer_connection.ConnectingOut))
        (_ ← modify (alter_conn p (with_state peer_connection.Handshaking));
         o ← next_outcome;
         settle p o))
  | ConnReceived p => tnow ← now; conn_step p (λ c, modify (alter_conn p (with_recv tnow)))
  | ConnHello p pid => conn_step p (λ c,
      when (bool_decide (c_state c = peer_connection.Handshaking))
        (modify (alter_conn p (λ c, with_state peer_connection.AwaitingConfirm (with_id pid c)))))
  | ConnHandshake p peer => conn_step p (λ c,
      when (bool_decide (c_state c = peer_connection.Handshaking) ||
            (bool_decide (c_state c = peer_connection.AwaitingConfirm) &&
             peer_id_eqb (c_id c) (h_nodeId peer)))
        (_ ← modify (alter_conn p (λ c,
               with_state peer_connection.Established (with_id (h_nodeId peer) c)));
         on_peer_handshake p peer))
  | ConnData p view => conn_step p (λ c, when (is_established c) (on_peer_data p view))
  | ConnMembership p rec => conn_step p (λ c, when (is_established c) (on_peer_membership p rec))
  | ConnIdentity p rec => conn_step p (λ c, when (is_established c) (on_peer_identity p rec))
  | ConnFails p es => conn_step p (λ c, when (negb (is_dead c)) (settle p (mk_outcome es true)))
  end.

End reentrant.

(** [on_peer_closed], re-entered at most [fuel] deep. *)
Fixpoint on_peer_closed_within (fuel : nat) (p : ptr) : M unit :=
  match fuel with
  | O => note_starved
  | S fuel => on_peer_closed_body (on_peer_closed_within fuel) p
  end.

(** Re-entering closes an established connection or gives up a static dial, so
    the number of connections bounds the depth. *)
Definition on_peer_closed (p : ptr) : M unit := λ w,
  on_peer_closed_within (3 + size (objects w)) p w.

Definition run (ops : list op) : M unit := each ops (step on_peer_closed).

(** The constructor; [wall_ms] is the wall clock in milliseconds. *)
Definition make (e : world) (wall_ms rd1 rd2 : Z) : t :=
  mk false [] ∅ ∅ [] ∅ ∅ ∅ (wrap 64 wall_ms) 0 [] false
    (gossip_router.make cfg_ (l_nodeId self_) rd1 rd2)
    (membership.make (l_nodeId self_) cfg_ wall_ms) ∅ e
    (mk_trace [] [] [] false false false false).

End manager.

End peer_manager.
