(* ===== verification/PeerManagerFacts.v ===== *)
(** * Facts about the peer manager

    The invariant of the manager and what it gives: whatever connections,
    timers, the network and the application do, the table of established links
    never refers to a destroyed connection as long as no peer presents the zero
    identifier, and the re-entrance through [on_peer_closed] ends.  Then the
    dial race, the reconnect delays, the gossip of node names, and the
    behaviours that break the contract. *)
From Stdlib Require Import ZArith Lia.
From Stdlib.Strings Require Import Byte.
From stdpp Require Import base gmap sets list strings numbers option.
From S2P Require Import Prelude PeerId Wire Config Crypto Identity Gossip Membership PeerConnection PeerManager.

Module manager_facts.
Import peer_manager.

(** ** Counting established connections *)

Definition est (w : t) : gset ptr :=
  dom (filter (λ pc, c_state pc.2 = peer_connection.Established) (objects w)).

Definition live (w : t) : nat := size (est w).

Lemma elem_of_est w p :
  p ∈ est w ↔ ∃ c, objects w !! p = Some c ∧ c_state c = peer_connection.Established.
Proof. unfold est. rewrite elem_of_dom. unfold is_Some. by setoid_rewrite map_lookup_filter_Some. Qed.

Lemma live_objects w : (live w ≤ size (objects w))%nat.
Proof. unfold live, est. rewrite size_dom. apply map_size_filter. Qed.

Lemma live_le w w' : est w' ⊆ est w → (live w' ≤ live w)%nat.
Proof. intros H. unfold live. by apply subseteq_size. Qed.

Lemma live_lt w w' p : est w' ⊆ est w → p ∈ est w → p ∉ est w' → (live w' < live w)%nat.
Proof. intros ???. unfold live. apply subset_size. set_solver. Qed.

(** ** The invariant *)

Section facts.

Context {Sod : Sodium} (cfg_ : mesh_config) (self_ : local_identity) (clk : nat → Z).

(** [X] holds of the links that may be dead: none, or the one being closed. *)
Record inv_but (X : ptr → Prop) (w : t) : Prop := {
  inv_estab : ∀ k p, estab_ w !! k = Some p → is_zero k = false ∧ ∃ c,
    objects w !! p = Some c ∧ c_id c = k ∧ (X p ∨ c_state c = peer_connection.Established);
  inv_ids : ∀ k r, records_ w !! k = Some r → r_id r = k;
  inv_connected : ∀ k r, records_ w !! k = Some r → state r = Connected →
    ∃ p, estab_ w !! k = Some p ∧ r_conn r = Some p;
  inv_links : ∀ k r p, records_ w !! k = Some r → r_conn r = Some p → (p < next_ptr (env w))%nat;
  inv_reap : ∀ p, p ∈ reap_ w → (p < next_ptr (env w))%nat ∧
    ∀ c, objects w !! p = Some c → c_state c = peer_connection.Dead;
  inv_conns : ∀ p, p ∈ conns_ w → is_Some (objects w !! p);
  inv_fresh : ∀ p, is_Some (objects w !! p) → (p < next_ptr (env w))%nat;
  inv_dangled : dangled (obs w) = false;
  inv_static : staticPeers cfg_ = [] → static_targets_ w = [] ∧ invalidated (obs w) = false;
}.

Definition inv : t → Prop := inv_but (λ _, False).

(** The connection at [p] is dead and its owner is about to hear of it. *)
Definition dying (p : ptr) (w : t) : Prop :=
  inv_but (.= p) w ∧ ∃ c, objects w !! p = Some c ∧ c_state c = peer_connection.Dead.

(** No record refers to the connection at [p], which has no identifier yet. *)
Definition unclaimed (p : ptr) (w : t) : Prop :=
  (∀ k r, records_ w !! k = Some r → r_conn r ≠ Some p) ∧
  ∃ c, objects w !! p = Some c ∧ is_zero (c_id c) = true.

(** During a call objects stay, keep their identifier, and at most die; walks
    over [conns_] are not begun or ended. *)
Definition later (w w' : t) : Prop := walking (obs w') = walking (obs w) ∧
  ∀ p c, objects w !! p = Some c → ∃ c', objects w' !! p = Some c' ∧ c_id c' = c_id c ∧
    (c_state c' = c_state c ∨ c_state c' = peer_connection.Dead).

Definition pre (k : nat) (w : t) : Prop := inv w ∧ (live w ≤ k)%nat ∧ starved (obs w) = false.

Definition good (k : nat) (w w' : t) : Prop := pre k w' ∧ later w w'.

(** A call that does its work from any state of the invariant. *)
Definition ok {A} (k : nat) (m : M A) : Prop := ∀ w, pre k w → good k w (m w).2.

(** A call that does not touch connections or [estab_]. *)
Definition calm {A} (m : M A) : Prop := ∀ w, inv w →
  inv (m w).2 ∧ objects (m w).2 = objects w ∧ estab_ (m w).2 = estab_ w ∧
  starved (obs (m w).2) = starved (obs w) ∧ walking (obs (m w).2) = walking (obs w).

#[global] Instance later_refl : Reflexive later.
Proof. intros w. split; [done|]. eauto. Qed.

#[global] Instance later_trans : Transitive later.
Proof.
  intros w1 w2 w3 [E12 H12] [E23 H23]. split; [congruence|]. intros p c H. destruct (H12 p c H) as (c2 & H2 & Hid2 & Hst2).
  destruct (H23 p c2 H2) as (c3 & H3 & Hid3 & Hst3). exists c3. split_and!; [done|congruence|].
  destruct Hst2, Hst3; [left|right|right|right]; congruence.
Qed.

Lemma later_same w w' :
  walking (obs w') = walking (obs w) → objects w' = objects w → later w w'.
Proof. intros Ew E. split; [done|]. rewrite E. eauto. Qed.

Lemma live_same w w' : objects w' = objects w → live w' = live w.
Proof. unfold live, est. by intros ->. Qed.

(** *** Composition *)

Lemma good_refl k w : pre k w → good k w w.
Proof. intros H. split; [done|reflexivity]. Qed.

Lemma good_trans k w1 w2 w3 : good k w1 w2 → good k w2 w3 → good k w1 w3.
Proof. intros [_ H12] [Hpre H23]. split; [done|by etrans]. Qed.

Lemma good_bind {A B} k w (m : M A) (f : A → M B) :
  good k w (m w).2 → (∀ x w', m w = (x, w') → good k w w' → good k w' (f x w').2) →
  good k w ((m ≫= f) w).2.
Proof.
  unfold mbind, M_bind. destruct (m w) as [x w'] eqn:E. cbn [snd]. intros H Hf.
  destruct (Hf x w' eq_refl H) as [Hpre Hlater]. split; [done|].
  etrans; [apply H|done].
Qed.

Lemma ok_ret {A} k (x : A) : ok k (mret x).
Proof. intros w H. by apply good_refl. Qed.

Lemma ok_bind {A B} k (m : M A) (f : A → M B) : ok k m → (∀ x, ok k (f x)) → ok k (m ≫= f).
Proof. intros Hm Hf w H. apply good_bind; [by apply Hm|]. intros x w' _ [Hw' _]. by apply Hf. Qed.

Lemma ok_get {B} k (f : t → M B) : (∀ w, pre k w → good k w (f w w).2) → ok k (get ≫= f).
Proof. intros Hf w H. by apply Hf. Qed.

Lemma ok_when k (b : bool) (m : M unit) : (b = true → ok k m) → ok k (when b m).
Proof. destruct b; [auto|]. intros _. apply ok_ret. Qed.

Lemma ok_each {A} k (l : list A) (f : A → M unit) : (∀ x, x ∈ l → ok k (f x)) → ok k (each l f).
Proof.
  induction l as [|x l IH]; intros H; [apply ok_ret|]. apply ok_bind; [apply H; by left|].
  intros _. apply IH. intros y Hy. apply H. by right.
Qed.

Lemma calm_ok {A} k (m : M A) : calm m → ok k m.
Proof.
  intros Hm w (Hi & Hl & Hs). destruct (Hm w Hi) as (Hi' & Ho & _ & Hs' & Hw').
  split; [split_and!; [done|by rewrite (live_same _ _ Ho)|congruence]|by apply later_same].
Qed.

Lemma calm_ret {A} (x : A) : calm (mret x).
Proof. by intros w H. Qed.

Lemma calm_bind {A B} (m : M A) (f : A → M B) : calm m → (∀ x, calm (f x)) → calm (m ≫= f).
Proof.
  intros Hm Hf w H. unfold mbind, M_bind. pose proof (Hm w H) as Hw. destruct (m w) as [x w'].
  cbn [snd] in Hw. destruct Hw as (Hi & Ho & He & Hs & Hk). destruct (Hf x w' Hi) as (? & ? & ? & ? & ?).
  split_and!; congruence || done.
Qed.

Lemma calm_get {B} (f : t → M B) : (∀ w, calm (f w)) → calm (get ≫= f).
Proof. intros Hf w H. by apply Hf. Qed.

Lemma calm_when (b : bool) (m : M unit) : calm m → calm (when b m).
Proof. destruct b; [auto|]. intros _. apply calm_ret. Qed.

Lemma calm_each {A} (l : list A) (f : A → M unit) : (∀ x, calm (f x)) → calm (each l f).
Proof. intros H. induction l; [apply calm_ret|by apply calm_bind]. Qed.

(** *** Calm operations *)

(** Two states that agree on what the invariant speaks of. *)
Definition agrees (w w' : t) : Prop :=
  estab_ w' = estab_ w ∧ records_ w' = records_ w ∧ objects w' = objects w ∧
  reap_ w' = reap_ w ∧ conns_ w' = conns_ w ∧ next_ptr (env w') = next_ptr (env w) ∧
  dangled (obs w') = dangled (obs w) ∧ static_targets_ w' = static_targets_ w ∧
  invalidated (obs w') = invalidated (obs w) ∧ starved (obs w') = starved (obs w) ∧
  walking (obs w') = walking (obs w).

Lemma inv_agrees X w w' : agrees w w' → inv_but X w → inv_but X w'.
Proof.
  intros (E1 & E2 & E3 & E4 & E5 & E6 & E7 & E8 & E9 & _ & _) [].
  split; rewrite ?E1, ?E2, ?E3, ?E4, ?E5, ?E6, ?E7, ?E8, ?E9; assumption.
Qed.

Lemma calm_agrees {A} (m : M A) : (∀ w, agrees w (m w).2) → calm m.
Proof.
  intros Hm w Hi. pose proof (Hm w) as H. split; [by eapply inv_agrees|].
  unfold agrees in H. by destruct_and! H.
Qed.

Ltac calm_by_agreement := apply calm_agrees; intros w; repeat split.

Lemma calm_notify e : calm (notify e).
Proof. calm_by_agreement. Qed.
Lemma calm_add_timer d cb : calm (add_timer d cb).
Proof. calm_by_agreement. Qed.
Lemma calm_note_sent p f : calm (note_sent p f).
Proof. calm_by_agreement. Qed.
Lemma calm_now : calm (now clk).
Proof. calm_by_agreement. Qed.
Lemma calm_next_outcome : calm next_outcome.
Proof. apply calm_agrees; intros w. unfold next_outcome. destruct (outcomes _); repeat split. Qed.
Lemma calm_next_connect : calm next_connect.
Proof. apply calm_agrees; intros w. unfold next_connect. destruct (connects _); repeat split. Qed.
Lemma calm_rng : calm rng_.
Proof. apply calm_agrees; intros w. unfold rng_. destruct (draws _); repeat split. Qed.
Lemma calm_resolve h p : calm (resolve_endpoint h p).
Proof.
  apply calm_agrees; intros w. unfold resolve_endpoint. destruct (resolutions _); repeat split.
Qed.
Lemma calm_set_membership m : calm (modify (set_membership m)).
Proof. calm_by_agreement. Qed.
Lemma calm_set_running b : calm (modify (set_running b)).
Proof. calm_by_agreement. Qed.
Lemma calm_set_reapScheduled b : calm (modify (set_reapScheduled b)).
Proof. calm_by_agreement. Qed.
Lemma calm_set_selfIdVersion v : calm (modify (set_selfIdVersion v)).
Proof. calm_by_agreement. Qed.
Lemma calm_set_lastIdFlood v : calm (modify (set_lastIdFlood v)).
Proof. calm_by_agreement. Qed.
Lemma calm_set_names f : calm (modify (λ w, set_names (f w) w)).
Proof. calm_by_agreement. Qed.
Lemma calm_set_idVersions f : calm (modify (λ w, set_idVersions (f w) w)).
Proof. calm_by_agreement. Qed.
Lemma calm_set_router f : calm (modify (λ w, set_router (f w) w)).
Proof. calm_by_agreement. Qed.
Lemma calm_set_static_dial_conn f : calm (modify (λ w, set_static_dial_conn (f w) w)).
Proof. calm_by_agreement. Qed.

Lemma calm_alter_target i f : calm (modify (alter_target i f)).
Proof.
  intros w [H1 H2 H3 H4 H5 H6 H7 H8 H9]. split; [|done]. split; try assumption. simpl.
  intros H. by destruct (H9 H) as [-> ?].
Qed.

(** Changes of records that do not make one [Connected] or move its link. *)
Definition mild (w : t) (f : peer_record → peer_record) : Prop := ∀ r, r_id (f r) = r_id r ∧
  (state (f r) = Connected → state r = Connected ∧ r_conn (f r) = r_conn r) ∧
  (r_conn (f r) = r_conn r ∨ ∀ p, r_conn (f r) = Some p → (p < next_ptr (env w))%nat).

Lemma alter_record_inv X w k f : inv_but X w → mild w f → inv_but X (alter_record k f w).
Proof.
  intros [H1 H2 H3 H4 H5 H6 H7 H8 H9] Hf. split; simpl; try done.
  - intros k' r'. rewrite lookup_alter_Some.
    intros [(<- & r & Hr & ->)|[_ Hr]]; [rewrite (proj1 (Hf r))|]; eauto.
  - intros k' r'. rewrite lookup_alter_Some. intros [(<- & r & Hr & ->)|[_ Hr]]; [|eauto].
    intros Hc. destruct (Hf r) as (_ & Hcc & _). destruct (Hcc Hc) as [Hc' ->]. eauto.
  - intros k' r' p. rewrite lookup_alter_Some. intros [(<- & r & Hr & ->)|[_ Hr]]; [|eauto].
    destruct (Hf r) as (_ & _ & [->|Hq]); eauto.
Qed.

Lemma calm_alter_record k f : (∀ w, mild w f) → calm (modify (alter_record k f)).
Proof. intros Hf w Hi. split; [by apply alter_record_inv|done]. Qed.

(** [records_[k]] with a change that keeps its link. *)
Lemma calm_touch_record k f :
  (∀ r, r_id (f r) = k ∧ state (f r) = state r ∧ r_conn (f r) = r_conn r) →
  calm (modify (touch_record k f)).
Proof.
  intros Hf w [H1 H2 H3 H4 H5 H6 H7 H8 H9]. split; [|done]. split; simpl; try assumption.
  - intros k' r'. rewrite lookup_insert_Some. intros [[<- <-]|[_ Hr]]; [apply Hf|eauto].
  - intros k' r'. rewrite lookup_insert_Some. intros [[<- <-]|[_ Hr]]; [|eauto].
    destruct (Hf (default record_zero (records_ w !! k))) as (_ & Es & Ec). rewrite Es, Ec.
    destruct (records_ w !! k) eqn:E; simpl; [eauto|done].
  - intros k' r' p. rewrite lookup_insert_Some. intros [[<- <-]|[_ Hr]]; [|eauto].
    destruct (Hf (default record_zero (records_ w !! k))) as (_ & _ & Ec). rewrite Ec.
    destruct (records_ w !! k) eqn:E; simpl; [eauto|done].
Qed.

Lemma calm_delete_record k : calm (modify (λ w, set_records (delete k (records_ w)) w)).
Proof.
  intros w [H1 H2 H3 H4 H5 H6 H7 H8 H9]. split; [|done].
  split; simpl; try assumption; intros k' r *; rewrite lookup_delete_Some; intros [_ Hr]; eauto.
Qed.

Create HintDb calm discriminated.

Hint Resolve calm_notify calm_add_timer calm_note_sent calm_now calm_next_outcome
  calm_next_connect calm_rng calm_resolve calm_set_membership calm_set_running
  calm_set_reapScheduled calm_set_selfIdVersion calm_set_lastIdFlood calm_set_names
  calm_set_idVersions calm_set_router calm_set_static_dial_conn calm_alter_target
  calm_delete_record calm_ret calm_bind calm_get calm_when calm_each : calm.

Hint Extern 2 (calm (match ?x with _ => _ end)) => destruct x : calm.

Ltac calm := eauto 20 with calm.

Lemma calm_report_errors es : calm (each es report_error).
Proof. unfold report_error. calm. Qed.

Lemma calm_connected_snapshot : calm emit_connected_snapshot.
Proof. unfold emit_connected_snapshot. calm. Qed.

Lemma calm_known_snapshot : calm emit_known_snapshot.
Proof. unfold emit_known_snapshot. calm. Qed.

Lemma calm_names_snapshot : calm emit_names_snapshot.
Proof. unfold emit_names_snapshot. calm. Qed.

Hint Resolve calm_report_errors calm_connected_snapshot calm_known_snapshot
  calm_names_snapshot : calm.

Lemma calm_schedule_reap : calm schedule_reap.
Proof. unfold schedule_reap. calm. Qed.

Lemma calm_schedule_reconnect k : calm (schedule_reconnect cfg_ k).
Proof.
  unfold schedule_reconnect. apply calm_get; intros w0. destruct (records_ w0 !! k) as [r|]; [|calm].
  destruct (negb _); [calm|]. destruct (bool_decide _); [calm|]. apply calm_bind; [calm|].
  intros z. apply calm_bind; [|calm]. apply calm_alter_record. intros w r'. by auto.
Qed.

Lemma calm_announce_once k : calm (announce_once k).
Proof.
  unfold announce_once. apply calm_get; intros w0. destruct (records_ w0 !! k) as [r|]; [|calm].
  apply calm_when, calm_bind; [|calm]. apply calm_alter_record. intros w r'. by auto.
Qed.

Lemma calm_make_self_id_record : calm (make_self_id_record self_).
Proof. unfold make_self_id_record. calm. Qed.

Lemma calm_bind_static p pid : calm (bind_static p pid).
Proof.
  unfold bind_static. apply calm_get; intros w0. destruct (static_dial_conn_ w0 !! p); [|calm].
  apply calm_bind; [|intros []; calm]. destruct (static_targets_ w0 !! _) as [s|]; [|calm].
  destruct (learnedId s); calm.
Qed.

Hint Resolve calm_schedule_reap calm_schedule_reconnect calm_announce_once
  calm_make_self_id_record calm_bind_static : calm.

Lemma calm_lose_records z : calm (lose_records cfg_ z).
Proof. unfold lose_records. calm. Qed.

Lemma calm_router_start : calm (router_start cfg_).
Proof. unfold router_start. calm. Qed.

Lemma calm_schedule_tick : calm (schedule_tick cfg_).
Proof. unfold schedule_tick. calm. Qed.

Hint Resolve calm_lose_records calm_router_start calm_schedule_tick : calm.

(** *** Objects *)

(** The state in which a fresh object exists. *)
Lemma alloc_good k w c : pre k w → c_state c ≠ peer_connection.Established →
  good k w (alloc c w).2.
Proof.
  intros (Hi & Hl & Hs) Hc.
  assert (objects w !! next_ptr (env w) = None) as Hnone.
  { destruct (objects w !! next_ptr (env w)) eqn:E; [|done].
    pose proof (inv_fresh _ _ Hi (next_ptr (env w)) ltac:(by eexists)). lia. }
  split; [split_and!|].
  - destruct Hi as [H1 H2 H3 H4 H5 H6 H7 H8 H9]. split; simpl; try assumption.
    + intros k' p Hk. destruct (H1 k' p Hk) as (? & c' & Ho & ?). split; [done|]. exists c'.
      rewrite lookup_insert_ne by congruence. done.
    + intros. pose proof (H4 k0 r p H H0). lia.
    + intros p Hp. destruct (H5 p Hp) as [Hlt Hd]. split; [lia|]. intros c'.
      rewrite lookup_insert_ne by lia. apply Hd.
    + intros p Hp. rewrite lookup_insert_is_Some. right. split; [|by apply H6].
      intros <-. destruct (H6 _ Hp) as [? ?]. congruence.
    + intros p. rewrite lookup_insert_is_Some. intros [<-|[_ Hp%H7]]; lia.
  - etrans; [|exact Hl]. apply live_le. intros p. rewrite !elem_of_est. simpl.
    intros (c' & Ho & Hst). apply lookup_insert_Some in Ho as [[<- <-]|[_ Ho]]; [done|eauto].
  - done.
  - split; [done|]. intros p c' Ho. exists c'. simpl. rewrite lookup_insert_ne by congruence. auto.
Qed.

Lemma calm_good {A} k w (m : M A) : calm m → pre k w → good k w (m w).2.
Proof. intros Hm. by apply calm_ok. Qed.

(** A new connection object: present, not established, claimed by no record. *)
Lemma make_conn_good k w fd addr inb st : pre k w → st ≠ peer_connection.Established →
  let '(p, w') := make_conn clk fd addr inb st w in
  good k w w' ∧ unclaimed p w' ∧ (p < next_ptr (env w'))%nat.
Proof.
  intros Hpre Hst. unfold make_conn, mbind, M_bind. destruct (now clk w) as [z w1] eqn:E.
  pose proof (calm_ok k _ calm_now w Hpre) as Hg. rewrite E in Hg. cbn [snd] in Hg.
  set (c := mk_conn fd addr inb st peer_id_zero z z).
  pose proof (alloc_good k w1 c (proj1 Hg) Hst) as Hg'. simpl in *. split_and!.
  - split; [apply Hg'|]. etrans; [apply Hg|apply Hg'].
  - split; simpl.
    + intros k' r Hr Hc. pose proof (inv_links _ _ (proj1 (proj1 Hg)) k' r _ Hr Hc). simpl in *. lia.
    + exists c. by rewrite lookup_insert_eq.
  - lia.
Qed.

Lemma push_conn_inv p w : inv w → (staticPeers cfg_ = [] → walking (obs w) = false) →
  is_Some (objects w !! p) → inv (push_conn p w).2.
Proof.
  intros [H1 H2 H3 H4 H5 H6 H7 H8 H9] Hw Hp. split; simpl; try assumption.
  - intros q. rewrite elem_of_app, list_elem_of_singleton. intros [Hq| ->]; [by apply H6|done].
  - intros H. destruct (H9 H) as [-> ->]. by rewrite (Hw H).
Qed.

Lemma report_errors_agrees es w : agrees w (each es report_error w).2.
Proof.
  revert w. induction es as [|e es IH]; intros w; [by repeat split|]. simpl.
  unfold mbind, M_bind. specialize (IH (report_error e w).2).
  destruct (report_error e w) as [u w1] eqn:E. simpl in *. injection E as <- <-.
  unfold agrees in *. simpl in *. by destruct_and! IH.
Qed.

Lemma later_alter_state p w c :
  objects w !! p = Some c → later w (alter_conn p (with_state peer_connection.Dead) w).
Proof.
  intros Hp. split; [done|]. intros q c' Hq. simpl. destruct (decide (p = q)) as [->|Hne].
  - rewrite lookup_alter_eq, Hq. eexists. split_and!; [done|done|by right].
  - rewrite lookup_alter_ne, Hq by done. eauto.
Qed.

Lemma est_kill p w : est (alter_conn p (with_state peer_connection.Dead) w) ⊆ est w ∖ {[p]}.
Proof.
  intros q. rewrite elem_of_difference, elem_of_singleton, !elem_of_est. simpl.
  intros (c & Hc & Hst). apply lookup_alter_Some in Hc as [(<- & c0 & ? & ->)|[Hne Hc]]; [done|].
  eauto.
Qed.

Lemma kill_dying p w c : inv w → objects w !! p = Some c →
  dying p (alter_conn p (with_state peer_connection.Dead) w).
Proof.
  intros [H1 H2 H3 H4 H5 H6 H7 H8 H9] Hp. split.
  - split; simpl; try assumption.
    + intros k q Hk. destruct (H1 k q Hk) as (Hz & c' & Ho & Hid & [[]|Hst]). split; [done|].
      destruct (decide (q = p)) as [->|Hne].
      * exists (with_state peer_connection.Dead c'). rewrite lookup_alter_eq, Ho. auto.
      * exists c'. rewrite lookup_alter_ne by done. auto.
    + intros q Hq. destruct (H5 q Hq) as [? Hd]. split; [done|]. intros c'.
      rewrite lookup_alter_Some. intros [(_ & c0 & _ & ->)|[_ Ho]]; [done|by apply Hd].
    + intros q Hq. rewrite lookup_alter_is_Some. by apply H6.
    + intros q. rewrite lookup_alter_is_Some. apply H7.
  - eexists. simpl. rewrite lookup_alter_eq, Hp. done.
Qed.

(** ** Calls that re-enter *)

Section reentrant.

Variable on_closed : ptr → M unit.

(** [on_closed] works when fewer than [K] connections are established, and on
    connections that nothing refers to. *)
Variable K : nat.

Hypothesis closed_good : ∀ k p w, (k < K)%nat → dying p w → (live w ≤ k)%nat →
  starved (obs w) = false → good k w (on_closed p w).2.

Hypothesis closed_unclaimed : ∀ k p w, unclaimed p w → dying p w → (live w ≤ k)%nat →
  starved (obs w) = false → good k w (on_closed p w).2.

(** The connection at [p] may be closed in a state with [k] to go. *)
Definition room (k : nat) (p : ptr) (w : t) : Prop :=
  is_Some (objects w !! p) ∧ ((k < K)%nat ∨ (p ∈ est w ∧ (k ≤ K)%nat) ∨ unclaimed p w).

(** It may be used: it may be closed, or is dead. *)
Definition usable (k : nat) (p : ptr) (w : t) : Prop :=
  (k ≤ K)%nat ∧ ∃ c, objects w !! p = Some c ∧
  ((k < K)%nat ∨ c_state c = peer_connection.Established ∨ c_state c = peer_connection.Dead).

Lemma usable_later k p w w' : later w w' → usable k p w → usable k p w'.
Proof.
  intros [_ Hl] (Hk & c & Hc & Hst). destruct (Hl p c Hc) as (c' & Hc' & _ & Hst'). split; [done|].
  exists c'. split; [done|]. destruct Hst' as [-> | ->]; tauto.
Qed.

Lemma kill_good k p w : pre k w → room k p w → good k w (kill on_closed p w).2.
Proof.
  intros (Hi & Hl & Hs) [[c Hc] Hroom].
  pose proof (kill_dying p w c Hi Hc) as Hdy. pose proof (est_kill p w) as Hest.
  set (w1 := alter_conn p (with_state peer_connection.Dead) w) in *.
  assert (later w w1) as Hlat by by eapply later_alter_state.
  assert (est w1 ⊆ est w) as Hsub by set_solver.
  assert (good k w1 (on_closed p w1).2) as [Hg Hg'].
  { destruct Hroom as [Hk|[[Hp Hk]|Hun]].
    - apply closed_good; try done. etrans; [by apply live_le|done].
    - pose proof (live_lt w w1 p Hsub Hp ltac:(set_solver)).
      destruct (closed_good (k - 1) p w1) as [(? & ? & ?) ?]; [lia|done|lia|done|].
      split; [|done]. split_and!; [done|lia|done].
    - apply closed_unclaimed; [|done|etrans; [by apply live_le|done]|done].
      destruct Hun as [Hr (c' & Hc' & Hz)]. split; [done|].
      exists (with_state peer_connection.Dead c'). simpl. by rewrite lookup_alter_eq, Hc'. }
  split; [done|]. by etrans.
Qed.

Lemma room_agrees k p w w' : agrees w w' → room k p w → room k p w'.
Proof.
  intros (_ & Er & Eo & _) [Hp Hr]. unfold room, unclaimed, est in *. by rewrite Eo, Er.
Qed.

Lemma settle_good k p o w : pre k w → room k p w → good k w (settle on_closed p o w).2.
Proof.
  intros Hpre Hroom. unfold settle. apply good_bind; [by apply calm_good; calm|].
  intros [] w' E [Hpre' _]. destruct (closes o); [|by apply good_refl]. apply kill_good; [done|].
  eapply room_agrees; [|done]. pose proof (report_errors_agrees (errors o) w) as Ha.
  by rewrite E in Ha.
Qed.

Lemma with_conn_some p f w c : objects w !! p = Some c → with_conn p f w = f c w.
Proof.
  intros H. unfold with_conn, deref, mbind, M_bind, get. by rewrite H.
Qed.

Lemma usable_room k p w c : usable k p w → objects w !! p = Some c → is_dead c = false →
  room k p w.
Proof.
  intros (Hk & c' & Hc & Hst) Hc' Hd. simplify_eq. split; [by eexists|].
  destruct Hst as [?|[?|?]]; [by left|right; left|].
  - split; [|done]. apply elem_of_est. eauto.
  - unfold is_dead in Hd. by rewrite bool_decide_eq_false in Hd.
Qed.

Lemma next_outcome_agrees w : agrees w (next_outcome w).2.
Proof. unfold next_outcome. destruct (outcomes _); repeat split. Qed.

(** The end of a call: the connection does what the script says. *)
Lemma outcome_good k p w f : pre k w → room k p w →
  good k w ((o ← next_outcome; settle on_closed p (f o)) w).2.
Proof.
  intros Hpre Hroom. apply good_bind; [by apply calm_good; calm|]. intros o w' E [Hpre' _].
  apply settle_good; [done|]. eapply room_agrees; [|done].
  pose proof (next_outcome_agrees w) as Ha. by rewrite E in Ha.
Qed.

Lemma send_raw_good k p frame w : pre k w → usable k p w →
  good k w (send_raw on_closed p frame w).2.
Proof.
  intros Hpre Hu. pose proof Hu as (_ & c & Hc & _). unfold send_raw.
  rewrite (with_conn_some _ _ _ _ Hc). destruct (is_dead c) eqn:E; [by apply good_refl|].
  apply good_bind; [by apply calm_good; calm|]. intros [] w' Ew [Hpre' _].
  apply (outcome_good k p w' (λ o, o)); [done|].
  eapply room_agrees; [|by eapply usable_room]. injection Ew as <-. by repeat split.
Qed.

Lemma close_gracefully_good k p w : pre k w → usable k p w →
  good k w (close_gracefully on_closed p w).2.
Proof.
  intros Hpre Hu. pose proof Hu as (_ & c & Hc & _). unfold close_gracefully.
  rewrite (with_conn_some _ _ _ _ Hc). destruct (is_dead c) eqn:E; [by apply good_refl|].
  apply (outcome_good k p w (λ o, mk_outcome (errors o) true)); [done|by eapply usable_room].
Qed.

Lemma maybe_heartbeat_good k p w : pre k w → usable k p w →
  good k w (maybe_heartbeat on_closed p w).2.
Proof.
  intros Hpre Hu. pose proof Hu as (_ & c & Hc & _). unfold maybe_heartbeat.
  rewrite (with_conn_some _ _ _ _ Hc). destruct (is_established c) eqn:E; [|by apply good_refl].
  apply (outcome_good k p w (λ o, o)); [done|]. eapply usable_room; [done..|].
  unfold is_established, is_dead in *. rewrite bool_decide_eq_true in E. by rewrite E.
Qed.

(** Calls on a list of connections. *)
Lemma each_usable k (f : ptr → M unit) l :
  (∀ p w, pre k w → usable k p w → good k w (f p w).2) →
  ∀ w, pre k w → Forall (λ p, usable k p w) l → good k w (each l f w).2.
Proof.
  intros Hf. induction l as [|p l IH]; intros w Hpre Hl; [by apply good_refl|].
  inversion Hl as [|?? Hp Hl']; subst. apply good_bind; [by apply Hf|].
  intros [] w' _ [Hpre' Hlat]. apply IH; [done|]. eapply list.Forall_impl; [exact Hl'|].
  intros q. by apply usable_later.
Qed.

Lemma pick_targets_spec l fd w : Forall (λ p, is_Some (objects w !! p)) l →
  ∃ ts, pick_targets l fd w = (ts, w) ∧ ts ⊆ l.
Proof.
  induction 1 as [|p l [c Hc] Hl (ts & E & Hsub)]; [by exists []|].
  simpl. unfold deref, mbind, M_bind, get. rewrite Hc. simpl. rewrite E. simpl.
  eexists. split; [done|]. destruct (_ =? _); set_solver.
Qed.

Lemma estab_usable k w : (k ≤ K)%nat → inv w →
  Forall (λ p, usable k p w) (map snd (map_to_list (estab_ w))).
Proof.
  intros Hk Hi. apply list.Forall_forall. intros p ([id q] & -> & Hq)%list_elem_of_fmap.
  apply elem_of_map_to_list in Hq. destruct (inv_estab _ _ Hi _ _ Hq) as (_ & c & Hc & _ & [[]|Hst]).
  split; [done|]. eauto.
Qed.

Lemma ok_forward_except k frame fd : (k ≤ K)%nat → ok k (forward_except on_closed frame fd).
Proof.
  intros Hk. apply ok_get. intros w Hpre. pose proof (estab_usable k w Hk (proj1 Hpre)) as Hu.
  destruct (pick_targets_spec (map snd (map_to_list (estab_ w))) fd w) as (ts & E & Hsub).
  { eapply list.Forall_impl; [exact Hu|]. intros p (_ & c & Hc & _). by eexists. }
  unfold mbind, M_bind. rewrite E. apply each_usable; [|done|].
  - intros p w' ??. by apply send_raw_good.
  - rewrite list.Forall_forall in *. set_solver.
Qed.

Lemma ok_forward_to k dst frame : (k ≤ K)%nat → ok k (forward_to on_closed dst frame).
Proof.
  intros Hk. apply ok_get. intros w Hpre. destruct (estab_ w !! dst) as [p|] eqn:E;
    [|by apply good_refl]. apply good_bind; [|intros [] w' _ [? _]; by apply good_refl].
  apply send_raw_good; [done|]. split; [done|].
  destruct (inv_estab _ _ (proj1 Hpre) _ _ E) as (_ & c & Hc & _ & [[]|Hst]). eauto.
Qed.

Lemma ok_run_effect k e : (k ≤ K)%nat → ok k (run_effect on_closed e).
Proof. intros Hk. destruct e; simpl; [apply calm_ok; calm..|by apply ok_forward_except]. Qed.

Lemma ok_on_membership k f : (k ≤ K)%nat → ok k (on_membership on_closed f).
Proof.
  intros Hk. apply ok_get. intros w Hpre. destruct (f (membership_ w)) as [m es].
  apply (ok_bind k); [apply calm_ok; calm| |done]. intros _. apply ok_each.
  intros e _. by apply ok_run_effect.
Qed.

Lemma ok_update_local_membership k : (k ≤ K)%nat → ok k (update_local_membership clk on_closed).
Proof.
  intros Hk. apply ok_get. intros w Hpre. apply (ok_bind k); [apply calm_ok; calm| |done].
  intros z. by apply ok_on_membership.
Qed.

(** A change of a connection that keeps its identifier and its state. *)
Definition quiet (f : conn → conn) : Prop := ∀ c, c_id (f c) = c_id c ∧ c_state (f c) = c_state c.

Lemma lookup_quiet p f w q c : quiet f → objects (alter_conn p f w) !! q = Some c →
  ∃ c0, objects w !! q = Some c0 ∧ c_id c = c_id c0 ∧ c_state c = c_state c0.
Proof.
  intros Hf. simpl. rewrite lookup_alter_Some.
  intros [(<- & c0 & Hc0 & ->)|[_ Hc]]; [|by eauto]. exists c0. by destruct (Hf c0).
Qed.

Lemma quiet_lookup p f w q c : quiet f → objects w !! q = Some c →
  ∃ c', objects (alter_conn p f w) !! q = Some c' ∧ c_id c' = c_id c ∧ c_state c' = c_state c.
Proof.
  intros Hf Hc. simpl. destruct (decide (p = q)) as [->|Hne].
  - rewrite lookup_alter_eq, Hc. eexists. split; [done|apply Hf].
  - rewrite lookup_alter_ne, Hc by done. eauto.
Qed.

Lemma quiet_est p f w : quiet f → est (alter_conn p f w) = est w.
Proof.
  intros Hf. apply set_eq. intros q. rewrite !elem_of_est. split.
  - intros (c & Hc & Hst). destruct (lookup_quiet _ _ _ _ _ Hf Hc) as (c0 & ? & _ & E).
    exists c0. split; congruence.
  - intros (c & Hc & Hst). destruct (quiet_lookup p f w q c Hf Hc) as (c0 & ? & _ & E).
    exists c0. split; congruence.
Qed.

Lemma ok_quiet k p f : quiet f → ok k (modify (alter_conn p f)).
Proof.
  intros Hf w (Hi & Hl & Hs). simpl. split; [split_and!|].
  - destruct Hi as [H1 H2 H3 H4 H5 H6 H7 H8 H9]. split; try assumption.
    + intros k' q Hk. destruct (H1 k' q Hk) as (Hz & c & Hc & Hid & [[]|Hst]).
      destruct (quiet_lookup p f w q c Hf Hc) as (c' & Hc' & E1 & E2). split; [done|].
      exists c'. split_and!; [done|congruence|right; congruence].
    + intros q Hq. destruct (H5 q Hq) as [? Hd]. split; [done|]. intros c Hc.
      destruct (lookup_quiet _ _ _ _ _ Hf Hc) as (c0 & Hc0 & _ & ->). by apply Hd.
    + intros q Hq. simpl. rewrite lookup_alter_is_Some. by apply H6.
    + intros q. simpl. rewrite lookup_alter_is_Some. apply H7.
  - unfold live. by rewrite quiet_est.
  - done.
  - split; [done|]. intros q c Hc. destruct (quiet_lookup p f w q c Hf Hc) as (c' & ? & ? & ?). eauto.
Qed.

Lemma room_quiet k p f w : quiet f → room k p w → room k p (alter_conn p f w).
Proof.
  intros Hf [[c Hc] Hr]. destruct (quiet_lookup p f w p c Hf Hc) as (c' & Hc' & E1 & E2).
  split; [by eexists|]. rewrite quiet_est by done. destruct Hr as [?|[?|[Hr (c0 & Hc0 & Hz)]]];
    [by left|by right; left|right; right]. split; [done|]. exists c'. simplify_eq.
  split; [done|congruence].
Qed.

Lemma start_connect_good k p w : pre k w → room k p w → good k w (start_connect on_closed p w).2.
Proof.
  intros Hpre Hroom. unfold start_connect. apply good_bind; [by apply calm_good; calm|].
  intros r w1 E [Hpre1 _].
  assert (agrees w w1) as Ha.
  { assert (w1 = (next_connect w).2) as -> by by rewrite E. unfold next_connect.
    destruct (connects _); repeat split. }
  assert (quiet (with_fd (new_fd r))) as Hq by (intros c; done).
  apply good_bind; [by apply ok_quiet|]. intros [] w2 E2 [Hpre2 _]. injection E2 as <-.
  destruct (failure r) as [es|]; [|by apply good_refl].
  apply good_bind; [|intros [] w3 _ [? _]; by apply good_refl].
  apply settle_good; [done|]. apply room_quiet; [done|]. by eapply room_agrees.
Qed.

Lemma push_conn_good k p w : pre k w → is_Some (objects w !! p) →
  (staticPeers cfg_ = [] → walking (obs w) = false) → good k w (push_conn p w).2.
Proof.
  intros (Hi & Hl & Hs) Hp Hw. split; [split_and!|]; [by apply push_conn_inv|done..|].
  by apply later_same.
Qed.

(** A dial: a new object is owned, and the rest [m] goes on with it. *)
Lemma dial_good k w addr (m : ptr → M unit) :
  pre k w → (staticPeers cfg_ = [] → walking (obs w) = false) →
  (∀ p w', pre k w' → unclaimed p w' → (p < next_ptr (env w'))%nat → good k w' (m p w').2) →
  good k w ((p ← make_conn clk (-1) addr false peer_connection.ConnectingOut;
             _ ← push_conn p; m p) w).2.
Proof.
  intros Hpre Hw Hm.
  pose proof (make_conn_good k w (-1) addr false peer_connection.ConnectingOut Hpre ltac:(done))
    as Hmk. unfold mbind at 1, M_bind at 1.
  destruct (make_conn _ _ _ _ _ w) as [p w1]. destruct Hmk as (Hg1 & Hun & Hlt).
  apply (good_trans k w w1); [done|]. apply good_bind.
  - destruct Hg1 as [? [Hwk _]]. apply push_conn_good; [done| |by rewrite Hwk].
    destruct Hun as (_ & c & Hc & _). by eexists.
  - intros [] w2 E [Hpre2 _]. injection E as <-. by apply Hm.
Qed.

Lemma start_connect_unclaimed k p w : pre k w → unclaimed p w →
  good k w ((_ ← start_connect on_closed p; mret ()) w).2.
Proof.
  intros Hpre Hun. apply good_bind.
  - apply start_connect_good; [done|]. pose proof Hun as (_ & c & Hc & _).
    split; [by eexists|by right; right].
  - intros b w1 _ [? _]. by apply good_refl.
Qed.

Lemma ok_start_static_dial k i : ok k (start_static_dial clk on_closed i).
Proof.
  apply ok_get. intros w Hpre. destruct (static_targets_ w !! i) as [s|] eqn:Et;
    [|by apply good_refl].
  apply good_bind; [by apply calm_good; calm|]. intros a w1 E [Hpre1 _].
  assert (static_targets_ w1 = static_targets_ w) as Et1.
  { assert (w1 = (resolve_endpoint (t_host s) (t_port s) w).2) as -> by by rewrite E.
    unfold resolve_endpoint. by destruct (resolutions _). }
  destruct a as [addr|]; [|apply calm_good; [unfold report_error; calm|done]].
  apply dial_good; [done| |].
  - intros H. destruct (inv_static _ _ (proj1 Hpre1) H) as [H' _].
    by rewrite <-Et1, H' in Et.
  - intros p w2 Hpre2 Hun _. apply good_bind; [by apply calm_good; calm|].
    intros [] w3 E3 [Hpre3 _]. injection E3 as <-. apply good_bind; [by apply calm_good; calm|].
    intros [] w4 E4 [Hpre4 _]. injection E4 as <-. by apply start_connect_unclaimed.
Qed.

Lemma ok_maintain_target k z i : ok k (maintain_target cfg_ clk on_closed z i).
Proof.
  apply ok_get. intros w Hpre. destruct (static_targets_ w !! i) as [s|]; [|by apply good_refl].
  destruct (match learnedId s with Some _ => _ | None => _ end); [by apply calm_good; calm|].
  destruct (bool_decide _); [by apply good_refl|]. destruct (z <? _); [by apply good_refl|].
  apply (ok_bind k); [apply calm_ok; calm| |done]. intros d.
  apply ok_bind; [apply calm_ok; calm|]. intros _. apply ok_start_static_dial.
Qed.

Lemma ok_maintain_static_peers k : ok k (maintain_static_peers cfg_ clk on_closed).
Proof.
  apply ok_get. intros w Hpre. destruct (negb _); [by apply good_refl|].
  apply (ok_bind k); [apply calm_ok; calm| |done]. intros z.
  apply ok_get. intros w1 Hpre1. apply ok_each; [|done]. intros i _. apply ok_maintain_target.
Qed.

(** *** The end of a connection *)

(** The state after the table and the record have been updated. *)
Definition closed_state (p : ptr) (pid : peer_id) (w : t) : t :=
  let w := detach p pid (free_slot p w) in
  match owning_record p pid w with
  | None => w
  | Some k =>
      if bool_decide (r_conn <$> records_ w !! k = Some (Some p))
      then alter_record k (with_link Disconnected None) w else w
  end.

Lemma free_slot_inv X p w : inv_but X w → inv_but X (free_slot p w).
Proof.
  intros [H1 H2 H3 H4 H5 H6 H7 H8 H9]. unfold free_slot.
  destruct (static_dial_conn_ w !! p); [|by split]. split; try assumption. simpl.
  intros H. by destruct (H9 H) as [-> ?].
Qed.

Lemma free_slot_same p w : objects (free_slot p w) = objects w ∧ obs (free_slot p w) = obs w ∧
  estab_ (free_slot p w) = estab_ w ∧ records_ (free_slot p w) = records_ w.
Proof. unfold free_slot. by destruct (static_dial_conn_ w !! p). Qed.

(** After [detach] the dead connection is out of the table; a record that still
    calls itself connected through it is the one of its identifier. *)
Lemma detach_spec p c w : dying p w → objects w !! p = Some c →
  let w2 := detach p (c_id c) w in
  (∀ k q, estab_ w2 !! k = Some q → is_zero k = false ∧ ∃ c,
     objects w2 !! q = Some c ∧ c_id c = k ∧ c_state c = peer_connection.Established) ∧
  (∀ k r, records_ w2 !! k = Some r → state r = Connected →
     (∃ q, estab_ w2 !! k = Some q ∧ r_conn r = Some q) ∨
     (k = c_id c ∧ is_zero k = false ∧ r_conn r = Some p)).
Proof.
  intros [[H1 H2 H3 H4 H5 H6 H7 H8 H9] _] Hc. unfold detach. set (pid := c_id c).
  assert (∀ k q, estab_ w !! k = Some q → q ≠ p ∨ k = pid) as Hp.
  { intros k q Hk. destruct (H1 k q Hk) as (_ & c' & Hc' & <- & _).
    destruct (decide (q = p)) as [->|]; [right; unfold pid; congruence|by left]. }
  assert (∀ k q, estab_ w !! k = Some q → q ≠ p → is_zero k = false ∧ ∃ c,
    objects w !! q = Some c ∧ c_id c = k ∧ c_state c = peer_connection.Established) as Hother.
  { intros k q Hk Hne. destruct (H1 k q Hk) as (? & c' & ? & ? & [?|?]); [done|]. eauto. }
  destruct (is_zero pid) eqn:Ez; [|case_bool_decide as Hb]; simpl; split.
  - intros k q Hk. apply Hother; [done|]. destruct (Hp k q Hk) as [?| ->]; [done|].
    by destruct (H1 _ _ Hk) as [? _]; congruence.
  - intros k r Hr Hs. left. eauto.
  - intros k q [Hne Hk]%lookup_delete_Some. apply Hother; [done|].
    by destruct (Hp k q Hk) as [?| ->].
  - intros k r Hr Hs. destruct (H3 k r Hr Hs) as (q & Hq & Hl).
    destruct (decide (k = pid)) as [->|Hne]; [right; split_and!; congruence|left].
    exists q. by rewrite lookup_delete_ne.
  - intros k q Hk. apply Hother; [done|]. destruct (Hp k q Hk) as [?| ->]; [done|]. congruence.
  - intros k r Hr Hs. left. eauto.
Qed.

Lemma detach_same p pid w : objects (detach p pid w) = objects w ∧ obs (detach p pid w) = obs w ∧
  records_ (detach p pid w) = records_ w ∧ env (detach p pid w) = env w ∧
  reap_ (detach p pid w) = reap_ w ∧ conns_ (detach p pid w) = conns_ w ∧
  static_targets_ (detach p pid w) = static_targets_ w.
Proof. unfold detach. destruct (is_zero pid); [done|]. by case_bool_decide. Qed.

Lemma owning_record_by_id p pid w r :
  is_zero pid = false → records_ w !! pid = Some r → owning_record p pid w = Some pid.
Proof. intros Hz Hr. unfold owning_record. rewrite Hz, Hr. by rewrite bool_decide_true by eauto. Qed.

Lemma closed_state_inv p c w : dying p w → objects w !! p = Some c → inv (closed_state p (c_id c) w).
Proof.
  intros Hd Hc. unfold closed_state.
  destruct (free_slot_same p w) as (Eo & Eb & _).
  assert (dying p (free_slot p w)) as Hd1.
  { destruct Hd as [Hi Hx]. split; [by apply free_slot_inv|by rewrite Eo]. }
  rewrite <-Eo in Hc. remember (free_slot p w) as w1 eqn:E1. clear E1.
  destruct (detach_spec p c w1 Hd1 Hc) as [He Hr].
  destruct (detach_same p (c_id c) w1) as (So & Sb & Sr & Se & Sp & Sc & St).
  destruct Hd1 as [[H1 H2 H3 H4 H5 H6 H7 H8 H9] _].
  rewrite <-Sr in H2, H4. rewrite <-Se in H4, H5, H7. rewrite <-So in H5, H6, H7.
  rewrite <-Sp in H5. rewrite <-Sc in H6. rewrite <-Sb in H8, H9. rewrite <-St in H9.
  clear H1 H3 So Sb Sr Se Sp Sc St. remember (detach p (c_id c) w1) as w2 eqn:E2. clear E2.
  destruct (owning_record p (c_id c) w2) as [k|] eqn:Eown.
  2: { split; try assumption.
       - intros k q Hk. destruct (He k q Hk) as (? & c' & ? & ? & ?). eauto 10.
       - intros k r Hk Hs. destruct (Hr k r Hk Hs) as [?|(-> & Hz & _)]; [done|].
         by rewrite (owning_record_by_id _ _ _ _ Hz Hk) in Eown. }
  case_bool_decide as Hb.
  - split; simpl; try assumption.
    + intros k' q Hk. destruct (He k' q Hk) as (? & c' & ? & ? & ?). eauto 10.
    + intros k' r'. rewrite lookup_alter_Some. intros [(<- & r & Hk & ->)|[_ Hk]]; simpl; eauto.
    + intros k' r'. rewrite lookup_alter_Some. intros [(<- & r & Hk & ->)|[Hne Hk]]; [done|].
      intros Hs. destruct (Hr k' r' Hk Hs) as [?|(-> & Hz & _)]; [done|].
      rewrite (owning_record_by_id _ _ _ _ Hz Hk) in Eown. congruence.
    + intros k' r' q. rewrite lookup_alter_Some. intros [(<- & r & Hk & ->)|[Hne Hk]]; [done|eauto].
  - split; try assumption.
    + intros k' q Hk. destruct (He k' q Hk) as (? & c' & ? & ? & ?). eauto 10.
    + intros k' r' Hk Hs. destruct (Hr k' r' Hk Hs) as [?|(-> & Hz & Hl)]; [done|].
      rewrite (owning_record_by_id _ _ _ _ Hz Hk) in Eown. injection Eown as <-.
      rewrite Hk in Hb. simpl in Hb. congruence.
Qed.

Lemma closed_state_same p pid w : objects (closed_state p pid w) = objects w ∧
  obs (closed_state p pid w) = obs w.
Proof.
  unfold closed_state. destruct (free_slot_same p w) as (Eo & Eb & _).
  destruct (detach_same p pid (free_slot p w)) as (So & Sb & _).
  destruct (owning_record _ _ _); [case_bool_decide|]; simpl; split; congruence.
Qed.

Lemma reap_later_good k p w c : pre k w → objects w !! p = Some c →
  c_state c = peer_connection.Dead →
  good k w ((_ ← modify (λ w, set_reap (reap_ w ++ [p]) w); schedule_reap) w).2.
Proof.
  intros (Hi & Hl & Hs) Hc Hd.
  assert (inv (set_reap (reap_ w ++ [p]) w)) as Hi1.
  { destruct Hi as [H1 H2 H3 H4 H5 H6 H7 H8 H9]. split; simpl; try assumption.
    intros q. rewrite elem_of_app, list_elem_of_singleton. intros [Hq| ->]; [by apply H5|].
    split; [by apply H7; eexists|]. intros c' Hc'. congruence. }
  apply (good_bind k w).
  - split; [by split_and!|by apply later_same].
  - intros [] w1 E [Hpre1 _]. by apply calm_good; [calm|].
Qed.

(** What remains to be done once table and record are updated. *)
Definition closed_rest (p : ptr) (m : M unit) : M unit :=
  _ ← m; _ ← modify (λ w, set_reap (reap_ w ++ [p]) w); schedule_reap.

Lemma closed_rest_good k p c w m : dying p w → objects w !! p = Some c → (live w ≤ k)%nat →
  starved (obs w) = false → ok k m →
  good k w (closed_rest p m (closed_state p (c_id c) w)).2.
Proof.
  intros Hd Hc Hl Hs Hm. destruct (closed_state_same p (c_id c) w) as [Eo Eb].
  pose proof (closed_state_inv p c w Hd Hc) as Hi.
  set (w1 := closed_state p (c_id c) w) in *.
  assert (pre k w1) as Hpre1.
  { split_and!; [done|by rewrite (live_same _ _ Eo)|by rewrite Eb]. }
  apply (good_trans k w w1); [split; [done|apply later_same; congruence]|].
  apply good_bind; [by apply Hm|]. intros [] w2 _ [Hpre2 [_ Hlat]].
  destruct Hd as [_ (c' & Hc' & Hdead)]. rewrite <-Eo in Hc'.
  destruct (Hlat p c' Hc') as (c2 & Hc2 & _ & Hst).
  apply (reap_later_good k p w2 c2 Hpre2 Hc2). destruct Hst; congruence.
Qed.

(** What the body does is [closed_rest] of one of these. *)
Definition closed_action (k : peer_id) (r : peer_record) : M unit :=
  _ ← when (bool_decide (state r = Connected))
        (_ ← notify (PeerDisconnected (r_id r));
         _ ← emit_connected_snapshot;
         update_local_membership clk on_closed);
  if isStatic r then maintain_static_peers cfg_ clk on_closed else schedule_reconnect cfg_ k.

Lemma body_shape p c w : objects w !! p = Some c →
  ∃ m, (on_peer_closed_body cfg_ clk on_closed p w).2 =
         (closed_rest p m (closed_state p (c_id c) w)).2 ∧
       (m = mret () ∨
        owning_record p (c_id c) (detach p (c_id c) (free_slot p w)) ≠ None ∧
        ∃ k r, m = closed_action k r).
Proof.
  intros Hc. unfold on_peer_closed_body. rewrite (with_conn_some _ _ _ _ Hc).
  unfold closed_state. set (w2 := detach p (c_id c) (free_slot p w)).
  unfold mbind at 1 2 3, M_bind at 1 2 3. cbn [modify get].
  fold w2. destruct (owning_record p (c_id c) w2) as [k|] eqn:Eo.
  2: { exists (mret ()). split; [done|by left]. }
  destruct (records_ w2 !! k) as [r|] eqn:Er.
  2: { exists (mret ()). split; [|by left]. by rewrite bool_decide_false. }
  destruct (decide (r_conn r = Some p)) as [Hl|Hl].
  - exists (closed_action k r). split; [|right; split; [done|eauto]].
    rewrite (bool_decide_true (r_conn r = Some p)) by done.
    by rewrite (bool_decide_true (r_conn <$> Some r = Some (Some p))) by (simpl; congruence).
  - exists (mret ()). split; [|by left]. rewrite (bool_decide_false (r_conn r = Some p)) by done.
    by rewrite (bool_decide_false (r_conn <$> Some r = Some (Some p))) by (simpl; congruence).
Qed.

Lemma ok_closed_action k id r : (k ≤ K)%nat → ok k (closed_action id r).
Proof.
  intros Hk. apply ok_bind.
  - apply ok_when. intros _. apply ok_bind; [apply calm_ok; calm|]. intros _.
    apply ok_bind; [apply calm_ok; calm|]. intros _. by apply ok_update_local_membership.
  - intros _. destruct (isStatic r); [apply ok_maintain_static_peers|apply calm_ok; calm].
Qed.

Lemma body_good k p w : (k ≤ K)%nat → dying p w → (live w ≤ k)%nat → starved (obs w) = false →
  good k w (on_peer_closed_body cfg_ clk on_closed p w).2.
Proof.
  intros Hk Hd Hl Hs. pose proof Hd as [_ (c & Hc & _)].
  destruct (body_shape p c w Hc) as (m & -> & Hm). apply closed_rest_good; try done.
  destruct Hm as [->|(_ & id & r & ->)]; [apply ok_ret|by apply ok_closed_action].
Qed.

Lemma body_unclaimed k p w : unclaimed p w → dying p w → (live w ≤ k)%nat →
  starved (obs w) = false → good k w (on_peer_closed_body cfg_ clk on_closed p w).2.
Proof.
  intros [Hr (c & Hc & Hz)] Hd Hl Hs.
  destruct (body_shape p c w Hc) as (m & -> & Hm). apply closed_rest_good; try done.
  destruct Hm as [->|(Hown & _)]; [apply ok_ret|]. destruct Hown.
  unfold owning_record, detach. rewrite Hz. simpl.
  destruct (free_slot_same p w) as (_ & _ & _ & ->).
  destruct (filter _ _) as [|[k' r'] l] eqn:E; [done|].
  assert ((k', r') ∈ (k', r') :: l) as Hin by left. rewrite <-E in Hin.
  apply list_elem_of_filter in Hin as [Hl' Hin%elem_of_map_to_list]. by destruct (Hr _ _ Hin).
Qed.

(** *** Calls from the event loop *)

(** No walk over [conns_] is under way that a dial would disturb. *)
Definition still (w : t) : Prop := staticPeers cfg_ = [] → walking (obs w) = false.

Lemma still_later w w' : later w w' → still w → still w'.
Proof. unfold still. by intros [-> _]. Qed.

Definition okw {A} (k : nat) (m : M A) : Prop := ∀ w, pre k w → still w → good k w (m w).2.

Lemma ok_okw {A} k (m : M A) : ok k m → okw k m.
Proof. intros H w Hpre _. by apply H. Qed.

Lemma okw_bind {A B} k (m : M A) (f : A → M B) : okw k m → (∀ x, okw k (f x)) → okw k (m ≫= f).
Proof.
  intros Hm Hf w Hpre Hst. apply good_bind; [by apply Hm|]. intros x w' _ [Hpre' Hl].
  apply Hf; [done|by eapply still_later].
Qed.

Lemma okw_calm {A B} k (m : M A) (f : A → M B) : calm m → (∀ x, okw k (f x)) → okw k (m ≫= f).
Proof. intros Hm. apply okw_bind, ok_okw, calm_ok, Hm. Qed.

Lemma okw_get {B} k (f : t → M B) :
  (∀ w, pre k w → still w → good k w (f w w).2) → okw k (get ≫= f).
Proof. intros Hf w H Hst. by apply Hf. Qed.

Lemma okw_each {A} k (l : list A) (f : A → M unit) : (∀ x, okw k (f x)) → okw k (each l f).
Proof.
  intros H. induction l; [by apply ok_okw, ok_ret|by apply okw_bind].
Qed.

Context (k : nat) (Hk : (k < K)%nat).

Lemma usable_present p w c : objects w !! p = Some c → usable k p w.
Proof. intros Hc. split; [lia|]. exists c. auto. Qed.

Lemma room_present p w c : objects w !! p = Some c → room k p w.
Proof. intros Hc. split; [by eexists|by left]. Qed.

Lemma okw_start_dial id : okw k (start_dial clk on_closed id).
Proof.
  apply okw_get. intros w Hpre Hst. destruct (records_ w !! id) as [r|]; [|by apply good_refl].
  apply dial_good; [done..|]. intros p w1 Hpre1 (_ & c & Hc & _) Hlt.
  apply good_bind.
  - destruct Hpre1 as (Hi & ? & ?). split; [split_and!; [|done..]|by apply later_same].
    apply alter_record_inv; [done|]. intros r'. split_and!; [done..|]. right.
    simpl. by intros ? [= <-].
  - intros [] w2 E [Hpre2 _]. injection E as <-. apply good_bind.
    + apply start_connect_good; [done|]. by eapply room_present.
    + intros b w3 _ [? _]. by apply good_refl.
Qed.

Lemma okw_maybe_dial id : okw k (maybe_dial cfg_ self_ clk on_closed id).
Proof.
  apply okw_get. intros w Hpre Hst. destruct (records_ w !! id) as [r|]; [|by apply good_refl].
  repeat case_match; try (by apply good_refl). by apply okw_start_dial.
Qed.

Lemma okw_start_dial_addr addr : okw k (start_dial_addr clk on_closed addr).
Proof.
  intros w Hpre Hst. apply dial_good; [done..|]. intros p w1 Hpre1 Hun _.
  by apply start_connect_unclaimed.
Qed.

Lemma okw_dial_seeds : okw k (dial_seeds cfg_ clk on_closed).
Proof.
  apply okw_get. intros w Hpre Hst. destruct (negb _); [by apply good_refl|].
  apply okw_each; [|done..]. intros s. apply okw_calm; [calm|].
  intros [addr|]; [apply okw_start_dial_addr|by apply ok_okw, ok_ret].
Qed.

Lemma okw_on_discovered a src : okw k (on_discovered cfg_ self_ clk on_closed a src).
Proof.
  apply okw_calm; [calm|]. intros z. apply okw_calm; [by apply calm_touch_record|]. intros _.
  apply okw_calm; [calm|]. intros _. apply okw_calm; [|intros _; apply okw_maybe_dial].
  apply calm_alter_record. intros w r. case_bool_decide; (split_and!; [done|by intros|by left]).
Qed.

Lemma okw_accept_connection fd addr : okw k (accept_connection clk on_closed fd addr).
Proof.
  intros w Hpre Hst. unfold accept_connection.
  pose proof (make_conn_good k w fd addr true peer_connection.Handshaking Hpre ltac:(done))
    as Hmk. unfold mbind at 1, M_bind at 1.
  destruct (make_conn _ _ _ _ _ w) as [p w1]. destruct Hmk as (Hg1 & (_ & c & Hc & _) & _).
  apply (good_trans k w w1); [done|]. destruct Hg1 as [Hpre1 Hl1].
  apply good_bind; [by apply calm_good; calm|]. intros o w2 E [Hpre2 Hl2].
  destruct (proj2 Hl2 p c Hc) as (c2 & Hc2 & _).
  apply good_bind; [by apply settle_good; [|by eapply room_present]|].
  intros [] w3 _ [Hpre3 Hl3]. destruct (proj2 Hl3 p c2 Hc2) as (c3 & Hc3 & _).
  apply push_conn_good; [done|by eexists|].
  by apply (still_later w2 w3); [|apply (still_later w1 w2); [|apply (still_later w w1)]].
Qed.

Lemma okw_on_reconnect_timer id : okw k (on_reconnect_timer cfg_ self_ clk on_closed id).
Proof.
  apply okw_get. intros w Hpre Hst. destruct (negb _); [by apply good_refl|].
  destruct (records_ w !! id) as [r|]; [|by apply good_refl].
  do 2 (destruct (bool_decide _); [by apply good_refl|]).
  apply (okw_calm k); [calm| |done..]. intros z. destruct (_ <? _); [by apply ok_okw, ok_ret|].
  apply okw_maybe_dial.
Qed.

(** *** The handshake *)

(** The state in which [p] has become the link to its peer. *)
Definition installed (p : ptr) (pid : peer_id) (w : t) : t :=
  alter_record pid (λ r, with_attempts 0 (with_link Connected (Some p) r))
    (set_estab (<[pid := p]> (estab_ w)) w).

Lemma installed_good p c w : pre k w → objects w !! p = Some c →
  c_state c = peer_connection.Established → is_zero (c_id c) = false →
  good k w (installed p (c_id c) w).
Proof.
  intros (Hi & Hl & Hs) Hc He Hz. split; [split_and!; [|done..]|by apply later_same].
  destruct Hi as [H1 H2 H3 H4 H5 H6 H7 H8 H9]. split; simpl; try assumption.
  - intros k' q. rewrite lookup_insert_Some. intros [[<- <-]|[_ Hq]]; [|by apply H1].
    split; [done|]. exists c. auto.
  - intros k' r'. rewrite lookup_alter_Some. intros [(<- & r & Hr & ->)|[_ Hr]]; simpl; eauto.
  - intros k' r'. rewrite lookup_alter_Some. intros [(<- & r & Hr & ->)|[Hne Hr]] Hcn.
    + exists p. by rewrite lookup_insert_eq.
    + rewrite lookup_insert_ne by done. eauto.
  - intros k' r' q. rewrite lookup_alter_Some. intros [(<- & r & Hr & ->)|[Hne Hr]]; [|eauto].
    simpl. intros [= <-]. apply H7. by eexists.
Qed.

Lemma install_good p c peer existing w : pre k w → objects w !! p = Some c →
  c_state c = peer_connection.Established → is_zero (c_id c) = false →
  (∀ q, existing = Some q → is_Some (objects w !! q)) →
  good k w (install self_ clk on_closed p (c_id c) peer existing w).2.
Proof.
  intros Hpre Hc He Hz Hex. unfold install.
  pose proof (installed_good p c w Hpre Hc He Hz) as Hg1.
  change ((get ≫= ?f) w) with (f w w). cbv beta zeta.
  match goal with |- good k w ((_ ≫= λ _, _ ≫= λ _, ?m) w).2 =>
    change (good k w (m (installed p (c_id c) w)).2) end.
  apply (good_trans k w (installed p (c_id c) w)); [done|].
  assert (objects (installed p (c_id c) w) = objects w) as Eo by done.
  rewrite <-Eo in Hc, Hex. destruct Hg1 as [Hpre1 _].
  clear Eo. remember (installed p (c_id c) w) as w1 eqn:E1. clear E1.
  apply good_bind; [apply calm_good; [calm|done]|]. intros [] w2 _ [Hpre2 Hl2].
  destruct (proj2 Hl2 p c Hc) as (c2 & Hc2 & _).
  apply good_bind.
  { destruct (l_hasIdentity self_); [|by apply good_refl].
    apply good_bind; [apply calm_good; [calm|done]|]. intros rec w3 _ [Hpre3 Hl3].
    destruct (proj2 Hl3 p c2 Hc2) as (c3 & Hc3 & _).
    apply send_raw_good; [done|by eapply usable_present]. }
  intros [] w3 _ [Hpre3 Hl3]. apply good_bind.
  { destruct existing as [q|]; [|by apply good_refl]. destruct (Hex q eq_refl) as [cq Hq].
    destruct (proj2 Hl2 q cq Hq) as (cq2 & Hq2 & _). destruct (proj2 Hl3 q cq2 Hq2) as (cq3 & Hq3 & _).
    apply close_gracefully_good; [done|by eapply usable_present]. }
  intros [] w4 _ [Hpre4 _]. apply (ok_when k); [|done]. intros _.
  apply ok_bind; [apply calm_ok; calm|]. intros _.
  apply ok_bind; [apply calm_ok; calm|]. intros _. apply ok_update_local_membership. lia.
Qed.

Lemma on_peer_handshake_good p c peer w : pre k w → objects w !! p = Some c →
  c_state c = peer_connection.Established → is_zero (c_id c) = false →
  good k w (on_peer_handshake self_ clk on_closed p peer w).2.
Proof.
  intros Hpre Hc He Hz. unfold on_peer_handshake. rewrite (with_conn_some _ _ _ _ Hc).
  destruct (peer_id_eqb _ _).
  { apply close_gracefully_good; [done|by eapply usable_present]. }
  assert (∀ {A B} (m : M A) (f : A → M B) w, calm m → pre k w → objects w !! p = Some c →
    (∀ x w', pre k w' → objects w' !! p = Some c → good k w' (f x w').2) →
    good k w ((m ≫= f) w).2) as Hcalm.
  { clear. intros A B m f w Hm Hpre Hc Hf. apply good_bind; [by apply calm_good|].
    intros x w' E [Hpre' _]. apply Hf; [done|].
    destruct (Hm w (proj1 Hpre)) as (_ & Ho & _). rewrite E in Ho. simpl in Ho. by rewrite Ho. }
  apply Hcalm; [calm|done|done|]. intros b w1 Hpre1 Hc1.
  apply Hcalm; [calm|done|done|]. intros z w2 Hpre2 Hc2.
  apply Hcalm; [by apply calm_touch_record|done|done|]. intros [] w3 Hpre3 Hc3.
  apply Hcalm; [calm|done|done|]. intros [] w4 Hpre4 Hc4.
  change ((get ≫= ?f) w4) with (f w4 w4). cbv beta.
  destruct (estab_ w4 !! c_id c) as [q|] eqn:Eq; [|by apply install_good].
  destruct (q =? p)%nat; [by apply install_good|].
  destruct (inv_estab _ _ (proj1 Hpre4) _ _ Eq) as (_ & cq & Hq & _).
  rewrite (with_conn_some _ _ _ _ Hq). destruct (keep_existing _ _ _ _).
  - apply close_gracefully_good; [done|by eapply usable_present].
  - apply install_good; try done. intros ? [= <-]. by eexists.
Qed.

(** *** Data, membership and names *)

#[local] Instance fwd : Forwarder t := manager_forwarder on_closed.

Lemma router_good f : (∀ r w, pre k w → good k w (f r w).2) → ok k (on_router f).
Proof.
  intros Hf w Hpre. unfold on_router. specialize (Hf (router_ w) w Hpre).
  destruct (f (router_ w) w) as [r w1]. simpl in *. destruct Hf as [Hpre1 Hl1].
  pose proof (calm_good k w1 _ (calm_set_router (λ _, r)) Hpre1) as [Hpre2 Hl2].
  split; [exact Hpre2|]. etrans; [exact Hl1|exact Hl2].
Qed.

Lemma forward_except_good frame fd w : pre k w → good k w (Gossip.forward_except frame fd w).
Proof. apply ok_forward_except. lia. Qed.

Lemma deliver_local_good from payload w : pre k w → good k w (Gossip.deliver_local from payload w).
Proof. apply calm_good. unfold deliver_local. calm. Qed.

(** Either there is a direct link to [dst] or the frame is flooded. *)
Lemma relay_good dst frame fd (r : gossip_router.t) w : pre k w →
  good k w (let '(direct, w) := Gossip.forward_to dst frame w in
            if direct : bool then (r, w) else (r, Gossip.forward_except frame fd w)).2.
Proof.
  intros Hpre. assert (k ≤ K)%nat as Hle by lia.
  pose proof (ok_forward_to k dst frame Hle w Hpre) as Hg. cbn [Gossip.forward_to fwd manager_forwarder].
  destruct (forward_to _ _ _ w) as [[] w1]; [done|]. apply (good_trans k w w1); [done|].
  apply forward_except_good, Hg.
Qed.

Lemma on_data_good z view fd r w : pre k w → good k w (gossip_router.on_data z view fd r w).2.
Proof.
  intros Hpre. unfold gossip_router.on_data. destruct (gossip_router.seen _ _ r) as [dup r1].
  destruct dup; [by apply good_refl|]. destruct (is_zero _).
  - set (w1 := if negb _ then _ else w).
    assert (good k w w1) as Hg1.
    { subst w1. destruct (negb _); [by apply deliver_local_good|by apply good_refl]. }
    apply (good_trans k w w1); [done|]. destruct Hg1 as [Hpre1 _].
    destruct (1 <? _); [by apply forward_except_good|by apply good_refl].
  - destruct (peer_id_eqb _ _); [by apply deliver_local_good|].
    destruct (1 <? _); [by apply relay_good|by apply good_refl].
Qed.

Lemma broadcast_good z payload r w : pre k w →
  good k w (gossip_router.originate_broadcast z payload r w).2.
Proof.
  intros Hpre. unfold gossip_router.originate_broadcast. destruct (gossip_router.next_id r) as [id r1].
  destruct (gossip_router.seen _ _ r1). by apply forward_except_good.
Qed.

Lemma targeted_good z dst payload r w : pre k w →
  good k w (gossip_router.originate_targeted z dst payload r w).2.
Proof.
  intros Hpre. unfold gossip_router.originate_targeted.
  destruct (peer_id_eqb _ _); [by apply deliver_local_good|].
  destruct (gossip_router.next_id r) as [id r1].
  destruct (gossip_router.seen _ _ r1). by apply relay_good.
Qed.

Lemma on_peer_data_good p c view w : pre k w → objects w !! p = Some c →
  good k w (on_peer_data clk on_closed p view w).2.
Proof.
  intros Hpre Hc. unfold on_peer_data. rewrite (with_conn_some _ _ _ _ Hc).
  apply (ok_bind k); [apply calm_ok; calm| |done]. intros z. apply router_good.
  intros r w1 Hpre1. by apply on_data_good.
Qed.

Lemma on_peer_membership_good p c rec w : pre k w → objects w !! p = Some c →
  good k w (on_peer_membership clk on_closed p rec w).2.
Proof.
  intros Hpre Hc. unfold on_peer_membership. rewrite (with_conn_some _ _ _ _ Hc).
  apply (ok_bind k); [apply calm_ok; calm| |done]. intros z. apply ok_on_membership. lia.
Qed.

Lemma on_peer_identity_good p c rec w : pre k w → objects w !! p = Some c →
  good k w (on_peer_identity self_ on_closed p rec w).2.
Proof.
  intros Hpre Hc. unfold on_peer_identity. destruct (negb (l_hasIdentity _)); [by apply good_refl|].
  destruct (peer_id_eqb _ _); [by apply good_refl|].
  destruct (negb (is_trusted _ _)); [by apply good_refl|].
  destruct (negb (crypto.verify_sig _ _ _)); [by apply good_refl|].
  change ((get ≫= ?f) w) with (f w w). cbv beta.
  destruct (match idVersions_ w !! _ with Some _ => _ | None => _ end); [by apply good_refl|].
  apply good_bind; [apply calm_good; [calm|done]|]. intros [] w1 _ [Hpre1 Hl1].
  apply good_bind; [apply calm_good; [calm|done]|]. intros [] w2 _ [Hpre2 Hl2].
  destruct (proj2 Hl1 p c Hc) as (c1 & Hc1 & _). destruct (proj2 Hl2 p c1 Hc1) as (c2 & Hc2 & _).
  rewrite (with_conn_some _ _ _ _ Hc2). apply ok_forward_except; [lia|done].
Qed.

(** *** The tick *)

Lemma tick_conn_good z p w : pre k w → usable k p w →
  good k w (tick_conn cfg_ on_closed z p w).2.
Proof.
  intros Hpre Hu. pose proof Hu as (_ & c & Hc & _). unfold tick_conn.
  rewrite (with_conn_some _ _ _ _ Hc).
  assert (∀ b w, pre k w → usable k p w → good k w (when b (close_gracefully on_closed p) w).2)
    as Hclose.
  { intros [] w' ??; [by apply close_gracefully_good|by apply good_refl]. }
  destruct (c_state c); try (by apply Hclose); [|by apply good_refl].
  apply good_bind; [by apply maybe_heartbeat_good|]. intros [] w1 _ [Hpre1 Hl1].
  apply Hclose; [done|by eapply usable_later].
Qed.

Lemma ok_flood_self_identity fd : ok k (flood_self_identity self_ clk on_closed fd).
Proof.
  unfold flood_self_identity. destruct (negb _); [apply ok_ret|].
  apply ok_bind; [apply calm_ok; calm|]. intros rec.
  apply ok_bind; [apply ok_forward_except; lia|]. intros _. apply calm_ok. calm.
Qed.

(** Beginning and ending a walk over [conns_]. *)
Lemma set_walking_pre b w : pre k w → pre k (set_walking b w).2.
Proof.
  intros ([] & Hl & Hs). split_and!; [|done..]. by split.
Qed.

Lemma conns_usable w : pre k w → Forall (λ p, usable k p w) (conns_ w).
Proof.
  intros Hpre. apply list.Forall_forall. intros p Hp.
  destruct (inv_conns _ _ (proj1 Hpre) p Hp) as [c Hc]. by eapply usable_present.
Qed.

(** A walk that starts still ends still. *)
Lemma walk_pre w (f : ptr → M unit) :
  (∀ p w, pre k w → usable k p w → good k w (f p w).2) →
  pre k w → pre k ((_ ← set_walking true; _ ← each (conns_ w) f; set_walking false) w).2.
Proof.
  intros Hf Hpre. pose proof (set_walking_pre true w Hpre) as Hpre1.
  set (w1 := (set_walking true w).2) in *.
  assert (good k w1 (each (conns_ w) f w1).2) as Hg.
  { apply each_usable; [done|done|]. by apply conns_usable in Hpre1. }
  change (pre k ((_ ← each (conns_ w) f; set_walking false) w1).2).
  unfold mbind, M_bind. destruct (each (conns_ w) f w1) as [u w2].
  apply set_walking_pre, Hg.
Qed.

Lemma walk_walking w (f : ptr → M unit) l :
  walking (obs ((_ ← set_walking true; _ ← each l f; set_walking false) w).2) = false.
Proof.
  unfold mbind, M_bind. simpl. by destruct (each l f _).
Qed.

(** *** One step *)

(** The states between calls. *)
Definition rest (w : t) : Prop := pre k w ∧ walking (obs w) = false.

Lemma rest_okw {A} (m : M A) w : okw k m → rest w → rest (m w).2.
Proof.
  intros Hm [Hpre Hw]. destruct (Hm w Hpre) as [Hpre' [E _]]; [by intros _|].
  split; [done|]. by rewrite E.
Qed.

(** A walk over [conns_] begun between calls. *)
Lemma walk_rest w (f : ptr → M unit) (m : M unit) :
  (∀ p w, pre k w → usable k p w → good k w (f p w).2) → okw k m →
  ∀ w', pre k w' → conns_ w' = conns_ w →
  rest ((_ ← set_walking true; _ ← each (conns_ w) f; _ ← set_walking false; m) w').2.
Proof.
  intros Hf Hm w' Hpre Ec. rewrite <-Ec.
  pose proof (walk_pre w' f Hf Hpre) as Hpre1. pose proof (walk_walking w' f (conns_ w')) as Hw1.
  unfold mbind, M_bind in *. destruct (set_walking true w') as [u1 w1].
  destruct (each (conns_ w') f w1) as [u2 w2]. destruct (set_walking false w2) as [u3 w3].
  by apply rest_okw.
Qed.

Lemma tick_rest w : rest w → rest (tick cfg_ self_ clk on_closed w).2.
Proof.
  intros [Hpre Hw]. unfold tick. change ((get ≫= ?f) w) with (f w w). cbv beta.
  destruct (negb _); [by split|].
  assert (k ≤ K)%nat as Hle by lia. unfold mbind at 1, M_bind at 1.
  destruct (now clk w) as [z w1] eqn:E.
  assert (pre k w1) as Hpre1.
  { pose proof (calm_good k w _ calm_now Hpre) as [H _]. by rewrite E in H. }
  apply walk_rest; [|  |done|by injection E as _ <-].
  { intros p w' ??. by apply tick_conn_good. }
  apply okw_calm; [calm|]. intros _. apply okw_bind; [apply ok_okw, ok_maintain_static_peers|].
  intros _. apply okw_bind; [by apply ok_okw, ok_on_membership|]. intros _.
  apply okw_get. intros w2 Hpre2 Hst2. apply (okw_bind k); [| |done|done].
  { apply ok_okw, ok_when. intros _. apply ok_flood_self_identity. }
  intros _. apply okw_get. intros w3 Hpre3 Hst3. apply (okw_bind k); [| |done|done].
  { destruct (bool_decide _); [apply okw_dial_seeds|by apply ok_okw, ok_ret]. }
  intros _. apply ok_okw, calm_ok. calm.
Qed.

Lemma start_rest w : rest w → rest (start cfg_ clk on_closed w).2.
Proof.
  apply rest_okw. apply okw_calm; [calm|]. intros _. apply okw_calm; [calm|]. intros _.
  apply okw_bind.
  - intros w' (Hi & Hl & Hs) _. split; [split_and!; [|done..]|by apply later_same].
    destruct Hi as [H1 H2 H3 H4 H5 H6 H7 H8 H9]. split; try assumption. simpl.
    intros H. destruct (H9 H) as [-> ?]. by rewrite H.
  - intros _. apply okw_bind; [apply okw_dial_seeds|]. intros _.
    apply okw_bind; [apply ok_okw, ok_maintain_static_peers|]. intros _.
    apply ok_okw, calm_ok. calm.
Qed.

(** Destroying objects outside [estab_]. *)
Lemma filter_objects_live (P : ptr * conn → Prop) `{!∀ x, Decision (P x)} w w' :
  objects w' = filter P (objects w) → (live w' ≤ live w)%nat.
Proof.
  intros E. apply live_le. intros p. rewrite !elem_of_est, E.
  intros (c & [Hc _]%map_lookup_filter_Some & Hst). eauto.
Qed.

Lemma shutdown_rest w : rest w → rest (shutdown on_closed w).2.
Proof.
  intros [Hpre Hw]. unfold shutdown. unfold mbind at 1 2, M_bind at 1 2. cbn [modify get].
  set (w1 := set_running false w).
  assert (pre k w1) as Hpre1.
  { by apply (calm_good k w _ (calm_set_running false) Hpre). }
  pose proof (walk_rest w1 (λ p, with_conn p (λ c, when (is_established c)
    (close_gracefully on_closed p))) (mret ())) as Hwalk.
  destruct Hwalk with (w' := w1) as [Hpre2 Hw2]; [| |done|done|].
  { intros p w' Hp Hu. pose proof Hu as (_ & c & Hc & _). rewrite (with_conn_some _ _ _ _ Hc).
    destruct (is_established c); [by apply close_gracefully_good|by apply good_refl]. }
  { apply ok_okw, ok_ret. }
  unfold mbind, M_bind in *. destruct (set_walking true w1) as [u2 w2].
  destruct (each (conns_ w1) _ w2) as [u3 w3]. destruct (set_walking false w3) as [u4 w4].
  simpl in *. destruct Hpre2 as ([H1 H2 H3 H4 H5 H6 H7 H8 H9] & Hl & Hs).
  split; [split_and!|done]; [|etrans; [by eapply filter_objects_live|done]|done].
  split; simpl; try done; try (by intros p Hp; inversion Hp).
  - intros p [c [Hc _]%map_lookup_filter_Some]. apply H7. by eexists.
  - intros H. by destruct (H9 H).
Qed.

Lemma reap_rest w : rest w → rest (reap w).2.
Proof.
  intros [Hpre Hw]. unfold reap. unfold mbind, M_bind. cbn [modify].
  set (w1 := set_reapScheduled false w).
  assert (pre k w1) as (Hi & Hl & Hs).
  { by apply (calm_good k w _ (calm_set_reapScheduled false) Hpre). }
  destruct Hi as [H1 H2 H3 H4 H5 H6 H7 H8 H9].
  split; [split_and!|done]; [|etrans; [by eapply filter_objects_live|exact Hl]|done].
  split; try assumption; simpl.
  - intros k' p Hk'. destruct (H1 k' p Hk') as (? & c & Hc & ? & [[]|Hst]). split; [done|].
    exists c. split_and!; [|done|by right]. apply map_lookup_filter_Some. split; [done|].
    simpl. intros [_ Hr]. destruct (H5 p Hr) as [_ Hd]. specialize (Hd c Hc). congruence.
  - intros p Hp. inversion Hp.
  - intros p [Hr Hp]%list_elem_of_filter. destruct (H6 p Hp) as [c Hc]. exists c.
    apply map_lookup_filter_Some. split; [done|]. simpl. by intros [_ ?].
  - intros p [c [Hc _]%map_lookup_filter_Some]. apply H7. by eexists.
Qed.

(** A connection that is neither up nor dead moves on. *)
Lemma promote_pre p c f w : pre k w → (live w < k)%nat → objects w !! p = Some c →
  c_state c ≠ peer_connection.Established → c_state c ≠ peer_connection.Dead →
  pre k (alter_conn p f w).
Proof.
  intros (Hi & Hl & Hs) Hlt Hc Hne Hnd.
  assert (∀ q c', q ≠ p → objects (alter_conn p f w) !! q = Some c' ↔ objects w !! q = Some c')
    as Hother.
  { intros q c' Hq. simpl. by rewrite lookup_alter_ne. }
  destruct Hi as [H1 H2 H3 H4 H5 H6 H7 H8 H9]. split_and!; [|  |done].
  - split; try assumption.
    + intros k' q Hq. destruct (H1 k' q Hq) as (? & c' & Hc' & ? & [[]|Hst]). split; [done|].
      exists c'. rewrite Hother by congruence. auto.
    + intros q Hq. destruct (H5 q Hq) as [? Hd]. split; [done|]. intros c'.
      rewrite Hother; [apply Hd|]. intros ->. by destruct Hnd; apply Hd.
    + intros q Hq. simpl. rewrite lookup_alter_is_Some. by apply H6.
    + intros q. simpl. rewrite lookup_alter_is_Some. apply H7.
  - assert (est (alter_conn p f w) ⊆ {[p]} ∪ est w) as Hsub.
    { intros q. rewrite elem_of_union, elem_of_singleton, !elem_of_est. intros (c' & Hc' & Hst).
      destruct (decide (q = p)) as [->|Hq]; [by left|right]. rewrite Hother in Hc' by done. eauto. }
    apply subseteq_size in Hsub. rewrite size_union in Hsub.
    2: { intros q. rewrite elem_of_singleton, elem_of_est. intros -> (c' & ? & ?). congruence. }
    rewrite size_singleton in Hsub. unfold live in *. lia.
Qed.

(** The peer does not present the zero identifier. *)
Definition names_itself (o : op) : Prop :=
  match o with ConnHandshake _ peer => is_zero (h_nodeId peer) = false | _ => True end.

Lemma conn_step_rest p f w : rest w →
  (∀ c, objects w !! p = Some c → rest (f c w).2) → rest (conn_step p f w).2.
Proof.
  intros Hr Hf. unfold conn_step, mbind, M_bind, get. destruct (objects w !! p); [by apply Hf|done].
Qed.

Lemma good_rest w w' : rest w → good k w w' → rest w'.
Proof. intros [_ Hw] [Hpre [E _]]. split; [done|by rewrite E]. Qed.

Lemma promote_rest p c f w (m : M unit) : rest w → (live w < k)%nat → objects w !! p = Some c →
  c_state c ≠ peer_connection.Established → c_state c ≠ peer_connection.Dead →
  (∀ w', rest w' → objects w' !! p = Some (f c) → rest (m w').2) →
  rest ((_ ← modify (alter_conn p f); m) w).2.
Proof.
  intros [Hpre Hw] Hlt Hc Hne Hnd Hm. apply (Hm (alter_conn p f w)).
  - split; [by eapply promote_pre|done].
  - simpl. by rewrite lookup_alter_eq, Hc.
Qed.

Lemma on_timer_rest cb w : rest w → rest (on_timer cfg_ self_ clk on_closed cb w).2.
Proof.
  intros Hr. destruct cb as [| |id|]; cbn [on_timer].
  - by apply tick_rest.
  - by apply reap_rest.
  - by apply rest_okw; [apply okw_on_reconnect_timer|].
  - apply rest_okw; [|done]. apply ok_okw, calm_ok. calm.
Qed.

Lemma handshake_rest p peer w : is_zero (h_nodeId peer) = false → (live w < k)%nat → rest w →
  rest (step cfg_ self_ clk on_closed (ConnHandshake p peer) w).2.
Proof.
  intros Hz Hlt Hr. apply conn_step_rest; [done|]. intros c Hc.
  destruct (bool_decide (c_state c = peer_connection.Handshaking) || _) eqn:E; [|done].
  assert (c_state c = peer_connection.Handshaking ∨ c_state c = peer_connection.AwaitingConfirm)
    as Hst.
  { apply orb_true_iff in E as [E|[E _]%andb_true_iff]; apply bool_decide_eq_true in E; auto. }
  eapply promote_rest; [done..|destruct Hst; congruence|destruct Hst; congruence|].
  intros w' [Hpre' Hw'] Hc'. eapply good_rest; [by split|].
  by eapply on_peer_handshake_good.
Qed.

Lemma step_rest o w : names_itself o → (live w < k)%nat → rest w →
  rest (step cfg_ self_ clk on_closed o w).2.
Proof.
  intros Ho Hlt Hr. pose proof Hr as [Hpre Hw].
  destruct o as [| |a src|fd addr|payload|dst payload|cb|p|p|p pid|p peer|p view|p rec|p rec|p es];
    cbn [step].
  - by apply start_rest.
  - by apply shutdown_rest.
  - by apply rest_okw; [apply okw_on_discovered|].
  - by apply rest_okw; [apply okw_accept_connection|].
  - apply rest_okw; [|done]. apply okw_calm; [calm|]. intros z. apply ok_okw, router_good.
    intros r w' ?. by apply broadcast_good.
  - apply rest_okw; [|done]. apply okw_calm; [calm|]. intros z. apply ok_okw, router_good.
    intros r w' ?. by apply targeted_good.
  - by apply on_timer_rest.
  - apply conn_step_rest; [done|]. intros c Hc. case_bool_decide as Hst; [|done].
    eapply promote_rest; [done..|congruence|congruence|]. intros w' [Hpre' Hw'] Hc'.
    eapply good_rest; [by split|]. apply (outcome_good k p w' (λ o, o)); [done|].
    by eapply room_present.
  - apply rest_okw; [|done]. apply okw_calm; [calm|]. intros z. apply okw_get.
    intros w' Hpre' Hst'. destruct (objects w' !! p); [|by apply good_refl].
    by apply ok_quiet.
  - apply conn_step_rest; [done|]. intros c Hc. case_bool_decide as Hst; [|done].
    split; [|done]. eapply promote_pre; [done..|congruence|congruence].
  - by apply handshake_rest.
  - apply conn_step_rest; [done|]. intros c Hc. destruct (is_established c); [|done].
    eapply good_rest; [done|]. by eapply on_peer_data_good.
  - apply conn_step_rest; [done|]. intros c Hc. destruct (is_established c); [|done].
    eapply good_rest; [done|]. by eapply on_peer_membership_good.
  - apply conn_step_rest; [done|]. intros c Hc. destruct (is_established c); [|done].
    eapply good_rest; [done|]. by eapply on_peer_identity_good.
  - apply conn_step_rest; [done|]. intros c Hc. destruct (negb _); [|done].
    eapply good_rest; [done|]. apply settle_good; [done|by eapply room_present].
Qed.

End reentrant.

(** ** The knot *)

Lemma good_mono k k' w w' : (k ≤ k')%nat → good k w w' → good k' w w'.
Proof. intros Hk [(? & ? & ?) ?]. split; [|done]. split_and!; [done|lia|done]. Qed.

Lemma within_good n :
  (∀ k p w, (S k < n)%nat → dying p w → (live w ≤ k)%nat → starved (obs w) = false →
     good k w (on_peer_closed_within cfg_ clk n p w).2) ∧
  (∀ k p w, (0 < n)%nat → unclaimed p w → dying p w → (live w ≤ k)%nat →
     starved (obs w) = false → good k w (on_peer_closed_within cfg_ clk n p w).2).
Proof.
  induction n as [|n [IH1 IH2]]; [split; intros; lia|]. split; intros k p w Hn; cbn [on_peer_closed_within].
  - intros Hd Hl Hs. apply (body_good _ (n - 1)); [| |lia|done..].
    + intros k' p' w' Hk'. apply IH1. lia.
    + intros k' p' w' Hun. apply IH2; [lia|done].
  - apply body_unclaimed.
Qed.

Lemma on_peer_closed_good k p w : dying p w → (live w ≤ k)%nat → starved (obs w) = false →
  good k w (on_peer_closed cfg_ clk p w).2.
Proof.
  intros Hd Hl Hs. apply (good_mono (live w)); [done|]. pose proof (live_objects w).
  apply (proj1 (within_good _)); [lia|done|lia|done].
Qed.

(** The states the manager is in between calls. *)
Definition sound (w : t) : Prop := inv w ∧ starved (obs w) = false ∧ walking (obs w) = false.

Lemma step_sound o w : names_itself o → sound w →
  sound (step cfg_ self_ clk (on_peer_closed cfg_ clk) o w).2.
Proof.
  intros Ho (Hi & Hs & Hw).
  destruct (step_rest (on_peer_closed cfg_ clk) (S (S (live w)))) with (k := S (live w)) (o := o) (w := w)
    as [(? & _ & ?) ?]; [| |lia|done|lia| |].
  - intros k p w' _. apply on_peer_closed_good.
  - intros k p w' _. apply on_peer_closed_good.
  - split; [|done]. split_and!; [done|lia|done].
  - by split_and!.
Qed.

Lemma run_sound ops w : Forall names_itself ops → sound w → sound (run cfg_ self_ clk ops w).2.
Proof.
  intros Hops. revert w. unfold run. induction Hops as [|o ops Ho _ IH]; intros w Hw; [done|].
  cbn [each]. unfold mbind, M_bind. pose proof (step_sound o w Ho Hw) as Hs.
  destruct (step _ _ _ _ o w) as [u w1]. by apply IH.
Qed.

Lemma make_sound e wall rd1 rd2 : sound (make cfg_ self_ e wall rd1 rd2).
Proof.
  split_and!; [|done..]. split; simpl; try done; try set_solver.
  intros p [c Hc]. by rewrite lookup_empty in Hc.
Qed.

End facts.

(** ** Links and memory *)

(** [C13] Every link in the table is live: whatever the other nodes, the
    timers, the kernel and the application do, as long as no peer presents the
    all-zero identifier, an entry of [estab_] refers to an existing,
    established connection with that very identifier, and a record that says
    [Connected] refers to the same connection, so [forward_except] and
    [forward_to] send to connected peers only. *)
Theorem links_are_live {Sod : Sodium} cfg_ self_ clk e wall rd1 rd2 ops :
  Forall names_itself ops →
  let w := (run cfg_ self_ clk ops (make cfg_ self_ e wall rd1 rd2)).2 in
  (∀ pid p, estab_ w !! pid = Some p → ∃ c,
     objects w !! p = Some c ∧ c_id c = pid ∧ c_state c = peer_connection.Established) ∧
  (∀ pid r, records_ w !! pid = Some r → state r = Connected →
     ∃ p, estab_ w !! pid = Some p ∧ r_conn r = Some p).
Proof.
  intros Hops w. destruct (run_sound cfg_ self_ clk ops _ Hops (make_sound cfg_ self_ e wall rd1 rd2))
    as [Hi _]. split; [|apply (inv_connected _ _ _ Hi)].
  intros pid p Hp. destruct (inv_estab _ _ _ Hi pid p Hp) as (_ & c & ? & ? & [[]|?]). eauto.
Qed.

(** [C14] Memory safety and termination of the re-entrance: under the same
    condition no destroyed connection is ever used, although a send can close
    the connection and thereby re-enter the manager; the re-entrance ends
    within the number of connections; and without static peers [conns_] does
    not grow while [tick] or [shutdown] walk over it. *)
Theorem no_dangling_use {Sod : Sodium} cfg_ self_ clk e wall rd1 rd2 ops :
  Forall names_itself ops →
  let w := (run cfg_ self_ clk ops (make cfg_ self_ e wall rd1 rd2)).2 in
  dangled (obs w) = false ∧ starved (obs w) = false ∧
  (staticPeers cfg_ = [] → invalidated (obs w) = false).
Proof.
  intros Hops w. destruct (run_sound cfg_ self_ clk ops _ Hops (make_sound cfg_ self_ e wall rd1 rd2))
    as (Hi & Hs & _). split_and!; [apply Hi|done|apply (inv_static _ _ _ Hi)].
Qed.

(** ** The dial race *)

(** The connection a node keeps when [first] and then [second] finish their
    handshake with [peer]. *)
Definition survivor (self_ : local_identity) (peer : peer_id) (first second : conn) : conn :=
  if keep_existing self_ first second peer then first else second.

(** Both ends of a dial race keep the same TCP connection: when [a] and
    [b] have dialled each other at the same time, [a] sees its dial [ax] as
    outbound and [b] sees the same link [bx] as inbound (and the other way
    round for [b]'s dial, [ay] and [by_]).  In whatever order the two links
    come up at either end, both keep the link dialled by the node with the
    lower identifier. *)
Theorem dial_race_agrees self_a self_b (ax ay bx by_ : conn) (xfirst_a xfirst_b : bool) :
  l_nodeId self_a ≠ l_nodeId self_b →
  c_inbound ax = false → c_inbound bx = true → c_inbound ay = true → c_inbound by_ = false →
  let a_keeps := if xfirst_a then survivor self_a (l_nodeId self_b) ax ay
                 else survivor self_a (l_nodeId self_b) ay ax in
  let b_keeps := if xfirst_b then survivor self_b (l_nodeId self_a) bx by_
                 else survivor self_b (l_nodeId self_a) by_ bx in
  if peer_id_ltb (l_nodeId self_a) (l_nodeId self_b) then a_keeps = ax ∧ b_keeps = bx
  else a_keeps = ay ∧ b_keeps = by_.
Proof.
  intros Hne Hax Hbx Hay Hby. unfold survivor, keep_existing.
  rewrite Hax, Hbx, Hay, Hby. rewrite (peer_id_ltb_flip _ _ Hne).
  by destruct xfirst_a, xfirst_b, (peer_id_ltb (l_nodeId self_a) (l_nodeId self_b)).
Qed.

(** ** Reconnecting *)

(** Reconnect delays double up to the cap: after [n] failures the delay
    is at least the base doubled [n] times (at most 20 times) or the cap, and
    exceeds that by at most a fifth, or by one millisecond when it is shorter
    than ten.  The jitter comes on top of the cap. *)
Theorem backoff_bounds cfg_ n draw :
  0 ≤ n → 0 ≤ reconnectBase cfg_ < 2 ^ 43 → 0 ≤ reconnectMax cfg_ →
  let d := Z.min (reconnectBase cfg_ * 2 ^ Z.min n 20) (reconnectMax cfg_) in
  d ≤ backoff cfg_ n draw ≤ d + Z.max 1 (d `div` 5).
Proof.
  intros Hn Hb Hm d. unfold backoff. rewrite Z.shiftl_mul_pow2 by lia.
  set (x := reconnectBase cfg_ * 2 ^ Z.min n 20).
  assert (0 ≤ x < 2 ^ 63) as Hx.
  { assert (2 ^ Z.min n 20 ≤ 2 ^ 20) by (apply Z.pow_le_mono_r; lia).
    pose proof (Z.pow_pos_nonneg 2 (Z.min n 20)). subst x. nia. }
  assert (i64 x = x) as ->.
  { unfold i64. rewrite Z.mod_small; lia. }
  assert ((if (reconnectMax cfg_ <? x) || (x <? 0) then reconnectMax cfg_ else x) = d) as ->.
  { subst d. fold x. destruct (Z.ltb_spec (reconnectMax cfg_) x), (Z.ltb_spec x 0); simpl; lia. }
  rewrite Z.quot_div_nonneg by lia.
  pose proof (Z.mod_pos_bound draw (Z.max 1 (d `div` 5) + 1)). lia.
Qed.

(** ** Node names *)

Section names.

Context {Sod : Sodium} (cfg_ : mesh_config) (self_ : local_identity) (clk : nat → Z).

(** A call that leaves the names, their versions and [running_] alone. *)
Definition nameless {A} (m : M A) : Prop := ∀ w,
  names_ (m w).2 = names_ w ∧ idVersions_ (m w).2 = idVersions_ w ∧ running_ (m w).2 = running_ w.

Lemma nameless_ret {A} (x : A) : nameless (mret x).
Proof. done. Qed.

Lemma nameless_bind {A B} (m : M A) (f : A → M B) :
  nameless m → (∀ x, nameless (f x)) → nameless (m ≫= f).
Proof.
  intros Hm Hf w. unfold mbind, M_bind. pose proof (Hm w) as H. destruct (m w) as [x w1].
  destruct (Hf x w1) as (-> & -> & ->). done.
Qed.

Lemma nameless_each {A} (l : list A) (f : A → M unit) : (∀ x, nameless (f x)) → nameless (each l f).
Proof. intros H. induction l; [by apply nameless_ret|by apply nameless_bind]. Qed.

Create HintDb nameless discriminated.

(** Take a program apart down to the assignments. *)
Ltac nameless :=
  repeat first
    [ solve [auto 1 with nameless] | apply nameless_ret | apply nameless_bind; [|intros ?] | apply nameless_each; intros ?
    | done
    | match goal with
      | |- nameless (if ?b then _ else _) => destruct b
      | |- nameless (match ?x with _ => _ end) => destruct x
      | |- nameless (when ?b _) => destruct b; cbn [when]
      end ].

Lemma nameless_free_slot p : nameless (modify (free_slot p)).
Proof. intros w. simpl. unfold free_slot. by destruct (static_dial_conn_ w !! p). Qed.

Lemma nameless_detach p pid : nameless (modify (detach p pid)).
Proof. intros w. simpl. unfold detach. destruct (is_zero pid); [done|]. by case_bool_decide. Qed.

Lemma nameless_script : nameless next_outcome ∧ nameless next_connect ∧ nameless rng_ ∧
  (∀ h p, nameless (resolve_endpoint h p)).
Proof.
  split_and!; intros; intros w; unfold next_outcome, next_connect, rng_, resolve_endpoint;
    by destruct (_ (env w)).
Qed.

Hint Resolve nameless_free_slot nameless_detach : nameless.
Hint Extern 1 (nameless _) => apply nameless_script : nameless.

Section knot.

Variable on_closed : ptr → M unit.
Hypothesis closed_nameless : ∀ p, nameless (on_closed p).
Hint Resolve closed_nameless : nameless.

Lemma nameless_settle p o : nameless (settle on_closed p o).
Proof. unfold settle, kill, report_error. nameless. Qed.

Hint Resolve nameless_settle : nameless.

Lemma nameless_send_raw p f : nameless (send_raw on_closed p f).
Proof. unfold send_raw, with_conn, deref. nameless. Qed.

Lemma nameless_pick_targets l fd : nameless (pick_targets l fd).
Proof. induction l; simpl; unfold deref; nameless. Qed.

Hint Resolve nameless_send_raw nameless_pick_targets : nameless.

Lemma nameless_forward_except f fd : nameless (forward_except on_closed f fd).
Proof. unfold forward_except. nameless. Qed.

Hint Resolve nameless_forward_except : nameless.

Lemma nameless_on_membership f : nameless (on_membership on_closed f).
Proof. unfold on_membership, run_effect. nameless. Qed.

Lemma nameless_maintain : nameless (maintain_static_peers cfg_ clk on_closed).
Proof.
  unfold maintain_static_peers, maintain_target, start_static_dial, start_connect, make_conn,
    report_error. nameless.
Qed.

Hint Resolve nameless_on_membership nameless_maintain : nameless.

Lemma nameless_body p : nameless (on_peer_closed_body cfg_ clk on_closed p).
Proof.
  unfold on_peer_closed_body, with_conn, deref, emit_connected_snapshot, update_local_membership,
    schedule_reconnect, schedule_reap.
  nameless.
Qed.

End knot.

Lemma nameless_on_peer_closed p : nameless (on_peer_closed cfg_ clk p).
Proof.
  intros w. unfold on_peer_closed. generalize (3 + size (objects w))%nat. intros n.
  revert p w. induction n as [|n IH]; intros p w; [done|]. by apply nameless_body.
Qed.

Lemma nameless_close_gracefully p :
  nameless (close_gracefully (on_peer_closed cfg_ clk) p).
Proof.
  unfold close_gracefully, with_conn, deref.
  pose proof (nameless_settle _ nameless_on_peer_closed) as Hs. nameless.
Qed.

(** A manager that was shut down has no connections and wants none; the timers
    that still fire leave it so. *)
Definition at_rest (w : t) : Prop :=
  running_ w = false ∧ conns_ w = [] ∧ estab_ w = ∅ ∧ records_ w = ∅ ∧ static_targets_ w = [].

Lemma shutdown_at_rest w : at_rest (step cfg_ self_ clk (on_peer_closed cfg_ clk) Shutdown w).2.
Proof.
  cbn [step]. unfold shutdown.
  assert (∀ l, nameless (each l (λ p, with_conn p (λ c,
    when (is_established c) (close_gracefully (on_peer_closed cfg_ clk) p))))) as Hn.
  { intros l. unfold with_conn, deref. pose proof nameless_close_gracefully. nameless. }
  change (((modify ?f ≫= ?g) w).2) with ((g () (f w)).2). cbv beta.
  change (((get ≫= ?g) ?x).2) with ((g x x).2). cbv beta.
  change (((set_walking true ≫= ?g) ?x).2) with ((g () (set_walking true x).2).2). cbv beta.
  unfold mbind at 1, M_bind at 1.
  match goal with |- context[each ?l ?f ?x] =>
    pose proof (Hn l x) as (_ & _ & Hr); destruct (each l f x) as [u w2] end.
  repeat split. exact Hr.
Qed.

Lemma timer_at_rest cb w : at_rest w →
  at_rest (step cfg_ self_ clk (on_peer_closed cfg_ clk) (OnTimer cb) w).2.
Proof.
  intros (Hr & Hc & He & Hrec & Hs). destruct cb; cbn [step on_timer].
  - unfold tick, mbind, M_bind, get. by rewrite Hr.
  - unfold reap. repeat split; simpl; try done. by rewrite Hc.
  - unfold on_reconnect_timer, mbind, M_bind, get. by rewrite Hr.
  - by repeat split.
Qed.

(** The conditions a name record has to meet. *)
Definition name_accepted (rec : identity_record) (w : t) : bool :=
  let origin := mk_peer_id (crypto.id_from_identity (ir_idPubKey rec)) in
  l_hasIdentity self_ && negb (peer_id_eqb origin (l_nodeId self_)) &&
  is_trusted self_ (ir_idPubKey rec) &&
  crypto.verify_sig (id_record_msg (ir_version rec) (ir_name rec)) (ir_signature rec)
    (ir_idPubKey rec) &&
  match idVersions_ w !! origin with Some v => v <? ir_version rec | None => true end.

Lemma identity_refused on_closed p rec w : name_accepted rec w = false →
  on_peer_identity self_ on_closed p rec w = ((), w).
Proof.
  unfold name_accepted, on_peer_identity. destruct (l_hasIdentity self_); [|done]. simpl.
  destruct (peer_id_eqb _ _); [done|]. simpl. destruct (is_trusted _ _); [|done]. simpl.
  destruct (crypto.verify_sig _ _ _); [|done]. simpl. unfold mbind, M_bind, get.
  destruct (idVersions_ w !! _) as [v|]; [|done]. by rewrite Z.leb_antisym; intros ->.
Qed.

Lemma identity_taken p rec w : name_accepted rec w = true →
  let origin := mk_peer_id (crypto.id_from_identity (ir_idPubKey rec)) in
  let w' := (on_peer_identity self_ (on_peer_closed cfg_ clk) p rec w).2 in
  idVersions_ w' = <[origin := ir_version rec]> (idVersions_ w) ∧
  names_ w' = <[origin := ir_name rec]> (names_ w).
Proof.
  unfold name_accepted, on_peer_identity. destruct (l_hasIdentity self_); [|done]. simpl.
  destruct (peer_id_eqb _ _); [done|]. simpl. destruct (is_trusted _ _); [|done]. simpl.
  destruct (crypto.verify_sig _ _ _); [|done]. simpl. set (origin := mk_peer_id _).
  intros Hv. change ((get ≫= ?f) w) with (f w w). cbv beta.
  assert (match idVersions_ w !! origin with Some v => ir_version rec <=? v | None => false end
    = false) as ->.
  { destruct (idVersions_ w !! origin); [|done]. by rewrite Z.leb_antisym, Hv. }
  set (w1 := set_idVersions (<[origin := ir_version rec]> (idVersions_ w)) w).
  set (m := when _ _). assert (idVersions_ (m w1).2 = idVersions_ w1 ∧
    names_ (m w1).2 = <[origin := ir_name rec]> (names_ w)) as Hm.
  { subst m. case_bool_decide as Hn; simpl; [|done]. split; [done|].
    symmetry. by apply insert_id. }
  change (((modify ?f ≫= ?g) w).2) with ((g () (f w)).2). cbv beta.
  unfold mbind, M_bind. fold w1. destruct (m w1) as [u w2]. simpl in Hm.
  destruct (nameless_bind (deref p) (λ c, match c with
    | Some c => forward_except (on_peer_closed cfg_ clk) (encode_identity rec) (c_fd c)
    | None => mret () end)) with (w := w2) as (En & Ev & _).
  - unfold deref. nameless.
  - intros [c|]; [|done]. apply nameless_forward_except, nameless_on_peer_closed.
  - unfold with_conn, mbind, M_bind in *. rewrite En, Ev. by destruct Hm as [-> ->].
Qed.

(** [C33] Names spread only when signed, and their flood ends: a name record is
    taken over exactly when it is signed by the key whose hash is the origin's
    identifier, the key is allowed, the origin is another node, and the
    version is newer than the last one taken from that origin; then name and
    version are stored.  Any other record changes nothing at all and is not
    passed on, in particular every further copy of the one just taken. *)
Theorem name_gossip_policy p q rec w :
  let origin := mk_peer_id (crypto.id_from_identity (ir_idPubKey rec)) in
  let w' := (on_peer_identity self_ (on_peer_closed cfg_ clk) p rec w).2 in
  (if name_accepted rec w then
     idVersions_ w' = <[origin := ir_version rec]> (idVersions_ w) ∧
     names_ w' = <[origin := ir_name rec]> (names_ w)
   else w' = w) ∧
  (on_peer_identity self_ (on_peer_closed cfg_ clk) q rec w').2 = w'.
Proof.
  intros origin w'. destruct (name_accepted rec w) eqn:E.
  - destruct (identity_taken p rec w E) as [Hv Hn]. fold w' in Hv, Hn. split; [done|].
    rewrite identity_refused; [done|]. unfold name_accepted. rewrite Hv, lookup_insert_eq.
    by rewrite Z.ltb_irrefl, andb_false_r.
  - unfold w'. rewrite identity_refused by done. simpl. split; [done|].
    by rewrite identity_refused.
Qed.

End names.

(** ** Runs *)

(** A node without keys, and the hello of another one. *)
Definition sample_node (n : Z) : local_identity :=
  mk_local_identity (sample_id n) (bytes_of_string "lan") 1 (40000 + n) false (zero_array 32)
    (zero_array 32) false (crypto.mk_identity (zero_array 32) (zero_array 64)) [] [].
Definition sample_hello (pid : peer_id) : hello :=
  mk_hello pid 1 40000 (bytes_of_string "lan") 0 false (zero_array 32) false (zero_array 32) [].
Definition sample_config : mesh_config := default_config (sample_id 1).
Definition sample_clock (n : nat) : Z := ms (1000 * Z.of_nat n).
Definition sample_world (outcomes : list outcome) : world := mk_world outcomes [] [] [] 0 0.
Definition run_sample {Sod : Sodium} (self_ : local_identity) (cfg_ : mesh_config) (e : world)
    (ops : list op) : t :=
  (run cfg_ self_ sample_clock ops (make cfg_ self_ e 0 0 0)).2.

(** The zero identifier breaks memory safety: nothing rejects a peer whose
    hello carries the all-zero identifier.  Its link is entered into [estab_]
    like any other, but [on_peer_closed] takes the zero identifier for "no
    handshake yet" and leaves the entry behind.  After the connection is
    reaped the table refers to a destroyed object, which the next broadcast
    uses. *)
Theorem zero_id_dangles {Sod : Sodium} :
  let ops := [Start; Accept 5 (1, 2); ConnHandshake 0 (sample_hello peer_id_zero);
              ConnFails 0 []; OnTimer ReapTimer] in
  let w := run_sample (sample_node 1) sample_config (sample_world []) ops in
  estab_ w !! peer_id_zero = Some 0%nat ∧ objects w !! 0%nat = None ∧
  dangled (obs w) = false ∧
  dangled (obs (run_sample (sample_node 1) sample_config (sample_world [])
                  (ops ++ [Broadcast []]))) = true.
Proof. split_and!; vm_compute; reflexivity. Qed.

#[local] Existing Instance crypto.toy_sodium.

(** Two peers connect, and the second send of a broadcast breaks one link. *)
Definition sample_ops : list op :=
  [Start; Accept 5 (1, 2); ConnHandshake 0 (sample_hello (sample_id 2)); Accept 6 (1, 3);
   ConnHandshake 1 (sample_hello (sample_id 3)); Broadcast [Byte.x01]].

Definition sample_breaks : world :=
  sample_world (replicate 5 (mk_outcome [] false) ++ [mk_outcome [] true]).

Lemma sample_ops_named : Forall names_itself sample_ops.
Proof. repeat constructor. Qed.

Lemma links_are_live_witness :
  let w := (run sample_config (sample_node 1) sample_clock sample_ops
              (make sample_config (sample_node 1) sample_breaks 0 0 0)).2 in
  estab_ w !! sample_id 2 = Some 0%nat ∧
  ∃ c, objects w !! 0%nat = Some c ∧ c_id c = sample_id 2 ∧
       c_state c = peer_connection.Established.
Proof.
  destruct (links_are_live sample_config (sample_node 1) sample_clock sample_breaks 0 0 0
    sample_ops sample_ops_named) as [Hl _]. intros w.
  assert (estab_ w !! sample_id 2 = Some 0%nat) as H by (vm_compute; reflexivity).
  split; [exact H|exact (Hl _ _ H)].
Defined.

Lemma no_dangling_use_witness :
  let w := (run sample_config (sample_node 1) sample_clock sample_ops
              (make sample_config (sample_node 1) sample_breaks 0 0 0)).2 in
  reap_ w = [1%nat] ∧ dangled (obs w) = false ∧ starved (obs w) = false ∧
  (staticPeers sample_config = [] → invalidated (obs w) = false).
Proof.
  intros w. split; [vm_compute; reflexivity|].
  exact (no_dangling_use sample_config (sample_node 1) sample_clock sample_breaks 0 0 0
    sample_ops sample_ops_named).
Defined.

Definition sample_link (inbound : bool) : conn :=
  mk_conn 5 (1, 2) inbound peer_connection.Established peer_id_zero 0 0.

Lemma dial_race_agrees_witness :
  survivor (sample_node 1) (sample_id 2) (sample_link true) (sample_link false) = sample_link false ∧
  survivor (sample_node 2) (sample_id 1) (sample_link true) (sample_link false) = sample_link true.
Proof.
  exact (dial_race_agrees (sample_node 1) (sample_node 2) (sample_link false) (sample_link true)
    (sample_link true) (sample_link false) false true ltac:(vm_compute; discriminate)
    eq_refl eq_refl eq_refl eq_refl).
Defined.

Lemma backoff_bounds_witness : 2000 ≤ backoff sample_config 2 12345 ≤ 2400.
Proof.
  exact (backoff_bounds sample_config 2 12345 ltac:(lia) ltac:(vm_compute; split; congruence)
    ltac:(vm_compute; congruence)).
Defined.

(** *** Further runs *)

(** A peer's link breaks while its own announcement is being answered: the
    application hears of the end before the beginning, and believes the peer to
    be connected from then on. *)
Definition sample_signed : local_identity :=
  mk_local_identity (sample_id 1) (bytes_of_string "lan") 1 40001 false (zero_array 32)
    (zero_array 32) true (crypto.identity_from_seed (zero_array 32)) [] [].

Definition is_link_event (e : event) : bool :=
  match e with PeerConnected _ | PeerDisconnected _ => true | _ => false end.

Example connected_after_disconnected :
  let w := run_sample sample_signed sample_config
             (sample_world [mk_outcome [] false; mk_outcome [] true])
             [Start; Accept 5 (1, 2); ConnHandshake 0 (sample_hello (sample_id 2))] in
  List.filter is_link_event (rev (delegate_ (obs w))) =
    [PeerDisconnected (sample_id 2); PeerConnected (sample_id 2)] ∧
  estab_ w !! sample_id 2 = None.
Proof. split; vm_compute; reflexivity. Qed.

(** A dialled address that answers with another identifier leaves the record of
    the expected peer in [Connecting] for ever: after that connection is gone, a
    new announcement of the peer does not lead to a dial. *)
Definition sample_announce : announce :=
  mk_announce 1 0 40002 (sample_id 2) (bytes_of_string "lan").

Example stuck_connecting :
  let w := run_sample (sample_node 1) sample_config (sample_world [])
             [Start; Discover sample_announce (1, 0); ConnUp 0;
              ConnHandshake 0 (sample_hello (sample_id 3)); ConnFails 0 []; OnTimer ReapTimer;
              Discover sample_announce (1, 0)] in
  option_map state (records_ w !! sample_id 2) = Some Connecting ∧ conns_ w = [].
Proof. split; vm_compute; reflexivity. Qed.

(** A static peer that falls silent is redialled from within the walk of [tick]
    over [conns_], which adds to that vector. *)
Definition sample_static : mesh_config :=
  let c := sample_config in
  mk_mesh_config (nodeId c) (groupName c) (protocolVersion c) (psk c) (identityFile c)
    (identitySeedHex c) (nodeName c) (trustedKeys c) (requireIdentity c) (multicastAddr c)
    (multicastPort c) (multicastIface c) (announceInterval c) (peerLostTimeout c) (multicastTtl c)
    (listenPort c) (bindAddr c) (heartbeatInterval c) (heartbeatTimeout c) (handshakeTimeout c)
    (reconnectBase c) (reconnectMax c) (initialTtl c) (dedupTtl c) (maxDedupEntries c) (fanout c)
    (membershipInterval c) (membershipTimeout c) (maxOutboundQueueBytes c) (overflowPolicy c)
    (maxMessageBytes c) [] [mk_seed_peer (bytes_of_string "10.0.0.2") 40002].

Example tick_walk_invalidated :
  let w := run_sample (sample_node 1) sample_static
             (mk_world [] [] [] [Some (1, 2); Some (1, 2)] 0 0)
             [Start; ConnUp 0; ConnHandshake 0 (sample_hello (sample_id 2));
              ConnReceived 99; ConnReceived 99; OnTimer TickTimer] in
  invalidated (obs w) = true.
Proof. vm_compute; reflexivity. Qed.

End manager_facts.
