(* ===== verification/ConnectionContract.v ===== *)
(** * What a connection promises its owner

    The peer manager is modelled against connections whose calls report errors
    and then possibly close the connection, once (PeerManager.v).  This file
    shows that the connections of PeerConnection.v do exactly that, for any
    owner and any behaviour of the kernel. *)
From Stdlib Require Import ZArith Lia.
From Stdlib.Strings Require Import Byte.
From stdpp Require Import base gmap sets list strings numbers option.
From S2P Require Import Prelude PeerId Buffer Wire Config Crypto Identity PeerConnection PeerManager.

Module connection_contract.
Import peer_connection.

Section contract.

Context {Sod : Sodium} {L : Type} {Own : ConnectionListener L}.
Context (cfg_ : mesh_config) (self_ : local_identity) (clk : nat → Z).

#[local] Abbreviation world := (@world L).
#[local] Abbreviation M := (@M L).

(** What the owner can read of a connection. *)
Definition face (c : t) : Z * (Z * Z) * bool * peer_id * Z * Z :=
  (sock_ c, peerAddr_ c, inbound_ c, peerId_ c, createdAt_ c, lastRecv_ c).

(** From [w] to [w'] the owner heard of the errors of [o] and then, if [o]
    closes, of the end of the connection; a connection that is not closed keeps
    its state. *)
Definition behaves (o : peer_manager.outcome) (w w' : world) : Prop :=
  ∃ c, calls w' = (if peer_manager.closes o then [EvClosed c] else []) ++
                  map EvError (rev (peer_manager.errors o)) ++ calls w ∧
  face (conn w') = face (conn w) ∧ dead_ (conn w') = peer_manager.closes o ∧
  state_ (conn w') = if peer_manager.closes o then Dead else state_ (conn w).

(** A call on a live connection. *)
Definition contract {A} (m : M A) : Prop := ∀ w, dead_ (conn w) = false →
  ∃ o, behaves o w (m w).2.

(** A call that the owner does not notice. *)
Definition unseen {A} (m : M A) : Prop := ∀ w,
  calls (m w).2 = calls w ∧ face (conn (m w).2) = face (conn w) ∧
  dead_ (conn (m w).2) = dead_ (conn w) ∧ state_ (conn (m w).2) = state_ (conn w).

Lemma unseen_ret {A} (x : A) : unseen (mret x).
Proof. done. Qed.

Lemma unseen_bind {A B} (m : M A) (f : A → M B) : unseen m → (∀ x, unseen (f x)) → unseen (m ≫= f).
Proof.
  intros Hm Hf w. unfold mbind, M_bind. pose proof (Hm w) as H. destruct (m w) as [x w1].
  pose proof (Hf x w1) as H'. simpl in *. destruct_and! H; destruct_and! H'.
  split_and!; etrans; eassumption.
Qed.

Lemma unseen_when b (m : M unit) : unseen m → unseen (when b m).
Proof. by destruct b. Qed.

Lemma unseen_now : unseen (now clk).
Proof. done. Qed.

Lemma unseen_loop_mod : unseen loop_mod.
Proof. intros w. unfold loop_mod, mbind, M_bind, get_kernel. by destruct (mods (kernel w)). Qed.

Lemma unseen_seal_frame frame : unseen (seal_frame frame).
Proof.
  intros w. unfold seal_frame, mbind, M_bind, get. destruct (sess_ (conn w)); [|done].
  by destruct (crypto.seal _ _).
Qed.

Lemma unseen_update_epoll : unseen update_epoll.
Proof.
  intros w. unfold update_epoll. change ((get ≫= ?f) w) with (f (conn w) w). cbv beta zeta.
  destruct (_ || _); [done|]. destruct (Bool.eqb _ _); [done|].
  apply unseen_bind; [apply unseen_loop_mod|]. intros b. by apply unseen_when.
Qed.

(** Composition: nothing is heard before, or nothing after. *)
Lemma contract_before {A B} (m : M A) (f : A → M B) :
  unseen m → (∀ x, contract (f x)) → contract (m ≫= f).
Proof.
  intros Hm Hf w Hd. unfold mbind, M_bind. pose proof (Hm w) as H. destruct (m w) as [x w1].
  simpl in H. destruct H as (E1 & E2 & E3 & E4).
  destruct (Hf x w1 ltac:(congruence)) as (o & c & ?). exists o, c. by rewrite E1, E2, E4 in *.
Qed.

Lemma contract_unseen {A} (m : M A) : unseen m → contract m.
Proof.
  intros Hm w Hd. destruct (Hm w) as (E1 & E2 & E3 & E4).
  exists (peer_manager.mk_outcome [] false), (conn w). rewrite E1, E2, E3, E4. by split_and!.
Qed.

Lemma contract_get {B} (f : t → M B) :
  (∀ w, dead_ (conn w) = false → ∃ o, behaves o w (f (conn w) w).2) → contract (get ≫= f).
Proof. intros Hf w Hd. by apply Hf. Qed.

(** Errors and the end. *)
Lemma behaves_mark_dead w : dead_ (conn w) = false →
  behaves (peer_manager.mk_outcome [] true) w (mark_dead w).2.
Proof.
  intros Hd. unfold mark_dead. unfold mbind, M_bind, get. rewrite Hd. cbn.
  destruct (registered_ _ && _); by eexists.
Qed.

Lemma behaves_raise e w : dead_ (conn w) = false →
  behaves (peer_manager.mk_outcome [e] false) w (raise e w).2.
Proof. intros Hd. exists (conn w). by split_and!. Qed.

Lemma behaves_trans o1 o2 w1 w2 w3 : peer_manager.closes o1 = false →
  behaves o1 w1 w2 → behaves o2 w2 w3 →
  behaves (peer_manager.mk_outcome (peer_manager.errors o1 ++ peer_manager.errors o2)
             (peer_manager.closes o2)) w1 w3.
Proof.
  intros Hc (c1 & E1 & F1 & D1 & S1) (c2 & E2 & F2 & D2 & S2). rewrite Hc in *.
  exists c2. cbn [peer_manager.errors peer_manager.closes].
  split_and!; [|congruence|done|by rewrite S2, S1].
  rewrite E2, E1, rev_app_distr, map_app, <-!(assoc_L (++)). done.
Qed.

Lemma fail_behaves cat err what w : dead_ (conn w) = false →
  ∃ es, behaves (peer_manager.mk_outcome es true) w (fail cat err what w).2.
Proof.
  intros Hd. unfold fail. change ((get ≫= ?f) w) with (f (conn w) w). cbv beta zeta. rewrite Hd.
  destruct (negb _ || _); unfold mbind, M_bind; cbn [when].
  - set (e := mk_error _ _ _ _). pose proof (behaves_raise e w Hd) as H1.
    destruct (raise e w) as [u w1]. pose proof H1 as (_ & _ & _ & Hd1 & _).
    exists ([e] ++ []).
    apply (behaves_trans (peer_manager.mk_outcome [e] false) (peer_manager.mk_outcome [] true) w w1);
      [done|done|]. by apply behaves_mark_dead.
  - exists []. by apply behaves_mark_dead.
Qed.

Lemma contract_fail cat err what : contract (fail cat err what).
Proof. intros w Hd. destruct (fail_behaves cat err what w Hd). by eexists. Qed.

(** The writing loop either goes unnoticed or ends the connection. *)
Lemma flush_loop_behaves script w : dead_ (conn w) = false →
  let '(b, w') := flush_loop script w in
  if b : bool then behaves (peer_manager.mk_outcome [] false) w w'
  else ∃ es, behaves (peer_manager.mk_outcome es true) w w'.
Proof.
  revert w. induction script as [|r script IH]; intros w Hd; cbn [flush_loop];
    change ((get ≫= ?f) w) with (f (conn w) w); cbv beta.
  { destruct (buffer.empty _); exists (conn w); by split_and!. }
  destruct (buffer.empty _); [exists (conn w); by split_and!|].
  change ((get_kernel ≫= ?f) w) with (f (kernel w) w). cbv beta zeta.
  assert (∀ k cat err what, let '(b, w') := (_ ← set_kernel k; _ ← fail cat err what; mret false) w in
    if b : bool then behaves (peer_manager.mk_outcome [] false) w w'
    else ∃ es, behaves (peer_manager.mk_outcome es true) w w') as Hfail.
  { intros k cat err what. destruct (fail_behaves cat err what (set_kernel k w).2 Hd) as [es He].
    unfold mbind, M_bind. cbn [set_kernel] in *. destruct (fail cat err what _) as [u w1]. by exists es. }
  destruct r as [n|e].
  - destruct (0 <? _)%nat; [|apply Hfail]. unfold mbind, M_bind. cbn [set_kernel modify conn].
    match goal with |- context [flush_loop script ?w1] => specialize (IH w1 Hd) end. apply IH.
  - destruct (e =? EAGAIN); [exists (conn w); by split_and!|].
    destruct (e =? EINTR); [|apply Hfail].
    unfold mbind, M_bind. cbn [set_kernel].
    match goal with |- context [flush_loop script ?w1] => specialize (IH w1 Hd) end. apply IH.
Qed.

Lemma contract_flush_outbound : contract flush_outbound.
Proof.
  intros w Hd. unfold flush_outbound. change ((get_kernel ≫= ?f) w) with (f (kernel w) w). cbv beta.
  unfold mbind, M_bind. pose proof (flush_loop_behaves (sends (kernel w)) w Hd) as H.
  destruct (flush_loop _ w) as [[] w1].
  - cbn [when]. destruct H as (c & E1 & F1 & D1 & S1).
    destruct (contract_unseen _ unseen_update_epoll w1 D1) as (o & Ho). exists o.
    destruct Ho as (c' & E2 & F2 & D2 & S2). exists c'. simpl in *.
    split_and!; [by rewrite E2, E1|congruence|done|by rewrite S2, S1].
  - destruct H as [es H]. by eexists.
Qed.

(** Appending a frame and writing. *)
Lemma contract_finish rec :
  contract (_ ← append_out rec; t ← now clk; _ ← modify (set_lastSend t); flush_outbound).
Proof.
  apply contract_before; [done|]. intros _. apply contract_before; [done|]. intros z.
  apply contract_before; [done|]. intros _. apply contract_flush_outbound.
Qed.

Lemma contract_enqueue frame : contract (enqueue cfg_ clk frame).
Proof.
  apply contract_get. intros w Hd. rewrite Hd. cbv beta iota.
  apply (contract_before (if established_secure (conn w) then seal_frame frame else mret frame));
    [destruct (established_secure _); [apply unseen_seal_frame|done]| |done].
  intros rec. apply contract_get. intros w1 Hd1. cbv zeta.
  destruct (_ <? _); [|by apply contract_finish]. destruct (overflowPolicy cfg_).
  - by apply contract_fail.
  - apply (contract_before (when _ _)); [by apply unseen_when| |done]. intros _.
    apply contract_finish.
  - eexists. by apply behaves_raise.
Qed.

Lemma close_behaves w : dead_ (conn w) = false →
  ∃ es, behaves (peer_manager.mk_outcome es true) w (close_gracefully cfg_ clk w).2.
Proof.
  intros Hd. unfold close_gracefully. change ((get ≫= ?f) w) with (f (conn w) w). cbv beta.
  rewrite Hd. destruct (contract_enqueue encode_goodbye w Hd) as (o & Ho).
  unfold mbind, M_bind. destruct (enqueue cfg_ clk encode_goodbye w) as [u w1]. cbn [snd] in Ho.
  destruct o as [es []].
  - exists es. unfold mark_dead. change ((get ≫= ?f) w1) with (f (conn w1) w1). cbv beta.
    pose proof Ho as (_ & _ & _ & Hd1 & _). by rewrite Hd1.
  - pose proof Ho as (_ & _ & _ & Hd1 & _). exists (es ++ []).
    apply (behaves_trans (peer_manager.mk_outcome es false) (peer_manager.mk_outcome [] true) w w1);
      [done|done|]. by apply behaves_mark_dead.
Qed.

(** [C32] Connections keep the contract the peer manager relies on: for any
    owner and any kernel, each of [send_raw], [maybe_heartbeat] and
    [close_gracefully] on a live connection makes the owner hear of some errors
    and then of the end of the connection once or not at all ([close_gracefully]
    always ends it); a connection that is not ended keeps its state, one that is
    ended is [Dead], and socket, address, direction, identifier and times stay
    what they were.  On a dead connection none of them does anything. *)
Theorem connection_keeps_contract frame z interval (w : world) :
  (dead_ (conn w) = false →
     (∃ o, behaves o w (send_raw cfg_ clk frame w).2) ∧
     (∃ o, behaves o w (maybe_heartbeat cfg_ clk z interval w).2) ∧
     (∃ es, behaves (peer_manager.mk_outcome es true) w (close_gracefully cfg_ clk w).2)) ∧
  (dead_ (conn w) = true →
     send_raw cfg_ clk frame w = ((), w) ∧ maybe_heartbeat cfg_ clk z interval w = ((), w) ∧
     close_gracefully cfg_ clk w = ((), w)).
Proof.
  split; intros Hd.
  - split_and!; [by apply contract_enqueue| |by apply close_behaves].
    unfold maybe_heartbeat. change ((get ≫= ?f) w) with (f (conn w) w). cbv beta.
    destruct (negb _ || _); [by apply contract_unseen|].
    destruct (_ <=? _); [by apply contract_enqueue|by apply contract_unseen].
  - unfold send_raw, enqueue, maybe_heartbeat, close_gracefully.
    change ((get ≫= ?f) w) with (f (conn w) w). cbv beta. rewrite Hd.
    by rewrite orb_true_r.
Qed.

End contract.

End connection_contract.
