(* ===== verification/ManagerLogic.v ===== *)
(** * Programs of the peer manager that keep a property

    A program of the manager's monad preserves a property of the state when
    every run from a state with the property ends in one.  The rules follow the
    monad's operators; the tactic [preserves] takes a program apart down to its
    assignments, and closes what is left with the lemmas of the hint database
    of the same name. *)
From stdpp Require Import base list option.
From S2P Require Import Prelude PeerManager.

Module manager_logic.

Import peer_manager.

Section keeping.

Context (P : peer_manager.t → Prop).

Definition preserves {A} (m : M A) : Prop := ∀ w, P w → P (m w).2.

Lemma preserves_ret {A} (x : A) : preserves (mret x).
Proof. by intros w. Qed.

Lemma preserves_get : preserves get.
Proof. by intros w. Qed.

(** A program that ends with other duties than it keeps on the way. *)
Lemma preserves_until (Q : peer_manager.t → Prop) {A B} (m : M A) (f : A → M B) w :
  preserves m → (∀ x w', P w' → Q (f x w').2) → P w → Q ((m ≫= f) w).2.
Proof.
  intros Hm Hf Hw. unfold mbind, M_bind. specialize (Hm w Hw). destruct (m w) as [x w1].
  by apply Hf.
Qed.

Lemma preserves_bind {A B} (m : M A) (f : A → M B) :
  preserves m → (∀ x, preserves (f x)) → preserves (m ≫= f).
Proof. intros Hm Hf w. by apply preserves_until. Qed.

(** What was read is known of the state it was read from. *)
Lemma preserves_with_state {B} (f : peer_manager.t → M B) :
  (∀ w, P w → P (f w w).2) → preserves (get ≫= f).
Proof. intros Hf w. apply Hf. Qed.

Lemma preserves_each_Forall {A} (l : list A) (f : A → M unit) :
  Forall (λ x, preserves (f x)) l → preserves (each l f).
Proof. induction 1; [by apply preserves_ret|by apply preserves_bind]. Qed.

Lemma preserves_each {A} (l : list A) (f : A → M unit) :
  (∀ x, preserves (f x)) → preserves (each l f).
Proof. intros H. apply preserves_each_Forall, Forall_true, H. Qed.

End keeping.

Create HintDb preserves discriminated.

(** Take a program apart down to the assignments, which leave what matters
    alone. *)
Ltac preserves_step :=
  first
    [ solve [auto 1 with preserves] | apply preserves_ret | apply preserves_get
    | apply preserves_bind; [|intros ?] | apply preserves_each; intros ?
    | solve [intros ? Hkeep; exact Hkeep]
    | match goal with
      | |- preserves _ (if ?b then _ else _) => destruct b
      | |- preserves _ (match ?x with _ => _ end) => destruct x
      | |- preserves _ (when ?b _) => destruct b; cbn [when]
      end ].

Ltac preserves := repeat preserves_step.

End manager_logic.
