(* ===== verification/MeshDelegate.v ===== *)
(** * Callbacks and snapshots

    The delegate half of [mesh_impl] (src/src/mesh_impl.cpp): every call the
    peer manager makes upwards either invokes a user callback or replaces a
    snapshot that the accessors read.  The theorem is that, while the node
    runs, the accessors tell the truth about the manager's state, whatever
    re-entrance the manager goes through. *)
From Stdlib Require Import ZArith Lia.
From Stdlib.Strings Require Import Byte.
From stdpp Require Import base gmap sets list strings numbers option.
From S2P Require Import Prelude PeerId Wire Config Crypto Identity Gossip Membership PeerConnection PeerManager PeerManagerFacts ManagerLogic.

Module mesh_delegate.

Import peer_manager manager_logic.

(** [callbacks]: which of the handlers the application has set. *)
Record callbacks := mk_callbacks {
  onPeerDiscovered : bool;
  onPeerConnected : bool;
  onPeerDisconnected : bool;
  onPeerLost : bool;
  onMemberJoined : bool;
  onMemberLeft : bool;
  onMessage : bool;
  onError : bool;
}.

(** The snapshots, [localLabels_], and the invocations of handlers, latest
    first.  [namesSnap_] starts as a null pointer. *)
Record t := mk {
  cb_ : callbacks;
  localLabels_ : gmap peer_id (list byte);
  connectedSnap_ : list peer_id;
  knownSnap_ : list peer_id;
  membersSnap_ : list peer_id;
  namesSnap_ : option (gmap peer_id (list byte));
  invoked : list event;
}.

Definition make (cb : callbacks) (labels : gmap peer_id (list byte)) : t :=
  mk cb labels [] [] [] None [].

(** Call a handler if it is set. *)
Definition invoke (set : callbacks → bool) (e : event) (m : t) : t :=
  mk (cb_ m) (localLabels_ m) (connectedSnap_ m) (knownSnap_ m) (membersSnap_ m) (namesSnap_ m)
    (if set (cb_ m) then e :: invoked m else invoked m).

Definition connected_snapshot (v : list peer_id) (m : t) : t :=
  mk (cb_ m) (localLabels_ m) v (knownSnap_ m) (membersSnap_ m) (namesSnap_ m) (invoked m).
Definition known_snapshot (v : list peer_id) (m : t) : t :=
  mk (cb_ m) (localLabels_ m) (connectedSnap_ m) v (membersSnap_ m) (namesSnap_ m) (invoked m).
Definition members_snapshot (v : list peer_id) (m : t) : t :=
  mk (cb_ m) (localLabels_ m) (connectedSnap_ m) (knownSnap_ m) v (namesSnap_ m) (invoked m).
Definition names_snapshot (v : gmap peer_id (list byte)) (m : t) : t :=
  mk (cb_ m) (localLabels_ m) (connectedSnap_ m) (knownSnap_ m) (membersSnap_ m) (Some v) (invoked m).

(** The methods of [peer_manager_delegate]. *)
Definition deliver (e : event) (m : t) : t :=
  match e with
  | PeerDiscovered _ => invoke onPeerDiscovered e m
  | PeerConnected _ => invoke onPeerConnected e m
  | PeerDisconnected _ => invoke onPeerDisconnected e m
  | PeerLost _ => invoke onPeerLost e m
  | MemberJoined _ => invoke onMemberJoined e m
  | MemberLeft _ => invoke onMemberLeft e m
  | MessageReceived _ _ => invoke onMessage e m
  | OnError _ => invoke onError e m
  | ConnectedSnapshot ids => connected_snapshot ids m
  | KnownSnapshot ids => known_snapshot ids m
  | MembersSnapshot ids => members_snapshot ids m
  | NamesSnapshot names => names_snapshot names m
  end.

(** The state after the calls [evs] of the manager, latest first. *)
Definition after (m : t) (evs : list event) : t := fold_right deliver m evs.

(** The accessors. *)
Definition connected_peers (m : t) : list peer_id := connectedSnap_ m.
Definition known_peers (m : t) : list peer_id := knownSnap_ m.
Definition members (m : t) : list peer_id := membersSnap_ m.

Definition node_name (id : peer_id) (m : t) : list byte :=
  match localLabels_ m !! id with
  | Some name => name
  | None =>
      match namesSnap_ m with
      | Some names => default [] (names !! id)
      | None => []
      end
  end.

(** What an application makes of the join and leave callbacks and the last
    snapshot. *)
Definition as_effect (e : event) : option membership.effect :=
  match e with
  | MemberJoined id => Some (membership.MemberJoined id)
  | MemberLeft id => Some (membership.MemberLeft id)
  | MembersSnapshot ids => Some (membership.MembersSnapshot ids)
  | _ => None
  end.

Definition replay (evs : list event) : option (gset peer_id * list peer_id) :=
  fold_right (λ e o, match as_effect e with Some f => membership.observe o f | None => o end)
    (Some (∅, [])) evs.

(** The state in which the snapshots are up to date; [tidy] is all of it but the
    snapshot of known peers. *)
Section coherence.

Context {Sod : Sodium} (cfg_ : mesh_config) (self_ : local_identity) (clk : nat → Z) (m0 : t).

Definition snaps (w : peer_manager.t) : t := after m0 (delegate_ (obs w)).

Definition tidy (w : peer_manager.t) : Prop :=
  membership.agrees (membership_ w) (replay (delegate_ (obs w))) ∧
  membership.synced (membership_ w) ∧
  default ∅ (namesSnap_ (snaps w)) = names_ w.

Definition known_ok (w : peer_manager.t) : Prop :=
  list_to_set (knownSnap_ (snaps w)) = dom (records_ w).

Definition coherent (w : peer_manager.t) : Prop := tidy w ∧ known_ok w.

(** ** What keeps it: the primitives *)

Definition frame {A} (m : M A) : Prop := ∀ w,
  membership_ (m w).2 = membership_ w ∧ names_ (m w).2 = names_ w ∧
  dom (records_ (m w).2) = dom (records_ w) ∧ delegate_ (obs (m w).2) = delegate_ (obs w).

Lemma preserves_frame {A} (m : M A) : frame m → preserves coherent m.
Proof.
  intros Hm w (Ht & Hk). destruct (Hm w) as (E1 & E2 & E3 & E4).
  unfold coherent, tidy, known_ok, snaps in *. by rewrite E1, E2, E3, E4.
Qed.

Lemma frame_script : frame next_outcome ∧ frame next_connect ∧ frame rng_ ∧
  (∀ h p, frame (resolve_endpoint h p)).
Proof.
  split_and!; intros; intros w; unfold next_outcome, next_connect, rng_, resolve_endpoint;
    by destruct (_ (env w)).
Qed.

Lemma frame_alter_record id f : frame (modify (alter_record id f)).
Proof. intros w. simpl. split_and!; [done|done| |done]. apply dom_alter_L. Qed.

Lemma frame_free_slot p : frame (modify (free_slot p)).
Proof. intros w. simpl. unfold free_slot. by destruct (static_dial_conn_ w !! p). Qed.

Lemma frame_detach p pid : frame (modify (detach p pid)).
Proof. intros w. simpl. unfold detach. destruct (is_zero pid); [done|]. by case_bool_decide. Qed.

Lemma preserves_primitives :
  preserves coherent next_outcome ∧ preserves coherent next_connect ∧ preserves coherent rng_ ∧
  (∀ h p, preserves coherent (resolve_endpoint h p)) ∧
  (∀ id f, preserves coherent (modify (alter_record id f))) ∧
  (∀ p, preserves coherent (modify (free_slot p))) ∧
  (∀ p pid, preserves coherent (modify (detach p pid))).
Proof.
  destruct frame_script as (H1 & H2 & H3 & H4).
  split_and!; intros; apply preserves_frame;
    auto using frame_alter_record, frame_free_slot, frame_detach.
Qed.

(** A snapshot of the known peers sets that right. *)
Lemma emit_known w : tidy w → coherent (emit_known_snapshot w).2.
Proof.
  intros Ht. split; [exact Ht|]. unfold known_ok, snaps. simpl.
  apply set_eq. intros x. rewrite elem_of_list_to_set, list_elem_of_In, in_map_iff, elem_of_dom.
  split.
  - intros ([k r] & <- & Hin%list_elem_of_In). apply elem_of_map_to_list in Hin. by eexists.
  - intros [r Hr]. exists (x, r). split; [done|]. by apply list_elem_of_In, elem_of_map_to_list.
Qed.

Lemma preserves_emit_known : preserves coherent emit_known_snapshot.
Proof. intros w [Ht _]. by apply emit_known. Qed.

(** Storing a name, then the snapshot of the names. *)
Lemma preserves_names (f : peer_manager.t → gmap peer_id (list byte)) :
  preserves coherent (_ ← modify (λ w, set_names (f w) w); emit_names_snapshot).
Proof. intros w ((H1 & H2 & _) & Hk). by split. Qed.

(** Creating a record, then announcing it if that is due. *)
Lemma preserves_touch pid f : (∀ r, announced (f r) = announced r) →
  preserves coherent (_ ← modify (touch_record pid f); announce_once pid).
Proof.
  intros Hf w [Ht Hk]. unfold announce_once, touch_record, mbind, M_bind, modify, get.
  cbn [fst snd records_ set_records]. rewrite lookup_insert_eq, Hf.
  destruct (records_ w !! pid) as [r|] eqn:E; cbn [from_option id].
  - destruct (announced r) eqn:Ea; cbn [negb when].
    + split; [exact Ht|]. unfold known_ok, snaps in *. simpl. rewrite Hk, dom_insert_L.
      assert (pid ∈ dom (records_ w)) by (by apply elem_of_dom; eexists). set_solver.
    + apply emit_known. exact Ht.
  - apply emit_known. exact Ht.
Qed.

(** *** Membership *)

(** Floods come after everything the application is told. *)
Fixpoint floods_last (es : list membership.effect) : Prop :=
  match es with
  | [] => True
  | membership.FloodFrame _ _ :: es =>
      Forall (λ e, ∃ frame fd, e = membership.FloodFrame frame fd) es
  | _ :: es => floods_last es
  end.

Lemma floods_last_app l fl : Forall (λ e, ∀ frame fd, e ≠ membership.FloodFrame frame fd) l →
  Forall (λ e, ∃ frame fd, e = membership.FloodFrame frame fd) fl → floods_last (l ++ fl).
Proof.
  intros Hl Hfl. induction Hl as [|e l He _ IH]; simpl.
  - destruct Hfl as [|e fl (frame & fd & ->) Hfl]; [done|]. exact Hfl.
  - destruct e; try done. by destruct (He frame0 exceptFd).
Qed.

Lemma recompute_no_flood m :
  Forall (λ e, ∀ frame fd, e ≠ membership.FloodFrame frame fd) (membership.recompute_and_fire m).2.
Proof.
  unfold membership.recompute_and_fire. case_bool_decide; simpl; rewrite ?Forall_app, !Forall_map.
  all: split_and!; try (apply Forall_true; by intros). by repeat constructor.
Qed.

Lemma step_floods_last m o : floods_last (membership.step m o).2.
Proof.
  assert (∀ e : membership.effect, (∃ frame fd, e = membership.FloodFrame frame fd) →
    Forall (λ e, ∃ frame fd, e = membership.FloodFrame frame fd) [e]) as H1 by (by repeat constructor).
  destruct o as [ns now|rec fd now|now]; cbn [membership.step].
  - unfold membership.set_local_neighbors. case_bool_decide; [done|].
    match goal with |- context [membership.recompute_and_fire ?x] =>
      pose proof (recompute_no_flood x) as Hno; destruct (membership.recompute_and_fire x) as [m1 e1] end.
    apply floods_last_app; [done|]. apply H1. by do 2 eexists.
  - unfold membership.on_remote_record. destruct (peer_id_eqb _ _); [done|].
    destruct (membership.is_stale rec m); [done|].
    match goal with |- context [membership.recompute_and_fire ?x] =>
      pose proof (recompute_no_flood x) as Hno; destruct (membership.recompute_and_fire x) as [m1 e1] end.
    apply floods_last_app; [done|]. apply H1. by do 2 eexists.
  - unfold membership.tick. set (kept := filter _ _). cbv zeta.
    assert (∃ m1 e1, (if bool_decide (kept = membership.view_ m) then (m, [])
      else membership.recompute_and_fire (membership.with_view m kept)) = (m1, e1) ∧
      Forall (λ e, ∀ frame fd, e ≠ membership.FloodFrame frame fd) e1) as (m1 & e1 & -> & Hno).
    { case_bool_decide; [by exists m, []|].
      pose proof (recompute_no_flood (membership.with_view m kept)).
      destruct (membership.recompute_and_fire _) as [m1 e1]. eauto. }
    destruct (_ <=? _); [apply floods_last_app; [done|]; apply H1; by do 2 eexists|].
    rewrite <-(app_nil_r e1). by apply floods_last_app.
Qed.

Section knot.

Variable on_closed : ptr → M unit.
Hypothesis closed_keeps : ∀ p, preserves coherent (on_closed p).

#[local] Hint Resolve closed_keeps preserves_emit_known : preserves.
#[local] Hint Extern 1 (preserves coherent _) => apply preserves_primitives : preserves.

Lemma preserves_settle p o : preserves coherent (settle on_closed p o).
Proof. unfold settle, kill, report_error. preserves. Qed.

#[local] Hint Resolve preserves_settle : preserves.

Lemma preserves_send_raw p f : preserves coherent (send_raw on_closed p f).
Proof. unfold send_raw, with_conn, deref. preserves. Qed.

Lemma preserves_pick_targets l fd : preserves coherent (pick_targets l fd).
Proof. induction l; simpl; unfold deref; preserves. Qed.

#[local] Hint Resolve preserves_send_raw preserves_pick_targets : preserves.

Lemma preserves_forward_except f fd : preserves coherent (forward_except on_closed f fd).
Proof. unfold forward_except. preserves. Qed.

#[local] Hint Resolve preserves_forward_except : preserves.

(** Delivering what an operation of the membership reports makes the published
    set that of the new state; the floods at the end may re-enter. *)
Lemma effects_coherent es : ∀ w, floods_last es →
  membership.agrees (membership_ w) (fold_left membership.observe es (replay (delegate_ (obs w)))) →
  membership.synced (membership_ w) → default ∅ (namesSnap_ (snaps w)) = names_ w → known_ok w →
  coherent (each es (run_effect on_closed) w).2.
Proof.
  induction es as [|e es IH]; intros w Hfl Ha Hs Hn Hk; [by split|].
  destruct e as [id|id|ids|frame fd].
  4: {
    assert (coherent w) as Hw.
    { split; [|done]. split; [|done]. simpl in Ha. rewrite membership.observe_flood in Ha.
      assert (∀ o, fold_left membership.observe es o = o) as Hid.
      { clear -Hfl. simpl in Hfl. induction Hfl as [|e es (frame' & fd' & ->) _ IH']; [done|].
        intros o. cbn [fold_left]. by rewrite membership.observe_flood. }
      by rewrite Hid in Ha. }
    assert (preserves coherent (each (membership.FloodFrame frame fd :: es) (run_effect on_closed))) as Hkeep.
    { apply preserves_each_Forall. constructor; [apply preserves_forward_except|].
      simpl in Hfl. apply (list.Forall_impl _ _ _ Hfl). intros e (frame' & fd' & ->).
      apply preserves_forward_except. }
    by apply Hkeep. }
  all: cbn [each]; apply IH; done.
Qed.

Lemma preserves_on_membership o :
  preserves coherent (on_membership on_closed (λ m, membership.step m o)).
Proof.
  intros w ((Ha & Hs & Hn) & Hk). unfold on_membership, mbind, M_bind, get, modify.
  pose proof (membership.step_agrees _ o _ Ha) as Ha'.
  pose proof (membership.step_synced _ o Hs) as Hs'. pose proof (step_floods_last (membership_ w) o) as Hf.
  destruct (membership.step (membership_ w) o) as [m es]. by apply effects_coherent.
Qed.

Lemma preserves_update_local_membership : preserves coherent (update_local_membership clk on_closed).
Proof.
  unfold update_local_membership. apply preserves_bind; [preserves|]. intros w. apply preserves_bind; [preserves|].
  intros tnow. apply (preserves_on_membership (membership.SetNeighbors _ tnow)).
Qed.

#[local] Hint Resolve preserves_update_local_membership : preserves.

Lemma preserves_maintain : preserves coherent (maintain_static_peers cfg_ clk on_closed).
Proof.
  unfold maintain_static_peers, maintain_target, start_static_dial, start_connect, make_conn,
    report_error. preserves.
Qed.

#[local] Hint Resolve preserves_maintain : preserves.

Lemma preserves_body p : preserves coherent (on_peer_closed_body cfg_ clk on_closed p).
Proof.
  unfold on_peer_closed_body, with_conn, deref, emit_connected_snapshot, schedule_reconnect,
    schedule_reap.
  preserves.
Qed.

(** *** Dialling, accepting, handshakes *)

Lemma preserves_start_connect p : preserves coherent (start_connect on_closed p).
Proof. unfold start_connect. preserves. Qed.

#[local] Hint Resolve preserves_start_connect : preserves.

Lemma preserves_maybe_dial id : preserves coherent (maybe_dial cfg_ self_ clk on_closed id).
Proof. unfold maybe_dial, start_dial, make_conn. preserves. Qed.

Lemma preserves_dial_seeds : preserves coherent (dial_seeds cfg_ clk on_closed).
Proof. unfold dial_seeds, start_dial_addr, make_conn. preserves. Qed.

Lemma preserves_close_gracefully p : preserves coherent (close_gracefully on_closed p).
Proof. unfold close_gracefully, with_conn, deref. preserves. Qed.

Lemma preserves_touch_then {A} pid f (rest : M A) : (∀ r, announced (f r) = announced r) →
  preserves coherent rest →
  preserves coherent (_ ← modify (touch_record pid f); _ ← announce_once pid; rest).
Proof.
  intros Hf Hrest w Hw. pose proof (preserves_touch pid f Hf w Hw) as Ht.
  unfold mbind, M_bind in *. destruct (modify (touch_record pid f) w) as [u w1].
  destruct (announce_once pid w1) as [u2 w2]. by apply Hrest.
Qed.

#[local] Hint Resolve preserves_maybe_dial preserves_dial_seeds preserves_close_gracefully : preserves.

Lemma preserves_on_discovered a src : preserves coherent (on_discovered cfg_ self_ clk on_closed a src).
Proof.
  unfold on_discovered. apply preserves_bind; [preserves|]. intros tnow.
  apply preserves_touch_then; [done|]. preserves.
Qed.

Lemma preserves_accept fd addr : preserves coherent (accept_connection clk on_closed fd addr).
Proof. unfold accept_connection, make_conn. preserves. Qed.

(** Dropping records, then the snapshot. *)
Lemma preserves_then_emit (m : M unit) : preserves tidy m → preserves coherent (_ ← m; emit_known_snapshot).
Proof.
  intros Hm w [Ht _]. unfold mbind, M_bind. specialize (Hm w Ht). destruct (m w) as [u w1].
  by apply emit_known.
Qed.

Lemma preserves_bind_static p pid : preserves coherent (bind_static p pid).
Proof.
  unfold bind_static. apply preserves_bind; [preserves|]. intros w.
  destruct (static_dial_conn_ w !! p) as [i|]; [|preserves]. apply preserves_bind; [|intros; preserves].
  destruct (static_targets_ w !! i) as [s|]; [|preserves].
  destruct (learnedId s) as [old|]; [|preserves]. destruct (peer_id_eqb old pid); [preserves|].
  cbn [negb when]. apply preserves_then_emit. by intros w' Hw.
Qed.

#[local] Hint Resolve preserves_on_discovered preserves_accept preserves_bind_static preserves_names : preserves.

Lemma preserves_install p pid peer existing :
  preserves coherent (install self_ clk on_closed p pid peer existing).
Proof. unfold install, make_self_id_record, emit_connected_snapshot. preserves. Qed.

#[local] Hint Resolve preserves_install : preserves.

Lemma preserves_on_peer_handshake p peer :
  preserves coherent (on_peer_handshake self_ clk on_closed p peer).
Proof.
  unfold on_peer_handshake, with_conn, deref. apply preserves_bind; [preserves|]. intros [c|]; [|preserves].
  destruct (peer_id_eqb _ _); [preserves|]. apply preserves_bind; [preserves|]. intros b.
  apply preserves_bind; [preserves|]. intros tnow. apply preserves_touch_then; [done|]. preserves.
Qed.

(** *** Data, membership, names, the tick *)

#[local] Instance fwd : Forwarder peer_manager.t := manager_forwarder on_closed.

Lemma preserves_router f : (∀ r w, coherent w → coherent (f r w).2) → preserves coherent (on_router f).
Proof.
  intros Hf w Hw. unfold on_router. specialize (Hf (router_ w) w Hw).
  by destruct (f (router_ w) w) as [r w1].
Qed.

Lemma relay_coherent dst frame fd (r : gossip_router.t) w : coherent w →
  coherent (let '(direct, w) := Gossip.forward_to dst frame w in
            if direct : bool then (r, w) else (r, Gossip.forward_except frame fd w)).2.
Proof.
  intros Hw. assert (preserves coherent (forward_to on_closed dst frame)) as Hk.
  { unfold forward_to. preserves. }
  specialize (Hk w Hw). cbn [Gossip.forward_to fwd manager_forwarder].
  destruct (forward_to _ _ _ w) as [[] w1]; [done|]. by apply preserves_forward_except.
Qed.

Lemma on_data_coherent z view fd r w : coherent w →
  coherent (gossip_router.on_data z view fd r w).2.
Proof.
  intros Hw. unfold gossip_router.on_data. destruct (gossip_router.seen _ _ r) as [dup r1].
  destruct dup; [done|]. destruct (is_zero _).
  - destruct (1 <? _), (negb _); try done; by apply preserves_forward_except.
  - destruct (peer_id_eqb _ _); [done|]. destruct (1 <? _); [by apply relay_coherent|done].
Qed.

Lemma broadcast_coherent z payload r w : coherent w →
  coherent (gossip_router.originate_broadcast z payload r w).2.
Proof.
  intros Hw. unfold gossip_router.originate_broadcast. destruct (gossip_router.next_id r) as [id r1].
  destruct (gossip_router.seen _ _ r1). by apply preserves_forward_except.
Qed.

Lemma targeted_coherent z dst payload r w : coherent w →
  coherent (gossip_router.originate_targeted z dst payload r w).2.
Proof.
  intros Hw. unfold gossip_router.originate_targeted. destruct (peer_id_eqb _ _); [done|].
  destruct (gossip_router.next_id r) as [id r1].
  destruct (gossip_router.seen _ _ r1). by apply relay_coherent.
Qed.

Lemma preserves_on_peer_identity p rec : preserves coherent (on_peer_identity self_ on_closed p rec).
Proof. unfold on_peer_identity, with_conn, deref. preserves. Qed.

Lemma preserves_lose_records tnow : preserves coherent (lose_records cfg_ tnow).
Proof.
  unfold lose_records. apply preserves_bind; [preserves|]. intros w.
  destruct (bool_decide _); cbn [negb when]; [preserves|]. apply preserves_then_emit.
  apply preserves_each. intros id w' Hw. exact Hw.
Qed.

Lemma preserves_tick_conn tnow p : preserves coherent (tick_conn cfg_ on_closed tnow p).
Proof. unfold tick_conn, maybe_heartbeat, with_conn, deref. preserves. Qed.

Lemma preserves_membership_tick tnow : preserves coherent (on_membership on_closed (membership.tick tnow)).
Proof. apply (preserves_on_membership (membership.Tick tnow)). Qed.

#[local] Hint Resolve preserves_lose_records preserves_tick_conn preserves_membership_tick : preserves.

Lemma preserves_tick : preserves coherent (tick cfg_ self_ clk on_closed).
Proof.
  unfold tick, flood_self_identity, make_self_id_record, schedule_tick. preserves.
Qed.

(** Every step but the shutdown, which clears without telling. *)
Lemma preserves_step o : o ≠ Shutdown → preserves coherent (step cfg_ self_ clk on_closed o).
Proof.
  intros Ho. destruct o; try done; cbn [step]; unfold conn_step.
  - unfold start, router_start, schedule_tick. preserves.
  - preserves.
  - preserves.
  - unfold originate_broadcast. apply preserves_bind; [preserves|]. intros z. apply preserves_router.
    intros r w. apply broadcast_coherent.
  - unfold originate_targeted. apply preserves_bind; [preserves|]. intros z. apply preserves_router.
    intros r w. apply targeted_coherent.
  - destruct cb; cbn [on_timer]; [apply preserves_tick|unfold reap; preserves| |preserves].
    unfold on_reconnect_timer. preserves.
  - preserves.
  - preserves.
  - preserves.
  - pose proof preserves_on_peer_handshake. preserves.
  - unfold on_peer_data, with_conn, deref. apply preserves_bind; [preserves|]. intros w.
    destruct (objects w !! p) as [c|]; [|preserves]. destruct (is_established c); cbn [when]; [|preserves].
    apply preserves_bind; [preserves|]. intros [c'|]; [|preserves]. apply preserves_bind; [preserves|]. intros z.
    apply preserves_router. intros r w'. apply on_data_coherent.
  - unfold on_peer_membership, with_conn, deref. apply preserves_bind; [preserves|]. intros w.
    destruct (objects w !! p) as [c|]; [|preserves]. destruct (is_established c); cbn [when]; [|preserves].
    apply preserves_bind; [preserves|]. intros [c'|]; [|preserves]. apply preserves_bind; [preserves|]. intros z.
    apply (preserves_on_membership (membership.RemoteRecord rec (c_fd c') z)).
  - pose proof preserves_on_peer_identity. preserves.
  - preserves.
Qed.

End knot.

Lemma preserves_on_peer_closed p : preserves coherent (on_peer_closed cfg_ clk p).
Proof.
  intros w. unfold on_peer_closed. generalize (3 + size (objects w))%nat. intros n.
  revert p w. induction n as [|n IH]; intros p w Hw; [exact Hw|]. by apply preserves_body.
Qed.

Lemma run_coherent ops w : Forall (λ o, o ≠ Shutdown) ops → coherent w →
  coherent (run cfg_ self_ clk ops w).2.
Proof.
  intros Hops. revert w. apply preserves_each_Forall. eapply list.Forall_impl; [exact Hops|].
  intros o Ho. apply preserves_step; [apply preserves_on_peer_closed|done].
Qed.

End coherence.

Lemma replay_snapshot m0 evs s snap :
  membersSnap_ m0 = [] → replay evs = Some (s, snap) → membersSnap_ (after m0 evs) = snap.
Proof.
  intros H0. revert s snap. induction evs as [|e evs IH]; intros s snap; simpl; [by intros [= _ <-]|].
  destruct e; simpl; try apply IH.
  - destruct (replay evs) as [[s' snap']|]; [|done]. simpl. case_decide; [done|]. intros [= <- <-]. eauto.
  - destruct (replay evs) as [[s' snap']|]; [|done]. simpl. case_decide; [|done]. intros [= <- <-]. eauto.
  - destruct (replay evs) as [[s' snap']|]; [|done]. simpl. by intros [= <- <-].
Qed.

Lemma make_coherent {Sod : Sodium} cfg_ self_ e wall rd1 rd2 cb labels :
  coherent (make cb labels) (peer_manager.make cfg_ self_ e wall rd1 rd2).
Proof.
  split; [split; [|split]|].
  - by exists [].
  - apply membership.make_synced.
  - done.
  - done.
Qed.

(** [C18] The accessors tell the truth: after any sequence of events short of a
    shutdown, whatever re-entrance they caused, [members()] lists exactly the
    nodes a path of links leads to, which is also the set an application gets
    by replaying the join and leave callbacks; [known_peers()] lists exactly the
    peers with a record; and [node_name()] is the operator's label if there is
    one, else the name the manager holds, else empty. *)
Theorem accessors_tell_truth {Sod : Sodium} cfg_ self_ clk e wall rd1 rd2 cb labels ops :
  Forall (λ o, o ≠ Shutdown) ops →
  let w := (run cfg_ self_ clk ops (peer_manager.make cfg_ self_ e wall rd1 rd2)).2 in
  let m := after (make cb labels) (delegate_ (obs w)) in
  (∀ x, x ∈ members m ↔ membership.is_member (membership_ w) x) ∧
  replay (delegate_ (obs w)) = Some (list_to_set (members m), members m) ∧
  (∀ x, x ∈ known_peers m ↔ is_Some (records_ w !! x)) ∧
  (∀ x, node_name x m = default (default [] (names_ w !! x)) (labels !! x)).
Proof.
  intros Hops w m.
  pose proof (run_coherent cfg_ self_ clk (make cb labels) ops _ Hops
    (make_coherent cfg_ self_ e wall rd1 rd2 cb labels)) as ((Ha & Hs & Hn) & Hk). fold w in Ha, Hs, Hn, Hk.
  destruct Ha as (snap & Hr & Hset).
  pose proof (replay_snapshot (make cb labels) _ _ _ eq_refl Hr) as Hsnap. fold m in Hsnap.
  split_and!.
  - intros x. unfold members. rewrite Hsnap, <-(elem_of_list_to_set (C:=gset peer_id)), Hset. apply Hs.
  - unfold members. by rewrite Hr, Hsnap, Hset.
  - intros x. unfold known_peers, known_ok, snaps in *. fold m in Hk.
    by rewrite <-(elem_of_list_to_set (C:=gset peer_id)), Hk, elem_of_dom.
  - intros x. unfold node_name. assert (localLabels_ m = labels) as ->.
    { unfold m. clear. induction (delegate_ (obs w)) as [|ev l IH]; [done|]. by destruct ev. }
    destruct (labels !! x); [done|]. simpl. unfold snaps in Hn. fold m in Hn.
    destruct (namesSnap_ m); simpl in Hn; rewrite <-Hn; [done|by rewrite lookup_empty].
Qed.

#[local] Existing Instance crypto.toy_sodium.
Import manager_facts.

Definition sample_callbacks : callbacks := mk_callbacks true true true true true true true true.

Lemma accessors_tell_truth_witness :
  let w := (run sample_config (sample_node 1) sample_clock sample_ops
              (peer_manager.make sample_config (sample_node 1) sample_breaks 0 0 0)).2 in
  let m := after (make sample_callbacks ∅) (delegate_ (obs w)) in
  members m = [sample_id 2] ∧ membership.is_member (membership_ w) (sample_id 2).
Proof.
  intros w m. assert (members m = [sample_id 2]) as Hm by (vm_compute; reflexivity).
  split; [exact Hm|].
  destruct (accessors_tell_truth sample_config (sample_node 1) sample_clock sample_breaks 0 0 0
    sample_callbacks ∅ sample_ops) as [Ht _].
  - repeat (constructor; [discriminate|]). constructor.
  - apply Ht. fold w. fold m. rewrite Hm. left.
Defined.

End mesh_delegate.
