(* ===== verification/Reaping.v ===== *)
(** * Deferred reaping

    A connection is not destroyed where it dies, which may be in the middle of
    its own callback: it is put on [reap_], and a timer with no delay is armed
    unless one is pending ([schedule_reap], [reap] in src/src/peer_manager.cpp).
    The invariant [tidy] says that the books are right: whatever is dead is
    listed, whatever exists is owned, and a list that is not empty has its
    timer.  [keep] is the same inside of a call, with the connections that are
    just dying or not stored yet set apart, and it keeps track of the timers
    armed since.  Reactor.v puts the manager on the event loop with it. *)
From Stdlib Require Import ZArith Lia.
From Stdlib.Strings Require Import Byte.
From stdpp Require Import base gmap sets list strings numbers option.
From S2P Require Import Prelude PeerId Wire Config Crypto Identity Gossip Membership PeerConnection PeerManager PeerManagerFacts ManagerLogic.

Open Scope Z_scope.

Module reaping.

Import peer_manager manager_logic.

Definition is_reap (cb : timer_cb) : bool := match cb with ReapTimer => true | _ => false end.

(** How many of the timers reap; how many reaps are due. *)
Definition reaps (l : list (Z * timer_cb)) : nat := length (filter (λ dc, is_reap dc.2 = true) l).

Definition owed (w : t) : nat := if reapScheduled_ w then 1 else 0.

Section tidy.

Context {Sod : Sodium} (cfg_ : mesh_config) (self_ : local_identity) (clk : nat → Z) (D : Z).

(** Reaps are immediate, every other delay is at least [D]. *)
Definition timely (dc : Z * timer_cb) : Prop := if is_reap dc.2 then dc.1 = 0 else D <= dc.1.

Record patient : Prop := {
  patient_tick : D <= ms (heartbeatInterval cfg_);
  patient_backoff : ∀ n draw, 0 <= n → D <= ms (backoff cfg_ n draw);
  patient_sweep : let period := Z.quot (dedupTtl cfg_) 4 in
    D <= ms (if period <=? 0 then 1000 else period);
}.

Definition listed (X : list ptr) (w : t) : Prop :=
  starved (obs w) = true ∨
  ∀ p c, objects w !! p = Some c → is_dead c = true → p ∈ X ∨ p ∈ reap_ w.

Definition owned (Y : list ptr) (w : t) : Prop :=
  ∀ p, is_Some (objects w !! p) → p ∈ Y ∨ p ∈ conns_ w.

Definition counted (w : t) : Prop :=
  (reap_ w ≠ [] → reapScheduled_ w = true) ∧
  ∀ k r, records_ w !! k = Some r → 0 <= reconnectAttempts r.

Definition tidy (w : t) : Prop := listed [] w ∧ owned [] w ∧ counted w.

(** The objects of [O] exist, and of the timers armed since the list was [A]
    as many reap as [reapScheduled_] tells, when [n] were due at that time. *)
Definition keep (O : gset ptr) (A : list (Z * timer_cb)) (n : nat) (X Y : list ptr) (w : t) : Prop :=
  (∀ p, p ∈ O → is_Some (objects w !! p)) ∧ listed X w ∧ owned Y w ∧ counted w ∧
  ∃ l, armed (obs w) = l ++ A ∧ (reaps l + n)%nat = owed w ∧ Forall timely l.

Lemma tidy_keep w : tidy w → keep (dom (objects w)) (armed (obs w)) (owed w) [] [] w.
Proof.
  intros (Hl & Ho & Hc). split_and!; [|done..|by exists []]. intros p Hp. by apply elem_of_dom.
Qed.

Lemma keep_tidy O A n w : keep O A n [] [] w → tidy w.
Proof. by intros (_ & ? & ? & ? & _). Qed.

Section within.

Context (O : gset ptr) (A : list (Z * timer_cb)) (n : nat).

#[local] Abbreviation keep := (keep O A n).

Lemma keep_mono X X' Y Y' w : X ⊆ X' → Y ⊆ Y' → keep X Y w → keep X' Y' w.
Proof.
  intros HX HY (H1 & Hl & Ho & Hc & Ha). split_and!; [done| | |done|done].
  - destruct Hl as [Hl|Hl]; [by left|right]. intros p c Hp Hd. destruct (Hl p c Hp Hd); eauto.
  - intros p Hp. destruct (Ho p Hp); eauto.
Qed.

(** *** The primitives *)

Lemma kept_script X Y :
  preserves (keep X Y) next_outcome ∧ preserves (keep X Y) next_connect ∧
  preserves (keep X Y) rng_ ∧ (∀ h p, preserves (keep X Y) (resolve_endpoint h p)).
Proof.
  split_and!; intros; intros w Hw; unfold next_outcome, next_connect, rng_, resolve_endpoint;
    destruct (_ (env w)); exact Hw.
Qed.

Lemma keep_records X Y m w : (∀ k r, m !! k = Some r → 0 <= reconnectAttempts r) →
  keep X Y w → keep X Y (set_records m w).
Proof. intros Hm (H1 & Hl & Ho & [Hr _] & Ha). by split_and!. Qed.

Lemma keep_attempts X Y w k r : keep X Y w → records_ w !! k = Some r → 0 <= reconnectAttempts r.
Proof. intros (_ & _ & _ & [_ Hr] & _). apply Hr. Qed.

Lemma kept_alter_record X Y id f :
  (∀ r, 0 <= reconnectAttempts r → 0 <= reconnectAttempts (f r)) →
  preserves (keep X Y) (modify (alter_record id f)).
Proof.
  intros Hf w Hw. apply keep_records; [|done]. intros k r.
  rewrite lookup_alter_Some. intros [(-> & r' & Hr & ->)|[_ Hr]]; eauto using keep_attempts.
Qed.

Lemma kept_touch X Y id f :
  (∀ r, 0 <= reconnectAttempts r → 0 <= reconnectAttempts (f r)) →
  preserves (keep X Y) (modify (touch_record id f)).
Proof.
  intros Hf w Hw. apply keep_records; [|done]. intros k r.
  rewrite lookup_insert_Some. intros [[_ <-]|[_ Hr]]; [|eauto using keep_attempts].
  apply Hf. destruct (records_ w !! id) as [r|] eqn:E; simpl; [eauto using keep_attempts|lia].
Qed.

Lemma kept_delete_record X Y id :
  preserves (keep X Y) (modify (λ w, set_records (delete id (records_ w)) w)).
Proof.
  intros w Hw. apply keep_records; [|done]. intros k r [_ Hr]%lookup_delete_Some.
  eauto using keep_attempts.
Qed.

Lemma kept_free_slot X Y p : preserves (keep X Y) (modify (free_slot p)).
Proof. intros w Hw. simpl. unfold free_slot. destruct (static_dial_conn_ w !! p); exact Hw. Qed.

Lemma kept_detach X Y p pid : preserves (keep X Y) (modify (detach p pid)).
Proof.
  intros w Hw. simpl. unfold detach. destruct (is_zero pid); [exact Hw|].
  case_bool_decide; exact Hw.
Qed.

(** A change of a connection that does not kill it. *)
Lemma kept_alter_conn X Y p f : (∀ c, is_dead (f c) = true → is_dead c = true) →
  preserves (keep X Y) (modify (alter_conn p f)).
Proof.
  intros Hf w (H1 & Hl & Ho & Hc & Ha). split_and!; [| | |exact Hc|exact Ha]; simpl.
  - intros q Hq. rewrite lookup_alter_is_Some. eauto.
  - destruct Hl as [Hl|Hl]; [by left|right]. intros q c.
    simpl. rewrite lookup_alter_Some. intros [(-> & c' & Hc' & ->)|[_ Hq]] Hd; eauto.
  - intros q Hq. apply Ho. simpl in Hq. by rewrite lookup_alter_is_Some in Hq.
Qed.

Lemma keep_armed X Y d cb w : is_reap cb = false → D <= d → keep X Y w →
  keep X Y (add_timer d cb w).2.
Proof.
  intros Hcb Hd (H1 & Hl & Ho & Hc & l & E & Hn & Ht). split_and!; [exact H1|exact Hl|exact Ho|exact Hc|].
  exists ((d, cb) :: l). split_and!.
  - simpl. by rewrite E.
  - unfold reaps. rewrite filter_cons_False by (simpl; congruence). exact Hn.
  - constructor; [|done]. unfold timely. simpl. by rewrite Hcb.
Qed.

(** [p] goes on the list, and the timer is armed if none is. *)
Lemma keep_listed X Y p w : keep (p :: X) Y w →
  keep X Y ((_ ← modify (λ w, set_reap (reap_ w ++ [p]) w); schedule_reap) w).2.
Proof.
  intros (H1 & Hl & Ho & [Hr Hrec] & l & E & Hn & Ht).
  unfold schedule_reap, modify, get, mbind, M_bind. cbn -[reaps].
  assert (∀ w', objects w' = objects w → starved (obs w') = starved (obs w) →
    reap_ w' = reap_ w ++ [p] → listed X w') as Hl'.
  { intros w' Eo Es Er. unfold listed. rewrite Eo, Es, Er. destruct Hl as [Hl|Hl]; [by left|right].
    intros q c Hq Hd. destruct (Hl q c Hq Hd) as [Hx|?]; set_solver. }
  unfold owed in *. destruct (reapScheduled_ w) eqn:Es; cbn -[reaps].
  - split_and!; [exact H1|by apply Hl'|exact Ho|by split|]. exists l. cbn -[reaps]. unfold owed.
    simpl. by rewrite Es.
  - split_and!; [exact H1|by apply Hl'|exact Ho|by split|]. exists ((0, ReapTimer) :: l).
    split_and!; [simpl; by rewrite E| |by constructor].
    unfold reaps, owed in *. rewrite filter_cons_True by done. simpl. lia.
Qed.

(** A new object is set apart until it is stored. *)
Lemma keep_new X Y fd addr inb st w : st ≠ peer_connection.Dead → keep X Y w →
  let '(p, w') := make_conn clk fd addr inb st w in keep X (p :: Y) w'.
Proof.
  intros Hst (H1 & Hl & Ho & Hc & Ha). unfold make_conn, alloc, now, mbind, M_bind.
  split_and!; [| | |exact Hc|exact Ha].
  - intros q Hq. simpl. rewrite lookup_insert_is_Some'. eauto.
  - destruct Hl as [Hl|Hl]; [by left|right]. intros q c. simpl.
    rewrite lookup_insert_Some. intros [[_ <-]|[_ Hq]] Hd; [|eauto].
    unfold is_dead in Hd. apply bool_decide_eq_true in Hd. done.
  - intros q. simpl. rewrite lookup_insert_is_Some'. intros [->|Hq]; [left; left|].
    destruct (Ho q Hq); [left; by right|by right].
Qed.

Lemma keep_push X Y p w : keep X (p :: Y) w → keep X Y (push_conn p w).2.
Proof.
  intros (H1 & Hl & Ho & Hc & Ha). split_and!; [exact H1|exact Hl| |exact Hc|exact Ha].
  intros q Hq. cbn. destruct (Ho q Hq) as [[->|?]%elem_of_cons|?]; [right|by left|right]; set_solver.
Qed.

Lemma kept_stored X Y fd addr inb st {B} (rest : ptr → M B) : st ≠ peer_connection.Dead →
  (∀ p, preserves (keep X Y) (rest p)) →
  preserves (keep X Y) (p ← make_conn clk fd addr inb st; _ ← push_conn p; rest p).
Proof.
  intros Hst Hrest w Hw. pose proof (keep_new X Y fd addr inb st w Hst Hw) as Hn.
  unfold mbind at 1, M_bind at 1. destruct (make_conn clk fd addr inb st w) as [p w1].
  apply (Hrest p (push_conn p w1).2). by apply keep_push.
Qed.

#[local] Hint Resolve kept_free_slot kept_detach kept_delete_record : preserves.
#[local] Hint Extern 1 (preserves (keep _ _) _) => apply kept_script : preserves.
#[local] Hint Extern 1 (preserves _ (modify (alter_record _ _))) =>
  (apply kept_alter_record; intros ?; first [done | case_bool_decide; done | simpl; lia]) : preserves.
#[local] Hint Extern 1 (preserves _ (modify (touch_record _ _))) =>
  (apply kept_touch; done) : preserves.
#[local] Hint Extern 1 (preserves _ (modify (alter_conn _ _))) => (apply kept_alter_conn; done) : preserves.

(** An object that is made is stored at once, but for one case. *)
Ltac keeps := repeat first
  [ match goal with |- preserves _ (make_conn _ _ _ _ _ ≫= _) =>
      apply kept_stored; [discriminate|intros ?] end
  | preserves_step ].

(** *** Calls that may re-enter *)

Section knot.

Variable on_closed : ptr → M unit.
Hypothesis closed_listed : ∀ X Y p w, keep (p :: X) Y w → keep X Y (on_closed p w).2.
Hypothesis cfg_patient : patient.

Lemma kept_closed X Y p : preserves (keep X Y) (on_closed p).
Proof. intros w Hw. apply closed_listed. by apply (keep_mono X _ Y); [set_solver| |]. Qed.

Lemma kept_kill X Y p : preserves (keep X Y) (kill on_closed p).
Proof.
  intros w (H1 & Hl & Ho & Hc & Ha). apply closed_listed.
  split_and!; [| | |exact Hc|exact Ha]; simpl.
  - intros q Hq. rewrite lookup_alter_is_Some. eauto.
  - destruct Hl as [Hl|Hl]; [by left|right]. intros q c. simpl.
    rewrite lookup_alter_Some. intros [(-> & _)|[_ Hq]] Hd; [left; by left|].
    destruct (Hl q c Hq Hd); [left; by right|by right].
  - intros q Hq. apply Ho. simpl in Hq. by rewrite lookup_alter_is_Some in Hq.
Qed.

#[local] Hint Resolve kept_closed kept_kill : preserves.

Lemma kept_settle X Y p o : preserves (keep X Y) (settle on_closed p o).
Proof. unfold settle, report_error. preserves. Qed.

#[local] Hint Resolve kept_settle : preserves.

Lemma kept_send_raw X Y p f : preserves (keep X Y) (send_raw on_closed p f).
Proof. unfold send_raw, with_conn, deref. preserves. Qed.

Lemma kept_close_gracefully X Y p : preserves (keep X Y) (close_gracefully on_closed p).
Proof. unfold close_gracefully, with_conn, deref. preserves. Qed.

Lemma kept_start_connect X Y p : preserves (keep X Y) (start_connect on_closed p).
Proof. unfold start_connect. preserves. Qed.

Lemma kept_pick_targets X Y l fd : preserves (keep X Y) (pick_targets l fd).
Proof. induction l; simpl; unfold deref; preserves. Qed.

#[local] Hint Resolve kept_send_raw kept_close_gracefully kept_start_connect
  kept_pick_targets : preserves.

Lemma kept_forward_except X Y f fd : preserves (keep X Y) (forward_except on_closed f fd).
Proof. unfold forward_except. preserves. Qed.

#[local] Hint Resolve kept_forward_except : preserves.

Lemma kept_on_membership X Y f : preserves (keep X Y) (on_membership on_closed f).
Proof. unfold on_membership, run_effect. preserves. Qed.

#[local] Hint Resolve kept_on_membership : preserves.

Lemma kept_update X Y : preserves (keep X Y) (update_local_membership clk on_closed).
Proof. unfold update_local_membership. preserves. Qed.

Lemma kept_static_dial X Y i : preserves (keep X Y) (start_static_dial clk on_closed i).
Proof.
  unfold start_static_dial, report_error. keeps.
Qed.

#[local] Hint Resolve kept_update kept_static_dial : preserves.

Lemma kept_maintain X Y : preserves (keep X Y) (maintain_static_peers cfg_ clk on_closed).
Proof. unfold maintain_static_peers, maintain_target. preserves. Qed.

(** The delay of a reconnection comes from the attempts of the record read. *)
Lemma kept_schedule_reconnect X Y id : preserves (keep X Y) (schedule_reconnect cfg_ id).
Proof.
  unfold schedule_reconnect. apply preserves_with_state. intros w Hw.
  destruct (records_ w !! id) as [r|] eqn:E; [|exact Hw]. pose proof (keep_attempts X Y w id r Hw E) as Hr.
  destruct (negb _); [exact Hw|]. case_bool_decide; [exact Hw|]. revert w Hw E.
  intros w Hw _. revert w Hw. apply preserves_bind; [preserves|]. intros draw.
  apply preserves_bind; [apply kept_alter_record; simpl; lia|]. intros _ w Hw.
  apply keep_armed; [done|by apply patient_backoff|done].
Qed.

#[local] Hint Resolve kept_maintain kept_schedule_reconnect : preserves.

Lemma body_listed X Y p w : keep (p :: X) Y w →
  keep X Y (on_peer_closed_body cfg_ clk on_closed p w).2.
Proof.
  intros Hw. unfold on_peer_closed_body. destruct (objects w !! p) as [c|] eqn:E.
  - rewrite (manager_facts.with_conn_some _ _ _ c E). apply (preserves_until (keep (p :: X) Y)); [preserves|intros _ w1 Hw1|exact Hw].
    apply (preserves_until (keep (p :: X) Y)); [preserves|intros _ w2 Hw2|exact Hw1].
    apply (preserves_until (keep (p :: X) Y)); [preserves|intros w' w3 Hw3|exact Hw2].
    apply (preserves_until (keep (p :: X) Y));
      [unfold emit_connected_snapshot; preserves|intros _ w4 Hw4|exact Hw3].
    by apply keep_listed.
  - unfold with_conn, deref, get, mbind, M_bind. rewrite E.
    destruct Hw as (H1 & Hl & Ho & Hc & Ha). split_and!; [exact H1| |exact Ho|exact Hc|exact Ha].
    destruct Hl as [Hl|Hl]; [by left|right]. intros q c Hq Hd.
    destruct (Hl q c Hq Hd) as [[->|?]%elem_of_cons|?]; [|by left|by right]. simpl in Hq. congruence.
Qed.

(** *** Dialling, accepting, handshakes *)

Lemma kept_maybe_dial X Y id : preserves (keep X Y) (maybe_dial cfg_ self_ clk on_closed id).
Proof. unfold maybe_dial, start_dial. keeps. Qed.

Lemma kept_dial_seeds X Y : preserves (keep X Y) (dial_seeds cfg_ clk on_closed).
Proof. unfold dial_seeds, start_dial_addr. keeps. Qed.

Lemma kept_announce_once X Y id : preserves (keep X Y) (announce_once id).
Proof. unfold announce_once, emit_known_snapshot. preserves. Qed.

#[local] Hint Resolve kept_maybe_dial kept_dial_seeds kept_announce_once : preserves.

Lemma kept_on_discovered X Y a src : preserves (keep X Y) (on_discovered cfg_ self_ clk on_closed a src).
Proof. unfold on_discovered. preserves. Qed.

(** The constructor's hello may kill the object before it is stored. *)
Lemma kept_accept X Y fd addr : preserves (keep X Y) (accept_connection clk on_closed fd addr).
Proof.
  intros w Hw. unfold accept_connection.
  pose proof (keep_new X Y fd addr true peer_connection.Handshaking w ltac:(done) Hw) as Hn.
  unfold mbind at 1, M_bind at 1. destruct (make_conn _ _ _ _ _ w) as [p w1].
  apply (preserves_until (keep X (p :: Y))); [preserves|intros o w2 Hw2|exact Hn].
  apply (preserves_until (keep X (p :: Y))); [preserves|intros _ w3 Hw3|exact Hw2].
  by apply keep_push.
Qed.

Lemma kept_bind_static X Y p pid : preserves (keep X Y) (bind_static p pid).
Proof. unfold bind_static, emit_known_snapshot. preserves. Qed.

#[local] Hint Resolve kept_on_discovered kept_accept kept_bind_static : preserves.

Lemma kept_install X Y p pid peer existing :
  preserves (keep X Y) (install self_ clk on_closed p pid peer existing).
Proof.
  unfold install, make_self_id_record, emit_connected_snapshot, emit_names_snapshot. preserves.
Qed.

#[local] Hint Resolve kept_install : preserves.

Lemma kept_on_peer_handshake X Y p peer :
  preserves (keep X Y) (on_peer_handshake self_ clk on_closed p peer).
Proof. unfold on_peer_handshake, with_conn, deref. preserves. Qed.

(** *** Data, membership, names, the tick *)

#[local] Instance fwd : Forwarder peer_manager.t := manager_forwarder on_closed.

Lemma kept_router X Y f : (∀ r w, keep X Y w → keep X Y (f r w).2) →
  preserves (keep X Y) (on_router f).
Proof.
  intros Hf w Hw. unfold on_router. specialize (Hf (router_ w) w Hw).
  by destruct (f (router_ w) w) as [r w1].
Qed.

Lemma relay_keeps X Y dst frame fd (r : gossip_router.t) w : keep X Y w →
  keep X Y (let '(direct, w) := Gossip.forward_to dst frame w in
            if direct : bool then (r, w) else (r, Gossip.forward_except frame fd w)).2.
Proof.
  intros Hw. assert (preserves (keep X Y) (forward_to on_closed dst frame)) as Hk.
  { unfold forward_to. preserves. }
  specialize (Hk w Hw). cbn [Gossip.forward_to fwd manager_forwarder].
  destruct (forward_to _ _ _ w) as [[] w1]; [done|]. by apply kept_forward_except.
Qed.

Lemma on_data_keeps X Y z view fd r w : keep X Y w → keep X Y (gossip_router.on_data z view fd r w).2.
Proof.
  intros Hw. unfold gossip_router.on_data. destruct (gossip_router.seen _ _ r) as [dup r1].
  destruct dup; [done|]. destruct (is_zero _).
  - destruct (1 <? _), (negb _); try done; by apply kept_forward_except.
  - destruct (peer_id_eqb _ _); [done|]. destruct (1 <? _); [by apply relay_keeps|done].
Qed.

Lemma broadcast_keeps X Y z payload r w : keep X Y w →
  keep X Y (gossip_router.originate_broadcast z payload r w).2.
Proof.
  intros Hw. unfold gossip_router.originate_broadcast. destruct (gossip_router.next_id r) as [id r1].
  destruct (gossip_router.seen _ _ r1). by apply kept_forward_except.
Qed.

Lemma targeted_keeps X Y z dst payload r w : keep X Y w →
  keep X Y (gossip_router.originate_targeted z dst payload r w).2.
Proof.
  intros Hw. unfold gossip_router.originate_targeted. destruct (peer_id_eqb _ _); [done|].
  destruct (gossip_router.next_id r) as [id r1].
  destruct (gossip_router.seen _ _ r1). by apply relay_keeps.
Qed.

Lemma kept_on_peer_identity X Y p rec : preserves (keep X Y) (on_peer_identity self_ on_closed p rec).
Proof. unfold on_peer_identity, with_conn, deref, emit_names_snapshot. preserves. Qed.

Lemma kept_lose_records X Y tnow : preserves (keep X Y) (lose_records cfg_ tnow).
Proof. unfold lose_records, emit_known_snapshot. preserves. Qed.

Lemma kept_tick_conn X Y tnow p : preserves (keep X Y) (tick_conn cfg_ on_closed tnow p).
Proof. unfold tick_conn, maybe_heartbeat, with_conn, deref. preserves. Qed.

Lemma kept_schedule_tick X Y : preserves (keep X Y) (schedule_tick cfg_).
Proof. intros w. apply keep_armed; [done|]. by apply patient_tick. Qed.

Lemma kept_router_start X Y : preserves (keep X Y) (router_start cfg_).
Proof. intros w. apply keep_armed; [done|]. by apply patient_sweep. Qed.

#[local] Hint Resolve kept_on_peer_handshake kept_on_peer_identity kept_lose_records
  kept_tick_conn kept_schedule_tick kept_router_start : preserves.

Lemma kept_tick X Y : preserves (keep X Y) (tick cfg_ self_ clk on_closed).
Proof. unfold tick, flood_self_identity, make_self_id_record. preserves. Qed.

Lemma kept_start X Y : preserves (keep X Y) (start cfg_ clk on_closed).
Proof. unfold start. preserves. Qed.

#[local] Hint Resolve kept_tick kept_start : preserves.

(** *** The steps that do not destroy objects *)

Definition destroys (o : op) : bool :=
  match o with Shutdown | OnTimer ReapTimer => true | _ => false end.

Lemma kept_step X Y o : destroys o = false →
  preserves (keep X Y) (step cfg_ self_ clk on_closed o).
Proof.
  intros Ho. destruct o; try done; cbn [step]; unfold conn_step.
  - preserves.
  - preserves.
  - preserves.
  - unfold originate_broadcast. apply preserves_bind; [preserves|]. intros z. apply kept_router.
    intros r w. apply broadcast_keeps.
  - unfold originate_targeted. apply preserves_bind; [preserves|]. intros z. apply kept_router.
    intros r w. apply targeted_keeps.
  - destruct cb; try done; cbn [on_timer]; unfold on_reconnect_timer; preserves.
  - preserves.
  - preserves.
  - preserves.
  - preserves.
  - unfold on_peer_data, with_conn, deref. apply preserves_bind; [preserves|]. intros w.
    destruct (objects w !! p) as [c|]; [|preserves]. destruct (is_established c); cbn [when]; [|preserves].
    apply preserves_bind; [preserves|]. intros [c'|]; [|preserves]. apply preserves_bind; [preserves|]. intros z.
    apply kept_router. intros r w'. apply on_data_keeps.
  - unfold on_peer_membership, with_conn, deref. preserves.
  - preserves.
  - preserves.
Qed.

End knot.

(** The knot: a re-entrance that goes too deep for the model is on record. *)
Lemma closed_listed X Y p w : patient → keep (p :: X) Y w → keep X Y (on_peer_closed cfg_ clk p w).2.
Proof.
  intros Hp. unfold on_peer_closed. generalize (3 + size (objects w))%nat. intros k.
  revert X Y p w. induction k as [|k IH]; intros X Y p w Hw; cbn [on_peer_closed_within].
  - destruct Hw as (H1 & _ & Ho & Hc & Ha). split_and!; [exact H1|by left|exact Ho|exact Hc|exact Ha].
  - by apply body_listed.
Qed.

Lemma run_keeps X Y ops : patient → Forall (λ o, destroys o = false) ops →
  preserves (keep X Y) (run cfg_ self_ clk ops).
Proof.
  intros Hp Hops. apply preserves_each_Forall. eapply list.Forall_impl; [exact Hops|].
  intros o Ho. apply kept_step; [|done|done]. intros X' Y' p w. by apply closed_listed.
Qed.

(** A shutdown destroys every object. *)
Definition emptied (w : t) : Prop :=
  objects w = ∅ ∧ tidy w ∧
  ∃ l, armed (obs w) = l ++ A ∧ (reaps l + n)%nat = owed w ∧ Forall timely l.

Lemma shutdown_keeps w : patient → keep [] [] w →
  emptied (step cfg_ self_ clk (on_peer_closed cfg_ clk) Shutdown w).2.
Proof.
  intros Hp Hw. cbn [step]. unfold shutdown.
  assert (∀ p, preserves (keep [] []) (close_gracefully (on_peer_closed cfg_ clk) p)) as Hc.
  { intros p. apply kept_close_gracefully. intros X' Y' p' w'. by apply closed_listed. }
  set (closing := λ p, with_conn p (λ c, when (is_established c) _)).
  assert (∀ l, preserves (keep [] []) (each l closing)) as Hl.
  { intros l. unfold closing, with_conn, deref. preserves. }
  apply (preserves_until (keep [] [])); [preserves|intros _ w1 Hw1|exact Hw].
  apply (preserves_until (keep [] [])); [preserves|intros w' w2 Hw2 |exact Hw1].
  apply (preserves_until (keep [] [])); [preserves|intros _ w3 Hw3|exact Hw2].
  apply (preserves_until (keep [] [])); [apply Hl|intros _ w4 Hw4|exact Hw3].
  apply (preserves_until (keep [] [])); [preserves|intros _ w5 Hw5|exact Hw4].
  destruct Hw5 as (_ & _ & Ho & _ & Ha).
  assert (filter (λ pc, pc.1 ∉ conns_ w5) (objects w5) = ∅) as E.
  { apply map_empty. intros p. apply map_lookup_filter_None_2. right. intros c Hp'. simpl. intros Hn.
    destruct (Ho p ltac:(by eexists)) as [?%elem_of_nil|?]; done. }
  cbn. rewrite E. split; [done|]. split; [|exact Ha].
  split_and!; [right; intros p c Hp'; cbn in Hp'; by rewrite lookup_empty in Hp'|intros p [c Hc'];
    cbn in Hc'; by rewrite lookup_empty in Hc'|split; [done|]].
  intros k r Hk. cbn in Hk. by rewrite lookup_empty in Hk.
Qed.

End within.

End tidy.

(** ** Reaping *)

(** A reap empties the list and destroys what was on it. *)
Lemma reap_tidies w : tidy w →
  let w' := (reap w).2 in
  tidy w' ∧ owed w' = 0%nat ∧ armed (obs w') = armed (obs w) ∧ starved (obs w') = starved (obs w).
Proof.
  intros (Hl & Ho & [Hr Hrec]). split; [|done].
  split_and!; [| |by split].
  - destruct Hl as [Hl|Hl]; [by left|right]. intros p c. simpl.
    rewrite map_lookup_filter_Some. simpl. intros [Hp Hn] Hd. destruct Hn. split.
    + destruct (Ho p ltac:(by eexists)) as [?%elem_of_nil|?]; done.
    + destruct (Hl p c Hp Hd) as [?%elem_of_nil|?]; done.
  - intros p [c Hc]. simpl in Hc. apply map_lookup_filter_Some in Hc as [Hc Hn]. simpl in Hn.
    right. simpl. apply list_elem_of_filter.
    destruct (Ho p ltac:(by eexists)) as [?%elem_of_nil|?]; [done|]. naive_solver.
Qed.

(** When no reap is due, everything that exists is owned and alive. *)
Definition clean (w : t) : Prop :=
  reap_ w = [] ∧ ∀ p c, objects w !! p = Some c → is_dead c = false ∧ p ∈ conns_ w.

Lemma tidy_clean w : tidy w → starved (obs w) = false → owed w = 0%nat → clean w.
Proof.
  intros (Hl & Ho & [Hr _]) Hs Hn. unfold owed in Hn. destruct (reapScheduled_ w); [done|].
  assert (reap_ w = []) as E by (destruct (reap_ w); [done|by specialize (Hr ltac:(done))]).
  split; [exact E|]. intros p c Hp. split.
  - destruct Hl as [Hl|Hl]; [congruence|]. destruct (is_dead c) eqn:Hd; [|done].
    destruct (Hl p c Hp Hd) as [?%elem_of_nil|Hin]; [done|]. rewrite E in Hin. by apply elem_of_nil in Hin.
  - destruct (Ho p ltac:(by eexists)) as [?%elem_of_nil|?]; done.
Qed.

Lemma make_tidy cfg_ self_ e wall rd1 rd2 : tidy (make cfg_ self_ e wall rd1 rd2).
Proof.
  split_and!; [right; intros p c|intros p [c Hc]|split; [done|intros k r]]; cbn in *;
    try by rewrite lookup_empty.
  by rewrite lookup_empty in Hc.
Qed.

End reaping.
