(* ===== verification/MeshImpl.v ===== *)
(** * The node ([src/src/mesh_impl.hpp], [src/src/mesh_impl.cpp], [src/src/mesh.cpp])

    [Module startup] is [mesh_impl::start] as a whole, on top of the
    configuration stage of MeshConfig.v.  [Module mailbox] is the running
    node: application threads that call [broadcast], [send] and [stop], the
    command mailbox, the [eventfd] and the IO thread, as steps that interleave
    freely at the granularity of the mutex and of the system calls.  The
    theorems show that commands are executed once and in order, that no wakeup
    is lost, that the mailbox empties, and that stopping is orderly. *)
From Stdlib Require Import ZArith Lia.
From Stdlib.Strings Require Import Byte.
From stdpp Require Import base gmap sets list strings numbers option.
From S2P Require Import Prelude PeerId Wire Config Socket Crypto Identity Discovery MeshConfig Gossip Membership PeerConnection PeerManager PeerManagerFacts.

(** ** Starting *)

Module startup.

(** What the system answers during [start]. *)
Record env := mk_env {
  have_crypto : bool;
  sodium_init : Z;
  drawn : seed32;
  inet_pton : list byte → option Z;
  listen_calls : listener.calls;
  multicast_calls : discovery.calls;
  jit : Z;
  clk : nat → Z;
  manager_env : peer_manager.world;
  wall_ms : Z;
  rd1 : Z;
  rd2 : Z;
}.

Record t := mk {
  node : mesh_start.t;
  started_ : bool;
  running_ : bool;
  listenPort_ : Z;
  peers_ : option peer_manager.t;
  discovery_ : option discovery.t;
}.

Definition make (cfg : mesh_config) : t := mk (mesh_start.make cfg) false false 0 None None.

(** [start] returns, or throws a [std::system_error]. *)
Inductive outcome := Returned | Threw (code : Z) (what : list byte).

Definition with_listenPort (port : Z) (s : local_identity) : local_identity :=
  mk_local_identity (l_nodeId s) (l_groupName s) (l_protocolVersion s) port (l_secure s)
    (l_groupKey s) (l_discoveryKey s) (l_hasIdentity s) (l_idKeys s) (l_nodeName s)
    (l_trustedKeys s).

Section start.

Context `{!Sodium}.

(** The part of [start] behind the test of [started_]. *)
Definition launch (e : env) (m : t) : outcome * t :=
  let n := node m in
  let cfg := mesh_start.cfg_ n in
  let p := peer_manager.make cfg (mesh_start.self_ n) (manager_env e) (wall_ms e) (rd1 e) (rd2 e) in
  match listener.start (inet_pton e) (bindAddr cfg) (listenPort cfg) (listen_calls e) with
  | inl (code, what) => (Threw code what, mk n true (running_ m) (listenPort_ m) (Some p) None)
  | inr l =>
      let self := with_listenPort (listener.boundPort_ l) (mesh_start.self_ n) in
      let p := (peer_manager.run cfg self (clk e) [peer_manager.Start] p).2 in
      let d := discovery.start (inet_pton e) cfg self (jit e) (multicast_calls e) discovery.make in
      (Returned,
       mk (mesh_start.mk cfg self (mesh_start.localLabels_ n)
             (mesh_start.reported n ++ discovery.reports d))
         true true (listener.boundPort_ l) (Some p) (Some d))
  end.

Definition start (e : env) (d : disk.t) (m : t) : outcome * (disk.t * t) :=
  let '(ok, (d, n)) := mesh_start.configure (have_crypto e) (sodium_init e) (drawn e) d (node m) in
  let m := mk n (started_ m) (running_ m) (listenPort_ m) (peers_ m) (discovery_ m) in
  if negb ok then (Returned, (d, m))
  else if started_ m then (Returned, (d, m))
  else let '(out, m) := launch e m in (out, (d, m)).

(** [id()], [listen_port()], [is_running()] and [identity_public_key()]. *)
Definition id (m : t) : peer_id := nodeId (mesh_start.cfg_ (node m)).
Definition listen_port (m : t) : Z := listenPort_ m.
Definition is_running (m : t) : bool := running_ m.
Definition identity_public_key (m : t) : list byte :=
  if negb (l_hasIdentity (mesh_start.self_ (node m))) then []
  else hex.to_hex (elems (crypto.id_pk (l_idKeys (mesh_start.self_ (node m))))).

Definition listens (e : env) (cfg : mesh_config) : Prop :=
  ∃ l, listener.start (inet_pton e) (bindAddr cfg) (listenPort cfg) (listen_calls e) = inr l.

Lemma configure_bind e d cfg :
  let n := (mesh_start.configure (have_crypto e) (sodium_init e) (drawn e) d (mesh_start.make cfg)).2.2 in
  (mesh_start.configure (have_crypto e) (sodium_init e) (drawn e) d (mesh_start.make cfg)).1 = true →
  bindAddr (mesh_start.cfg_ n) = bindAddr cfg ∧ listenPort (mesh_start.cfg_ n) = listenPort cfg ∧
  mesh_start.reported n = [].
Proof.
  pose proof (mesh_start.configure_cases (have_crypto e) (sodium_init e) (drawn e) d cfg) as Hc.
  destruct (mesh_start.configure _ _ _ _ _) as [ok [d' n]]. simpl. intros ->.
  destruct Hc as [_ Hc]. destruct (mesh_start.identityConfigured cfg).
  - destruct Hc as (seed & pks & _ & _ & Hpk & ->).
    pose proof (mesh_start.identified_self seed pks cfg (mesh_start.decoded_length _ _ Hpk)) as (Hr & _).
    unfold mesh_start.identified in *.
    match goal with |- context[mesh_start.trusted _ _ ?m] =>
      destruct (mesh_start.trusted_self (trustedKeys cfg) pks m (mesh_start.decoded_length _ _ Hpk)) as (-> & _) end.
    done.
  - destruct Hc as [_ ->]. destruct (mesh_start.keyed_cfg cfg) as [-> ->]. done.
Qed.

(** [C23] Starting has three outcomes.  The node runs exactly when its
    configuration is acceptable and the listener could be set up; it is then
    reachable at the port the kernel reports, and the only errors reported are
    discovery's, without which it runs on seed peers.  A refused configuration
    is reported once and the node is not marked as started.  A listener that
    cannot be set up makes [start] throw, with nothing reported and the node
    marked as started. *)
Theorem start_outcomes e d cfg :
  let '(out, (_, m)) := start e d (make cfg) in
  (running_ m = true ↔
     mesh_start.startable (have_crypto e) (sodium_init e) (drawn e) d cfg ∧ listens e cfg) ∧
  match out with
  | Returned =>
      if running_ m then
        started_ m = true ∧
        listen_port m = default 0 (listener.r_getsockname (listen_calls e)) ∧
        l_listenPort (mesh_start.self_ (node m)) = listen_port m ∧
        is_Some (peers_ m) ∧
        ∃ di, discovery_ m = Some di ∧ mesh_start.reported (node m) = discovery.reports di
      else started_ m = false ∧ peers_ m = None ∧
        ∃ err, mesh_start.reported (node m) = [err] ∧ category err ∈ [ErrCrypto; ErrIdentity]
  | Threw _ _ => started_ m = true ∧ running_ m = false ∧ mesh_start.reported (node m) = []
  end.
Proof.
  unfold start. cbn [node make]. pose proof (configure_bind e d cfg) as Hb.
  pose proof (mesh_start.configure_cases (have_crypto e) (sodium_init e) (drawn e) d cfg) as Hc.
  destruct (mesh_start.configure _ _ _ _ _) as [[] [d' n]]; simpl in *.
  - destruct (Hb eq_refl) as (Hba & Hlp & Hrep). destruct Hc as [Hst _].
    unfold launch, listens. cbn [node]. rewrite Hba, Hlp.
    destruct (listener.start _ _ _ _) as [[code what]|l] eqn:El; simpl.
    + split_and!; try done. split; [done|]. intros [_ [l Hl]]. congruence.
    + apply listener.start_ok in El as (_ & _ & _ & _ & _ & Hp).
      split; [split; [eauto|done]|]. rewrite Hrep. by eauto 10.
  - destruct Hc as [Hno Herr]. split; [split; [done|by intros [? _]]|done].
Qed.

(** After a failed bind the node cannot be started any more: [started_] stays
    set, and every further [start] returns without an error. *)
Lemma failed_bind_is_final e d m : started_ m = true →
  let '(out, (_, m')) := start e d m in
  out = Returned ∧ running_ m' = running_ m ∧ started_ m' = true.
Proof.
  intros Hs. unfold start. destruct (mesh_start.configure _ _ _ _ _) as [[] [d' n]]; simpl; [|done].
  by rewrite Hs.
Qed.

End start.

End startup.

(** ** Running *)

Module mailbox.

Import peer_manager.

(** [mesh_impl::command]. *)
Inductive command := CmdBroadcast (payload : list byte) | CmdTargeted (dst : peer_id) (payload : list byte) | CmdStop.

#[global] Instance command_eq_dec : EqDecision command.
Proof. solve_decision. Defined.

(** Where a thread is inside [post]: before the lock, or between the lock and
    [wakeup]. *)
Inductive thread := Posting (c : command) | Waking.

(** Where the IO thread is: in [epoll_wait] or dispatching, inside
    [drain_mailbox] before and after the swap, past [loop_.stop()], gone. *)
Inductive io_state :=
  | Dispatching
  | Drained
  | Executing (cmds : list command) (stopRequested : bool)
  | Stopping
  | Exited.

(** [accepted], [posted], [executed] and [ops] record what happened: the calls
    that passed their test of [running_], the order of the mailbox, the
    commands carried out, and everything the manager was asked to do. *)
Record t := mk {
  running_ : bool;
  threads : gmap nat thread;
  eventFd_ : Z;
  mailbox_ : list command;
  io : io_state;
  peers_ : peer_manager.t;
  accepted : list (nat * command);
  posted : list (nat * command);
  executed : list command;
  ops : list op;
}.

Inductive action :=
  | CallBroadcast (i : nat) (payload : list byte)
  | CallSend (i : nat) (dst : peer_id) (payload : list byte)
  | CallStop (i : nat)
  | Push (i : nat)
  | Wake (i : nat)
  | IoWake
  | IoSwap
  | IoExec
  | IoFinish
  | IoOp (o : op)
  | IoExit.

Section node.

Context {Sod : Sodium} (cfg_ : mesh_config) (self_ : local_identity) (clk : nat → Z).

Definition set_io (x : io_state) (s : t) : t :=
  mk (running_ s) (threads s) (eventFd_ s) (mailbox_ s) x (peers_ s) (accepted s) (posted s)
    (executed s) (ops s).

(** [loop_.wakeup()]: the write fails when the counter is at its maximum. *)
Definition wakeup (fd : Z) : Z := if fd <? 2 ^ 64 - 2 then fd + 1 else fd.

(** The manager carries out [o]. *)
Definition on_manager (o : op) (s : t) : t :=
  mk (running_ s) (threads s) (eventFd_ s) (mailbox_ s) (io s)
    (step cfg_ self_ clk (on_peer_closed cfg_ clk) o (peers_ s)).2
    (accepted s) (posted s) (executed s) (ops s ++ [o]).

(** A call of thread [i] that has passed its tests enters [post]. *)
Definition enter (i : nat) (c : command) (s : t) : t :=
  mk (running_ s) (<[i := Posting c]> (threads s)) (eventFd_ s) (mailbox_ s) (io s) (peers_ s)
    (accepted s ++ [(i, c)]) (posted s) (executed s) (ops s).

(** [broadcast] and [send]: nothing happens when the node does not run. *)
Definition call (i : nat) (c : command) (s : t) : option t :=
  match threads s !! i with
  | Some _ => None
  | None => Some (if running_ s then enter i c s else s)
  end.

(** [stop] of a started node; the join that follows [post] adds nothing to the
    state.  [running_.exchange(false)] lets one caller through. *)
Definition call_stop (i : nat) (s : t) : option t :=
  match threads s !! i with
  | Some _ => None
  | None =>
      Some (if running_ s then
              enter i CmdStop (mk false (threads s) (eventFd_ s) (mailbox_ s) (io s) (peers_ s)
                                 (accepted s) (posted s) (executed s) (ops s))
            else s)
  end.

(** [post]: the push under the lock, then the wakeup. *)
Definition push (i : nat) (s : t) : option t :=
  match threads s !! i with
  | Some (Posting c) =>
      Some (mk (running_ s) (<[i := Waking]> (threads s)) (eventFd_ s) (mailbox_ s ++ [c]) (io s)
              (peers_ s) (accepted s) (posted s ++ [(i, c)]) (executed s) (ops s))
  | _ => None
  end.

Definition wake (i : nat) (s : t) : option t :=
  match threads s !! i with
  | Some Waking =>
      Some (mk (running_ s) (delete i (threads s)) (wakeup (eventFd_ s)) (mailbox_ s) (io s)
              (peers_ s) (accepted s) (posted s) (executed s) (ops s))
  | _ => None
  end.

(** The loop sees the [eventfd], [drain_wake] resets it, the handler is called. *)
Definition io_wake (s : t) : option t :=
  match io s with
  | Dispatching =>
      if 0 <? eventFd_ s
      then Some (mk (running_ s) (threads s) 0 (mailbox_ s) Drained (peers_ s) (accepted s)
                   (posted s) (executed s) (ops s))
      else None
  | _ => None
  end.

(** [drain_mailbox]: the swap, the loop over the commands, and what follows. *)
Definition io_swap (s : t) : option t :=
  match io s with
  | Drained =>
      Some (mk (running_ s) (threads s) (eventFd_ s) [] (Executing (mailbox_ s) false) (peers_ s)
              (accepted s) (posted s) (executed s) (ops s))
  | _ => None
  end.

Definition note_executed (c : command) (s : t) : t :=
  mk (running_ s) (threads s) (eventFd_ s) (mailbox_ s) (io s) (peers_ s) (accepted s) (posted s)
    (executed s ++ [c]) (ops s).

Definition io_exec (s : t) : option t :=
  match io s with
  | Executing (c :: cmds) stopRequested =>
      let s := note_executed c s in
      Some (match c with
            | CmdBroadcast payload => set_io (Executing cmds stopRequested) (on_manager (Broadcast payload) s)
            | CmdTargeted dst payload => set_io (Executing cmds stopRequested) (on_manager (SendTo dst payload) s)
            | CmdStop => set_io (Executing cmds true) s
            end)
  | _ => None
  end.

Definition io_finish (s : t) : option t :=
  match io s with
  | Executing [] stopRequested =>
      Some (if stopRequested then
              let s := on_manager Shutdown s in
              mk (running_ s) (threads s) (wakeup (eventFd_ s)) (mailbox_ s) Stopping (peers_ s)
                (accepted s) (posted s) (executed s) (ops s)
            else set_io Dispatching s)
  | _ => None
  end.

(** Sockets and timers drive the manager while the loop dispatches; after
    [loop_.stop()] only the timers that are due still fire. *)
Definition external (o : op) : bool :=
  match o with Start | Shutdown | Broadcast _ | SendTo _ _ => false | _ => true end.

Definition is_timer (o : op) : bool := match o with OnTimer _ => true | _ => false end.

Definition io_op (o : op) (s : t) : option t :=
  match io s with
  | Dispatching => if external o then Some (on_manager o s) else None
  | Stopping => if is_timer o then Some (on_manager o s) else None
  | _ => None
  end.

Definition io_exit (s : t) : option t :=
  match io s with Stopping => Some (set_io Exited s) | _ => None end.

Definition act (a : action) (s : t) : option t :=
  match a with
  | CallBroadcast i payload => call i (CmdBroadcast payload) s
  | CallSend i dst payload => call i (CmdTargeted dst payload) s
  | CallStop i => call_stop i s
  | Push i => push i s
  | Wake i => wake i s
  | IoWake => io_wake s
  | IoSwap => io_swap s
  | IoExec => io_exec s
  | IoFinish => io_finish s
  | IoOp o => io_op o s
  | IoExit => io_exit s
  end.

Fixpoint run_acts (l : list action) (s : t) : option t :=
  match l with [] => Some s | a :: l => s' ← act a s; run_acts l s' end.

(** The node that [start] leaves: the manager is started, the IO thread is
    about to wait. *)
Definition init (p : peer_manager.t) : t :=
  mk true ∅ 0 [] Dispatching (peer_manager.run cfg_ self_ clk [Start] p).2 [] [] [] [Start].

(** ** What holds in every state *)

Definition batch (s : t) : list command :=
  match io s with Executing cmds _ => cmds | _ => [] end.

(** The commands of thread [i], in order. *)
Definition by_thread (i : nat) (l : list (nat * command)) : list command :=
  map snd (filter (λ x, x.1 = i) l).

Definition pending (i : nat) (s : t) : list command :=
  match threads s !! i with Some (Posting c) => [c] | _ => [] end.

(** The commands among the manager's operations. *)
Definition op_command (o : op) : option command :=
  match o with
  | Broadcast payload => Some (CmdBroadcast payload)
  | SendTo dst payload => Some (CmdTargeted dst payload)
  | _ => None
  end.

Definition not_stop (c : command) : Prop := c ≠ CmdStop.

#[global] Instance not_stop_dec c : Decision (not_stop c).
Proof. unfold not_stop. apply _. Defined.

(** At most one stop is accepted, and nothing after it. *)
Definition stop_last (running : bool) (l : list (nat * command)) : Prop :=
  if running then ∀ i, (i, CmdStop) ∉ l
  else ∃ pre i, l = pre ++ [(i, CmdStop)] ∧ ∀ j, (j, CmdStop) ∉ pre.

(** How far the shutdown has come. *)
Definition io_ok (s : t) : Prop :=
  match io s with
  | Dispatching | Drained => (CmdStop ∉ executed s) ∧ (Shutdown ∉ ops s)
  | Executing _ stopRequested => (stopRequested = true ↔ CmdStop ∈ executed s) ∧ (Shutdown ∉ ops s)
  | Stopping | Exited => CmdStop ∈ executed s ∧ manager_facts.at_rest (peers_ s)
  end.

(** Something will make the IO thread look at the mailbox. *)
Definition noticed (s : t) : Prop :=
  io s = Drained ∨ 0 < eventFd_ s ∨ (∃ i, threads s !! i = Some Waking) ∨
  io s = Stopping ∨ io s = Exited.

Record inv (p0 : peer_manager.t) (s : t) : Prop := {
  inv_order : map snd (posted s) = executed s ++ batch s ++ mailbox_ s;
  inv_threads i : by_thread i (accepted s) = by_thread i (posted s) ++ pending i s;
  inv_fd : 0 ≤ eventFd_ s;
  inv_noticed : mailbox_ s ≠ [] → noticed s;
  inv_stop : stop_last (running_ s) (accepted s);
  inv_run : peers_ s = (peer_manager.run cfg_ self_ clk (ops s) p0).2;
  inv_cmds : omap op_command (ops s) = filter not_stop (executed s);
  inv_io : io_ok s;
}.

Lemma run_snoc l o p :
  (peer_manager.run cfg_ self_ clk (l ++ [o]) p).2 =
  (step cfg_ self_ clk (on_peer_closed cfg_ clk) o (peer_manager.run cfg_ self_ clk l p).2).2.
Proof.
  unfold peer_manager.run. revert p. induction l as [|x l IH]; intros p; simpl.
  - unfold mbind, M_bind. by destruct (step _ _ _ _ o p) as [[] ?].
  - unfold mbind, M_bind. destruct (step _ _ _ _ x p) as [u p1]. apply IH.
Qed.

Lemma by_thread_snoc i j c l :
  by_thread i (l ++ [(j, c)]) = by_thread i l ++ (if decide (j = i) then [c] else []).
Proof.
  unfold by_thread. rewrite list.filter_app, map_app. f_equal.
  destruct (decide (j = i)) as [->|Hne].
  - by rewrite filter_cons_True.
  - by rewrite filter_cons_False.
Qed.

Lemma init_inv p0 : inv p0 (init p0).
Proof.
  split; try done.
  - intros i. simpl. by intros ?%elem_of_nil.
  - simpl. split; [by intros ?%elem_of_nil|]. intros [?|?%elem_of_nil]%elem_of_cons; done.
Qed.

(** Entering [post] and leaving it again. *)
Lemma enter_threads i c s :
  threads s !! i = None →
  (∀ j, by_thread j (accepted s) = by_thread j (posted s) ++ pending j s) →
  ∀ j, by_thread j (accepted s ++ [(i, c)]) =
    by_thread j (posted s) ++ pending j (enter i c s).
Proof.
  intros Hi H j. rewrite by_thread_snoc, H, <-(assoc_L (++)). f_equal. unfold pending. simpl.
  destruct (decide (i = j)) as [->|Hne].
  - by rewrite Hi, lookup_insert_eq.
  - by rewrite lookup_insert_ne, app_nil_r.
Qed.

Lemma noticed_enter i c s : threads s !! i = None → noticed s → noticed (enter i c s).
Proof.
  intros Hi [?|[?|[[j Hj]|?]]]; [by left|by right; left| |by right; right; right].
  right; right; left. exists j. simpl. rewrite lookup_insert_ne; [done|congruence].
Qed.

Lemma accept_inv p0 i c s s' : c ≠ CmdStop → inv p0 s → call i c s = Some s' → inv p0 s'.
Proof.
  intros Hc Hinv. pose proof Hinv as [H1 H2 H3 H4 H5 H6 H7 H8]. unfold call. destruct (threads s !! i) eqn:Hi; [done|].
  intros [= <-]. destruct (running_ s) eqn:Hr; [|exact Hinv].
  split; simpl; try done.
  - by apply enter_threads.
  - intros Hm. by apply noticed_enter, H4.
  - rewrite Hr in *. intros j. rewrite elem_of_app, list_elem_of_singleton.
    intros [?|[= _ ?]]; [by eapply H5|congruence].
Qed.

Lemma call_stop_inv p0 i s s' : inv p0 s → call_stop i s = Some s' → inv p0 s'.
Proof.
  intros Hinv. pose proof Hinv as [H1 H2 H3 H4 H5 H6 H7 H8]. unfold call_stop. destruct (threads s !! i) eqn:Hi; [done|].
  intros [= <-]. destruct (running_ s) eqn:Hr; [|exact Hinv].
  split; simpl; try done.
  - by apply (enter_threads i CmdStop s).
  - intros Hm. by apply (noticed_enter i CmdStop s), H4.
  - by exists (accepted s), i.
Qed.

Lemma push_inv p0 i s s' : inv p0 s → push i s = Some s' → inv p0 s'.
Proof.
  intros [H1 H2 H3 H4 H5 H6 H7 H8]. unfold push.
  destruct (threads s !! i) as [[c|]|] eqn:Hi; [|done..]. intros [= <-]. split; simpl; try done.
  - rewrite map_app, H1. simpl. by rewrite <-!(assoc_L (++)).
  - intros j. rewrite H2, by_thread_snoc, <-(assoc_L (++)). f_equal. unfold pending. simpl.
    destruct (decide (i = j)) as [->|Hne].
    + by rewrite Hi, lookup_insert_eq.
    + by rewrite lookup_insert_ne.
  - intros _. right; right; left. exists i. simpl. by rewrite lookup_insert_eq.
Qed.

Lemma wake_inv p0 i s s' : inv p0 s → wake i s = Some s' → inv p0 s'.
Proof.
  intros [H1 H2 H3 H4 H5 H6 H7 H8]. unfold wake.
  destruct (threads s !! i) as [[c|]|] eqn:Hi; [done| |done]. intros [= <-].
  assert (0 < wakeup (eventFd_ s)).
  { unfold wakeup. destruct (Z.ltb_spec (eventFd_ s) (2 ^ 64 - 2)); lia. }
  split; simpl; try done.
  - intros j. rewrite H2. f_equal. unfold pending. simpl. destruct (decide (i = j)) as [->|Hne].
    + by rewrite Hi, lookup_delete_eq.
    + by rewrite lookup_delete_ne.
  - lia.
  - intros _. by right; left.
Qed.

Lemma io_wake_inv p0 s s' : inv p0 s → io_wake s = Some s' → inv p0 s'.
Proof.
  intros [H1 H2 H3 H4 H5 H6 H7 H8]. unfold io_wake. destruct (io s) eqn:Hio; try done.
  destruct (0 <? eventFd_ s); [|done]. intros [= <-]. unfold batch, io_ok in *. rewrite Hio in *.
  split; simpl; try done. intros _. by left.
Qed.

Lemma io_swap_inv p0 s s' : inv p0 s → io_swap s = Some s' → inv p0 s'.
Proof.
  intros [H1 H2 H3 H4 H5 H6 H7 H8]. unfold io_swap. destruct (io s) eqn:Hio; try done.
  intros [= <-]. unfold batch, io_ok in *. rewrite Hio in *. destruct H8 as [H8 H9].
  split; simpl; try done. by rewrite app_nil_r.
Qed.

Lemma io_exec_inv p0 s s' : inv p0 s → io_exec s = Some s' → inv p0 s'.
Proof.
  intros [H1 H2 H3 H4 H5 H6 H7 H8]. unfold io_exec.
  destruct (io s) as [| |[|c cmds] b| |] eqn:Hio; try done. intros [= <-].
  unfold batch, io_ok, noticed in *. rewrite Hio in *. destruct H8 as [H8 H9].
  assert (∀ o, o ≠ Shutdown → Shutdown ∉ ops s ++ [o]) as Hop.
  { intros o Ho. rewrite elem_of_app, list_elem_of_singleton. naive_solver. }
  assert (∀ c, c ≠ CmdStop → b = true ↔ CmdStop ∈ executed s ++ [c]) as Hex.
  { intros c' Hc'. rewrite elem_of_app, list_elem_of_singleton. naive_solver. }
  destruct c as [payload|dst payload|]; split; simpl; try done;
    try (by rewrite <-(assoc_L (++))); try (by rewrite run_snoc, <-H6);
    try (intros Hm; specialize (H4 Hm); unfold noticed; simpl; naive_solver).
  - rewrite omap_app, list.filter_app, H7. simpl. by rewrite filter_cons_True.
  - unfold io_ok. simpl. split; [by apply Hex|by apply Hop].
  - rewrite omap_app, list.filter_app, H7. simpl. by rewrite filter_cons_True.
  - unfold io_ok. simpl. split; [by apply Hex|by apply Hop].
  - rewrite list.filter_app, H7, filter_cons_False by naive_solver. by rewrite app_nil_r.
  - unfold io_ok. simpl. split; [|done]. split; [|done]. intros _.
    rewrite elem_of_app, list_elem_of_singleton. by right.
Qed.

Lemma io_finish_inv p0 s s' : inv p0 s → io_finish s = Some s' → inv p0 s'.
Proof.
  intros [H1 H2 H3 H4 H5 H6 H7 H8]. unfold io_finish.
  destruct (io s) as [| |[|c cmds] b| |] eqn:Hio; try done. intros [= <-].
  unfold batch, io_ok, noticed in *. rewrite Hio in *. destruct H8 as [H8 H9].
  destruct b; split; simpl; try done.
  - unfold wakeup. destruct (_ <? _); lia.
  - intros _. unfold noticed. simpl. naive_solver.
  - by rewrite run_snoc, <-H6.
  - rewrite omap_app, H7. simpl. by rewrite app_nil_r.
  - unfold io_ok. simpl. split; [by apply H8|]. apply (manager_facts.shutdown_at_rest cfg_ self_ clk).
  - intros Hm. specialize (H4 Hm). unfold noticed. simpl. naive_solver.
  - unfold io_ok. simpl. split; [|done]. intros Hs. by apply H8 in Hs.
Qed.

Lemma io_op_inv p0 o s s' : inv p0 s → io_op o s = Some s' → inv p0 s'.
Proof.
  intros [H1 H2 H3 H4 H5 H6 H7 H8]. unfold io_op. intros Ho.
  assert (s' = on_manager o s ∧ op_command o = None ∧ o ≠ Shutdown ∧
    (io s = Dispatching ∨ (io s = Stopping ∧ ∃ cb, o = OnTimer cb))) as (-> & Hc & Hns & Hio).
  { destruct (io s); try done; destruct o; simplify_eq/=; naive_solver. }
  split; simpl; try done.
  - by rewrite run_snoc, <-H6.
  - rewrite omap_app, H7. simpl. by rewrite Hc, app_nil_r.
  - unfold io_ok in *. simpl. destruct Hio as [Hio|[Hio [cb ->]]]; rewrite Hio in *.
    + destruct H8. split; [done|]. rewrite elem_of_app, list_elem_of_singleton. naive_solver.
    + destruct H8. split; [done|]. by apply (manager_facts.timer_at_rest cfg_ self_ clk).
Qed.

Lemma io_exit_inv p0 s s' : inv p0 s → io_exit s = Some s' → inv p0 s'.
Proof.
  intros [H1 H2 H3 H4 H5 H6 H7 H8]. unfold io_exit. destruct (io s) eqn:Hio; try done.
  intros [= <-]. unfold batch, io_ok in *. rewrite Hio in *.
  split; simpl; try done. intros _. unfold noticed. simpl. naive_solver.
Qed.

Lemma act_inv p0 a s s' : inv p0 s → act a s = Some s' → inv p0 s'.
Proof.
  intros Hs. destruct a; cbn [act].
  - by apply accept_inv.
  - by apply accept_inv.
  - by apply call_stop_inv.
  - by apply push_inv.
  - by apply wake_inv.
  - by apply io_wake_inv.
  - by apply io_swap_inv.
  - by apply io_exec_inv.
  - by apply io_finish_inv.
  - by apply io_op_inv.
  - by apply io_exit_inv.
Qed.

Lemma run_acts_inv p0 l : ∀ s s', inv p0 s → run_acts l s = Some s' → inv p0 s'.
Proof.
  induction l as [|a l IH]; intros s s' Hs; simpl; [by intros [= <-]|].
  intros (s1 & Ha & Hr)%bind_Some. eapply IH; [|exact Hr]. by eapply act_inv.
Qed.

(** ** Coming to rest *)

(** The steps that carry out what was asked for, as opposed to new calls and to
    the network. *)
Definition internal (a : action) : bool :=
  match a with
  | Push _ | Wake _ | IoWake | IoSwap | IoExec | IoFinish => true
  | _ => false
  end.

(** Nothing of what was asked for is left to do. *)
Definition settled (s : t) : Prop := ∀ a, internal a = true → act a s = None.

Definition weight (x : thread) : nat := match x with Posting _ => 7 | Waking => 5 end.

Definition load (m : gmap nat thread) : nat := map_fold (λ _ x n, (weight x + n)%nat) 0%nat m.

Definition io_load (x : io_state) : nat :=
  match x with
  | Dispatching => 10
  | Drained => 13
  | Executing cmds _ => 12 + length cmds
  | Stopping | Exited => 0
  end.

(** A bound on the internal steps that are left. *)
Definition work_left (s : t) : nat :=
  load (threads s) + (if 0 <? eventFd_ s then 4 else 0) + io_load (io s) + length (mailbox_ s).

Lemma load_insert m i x : m !! i = None → load (<[i := x]> m) = (weight x + load m)%nat.
Proof.
  intros Hi. apply (map_fold_insert_L (λ (_ : nat) y n, (weight y + n)%nat)); [|done]. intros. lia.
Qed.

Lemma load_delete m i x : m !! i = Some x → load m = (weight x + load (delete i m))%nat.
Proof.
  intros Hi. rewrite <-(insert_delete_id m i x Hi) at 1. by rewrite load_insert by apply lookup_delete_eq.
Qed.

Lemma internal_decreases a s s' : internal a = true → act a s = Some s' →
  (work_left s' < work_left s)%nat.
Proof.
  unfold work_left. destruct a; try done; intros _; cbn [act].
  - unfold push. destruct (threads s !! i) as [[c|]|] eqn:Hi; try done. intros [= <-]. simpl.
    rewrite (load_delete _ _ _ Hi), <-(insert_delete_eq (threads s)), load_insert by apply lookup_delete_eq.
    rewrite length_app. simpl. lia.
  - unfold wake. destruct (threads s !! i) as [[c|]|] eqn:Hi; try done. intros [= <-]. simpl.
    rewrite (load_delete _ _ _ Hi). simpl. destruct (0 <? wakeup _), (0 <? eventFd_ s); lia.
  - unfold io_wake. destruct (io s); try done. destruct (0 <? eventFd_ s); [|done].
    intros [= <-]. simpl. lia.
  - unfold io_swap. destruct (io s); try done. intros [= <-]. simpl.
    destruct (0 <? eventFd_ s); lia.
  - unfold io_exec. destruct (io s) as [| |[|c cmds] b| |]; try done. intros [= <-].
    destruct c; simpl; destruct (0 <? eventFd_ s); lia.
  - unfold io_finish. destruct (io s) as [| |[|c cmds] []| |]; try done; intros [= <-]; simpl.
    + destruct (0 <? wakeup _), (0 <? eventFd_ s); lia.
    + destruct (0 <? eventFd_ s); lia.
Qed.

Lemma internal_bounded l : ∀ s s', Forall (λ a, internal a = true) l → run_acts l s = Some s' →
  (length l + work_left s' ≤ work_left s)%nat.
Proof.
  induction l as [|a l IH]; intros s s' Hl; simpl; [intros [= <-]; lia|].
  intros (s1 & Ha & Hr)%bind_Some. rewrite list.Forall_cons in Hl. destruct Hl as [Hi Hl].
  pose proof (internal_decreases a s s1 Hi Ha). specialize (IH s1 s' Hl Hr). lia.
Qed.

(** A settled node has no thread inside [post], and its IO thread waits for
    events with nothing to do, or has left its loop. *)
Lemma settled_shape s : settled s →
  threads s = ∅ ∧
  ((io s = Dispatching ∧ eventFd_ s ≤ 0) ∨ io s = Stopping ∨ io s = Exited).
Proof.
  intros Hs. split.
  - apply map_empty. intros i. destruct (threads s !! i) as [[c|]|] eqn:Hi; [| |done].
    + specialize (Hs (Push i) eq_refl). simpl in Hs. unfold push in Hs. by rewrite Hi in Hs.
    + specialize (Hs (Wake i) eq_refl). simpl in Hs. unfold wake in Hs. by rewrite Hi in Hs.
  - pose proof (Hs IoWake eq_refl) as H1. pose proof (Hs IoSwap eq_refl) as H2.
    pose proof (Hs IoExec eq_refl) as H3. pose proof (Hs IoFinish eq_refl) as H4.
    simpl in *. unfold io_wake, io_swap, io_exec, io_finish in *.
    destruct (io s) as [| |[|c cmds] b| |]; try done; [|by right; left|by right; right].
    left. split; [done|]. destruct (Z.ltb_spec 0 (eventFd_ s)); [done|lia].
Qed.

Lemma settled_executed p0 s : inv p0 s → settled s → io s = Dispatching →
  mailbox_ s = [] ∧ executed s = map snd (posted s) ∧
  ∀ i, by_thread i (accepted s) = by_thread i (posted s).
Proof.
  intros [H1 H2 H3 H4 H5 H6 H7 H8] Hs Hio. destruct (settled_shape s Hs) as [Ht Hfd].
  assert (mailbox_ s = []) as Hm.
  { destruct (decide (mailbox_ s = [])) as [|Hne]; [done|]. exfalso.
    destruct (H4 Hne) as [?|[?|[[i Hi]|[?|?]]]]; try congruence.
    - destruct Hfd as [[_ ?]|[?|?]]; [lia|congruence|congruence].
    - by rewrite Ht, lookup_empty in Hi. }
  split; [done|]. split.
  - unfold batch in H1. rewrite Hio, Hm in H1. simpl in H1. by rewrite app_nil_r in H1.
  - intros i. rewrite H2. unfold pending. by rewrite Ht, lookup_empty, app_nil_r.
Qed.

Lemma stop_posted p0 s : inv p0 s → CmdStop ∈ executed s → running_ s = false.
Proof.
  intros [H1 H2 H3 H4 H5 H6 H7 H8] Hs. unfold stop_last in H5. destruct (running_ s); [|done].
  assert (CmdStop ∈ map snd (posted s)) as Hp by (rewrite H1; set_solver).
  apply list_elem_of_fmap in Hp as ([i c] & Hc & Hin). simpl in Hc. subst c.
  assert (CmdStop ∈ by_thread i (accepted s)) as Ha.
  { rewrite H2. apply elem_of_app. left. unfold by_thread.
    apply list_elem_of_fmap. exists (i, CmdStop). split; [done|]. by apply list_elem_of_filter. }
  apply list_elem_of_fmap in Ha as ([j c] & Hc & [Hj Hin']%list_elem_of_filter).
  simpl in *. subst. by destruct (H5 i).
Qed.

(** [C8] Commands are carried out once, in order: whatever the interleaving of
    any number of application threads with the IO thread, the commands pushed
    into the mailbox are exactly those carried out, followed by those of the
    batch in hand, followed by those still in the mailbox; the commands of one
    thread are pushed in the order of its calls; and the state of the peer
    manager is that of a plain sequence of operations whose broadcasts and
    sends are the commands carried out. *)
Theorem commands_in_order p0 l s : run_acts l (init p0) = Some s →
  map snd (posted s) = executed s ++ batch s ++ mailbox_ s ∧
  (∀ i, by_thread i (accepted s) = by_thread i (posted s) ++ pending i s) ∧
  peers_ s = (peer_manager.run cfg_ self_ clk (ops s) p0).2 ∧
  omap op_command (ops s) = filter not_stop (executed s).
Proof. intros Hr. by destruct (run_acts_inv p0 l _ s (init_inv p0) Hr). Qed.

(** [C9] No wakeup is lost and the mailbox empties: from every state the node
    can get into, the threads inside [post] and the IO thread can take only a
    bounded number of steps, in whatever order; and where none of them can
    take a step any more, every [post] has returned and, unless the node was
    stopped, the mailbox is empty and every accepted command has been carried
    out. *)
Theorem mailbox_settles p0 l s : run_acts l (init p0) = Some s →
  (∀ l' s', Forall (λ a, internal a = true) l' → run_acts l' s = Some s' →
     (length l' ≤ work_left s)%nat) ∧
  (settled s → threads s = ∅ ∧
     (io s = Dispatching → mailbox_ s = [] ∧ executed s = map snd (posted s) ∧
        ∀ i, by_thread i (accepted s) = by_thread i (posted s))).
Proof.
  intros Hr. pose proof (run_acts_inv p0 l _ s (init_inv p0) Hr) as Hinv. split.
  - intros l' s' Hl' Hr'. pose proof (internal_bounded l' s s' Hl' Hr'). lia.
  - intros Hs. split; [by apply settled_shape|]. intros Hio. by eapply settled_executed.
Qed.

(** [C21] Stopping is orderly: at most one [stop] gets through, and no call is
    accepted after it; once it has got through and everything has settled, the
    IO thread has left its loop, with every command pushed before the stop
    carried out and the manager shut down, whatever timers fired since. *)
Theorem stop_is_orderly p0 l s : run_acts l (init p0) = Some s → running_ s = false →
  (∃ pre i, accepted s = pre ++ [(i, CmdStop)] ∧ ∀ j, (j, CmdStop) ∉ pre) ∧
  (∀ i c s', call i c s = Some s' → s' = s) ∧
  (settled s →
     (io s = Stopping ∨ io s = Exited) ∧
     CmdStop ∈ executed s ∧ executed s `prefix_of` map snd (posted s) ∧
     manager_facts.at_rest (peers_ s)).
Proof.
  intros Hr Hrun. pose proof (run_acts_inv p0 l _ s (init_inv p0) Hr) as Hinv.
  pose proof Hinv as [H1 H2 H3 H4 H5 H6 H7 H8]. rewrite Hrun in H5. split; [done|]. split.
  { intros i c s'. unfold call. destruct (threads s !! i); [done|]. rewrite Hrun. by intros [= <-]. }
  intros Hs. destruct (settled_shape s Hs) as [Ht Hio].
  assert (io s = Stopping ∨ io s = Exited) as Hgone.
  { destruct Hio as [[Hio _]|Hio]; [exfalso|done].
    destruct (settled_executed p0 s Hinv Hs Hio) as (_ & He & Hth).
    destruct H5 as (pre & i & Hacc & _). unfold io_ok in H8. rewrite Hio in H8. apply (proj1 H8).
    rewrite He. specialize (Hth i).
    assert (CmdStop ∈ by_thread i (posted s)) as Hin.
    { rewrite <-Hth, Hacc, by_thread_snoc, decide_True by done. apply elem_of_app. right. by left. }
    apply list_elem_of_fmap in Hin as (x & Hx & [_ Hin]%list_elem_of_filter).
    apply list_elem_of_fmap. by exists x. }
  split; [done|]. unfold io_ok in H8.
  assert (CmdStop ∈ executed s ∧ manager_facts.at_rest (peers_ s)) as [Hst Hrest]
    by (destruct Hgone as [Hio'|Hio']; by rewrite Hio' in H8).
  split; [done|]. split; [|done]. rewrite H1. by eexists.
Qed.

End node.

(** ** Examples *)

#[local] Existing Instance crypto.toy_sodium.
Import manager_facts.

Definition sample_manager : peer_manager.t :=
  peer_manager.make sample_config (sample_node 1) (sample_world []) 0 0 0.

Definition sample_start : t := init sample_config (sample_node 1) sample_clock sample_manager.

(** Two threads broadcast, the wakeup of the first is overtaken by the drain of
    the second, then one of them stops the node. *)
Definition sample_acts : list action :=
  [CallBroadcast 1 [Byte.x01]; CallBroadcast 2 [Byte.x02]; Push 2; Push 1; Wake 2; IoWake; IoSwap;
   IoExec; Wake 1; CallSend 1 (sample_id 7) [Byte.x03]; IoExec; IoFinish; Push 1; IoWake; IoSwap;
   CallStop 2; IoExec; Push 2; IoFinish; Wake 1; Wake 2].

Definition sample_stop : list action :=
  sample_acts ++ [IoWake; IoSwap; IoExec; IoFinish; IoOp (OnTimer TickTimer); IoExit].

Definition sample_state (l : list action) : t :=
  default sample_start (run_acts sample_config (sample_node 1) sample_clock l sample_start).

Lemma sample_acts_run :
  run_acts sample_config (sample_node 1) sample_clock sample_acts
    (init sample_config (sample_node 1) sample_clock sample_manager) = Some (sample_state sample_acts).
Proof. apply some_default. vm_compute. reflexivity. Qed.

Lemma sample_stop_run :
  run_acts sample_config (sample_node 1) sample_clock sample_stop
    (init sample_config (sample_node 1) sample_clock sample_manager) = Some (sample_state sample_stop).
Proof. apply some_default. vm_compute. reflexivity. Qed.

Lemma commands_in_order_witness :
  executed (sample_state sample_acts) =
    [CmdBroadcast [Byte.x02]; CmdBroadcast [Byte.x01]; CmdTargeted (sample_id 7) [Byte.x03]] ∧
  map snd (posted (sample_state sample_acts)) =
    executed (sample_state sample_acts) ++ batch (sample_state sample_acts) ++
    mailbox_ (sample_state sample_acts).
Proof.
  split; [vm_compute; reflexivity|].
  exact (proj1 (commands_in_order sample_config (sample_node 1) sample_clock sample_manager
    sample_acts _ sample_acts_run)).
Defined.

Lemma mailbox_settles_witness :
  work_left (sample_state sample_acts) = 15%nat ∧
  ∀ l' s', Forall (λ a, internal a = true) l' →
    run_acts sample_config (sample_node 1) sample_clock l' (sample_state sample_acts) = Some s' →
    (length l' ≤ work_left (sample_state sample_acts))%nat.
Proof.
  split; [vm_compute; reflexivity|].
  exact (proj1 (mailbox_settles sample_config (sample_node 1) sample_clock sample_manager
    sample_acts _ sample_acts_run)).
Defined.

Lemma stop_is_orderly_witness :
  io (sample_state sample_stop) = Exited ∧
  CmdStop ∈ executed (sample_state sample_stop) ∧
  manager_facts.at_rest (peers_ (sample_state sample_stop)).
Proof.
  destruct (stop_is_orderly sample_config (sample_node 1) sample_clock sample_manager
    sample_stop _ sample_stop_run ltac:(vm_compute; reflexivity)) as (_ & _ & Hs).
  destruct Hs as (_ & Hex & _ & Hrest).
  - intros a Ha. destruct a; try discriminate Ha; vm_compute; reflexivity.
  - split; [vm_compute; reflexivity|]. split; [exact Hex|exact Hrest].
Defined.

End mailbox.
