(* ===== verification/Reactor.v ===== *)
(** * The node on its event loop

    What src/src/mesh_impl.cpp puts together: the loop of EventLoop.v dispatches
    the sockets of connections, listener and discovery to the peer manager,
    drains the mailbox when it is woken, and fires the timers the manager, the
    router and discovery arm.  An event carries what its handler finds on its
    socket; what a connection makes of the bytes is a list of calls on its
    owner (see ConnectionContract.v).  The theorems are about the life of
    connection objects across the boundary: no event reaches an object that is
    gone, every turn of the loop destroys the connections that died in it, and
    a stop leaves nothing behind. *)
From Stdlib Require Import ZArith Lia Sorted.
From Stdlib.Strings Require Import Byte.
From stdpp Require Import base gmap sets list strings numbers option sorting.
From S2P Require Import Prelude PeerId Wire Config Socket EventLoop Crypto Identity Gossip Membership Discovery PeerConnection PeerManager PeerManagerFacts ManagerLogic Reaping MeshImpl.

Open Scope Z_scope.

Module reactor.

Import peer_manager reaping.

(** The functions armed on the loop: the manager's, the second sweep of the
    router's cache, which does not arm another one, and discovery's. *)
Inductive callback := ManagerTimer (cb : timer_cb) | SecondSweep | AnnounceTimer.

(** What a connection does when its socket is ready. *)
Inductive conn_act :=
  | Up
  | Received
  | GotHello (pid : peer_id)
  | GotHandshake (peer : hello)
  | GotData (view : data_view)
  | GotMembership (rec : membership_record)
  | GotIdentity (rec : identity_record)
  | Failing (es : list error).

Definition op_of (p : ptr) (a : conn_act) : op :=
  match a with
  | Up => ConnUp p
  | Received => ConnReceived p
  | GotHello pid => ConnHello p pid
  | GotHandshake peer => ConnHandshake p peer
  | GotData view => ConnData p view
  | GotMembership rec => ConnMembership p rec
  | GotIdentity rec => ConnIdentity p rec
  | Failing es => ConnFails p es
  end.

(** The registered objects, with the event mask and what they find. *)
Inductive handler :=
  | Listener (events : Z) (script : list listener.accept_result)
  | Multicast (events : Z) (datagrams : list (list byte * sockaddr))
  | Connection (p : ptr) (acts : list conn_act).

(** The state behind the callbacks: the manager, the mailboxes the coming
    wakeups will find, the coming draws of discovery's jitter; [stray] when an
    event was dispatched to a destroyed connection. *)
Record node := mk_node {
  peers_ : peer_manager.t;
  mailboxes : list (list mailbox.command);
  jitters : list Z;
  stray : bool;
}.

Definition set_peers (m : peer_manager.t) (w : node) : node :=
  mk_node m (mailboxes w) (jitters w) (stray w).
Definition next_mailbox (w : node) : list mailbox.command * node :=
  match mailboxes w with
  | [] => ([], w)
  | cmds :: rest => (cmds, mk_node (peers_ w) rest (jitters w) (stray w))
  end.
Definition next_jitter (w : node) : Z * node :=
  match jitters w with
  | [] => (0, w)
  | j :: rest => (j, mk_node (peers_ w) (mailboxes w) rest (stray w))
  end.

Abbreviation prog := (event_loop.prog (CB:=callback) (W:=node)).
Abbreviation loop := (event_loop.t (CB:=callback)).

Section node.

(** The clock the manager reads between the loop's own readings. *)
Context {Sod : Sodium} (cfg_ : mesh_config) (self_ : local_identity) (mclk : nat → Z).

(** The timers of [l] are armed one after the other. *)
Fixpoint arm (l : list (Z * timer_cb)) (k : prog) : prog :=
  match l with
  | [] => k
  | (d, cb) :: l => event_loop.AddTimer d (Some (ManagerTimer cb)) (λ _, arm l k)
  end.

(** The timers the manager armed between two states, oldest first. *)
Definition fresh (m m' : peer_manager.t) : list (Z * timer_cb) :=
  reverse (take (length (armed (obs m')) - length (armed (obs m))) (armed (obs m'))).

(** The manager carries out [ops]. *)
Definition perform_then (ops : list op) (k : node → prog) (w : node) : prog :=
  let m := (run cfg_ self_ mclk ops (peers_ w)).2 in
  arm (fresh (peers_ w) m) (k (set_peers m w)).

Definition perform (ops : list op) (w : node) : prog := perform_then ops event_loop.Ret w.

(** [on_io_events] of the three kinds of handlers. *)
Definition on_io_events (h : handler) (w : node) : prog :=
  match h with
  | Listener events script =>
      perform (map (λ c, Accept c.1 c.2) (listener.on_io_events events script).1) w
  | Multicast events datagrams =>
      perform (map (λ c, Discover c.1 c.2) (discovery.on_io_events events self_ datagrams)) w
  | Connection p acts =>
      if bool_decide (is_Some (objects (peers_ w) !! p)) then perform (map (op_of p) acts) w
      else event_loop.Ret (mk_node (peers_ w) (mailboxes w) (jitters w) true)
  end.

(** The wake handler: [drain_mailbox]. *)
Definition is_stop (c : mailbox.command) : bool :=
  match c with mailbox.CmdStop => true | _ => false end.

Definition originates (c : mailbox.command) : option op :=
  match c with
  | mailbox.CmdBroadcast payload => Some (Broadcast payload)
  | mailbox.CmdTargeted dst payload => Some (SendTo dst payload)
  | mailbox.CmdStop => None
  end.

Definition drain_mailbox (w : node) : prog :=
  let '(cmds, w) := next_mailbox w in
  if existsb is_stop cmds
  then perform_then (omap originates cmds ++ [Shutdown]) (λ w, event_loop.Stop (event_loop.Ret w)) w
  else perform (omap originates cmds) w.

Definition sweep_period : Z :=
  let period := Z.quot (dedupTtl cfg_) 4 in ms (if period <=? 0 then 1000 else period).

Definition body (c : callback) (w : node) : prog :=
  match c with
  | ManagerTimer SweepTimer =>
      perform_then [OnTimer SweepTimer]
        (λ w, event_loop.AddTimer sweep_period (Some SecondSweep) (λ _, event_loop.Ret w)) w
  | ManagerTimer cb => perform [OnTimer cb] w
  | SecondSweep => perform [OnTimer SweepTimer] w
  | AnnounceTimer =>
      let '(jit, w) := next_jitter w in
      discovery.schedule_announce (announceInterval cfg_) jit AnnounceTimer w
  end.

(** What [start] does before the thread enters [run]; [usable] tells whether
    discovery could be set up. *)
Definition boot (usable : bool) (w : node) : prog :=
  perform_then [Start]
    (λ w, if usable then body AnnounceTimer w else event_loop.Ret w) w.

(** ** Runs *)

Variable clk : nat → Z.

Definition dispatch := event_loop.dispatch clk on_io_events (Some drain_mailbox).
Definition fire_due_timers := event_loop.fire_due_timers clk body.
Definition run_loop := event_loop.run clk body on_io_events (Some drain_mailbox).

(** One turn of the loop with the events of [batch]. *)
Definition turn (fuel : nat) (batch : list (event_loop.event (EV:=handler))) (w : node) (s : loop)
    : bool * node * loop :=
  let '(_, s) := event_loop.next_timeout_ms clk s in
  let '(w, s) := dispatch batch w s in
  fire_due_timers fuel w s.

(** The node as [start] leaves it. *)
Definition booted (usable : bool) (e : world) (wall_ms rd1 rd2 : Z)
    (mails : list (list mailbox.command)) (jits : list Z) : node * loop :=
  event_loop.exec clk
    (boot usable (mk_node (make cfg_ self_ e wall_ms rd1 rd2) mails jits false)) event_loop.init.

(** A connection is registered with the kernel only while it exists and is not
    dead: [mark_dead] and the destructor take it out. *)
Definition registered (w : node) (e : event_loop.event (EV:=handler)) : bool :=
  match e with
  | event_loop.Io (Some (Connection p _)) =>
      match objects (peers_ w) !! p with Some c => negb (is_dead c) | None => false end
  | _ => true
  end.

(** The kernel reports events of registered objects only: the batches of a
    run, each judged when [epoll_wait] returns it. *)
Fixpoint delivered (fuel : nat) (script : list (event_loop.epoll_result (EV:=handler)))
    (w : node) (s : loop) : bool :=
  if negb (event_loop.running_ s) then true
  else
    match script with
    | [] => true
    | r :: script =>
        match r with
        | event_loop.Eintr => delivered fuel script w (event_loop.next_timeout_ms clk s).2
        | event_loop.Failed => true
        | event_loop.Ready batch =>
            forallb (registered w) batch &&
            (let '(drained, w, s) := turn fuel batch w s in
             if drained then delivered fuel script w s else true)
        end
    end.

End node.

(** ** The timer queue under the manager *)

Section facts.

Context {Sod : Sodium} (cfg_ : mesh_config) (self_ : local_identity) (mclk clk : nat → Z) (D : Z).

#[local] Abbreviation cycles := (event_loop.cycles clk (body cfg_ self_ mclk)
  (on_io_events cfg_ self_ mclk) (Some (drain_mailbox cfg_ self_ mclk))).

Hypothesis clk_steady : ∀ i j, (i <= j)%nat → clk i <= clk j.
Hypothesis cfg_patient : patient cfg_ D.

Definition reaping_entry (e : Z * event_loop.timer (CB:=callback)) : bool :=
  match event_loop.cb e.2 with Some (ManagerTimer cb) => is_reap cb | _ => false end.

Definition pending (s : loop) : nat :=
  length (filter (λ e, reaping_entry e = true) (event_loop.timers_ s)).

(** The other timers that are due before [T]. *)
Definition late (T : Z) (s : loop) : nat :=
  length (filter (λ e, reaping_entry e = false ∧ e.1 < T) (event_loop.timers_ s)).

(** [n] timers reap, and they are due; the queue is in order; nothing was
    cancelled. *)
Record queue (n : nat) (s : loop) : Prop := {
  q_pending : pending s = n;
  q_cancelled : event_loop.cancelled_ s = ∅;
  q_sorted : StronglySorted Z.le (map fst (event_loop.timers_ s));
  q_past : ∀ e, e ∈ event_loop.timers_ s → reaping_entry e = true →
    e.1 <= clk (pred (event_loop.reads s));
}.

(** A queue that looks the same to a later reader. *)
Lemma queue_same n s s' : event_loop.timers_ s' = event_loop.timers_ s →
  event_loop.cancelled_ s' = event_loop.cancelled_ s →
  (event_loop.reads s <= event_loop.reads s')%nat → queue n s → queue n s'.
Proof.
  intros Et Ec Hr []. split; unfold pending in *; rewrite ?Et, ?Ec; try done.
  intros e He Hre. specialize (q_past0 e He Hre).
  pose proof (clk_steady (pred (event_loop.reads s)) (pred (event_loop.reads s')) ltac:(lia)). lia.
Qed.

Lemma stop_same (s : loop) : event_loop.timers_ (event_loop.stop s) = event_loop.timers_ s ∧
  event_loop.cancelled_ (event_loop.stop s) = event_loop.cancelled_ s ∧
  event_loop.reads (event_loop.stop s) = event_loop.reads s ∧
  event_loop.running_ (event_loop.stop s) = false.
Proof. unfold event_loop.stop, event_loop.wakeup. by destruct (_ <=? _). Qed.

Lemma emplace_in_order k v (l : list (Z * event_loop.timer (CB:=callback))) :
  StronglySorted Z.le (map fst l) → StronglySorted Z.le (map fst (event_loop.emplace k v l)).
Proof.
  induction l as [|[k' v'] l IH]; intros Hs; simpl; [by repeat constructor|].
  apply StronglySorted_inv in Hs as [Hs Hall]. destruct (Z.ltb_spec k k'); simpl.
  - constructor; [by constructor|]. constructor; [lia|].
    eapply list.Forall_impl; [exact Hall|]. simpl. lia.
  - constructor; [by apply IH|]. rewrite event_loop.emplace_perm. by constructor.
Qed.

Lemma add_timer_queue n d (c : callback) s : 
  let b := match c with ManagerTimer cb => is_reap cb | _ => false end in
  (b = true → d = 0) → queue n s →
  queue (n + if b then 1 else 0)%nat (event_loop.add_timer clk d (Some c) s).2.
Proof.
  intros b Hd []. 
  assert (reaping_entry (clk (event_loop.reads s) + d,
    event_loop.mk_timer (event_loop.nextTimerId_ s) (Some c)) = b) as Eb by done.
  split; cbn [event_loop.add_timer event_loop.read_clock snd event_loop.cancelled_]; [|done| |].
  - unfold pending. cbn [event_loop.timers_]. rewrite event_loop.emplace_perm, filter_cons, Eb.
    rewrite <-q_pending0. unfold pending. destruct b; simpl; lia.
  - by apply emplace_in_order.
  - intros e He Hre. cbn [event_loop.timers_ event_loop.reads] in *. rewrite event_loop.emplace_perm in He.
    apply elem_of_cons in He as [->|He].
    + rewrite Eb in Hre. specialize (Hd Hre). simpl. lia.
    + specialize (q_past0 e He Hre). simpl.
      pose proof (clk_steady (pred (event_loop.reads s)) (event_loop.reads s) ltac:(lia)). lia.
Qed.

Lemma add_timer_late T d (c : callback) s :
  (match c with ManagerTimer cb => is_reap cb | _ => false end = false → D <= d) →
  T <= clk (event_loop.reads s) + D →
  late T (event_loop.add_timer clk d (Some c) s).2 = late T s.
Proof.
  intros Hd HT. unfold late. cbn [event_loop.add_timer event_loop.read_clock snd event_loop.timers_].
  rewrite event_loop.emplace_perm, filter_cons_False; [done|]. intros [Hre Hlt]. simpl in Hlt.
  specialize (Hd Hre). lia.
Qed.

(** Arming a list of timers. *)
Fixpoint arm_all (l : list (Z * timer_cb)) (s : loop) : loop :=
  match l with
  | [] => s
  | (d, cb) :: l => arm_all l (event_loop.add_timer clk d (Some (ManagerTimer cb)) s).2
  end.

Lemma exec_arm l k s : event_loop.exec clk (arm l k) s = event_loop.exec clk k (arm_all l s).
Proof. revert s. induction l as [|[d cb] l IH]; intros s; [done|]. apply IH. Qed.

Lemma arm_all_queue l n s : Forall (timely D) l → queue n s →
  queue (n + reaps l)%nat (arm_all l s) ∧
  ∀ T, T <= clk (event_loop.reads s) + D → late T (arm_all l s) = late T s.
Proof.
  intros Hl. revert n s. induction Hl as [|[d cb] l Hd _ IH]; intros n s Hq; cbn [arm_all].
  { split; [|done]. by rewrite Nat.add_0_r. }
  unfold timely in Hd. simpl in Hd.
  pose proof (add_timer_queue n d (ManagerTimer cb) s) as H1. cbv zeta in H1.
  destruct (IH _ _ (H1 ltac:(by intros E; rewrite E in Hd) Hq)) as [H2 H3]. split.
  - unfold reaps in *. rewrite filter_cons. simpl. destruct (is_reap cb); simpl in *.
    + by replace (n + S _)%nat with (n + 1 + length (filter (λ dc : Z * timer_cb, is_reap dc.2 = true) l))%nat by lia.
    + by rewrite Nat.add_0_r in H2.
  - intros T HT. rewrite H3.
    + apply add_timer_late; [|done]. intros E. simpl in E. by rewrite E in Hd.
    + simpl. pose proof (clk_steady (event_loop.reads s) (S (event_loop.reads s)) ltac:(lia)). lia.
Qed.

Lemma fresh_spec l m m' : armed (obs m') = l ++ armed (obs m) → fresh m m' = reverse l.
Proof.
  intros E. unfold fresh. rewrite E, length_app. f_equal.
  replace (length l + length (armed (obs m)) - length (armed (obs m)))%nat with (length l) by lia.
  apply take_app_length.
Qed.

Lemma reaps_reverse l : reaps (reverse l) = reaps l.
Proof. unfold reaps. by rewrite reverse_Permutation. Qed.

(** What is left for the loop when the manager has armed the timers of [l]. *)
Lemma fresh_queue l m m' s : armed (obs m') = l ++ armed (obs m) →
  (reaps l + owed m)%nat = owed m' → Forall (timely D) l → queue (owed m) s →
  queue (owed m') (arm_all (fresh m m') s) ∧
  ∀ T, T <= clk (event_loop.reads s) + D → late T (arm_all (fresh m m') s) = late T s.
Proof.
  intros E Hn Hl Hq. rewrite (fresh_spec l) by done.
  destruct (arm_all_queue (reverse l) (owed m) s) as [H1 H2]; [by apply Forall_reverse|done|].
  rewrite reaps_reverse in H1. replace (owed m + reaps l)%nat with (owed m') in H1 by lia. done.
Qed.

(** ** The invariant of the composition *)

Definition punctual (jit : Z) : Prop := D <= ms (discovery.announce_delay (announceInterval cfg_) jit).

Definition J (w : node) (s : loop) : Prop :=
  tidy (peers_ w) ∧ queue (owed (peers_ w)) s ∧ Forall punctual (0 :: jitters w).

(** A program ends in the invariant, and no timer becomes due soon by it. *)
Definition does (p : prog) (s : loop) : Prop :=
  let r := event_loop.exec clk p s in
  J r.1 r.2 ∧ ∀ T, T <= clk (event_loop.reads s) + D → late T r.2 = late T s.

Lemma does_arm p l s : (∀ T, T <= clk (event_loop.reads s) + D → late T (arm_all l s) = late T s) →
  (event_loop.reads s <= event_loop.reads (arm_all l s))%nat →
  does p (arm_all l s) → does (arm l p) s.
Proof.
  intros Hl Hr [HJ Hd]. unfold does. rewrite exec_arm. split; [exact HJ|]. intros T HT.
  rewrite Hd; [by apply Hl|].
  pose proof (clk_steady (event_loop.reads s) (event_loop.reads (arm_all l s)) ltac:(lia)). lia.
Qed.

Lemma arm_all_reads l s : (event_loop.reads s <= event_loop.reads (arm_all l s))%nat.
Proof.
  revert s. induction l as [|[d cb] l IH]; intros s; [done|]. cbn [arm_all].
  etrans; [|apply IH]. simpl. lia.
Qed.

(** The manager's part of a callback, from a queue with [n] reaps. *)
Definition performs (ops : list op) (w : node) (s : loop) : Prop :=
  let m := (run cfg_ self_ mclk ops (peers_ w)).2 in
  tidy m ∧ queue (owed m) (arm_all (fresh (peers_ w) m) s) ∧
  ∀ T, T <= clk (event_loop.reads s) + D → late T (arm_all (fresh (peers_ w) m) s) = late T s.

Lemma performs_does ops k w s : performs ops w s →
  (∀ m s', tidy m → queue (owed m) s' → does (k (set_peers m w)) s') →
  does (perform_then cfg_ self_ mclk ops k w) s.
Proof. intros (Ht & Hq & Hl) Hk. apply does_arm; [done|apply arm_all_reads|by apply Hk]. Qed.

Lemma performs_ops ops w s : Forall (λ o, destroys o = false) ops → J w s → performs ops w s.
Proof.
  intros Hops (Ht & Hq & _).
  destruct (run_keeps cfg_ self_ mclk D _ _ _ [] [] ops cfg_patient Hops _ (tidy_keep D _ Ht))
    as (Ho & Hl & Hw & Hc & l & El & Hn & Hty).
  pose proof (fresh_queue l _ _ s El Hn Hty Hq) as [H1 H2]. by split_and!.
Qed.

Lemma run_one o m : (run cfg_ self_ mclk [o] m).2 =
  (step cfg_ self_ mclk (on_peer_closed cfg_ mclk) o m).2.
Proof. exact (mailbox.run_snoc cfg_ self_ mclk [] o m). Qed.

Lemma performs_shutdown ops w s : Forall (λ o, destroys o = false) ops → J w s →
  performs (ops ++ [Shutdown]) w s ∧ objects (run cfg_ self_ mclk (ops ++ [Shutdown]) (peers_ w)).2 = ∅.
Proof.
  intros Hops (Ht & Hq & _). unfold performs. rewrite mailbox.run_snoc.
  pose proof (run_keeps cfg_ self_ mclk D _ _ _ [] [] ops cfg_patient Hops _ (tidy_keep D _ Ht)) as Hk.
  destruct (shutdown_keeps cfg_ self_ mclk D _ _ _ _ cfg_patient Hk) as (Ho & Ht' & l & El & Hn & Hty).
  pose proof (fresh_queue l _ _ s El Hn Hty Hq) as [H1 H2]. by split_and!.
Qed.

Lemma performs_reap w s : tidy (peers_ w) → queue 0 s → performs [OnTimer ReapTimer] w s.
Proof.
  intros Ht Hq. unfold performs. change (run cfg_ self_ mclk [OnTimer ReapTimer] (peers_ w)).2
    with (reap (peers_ w)).2.
  destruct (reap_tidies _ Ht) as (Ht' & Hn & Ha & _).
  assert (fresh (peers_ w) (reap (peers_ w)).2 = []) as ->.
  { apply (fresh_spec []). by rewrite Ha. }
  rewrite Hn. by split_and!.
Qed.

(** *** The handlers *)

Lemma ret_does w s : J w s → does (event_loop.Ret w) s.
Proof. by split. Qed.

Lemma timer_does (c : callback) d w s : is_reap (default TickTimer
    match c with ManagerTimer cb => Some cb | _ => None end) = false → D <= d → J w s →
  does (event_loop.AddTimer d (Some c) (λ _, event_loop.Ret w)) s.
Proof.
  intros Hc Hd (Ht & Hq & Hj).
  assert (match c with ManagerTimer cb => is_reap cb | _ => false end = false) as E by (by destruct c).
  pose proof (add_timer_queue _ d c s ltac:(by rewrite E) Hq) as H1. rewrite E, Nat.add_0_r in H1.
  split; [by split_and!|]. intros T HT. by apply (add_timer_late T d c s).
Qed.

Lemma announce_does w s : J w s → does (body cfg_ self_ mclk AnnounceTimer w) s.
Proof.
  intros (Ht & Hq & Hj). cbn [body]. unfold next_jitter.
  destruct (jitters w) as [|j js] eqn:Ej.
  - apply timer_does; [done| |split_and!; [done..|by rewrite Ej]].
    by apply list.Forall_cons in Hj as [? _].
  - apply list.Forall_cons in Hj as [H0 Hj]. apply list.Forall_cons in Hj as [H1 Hj].
    apply timer_does; [done|done|]. split_and!; [done..|by constructor].
Qed.

Lemma perform_does ops w s : Forall (λ o, destroys o = false) ops → J w s →
  does (perform cfg_ self_ mclk ops w) s.
Proof.
  intros Hops HJ. apply performs_does; [by apply performs_ops|]. intros m s' Ht Hq.
  apply ret_does. split_and!; [done..|apply HJ].
Qed.

Lemma io_does h w s : J w s → does (on_io_events cfg_ self_ mclk h w) s.
Proof.
  intros HJ. destruct h as [ev script|ev ds|p acts]; cbn [on_io_events].
  - apply perform_does; [|done]. apply Forall_map, Forall_true. by intros ?.
  - apply perform_does; [|done]. apply Forall_map, Forall_true. by intros ?.
  - case_bool_decide; [|by apply ret_does]. apply perform_does; [|done].
    apply Forall_map, Forall_true. by intros [].
Qed.

Lemma originates_harmless cmds : Forall (λ o, destroys o = false) (omap originates cmds).
Proof.
  apply list.Forall_forall. intros o (c & _ & Ho)%list_elem_of_omap. destruct c; by simplify_eq/=.
Qed.

Lemma next_mailbox_J w s : J w s → J (next_mailbox w).2 s.
Proof. intros HJ. unfold next_mailbox. by destruct (mailboxes w). Qed.

Lemma wake_does w s : J w s → does (drain_mailbox cfg_ self_ mclk w) s.
Proof.
  intros HJ%next_mailbox_J. unfold drain_mailbox. destruct (next_mailbox w) as [cmds w1].
  pose proof (originates_harmless cmds) as Ho. destruct (existsb is_stop cmds); [|by apply perform_does].
  apply performs_does; [by apply performs_shutdown|]. intros m s' Ht Hq. cbn [snd] in *.
  split.
  - split_and!; [done| |apply HJ].
    destruct (stop_same s') as (Et & Ec & Er & _). change (queue (owed m) (event_loop.stop s')).
    by apply (queue_same _ s'); [..|rewrite Er|].
  - intros T HT. unfold late. cbn [event_loop.exec snd]. by destruct (stop_same s') as [-> _].
Qed.

(** A callback runs when its timer has left the queue. *)
Lemma body_does c w s : tidy (peers_ w) → Forall punctual (0 :: jitters w) →
  (∃ n, queue n s ∧
    (n + if (match c with ManagerTimer cb => is_reap cb | _ => false end) then 1 else 0)%nat =
    owed (peers_ w)) →
  does (body cfg_ self_ mclk c w) s.
Proof.
  intros Ht Hj (n & Hq & Hn). destruct c as [cb| |]; [destruct cb| |]; cbn [is_reap body] in *;
    rewrite ?Nat.add_0_r in Hn.
  2: {
    assert (n = 0)%nat as -> by (unfold owed in Hn; destruct (reapScheduled_ _); lia).
    apply performs_does; [by apply performs_reap|]. intros m s' Ht' Hq'. by apply ret_does. }
  all: subst n.
  - by apply perform_does; [repeat constructor|].
  - by apply perform_does; [repeat constructor|].
  - apply performs_does; [by apply performs_ops; [repeat constructor|]|]. intros m s' Ht' Hq'.
    apply timer_does; [done|by apply patient_sweep|done].
  - by apply perform_does; [repeat constructor|].
  - by apply announce_does.
Qed.

(** *** The callbacks and the sweep *)

(** A reap arms nothing, and any other callback arms at most one reap without
    delay: the callbacks satisfy what [event_loop.sweep_serves_all_due] asks of
    them, with one turn more for each timer that does not reap. *)
Definition turns (c : callback) : nat :=
  match c with ManagerTimer ReapTimer => 0 | _ => 1 end.

Definition settled (w : node) : Prop := tidy (peers_ w) ∧ Forall punctual (0 :: jitters w).

Lemma frugal_arm C Φ l k n : 0 < D → Forall (timely D) l → (reaps l <= n)%nat →
  (∀ n, event_loop.frugal turns D C Φ n k) → event_loop.frugal turns D C Φ n (arm l k).
Proof.
  intros HD Hl Hn Hk. revert n Hn. induction Hl as [|[d cb] l Hd _ IH]; intros n Hn; [apply Hk|].
  unfold timely, reaps in *. simpl in Hd. rewrite filter_cons in Hn. simpl in Hn.
  cbn [arm event_loop.frugal]. destruct (is_reap cb) eqn:Hr; simpl in Hn.
  - destruct cb; try done. subst d. rewrite (proj2 (Z.leb_gt D 0)) by done.
    change (event_loop.cost turns (Some (ManagerTimer ReapTimer))) with 1%nat.
    split_and!; [done|lia|]. intros _. apply IH. lia.
  - rewrite (proj2 (Z.leb_le D d)) by done. split_and!; [lia|lia|]. intros _. apply IH. lia.
Qed.

Lemma perform_frugal C ops k w : 0 < D → Forall (λ o, destroys o = false) ops → settled w →
  (∀ m n, settled (set_peers m w) → event_loop.frugal turns D C settled n (k (set_peers m w))) →
  event_loop.frugal turns D C settled 1 (perform_then cfg_ self_ mclk ops k w).
Proof.
  intros HD Hops [Ht Hj] Hk.
  pose proof (run_keeps cfg_ self_ mclk D _ _ _ [] [] ops cfg_patient Hops _ (tidy_keep D _ Ht)) as Hkeep.
  pose proof (keep_tidy _ _ _ _ _ Hkeep) as Ht'.
  destruct Hkeep as (_ & _ & _ & _ & l & El & Hn & Hty). unfold perform_then.
  rewrite (fresh_spec l) by done. apply frugal_arm; [done|by apply Forall_reverse| |].
  - rewrite reaps_reverse. unfold owed in Hn. destruct (reapScheduled_ (run _ _ _ _ _).2); lia.
  - intros n. by apply Hk.
Qed.

Lemma timer_frugal C d (c : callback) w n : 0 < D → D <= d → settled w →
  event_loop.frugal turns D C settled n (event_loop.AddTimer d (Some c) (λ _, event_loop.Ret w)).
Proof.
  intros HD Hd Hw. cbn [event_loop.frugal]. rewrite (proj2 (Z.leb_le D d)) by done.
  split_and!; [lia|lia|done].
Qed.

Lemma body_frugal C c w : 0 < D → settled w →
  event_loop.frugal turns D C settled (turns c) (body cfg_ self_ mclk c w).
Proof.
  intros HD Hw. pose proof Hw as [Ht Hj]. destruct c as [cb| |]; [destruct cb| |]; cbn [body turns].
  2: { unfold perform, perform_then.
    change (run cfg_ self_ mclk [OnTimer ReapTimer] (peers_ w)).2 with (reap (peers_ w)).2.
    destruct (reap_tidies _ Ht) as (Ht' & _ & Ha & _).
    rewrite (fresh_spec []) by (by rewrite Ha). by split. }
  1, 2, 4: by apply perform_frugal; [done|repeat constructor|done|].
  - apply perform_frugal; [done|by repeat constructor|done|]. intros m n Hm.
    by apply timer_frugal; [|apply patient_sweep|].
  - unfold next_jitter. destruct (jitters w) as [|j js] eqn:Ej.
    + apply timer_frugal; [done|by apply list.Forall_cons in Hj as [? _]|done].
    + apply list.Forall_cons in Hj as [H0 Hj]. apply list.Forall_cons in Hj as [H1 Hj].
      apply timer_frugal; [done|done|]. split; [done|by constructor].
Qed.

(** *** The loop *)

Lemma pop_queue k dl tm rest s : event_loop.timers_ s = (dl, tm) :: rest → queue k s →
  ∃ n, queue n (event_loop.with_timers s rest) ∧
    (n + if reaping_entry (dl, tm) then 1 else 0)%nat = k.
Proof.
  intros Et [Hp Hc Hs Hpast]. unfold pending in Hp. rewrite Et in *. simpl in Hs.
  apply StronglySorted_inv in Hs as [Hs _]. exists (pending (event_loop.with_timers s rest)). split.
  - split; [done|done|done|]. intros e He. apply Hpast. by right.
  - unfold pending. rewrite filter_cons in Hp. simpl. destruct (reaping_entry (dl, tm)) eqn:E; simpl in Hp.
    + rewrite <-Hp. rewrite Nat.add_1_r. done.
    + by rewrite Nat.add_0_r.
Qed.

Lemma J_read w s : J w s → J w (event_loop.read_clock clk s).2.
Proof.
  intros (Ht & Hq & Hj). split_and!; [done| |done]. apply (queue_same _ s); [done|done|simpl; lia|done].
Qed.

Lemma J_eventFd w s n : J w s → J w (event_loop.with_eventFd s n).
Proof. intros (Ht & Hq & Hj). split_and!; [done| |done]. by apply (queue_same _ s). Qed.

Lemma J_running w s b : J w s → J w (event_loop.with_running s b).
Proof. intros (Ht & Hq & Hj). split_and!; [done| |done]. by apply (queue_same _ s). Qed.

Lemma J_skip dl tm rest w s : event_loop.timers_ s = (dl, tm) :: rest →
  event_loop.id tm ∈ event_loop.cancelled_ s → ¬ J w s.
Proof. intros _ Hin (_ & Hq & _). rewrite (q_cancelled _ _ Hq) in Hin. set_solver. Qed.

Lemma J_drop dl tm rest w s : event_loop.timers_ s = (dl, tm) :: rest → event_loop.cb tm = None →
  J w s → J w (event_loop.with_timers s rest).
Proof.
  intros Et Hcb (Ht & Hq & Hj). destruct (pop_queue _ _ _ _ _ Et Hq) as (n & Hn & E).
  unfold reaping_entry in E. simpl in E. rewrite Hcb, Nat.add_0_r in E. subst n. by split_and!.
Qed.

Lemma J_fire dl tm rest c now w s : event_loop.timers_ s = (dl, tm) :: rest → event_loop.cb tm = Some c →
  J w s → does (body cfg_ self_ mclk c w) (event_loop.with_firing (event_loop.with_timers s rest)
    (event_loop.mk_firing (event_loop.id tm) dl now c)).
Proof.
  intros Et Hcb (Ht & Hq & Hj). apply body_does; [done|done|].
  destruct (pop_queue _ _ _ _ _ Et Hq) as (n & Hn & E). exists n. split.
  - by apply (queue_same _ (event_loop.with_timers s rest)).
  - unfold reaping_entry in E. simpl in E. by rewrite Hcb in E.
Qed.

(** What the loop keeps, with a property [K] of the node that its programs keep. *)
Section with_property.

Context (K : node → loop → Prop) (E : handler → Prop).

Definition JK (w : node) (s : loop) : Prop := J w s ∧ K w s.

Hypothesis K_same : ∀ w s s', event_loop.running_ s' = event_loop.running_ s → K w s → K w s'.
Hypothesis K_io : ∀ h w s, E h → event_loop.running_ s = true → JK w s →
  let r := event_loop.exec clk (on_io_events cfg_ self_ mclk h w) s in K r.1 r.2.
Hypothesis K_wake : ∀ w s, event_loop.running_ s = true → JK w s →
  let r := event_loop.exec clk (drain_mailbox cfg_ self_ mclk w) s in K r.1 r.2.

Lemma dispatch_JK batch w s :
  Forall (λ e, match e with event_loop.Io (Some h) => E h | _ => True end) batch → JK w s →
  let '(w', s') := dispatch cfg_ self_ mclk clk batch w s in JK w' s'.
Proof.
  intros Hb. apply (event_loop.dispatch_invariant clk _ _ JK E); [|..|done].
  - intros w1 s1 n [HJ HK]. split; [by apply J_eventFd|by apply (K_same w1 s1)].
  - intros h w1 s1 [= <-] Hr [HJ HK]. split; [by apply wake_does|by apply K_wake].
  - intros h w1 s1 He Hr [HJ HK]. split; [by apply io_does|by apply K_io].
Qed.

Hypothesis K_body : ∀ c w s, tidy (peers_ w) → K w s →
  let r := event_loop.exec clk (body cfg_ self_ mclk c w) s in K r.1 r.2.

Lemma fire_JK fuel now w s : JK w s →
  let '(_, w', s') := event_loop.fire_loop clk (body cfg_ self_ mclk) fuel now w s in JK w' s'.
Proof.
  apply event_loop.fire_loop_invariant.
  - intros w1 s1 [HJ HK]. split; [by apply J_read|by apply (K_same w1 s1)].
  - intros dl tm rest w1 s1 Et Hin [HJ _]. by destruct (J_skip dl tm rest w1 s1 Et Hin).
  - intros dl tm rest w1 s1 Et Hcb [HJ HK]. split; [by eapply J_drop|by apply (K_same w1 s1)].
  - intros dl tm rest c now' w1 s1 Et Hcb [HJ HK]. split; [by eapply J_fire|].
    apply K_body; [apply HJ|by apply (K_same w1 s1)].
Qed.

Lemma fire_due_JK fuel w s : JK w s →
  let '(_, w', s') := fire_due_timers cfg_ self_ mclk clk fuel w s in JK w' s'.
Proof.
  intros [HJ HK]. apply fire_JK. split; [by apply J_read|by apply (K_same w s)].
Qed.

Lemma next_timeout_JK w s : JK w s → JK w (event_loop.next_timeout_ms clk s).2.
Proof.
  apply event_loop.next_timeout_invariant. intros w1 s1 [HJ HK].
  split; [by apply J_read|by apply (K_same w1 s1)].
Qed.

(** At the top of the loop, after any number of turns. *)
Lemma cycles_JK fuel script w s :
  Forall (λ r, match r with
    | event_loop.Ready batch =>
        Forall (λ e, match e with event_loop.Io (Some h) => E h | _ => True end) batch
    | _ => True
    end) script → JK w s →
  let '(_, w', s') := cycles fuel script w s in JK w' s'.
Proof.
  intros Hb. revert w s; induction Hb as [|r script Hr _ IH]; intros w s Hi; cbn [event_loop.cycles];
    destruct (negb _); try done.
  pose proof (next_timeout_JK w s Hi) as H1. destruct (event_loop.next_timeout_ms clk s) as [tmo s1].
  destruct r as [| |batch]; [by apply IH|done|].
  pose proof (dispatch_JK batch w s1 Hr H1) as H2. unfold dispatch in H2.
  destruct (event_loop.dispatch _ _ _ _ _) as [w2 s2].
  pose proof (fire_due_JK fuel w2 s2 H2) as H3. unfold fire_due_timers in H3.
  destruct (event_loop.fire_due_timers _ _ _ _ _) as [[[] w3] s3]; [by apply IH|done].
Qed.

End with_property.

(** The state a callback of the manager leaves behind. *)
Lemma exec_perform_then ops k w s :
  let m := (run cfg_ self_ mclk ops (peers_ w)).2 in
  event_loop.exec clk (perform_then cfg_ self_ mclk ops k w) s =
  event_loop.exec clk (k (set_peers m w)) (arm_all (fresh (peers_ w) m) s).
Proof. apply exec_arm. Qed.

Lemma run_objects ops m p : Forall (λ o, destroys o = false) ops → tidy m →
  is_Some (objects m !! p) → is_Some (objects (run cfg_ self_ mclk ops m).2 !! p).
Proof.
  intros Hops Ht Hp.
  destruct (run_keeps cfg_ self_ mclk D _ _ _ [] [] ops cfg_patient Hops _ (tidy_keep D _ Ht)) as [Ho _].
  by apply Ho, elem_of_dom.
Qed.

(** ** No event reaches a destroyed connection *)

Definition unstrayed (w : node) (s : loop) : Prop := stray w = false.

(** While a batch is dispatched: what was registered still exists, unless the
    loop has been stopped. *)
Definition reachable_objects (O : gset ptr) (w : node) (s : loop) : Prop :=
  stray w = false ∧
  (event_loop.running_ s = true → ∀ p, p ∈ O → is_Some (objects (peers_ w) !! p)).

Lemma body_unstrayed c w s : tidy (peers_ w) → unstrayed w s →
  let r := event_loop.exec clk (body cfg_ self_ mclk c w) s in unstrayed r.1 r.2.
Proof.
  intros _ Hs. destruct c as [[]| |]; cbn [body]; unfold perform; cbv zeta;
    rewrite ?exec_perform_then; try done.
  unfold next_jitter. by destruct (jitters w).
Qed.

Lemma dispatch_unstrayed batch w s : J w s → stray w = false → forallb (registered w) batch = true →
  let '(w', s') := dispatch cfg_ self_ mclk clk batch w s in J w' s' ∧ stray w' = false.
Proof.
  intros HJ Hs Hb.
  pose proof (dispatch_JK (reachable_objects (dom (objects (peers_ w))))
    (λ h, match h with Connection p _ => p ∈ dom (objects (peers_ w)) | _ => True end)) as Hd.
  ospecialize (Hd _ _ _ batch w s _ _).
  - intros w1 s1 s2 Er. unfold reachable_objects. by rewrite Er.
  - intros h w1 s1 He Hr [(Ht & _) [Hst Ho]]. specialize (Ho Hr). destruct h; cbn [on_io_events].
    3: rewrite bool_decide_true by (by apply Ho).
    all: unfold perform; cbv zeta; rewrite exec_perform_then; split; [done|intros _ q Hq].
    all: apply run_objects; [|done|by apply Ho]; apply Forall_map, Forall_true; by intros [].
  - intros w1 s1 Hr [(Ht & _) [Hst Ho]]. specialize (Ho Hr). unfold drain_mailbox, next_mailbox, perform.
    cbv zeta.
    destruct (mailboxes w1) as [|cmds rest].
    1: cbn [existsb].
    2: destruct (existsb _ _).
    2: { rewrite exec_perform_then. split; [done|]. intros Hrun. cbn [event_loop.exec snd] in Hrun.
         rewrite (proj2 (proj2 (proj2 (stop_same _)))) in Hrun. done. }
    all: rewrite exec_perform_then; split; [done|intros _ q Hq].
    all: apply run_objects; [apply originates_harmless|done|by apply Ho].
  - apply list.Forall_forall. intros e He. rewrite forallb_forall in Hb.
    apply list_elem_of_In, Hb in He. destruct e as [|[[]|]]; try done. cbn in He.
    destruct (objects (peers_ w) !! p) eqn:Ep; [|done]. by apply elem_of_dom.
  - split; [done|]. split; [done|]. intros _ p. apply elem_of_dom.
  - destruct (dispatch _ _ _ _ _ _ _) as [w' s']. by destruct Hd as (? & ? & _).
Qed.

Lemma turn_unstrayed fuel batch w s : J w s → stray w = false → forallb (registered w) batch = true →
  let '(_, w', s') := turn cfg_ self_ mclk clk fuel batch w s in J w' s' ∧ stray w' = false.
Proof.
  intros HJ Hs Hb. unfold turn.
  pose proof (next_timeout_JK (λ _ _, True) (λ _ _ _ _ H, H) w s (conj HJ I)) as [H1 _].
  destruct (event_loop.next_timeout_ms clk s) as [tmo s1].
  pose proof (dispatch_unstrayed batch w s1 H1 Hs Hb) as H2.
  destruct (dispatch _ _ _ _ _ _ _) as [w2 s2].
  by apply (fire_due_JK unstrayed); [|apply body_unstrayed|].
Qed.

Lemma cycles_turn fuel batch script w s : event_loop.running_ s = true →
  cycles fuel (event_loop.Ready batch :: script) w s =
  let '(drained, w, s) := turn cfg_ self_ mclk clk fuel batch w s in
  if drained then cycles fuel script w s
  else (event_loop.Diverged, w, s).
Proof.
  intros Hr. unfold turn, dispatch, fire_due_timers. cbn [event_loop.cycles]. rewrite Hr. cbn [negb].
  destruct (event_loop.next_timeout_ms clk s). by destruct (event_loop.dispatch _ _ _ _ _).
Qed.

Lemma cycles_unstrayed fuel script w s : J w s → stray w = false →
  delivered cfg_ self_ mclk clk fuel script w s = true →
  stray (cycles fuel script w s).1.2 = false.
Proof.
  revert w s; induction script as [|r script IH]; intros w s HJ Hs; cbn [delivered].
  { intros _. cbn [event_loop.cycles]. by destruct (negb _). }
  destruct (event_loop.running_ s) eqn:Hr; cbn [negb]; [|intros _; cbn [event_loop.cycles]; by rewrite Hr].
  pose proof (next_timeout_JK (λ _ _, True) (λ _ _ _ _ H, H) w s (conj HJ I)) as [H1 _].
  destruct r as [| |batch].
  - cbn [event_loop.cycles]. rewrite Hr. cbn [negb].
    destruct (event_loop.next_timeout_ms clk s) as [tmo s1]. by apply IH.
  - cbn [event_loop.cycles]. rewrite Hr. cbn [negb]. by destruct (event_loop.next_timeout_ms clk s).
  - intros [Hb Hd]%andb_true_iff. rewrite cycles_turn by done.
    pose proof (turn_unstrayed fuel batch w s HJ Hs Hb) as Ht.
    destruct (turn _ _ _ _ _ _ _ _) as [[[] w1] s1]; [|by destruct Ht]. destruct Ht. by apply IH.
Qed.

(** ** Every turn ends, and leaves no dead connection *)

Lemma owed_le m : (owed m <= 1)%nat.
Proof. unfold owed. destruct (reapScheduled_ m); lia. Qed.

(** Two units for a timer that is due before [T], which may have a connection
    reaped, one for a reap. *)
Definition work (T : Z) (s : loop) : nat := 2 * late T s + pending s.

Lemma work_pop T dl tm rest s : event_loop.timers_ s = (dl, tm) :: rest → dl < T →
  work T s = (work T (event_loop.with_timers s rest) +
    if reaping_entry (dl, tm) then 1 else 2)%nat.
Proof.
  intros Et Hdl. unfold work, late, pending. rewrite Et. simpl. rewrite !filter_cons. simpl.
  destruct (reaping_entry (dl, tm)); rewrite ?decide_True, ?decide_False by naive_solver; simpl; lia.
Qed.

Lemma work_bound T w s : J w s → (work T s <= 2 * length (event_loop.timers_ s) + 1)%nat.
Proof.
  intros (_ & Hq & _). unfold work. rewrite (q_pending _ _ Hq). pose proof (owed_le (peers_ w)).
  pose proof (length_filter (λ e, reaping_entry e = false ∧ e.1 < T) (event_loop.timers_ s)).
  unfold late. lia.
Qed.

(** A callback pays for what it arms. *)
Lemma invoke_work T dl tm rest now w s : event_loop.timers_ s = (dl, tm) :: rest → dl < T →
  T <= clk (event_loop.reads s) + D → J w s →
  let '(w', s') := event_loop.invoke clk (body cfg_ self_ mclk) tm dl now w
    (event_loop.with_timers s rest) in
  J w' s' ∧ (work T s' < work T s)%nat.
Proof.
  intros Et Hdl HT HJ. rewrite (work_pop T _ _ _ _ Et Hdl). unfold event_loop.invoke.
  destruct (event_loop.cb tm) as [c|] eqn:Hcb.
  2: { split; [by eapply J_drop|]. destruct (reaping_entry _); lia. }
  destruct (J_fire dl tm rest c now w s Et Hcb HJ) as [HJ' Hl]. specialize (Hl T HT).
  set (s0 := event_loop.with_firing _ _) in *.
  assert (reaping_entry (dl, tm) = true →
    owed (peers_ (event_loop.exec clk (body cfg_ self_ mclk c w) s0).1) = 0%nat) as Hre.
  { unfold reaping_entry. simpl. rewrite Hcb. destruct c as [[]| |]; try done. intros _.
    cbn [body]. unfold perform. by rewrite exec_perform_then. }
  destruct (event_loop.exec _ _ s0) as [w1 s1]. cbn [fst snd] in *. split; [done|].
  destruct HJ' as (_ & Hq & _). unfold work. rewrite Hl, (q_pending _ _ Hq).
  change (late T s0) with (late T (event_loop.with_timers s rest)).
  destruct (reaping_entry _); [rewrite Hre by done; lia|pose proof (owed_le (peers_ w1)); lia].
Qed.

Lemma fire_loop_ends T fuel now w s : J w s → T <= clk (event_loop.reads s) + D →
  (work T s <= fuel)%nat → now <= clk (pred (event_loop.reads s)) →
  let '(drained, _, s') := event_loop.fire_loop clk (body cfg_ self_ mclk) fuel now w s in
  clk (pred (event_loop.reads s')) < T → drained = true.
Proof.
  revert now w s. induction fuel as [|fuel IH]; intros now w s HJ HT Hf Hnow;
    pose proof (event_loop.fire_loop_monotone clk (body cfg_ self_ mclk)) as Hm;
    cbn [event_loop.fire_loop];
    destruct (event_loop.timers_ s) as [|[dl tm] rest] eqn:Et; try done;
    destruct (dl <=? now) eqn:Hdl; cbn [negb]; try done; apply Z.leb_le in Hdl.
  { intros Hlt. rewrite (work_pop T _ _ _ _ Et) in Hf by lia. destruct (reaping_entry _); lia. }
  case_bool_decide as Hin; [by destruct (J_skip dl tm rest w s Et Hin)|].
  destruct (Z.lt_ge_cases dl T) as [HdlT|HdlT].
  - pose proof (invoke_work T dl tm rest now w s Et HdlT HT HJ) as Hi.
    assert (event_loop.reads s <= event_loop.reads (event_loop.invoke clk (body cfg_ self_ mclk) tm dl now
      w (event_loop.with_timers s rest)).2)%nat as Hr.
    { unfold event_loop.invoke. destruct (event_loop.cb tm); [|done].
      apply (event_loop.exec_monotone clk _ (event_loop.with_firing (event_loop.with_timers s rest) _)). }
    destruct (event_loop.invoke _ _ _ _ _ _ _) as [w1 s1]. destruct Hi as [HJ1 Hw1].
    cbn [event_loop.read_clock snd] in *. apply IH.
    + by apply (J_read w1 s1).
    + simpl. pose proof (clk_steady (event_loop.reads s) (S (event_loop.reads s1)) ltac:(lia)). lia.
    + change (work T (event_loop.read_clock clk s1).2 <= fuel)%nat.
      change (work T s1 <= fuel)%nat. lia.
    + done.
  - specialize (Hm (S fuel) now w s) as [Hm _]. cbn [event_loop.fire_loop] in Hm. rewrite Et in Hm.
    rewrite (proj2 (Z.leb_le dl now)) in Hm by done. cbn [negb] in Hm.
    rewrite bool_decide_false in Hm by done.
    destruct (event_loop.invoke _ _ _ _ _ _ _) as [w1 s1]. cbn [event_loop.read_clock] in *.
    destruct (event_loop.fire_loop _ _ _ _ _ _) as [[dr w2] s2]. intros Hlt. exfalso.
    pose proof (clk_steady (pred (event_loop.reads s)) (pred (event_loop.reads s2)) ltac:(simpl in Hm; lia)). lia.
Qed.

(** After a sweep that was not held up no reap is pending. *)
Lemma sweep_settles fuel w s : J w s → (2 * length (event_loop.timers_ s) + 1 <= fuel)%nat →
  let '(drained, w', s') := fire_due_timers cfg_ self_ mclk clk fuel w s in
  clk (pred (event_loop.reads s')) < clk (event_loop.reads s) + D →
  drained = true ∧ owed (peers_ w') = 0%nat.
Proof.
  intros HJ Hf. pose proof (fire_due_JK (λ _ _, True) (λ _ _ _ _ H, H) (λ _ _ _ _ _, I) fuel w s (conj HJ I)) as HJ'.
  unfold fire_due_timers, event_loop.fire_due_timers in *. cbn [event_loop.read_clock] in *.
  set (s1 := event_loop.mk _ _ _ _ _ _ _ _) in *. pose proof (J_read w s HJ : J w s1) as HJ1.
  pose proof (event_loop.fire_loop_quiet clk (body cfg_ self_ mclk) fuel w s1 ltac:(simpl; lia)) as Hq.
  pose proof (fire_loop_ends (clk (event_loop.reads s) + D) fuel (clk (event_loop.reads s)) w s1 HJ1) as He.
  cbn [pred event_loop.reads s1] in Hq.
  ospecialize (He _ _ _); [| |done|].
  { simpl. pose proof (clk_steady (event_loop.reads s) (S (event_loop.reads s)) ltac:(lia)). lia. }
  { etrans; [by apply (work_bound _ w)|done]. }
  destruct (event_loop.fire_loop _ _ _ _ _ _) as [[dr w2] s2]. intros Hlt.
  specialize (He Hlt) as ->. split; [done|]. specialize (Hq eq_refl).
  destruct HJ' as [(_ & Hqu & _) _]. rewrite <-(q_pending _ _ Hqu). unfold pending.
  apply length_zero_iff_nil, elem_of_nil_inv. intros e [Hre He]%list_elem_of_filter.
  pose proof (q_past _ _ Hqu e He Hre) as Hp. pose proof (q_sorted _ _ Hqu) as Hs.
  unfold event_loop.quiet in Hq. destruct (event_loop.timers_ s2) as [|[dl tm] rest]; [by apply elem_of_nil in He|].
  simpl in Hs. apply StronglySorted_inv in Hs as [_ Hs]. apply elem_of_cons in He as [->|He]; [simpl in Hp; lia|].
  rewrite list.Forall_forall in Hs. specialize (Hs e.1 ltac:(by apply list_elem_of_fmap_2)). lia.
Qed.

(** ** The node in the loop *)

Lemma booted_J usable e wall rd1 rd2 mails jits : Forall punctual (0 :: jits) →
  let r := booted cfg_ self_ mclk clk usable e wall rd1 rd2 mails jits in J r.1 r.2 ∧ stray r.1 = false.
Proof.
  intros Hj. set (w0 := mk_node (make cfg_ self_ e wall rd1 rd2) mails jits false).
  assert (J w0 event_loop.init) as HJ.
  { split_and!; [apply make_tidy| |done]. split; try done; [constructor|]. intros e' He.
    by apply elem_of_nil in He. }
  unfold booted, boot. fold w0. cbv zeta. split.
  - assert (does (perform_then cfg_ self_ mclk [Start]
      (λ w, if usable then body cfg_ self_ mclk AnnounceTimer w else event_loop.Ret w) w0)
      event_loop.init) as [H _]; [|exact H].
    apply performs_does; [by apply performs_ops; [repeat constructor|]|].
    intros m s' Ht Hq. destruct usable; [apply announce_does|apply ret_does]; by split_and!.
  - rewrite exec_perform_then. destruct usable; [|done]. cbn [body]. unfold next_jitter. simpl.
    by destruct jits.
Qed.

(** *** Peers with a name of their own *)

Definition named (h : handler) : Prop :=
  match h with Connection p acts => Forall (λ a, manager_facts.names_itself (op_of p a)) acts | _ => True end.

(** The manager is where a sequence of its operations leads from the start. *)
Definition driven (m0 : peer_manager.t) (w : node) (s : loop) : Prop :=
  ∃ ops, Forall manager_facts.names_itself ops ∧ peers_ w = (run cfg_ self_ mclk ops m0).2.

Lemma run_app ops ops' m : (run cfg_ self_ mclk (ops ++ ops') m).2 =
  (run cfg_ self_ mclk ops' (run cfg_ self_ mclk ops m).2).2.
Proof.
  induction ops' as [|o ops' IH] using rev_ind; [by rewrite app_nil_r|].
  by rewrite app_assoc, !mailbox.run_snoc, IH.
Qed.

Section from.

Variable m0 : peer_manager.t.

Lemma perform_driven ops k w s : Forall manager_facts.names_itself ops → driven m0 w s →
  (∀ m s', peers_ (event_loop.exec clk (k (set_peers m w)) s').1 = m) →
  let r := event_loop.exec clk (perform_then cfg_ self_ mclk ops k w) s in driven m0 r.1 r.2.
Proof.
  intros Hops (ops0 & Hops0 & E) Hk. cbv zeta. rewrite exec_perform_then. exists (ops0 ++ ops).
  split; [by apply Forall_app|]. rewrite Hk, E. by rewrite run_app.
Qed.

Lemma io_driven h w s : named h → driven m0 w s →
  let r := event_loop.exec clk (on_io_events cfg_ self_ mclk h w) s in driven m0 r.1 r.2.
Proof.
  intros Hn Hs. destruct h as [ev script|ev ds|p acts]; cbn [on_io_events].
  3: case_bool_decide; [|done].
  all: apply perform_driven; [|done|done].
  - by apply Forall_map, Forall_true.
  - by apply Forall_map, Forall_true.
  - by apply Forall_map.
Qed.

Lemma originates_named cmds : Forall manager_facts.names_itself (omap originates cmds).
Proof.
  apply list.Forall_forall. intros o (c & _ & Ho)%list_elem_of_omap. destruct c; by simplify_eq/=.
Qed.

Lemma wake_driven w s : driven m0 w s →
  let r := event_loop.exec clk (drain_mailbox cfg_ self_ mclk w) s in driven m0 r.1 r.2.
Proof.
  intros Hs. unfold drain_mailbox, next_mailbox. destruct (mailboxes w) as [|cmds rest]; cbn [existsb].
  2: destruct (existsb is_stop cmds).
  all: apply perform_driven; [|done|done].
  2: apply Forall_app; split; [|by repeat constructor].
  all: apply originates_named.
Qed.

Lemma body_driven c w s : tidy (peers_ w) → driven m0 w s →
  let r := event_loop.exec clk (body cfg_ self_ mclk c w) s in driven m0 r.1 r.2.
Proof.
  intros _ Hs. destruct c as [[]| |]; cbn [body]; try (by apply perform_driven; [repeat constructor|done|]).
  unfold next_jitter. by destruct (jitters w).
Qed.

Lemma driven_same w s s' : event_loop.running_ s' = event_loop.running_ s → driven m0 w s → driven m0 w s'.
Proof. done. Qed.

(** *** A started node after any run *)

(** The peers of a script present identifiers of their own. *)
Definition named_event (e : event_loop.event (EV:=handler)) : Prop :=
  match e with event_loop.Io (Some h) => named h | _ => True end.
Definition named_result (r : event_loop.epoll_result (EV:=handler)) : Prop :=
  match r with event_loop.Ready batch => Forall named_event batch | _ => True end.

Lemma dispatch_driven batch w s : Forall named_event batch → JK (driven m0) w s →
  let '(w', s') := dispatch cfg_ self_ mclk clk batch w (event_loop.next_timeout_ms clk s).2 in
  JK (driven m0) w' s'.
Proof.
  intros Hb H. apply (dispatch_JK (driven m0) named driven_same); [|..|done|].
  - intros h w1 s1 Hh _ [_ ?]. by apply io_driven.
  - intros w1 s1 _ [_ ?]. by apply wake_driven.
  - by apply next_timeout_JK.
Qed.

Lemma fire_driven fuel w s : JK (driven m0) w s →
  let '(_, w', s') := fire_due_timers cfg_ self_ mclk clk fuel w s in JK (driven m0) w' s'.
Proof. apply fire_due_JK; [exact driven_same|exact body_driven]. Qed.

End from.

Lemma booted_driven usable e wall rd1 rd2 mails jits :
  let r := booted cfg_ self_ mclk clk usable e wall rd1 rd2 mails jits in
  driven (make cfg_ self_ e wall rd1 rd2) r.1 r.2.
Proof.
  unfold booted, boot. apply perform_driven; [by repeat constructor|by exists []|].
  intros m s. destruct usable; [|done]. cbn [body]. unfold next_jitter. simpl. by destruct jits.
Qed.

Lemma run_driven usable e wall rd1 rd2 mails jits fuel script :
  Forall punctual (0 :: jits) → Forall named_result script →
  let '(w0, s0) := booted cfg_ self_ mclk clk usable e wall rd1 rd2 mails jits in
  let '(_, w1, s1) := run_loop cfg_ self_ mclk clk fuel script w0 s0 in
  JK (driven (make cfg_ self_ e wall rd1 rd2)) w1 s1.
Proof.
  intros Hj Hn. pose proof (booted_J usable e wall rd1 rd2 mails jits Hj) as [HJ _].
  pose proof (booted_driven usable e wall rd1 rd2 mails jits) as HS.
  destruct (booted _ _ _ _ _ _ _ _ _ _ _) as [w0 s0]. cbn [fst snd] in *.
  apply (cycles_JK (driven (make cfg_ self_ e wall rd1 rd2)) named); [exact (driven_same _)|..|done|].
  - intros h w1 s1 Hh _ [_ ?]. by apply io_driven.
  - intros w1 s1 _ [_ ?]. by apply wake_driven.
  - exact (body_driven _).
  - split; [by apply J_running|exact HS].
Qed.

(** ** A stop *)

(** The manager is at rest, nothing exists, the loop is to end. *)
Definition over (w : node) (s : loop) : Prop :=
  manager_facts.at_rest (peers_ w) ∧ objects (peers_ w) = ∅ ∧ event_loop.running_ s = false.

Lemma timer_empty cb m : manager_facts.at_rest m → objects m = ∅ →
  objects (run cfg_ self_ mclk [OnTimer cb] m).2 = ∅.
Proof.
  intros (Hr & Hc & _) Ho. rewrite run_one. destruct cb; cbn [step on_timer].
  - unfold tick, mbind, M_bind, get. by rewrite Hr.
  - unfold reap. simpl. rewrite Ho. apply map_filter_empty.
  - unfold on_reconnect_timer, mbind, M_bind, get. by rewrite Hr.
  - done.
Qed.

Lemma body_over c w s : tidy (peers_ w) → over w s →
  let r := event_loop.exec clk (body cfg_ self_ mclk c w) s in over r.1 r.2.
Proof.
  intros _ (Hr & Ho & Hs). split; [|split].
  3: by apply event_loop.exec_monotone.
  - destruct c as [[]| |]; cbn [body]; unfold perform; try rewrite exec_perform_then;
      cbn -[run]; rewrite ?run_one; try (by apply manager_facts.timer_at_rest).
    unfold next_jitter. by destruct (jitters w).
  - destruct c as [[]| |]; cbn [body]; unfold perform; try rewrite exec_perform_then;
      try (by apply (timer_empty _ (peers_ w))).
    unfold next_jitter. by destruct (jitters w).
Qed.

Lemma over_same w s s' : event_loop.running_ s' = event_loop.running_ s → over w s → over w s'.
Proof. intros E (? & ? & ?). split_and!; [done|done|congruence]. Qed.

Lemma drain_over w s : J w s → existsb is_stop (next_mailbox w).1 = true →
  let r := event_loop.exec clk (drain_mailbox cfg_ self_ mclk w) s in over r.1 r.2.
Proof.
  intros HJ%next_mailbox_J Hst. unfold drain_mailbox. destruct (next_mailbox w) as [cmds w1].
  cbn [fst snd] in *. rewrite Hst. cbv zeta. rewrite exec_perform_then.
  destruct (performs_shutdown (omap originates cmds) w1 s (originates_harmless cmds) HJ) as [_ Ho].
  split_and!; [|exact Ho|].
  - cbn [event_loop.exec fst set_peers peers_]. rewrite mailbox.run_snoc. apply manager_facts.shutdown_at_rest.
  - cbn [event_loop.exec snd]. apply stop_same.
Qed.

Lemma dispatch_stopped batch w s : event_loop.running_ s = false →
  dispatch cfg_ self_ mclk clk batch w s = (w, s).
Proof. intros Hr. unfold dispatch. destruct batch; [done|]. cbn [event_loop.dispatch]. by rewrite Hr. Qed.

(** The events behind the wakeup are not dispatched. *)
Lemma stop_dispatch batch w s : J w s → event_loop.running_ s = true →
  existsb is_stop (next_mailbox w).1 = true →
  let r := dispatch cfg_ self_ mclk clk (event_loop.Wake :: batch) w s in
  r = event_loop.exec clk (drain_mailbox cfg_ self_ mclk w) (event_loop.drain_wake s) ∧ over r.1 r.2.
Proof.
  intros HJ Hr Hst. pose proof (drain_over w (event_loop.drain_wake s) (J_eventFd w s 0 HJ) Hst) as Ho.
  assert (dispatch cfg_ self_ mclk clk (event_loop.Wake :: batch) w s =
    event_loop.exec clk (drain_mailbox cfg_ self_ mclk w) (event_loop.drain_wake s)) as E.
  { unfold dispatch. cbn [event_loop.dispatch]. rewrite Hr. cbn [negb].
    destruct (event_loop.exec _ _ _) as [w1 s1] eqn:Ex. apply dispatch_stopped, Ho. }
  cbv zeta. rewrite E. split; [done|exact Ho].
Qed.

End facts.

(** ** Properties *)

(** Some lower bound of the delays exists. *)
Lemma lower_bound (l : list Z) : ∃ D, Forall (λ x, D <= x) l.
Proof.
  induction l as [|x l [D IH]]; [by exists 0|]. exists (Z.min x D). constructor; [lia|].
  eapply list.Forall_impl; [exact IH|]. intros y. simpl. lia.
Qed.

Lemma backoff_least cfg_ n draw : Z.min 0 (reconnectMax cfg_) <= backoff cfg_ n draw.
Proof.
  unfold backoff. set (delay := i64 _). 
  set (d := if (reconnectMax cfg_ <? delay) || (delay <? 0) then reconnectMax cfg_ else delay).
  assert (Z.min 0 (reconnectMax cfg_) <= d).
  { subst d. destruct (Z.ltb_spec (reconnectMax cfg_) delay), (Z.ltb_spec delay 0); simpl; lia. }
  pose proof (Z.mod_pos_bound draw (Z.max 1 (Z.quot d 5) + 1)). lia.
Qed.

Lemma some_patience cfg_ jits : ∃ D, patient cfg_ D ∧ Forall (punctual cfg_ D) (0 :: jits).
Proof.
  destruct (lower_bound ([ms (heartbeatInterval cfg_); ms (Z.min 0 (reconnectMax cfg_)); sweep_period cfg_] ++
    map (λ j, ms (discovery.announce_delay (announceInterval cfg_) j)) (0 :: jits))) as [D HD].
  apply Forall_app in HD as [HD Hj]. exists D. split; [|exact (proj1 (Forall_map _ _ _) Hj)].
  rewrite !list.Forall_cons in HD. destruct HD as (H1 & H2 & H3 & _). split; [done| |done].
  intros n draw _. pose proof (backoff_least cfg_ n draw). unfold ms in *. lia.
Qed.

(** Whatever the loop does, the manager is where a sequence of its operations
    leads, so all that is known of such sequences is true of the running node. *)
Lemma loop_drives_manager {Sod : Sodium} cfg_ self_ mclk clk usable e wall rd1 rd2 mails jits fuel script :
  (∀ i j, (i <= j)%nat → clk i <= clk j) → Forall named_result script →
  let r := booted cfg_ self_ mclk clk usable e wall rd1 rd2 mails jits in
  driven cfg_ self_ mclk (make cfg_ self_ e wall rd1 rd2)
    (run_loop cfg_ self_ mclk clk fuel script r.1 r.2).1.2
    (run_loop cfg_ self_ mclk clk fuel script r.1 r.2).2.
Proof.
  intros Hclk Hn. destruct (some_patience cfg_ jits) as (D & Hp & Hj).
  pose proof (run_driven cfg_ self_ mclk clk D Hclk Hp usable e wall rd1 rd2 mails jits fuel script Hj Hn) as H.
  cbv zeta. destruct (booted _ _ _ _ _ _ _ _ _ _ _) as [w0 s0]. cbn [fst snd].
  destruct (run_loop _ _ _ _ _ _ _ _) as [[out w1] s1]. apply H.
Qed.

(** [C15] No event reaches a destroyed connection.  In every run of a started
    node in which the kernel reports, with each batch, only connections that
    are registered when it returns the batch, no handler of a batch is called
    on a connection that an earlier event of the batch, a command of the
    application or a failed send has destroyed meanwhile; and inside of the
    handlers no destroyed connection is used either, provided that no peer
    presents the all-zero identifier.  It rests on the deferred reaping and on
    the test of [running_] between two events. *)
Theorem no_event_strays {Sod : Sodium} cfg_ self_ mclk clk usable e wall rd1 rd2 mails jits fuel script :
  (∀ i j, (i <= j)%nat → clk i <= clk j) →
  let r := booted cfg_ self_ mclk clk usable e wall rd1 rd2 mails jits in
  let w := (run_loop cfg_ self_ mclk clk fuel script r.1 r.2).1.2 in
  (delivered cfg_ self_ mclk clk fuel script r.1 (event_loop.with_running r.2 true) = true →
     stray w = false) ∧
  (Forall named_result script → dangled (obs (peers_ w)) = false).
Proof.
  intros Hclk. destruct (some_patience cfg_ jits) as (D & Hp & Hj).
  pose proof (booted_J cfg_ self_ mclk clk D Hclk Hp usable e wall rd1 rd2 mails jits Hj) as [HJ Hs].
  cbv zeta. split.
  - destruct (booted _ _ _ _ _ _ _ _ _ _ _) as [w s]. cbn [fst snd] in *. intros Hd.
    refine (cycles_unstrayed cfg_ self_ mclk clk D Hclk Hp fuel script w _ _ Hs Hd).
    exact (J_running cfg_ clk D Hclk w s true HJ).
  - intros Hn. destruct (loop_drives_manager cfg_ self_ mclk clk usable e wall rd1 rd2 mails jits fuel
      script Hclk Hn) as (ops & Hops & E). rewrite E.
    destruct (manager_facts.run_sound cfg_ self_ mclk ops _ Hops
      (manager_facts.make_sound cfg_ self_ e wall rd1 rd2)) as (Hi & _). apply Hi.
Qed.

(** [C16] Nothing dead is kept.  Take a started node after any run, and one
    more turn of its loop with any events.  If all delays but that of the reap
    are at least [D] and the sweep takes less than [D], then two turns of the
    sweep per pending timer and one more are enough for it to end; afterwards
    the list of connections to reap is empty, and every connection object that
    exists is owned by [conns_] and not dead, whatever died in the events, in
    the timers, in the reaction to another death or in its constructor.  (No
    peer presents the all-zero identifier.) *)
Theorem turns_leave_no_dead {Sod : Sodium} cfg_ self_ mclk clk D usable e wall rd1 rd2 mails jits
    fuel0 script batch fuel :
  (∀ i j, (i <= j)%nat → clk i <= clk j) →
  patient cfg_ D → Forall (punctual cfg_ D) (0 :: jits) →
  Forall named_result script → Forall named_event batch →
  let r0 := booted cfg_ self_ mclk clk usable e wall rd1 rd2 mails jits in
  let r1 := run_loop cfg_ self_ mclk clk fuel0 script r0.1 r0.2 in
  let r2 := dispatch cfg_ self_ mclk clk batch r1.1.2 (event_loop.next_timeout_ms clk r1.2).2 in
  let r3 := fire_due_timers cfg_ self_ mclk clk fuel r2.1 r2.2 in
  (2 * length (event_loop.timers_ r2.2) + 1 <= fuel)%nat →
  clk (pred (event_loop.reads r3.2)) < clk (event_loop.reads r2.2) + D →
  r3.1.1 = true ∧ clean (peers_ r3.1.2).
Proof.
  intros Hclk Hp Hj Hn Hb.
  pose proof (run_driven cfg_ self_ mclk clk D Hclk Hp usable e wall rd1 rd2 mails jits fuel0 script Hj Hn) as H1.
  cbv zeta. destruct (booted _ _ _ _ _ _ _ _ _ _ _) as [w0 s0]. cbn [fst snd].
  destruct (run_loop _ _ _ _ _ _ _ _) as [[out w1] s1]. cbn [fst snd].
  pose proof (dispatch_driven cfg_ self_ mclk clk D Hclk Hp _ batch w1 s1 Hb H1) as H2.
  destruct (dispatch _ _ _ _ batch w1 _) as [w2 s2]. cbn [fst snd].
  pose proof (fire_driven cfg_ self_ mclk clk D Hclk Hp _ fuel w2 s2 H2) as H3.
  pose proof (sweep_settles cfg_ self_ mclk clk D Hclk Hp fuel w2 s2 (proj1 H2)) as H4.
  destruct (fire_due_timers _ _ _ _ fuel w2 s2) as [[dr w3] s3]. destruct H3 as [(Ht & _) (ops & Hops & E)].
  destruct (manager_facts.run_sound cfg_ self_ mclk ops _ Hops
    (manager_facts.make_sound cfg_ self_ e wall rd1 rd2)) as (_ & Hst & _). rewrite <-E in Hst.
  intros Hf Hlt. destruct (H4 Hf Hlt) as [-> Ho]. split; [done|]. by apply tidy_clean.
Qed.

(** [C17] A stop ends the loop and leaves nothing behind.  When a running node
    is woken with a stop in its mailbox, the events that [epoll_wait] returned
    behind the wakeup are not dispatched; unless the last sweep is held up, it
    ends, the loop leaves [run] whatever else the kernel has in store, the
    manager is at rest, and no connection object exists any more. *)
Theorem stop_leaves_nothing {Sod : Sodium} cfg_ self_ mclk clk D usable e wall rd1 rd2 mails jits
    fuel0 script batch fuel later :
  (∀ i j, (i <= j)%nat → clk i <= clk j) →
  patient cfg_ D → Forall (punctual cfg_ D) (0 :: jits) → Forall named_result script →
  let r0 := booted cfg_ self_ mclk clk usable e wall rd1 rd2 mails jits in
  let r1 := run_loop cfg_ self_ mclk clk fuel0 script r0.1 r0.2 in
  event_loop.running_ r1.2 = true → existsb is_stop (next_mailbox r1.1.2).1 = true →
  let r2 := dispatch cfg_ self_ mclk clk [event_loop.Wake] r1.1.2
    (event_loop.next_timeout_ms clk r1.2).2 in
  let r3 := fire_due_timers cfg_ self_ mclk clk fuel r2.1 r2.2 in
  (2 * length (event_loop.timers_ r2.2) + 1 <= fuel)%nat →
  clk (pred (event_loop.reads r3.2)) < clk (event_loop.reads r2.2) + D →
  event_loop.cycles clk (body cfg_ self_ mclk) (on_io_events cfg_ self_ mclk)
    (Some (drain_mailbox cfg_ self_ mclk)) fuel
    (event_loop.Ready (event_loop.Wake :: batch) :: later) r1.1.2 r1.2 =
    (event_loop.Stopped, r3.1.2, r3.2) ∧
  manager_facts.at_rest (peers_ r3.1.2) ∧ objects (peers_ r3.1.2) = ∅.
Proof.
  intros Hclk Hp Hj Hn.
  pose proof (run_driven cfg_ self_ mclk clk D Hclk Hp usable e wall rd1 rd2 mails jits fuel0 script Hj Hn) as H1.
  cbv zeta. destruct (booted _ _ _ _ _ _ _ _ _ _ _) as [w0 s0]. cbn [fst snd].
  destruct (run_loop _ _ _ _ _ _ _ _) as [[out w1] s1]. cbn [fst snd]. intros Hr Hst.
  destruct (next_timeout_JK cfg_ clk D Hclk _ (driven_same cfg_ self_ mclk _) w1 s1 H1) as [HJ _].
  assert (event_loop.running_ (event_loop.next_timeout_ms clk s1).2 = true) as Hr1.
  { apply (event_loop.next_timeout_invariant clk (λ (_ : node) s, event_loop.running_ s = true)); [done|by exact w1|done]. }
  destruct (stop_dispatch cfg_ self_ mclk clk D Hclk Hp [] w1 _ HJ Hr1 Hst) as [E0 Hover].
  destruct (stop_dispatch cfg_ self_ mclk clk D Hclk Hp batch w1 _ HJ Hr1 Hst) as [E1 _].
  rewrite <-E0 in E1. rewrite cycles_turn by done. unfold turn.
  pose proof (dispatch_driven cfg_ self_ mclk clk D Hclk Hp _ [event_loop.Wake] w1 s1
    ltac:(by repeat constructor) H1) as H2.
  destruct (event_loop.next_timeout_ms clk s1) as [tmo s1']. cbn [snd] in *. rewrite E1.
  destruct (dispatch _ _ _ _ [event_loop.Wake] w1 s1') as [w2 s2]. destruct H2 as [H2 _].
  cbn [fst snd] in *.
  pose proof (fire_due_JK cfg_ self_ mclk clk D Hclk Hp over over_same (body_over cfg_ self_ mclk clk)
    fuel w2 s2 (conj H2 Hover)) as H3.
  pose proof (sweep_settles cfg_ self_ mclk clk D Hclk Hp fuel w2 s2 H2) as H4.
  destruct (fire_due_timers _ _ _ _ fuel w2 s2) as [[dr w3] s3]. destruct H3 as [_ (Hrest & Ho & Hr3)].
  intros Hf Hlt. destruct (H4 Hf Hlt) as [-> _]. split_and!; [|done|done].
  destruct later; cbn [event_loop.cycles]; by rewrite Hr3.
Qed.

Lemma run_cons {Sod : Sodium} cfg_ self_ clk o ops m : (run cfg_ self_ clk (o :: ops) m).2 =
  (run cfg_ self_ clk ops (step cfg_ self_ clk (on_peer_closed cfg_ clk) o m).2).2.
Proof. rewrite <-(run_one cfg_ self_ clk o m). exact (run_app cfg_ self_ clk [o] ops m). Qed.

Lemma mailbox_executes {Sod : Sodium} cfg_ self_ clk cmds b s : mailbox.io s = mailbox.Executing cmds b →
  ∃ s', mailbox.run_acts cfg_ self_ clk
      (repeat mailbox.IoExec (length cmds) ++ [mailbox.IoFinish]) s = Some s' ∧
    mailbox.peers_ s' = (run cfg_ self_ clk
      (omap originates cmds ++ if b || existsb is_stop cmds then [Shutdown] else []) (mailbox.peers_ s)).2 ∧
    mailbox.io s' = if b || existsb is_stop cmds then mailbox.Stopping else mailbox.Dispatching.
Proof.
  revert b s. induction cmds as [|c cmds IH]; intros b s Hs; cbn [repeat length app];
    cbn [mailbox.run_acts mailbox.act].
  - unfold mailbox.io_finish. rewrite Hs. eexists. split; [done|].
    rewrite orb_false_r. destruct b; [|done]. split; [|done]. symmetry. exact (run_one _ _ _ Shutdown _).
  - unfold mailbox.io_exec at 1. rewrite Hs. cbn [mbind option_bind].
    destruct c as [payload|dst payload|]; cbn zeta iota.
    1-2: match goal with |- context[mailbox.run_acts _ _ _ _ ?x] =>
      destruct (IH b x eq_refl) as (s' & H1 & H2 & H3) end; exists s'; split; [exact H1|];
      split; [|exact H3]; rewrite H2; cbn [omap list_omap originates existsb is_stop app];
      by rewrite run_cons.
    destruct (IH true (mailbox.set_io (mailbox.Executing cmds true)
      (mailbox.note_executed mailbox.CmdStop s)) eq_refl) as (s' & H1 & H2 & H3).
    exists s'. split; [exact H1|]. rewrite H2, H3. cbn [existsb is_stop]. by rewrite orb_true_r.
Qed.

(** The drain of the mailbox here is the one of the interleaved model: the swap,
    the commands one after the other, and the end of the handler. *)
Lemma drain_is_mailbox {Sod : Sodium} cfg_ self_ clk s : mailbox.io s = mailbox.Drained →
  let cmds := mailbox.mailbox_ s in
  ∃ s', mailbox.run_acts cfg_ self_ clk
      (mailbox.IoSwap :: repeat mailbox.IoExec (length cmds) ++ [mailbox.IoFinish]) s = Some s' ∧
    mailbox.peers_ s' = (run cfg_ self_ clk
      (omap originates cmds ++ if existsb is_stop cmds then [Shutdown] else []) (mailbox.peers_ s)).2 ∧
    mailbox.io s' = if existsb is_stop cmds then mailbox.Stopping else mailbox.Dispatching.
Proof.
  intros Hio cmds.
  cbn [mailbox.run_acts mailbox.act]. unfold mailbox.io_swap. rewrite Hio. cbn [mbind option_bind].
  destruct (mailbox_executes cfg_ self_ clk cmds false (mailbox.mk (mailbox.running_ s) (mailbox.threads s) (mailbox.eventFd_ s) []
    (mailbox.Executing (mailbox.mailbox_ s) false) (mailbox.peers_ s) (mailbox.accepted s)
    (mailbox.posted s) (mailbox.executed s) (mailbox.ops s)) eq_refl) as (s' & H1 & H2 & H3). eauto.
Qed.

(** ** A run *)

Lemma backoff_base cfg_ n draw : 0 <= n → 0 <= reconnectBase cfg_ < 2 ^ 43 →
  reconnectBase cfg_ <= reconnectMax cfg_ → reconnectBase cfg_ <= backoff cfg_ n draw.
Proof.
  intros Hn Hb Hm. unfold backoff. rewrite Z.shiftl_mul_pow2 by lia.
  set (x := reconnectBase cfg_ * 2 ^ Z.min n 20).
  assert (reconnectBase cfg_ <= x < 2 ^ 63) as Hx.
  { assert (2 ^ Z.min n 20 <= 2 ^ 20) by (apply Z.pow_le_mono_r; lia).
    pose proof (Z.pow_pos_nonneg 2 (Z.min n 20)). subst x. nia. }
  assert (i64 x = x) as -> by (unfold i64; rewrite Z.mod_small; lia).
  set (d := if (reconnectMax cfg_ <? x) || (x <? 0) then reconnectMax cfg_ else x).
  assert (reconnectBase cfg_ <= d).
  { subst d. destruct (Z.ltb_spec (reconnectMax cfg_) x), (Z.ltb_spec x 0); simpl; lia. }
  pose proof (Z.mod_pos_bound draw (Z.max 1 (Z.quot d 5) + 1)). lia.
Qed.

(** With the default configuration every delay is at least 100 ms. *)
Lemma default_patient id : patient (default_config id) (ms 100).
Proof.
  split; [vm_compute; discriminate| |vm_compute; discriminate]. intros n draw Hn.
  pose proof (backoff_base (default_config id) n draw Hn ltac:(vm_compute; split; congruence)
    ltac:(vm_compute; congruence)) as H. unfold ms. simpl in H. lia.
Qed.

#[local] Existing Instance crypto.toy_sodium.
Import manager_facts.

(** Readings of the loop are a microsecond apart. *)
Definition sample_steady (n : nat) : Z := 1000 * Z.of_nat n.

Lemma sample_steady_ok i j : (i <= j)%nat → sample_steady i <= sample_steady j.
Proof. unfold sample_steady. lia. Qed.

(** Two peers connect.  Then, in one batch, the application's broadcast breaks
    the link to the second, whose own event follows.  At last the application
    stops the node. *)
Definition sample_script : list (event_loop.epoll_result (EV:=handler)) :=
  [event_loop.Ready [event_loop.Io (Some (Listener 1 [listener.Accepted 5 (1, 2)]))];
   event_loop.Ready [event_loop.Io (Some (Connection 0 [GotHandshake (sample_hello (sample_id 2))]));
                     event_loop.Io (Some (Listener 1 [listener.Accepted 6 (1, 3)]))];
   event_loop.Eintr;
   event_loop.Ready [event_loop.Io (Some (Connection 1 [GotHandshake (sample_hello (sample_id 3))]))]].

Definition sample_break : list (event_loop.event (EV:=handler)) :=
  [event_loop.Wake; event_loop.Io (Some (Connection 1 [Received]));
   event_loop.Io (Some (Connection 0 [Received]))].

Definition sample_mails : list (list mailbox.command) :=
  [[mailbox.CmdBroadcast [Byte.x01]]; [mailbox.CmdStop]].

Definition sample_boot : node * loop :=
  booted sample_config (sample_node 1) sample_clock sample_steady true sample_breaks 0 0 0 sample_mails [5].

Definition sample_run (script : list (event_loop.epoll_result (EV:=handler))) :=
  run_loop sample_config (sample_node 1) sample_clock sample_steady 20 script sample_boot.1 sample_boot.2.

Lemma sample_named : Forall named_result (sample_script ++ [event_loop.Ready sample_break]).
Proof. repeat constructor. Qed.

Lemma sample_punctual : Forall (punctual sample_config (ms 100)) [0; 5].
Proof. repeat constructor; vm_compute; discriminate. Qed.

Lemma no_event_strays_witness :
  let w := (sample_run (sample_script ++ [event_loop.Ready sample_break])).1.2 in
  size (objects (peers_ w)) = 1%nat ∧ stray w = false ∧ dangled (obs (peers_ w)) = false.
Proof.
  intros w. split; [vm_compute; reflexivity|].
  destruct (no_event_strays sample_config (sample_node 1) sample_clock sample_steady true sample_breaks
    0 0 0 sample_mails [5] 20 (sample_script ++ [event_loop.Ready sample_break]) sample_steady_ok)
    as [Hs Hd].
  split; [|exact (Hd sample_named)]. apply Hs. vm_compute. reflexivity.
Defined.

(** The turn with the broken link: two links before, one after. *)
Lemma turns_leave_no_dead_witness :
  let r1 := sample_run sample_script in
  let r2 := dispatch sample_config (sample_node 1) sample_clock sample_steady sample_break r1.1.2
    (event_loop.next_timeout_ms sample_steady r1.2).2 in
  let r3 := fire_due_timers sample_config (sample_node 1) sample_clock sample_steady 20 r2.1 r2.2 in
  reap_ (peers_ r2.1) = [1%nat] ∧ r3.1.1 = true ∧ clean (peers_ r3.1.2).
Proof.
  cbv zeta. split; [vm_compute; reflexivity|]. unfold sample_run, sample_boot.
  pose proof (turns_leave_no_dead sample_config (sample_node 1) sample_clock sample_steady (ms 100) true
    sample_breaks 0 0 0 sample_mails [5] 20 sample_script sample_break 20 sample_steady_ok
    (default_patient _) sample_punctual) as H. cbv zeta in H. apply H; clear H.
  - repeat constructor.
  - repeat constructor.
  - vm_compute. lia.
  - vm_compute. reflexivity.
Defined.

Lemma stop_leaves_nothing_witness :
  let r1 := sample_run (sample_script ++ [event_loop.Ready sample_break]) in
  let r2 := dispatch sample_config (sample_node 1) sample_clock sample_steady [event_loop.Wake] r1.1.2
    (event_loop.next_timeout_ms sample_steady r1.2).2 in
  let r3 := fire_due_timers sample_config (sample_node 1) sample_clock sample_steady 20 r2.1 r2.2 in
  size (objects (peers_ r1.1.2)) = 1%nat ∧
  manager_facts.at_rest (peers_ r3.1.2) ∧ objects (peers_ r3.1.2) = ∅.
Proof.
  cbv zeta. split; [vm_compute; reflexivity|]. unfold sample_run, sample_boot.
  pose proof (stop_leaves_nothing sample_config (sample_node 1) sample_clock sample_steady (ms 100) true
    sample_breaks 0 0 0 sample_mails [5] 20 (sample_script ++ [event_loop.Ready sample_break]) [] 20 []
    sample_steady_ok (default_patient _) sample_punctual sample_named) as H. cbv zeta in H.
  apply H; clear H.
  - vm_compute. reflexivity.
  - vm_compute. reflexivity.
  - vm_compute. lia.
  - vm_compute. reflexivity.
Defined.

End reactor.
