(* ===== verification/MeshFacade.v ===== *)
(** * The public facade ([src/include/multimaster/mesh.hpp], [src/src/mesh.cpp])

    An application holds [mesh] objects, each of which owns a [mesh_impl]
    through a [unique_ptr].  This file models what the application can do with
    them: constructing, moving, assigning and destroying handles, every
    forwarded call, from the application's thread or from a callback on the IO
    thread of some node, with [mesh_impl::stop] and the destructor as they deal
    with the IO thread (joining blocks the caller).  What can go wrong is
    explicit: using a moved-from handle, destroying a [std::thread] that is
    still joinable, joining a thread twice at a time, replacing the callbacks
    of a running node.  The theorem says which programs are safe from all of
    it, and that those never leak or hang.

    The node behind a handle is the [startup] state of MeshImpl.v, its
    snapshots are those of MeshDelegate.v, and the commands wait in the mailbox
    whose interleavings [mailbox] covers; here a call is one step, and so is
    the IO thread's emptying of the mailbox. *)
From Stdlib Require Import ZArith Lia.
From Stdlib.Strings Require Import Byte.
From stdpp Require Import base gmap sets list strings numbers option.
From S2P Require Import Prelude PeerId Wire Config Socket Crypto Identity Discovery MeshConfig PeerConnection PeerManager PeerManagerFacts MeshDelegate MeshImpl.

Module facade.

(** ** A node *)

(** [ioThread_]: never spawned, in [loop_.run()], past it, joined. *)
Inductive io_thread := NoThread | Running | Exited | Joined.

#[global] Instance io_thread_eq_dec : EqDecision io_thread.
Proof. solve_decision. Defined.

(** A [mesh_impl]; [heard] is what the manager told it, latest first. *)
Record impl := mk_impl {
  node : startup.t;
  cb_ : mesh_delegate.callbacks;
  heard : list peer_manager.event;
  mailbox_ : list mailbox.command;
  ioThread_ : io_thread;
}.

(** Who calls: the application's thread, or a callback on the IO thread of a
    node. *)
Inductive caller := App | Io (m : nat).

#[global] Instance caller_eq_dec : EqDecision caller.
Proof. solve_decision. Defined.

#[global] Instance caller_countable : Countable caller.
Proof.
  refine (inj_countable' (λ c, match c with App => None | Io m => Some m end)
            (λ o, match o with None => App | Some m => Io m end) _).
  by intros [].
Defined.

Definition no_callbacks : mesh_delegate.callbacks :=
  mesh_delegate.mk_callbacks false false false false false false false false.

Definition make (cfg : mesh_config) : impl := mk_impl (startup.make cfg) no_callbacks [] [] NoThread.

Definition joinable (t : io_thread) : bool := bool_decide (t = Running ∨ t = Exited).

Definition started_ (i : impl) : bool := startup.started_ (node i).
Definition running_ (i : impl) : bool := startup.running_ (node i).

Definition set_running (b : bool) (n : startup.t) : startup.t :=
  startup.mk (startup.node n) (startup.started_ n) b (startup.listenPort_ n) (startup.peers_ n)
    (startup.discovery_ n).

Definition set_thread (t : io_thread) (i : impl) : impl :=
  mk_impl (node i) (cb_ i) (heard i) (mailbox_ i) t.

Definition post (c : mailbox.command) (i : impl) : impl :=
  mk_impl (node i) (cb_ i) (heard i) (mailbox_ i ++ [c]) (ioThread_ i).

(** [mesh_impl::broadcast] and [send]. *)
Definition impl_broadcast (data : list byte) (i : impl) : impl :=
  if negb (running_ i) then i else post (mailbox.CmdBroadcast data) i.
Definition impl_send (dst : peer_id) (data : list byte) (i : impl) : impl :=
  if negb (running_ i) then i else post (mailbox.CmdTargeted dst data) i.

(** [mesh_impl::stop] of node [m] up to the join; whether the caller joins. *)
Definition impl_stop (τ : caller) (m : nat) (i : impl) : impl * bool :=
  if negb (started_ i) then (i, false)
  else if negb (running_ i) then
    (i, joinable (ioThread_ i) && bool_decide (τ ≠ Io m))
  else
    let i := mk_impl (set_running false (node i)) (cb_ i) (heard i) (mailbox_ i) (ioThread_ i) in
    let i := post mailbox.CmdStop i in
    if bool_decide (τ = Io m) then (i, false) else (i, joinable (ioThread_ i)).

Section start.

Context `{!Sodium}.

(** [mesh_impl::start] with its last statement: the thread is created when
    [running_] has been set; [refused] is the system's error if it has none. *)
Definition impl_start (e : startup.env) (refused : option (Z * list byte)) (d : disk.t) (i : impl)
    : startup.outcome * (disk.t * impl) :=
  let '(out, (d, n)) := startup.start e d (node i) in
  let reach := negb (started_ i) && startup.running_ n in
  let i' t := mk_impl n (cb_ i) (heard i) (mailbox_ i) t in
  if negb reach then (out, (d, i' (ioThread_ i)))
  else match refused with
  | None => (out, (d, i' Running))
  | Some (code, what) => (startup.Threw code what, (d, i' (ioThread_ i)))
  end.

End start.

(** ** The application *)

Inductive fault := NullDeref | Terminate | DoubleJoin | Race | UseAfterFree.

(** What follows a join: returning to the application, or the rest of the
    destructor, of a handle that goes away or of one that was assigned to. *)
Inductive after := Return | Delete (gone : option nat).

(** The handles in scope (null when moved from), the heap, the threads blocked
    in a join, the files. *)
Record t := mk {
  handles : gmap nat (option nat);
  impls : gmap nat impl;
  busy : gmap caller (nat * after);
  next : nat;
  files : disk.t;
}.

Inductive call :=
  | SetCallbacks (cb : mesh_delegate.callbacks)
  | Start (e : startup.env) (refused : option (Z * list byte))
  | Stop
  | Broadcast (data : list byte)
  | Send (dst : peer_id) (data : list byte).

Inductive action :=
  | New (τ : caller) (h : nat) (cfg : mesh_config)
  | MoveNew (τ : caller) (h h' : nat)
  | MoveAssign (τ : caller) (h h' : nat)
  | Destroy (τ : caller) (h : nat)
  | Call (τ : caller) (h : nat) (c : call)
  | JoinDone (τ : caller)
  | IoDrain (m : nat)
  | IoHear (m : nat) (e : peer_manager.event).

Definition set_impl (m : nat) (i : impl) (s : t) : t :=
  mk (handles s) (<[m := i]> (impls s)) (busy s) (next s) (files s).
Definition set_handles (hs : gmap nat (option nat)) (s : t) : t :=
  mk hs (impls s) (busy s) (next s) (files s).
Definition set_busy (b : gmap caller (nat * after)) (s : t) : t :=
  mk (handles s) (impls s) b (next s) (files s).

(** [impl_->], on a handle in scope. *)
Definition deref (h : nat) (s : t) : fault + nat * impl :=
  match handles s !! h with
  | Some (Some m) => match impls s !! m with Some i => inr (m, i) | None => inl UseAfterFree end
  | _ => inl NullDeref
  end.

(** The members of a [mesh_impl] after the body of its destructor: a joinable
    [std::thread] terminates the program. *)
Definition delete_impl (m : nat) (gone : option nat) (s : t) : fault + t :=
  match impls s !! m with
  | None => inl UseAfterFree
  | Some i =>
      if joinable (ioThread_ i) then inl Terminate
      else inr (mk (match gone with Some h => delete h (handles s) | None => handles s end)
                  (delete m (impls s)) (busy s) (next s) (files s))
  end.

Definition finish (m : nat) (k : after) (s : t) : fault + t :=
  match k with Return => inr s | Delete gone => delete_impl m gone s end.

(** [stop] by [τ], and [k] when it has returned. *)
Definition stop_then (τ : caller) (m : nat) (k : after) (i : impl) (s : t) : fault + t :=
  let '(i, joins) := impl_stop τ m i in
  let s := set_impl m i s in
  if negb joins then finish m k s
  else if bool_decide (map_Forall (λ _ x, x.1 ≠ m) (busy s))
  then inr (set_busy (<[τ := (m, k)]> (busy s)) s)
  else inl DoubleJoin.

(** [~mesh], and the deletion of what a handle held before it was assigned to. *)
Definition destroy_impl (τ : caller) (m : nat) (gone : option nat) (s : t) : fault + t :=
  match impls s !! m with
  | None => inl UseAfterFree
  | Some i => stop_then τ m (Delete gone) i s
  end.

(** A thread takes part while it is not blocked; an IO thread while it runs. *)
Definition enabled (τ : caller) (s : t) : bool :=
  bool_decide (busy s !! τ = None) &&
  match τ with
  | App => true
  | Io m => match impls s !! m with Some i => bool_decide (ioThread_ i = Running) | None => false end
  end.

Section app.

Context `{!Sodium}.

(** The constructor, and the moves of the [unique_ptr].  Assignment takes the
    source over before it deletes what it held. *)
Definition do_new (h : nat) (cfg : mesh_config) (s : t) : option (fault + t) :=
  match handles s !! h with
  | Some _ => None
  | None => Some (inr (mk (<[h := Some (next s)]> (handles s)) (<[next s := make cfg]> (impls s))
                         (busy s) (S (next s)) (files s)))
  end.

Definition do_move_new (h h' : nat) (s : t) : option (fault + t) :=
  match handles s !! h, handles s !! h' with
  | None, Some p => Some (inr (set_handles (<[h := p]> (<[h' := None]> (handles s))) s))
  | _, _ => None
  end.

Definition do_move_assign (τ : caller) (h h' : nat) (s : t) : option (fault + t) :=
  match handles s !! h, handles s !! h' with
  | Some old, Some p =>
      if bool_decide (h = h') then Some (inr s)
      else
        let s := set_handles (<[h := p]> (<[h' := None]> (handles s))) s in
        Some (match old with Some m => destroy_impl τ m None s | None => inr s end)
  | _, _ => None
  end.

Definition do_destroy (τ : caller) (h : nat) (s : t) : option (fault + t) :=
  match handles s !! h with
  | Some (Some m) => Some (destroy_impl τ m (Some h) s)
  | Some None => Some (inr (set_handles (delete h (handles s)) s))
  | None => None
  end.

(** The forwarded calls that change something. *)
Definition do_call (τ : caller) (h : nat) (c : call) (s : t) : option (fault + t) :=
  match handles s !! h with
  | None => None
  | Some _ => Some
      match deref h s with
      | inl f => inl f
      | inr (m, i) =>
          match c with
          | SetCallbacks cb =>
              if bool_decide (ioThread_ i = Running) then inl Race
              else inr (set_impl m (mk_impl (node i) cb (heard i) (mailbox_ i) (ioThread_ i)) s)
          | Start e refused =>
              let '(_, (d, i)) := impl_start e refused (files s) i in
              inr (mk (handles s) (<[m := i]> (impls s)) (busy s) (next s) d)
          | Stop => stop_then τ m Return i s
          | Broadcast data => inr (set_impl m (impl_broadcast data i) s)
          | Send dst data => inr (set_impl m (impl_send dst data i) s)
          end
      end
  end.

(** [join] returns when the thread has left its loop. *)
Definition do_join (τ : caller) (s : t) : option (fault + t) :=
  match busy s !! τ with
  | None => None
  | Some (m, k) =>
      match impls s !! m with
      | None => Some (inl UseAfterFree)
      | Some i =>
          if bool_decide (ioThread_ i = Exited)
          then Some (finish m k (set_impl m (set_thread Joined i) (set_busy (delete τ (busy s)) s)))
          else None
      end
  end.

(** The IO thread empties the mailbox, and leaves its loop if it was asked to. *)
Definition io_drain (m : nat) (s : t) : option (fault + t) :=
  if negb (enabled (Io m) s) then None
  else match impls s !! m with
  | None => None
  | Some i => Some (inr (set_impl m (mk_impl (node i) (cb_ i) (heard i) []
                 (if bool_decide (mailbox.CmdStop ∈ mailbox_ i) then Exited else Running)) s))
  end.

Definition io_hear (m : nat) (e : peer_manager.event) (s : t) : option (fault + t) :=
  if negb (enabled (Io m) s) then None
  else match impls s !! m with
  | None => None
  | Some i => Some (inr (set_impl m (mk_impl (node i) (cb_ i) (e :: heard i) (mailbox_ i) (ioThread_ i)) s))
  end.

Definition act (a : action) (s : t) : option (fault + t) :=
  match a with
  | New τ h cfg => if enabled τ s then do_new h cfg s else None
  | MoveNew τ h h' => if enabled τ s then do_move_new h h' s else None
  | MoveAssign τ h h' => if enabled τ s then do_move_assign τ h h' s else None
  | Destroy τ h => if enabled τ s then do_destroy τ h s else None
  | Call τ h c => if enabled τ s then do_call τ h c s else None
  | JoinDone τ => do_join τ s
  | IoDrain m => io_drain m s
  | IoHear m e => io_hear m e s
  end.

Fixpoint run (l : list action) (s : t) : option (fault + t) :=
  match l with
  | [] => Some (inr s)
  | a :: l => match act a s with Some (inr s) => run l s | r => r end
  end.

Definition init (d : disk.t) : t := mk ∅ ∅ ∅ 0 d.

(** The accessors. *)
Definition access {A} (f : impl → A) (h : nat) (s : t) : fault + A :=
  match deref h s with inl e => inl e | inr (_, i) => inr (f i) end.

Definition view (i : impl) : mesh_delegate.t :=
  mesh_delegate.after
    (mesh_delegate.make (cb_ i) (mesh_start.localLabels_ (startup.node (node i)))) (heard i).

Definition is_running := access (λ i, startup.is_running (node i)).
Definition id := access (λ i, startup.id (node i)).
Definition listen_port := access (λ i, startup.listen_port (node i)).
Definition connected_peers := access (λ i, mesh_delegate.connected_peers (view i)).
Definition known_peers := access (λ i, mesh_delegate.known_peers (view i)).
Definition members := access (λ i, mesh_delegate.members (view i)).
Definition node_name (p : peer_id) := access (λ i, mesh_delegate.node_name p (view i)).
Definition identity_public_key := access (λ i, startup.identity_public_key (node i)).

(** ** Programs that keep the contract *)

(** Handles are changed by the application's thread alone, a call is made on a
    handle that holds a node, a callback stops no other node than its own, and
    the callbacks are not replaced while the node runs. *)
Definition polite (a : action) (s : t) : bool :=
  match a with
  | New τ _ _ | MoveNew τ _ _ | MoveAssign τ _ _ | Destroy τ _ => bool_decide (τ = App)
  | Call τ h c =>
      match deref h s with
      | inl _ => false
      | inr (m, i) =>
          match c with
          | SetCallbacks _ => bool_decide (τ = App) && bool_decide (ioThread_ i ≠ Running)
          | Start _ _ | Stop => bool_decide (τ = App ∨ τ = Io m)
          | Broadcast _ | Send _ _ => true
          end
      end
  | JoinDone _ | IoDrain _ | IoHear _ _ => true
  end.

Fixpoint polite_run (l : list action) (s : t) : bool :=
  match l with
  | [] => true
  | a :: l =>
      polite a s && match act a s with Some (inr s) => polite_run l s | _ => true end
  end.

(** Who keeps a node: a handle, or the assignment that is about to delete it. *)
Inductive owner := ByHandle (h : nat) | ByJoin (τ : caller).

Definition owns (s : t) (o : owner) (m : nat) : Prop :=
  match o with
  | ByHandle h => handles s !! h = Some (Some m)
  | ByJoin τ => busy s !! τ = Some (m, Delete None)
  end.

(** The life of a node. *)
Record impl_ok (i : impl) : Prop := {
  ok_started : running_ i = true ∨ ioThread_ i ≠ NoThread → started_ i = true;
  ok_told : ioThread_ i = Running → running_ i = true ∨ mailbox.CmdStop ∈ mailbox_ i;
  ok_gone : ioThread_ i = Exited ∨ ioThread_ i = Joined → running_ i = false;
  ok_asked : mailbox.CmdStop ∈ mailbox_ i → running_ i = false;
  ok_fresh : started_ i = false → mailbox_ i = [];
}.

(** A pending join: of a node that was told to stop, by the application. *)
Definition waits (s : t) (τ : caller) (m : nat) (k : after) : Prop :=
  τ = App ∧
  (∃ i, impls s !! m = Some i ∧ joinable (ioThread_ i) = true ∧ running_ i = false) ∧
  match k with Delete (Some h) => handles s !! h = Some (Some m) | _ => True end.

(** [hole]: the node whose handle has just been assigned to. *)
Record inv (hole : option nat) (s : t) : Prop := {
  inv_impl m i : impls s !! m = Some i → impl_ok i ∧ (m < next s)%nat;
  inv_held o m : owns s o m → is_Some (impls s !! m) ∧ hole ≠ Some m;
  inv_owned m : is_Some (impls s !! m) → hole = Some m ∨ ∃ o, owns s o m;
  inv_one o o' m : owns s o m → owns s o' m → o = o';
  inv_busy τ m k : busy s !! τ = Some (m, k) → waits s τ m k;
}.

Lemma facade_init_inv d : inv None (init d).
Proof. split; try done; [by intros [] ? ?|by intros ? []|by intros [] ? ?]. Qed.

(** *** Nodes *)

Lemma make_ok cfg : impl_ok (make cfg).
Proof. split; cbn; [by intros [?|[]]|done|by intros [|]|by intros ?%elem_of_nil|done]. Qed.

Lemma start_flags e d n : startup.running_ n = startup.started_ n ∨ startup.started_ n = true →
  let n' := (startup.start e d n).2.2 in
  (startup.started_ n = true → startup.started_ n' = true ∧ startup.running_ n' = startup.running_ n) ∧
  (startup.running_ n' = true → startup.started_ n' = true).
Proof.
  intros Hn. unfold startup.start. destruct (mesh_start.configure _ _ _ _ _) as [[] [d' x]]; simpl.
  - destruct (startup.started_ n) eqn:Hs; simpl.
    + naive_solver.
    + unfold startup.launch. destruct (listener.start _ _ _ _) as [[]|]; simpl; naive_solver.
  - destruct (startup.started_ n), (startup.running_ n); naive_solver.
Qed.

Lemma impl_start_ok e refused d i : impl_ok i →
  let i' := (impl_start e refused d i).2.2 in
  impl_ok i' ∧ (started_ i = true → ioThread_ i' = ioThread_ i ∧ running_ i' = running_ i).
Proof.
  intros [Hs Ht Hg Ha Hf]. unfold impl_start, running_, started_ in *.
  pose proof (start_flags e d (node i)) as Hn.
  destruct (startup.start e d (node i)) as [out [d' n]]; simpl in *.
  assert (startup.running_ (node i) = startup.started_ (node i) ∨ startup.started_ (node i) = true) as Hr.
  { destruct (startup.running_ (node i)), (startup.started_ (node i)); naive_solver. }
  destruct (Hn Hr) as [H1 H2]. destruct (startup.started_ (node i)) eqn:Es; simpl.
  { destruct (H1 eq_refl) as [H3 H4]. split; [|done].
    split; cbn; unfold running_, started_; cbn; rewrite ?H3, ?H4; auto. }
  assert (ioThread_ i = NoThread) as Et.
  { destruct (ioThread_ i); [done|..]; by assert (false = true) by (apply Hs; by right). }
  specialize (Hf eq_refl). split; [|done].
  destruct (startup.running_ n) eqn:En; simpl; [destruct refused as [[]|]|];
    split; cbn; unfold running_, started_; cbn; rewrite ?Et, ?Hf, ?En;
    intuition first [congruence|by match goal with H : _ ∈ [] |- _ => apply elem_of_nil in H end].
Qed.

Lemma post_ok c i : c ≠ mailbox.CmdStop → running_ i = true → impl_ok i → impl_ok (post c i).
Proof.
  intros Hc Hr [Hs Ht Hg Ha Hf]. split; unfold running_, started_ in *; cbn; [done|by left|done| |].
  - intros [?%Ha|?%list_elem_of_singleton]%elem_of_app; congruence.
  - intros Hn. rewrite Hs in Hn by (by left). done.
Qed.

Lemma impl_stop_ok τ m i : impl_ok i →
  let '(i', joins) := impl_stop τ m i in
  impl_ok i' ∧ running_ i' = false ∧ ioThread_ i' = ioThread_ i ∧
  joins = joinable (ioThread_ i') && bool_decide (τ ≠ Io m).
Proof.
  intros [Hs Ht Hg Ha Hf]. unfold impl_stop. destruct (started_ i) eqn:Es; cbn.
  2:{ assert (running_ i = false) as Er by (destruct (running_ i); [symmetry; auto|done]).
      assert (ioThread_ i = NoThread) as Et.
      { destruct (ioThread_ i); [done|..]; by assert (false = true) by (apply Hs; by right). }
      rewrite Et. split_and!; try done. split; rewrite ?Es; auto. }
  destruct (running_ i) eqn:Er; cbn.
  - destruct (decide (τ = Io m)) as [->|Hne];
      [rewrite bool_decide_true by done|rewrite bool_decide_false by done]; cbn; (split_and!; try done).
    2: by rewrite (bool_decide_false (Io m ≠ Io m)), andb_false_r by (by intros []).
    3: by rewrite (bool_decide_true (τ ≠ Io m)), andb_true_r.
    all: split; unfold running_, started_ in *; cbn; try done; [intros _; right; set_solver|congruence].
  - split_and!; try done. split; rewrite ?Er, ?Es; auto.
Qed.

(** *** Steps *)

Lemma set_impl_inv hole m i i' s d : inv hole s → impls s !! m = Some i → impl_ok i' →
  (joinable (ioThread_ i) = true → running_ i = false →
     joinable (ioThread_ i') = true ∧ running_ i' = false) →
  inv hole (mk (handles s) (<[m := i']> (impls s)) (busy s) (next s) d).
Proof.
  intros [H1 H2 H3 H4 H5] Hm Hok Hw.
  assert (∀ m', is_Some (<[m := i']> (impls s) !! m') ↔ is_Some (impls s !! m')) as Hdom.
  { intros m'. rewrite lookup_insert_is_Some. destruct (decide (m = m')) as [->|]; naive_solver. }
  split; cbn.
  - intros m' x [[<- <-]|[_ Hx]]%lookup_insert_Some; [|by apply H1]. split; [done|]. by apply (H1 m i).
  - intros o m' Ho. rewrite Hdom. by apply (H2 o).
  - intros m' Hm'%Hdom. exact (H3 m' Hm').
  - exact H4.
  - intros τ m' k Hb. destruct (H5 _ _ _ Hb) as (-> & (x & Hx & Hj & Hr) & Hk). split_and!; [done| |done].
    cbn. destruct (decide (m = m')) as [<-|Hne].
    + rewrite lookup_insert_eq. exists i'. split; [done|]. apply Hw; congruence.
    + rewrite lookup_insert_ne by done. eauto.
Qed.

(** What [finish] asks for. *)
Definition ready (hole : option nat) (m : nat) (k : after) (s : t) : Prop :=
  match k with
  | Return => hole = None
  | Delete None => hole = Some m
  | Delete (Some h) => hole = None ∧ handles s !! h = Some (Some m)
  end.

Lemma delete_inv hole m gone i s : inv hole s → ready hole m (Delete gone) s → busy s = ∅ →
  impls s !! m = Some i → joinable (ioThread_ i) = false →
  ∃ s', delete_impl m gone s = inr s' ∧ inv None s' ∧ busy s' = ∅.
Proof.
  intros [H1 H2 H3 H4 H5] Hr Hb Hm Hj. unfold delete_impl. rewrite Hm, Hj. eexists. split; [done|].
  split; [|done]. set (hs := match gone with Some h => delete h (handles s) | None => handles s end).
  assert (∀ h m', hs !! h = Some (Some m') ↔ handles s !! h = Some (Some m') ∧ m' ≠ m) as Hhs.
  { intros h m'. subst hs. destruct gone as [g|]; cbn in Hr.
    - destruct Hr as [-> Hg]. rewrite lookup_delete_Some. split.
      + intros [Hne Hh]. split; [done|]. intros ->.
        by injection (H4 (ByHandle h) (ByHandle g) m Hh Hg).
      + intros [Hh Hne]. split; [congruence|done].
    - subst hole. split; [intros Hh; split; [done|]|by intros []]. intros ->.
      by destruct (H2 (ByHandle h) m Hh). }
  assert (∀ o m', owns (mk hs (delete m (impls s)) (busy s) (next s) (files s)) o m' ↔
                  owns s o m' ∧ m' ≠ m) as Ho.
  { intros [h|τ] m'; [apply Hhs|]. cbn. rewrite Hb. split; [done|by intros []]. }
  split; cbn.
  - intros m' x [_ Hx]%lookup_delete_Some. by apply H1.
  - intros o m' [Hom Hne]%Ho. split; [|done]. rewrite lookup_delete_ne by done. by apply (H2 o).
  - intros m' [x [Hne Hx]%lookup_delete_Some]. right. destruct (H3 m') as [->|[o Hom]]; [by eauto| |].
    + destruct gone; cbn in Hr; naive_solver.
    + exists o. by apply Ho.
  - intros o o' m' [? _]%Ho [? _]%Ho. by apply (H4 o o' m').
  - intros τ m' k. by rewrite Hb.
Qed.

Lemma finish_inv hole m k i s : inv hole s → ready hole m k s → busy s = ∅ ∨ k = Return →
  impls s !! m = Some i → (k ≠ Return → joinable (ioThread_ i) = false) →
  ∃ s', finish m k s = inr s' ∧ inv None s' ∧ (busy s = ∅ → busy s' = ∅).
Proof.
  intros Hi Hr Hb Hm Hj. destruct k as [|gone]; cbn in *; [subst; by eauto|].
  destruct Hb as [Hb|]; [|done].
  destruct (delete_inv hole m gone i s Hi Hr Hb Hm) as (s' & ? & ? & ?); [by apply Hj|eauto].
Qed.

Lemma block_inv hole m k i s : inv hole s → ready hole m k s → busy s = ∅ →
  impls s !! m = Some i → joinable (ioThread_ i) = true → running_ i = false →
  inv None (set_busy (<[App := (m, k)]> (busy s)) s).
Proof.
  intros [H1 H2 H3 H4 H5] Hr Hb Hm Hj Hrun. rewrite Hb.
  assert (∀ o m', owns (set_busy (<[App := (m, k)]> ∅) s) o m' →
    (owns s o m' ∧ hole ≠ Some m') ∨ (o = ByJoin App ∧ m' = m ∧ hole = Some m)) as Ho.
  { intros [h|τ] m'; cbn; [intros Hh; left; split; [done|by apply (H2 (ByHandle h))]|].
    intros [[<- [= -> ->]]|[_ ?]]%lookup_insert_Some; [by right|done]. }
  split; cbn.
  - exact H1.
  - intros o m' [[Hom _]|(-> & -> & _)]%Ho; (split; [|done]); [by apply (H2 o)|by eauto].
  - intros m' Hm'. right. destruct (H3 m' Hm') as [->|[[h|τ] Hom]].
    + exists (ByJoin App). cbn. destruct k as [|[]]; cbn in Hr; [done|by destruct Hr|].
      injection Hr as ->. by rewrite lookup_insert_eq.
    + by exists (ByHandle h).
    + cbn in Hom. by rewrite Hb in Hom.
  - intros o o' m' [[Ha Hn]|(-> & -> & Hh)]%Ho [[Ha' Hn']|(-> & Hm' & Hh')]%Ho; try congruence. by apply (H4 o o' m').
  - intros τ m' k' [[<- [= <- <-]]|[_ ?]]%lookup_insert_Some; [|done].
    split_and!; [done|by eauto|]. destruct k as [|[]]; cbn in *; naive_solver.
Qed.

Lemma stop_then_inv hole τ m k i s : inv hole s → ready hole m k s → impls s !! m = Some i →
  (τ = App ∧ busy s = ∅) ∨ (τ = Io m ∧ k = Return) →
  ∃ s', stop_then τ m k i s = inr s' ∧ inv None s'.
Proof.
  intros Hi Hr Hm Hτ. unfold stop_then. destruct (inv_impl hole s Hi m i Hm) as [Hok _].
  pose proof (impl_stop_ok τ m i Hok) as Hs. destruct (impl_stop τ m i) as [i' joins].
  destruct Hs as (Hok' & Hrun & Hth & Hj).
  assert (inv hole (set_impl m i' s)) as Hi'.
  { apply (set_impl_inv hole m i i' s); try done. by rewrite Hth. }
  assert (impls (set_impl m i' s) !! m = Some i') as Hm' by (cbn; by rewrite lookup_insert_eq).
  assert (ready hole m k (set_impl m i' s)) as Hr' by done.
  destruct Hτ as [[-> Hb]|[-> ->]].
  - rewrite bool_decide_true, andb_true_r in Hj by done. destruct joins; cbn.
    + rewrite bool_decide_true by (rewrite Hb; apply map_Forall_empty). eexists. split; [done|].
      by apply (block_inv hole m k i' (set_impl m i' s)).
    + destruct (finish_inv hole m k i' _ Hi' Hr' (or_introl Hb) Hm') as (s' & ? & ? & _); eauto.
  - rewrite bool_decide_false, andb_false_r in Hj by (by intros []). subst joins. cbn in *. subst hole. eauto.
Qed.

Lemma busy_App hole s : inv hole s → busy s !! App = None → busy s = ∅.
Proof.
  intros Hi Ha. apply map_eq. intros τ. rewrite lookup_empty. destruct (busy s !! τ) as [[m k]|] eqn:E; [|done].
  by destruct (inv_busy hole s Hi τ m k E) as [-> _]; rewrite Ha in E.
Qed.

Lemma enabled_App s : enabled App s = true → busy s !! App = None.
Proof. unfold enabled. by intros [?%bool_decide_eq_true _]%andb_true_iff. Qed.

Lemma deref_ok h m s : inv None s → handles s !! h = Some (Some m) →
  ∃ i, impls s !! m = Some i ∧ deref h s = inr (m, i).
Proof.
  intros Hi Hh. destruct (inv_held None s Hi (ByHandle h) m Hh) as [[i Hm] _]. exists i.
  split; [done|]. unfold deref. by rewrite Hh, Hm.
Qed.

Lemma deref_inv h m i s : deref h s = inr (m, i) → handles s !! h = Some (Some m) ∧ impls s !! m = Some i.
Proof.
  unfold deref. destruct (handles s !! h) as [[m'|]|]; try done.
  destruct (impls s !! m') eqn:E; naive_solver.
Qed.

(** The handles rearranged: who held [m] at [h] now holds it at [f h]. *)
Lemma rehandle_inv hs hole hole' s (f g : nat → nat) : inv hole s →
  (∀ h m, hs !! h = Some (Some m) → handles s !! g h = Some (Some m) ∧ f (g h) = h ∧ hole' ≠ Some m) →
  (∀ h m, handles s !! h = Some (Some m) → hole' = Some m ∨ hs !! f h = Some (Some m)) →
  (busy s = ∅) → (hole = None ∨ hole = hole') → inv hole' (set_handles hs s).
Proof.
  intros [H1 H2 H3 H4 H5] Hg Hf Hb Hh. split; cbn.
  - exact H1.
  - intros [h|τ] m; cbn; [|by rewrite Hb]. intros (Ho & _ & Hn)%Hg. split; [|done]. by apply (H2 (ByHandle (g h))).
  - intros m Hm. destruct (H3 m Hm) as [->|[[h|τ] Ho]]; [left; naive_solver| |cbn in Ho; by rewrite Hb in Ho].
    destruct (Hf h m Ho) as [?|?]; [by left|]. right. by exists (ByHandle (f h)).
  - intros [h|τ] [h'|τ'] m; cbn; rewrite ?Hb; try done. intros (Ho & E & _)%Hg (Ho' & E' & _)%Hg.
    injection (H4 (ByHandle (g h)) (ByHandle (g h')) m Ho Ho'). intros Heq. congruence.
  - intros τ m k. by rewrite Hb.
Qed.

Lemma new_inv h cfg s : inv None s → handles s !! h = None → busy s = ∅ →
  inv None (mk (<[h := Some (next s)]> (handles s)) (<[next s := make cfg]> (impls s))
              (busy s) (S (next s)) (files s)).
Proof.
  intros [H1 H2 H3 H4 H5] Hh Hb.
  assert (impls s !! next s = None) as Hfresh.
  { destruct (impls s !! next s) as [i|] eqn:E; [|done]. destruct (H1 _ _ E). lia. }
  assert (∀ o, ¬ owns s o (next s)) as Hno by (intros o Ho; destruct (H2 o _ Ho) as [[? ?] _]; congruence).
  assert (∀ o m, owns (mk (<[h := Some (next s)]> (handles s)) (<[next s := make cfg]> (impls s))
              (busy s) (S (next s)) (files s)) o m → (o = ByHandle h ∧ m = next s) ∨ owns s o m) as Ho.
  { intros [h'|τ] m; cbn; [|by rewrite Hb]. intros [[<- [= ->]]|[_ ?]]%lookup_insert_Some; [by left|by right]. }
  split; cbn.
  - intros m i [[<- <-]|[_ Hm]]%lookup_insert_Some; [split; [apply make_ok|lia]|].
    destruct (H1 m i Hm). split; [done|lia].
  - intros o m [[-> ->]|Hom]%Ho; rewrite lookup_insert_is_Some; [by auto|].
    split; [|done]. destruct (decide (next s = m)); [by left|right; split; [done|by apply (H2 o)]].
  - intros m. rewrite lookup_insert_is_Some. intros [<-|[_ Hm]]; right.
    + exists (ByHandle h). cbn. by rewrite lookup_insert_eq.
    + destruct (H3 m Hm) as [|[[h'|τ] Hom]]; [done| |cbn in Hom; by rewrite Hb in Hom].
      exists (ByHandle h'). cbn in *. by rewrite lookup_insert_ne by congruence.
  - intros o o' m [[-> ->]|Hom]%Ho [[-> Hm]|Hom']%Ho; try done; [by destruct (Hno o')|subst; by destruct (Hno o)|].
    by apply (H4 o o' m).
  - intros τ m k. by rewrite Hb.
Qed.

Lemma move_inv h h' p s : inv None s → handles s !! h' = Some p → h ≠ h' → busy s = ∅ →
  inv (mjoin (handles s !! h)) (set_handles (<[h := p]> (<[h' := None]> (handles s))) s).
Proof.
  intros Hi Hp Hne Hb.
  apply (rehandle_inv _ None _ s (λ x, if decide (x = h') then h else x) (λ x, if decide (x = h) then h' else x));
    try done; [| |by left].
  - intros x m Hx. assert (handles s !! (if decide (x = h) then h' else x) = Some (Some m) ∧
      (if decide ((if decide (x = h) then h' else x) = h') then h else (if decide (x = h) then h' else x)) = x ∧
      (if decide (x = h) then h' else x) ≠ h) as (H1 & H2 & H3).
    { apply lookup_insert_Some in Hx as [[<- ->]|[Hn Hx]].
      - by rewrite decide_True, decide_True by done.
      - apply lookup_insert_Some in Hx as [[? ?]|[Hn' Hx]]; [done|]. by rewrite decide_False, decide_False by done. }
    split_and!; [done|done|]. destruct (handles s !! h) as [old|] eqn:Eh; [|done]. cbn. intros ->.
    apply H3. by injection (inv_one None s Hi (ByHandle _) (ByHandle h) m H1 Eh).
  - intros x m Hx. destruct (decide (x = h)) as [->|Hxh]; [left; by rewrite Hx|right].
    destruct (decide (x = h')) as [->|Hxh'].
    + rewrite lookup_insert_eq. congruence.
    + by rewrite !lookup_insert_ne by congruence.
Qed.

Lemma drop_inv h s : inv None s → handles s !! h = Some None → busy s = ∅ →
  inv None (set_handles (delete h (handles s)) s).
Proof.
  intros Hi Hh Hb. apply (rehandle_inv _ None _ s (λ x, x) (λ x, x)); try done; [| |by left].
  - by intros x m [_ ?]%lookup_delete_Some.
  - intros x m Hx. right. rewrite lookup_delete_ne; congruence.
Qed.

Lemma facade_call_inv τ h c s r : inv None s → polite (Call τ h c) s = true → enabled τ s = true →
  do_call τ h c s = Some r → ∃ s', r = inr s' ∧ inv None s'.
Proof.
  intros Hi Hp He. cbn in Hp. unfold do_call. destruct (deref h s) as [|[m i]] eqn:Ed; [done|].
  apply deref_inv in Ed as [Hh Hm]. rewrite Hh. intros [= <-].
  destruct (inv_impl None s Hi m i Hm) as [Hok _].
  destruct c as [cb|e refused| |data|dst data].
  - apply andb_true_iff in Hp as [_ Hn%bool_decide_eq_true]. rewrite bool_decide_false by done.
    eexists. split; [done|]. apply (set_impl_inv None m i); try done. destruct Hok. by split.
  - pose proof (impl_start_ok e refused (files s) i Hok) as Hs.
    destruct (impl_start e refused (files s) i) as [out [d i']]. cbn in Hs. destruct Hs as [Hok' Hs].
    eexists. split; [done|]. apply (set_impl_inv None m i); try done. intros Hj Hr.
    destruct Hs as [-> ->]; [|done]. apply Hok. right. intros Et. by rewrite Et in Hj.
  - apply bool_decide_eq_true in Hp. apply (stop_then_inv None τ m Return i s); try done.
    destruct Hp as [-> | ->]; [left|by right]. split; [done|]. by eapply busy_App, enabled_App.
  - eexists. split; [done|]. apply (set_impl_inv None m i); try done; unfold impl_broadcast;
      destruct (running_ i) eqn:Er; try done. by apply post_ok.
  - eexists. split; [done|]. apply (set_impl_inv None m i); try done; unfold impl_send;
      destruct (running_ i) eqn:Er; try done. by apply post_ok.
Qed.

Lemma destroy_inv τ m gone s : inv (match gone with Some _ => None | None => Some m end) s →
  τ = App → busy s = ∅ → is_Some (impls s !! m) →
  match gone with Some h => handles s !! h = Some (Some m) | None => True end →
  ∃ s', destroy_impl τ m gone s = inr s' ∧ inv None s'.
Proof.
  intros Hi -> Hb [i Hm] Hg. unfold destroy_impl. rewrite Hm.
  apply (stop_then_inv (match gone with Some _ => None | None => Some m end) App m (Delete gone) i s); auto.
  by destruct gone.
Qed.

(** The thread has been joined, and its node is about to be deleted or not. *)
Lemma unblock_inv m k i s : inv None s → busy s !! App = Some (m, k) → impls s !! m = Some i →
  ioThread_ i = Exited → delete App (busy s) = ∅ →
  inv (match k with Delete None => Some m | _ => None end)
    (set_impl m (set_thread Joined i) (set_busy (delete App (busy s)) s)).
Proof.
  intros [H1 H2 H3 H4 H5] Eb Hm Hex Hb.
  assert (∀ o m', owns (set_impl m (set_thread Joined i) (set_busy (delete App (busy s)) s)) o m' ↔
    ∃ h, o = ByHandle h ∧ handles s !! h = Some (Some m')) as Ho.
  { intros [h|τ] m'; cbn; [naive_solver|]. rewrite Hb. split; [done|by intros (? & ? & _)]. }
  assert (∀ m', is_Some (<[m := set_thread Joined i]> (impls s) !! m') ↔ is_Some (impls s !! m')) as Hdom.
  { intros m'. rewrite lookup_insert_is_Some. destruct (decide (m = m')) as [->|]; naive_solver. }
  split.
  - cbn. intros m' x [[<- <-]|[_ Hx]]%lookup_insert_Some; [|by apply H1]. destruct (H1 m i Hm) as [[Hs Ht Hg Ha Hf] Hn].
    split; [|done]. split; cbn; [intros _; apply Hs; right; by rewrite Hex|done|intros _; apply Hg; by left|done|done].
  - intros o m' (h & -> & Hh)%Ho. cbn. rewrite Hdom. split; [by apply (H2 (ByHandle h))|].
    destruct k as [|[]]; try done. intros [= ->]. by discriminate (H4 (ByHandle h) (ByJoin App) m' Hh Eb).
  - intros m' Hm'. destruct (H3 m') as [|[[h|τ] Hom]]; [by apply Hdom|done| |].
    + right. exists (ByHandle h). exact Hom.
    + destruct (H5 τ m' _ Hom) as [-> _]. cbn in Hom. rewrite Eb in Hom. injection Hom as -> ->. by left.
  - intros o o' m' (h & -> & Hh)%Ho (h' & -> & Hh')%Ho. by apply (H4 (ByHandle h) (ByHandle h') m').
  - cbn. rewrite Hb. by intros ???.
Qed.

Lemma join_inv τ s r : inv None s → do_join τ s = Some r → ∃ s', r = inr s' ∧ inv None s' ∧ busy s' = ∅.
Proof.
  intros Hi. unfold do_join. destruct (busy s !! τ) as [[m k]|] eqn:Eb; [|done].
  destruct (inv_busy None s Hi τ m k Eb) as (-> & (i & Hm & Hj & Hr) & Hk). rewrite Hm.
  destruct (bool_decide_reflect (ioThread_ i = Exited)) as [Hex|]; [|done]. intros [= <-].
  assert (delete App (busy s) = ∅) as Hb.
  { apply map_eq. intros τ. rewrite lookup_empty, lookup_delete_None. destruct (busy s !! τ) as [[m' k']|] eqn:E; [|by right].
    left. destruct (inv_busy None s Hi τ m' k' E) as [-> _]. done. }
  pose proof (unblock_inv m k i s Hi Eb Hm Hex Hb) as Hi1.
  destruct (finish_inv _ m k (set_thread Joined i) _ Hi1) as (s' & ? & ? & ?).
  - by destruct k as [|[h|]].
  - by left.
  - cbn. by rewrite lookup_insert_eq.
  - done.
  - eauto.
Qed.

Lemma io_inv m s i h mb t : inv None s → enabled (Io m) s = true → impls s !! m = Some i →
  (mb = mailbox_ i ∧ t = Running) ∨
  (mb = [] ∧ t = if bool_decide (mailbox.CmdStop ∈ mailbox_ i) then Exited else Running) →
  inv None (set_impl m (mk_impl (node i) (cb_ i) h mb t) s).
Proof.
  intros Hi He Hm Ht. unfold enabled in He. rewrite Hm in He.
  apply andb_true_iff in He as [_ Hr%bool_decide_eq_true].
  destruct (inv_impl None s Hi m i Hm) as [[H1 H2 H3 H4 H5] _].
  apply (set_impl_inv None m i); try done.
  - split; unfold running_, started_ in *; cbn.
    + intros _; apply H1; right; by rewrite Hr.
    + intros ->. destruct Ht as [[-> _]|[_ Ht]]; [by apply H2|left].
      destruct (bool_decide_reflect (mailbox.CmdStop ∈ mailbox_ i)); [done|]. by destruct (H2 Hr).
    + intros Hg. destruct Ht as [[_ ->]|[_ ->]]; [by destruct Hg|].
      destruct (bool_decide_reflect (mailbox.CmdStop ∈ mailbox_ i)); [by apply H4|by destruct Hg].
    + by destruct Ht as [[-> _]|[-> _]]; [|intros ?%elem_of_nil].
    + by destruct Ht as [[-> _]|[-> _]].
  - intros _ Hf. split; [|done]. cbn. by destruct Ht as [[_ ->]|[_ ->]]; [|destruct (bool_decide _)].
Qed.

Lemma facade_act_inv a s r : inv None s → polite a s = true → act a s = Some r →
  ∃ s', r = inr s' ∧ inv None s'.
Proof.
  intros Hi Hp. destruct a as [τ h cfg|τ h h'|τ h h'|τ h|τ h c|τ|m|m e]; unfold act;
    try (destruct (enabled τ s) eqn:He; [|done]);
    try (cbn in Hp; apply bool_decide_eq_true in Hp as ->; apply enabled_App in He;
         pose proof (busy_App None s Hi He) as Hb).
  - unfold do_new. destruct (handles s !! h) eqn:Eh; [done|]. intros [= <-]. eauto using new_inv.
  - unfold do_move_new. destruct (handles s !! h) eqn:Eh; [done|]. destruct (handles s !! h') as [p|] eqn:Eh'; [|done].
    intros [= <-]. eexists. split; [done|]. pose proof (move_inv h h' p s Hi Eh' ltac:(congruence) Hb) as Hm.
    by rewrite Eh in Hm.
  - unfold do_move_assign. destruct (handles s !! h) as [old|] eqn:Eh; [|done].
    destruct (handles s !! h') as [p|] eqn:Eh'; [|done].
    destruct (bool_decide_reflect (h = h')); intros [= <-]; [eauto|].
    pose proof (move_inv h h' p s Hi Eh' ltac:(congruence) Hb) as Hm. rewrite Eh in Hm. cbn in Hm.
    destruct old as [m|]; [|eauto]. apply destroy_inv; try done. by apply (inv_held None s Hi (ByHandle h)).
  - unfold do_destroy. destruct (handles s !! h) as [[m|]|] eqn:Eh; intros [= <-].
    + apply destroy_inv; try done. by apply (inv_held None s Hi (ByHandle h)).
    + eauto using drop_inv.
  - by apply facade_call_inv.
  - intros Hj. destruct (join_inv τ s r Hi Hj) as (s' & ? & ? & _). eauto.
  - unfold io_drain. destruct (enabled (Io m) s) eqn:He; [|done]. cbn.
    destruct (impls s !! m) as [i|] eqn:Em; intros [= <-]. eexists. split; [done|]. apply io_inv; auto.
  - unfold io_hear. destruct (enabled (Io m) s) eqn:He; [|done]. cbn.
    destruct (impls s !! m) as [i|] eqn:Em; intros [= <-]. eexists. split; [done|]. apply io_inv; auto.
    left. split; [done|]. unfold enabled in He. rewrite Em in He.
    by apply andb_true_iff in He as [_ ?%bool_decide_eq_true].
Qed.

Lemma facade_run_inv l s r : inv None s → polite_run l s = true → run l s = Some r →
  ∃ s', r = inr s' ∧ inv None s'.
Proof.
  revert s. induction l as [|a l IH]; intros s Hi Hp Hr; cbn in *; [injection Hr as <-; eauto|].
  apply andb_true_iff in Hp as [Ha Hp]. destruct (act a s) as [x|] eqn:Ex; [|done].
  destruct (facade_act_inv a s x Hi Ha Ex) as (s1 & -> & H1). by apply (IH s1).
Qed.

(** A blocked application goes on when the IO thread has had its turn. *)
Lemma join_returns τ m k s : inv None s → busy s !! τ = Some (m, k) →
  ∃ l s', (length l ≤ 2)%nat ∧ Forall (λ a, a = IoDrain m ∨ a = JoinDone τ) l ∧
    run l s = Some (inr s') ∧ busy s' = ∅.
Proof.
  intros Hi Hb. destruct (inv_busy None s Hi τ m k Hb) as (-> & (i & Hm & Hj & Hr) & Hk).
  destruct (inv_impl None s Hi m i Hm) as [Hok _].
  assert (∀ s1 i1, inv None s1 → busy s1 = busy s → impls s1 !! m = Some i1 → ioThread_ i1 = Exited →
    ∃ s', do_join App s1 = Some (inr s') ∧ busy s' = ∅) as Hjoin.
  { intros s1 i1 H1 Hb1 Hm1 He1. destruct (do_join App s1) as [r|] eqn:Er.
    - destruct (join_inv App s1 r H1 Er) as (s' & -> & _ & ?). eauto.
    - unfold do_join in Er. by rewrite Hb1, Hb, Hm1, bool_decide_true in Er. }
  unfold joinable in Hj. apply bool_decide_eq_true in Hj as [Ht|Ht].
  - destruct (ok_told i Hok Ht) as [?|Hst]; [congruence|].
    assert (enabled (Io m) s = true) as He.
    { unfold enabled. rewrite Hm, !bool_decide_true; try done.
      destruct (busy s !! Io m) as [[m' k']|] eqn:E; [|done]. by destruct (inv_busy None s Hi _ _ _ E). }
    pose proof (io_inv m s i (heard i) [] Exited Hi He Hm) as H1.
    rewrite bool_decide_true in H1 by done. specialize (H1 (or_intror (conj eq_refl eq_refl))).
    destruct (Hjoin _ _ H1 eq_refl (lookup_insert_eq _ _ _) eq_refl) as (s' & Hs' & ?).
    exists [IoDrain m; JoinDone App], s'. split_and!; [done|by repeat constructor; auto| |done].
    cbn. unfold io_drain. rewrite He, Hm, bool_decide_true by done. cbn. by rewrite Hs'.
  - destruct (Hjoin s i Hi eq_refl Hm Ht) as (s' & Hs' & ?). exists [JoinDone App], s'.
    split_and!; [cbn; lia|by repeat constructor; auto| |done]. cbn. by rewrite Hs'.
Qed.

(** [C22] A program that keeps the contract of the facade is safe: nothing it
    does, in whatever order its thread, the callbacks and the IO threads take
    their steps, uses a handle without a node, a deleted node, terminates the
    program in a destructor, joins a thread twice at a time or replaces the
    callbacks of a running node.  Every node on the heap has exactly one owner,
    so that all are gone when the handles are; a thread in its loop belongs to
    a node that runs or was told to stop; and a blocked [stop] or destructor
    returns as soon as the IO thread of the node has emptied its mailbox. *)
Theorem facade_safe d l r : polite_run l (init d) = true → run l (init d) = Some r →
  ∃ s, r = inr s ∧
    (∀ m, is_Some (impls s !! m) ↔ ∃ o, owns s o m) ∧
    (∀ o o' m, owns s o m → owns s o' m → o = o') ∧
    (handles s = ∅ → busy s = ∅ → impls s = ∅) ∧
    (∀ m i, impls s !! m = Some i → ioThread_ i = Running →
       running_ i = true ∨ mailbox.CmdStop ∈ mailbox_ i) ∧
    (∀ τ m k, busy s !! τ = Some (m, k) → τ = App ∧
       ∃ l' s', (length l' ≤ 2)%nat ∧ Forall (λ a, a = IoDrain m ∨ a = JoinDone τ) l' ∧
         run l' s = Some (inr s') ∧ busy s' = ∅).
Proof.
  intros Hp Hr. destruct (facade_run_inv l _ r (facade_init_inv d) Hp Hr) as (s & -> & Hi). exists s.
  assert (∀ m, is_Some (impls s !! m) ↔ ∃ o, owns s o m) as Hown.
  { intros m. split; [intros Hm; by destruct (inv_owned None s Hi m Hm)|].
    intros [o Ho]. by apply (inv_held None s Hi o m). }
  split_and!; [done|done|apply (inv_one None s Hi)| | |].
  - intros Hh Hb. apply map_eq. intros m. rewrite lookup_empty, eq_None_not_Some, Hown.
    intros [[h|τ] Ho]; cbn in Ho; [by rewrite Hh in Ho|by rewrite Hb in Ho].
  - intros m i Hm. by apply (inv_impl None s Hi m i Hm).
  - intros τ m k Hb. split; [by apply (inv_busy None s Hi τ m k Hb)|]. by apply join_returns with k.
Qed.

End app.

(** ** Samples *)

#[local] Existing Instance crypto.toy_sodium.

Definition sample_env : startup.env :=
  startup.mk_env true 0 (crypto.sample_key 5) (λ _, Some 0)
    (listener.mk_calls (inr 3) 0 0 (Some 40000) 0) (discovery.mk_calls (inr 4) 0 0 0 0)
    0 manager_facts.sample_clock (manager_facts.sample_world []) 0 0 0.

Definition sample_cfg : mesh_config := manager_facts.sample_config.

(** A callback stops its own node, which is then assigned to while its IO
    thread is still in the callback; both handles go away in the end. *)
Definition sample_program : list action :=
  [New App 0 sample_cfg; Call App 0 (Start sample_env None); Call App 0 (Broadcast [Byte.x01]);
   IoDrain 0; IoHear 0 (peer_manager.PeerConnected (sample_id 2)); Call (Io 0) 0 (Send (sample_id 2) [Byte.x02]);
   Call (Io 0) 0 Stop; New App 1 sample_cfg; MoveAssign App 0 1; Call (Io 0) 0 (Broadcast [Byte.x03]);
   IoDrain 0; JoinDone App; Call App 0 (Start sample_env (Some (11, []))); Destroy App 1; Destroy App 0].

Definition sample_disk : disk.t := mesh_start.sample_disk 4096.

Definition sample_after (l : list action) : fault + t :=
  default (inl NullDeref) (run l (init sample_disk)).

Definition ends (r : fault + t) : bool :=
  match r with
  | inr s => bool_decide (handles s = ∅) && bool_decide (busy s = ∅)
  | inl _ => false
  end.

Lemma sample_polite : polite_run sample_program (init sample_disk) = true.
Proof. vm_compute. reflexivity. Qed.

Lemma sample_program_run : run sample_program (init sample_disk) = Some (sample_after sample_program).
Proof. apply some_default. vm_compute. reflexivity. Qed.

Lemma sample_ends : ends (sample_after sample_program) = true.
Proof. vm_compute. reflexivity. Qed.

Lemma facade_safe_witness :
  ∃ s, sample_after sample_program = inr s ∧ impls s = ∅.
Proof.
  destruct (facade_safe sample_disk sample_program (sample_after sample_program) sample_polite sample_program_run)
    as (s & Hs & _ & _ & Hend & _).
  exists s. split; [exact Hs|]. pose proof sample_ends as He. rewrite Hs in He.
  apply andb_true_iff in He as [Hh Hb].
  apply Hend; [exact (bool_decide_eq_true_1 _ Hh)|exact (bool_decide_eq_true_1 _ Hb)].
Defined.

(** A node whose handle is destroyed in its own callback takes the program
    down: [stop] does not join there, and the thread is still joinable. *)
Lemma self_destruction_terminates :
  run [New App 0 sample_cfg; Call App 0 (Start sample_env None); Destroy (Io 0) 0] (init sample_disk) =
  Some (inl Terminate).
Proof. vm_compute. reflexivity. Qed.

(** A handle that was moved from holds no node, and its calls do not test for it. *)
Lemma moved_from_is_null c :
  run [New App 0 sample_cfg; MoveNew App 1 0; Call App 0 c] (init sample_disk) = Some (inl NullDeref).
Proof. vm_compute. reflexivity. Qed.

(** Two nodes of a program whose callbacks stop each other hang. *)
Definition crossed : list action :=
  [New App 0 sample_cfg; New App 1 sample_cfg; Call App 0 (Start sample_env None);
   Call App 1 (Start sample_env None); Call (Io 0) 1 Stop; Call (Io 1) 0 Stop].

Definition stuck (s : t) : bool :=
  forallb (λ a, match act a s with None => true | Some _ => false end)
    [IoDrain 0; IoDrain 1; JoinDone (Io 0); JoinDone (Io 1)].

Lemma crossed_stops_hang : match sample_after crossed with inr s => stuck s | inl _ => false end = true.
Proof. vm_compute. reflexivity. Qed.

(** If the system has no thread for it, [start] throws, and [is_running] says
    [true] from then on until [stop] is called. *)
Lemma no_thread_still_running :
  match sample_after [New App 0 sample_cfg; Call App 0 (Start sample_env (Some (11, [])))] with
  | inr s =>
      match deref 0 s with
      | inr (_, i) => startup.is_running (node i) && bool_decide (ioThread_ i = NoThread)
      | inl _ => false
      end
  | inl _ => false
  end = true.
Proof. vm_compute. reflexivity. Qed.

(** A node that was stopped does not start again, and [start] does not say so. *)
Lemma start_after_stop_is_silent e refused d i : impl_ok i → started_ i = true → running_ i = false →
  let '(out, (_, i')) := impl_start e refused d i in
  out = startup.Returned ∧ running_ i' = false ∧ ioThread_ i' = ioThread_ i.
Proof.
  intros Hok Hs Hr. pose proof (impl_start_ok e refused d i Hok) as H.
  pose proof (startup.failed_bind_is_final e d (node i) Hs) as Hf. unfold impl_start in *.
  destruct (startup.start e d (node i)) as [out [d' n]]. rewrite Hs in *. simpl in *.
  destruct H as [_ H]. destruct (H eq_refl) as [? ?]. destruct Hf as [-> _]. by rewrite Hr in *.
Qed.

End facade.
