(* ===== verification/Examples.v ===== *)
(** * The example programs ([src/examples/chat.cpp], [src/examples/ping.cpp])

    [Module program] is what both programs do with their mesh, with the proof
    that it is safe whatever the threads do.  [Module chat] is the command line
    of the chat program, which it turns into a configuration, its reading of
    lines, what it prints, and the program as calls of the facade.  [Module
    ping] is the ping program with its conversation.  [command_line_roundtrip]
    shows that the command line can say what the program can be configured
    with: written out, a list of settings is read back as just these settings. *)
From Stdlib Require Import ZArith Lia.
From Stdlib.Strings Require Import Byte.
From stdpp Require Import base gmap sets list strings numbers option.
From S2P Require Import Prelude PeerId Config Crypto MeshConfig PeerManager MeshDelegate MeshImpl MeshFacade.

Module program.

Import facade.

(** What both programs are: one mesh, constructed, given its callbacks,
    started, used, stopped and, at the end of [main], destroyed. *)
Definition main (cfg : mesh_config) (cb : mesh_delegate.callbacks) (e : startup.env)
    (refused : option (Z * list byte)) (uses : list call) : list action :=
  [New App 0 cfg; Call App 0 (SetCallbacks cb); Call App 0 (Start e refused)] ++
  map (Call App 0) uses ++ [Call App 0 Stop; Destroy App 0].

(** Calls that only post a command. *)
Definition posts (c : call) : bool :=
  match c with Broadcast _ | Send _ _ => true | _ => false end.

(** What goes on beside [main]: the IO thread, a join that returns, and what
    callbacks send. *)
Definition background (a : action) : bool :=
  match a with
  | JoinDone _ | IoDrain _ | IoHear _ _ => true
  | Call (Io _) h c => (h =? 0)%nat && posts c
  | _ => false
  end.

Definition own_actions (l : list action) : list action := filter (λ a, background a = false) l.

(** Only handle 0 holds a node, and what is joined is kept by it. *)
Record solo (fin : bool) (s : t) : Prop := {
  solo_handle h : is_Some (handles s !! h) → h = 0%nat;
  solo_busy τ m k : busy s !! τ = Some (m, k) → k = Return ∨ fin = true ∧ k = Delete (Some 0%nat);
  solo_held : if fin then is_Some (handles s !! 0%nat) → ∃ τ m, busy s !! τ = Some (m, Delete (Some 0%nat))
              else ∃ m, handles s !! 0%nat = Some (Some m);
}.

(** Before the node has a thread nothing goes on beside [main]. *)
Definition quiet (s : t) : Prop := busy s = ∅ ∧ ∀ m i, impls s !! m = Some i → ioThread_ i = NoThread.

Section programs.

Context `{!Sodium}.

Lemma quiet_background a s : quiet s → background a = true → act a s = None.
Proof.
  intros [Hb Hq]. assert (∀ m, enabled (Io m) s = false) as He.
  { intros m. unfold enabled. rewrite Hb. destruct (impls s !! m) as [i|] eqn:Em; [|done]. by rewrite (Hq m i Em). }
  destruct a as [| | | |[|m] h c|τ|m|m e]; try done; intros _; cbn; unfold io_drain, io_hear; rewrite ?He; try done.
  unfold do_join. by rewrite Hb.
Qed.

Lemma io_deref fin m s : inv None s → solo fin s → enabled (Io m) s = true →
  ∃ i, deref 0 s = inr (m, i).
Proof.
  intros Hi Hs. unfold enabled. destruct (impls s !! m) as [i|] eqn:Em; [|by rewrite andb_false_r]. intros _.
  destruct (inv_owned None s Hi m ltac:(by eexists)) as [?|[[h|τ] Ho]]; [done| |].
  - assert (h = 0%nat) as -> by (by (apply (solo_handle fin s Hs); rewrite Ho; by eexists)). destruct (deref_ok 0 m s Hi Ho) as (i' & _ & ?). eauto.
  - cbn in Ho. by destruct (solo_busy fin s Hs τ m _ Ho) as [?|[_ ?]].
Qed.

Lemma background_polite fin a s r : inv None s → solo fin s → background a = true → act a s = Some r →
  polite a s = true.
Proof.
  intros Hi Hs Hb. destruct a as [| | | |[|m] h c|τ|m|m e]; try done. cbn in Hb |- *.
  apply andb_true_iff in Hb as [->%Nat.eqb_eq Hc].
  destruct (enabled (Io m) s) eqn:He; [|done]. intros _.
  destruct (io_deref fin m s Hi Hs He) as [i ->]. by destruct c.
Qed.

(** A call other than [start] and [stop] moves no handle and joins nothing. *)
Lemma call_frame c s s' : posts c = true ∨ (∃ cb, c = SetCallbacks cb) ∨ (∃ e f, c = Start e f) →
  do_call App 0 c s = Some (inr s') → handles s' = handles s ∧ busy s' = busy s.
Proof.
  intros Hc. unfold do_call. destruct (handles s !! 0%nat); [|done].
  destruct (deref 0 s) as [|[m i]]; [done|].
  destruct c as [cb|e f| | |]; try (by destruct Hc as [?|[[??]|(?&?&?)]]).
  - destruct (bool_decide _); [done|]. by intros [= <-].
  - destruct (impl_start e f (files s) i) as [? [? ?]]. by intros [= <-].
  - by intros [= <-].
  - by intros [= <-].
Qed.

Lemma frame_solo fin s s' : solo fin s → handles s' = handles s → busy s' = busy s → solo fin s'.
Proof. intros [H1 H2 H3] Hh Hb. split; rewrite ?Hh, ?Hb; auto. Qed.

Lemma background_solo fin a s s' : inv None s → solo fin s → background a = true → act a s = Some (inr s') →
  solo fin s'.
Proof.
  intros Hi Hs Hb. destruct a as [| | | |[|m] h c|τ|m|m e]; try done; cbn in Hb |- *.
  - destruct (enabled (Io m) s); [|done]. apply andb_true_iff in Hb as [->%Nat.eqb_eq Hc]. intros Hr.
    assert (do_call App 0 c s = Some (inr s')) as Hr' by (by destruct c).
    destruct (call_frame c s s' ltac:(by left) Hr'). by eapply frame_solo.
  - unfold do_join. destruct (busy s !! τ) as [[m k]|] eqn:Eb; [|done].
    destruct (inv_busy None s Hi τ m k Eb) as (-> & (i & Hm & _ & _) & Hk). rewrite Hm.
    destruct (bool_decide _); [|done]. intros Hr. injection Hr as Hr.
    assert (∀ τ, delete App (busy s) !! τ = None) as Hd.
    { intros τ. apply lookup_delete_None. destruct (busy s !! τ) as [[m' k']|] eqn:E; [|by right].
      left. by destruct (inv_busy None s Hi τ m' k' E) as [-> _]. }
    destruct Hs as [H1 H2 H3]. destruct (H2 App m k Eb) as [->|[-> ->]]; cbn in Hr.
    + injection Hr as <-. split; cbn; [done|intros τ ?? Hb'; by rewrite Hd in Hb'|].
      destruct fin; [|done]. intros Hh. destruct (H3 Hh) as (τ & m' & Hτ).
      destruct (inv_busy None s Hi τ m' _ Hτ) as [-> _]. congruence.
    + unfold delete_impl in Hr. cbn in Hr. rewrite lookup_insert_eq in Hr. cbn in Hr. injection Hr as <-.
      split; cbn; [|intros τ ?? Hb'; by rewrite Hd in Hb'|intros Hh; by rewrite lookup_delete_eq in Hh; destruct Hh].
      intros h [p Hp]. apply lookup_delete_Some in Hp as [_ ?]. eauto.
  - unfold io_drain. destruct (negb _); [done|]. destruct (impls s !! m); [|done]. intros [= <-]. by eapply frame_solo.
  - unfold io_hear. destruct (negb _); [done|]. destruct (impls s !! m); [|done]. intros [= <-]. by eapply frame_solo.
Qed.

Section phases.

Context (cfg : mesh_config) (cb : mesh_delegate.callbacks) (e : startup.env) (refused : option (Z * list byte)).

(** How far [main] has come: what is left of it, and the state that goes with
    it. *)
Inductive phase : list action → t → Prop :=
  | Before uses s : forallb posts uses = true → quiet s → handles s = ∅ → phase (main cfg cb e refused uses) s
  | Constructed n uses s : (n = 1 ∨ n = 2)%nat → forallb posts uses = true → quiet s → solo false s →
      phase (drop n (main cfg cb e refused uses)) s
  | Using uses s : forallb posts uses = true → solo false s →
      phase (map (Call App 0) uses ++ [Call App 0 Stop; Destroy App 0]) s
  | Stopped s : solo false s → phase [Destroy App 0] s
  | Over s : solo true s → phase [] s.

Definition goes_on (rest : list action) (r : fault + t) : Prop :=
  ∃ s, r = inr s ∧ inv None s ∧ phase rest s.

Lemma background_goes_on a rest s r : inv None s → phase rest s → background a = true → act a s = Some r →
  goes_on rest r.
Proof.
  intros Hi Hp Hb Ha.
  assert (∀ fin, solo fin s → ∃ s', r = inr s' ∧ inv None s' ∧ solo fin s') as Hsolo.
  { intros fin Hs. destruct (facade_act_inv a s r Hi (background_polite fin a s r Hi Hs Hb Ha) Ha) as (s' & -> & Hi').
    exists s'. eauto using background_solo. }
  destruct Hp as [uses s ? Hq ?|n uses s ?? Hq ?|uses s ? Hs|s Hs|s Hs].
  - by rewrite (quiet_background a s Hq Hb) in Ha.
  - by rewrite (quiet_background a s Hq Hb) in Ha.
  - destruct (Hsolo false Hs) as (s' & ? & ? & ?). exists s'. split_and!; try done. by constructor.
  - destruct (Hsolo false Hs) as (s' & ? & ? & ?). exists s'. split_and!; try done. by constructor.
  - destruct (Hsolo true Hs) as (s' & ? & ? & ?). exists s'. split_and!; try done. by constructor.
Qed.

Lemma call_goes_on c s r : inv None s → solo false s → polite (Call App 0 c) s = true →
  posts c = true ∨ (∃ cb, c = SetCallbacks cb) ∨ (∃ e f, c = Start e f) →
  act (Call App 0 c) s = Some r → ∃ s', r = inr s' ∧ inv None s' ∧ solo false s' ∧ do_call App 0 c s = Some (inr s').
Proof.
  intros Hi Hs Hp Hc Ha. destruct (facade_act_inv _ s r Hi Hp Ha) as (s' & -> & Hi'). exists s'.
  cbn in Ha. destruct (enabled App s); [|done]. destruct (call_frame c s s' Hc Ha). eauto using frame_solo.
Qed.

Lemma app_polite c s : inv None s → solo false s → (∀ cb, c ≠ SetCallbacks cb) → polite (Call App 0 c) s = true.
Proof.
  intros Hi [_ _ [m Hh]] Hc. destruct (deref_ok 0 m s Hi Hh) as (i & _ & Ed). cbn. rewrite Ed.
  destruct c as [cb'|?? | |?|??]; try done. by destruct (Hc cb').
Qed.

Lemma quiet_polite c s : inv None s → solo false s → quiet s → polite (Call App 0 c) s = true.
Proof.
  intros Hi Hs [_ Hq]. destruct c as [cb'| | | |]; try (by apply app_polite).
  destruct Hs as [_ _ [m Hh]]. destruct (deref_ok 0 m s Hi Hh) as (i & Hm & Ed). cbn. rewrite Ed.
  by rewrite (Hq m i Hm).
Qed.

Lemma new_goes_on uses s r : inv None s → quiet s → handles s = ∅ → forallb posts uses = true →
  act (New App 0 cfg) s = Some r → goes_on (drop 1 (main cfg cb e refused uses)) r.
Proof.
  intros Hi [Hb Hq] Hh Hu Ha. destruct (facade_act_inv (New App 0 cfg) s r Hi eq_refl Ha) as (s' & -> & Hi').
  exists s'. split_and!; [done|done|]. cbn in Ha. destruct (enabled App s); [|done].
  unfold do_new in Ha. rewrite Hh, lookup_empty in Ha. injection Ha as <-.
  apply Constructed; [by left|done|split|split]; cbn; rewrite ?Hb; try done.
  - intros m i [[<- <-]|[_ Hm]]%lookup_insert_Some; [done|eauto].
  - intros h [p [[? _]|[_ Hl]]%lookup_insert_Some]; [done|]. by rewrite lookup_empty in Hl.
  - eauto using lookup_insert_eq.
Qed.

Lemma destroy_goes_on s r : inv None s → solo false s → act (Destroy App 0) s = Some r → goes_on [] r.
Proof.
  intros Hi Hs Ha. destruct (facade_act_inv (Destroy App 0) s r Hi eq_refl Ha) as (s' & -> & Hi').
  exists s'. split_and!; [done|done|apply Over]. cbn in Ha. destruct (enabled App s) eqn:He; [|done].
  pose proof (busy_App None s Hi (enabled_App s He)) as Hb. destruct Hs as [H1 H2 [m Hm]].
  unfold do_destroy in Ha. rewrite Hm in Ha. injection Ha as Ha. unfold destroy_impl, stop_then in Ha.
  destruct (impls s !! m) as [i|]; [|done]. destruct (impl_stop App m i) as [i' []]; cbn in Ha.
  - destruct (bool_decide _); [|done]. injection Ha as <-. rewrite Hb. split; cbn; [done| |].
    + intros τ m' k [[_ [= _ <-]]|[_ Hl]]%lookup_insert_Some; [by right|by rewrite lookup_empty in Hl].
    + intros _. exists App, m. by rewrite lookup_insert_eq.
  - unfold delete_impl in Ha. cbn in Ha. rewrite lookup_insert_eq in Ha.
    destruct (joinable _); [done|]. injection Ha as <-. split; cbn; rewrite ?Hb; [|done|].
    + intros h [p [_ ?]%lookup_delete_Some]. eauto.
    + intros Hh. rewrite lookup_delete_eq in Hh. by destruct Hh.
Qed.

Lemma stop_goes_on s r : inv None s → solo false s → act (Call App 0 Stop) s = Some r → goes_on [Destroy App 0] r.
Proof.
  intros Hi Hs Ha. pose proof (app_polite Stop s Hi Hs ltac:(done)) as Hp.
  destruct (facade_act_inv _ s r Hi Hp Ha) as (s' & -> & Hi'). exists s'. split_and!; [done|done|apply Stopped].
  cbn in Ha. destruct (enabled App s) eqn:He; [|done].
  pose proof (busy_App None s Hi (enabled_App s He)) as Hb. destruct Hs as [H1 H2 [m Hm]].
  destruct (deref_ok 0 m s Hi Hm) as (i & Ei & Ed). unfold do_call in Ha. rewrite Hm, Ed in Ha. injection Ha as Ha.
  unfold stop_then in Ha. destruct (impl_stop App m i) as [i' []]; cbn in Ha.
  - destruct (bool_decide _); [|done]. injection Ha as <-. split; cbn; [done| |eauto]. rewrite Hb.
    intros τ m' k [[_ [= _ <-]]|[_ Hl]]%lookup_insert_Some; [by left|by rewrite lookup_empty in Hl].
  - injection Ha as <-. split; cbn; eauto.
Qed.

Lemma main_goes_on a rest s r : inv None s → phase (a :: rest) s → act a s = Some r → goes_on rest r.
Proof.
  intros Hi Hp. remember (a :: rest) as l eqn:El. destruct Hp as [uses s ? Hq ?|n uses s Hn ? Hq Hs|uses s Hu Hs|s Hs|s Hs].
  - injection El as <- <-. intros Ha. by apply new_goes_on with s.
  - destruct Hn as [-> | ->]; injection El as <- <-; intros Ha;
      destruct (λ Hp Hc, call_goes_on _ s r Hi Hs Hp Hc Ha) as (s' & -> & Hi' & Hs' & Hc);
      [by apply quiet_polite|by eauto| |by apply quiet_polite|by eauto|];
      exists s'; (split_and!; [done|done|]); [|by apply Using].
    apply (Constructed 2); [by right|done| |done].
    destruct Hq as [Hb Hq]. destruct Hs as [_ _ [m Hm]]. destruct (deref_ok 0 m s Hi Hm) as (i & Ei & Ed).
    unfold do_call in Hc. rewrite Hm, Ed in Hc. destruct (bool_decide _); [done|]. injection Hc as <-.
    split; [done|]. cbn. intros m' i' [[<- <-]|[_ ?]]%lookup_insert_Some; [apply (Hq m i Ei)|eauto].
  - destruct uses as [|c uses]; injection El as <- <-; intros Ha; [by apply stop_goes_on with s|].
    cbn in Hu. apply andb_true_iff in Hu as [Hc Hu].
    destruct (call_goes_on c s r Hi Hs) as (s' & -> & Hi' & Hs' & _); [apply app_polite; [done|done|by intros ? ->]|by left|done|].
    exists s'. split_and!; [done|done|by apply Using].
  - injection El as <- <-. by apply destroy_goes_on.
  - done.
Qed.

Lemma run_goes_on l rest s r : inv None s → phase rest s → own_actions l `prefix_of` rest → run l s = Some r →
  goes_on (drop (length (own_actions l)) rest) r.
Proof.
  revert rest s. induction l as [|a l IH]; intros rest s Hi Hp Hl Hr.
  { injection Hr as <-. exists s. by rewrite drop_0. }
  cbn in Hr. destruct (act a s) as [r1|] eqn:Ea; [|done].
  assert (∀ rest1, goes_on rest1 r1 → own_actions l `prefix_of` rest1 →
    goes_on (drop (length (own_actions l)) rest1) r) as Hgo.
  { intros rest1 (s1 & -> & Hi1 & Hp1) Hl1. by apply (IH rest1 s1). }
  unfold own_actions in *. cbn [filter list_filter] in *. destruct (decide (background a = false)) as [Hb|Hb].
  - destruct rest as [|a' rest]; [by apply prefix_nil_inv in Hl|].
    pose proof (prefix_cons_inv_1 _ _ _ _ Hl) as <-. apply prefix_cons_inv_2 in Hl.
    cbn [length drop]. apply Hgo; [|done]. by apply main_goes_on with a s.
  - apply Hgo; [|done]. apply background_goes_on with a s; try done. by destruct (background a).
Qed.

End phases.

(** Such a program is safe whatever goes on beside it: as long as the threads
    take their steps it neither misuses its mesh nor hangs, and at its end, or
    where an exception out of [start] ends it, no fault has happened; after the
    whole of it nothing is left. *)
Lemma program_safe cfg cb e refused uses d l r : forallb posts uses = true →
  own_actions l `prefix_of` main cfg cb e refused uses → run l (init d) = Some r →
  ∃ s, r = inr s ∧
    (∀ τ m k, busy s !! τ = Some (m, k) → ∃ l' s', (length l' ≤ 2)%nat ∧
       Forall (λ a, a = IoDrain m ∨ a = JoinDone τ) l' ∧ run l' s = Some (inr s') ∧ busy s' = ∅) ∧
    (own_actions l = main cfg cb e refused uses → busy s = ∅ → handles s = ∅ ∧ impls s = ∅).
Proof.
  intros Hu Hl Hr.
  destruct (run_goes_on cfg cb e refused l (main cfg cb e refused uses) (init d) r (facade_init_inv d))
    as (s & -> & Hi & Hp); [by apply Before|done|done|].
  exists s. split; [done|]. split; [intros τ m k Hb; by apply join_returns with k|].
  intros El Hb. rewrite El, drop_all in Hp.
  assert (solo true s) as [H1 _ H3].
  { remember [] as rest eqn:Er. destruct Hp as [?????|? ?? [-> | ->] ???|[] ???|??|??]; done. }
  assert (handles s = ∅) as Hh.
  { apply map_eq. intros h. rewrite lookup_empty. destruct (handles s !! h) as [p|] eqn:Eh; [|done].
    assert (h = 0%nat) as -> by eauto. destruct H3 as (τ & m & Hτ); [by eexists|]. by rewrite Hb in Hτ. }
  split; [done|]. apply map_eq. intros m. rewrite lookup_empty. destruct (impls s !! m) as [i|] eqn:Em; [|done].
  destruct (inv_owned None s Hi m ltac:(by eexists)) as [?|[[h|τ] Ho]]; [done|..]; cbn in Ho; by rewrite ?Hh, ?Hb in Ho.
Qed.

End programs.

End program.

Module chat.

(** ** Text *)

Definition is_digit (c : byte) : bool := let c := byte_to_Z c in (48 <=? c) && (c <=? 57).

Fixpoint skip_space (s : list byte) : list byte :=
  match s with
  | c :: s' => if hex.isspace c then skip_space s' else s
  | [] => []
  end.

(** The value of the digits a text begins with. *)
Fixpoint digits (acc : Z) (s : list byte) : Z :=
  match s with
  | c :: s => if is_digit c then digits (acc * 10 + (byte_to_Z c - 48)) s else acc
  | [] => acc
  end.

(** [std::strtoul(s, nullptr, 10)]: what is too large is [ULONG_MAX], a minus
    sign is allowed and negates. *)
Definition strtoul (s : list byte) : Z :=
  let s := skip_space s in
  let '(neg, s) := match s with
    | c :: s' => if Byte.eqb c "-" then (true, s') else if Byte.eqb c "+" then (false, s') else (false, s)
    | [] => (false, s)
    end in
  let v := digits 0 s in
  if 2 ^ 64 <=? v then 2 ^ 64 - 1 else if neg then wrap 64 (- v) else v.

(** [std::string::find] and [rfind] of a character. *)
Fixpoint find (c : byte) (s : list byte) : option nat :=
  match s with
  | [] => None
  | x :: s => if Byte.eqb x c then Some 0%nat else S <$> find c s
  end.

Fixpoint rfind (c : byte) (s : list byte) : option nat :=
  match s with
  | [] => None
  | x :: s =>
      match rfind c s with
      | Some k => Some (S k)
      | None => if Byte.eqb x c then Some 0%nat else None
      end
  end.

(** ** The command line *)

Definition parse_endpoint (arg : list byte) : option seed_peer :=
  match rfind ":" arg with
  | None => None
  | Some colon =>
      if (colon =? 0)%nat || (length arg <=? colon + 1)%nat then None
      else
        let p := wrap 16 (strtoul (drop (colon + 1) arg)) in
        if negb (p =? 0) then Some (mk_seed_peer (take colon arg) p) else None
  end.

(** The fields of [mesh_config] the program sets. *)
Record fields := mk_fields {
  f_group : list byte;
  f_port : Z;
  f_psk : list byte;
  f_identity : list byte;
  f_name : list byte;
  f_trusted : list trusted_node;
  f_static : list seed_peer;
}.

Definition with_fields (f : fields) (c : mesh_config) : mesh_config :=
  mk_mesh_config (nodeId c) (f_group f) (protocolVersion c) (f_psk f) (f_identity f)
    (identitySeedHex c) (f_name f) (f_trusted f) (requireIdentity c) (multicastAddr c)
    (multicastPort c) (multicastIface c) (announceInterval c) (peerLostTimeout c) (multicastTtl c)
    (f_port f) (bindAddr c) (heartbeatInterval c) (heartbeatTimeout c) (handshakeTimeout c)
    (reconnectBase c) (reconnectMax c) (initialTtl c) (dedupTtl c) (maxDedupEntries c) (fanout c)
    (membershipInterval c) (membershipTimeout c) (maxOutboundQueueBytes c) (overflowPolicy c)
    (maxMessageBytes c) (seedPeers c) (f_static f).

Definition default_fields : fields := mk_fields (bytes_of_string "default") 0 [] [] [] [] [].

(** The options that take a value. *)
Inductive flag := FPort | FPsk | FIdentity | FName | FTrust.

Definition flag_text (f : flag) : list byte :=
  match f with
  | FPort => bytes_of_string "--port"
  | FPsk => bytes_of_string "--psk"
  | FIdentity => bytes_of_string "--identity"
  | FName => bytes_of_string "--name"
  | FTrust => bytes_of_string "--trust"
  end.

Definition flag_of (a : list byte) : option flag :=
  if bool_decide (a = flag_text FPort) then Some FPort
  else if bool_decide (a = flag_text FPsk) then Some FPsk
  else if bool_decide (a = flag_text FIdentity) then Some FIdentity
  else if bool_decide (a = flag_text FName) then Some FName
  else if bool_decide (a = flag_text FTrust) then Some FTrust
  else None.

Definition trust (v : list byte) : trusted_node :=
  match find "=" v with
  | Some eq => mk_trusted_node (take eq v) (drop (eq + 1) v)
  | None => mk_trusted_node v []
  end.

Definition set_flag (f : flag) (v : list byte) (c : fields) : fields :=
  match f with
  | FPort => mk_fields (f_group c) (wrap 16 (strtoul v)) (f_psk c) (f_identity c) (f_name c) (f_trusted c) (f_static c)
  | FPsk => mk_fields (f_group c) (f_port c) v (f_identity c) (f_name c) (f_trusted c) (f_static c)
  | FIdentity => mk_fields (f_group c) (f_port c) (f_psk c) v (f_name c) (f_trusted c) (f_static c)
  | FName => mk_fields (f_group c) (f_port c) (f_psk c) (f_identity c) v (f_trusted c) (f_static c)
  | FTrust => mk_fields (f_group c) (f_port c) (f_psk c) (f_identity c) (f_name c) (f_trusted c ++ [trust v]) (f_static c)
  end.

Definition set_group (g : list byte) (c : fields) : fields :=
  mk_fields g (f_port c) (f_psk c) (f_identity c) (f_name c) (f_trusted c) (f_static c).

Definition add_static (ep : seed_peer) (c : fields) : fields :=
  mk_fields (f_group c) (f_port c) (f_psk c) (f_identity c) (f_name c) (f_trusted c) (f_static c ++ [ep]).

(** The loop over the arguments; the second component is what was ignored. *)
Fixpoint parse_args (args : list (list byte)) (c : fields) : fields * list (list byte) :=
  match args with
  | [] => (c, [])
  | a :: rest =>
      let other :=
        match parse_endpoint a with
        | Some ep => parse_args rest (add_static ep c)
        | None => let '(c, ign) := parse_args rest c in (c, a :: ign)
        end in
      match flag_of a, rest with
      | Some f, v :: rest => parse_args rest (set_flag f v c)
      | _, _ => other
      end
  end.

(** [argv[1]], if it does not begin with a dash, is the group. *)
Definition parse (args : list (list byte)) : fields * list (list byte) :=
  match args with
  | g :: rest =>
      match g with
      | c :: _ => if Byte.eqb c "-" then parse_args args default_fields
                  else parse_args rest (set_group g default_fields)
      | [] => parse_args rest (set_group g default_fields)
      end
  | [] => (default_fields, [])
  end.

Definition config (nid : peer_id) (args : list (list byte)) : mesh_config :=
  with_fields (parse args).1 (default_config nid).

(** ** The program *)

(** [std::getline] until it fails: the last line need not be terminated. *)
Fixpoint getlines (line : list byte) (input : list byte) : list (list byte) :=
  match input with
  | [] => match line with [] => [] | _ => [line] end
  | c :: input =>
      if Byte.eqb c Byte.x0a then line :: getlines [] input else getlines (line ++ [c]) input
  end.

(** The name of a node, or the beginning of its identifier. *)
Definition who (n : mesh_delegate.t) (p : peer_id) : list byte :=
  match mesh_delegate.node_name p n with [] => take 8 (to_string p) | name => name end.

Definition newline : list byte := [Byte.x0a].

(** What the callbacks print. *)
Definition printed (n : mesh_delegate.t) (e : peer_manager.event) : list byte :=
  match e with
  | peer_manager.PeerConnected p => bytes_of_string "[+ connected]    " ++ who n p ++ newline
  | peer_manager.PeerDisconnected p => bytes_of_string "[- disconnected] " ++ who n p ++ newline
  | peer_manager.MemberJoined p => bytes_of_string "[+ connected]    " ++ who n p ++ newline
  | peer_manager.MemberLeft p => bytes_of_string "[- disconnected] " ++ who n p ++ newline
  | peer_manager.PeerLost p => bytes_of_string "[x lost]         " ++ who n p ++ newline
  | peer_manager.MessageReceived from data => who n from ++ bytes_of_string "> " ++ data ++ newline
  | peer_manager.OnError e => bytes_of_string "[error] " ++ what e ++ newline
  | _ => []
  end.

(** All handlers but [onPeerDiscovered]. *)
Definition cb : mesh_delegate.callbacks :=
  mesh_delegate.mk_callbacks false true true true true true true true.

(** The mesh of [main]: every line that is typed is broadcast until the input
    ends. *)
Definition main (nid : peer_id) (e : startup.env) (refused : option (Z * list byte))
    (args : list (list byte)) (input : list byte) : list facade.action :=
  program.main (config nid args) cb e refused (map facade.Broadcast (getlines [] input)).

(** ** Writing a command line *)

(** Decimal digits, at most [n] of them. *)
Fixpoint decimal (n : nat) (v : Z) : list byte :=
  match n with
  | O => []
  | S n => if v <? 10 then [byte_of_Z (48 + v)] else decimal n (v `div` 10) ++ [byte_of_Z (48 + v `mod` 10)]
  end.

Definition port_text (p : Z) : list byte := decimal 5 p.

(** What the program prints once the node [i] has started, from the
    configuration [c] it was given. *)
Definition quoted (s : list byte) : list byte := [Byte.x22] ++ s ++ [Byte.x22].

Definition node_line (i : facade.impl) (c : mesh_config) : list byte :=
  bytes_of_string "this node: " ++ to_string (startup.id (facade.node i)) ++
  bytes_of_string "  port: " ++ port_text (startup.listen_port (facade.node i)) ++
  bytes_of_string "  group: " ++ groupName c ++
  match psk c with [] => [] | _ => bytes_of_string "  [secured]" end ++ newline.

Definition identity_line (i : facade.impl) (c : mesh_config) : list byte :=
  match startup.identity_public_key (facade.node i) with
  | [] => []
  | pub =>
      bytes_of_string "identity" ++
      match nodeName c with [] => [] | name => bytes_of_string " " ++ quoted name end ++
      bytes_of_string " pubkey: " ++ pub ++ bytes_of_string "  (share for peers' --trust)" ++ newline
  end.

Definition static_line (c : mesh_config) : list byte :=
  match staticPeers c with
  | [] => []
  | ps =>
      bytes_of_string "static peers:" ++
      concat (map (λ s, bytes_of_string " " ++ host s ++ bytes_of_string ":" ++ port_text (port s)) ps) ++
      newline
  end.

Definition banner (i : facade.impl) (c : mesh_config) : list byte :=
  node_line i c ++ identity_line i c ++ static_line c ++
  bytes_of_string "type messages and press enter (Ctrl-D to quit)" ++ newline.

(** What goes to the error stream while the arguments are read. *)
Definition complaints (args : list (list byte)) : list byte :=
  concat (map (λ a, bytes_of_string "ignoring unrecognized argument: " ++ a ++ newline) (parse args).2).

(** What a user may ask for. *)
Inductive setting :=
  | SPort (p : Z)
  | SPsk (v : list byte)
  | SIdentity (v : list byte)
  | SName (v : list byte)
  | STrust (key : list byte) (label : option (list byte))
  | SPeer (host : list byte) (p : Z).

Definition render (x : setting) : list (list byte) :=
  match x with
  | SPort p => [flag_text FPort; port_text p]
  | SPsk v => [flag_text FPsk; v]
  | SIdentity v => [flag_text FIdentity; v]
  | SName v => [flag_text FName; v]
  | STrust key lbl => [flag_text FTrust; key ++ match lbl with Some l => bytes_of_string "=" ++ l | None => [] end]
  | SPeer host p => [host ++ bytes_of_string ":" ++ port_text p]
  end.

Definition apply (c : fields) (x : setting) : fields :=
  match x with
  | SPort p => mk_fields (f_group c) p (f_psk c) (f_identity c) (f_name c) (f_trusted c) (f_static c)
  | SPsk v => mk_fields (f_group c) (f_port c) v (f_identity c) (f_name c) (f_trusted c) (f_static c)
  | SIdentity v => mk_fields (f_group c) (f_port c) (f_psk c) v (f_name c) (f_trusted c) (f_static c)
  | SName v => mk_fields (f_group c) (f_port c) (f_psk c) (f_identity c) v (f_trusted c) (f_static c)
  | STrust key lbl =>
      mk_fields (f_group c) (f_port c) (f_psk c) (f_identity c) (f_name c)
        (f_trusted c ++ [mk_trusted_node key (default [] lbl)]) (f_static c)
  | SPeer host p => add_static (mk_seed_peer host p) c
  end.

(** Keys hold no equals sign, host names are not empty, ports fit. *)
Definition sayable (x : setting) : Prop :=
  match x with
  | SPort p => in_range 16 p
  | STrust key _ => "="%byte ∉ key
  | SPeer host p => host ≠ [] ∧ in_range 16 p ∧ p ≠ 0
  | _ => True
  end.

Lemma digit_value d : 0 ≤ d ≤ 9 → is_digit (byte_of_Z (48 + d)) = true ∧ byte_to_Z (byte_of_Z (48 + d)) = 48 + d.
Proof.
  intros Hd.
  assert (d = 0 ∨ d = 1 ∨ d = 2 ∨ d = 3 ∨ d = 4 ∨ d = 5 ∨ d = 6 ∨ d = 7 ∨ d = 8 ∨ d = 9) as H by lia.
  repeat (destruct H as [->|H]; [split; vm_compute; reflexivity|]). subst. split; vm_compute; reflexivity.
Qed.

Lemma decimal_digits n v : 0 ≤ v → Forall (λ c, is_digit c = true) (decimal n v).
Proof.
  revert v. induction n as [|n IH]; intros v Hv; simpl; [constructor|]. destruct (Z.ltb_spec v 10).
  - repeat constructor. apply digit_value. lia.
  - apply Forall_app. split; [apply IH; by apply Z.div_pos|]. repeat constructor. apply digit_value.
    pose proof (Z.mod_pos_bound v 10). lia.
Qed.

Lemma digits_app acc l1 l2 : Forall (λ c, is_digit c = true) l1 →
  digits acc (l1 ++ l2) = digits (digits acc l1) l2.
Proof.
  revert acc. induction l1 as [|c l1 IH]; intros acc Hl; [done|]. apply list.Forall_cons in Hl as [Hc Hl].
  simpl. rewrite Hc. by apply IH.
Qed.

Lemma digits_decimal n v : 0 ≤ v < 10 ^ Z.of_nat n → digits 0 (decimal n v) = v.
Proof.
  revert v. induction n as [|n IH]; intros v Hv; [simpl in *; lia|].
  cbn [decimal]. destruct (Z.ltb_spec v 10) as [H|H].
  - cbn [digits]. destruct (digit_value v ltac:(lia)) as [-> ->]. lia.
  - rewrite Nat2Z.inj_succ, Z.pow_succ_r in Hv by lia.
    rewrite digits_app by (apply decimal_digits, Z.div_pos; lia).
    rewrite IH by (split; [apply Z.div_pos; lia|apply Z.div_lt_upper_bound; lia]).
    pose proof (Z.mod_pos_bound v 10). cbn [digits].
    destruct (digit_value (v `mod` 10) ltac:(lia)) as [-> ->]. pose proof (Z.div_mod v 10). lia.
Qed.

Lemma decimal_head n v : 0 ≤ v → ∃ c l, decimal (S n) v = c :: l ∧ is_digit c = true.
Proof.
  intros Hv. pose proof (decimal_digits (S n) v Hv) as Hf.
  destruct (decimal (S n) v) as [|c l] eqn:E.
  - exfalso. simpl in E. destruct (v <? 10); [done|]. by apply app_nil in E as [_ ?].
  - apply list.Forall_cons in Hf as [Hc _]. eauto.
Qed.

Lemma digit_plain c : is_digit c = true → hex.isspace c = false ∧ Byte.eqb c "-" = false ∧ Byte.eqb c "+" = false ∧
  c ≠ ":"%byte.
Proof. by destruct c. Qed.

(** Reading a port back. *)
Lemma strtoul_port p : in_range 16 p → wrap 16 (strtoul (port_text p)) = p.
Proof.
  unfold in_range. intros Hp. unfold strtoul, port_text.
  destruct (decimal_head 4 p ltac:(lia)) as (c & l & E & Hc). destruct (digit_plain c Hc) as (H1 & H2 & H3 & _).
  rewrite E. cbn [skip_space]. rewrite H1, H2, H3. rewrite <-E, digits_decimal by (simpl; lia).
  destruct (Z.leb_spec (2 ^ 64) p); [lia|]. by apply wrap_small.
Qed.

Lemma find_app c l1 l2 : c ∉ l1 → find c (l1 ++ c :: l2) = Some (length l1).
Proof.
  induction l1 as [|x l1 IH]; intros Hc; simpl.
  - by rewrite (Byte.byte_dec_lb (x:=c) (y:=c)) by done.
  - apply not_elem_of_cons in Hc as [Hx Hc]. destruct (Byte.eqb x c) eqn:E; [by apply Byte.byte_dec_bl in E as ->|].
    by rewrite IH.
Qed.

Lemma find_none c l : c ∉ l → find c l = None.
Proof.
  induction l as [|x l IH]; intros Hc; simpl; [done|]. apply not_elem_of_cons in Hc as [Hx Hc].
  destruct (Byte.eqb x c) eqn:E; [by apply Byte.byte_dec_bl in E as ->|]. by rewrite IH.
Qed.

Lemma rfind_none c l : c ∉ l → rfind c l = None.
Proof.
  induction l as [|x l IH]; intros Hc; simpl; [done|]. apply not_elem_of_cons in Hc as [Hx Hc]. rewrite IH by done.
  destruct (Byte.eqb x c) eqn:E; [by apply Byte.byte_dec_bl in E as ->|done].
Qed.

Lemma rfind_app c l1 l2 : c ∉ l2 → rfind c (l1 ++ c :: l2) = Some (length l1).
Proof.
  intros Hc. induction l1 as [|x l1 IH]; simpl; [|by rewrite IH].
  rewrite rfind_none by done. by rewrite (Byte.byte_dec_lb (x:=c) (y:=c)) by done.
Qed.

Lemma trust_text key lbl : "="%byte ∉ key →
  trust (key ++ match lbl with Some l => bytes_of_string "=" ++ l | None => [] end) =
  mk_trusted_node key (default [] lbl).
Proof.
  intros Hk. unfold trust. destruct lbl as [l|]; simpl.
  - rewrite find_app by done. rewrite take_app_length. f_equal. rewrite drop_app_ge by lia.
    by replace (length key + 1 - length key)%nat with 1%nat by lia.
  - by rewrite app_nil_r, find_none.
Qed.

Lemma endpoint_text host p : host ≠ [] → in_range 16 p → p ≠ 0 →
  parse_endpoint (host ++ bytes_of_string ":" ++ port_text p) = Some (mk_seed_peer host p).
Proof.
  intros Hh Hp Hp0. unfold parse_endpoint. cbn [bytes_of_string].
  change (bytes_of_string ":" ++ port_text p) with (":"%byte :: port_text p).
  assert (0 ≤ p) as Hp1 by (unfold in_range in Hp; lia).
  rewrite rfind_app.
  2:{ intros Hin. pose proof (proj1 (list.Forall_forall _ _) (decimal_digits 5 p Hp1) _ Hin) as Hd.
      by apply digit_plain in Hd as (_ & _ & _ & ?). }
  destruct (decimal_head 4 p Hp1) as (c & l & E & _).
  assert (length host ≠ 0)%nat by (by destruct host).
  assert (length (port_text p) = S (length l)) as El by (unfold port_text; by rewrite E).
  rewrite length_app. cbn [length]. rewrite El.
  destruct (Nat.eqb_spec (length host) 0) as [?|_]; [done|].
  destruct (Nat.leb_spec (length host + S (S (length l))) (length host + 1)) as [?|_]; [lia|].
  cbn [orb]. rewrite drop_app_ge by lia. replace (length host + 1 - length host)%nat with 1%nat by lia.
  cbn [drop]. rewrite drop_0, strtoul_port by done. rewrite (proj2 (Z.eqb_neq p 0)) by done.
  cbn [negb]. by rewrite take_app_length.
Qed.

(** An endpoint is not an option. *)
Lemma endpoint_no_flag host p : flag_of (host ++ bytes_of_string ":" ++ port_text p) = None.
Proof.
  assert (":"%byte ∈ host ++ bytes_of_string ":" ++ port_text p) as Hin.
  { apply elem_of_app. right. apply elem_of_app. left. by apply list_elem_of_singleton. }
  unfold flag_of. repeat (rewrite bool_decide_false; [|intros E; rewrite E in Hin; vm_compute in Hin; set_solver]). done.
Qed.

Lemma flag_of_text f : flag_of (flag_text f) = Some f.
Proof. by destruct f. Qed.

Lemma parse_render x rest c : sayable x → parse_args (render x ++ rest) c = parse_args rest (apply c x).
Proof.
  intros Hx. destruct x as [p|v|v|v|key lbl|h p]; cbn [render app parse_args]; rewrite ?flag_of_text; cbn [set_flag apply sayable] in *; try done.
  - by rewrite strtoul_port.
  - by rewrite trust_text.
  - destruct Hx as (Hh & Hp & Hp0). rewrite endpoint_no_flag. by rewrite endpoint_text.
Qed.

Definition command_line (g : list byte) (xs : list setting) : list (list byte) := g :: concat (map render xs).

(** The command line says what it means: a group that does not begin with
    a dash, followed by any settings, each written as its option or as
    [host:port], is read back as exactly these settings, later ones over
    earlier ones, with no argument ignored, on top of the defaults. *)
Theorem command_line_roundtrip nid g xs : head g ≠ Some "-"%byte → Forall sayable xs →
  parse (command_line g xs) = (fold_left apply xs (set_group g default_fields), []) ∧
  config nid (command_line g xs) = with_fields (fold_left apply xs (set_group g default_fields)) (default_config nid).
Proof.
  intros Hg Hx. assert (∀ c, parse_args (concat (map render xs)) c = (fold_left apply xs c, [])) as Hp.
  { induction Hx as [|x xs Hx _ IH]; intros c; [done|]. cbn [map concat fold_left]. by rewrite parse_render. }
  assert (parse (command_line g xs) = (fold_left apply xs (set_group g default_fields), [])) as E.
  { unfold parse, command_line. destruct g as [|c g]; [apply Hp|].
    destruct (Byte.eqb c "-") eqn:Ec; [|apply Hp]. apply Byte.byte_dec_bl in Ec as ->. done. }
  split; [done|]. unfold config. by rewrite E.
Qed.

Lemma command_line_roundtrip_witness :
  let xs := [SPort 45000; STrust (bytes_of_string "ab12") (Some (bytes_of_string "b=c"));
             SPeer (bytes_of_string "fe80::1") 45000; SPsk (bytes_of_string "--port")] in
  parse (command_line (bytes_of_string "room") xs) =
    (mk_fields (bytes_of_string "room") 45000 (bytes_of_string "--port") [] []
       [mk_trusted_node (bytes_of_string "ab12") (bytes_of_string "b=c")]
       [mk_seed_peer (bytes_of_string "fe80::1") 45000], []) ∧
  parse (command_line (bytes_of_string "room") xs) =
    (fold_left apply xs (set_group (bytes_of_string "room") default_fields), []).
Proof.
  intros xs. split; [vm_compute; reflexivity|].
  apply (command_line_roundtrip (sample_id 1)).
  - discriminate.
  - repeat constructor; vm_compute; try congruence; intros H; repeat (apply elem_of_cons in H as [H|H]; [discriminate|]); by apply elem_of_nil in H.
Defined.

(** Text after the digits is not noticed, and a port is taken modulo [2^16]. *)
Example lax_endpoints :
  parse_endpoint (bytes_of_string "host:12abc") = Some (mk_seed_peer (bytes_of_string "host") 12) ∧
  parse_endpoint (bytes_of_string "host:65537") = Some (mk_seed_peer (bytes_of_string "host") 1) ∧
  parse_endpoint (bytes_of_string "host:-1") = Some (mk_seed_peer (bytes_of_string "host") 65535).
Proof. vm_compute. by split_and!. Qed.

(** What is typed is broadcast line by line. *)
Lemma getlines_app line l rest : Byte.x0a ∉ l →
  getlines line (l ++ Byte.x0a :: rest) = (line ++ l) :: getlines [] rest.
Proof.
  revert line. induction l as [|c l IH]; intros line Hl; simpl; [by rewrite app_nil_r|].
  apply not_elem_of_cons in Hl as [Hc Hl].
  destruct (Byte.eqb c Byte.x0a) eqn:E; [by apply Byte.byte_dec_bl in E as ->|].
  rewrite IH by done. by rewrite <-(assoc_L (++)).
Qed.

Lemma getlines_lines ls : Forall (λ l, Byte.x0a ∉ l) ls →
  getlines [] (concat (map (λ l, l ++ newline) ls)) = ls.
Proof.
  induction 1 as [|l ls Hl _ IH]; [done|]. cbn [map concat]. rewrite <-(assoc_L (++)).
  unfold newline at 1. cbn [app]. by rewrite getlines_app, IH.
Qed.

(** The chat program is safe on every command line and input, whatever its
    node hears. *)
Lemma chat_is_safe `{!Sodium} nid e refused args input d l r :
  program.own_actions l `prefix_of` main nid e refused args input →
  facade.run l (facade.init d) = Some r →
  ∃ s, r = inr s ∧
    (program.own_actions l = main nid e refused args input → facade.busy s = ∅ →
     facade.handles s = ∅ ∧ facade.impls s = ∅).
Proof.
  intros Hl Hr. destruct (program.program_safe (config nid args) cb e refused
    (map facade.Broadcast (getlines [] input)) d l r) as (s & ? & _ & ?); [|done|done|by exists s].
  by induction (getlines [] input).
Qed.

(** The program at work: it starts, broadcasts two lines and, at the end of its
    input, waits for the IO thread and leaves nothing behind. *)
#[local] Existing Instance crypto.toy_sodium.

Definition sample_main : list facade.action :=
  main (sample_id 1) facade.sample_env None [bytes_of_string "room"; bytes_of_string "host:45000"]
    (bytes_of_string "hello" ++ newline ++ bytes_of_string "world").

Example chat_runs :
  facade.ends (facade.sample_after
    (take 6 sample_main ++ [facade.IoDrain 0; facade.JoinDone facade.App] ++ drop 6 sample_main)) = true ∧
  facade.polite_run (take 6 sample_main ++ [facade.IoDrain 0; facade.JoinDone facade.App] ++ drop 6 sample_main)
    (facade.init facade.sample_disk) = true.
Proof. split; vm_compute; reflexivity. Qed.

Example chat_greets :
  match facade.sample_after (take 3 sample_main) with
  | inr s =>
      match facade.deref 0 s with
      | inr (_, i) => banner i (config (sample_id 1) [bytes_of_string "room"; bytes_of_string "host:45000"])
      | inl _ => []
      end
  | inl _ => []
  end =
  bytes_of_string "this node: 00000000000000000000000000000001  port: 40000  group: room" ++ newline ++
  bytes_of_string "static peers: host:45000" ++ newline ++
  bytes_of_string "type messages and press enter (Ctrl-D to quit)" ++ newline.
Proof. vm_compute. reflexivity. Qed.

End chat.

Module ping.

Definition short (p : peer_id) : list byte := take 8 (to_string p).

(** [onPeerConnected] and [onMessage]: what is sent, and to whom. *)
Definition on_peer_connected (self p : peer_id) : list (peer_id * list byte) :=
  [(p, bytes_of_string "ping from " ++ short self)].

Definition on_message (self from : peer_id) (msg : list byte) : list (peer_id * list byte) :=
  if bool_decide (take 4 msg = bytes_of_string "ping")
  then [(from, bytes_of_string "pong from " ++ short self)] else [].

(** The sends of the callbacks. *)
Definition responses (self : peer_id) (e : peer_manager.event) : list (peer_id * list byte) :=
  match e with
  | peer_manager.PeerConnected p => on_peer_connected self p
  | peer_manager.MessageReceived from data => on_message self from data
  | _ => []
  end.

Definition printed (e : peer_manager.event) : list byte :=
  match e with
  | peer_manager.PeerConnected p =>
      bytes_of_string "connected to " ++ short p ++ bytes_of_string ", sending ping" ++ chat.newline
  | peer_manager.MessageReceived from data => short from ++ bytes_of_string "> " ++ data ++ chat.newline
  | _ => []
  end.

Definition banner (i : facade.impl) : list byte :=
  bytes_of_string "this node: " ++ to_string (startup.id (facade.node i)) ++ chat.newline.

Definition cb : mesh_delegate.callbacks :=
  mesh_delegate.mk_callbacks false true false false false false true false.

(** The program: between start and stop it only sleeps. *)
Definition main (nid : peer_id) (e : startup.env) (refused : option (Z * list byte)) : list facade.action :=
  program.main (default_config nid) cb e refused [].

(** What the IO thread does with an event: the callback, and what it sends. *)
Definition react (self : peer_id) (e : peer_manager.event) : list facade.action :=
  facade.IoHear 0 e ::
  map (λ '(dst, data), facade.Call (facade.Io 0) 0 (facade.Send dst data)) (responses self e).

Lemma react_background self e : forallb program.background (react self e) = true.
Proof. cbn. induction (responses self e) as [|[dst data] l IH]; [done|exact IH]. Qed.

Lemma ping_is_safe `{!Sodium} nid e refused d l r :
  program.own_actions l `prefix_of` main nid e refused →
  facade.run l (facade.init d) = Some r →
  ∃ s, r = inr s ∧
    (program.own_actions l = main nid e refused → facade.busy s = ∅ →
     facade.handles s = ∅ ∧ facade.impls s = ∅).
Proof.
  intros Hl Hr. destruct (program.program_safe (default_config nid) cb e refused [] d l r) as (s & ? & _ & ?); [done..|].
  by exists s.
Qed.

(** A ping is answered once, and the answer is not. *)
Lemma ping_pong a b :
  on_peer_connected a b = [(b, bytes_of_string "ping from " ++ short a)] ∧
  on_message b a (bytes_of_string "ping from " ++ short a) = [(a, bytes_of_string "pong from " ++ short b)] ∧
  on_message a b (bytes_of_string "pong from " ++ short b) = [].
Proof. by split_and!. Qed.

End ping.
